(* ===== verification/_CoqProject ===== *)
-Q . S2P
Prelude.v
RustStd.v
Utf8.v
DraftBytes.v
TerminalKeys.v
CliVersion.v
Protocol.v
Schema.v
Progress.v
Rules.v
Matching.v
Classify.v
Registry.v
Session.v
Quiesce.v
InputSystem.v
StatusDetect.v
SessionManager.v
AgentJournal.v
AgentRuntime.v
Fanout.v
FanoutProofs.v
TerminalSize.v
TerminalWindow.v
TerminalTap.v
CompanionEvents.v
PeerReplay.v
Reaper.v
EventLog.v
EventLogProofs.v
TransferWork.v
TransferWorkProofs.v
CloudTasks.v
CloudPublisher.v
CloudPublisherProofs.v
StageRuns.v
StageOps.v
StageOpsSpec.v
StageWork.v
StageMoves.v
StageOpsProofs.v
Workflow.v
WorkflowProofs.v
StageRefine.v
Routing.v
RoutingProofs.v
