(* ===== verification/Prelude.v ===== *)
(** * Kanna's terminals, verified

    Kanna runs coding agents (Claude Code, Codex, Copilot, OpenCode,
    Antigravity) in pseudo-terminals.  The daemon of [crates/daemon] owns those
    terminals.  It takes input from several producers and writes it to each
    PTY, mirrors the output into a headless terminal, decides from the rendered
    frame whether an agent is busy, waiting or idle, decides whether text on
    the composer line was typed by a human, and fans the output out to the
    connected clients.  The server of [crates/kanna-server] shares one daemon
    connection per terminal among the viewers of a task, and the runtime of
    [crates/task-transfer] lets trusted peers act on tasks.  This library models
    that core and proves what the rest of the program relies on.  All paths
    below are relative to [src/].

    ** Parts of the program and where they are

    - [DraftBytes]: [crates/daemon/src/draft_bytes.rs], which bytes of a draft
      write can put text at a composer.
    - [TerminalKeys]: [crates/runtime-defaults/src/terminal_keys.rs], the named
      keys agents may send.
    - [CliVersion]: [crates/daemon/src/detection/version.rs], versions found in
      [--version] output, their order, and version ranges.
    - [Protocol], [Schema]: the enumerations of [protocol.rs] and
      [providers.rs], and the decoded rule file of [detection/schema.rs].
    - [Progress]: [detection/progress.rs], the OSC 9;4 byte scanner.
    - [Rules]: [detection/rules.rs], compiling, merging and resolving rule
      files.
    - [Matching], [Classify]: [detection/classify.rs], line tests and composer
      landmarks; structural predicates, verdicts, composer reading and waiting
      prompts.
    - [Registry]: [detection/mod.rs] and [Classifier] of [classify.rs], the
      active rules behind a lock and a generation counter, loading an override
      file, and a session's cached view.
    - [Session]: the input side of [SessionHandle] in [session.rs] and the
      writer branches of [stream_output] in [output.rs]: message framing, the
      draft ledger, attestation, the PTY writer.  [InputSystem] interleaves
      them.
    - [AgentJournal]: [AgentJournal], [RetryBudget] and the durable replacement of
      [agent.rs], with [is_safe] of [crates/runtime-defaults/src/session_id.rs].
    - [AgentRuntime]: the handlers, readers and kills of [agent_runtime/] over the
      registry and the exit publication of [agent.rs].
    - [StatusDetect]: the status checks of [session.rs] and the status tick of
      [output.rs].
    - [SessionManager]: the session table of [session.rs].
    - [Fanout], [FanoutProofs]: [fanout.rs], subscriber mailboxes, lag and
      resynchronization, and writer tasks.

    - [Quiesce]: [StreamControl] of [session.rs], the loop of [stream_output] and
      the quiesce, transfer and rollback of [handoff.rs], access by access.
    - [TerminalSize]: [SessionSizeState] of [client.rs], which viewer sizes a
      PTY.
    - [Reaper]: [reaper.rs], admission, polling and escalation of children.
    - [TerminalWindow]: [crates/kanna-server/src/terminal_window.rs], the bounded
      snapshot, its scrollback history and the output ring.
    - [TerminalTap]: [TerminalTap] and [stream_terminal_windowed] of
      [crates/kanna-server/src/ksp.rs] with the resume position of
      [packages/stream-client/src/index.ts], over the ring of [TerminalWindow].
    - [CompanionEvents]: the two-lane event channel of
      [crates/task-transfer/src/runtime/state.rs].
    - [PeerReplay]: [authenticate_peer_request] of [runtime/listener.rs] and the
      replay records of [runtime/replay_store.rs] there.
    - [EventLog], [EventLogProofs]: [crates/visual-companion/src/event.rs], the
      log of a companion page's events, with the directory calls of
      [discovery.rs].
    - [TransferWork], [TransferWorkProofs]: [db/transfer_work.rs],
      [transfer_engine.rs] and [transfer_engine/queue.rs] of [kanna-server], the
      durable queue of the steps that move a task between machines.
    - [CloudTasks], [CloudPublisher], [CloudPublisherProofs]:
      [cloud_task_publisher.rs] of [kanna-server], the snapshot of the tasks as it
      is published, and the state machine that publishes it over the relay
      ([relay.rs]); between them the socket and the relay, whose handlers run side by
      side and store in the order in which they were begun
      ([services/relay/src/index.ts], [cloudTaskPublication.ts],
      [webSocketMessageLifecycle.ts]).
    - [StageRuns], [StageOps]: [task_creator/lifecycle.rs] with [db/stage_runs.rs],
      [db/lifecycle_operations.rs] and [daemon_client.rs], the moves of a task
      between its stages and their recovery; proofs in [StageOpsSpec] (what the
      statements and a reconciliation change), [StageWork] (the forks),
      [StageMoves] (the moves) and [StageOpsProofs] (the runs, the theorems, and
      histories).  [StageRefine] states the machine of named requests whose traces
      they are.
    - [Workflow], [WorkflowProofs]: [task_creator/definitions.rs], the stages of a
      workflow, the forms it may be written in, its snapshot, and the preference of
      providers by wildcard.
    - [Routing], [RoutingProofs]: [task_creator/stages.rs] and
      [http_api/task_actions.rs], what an advance, a verdict and a request for a
      revision decide, and the task under its workflow.

    How they interact: a producer's write is classified by [DraftBytes], moves
    the ledger of [Session] and is queued for the writer; output is mirrored,
    checked by [StatusDetect] through a [Registry] classifier that evaluates
    [Classify] over the rules of [Rules], and broadcast by [Fanout].  The
    attestation of [Session] reads the composer state [Classify] defines.
    [SessionManager] owns the handles; a handoff seals it and quiesces each
    reader ([Quiesce]), whose writer is that of [Session].  [Fanout]'s lines
    reach the server, where [TerminalTap] cuts the snapshot with
    [TerminalWindow], records the output in its ring and follows up to its
    viewers.  [TerminalSize] takes their geometries; [Reaper] takes the children
    of closed sessions.  [CompanionEvents] and [PeerReplay] are the lanes and
    the gate of the peer-to-peer runtime; what a person clicks in a companion
    goes to [EventLog].  What a peer asks becomes a row of [TransferWork], whose
    drain runs it.  [Routing] reads the task's rows against its [Workflow] and starts
    the operations of [StageOps], which kills and starts the sessions of a task through
    the daemon and keeps its rows ([StageRuns]); what those rows say of every task is
    what [CloudTasks] maps and [CloudPublisher] sends.  Agents with a structured protocol
    have no terminal: [AgentRuntime] interleaves the requests, the readers and
    the exits of a session, and what it journals is kept by [AgentJournal].

    ** How state and operations correspond to the code

    Every operation keeps its Rust name (a method whose name is taken twice is
    prefixed by its type, as [Classifier_classify]).  A struct is a record, an
    enum an inductive type, [Result] is [result] and [?] is [let?].  A [str] is
    the list of its scalar values and bytes are integers below 256; where the
    source works on UTF-8 bytes, so does the model ([Matching], on [Utf8]).
    Machine integers are [Z] with the source's saturating or wrapping
    arithmetic written out ([u64_saturating_add], [u64_add]).  A [HashMap] is a
    [gmap].  Shared objects ([Arc] handles, weak locks, mailboxes shared with
    tasks) live in a store under a number, so aliasing is visible.

    Concurrent code is a step relation with one step per access to shared
    state, and theorems quantify over every interleaving ([reachable] below):
    [Registry.step] (publish and refresh are two accesses each),
    [InputSystem.sys_step] (attestation samples the chunk counter, reads the
    frame, and decides, as three steps; completing a draft write is two),
    [SessionManager.table_step], and [Fanout.fanout_step] (a writer task takes
    a line, acquires the socket and tests for cancellation, and finishes, as
    three steps; the end of a write and the release of the socket are one),
    [Quiesce.loop_step] (one step per atomic), [TerminalTap.system_step],
    [CompanionEvents.channel_step] (a critical section, or one [try_recv]),
    [PeerReplay.owner_step] (the checks of a payload, with the clock read for them;
    the critical section under its mutex; and each file operation),
    [AgentRuntime.world_step] (one acquisition of the registry, the session or
    the completion lock, or one call outside, with the list of the tasks under
    way), [AgentJournal.host_step] (one call on the journal, or a restart),
    [StageOps.step] (one statement, transaction, daemon request or removal of a
    fork, the mark of a headless spawn and its write apart; the end of the server, the
    exit of the session, the closing of the task and reconciliations that the database
    fails come between any two), [Routing.routed_step] (a whole request, which waits for
    the operation under way, or one step of [StageOps]), [CloudPublisher.step] (a tick, an acknowledgement,
    a connection event, a message the relay takes up, or what one of its handlers does
    next),
    [TransferWork.engine_step] (one statement, one access to the busy transfers,
    one wake-up, or a restart), [EventLogProofs.act] (one append, whose calls may fail or be its last) and
    [Reaper.reaper_event] (the worker lets go of the state while it polls).
    [exec] runs such a relation's actions.
    Atomics are sequentially consistent.  History fields (accepted inputs, the
    bytes on the PTY, lines queued for a subscriber) are written by the steps
    and read by none.

    ** What the theorems show

    - Input: the PTY gets exactly the accepted bytes in acceptance order; an
      acknowledgement means the bytes are on the PTY; queued input always
      drains; a framed message is one paste unless it contains the terminator.
    - Attestation: the ledger counts exactly the composer content typed since
      the last boundary, and a frame clears a draft only when it was rendered
      after the draft reached the terminal.  The counter implements a
      declarative grammar of terminal writes.
    - Detection: a rule file compiles exactly when it is valid; overrides
      replace by id; the verdict is that of a best-ranked matching rule; hot
      reload never leaves a session on stale rules; the byte search is the
      character search; parked composers and snippets are characterized.
    - Status: a published change rests on a complete frame, output bursts are
      throttled, and a quiet tick converges.
    - Sessions: retirement follows the table, lifecycle locks are unique per
      id, a sealed table only shrinks, teardown is claimed once.
    - Fanout: memory is bounded, delivery is a snapshot followed by gap-free
      live output, and a replaced registration never writes after its
      successor.
    - Versions: a total order up to trailing zeros, which is what equality means.
    - Agents: input reaches only the child it was meant for, every child spawned
      is accounted for, an exit is published once and a kill does not end
      before; the handoff seal freezes what the successor is sent; a permission
      is answered once.  The journal's file holds the session's events whatever
      writes fail, a rewrite is atomic, a repair is not put off, and a restart
      gives the same history and provider session.
    - Handoff: a transferred session's reader is out of the way, provided a
      handoff does not begin on the flag of an earlier one; a quiesce request is
      served and no wake-up is lost.
    - Geometry: one controller, elected or chosen, local before remote.
    - Reaping: every accepted process is accounted for, and new work cannot
      postpone an older one's check.
    - Viewers: the window, the history and what is evicted are the snapshot byte
      for byte, the window and the history as long as their bounds allow; a client's emulator has been fed a snapshot and an unbroken
      prefix of the output since, through every reconnection, and all of it
      once it has caught up.
    - Peers: a sealed request is accepted once, where it gets the replay records
      while it is fresh, and a request with lasting
      effects is refused again across restarts; neither lane of events starves
      the other, and a waiting snapshot is current and will be read.
    - Companion log: the log is what it held, then the events given to it, in order
      and none twice; one that is acknowledged keeps its line, and no history of
      failures and crashes blocks later events, but where the log is removed under an
      event that was begun ([EventLogProofs.half_cleared_blocks]).
    - Transfer work: one item of a transfer at a time, guarded effects at most
      once (an import may be acknowledged again when the answer was lost), bounded
      attempts, due items in their order, and a sleep that ends when
      something is due.
    - Cloud tasks: what is published does not depend on the order the database
      gives; an idle publisher is right about the relay, whatever the relay still has
      under way, unless a singleton's publication wrote last; and a silent relay is
      left within a minute.
    - Stages: a fork an agent ran in is not removed but in two named
      circumstances; the task's stage is that of the last move that landed, each at
      most once and after its spawn was declared or began to cross; a run shown running
      was started, but in three named circumstances; and one reconciliation that the
      daemon and the database answer settles what a server left open, while one that
      the database fails leaves it open.  What is seen of the operations is a trace of
      a machine with a stage and at most one named request on its way.
    - Workflows: a task reaches a stage only after those before it; agents that keep
      sending work back come to rest within a bound the workflow gives, if it sets a
      limit; the requests
      of one completion attempt take effect once; a workflow reads back from its
      snapshot; the wildcard loop decides the glob relation.
    - Small formats: keys, versions, ranges and progress reports.

    ** Fuel

    [DraftBytes.draft_loop] and [CliVersion.parse_loop] take the length of
    their input as fuel: each iteration consumes at least one byte
    ([DraftBytes.draft_loop_terminates], [CliVersion.parse_loop_total]).
    [Workflow.wildcard_loop] takes the product of the lengths of value and pattern,
    each plus one ([Workflow.wildcard_fuel]): a step moves in the pattern or moves
    the wildcard on ([WorkflowProofs.wildcard_loop_spec]).  Everything else is
    structurally recursive.

    ** Parameters of the model

    What the source takes from elsewhere is an argument: the Unicode lower case
    of a character ([RustStd.UnicodeCase]), what the terminal emulator reports
    for a frame, what the file system and the JSON decoder report for an
    override file, how many bytes a PTY write accepts, whether a socket write
    succeeds, and the clock.

    ** Assumptions on the environment

    [Quiesce.settled], [PeerReplay.timely] and [PeerReplay.prompt] restrict the
    runs of the theorems that name them; beside each, a theorem shows the run
    that breaks the property without it ([stale_quiesced_flag_admits_writes],
    [stale_clock_is_accepted_again], [late_removal_forgets_a_request]).  [TerminalTap]'s theorems hold while a
    process draws no more ids than [MAX_TERMINAL_TAP_IDS_PER_PROCESS].
    [AgentJournal.sound] excludes a restart that finds a line cut short;
    [torn_line_swallows_the_next] and [torn_character_hides_the_history] are what
    happens then.  The lapses of [StageOps.Lapse] are what no row tells; a history
    beside the theorems shows each ([unmarked_spawn_loses_the_fork],
    [closed_under_a_move_loses_the_fork], [unsent_post_is_bound],
    [unwritten_post_is_bound], [unwritten_headless_spawn_lands]).
    [StageRefine.asked_in_turn] and [RoutingProofs.in_turn] have requests
    made with no operation open, and the names of a workflow's stages are taken to
    differ; [old_move_lands_under_a_new_one] and [second_of_a_name_is_never_passed] are
    what happens otherwise.  The JSON functions of [AgentJournal] satisfy its [JsonLaws],
    which an instance on numbers shows possible, and its events are ones that read back
    as they were written ([AgentJournal.reads_back]), which [serde_json] does not
    promise of a float; likewise [EventLog.CompanionJsonLaws].  A desktop
    has one server at a time: no other socket begins a publication session for it in
    [CloudPublisher].  In [EventLogProofs.allowed] the log of a
    companion is removed only while no event is begun, and a new log has an inode
    of its own; [half_cleared_blocks] and [reused_inode_refuses] are what happens
    otherwise.

    ** Not modelled

    Operating-system and network code (PTY creation, process inspection,
    sockets, descriptor passing, successor authentication), the terminal
    emulator, the recovery child process, serialization and cryptography,
    logging and metrics, the fan-out, adoption and process signals of the agent
    runtime, what transfer work does to sessions, git and the peer, prompts and the
    preparation of workspaces, resumes and reruns of a stage, blockers and
    workflow editing, the rest of the server's database, HTTP and relay, and the
    applications.  Nearest to what is here: the terminal control queue and the
    companion budgets of [ksp.rs], the transfer receipts of [task-transfer], the
    headless terminal's row and cell helpers, the resync retry of [output.rs], and
    the descriptor-transfer framing.

    ** This file

    The prelude: results, machine integers, list operations of Rust slices with
    their lemmas, reachability, and the automation the other files share. *)

From stdpp Require Export prelude list gmap strings.
From Stdlib Require Export ZArith Lia.

Set Default Proof Using "Type".

(** ** Scopes and notations *)

Declare Scope kanna_scope.
Delimit Scope kanna_scope with kanna.

(** ** Fallible code *)

(** [Result<A, E>]: every fallible operation of the daemon that this library
    models returns one of these; error messages are kept as constructors. *)
Inductive result (A E : Type) : Type :=
  | Ok (a : A)
  | Err (e : E).
Arguments Ok {A E} _.
Arguments Err {A E} _.

Definition result_bind {A B E} (m : result A E) (k : A → result B E) : result B E :=
  match m with Ok a => k a | Err e => Err e end.

(** The [?] operator. *)
Notation "'let?' x := m 'in' k" := (result_bind m (λ x, k))
  (at level 10, x pattern, m at level 100, k at level 200) : kanna_scope.

(** Collecting an iterator of results: the first error wins. *)
Fixpoint collect_results {A E} (l : list (result A E)) : result (list A) E :=
  match l with
  | [] => Ok []
  | r :: rest =>
      match r with
      | Err e => Err e
      | Ok a => match collect_results rest with
                | Err e => Err e
                | Ok rest' => Ok (a :: rest')
                end
      end
  end.

Definition is_ok {A E} (r : result A E) : bool :=
  match r with Ok _ => true | Err _ => false end.

(** ** Machine-width integers *)

Definition U64_MAX : Z := 18446744073709551615.

Definition u64_saturating_add (a b : Z) : Z := Z.min (a + b) U64_MAX.
Definition u64_saturating_mul (a b : Z) : Z := Z.min (a * b) U64_MAX.
(** [+=] on a [u64] counter, with the wrap-around of release builds. *)
Definition u64_add (a b : Z) : Z := (a + b) mod (U64_MAX + 1).

Definition is_u64 (n : Z) : Prop := (0 ≤ n ≤ U64_MAX)%Z.
Definition is_u8 (b : Z) : Prop := (0 ≤ b < 256)%Z.

Lemma u64_saturating_add_range a b :
  is_u64 a → (0 ≤ b)%Z → is_u64 (u64_saturating_add a b).
Proof. unfold is_u64, u64_saturating_add, U64_MAX. lia. Qed.

Lemma u64_saturating_mul_range a b :
  is_u64 a → (0 ≤ b)%Z → is_u64 (u64_saturating_mul a b).
Proof.
  unfold is_u64, u64_saturating_mul, U64_MAX. intros.
  assert (0 ≤ a * b)%Z by nia. lia.
Qed.

Lemma u64_add_range a b : is_u64 (u64_add a b).
Proof.
  unfold is_u64, u64_add.
  pose proof (Z.mod_pos_bound (a + b) (U64_MAX + 1)) as H.
  unfold U64_MAX in *. lia.
Qed.

Lemma u64_add_small a b :
  (0 ≤ a)%Z → (0 ≤ b)%Z → (a + b ≤ U64_MAX)%Z → u64_add a b = (a + b)%Z.
Proof. intros. unfold u64_add. apply Z.mod_small. lia. Qed.

(** ** Slice operations of Rust's standard library *)

Section slices.
Context {A : Type}.
Implicit Types (p : A → bool) (l : list A).

(** [iter().position(p)] *)
Fixpoint position p l : option nat :=
  match l with
  | [] => None
  | x :: rest => if p x then Some 0 else S <$> position p rest
  end.

(** [iter().rposition(p)] *)
Fixpoint rposition p l : option nat :=
  match l with
  | [] => None
  | x :: rest =>
      match rposition p rest with
      | Some i => Some (S i)
      | None => if p x then Some 0 else None
      end
  end.

(** [iter().find(p)] *)
Fixpoint find_first p l : option A :=
  match l with
  | [] => None
  | x :: rest => if p x then Some x else find_first p rest
  end.

(** [iter().find_map(f)] *)
Fixpoint find_map {B} (f : A → option B) l : option B :=
  match l with
  | [] => None
  | x :: rest => match f x with Some y => Some y | None => find_map f rest end
  end.

(** [windows(n)] for [n > 0]. *)
Fixpoint windows (n : nat) l : list (list A) :=
  match l with
  | [] => []
  | _ :: rest =>
      if decide (n ≤ length l) then take n l :: windows n rest else []
  end.

(** [skip_while(p)]: what [trim_start_matches] does. *)
Fixpoint drop_while p l : list A :=
  match l with
  | [] => []
  | x :: rest => if p x then drop_while p rest else l
  end.

Fixpoint take_while p l : list A :=
  match l with
  | [] => []
  | x :: rest => if p x then x :: take_while p rest else []
  end.

Definition drop_while_end p l : list A := reverse (drop_while p (reverse l)).

(** [starts_with] on slices. *)
Fixpoint starts_with (eqb : A → A → bool) (pre l : list A) : bool :=
  match pre, l with
  | [], _ => true
  | x :: pre', y :: l' => eqb x y && starts_with eqb pre' l'
  | _ :: _, [] => false
  end.

Lemma position_Some p l i :
  position p l = Some i ↔
  (∃ x, l !! i = Some x ∧ p x = true) ∧ ∀ j x, j < i → l !! j = Some x → p x = false.
Proof.
  revert i. induction l as [|y l IH]; intros i; cbn.
  { split; [done|]. by intros [(x & Hx & _) _]. }
  destruct (p y) eqn:Hy.
  - split.
    + intros [= <-]. split; [by exists y|]. intros j x Hj. lia.
    + intros [_ Hbefore]. destruct i as [|i]; [done|].
      specialize (Hbefore 0 y ltac:(lia) eq_refl). congruence.
  - split.
    + destruct (position p l) as [k|] eqn:Hk; cbn; [|done]. intros [= <-].
      pose proof (proj1 (IH k) eq_refl) as [(x & Hx & Hp) Hb]. split; [by exists x|].
      intros [|j] x' Hj Hl; cbn in Hl; [congruence|]. apply (Hb j); [lia|done].
    + intros [(x & Hx & Hp) Hb]. destruct i as [|i]; cbn in Hx; [congruence|].
      enough (position p l = Some i) as -> by done.
      apply IH. split; [by exists x|]. intros j x' Hj Hl. apply (Hb (S j)); [lia|done].
Qed.

Lemma all_false_cons p y l :
  (∀ x, x ∈ y :: l → p x = false) ↔ p y = false ∧ ∀ x, x ∈ l → p x = false.
Proof. setoid_rewrite elem_of_cons. naive_solver. Qed.

Lemma position_None p l :
  position p l = None ↔ ∀ x, x ∈ l → p x = false.
Proof.
  induction l as [|y l IH]; cbn; [by setoid_rewrite elem_of_nil|].
  rewrite all_false_cons. destruct (p y) eqn:Hy; [naive_solver|].
  rewrite fmap_None, IH. naive_solver.
Qed.

Lemma position_lt p l i : position p l = Some i → i < length l.
Proof. intros [(x & Hx & _) _]%position_Some. by eapply lookup_lt_Some. Qed.

Lemma position_app_first p pre x rest :
  (∀ y, y ∈ pre → p y = false) → p x = true →
  position p (pre ++ x :: rest) = Some (length pre).
Proof.
  intros Hpre Hx. apply position_Some. split.
  - exists x. split; [|done]. by rewrite list_lookup_middle.
  - intros j y Hj Hy. rewrite lookup_app_l in Hy by done.
    apply Hpre. by eapply list_elem_of_lookup_2.
Qed.

Lemma position_split p l i :
  position p l = Some i →
  ∃ x rest, l = take i l ++ x :: rest ∧ p x = true ∧ (∀ y, y ∈ take i l → p y = false) ∧
            length (take i l) = i.
Proof.
  intros Hi. pose proof (position_lt _ _ _ Hi) as Hlt.
  apply position_Some in Hi as [(x & Hx & Hp) Hb].
  exists x, (drop (S i) l). split_and!.
  - by rewrite take_drop_middle.
  - done.
  - intros y [j Hj]%list_elem_of_lookup. apply lookup_take_Some in Hj as [Hj ?].
    by eapply Hb.
  - rewrite length_take. lia.
Qed.

Lemma rposition_Some p l i :
  rposition p l = Some i ↔
  (∃ x, l !! i = Some x ∧ p x = true) ∧ ∀ j x, i < j → l !! j = Some x → p x = false.
Proof.
  revert i. induction l as [|y l IH]; intros i; cbn.
  { split; [done|]. by intros [(x & Hx & _) _]. }
  destruct (rposition p l) as [k|] eqn:Hk.
  - pose proof (proj1 (IH k) eq_refl) as [(x & Hx & Hp) Hb]. split.
    + intros [= <-]. split; [by exists x|].
      intros [|j] x' Hj Hl; [lia|]. apply (Hb j); [lia|done].
    + intros [(x' & Hx' & Hp') Hb']. destruct i as [|i]; cbn in Hx'.
      * specialize (Hb' (S k) x ltac:(lia) Hx). congruence.
      * f_equal. cut (Some k = Some i); [congruence|].
        apply IH. split; [by exists x'|]. intros j z Hj Hz. apply (Hb' (S j)); [lia|done].
  - assert (∀ j z, l !! j = Some z → p z = false) as Hnone.
    { intros j z. revert j. clear -Hk. induction l as [|w l IH]; intros [|j]; cbn in *; try done.
      - destruct (rposition p l); [done|]. destruct (p w) eqn:?; [done|]. congruence.
      - destruct (rposition p l); [done|]. by apply IH. }
    destruct (p y) eqn:Hy; split.
    + intros [= <-]. split; [by exists y|]. intros [|j] z Hj Hz; [lia|]. by eapply Hnone.
    + intros [(x & Hx & Hp) _]. destruct i as [|i]; [done|]. cbn in Hx.
      apply Hnone in Hx. congruence.
    + done.
    + intros [(x & Hx & Hp) _]. destruct i as [|i]; cbn in Hx; [congruence|].
      apply Hnone in Hx. congruence.
Qed.

Lemma rposition_None p l :
  rposition p l = None ↔ ∀ x, x ∈ l → p x = false.
Proof.
  induction l as [|y l IH]; cbn; [by setoid_rewrite elem_of_nil|].
  rewrite all_false_cons, <-IH.
  destruct (rposition p l) as [k|]; [naive_solver|].
  destruct (p y); naive_solver.
Qed.

Lemma rposition_lt p l i : rposition p l = Some i → i < length l.
Proof. intros [(x & Hx & _) _]%rposition_Some. by eapply lookup_lt_Some. Qed.

Lemma rposition_app p a b :
  rposition p (a ++ b) =
  match rposition p b with Some i => Some (length a + i) | None => rposition p a end.
Proof.
  induction a as [|x a IH]; cbn; [by destruct (rposition p b)|].
  rewrite IH. by destruct (rposition p b).
Qed.

Lemma position_app p a b :
  position p (a ++ b) =
  match position p a with Some i => Some i | None => Nat.add (length a) <$> position p b end.
Proof.
  induction a as [|x a IH]; cbn; [by destruct (position p b)|].
  destruct (p x); [done|]. rewrite IH. by destruct (position p a), (position p b).
Qed.

Lemma find_first_Some p l x :
  find_first p l = Some x → x ∈ l ∧ p x = true.
Proof.
  induction l as [|y l IH]; cbn; [done|].
  rewrite elem_of_cons. destruct (p y) eqn:Hy; [naive_solver|].
  intros [? ?]%IH. auto.
Qed.

Lemma find_first_None p l :
  find_first p l = None ↔ ∀ x, x ∈ l → p x = false.
Proof.
  induction l as [|y l IH]; cbn; [by setoid_rewrite elem_of_nil|].
  rewrite all_false_cons, <-IH. destruct (p y); naive_solver.
Qed.

Lemma drop_while_suffix p l : ∃ pre, l = pre ++ drop_while p l ∧ forallb p pre = true.
Proof.
  induction l as [|x l (pre & Heq & Hpre)]; cbn; [by exists []|].
  destruct (p x) eqn:Hx; [|by exists []].
  exists (x :: pre). cbn. rewrite Hx, Hpre. split; [by f_equal|done].
Qed.

Lemma drop_while_head p l x rest : drop_while p l = x :: rest → p x = false.
Proof.
  induction l as [|y l IH]; cbn; [done|].
  destruct (p y) eqn:Hy; [done|]. intros [= -> ->]. done.
Qed.

Lemma drop_while_idemp p l : drop_while p (drop_while p l) = drop_while p l.
Proof.
  destruct (drop_while p l) as [|x rest] eqn:H; [done|].
  cbn. by rewrite (drop_while_head _ _ _ _ H).
Qed.

Lemma drop_while_length p l : length (drop_while p l) ≤ length l.
Proof. induction l as [|x l IH]; cbn; [done|]. destruct (p x); cbn; lia. Qed.

Lemma take_drop_while p l : take_while p l ++ drop_while p l = l.
Proof. induction l as [|x l IH]; cbn; [done|]. destruct (p x); cbn; congruence. Qed.

Lemma starts_with_prefix (eqb : A → A → bool) pre l :
  (∀ x y, eqb x y = true ↔ x = y) →
  starts_with eqb pre l = true ↔ ∃ rest, l = pre ++ rest.
Proof.
  intros Heqb. revert l. induction pre as [|x pre IH]; intros l; cbn.
  { split; [by eexists|done]. }
  destruct l as [|y l]; cbn.
  { split; [done|]. by intros [rest ?]. }
  rewrite andb_true_iff, Heqb, IH. split.
  - intros [-> [rest ->]]. by exists rest.
  - intros [rest [= -> ->]]. split; [done|]. by exists rest.
Qed.
End slices.

Lemma collect_results_length {A E} (l : list (result A E)) l' :
  collect_results l = Ok l' → length l' = length l.
Proof.
  revert l'. induction l as [|r l IH]; intros l'; cbn; [by intros [= <-]|].
  destruct r; [|done]. destruct (collect_results l); [|done].
  intros [= <-]. cbn. f_equal. by apply IH.
Qed.

Lemma collect_results_Forall2 {A E} (l : list (result A E)) l' :
  collect_results l = Ok l' → Forall2 (λ r a, r = Ok a) l l'.
Proof.
  revert l'. induction l as [|r l IH]; intros l'; cbn; [intros [= <-]; constructor|].
  destruct r; [|done]. destruct (collect_results l) eqn:?; [|done].
  intros [= <-]. constructor; auto.
Qed.

Lemma list_filter_ext_in {A} (P Q : A → Prop) `{∀ x, Decision (P x), ∀ x, Decision (Q x)}
    (l : list A) :
  (∀ x, x ∈ l → P x ↔ Q x) → filter P l = filter Q l.
Proof.
  induction l as [|x l IH]; intros H1; [done|]. rewrite !filter_cons.
  assert (P x ↔ Q x) as Hx by (apply H1; by left).
  rewrite IH by (intros; apply H1; by right).
  destruct (decide (P x)), (decide (Q x)); first [done | tauto].
Qed.

(** ** Transition systems *)

(** Reflexive transitive closure, used for the reachable states of every
    state machine below. *)
Section reach.
Context {S : Type} (step : S → S → Prop).

Inductive reachable (s0 : S) : S → Prop :=
  | reachable_init : reachable s0 s0
  | reachable_step s s' : reachable s0 s → step s s' → reachable s0 s'.

Lemma reachable_invariant (I : S → Prop) s0 s :
  I s0 → (∀ s s', I s → step s s' → I s') → reachable s0 s → I s.
Proof. intros H0 Hstep. induction 1; eauto. Qed.
End reach.

(** Executing a list of actions; what it reaches is reachable. *)
Section exec.
Context {S A : Type} (next : S → A → option S).

Fixpoint exec (s : S) (actions : list A) : option S :=
  match actions with
  | [] => Some s
  | a :: actions => s' ← next s a; exec s' actions
  end.

Lemma exec_reachable s0 s actions s' :
  reachable (λ x y, ∃ a, next x a = Some y) s0 s → exec s actions = Some s' →
  reachable (λ x y, ∃ a, next x a = Some y) s0 s'.
Proof.
  revert s. induction actions as [|a actions IH]; intros s Hr; cbn; [by intros [= <-]|].
  destruct (next s a) as [s1|] eqn:He; [|done]. cbn. apply IH. eapply reachable_step; [done|]. by exists a.
Qed.

Lemma exec_app s l k : exec s (l ++ k) = s' ← exec s l; exec s' k.
Proof.
  revert s. induction l as [|a l IH]; intros s; cbn; [done|]. destruct (next s a); [apply IH|done].
Qed.
End exec.

(** ** Automation *)

Create HintDb kanna discriminated.
#[export] Hint Resolve u64_saturating_add_range u64_add_range : kanna.

(** Boolean hypotheses and goals into propositional form. *)
Ltac bool_simpl :=
  repeat match goal with
  | H : _ && _ = true |- _ => apply andb_true_iff in H as [? ?]
  | H : negb _ = true |- _ => apply negb_true_iff in H
  | H : negb _ = false |- _ => apply negb_false_iff in H
  | H : _ || _ = false |- _ => apply orb_false_iff in H as [? ?]
  | H : bool_decide _ = true |- _ => apply bool_decide_eq_true in H
  | H : bool_decide _ = false |- _ => apply bool_decide_eq_false in H
  | |- _ && _ = true => apply andb_true_iff; split
  | |- negb _ = true => apply negb_true_iff
  end.

(** Case analysis on the scrutinee of the first match or conditional. *)
Ltac case_if :=
  match goal with
  | |- context [if ?b then _ else _] => destruct b eqn:?
  end.

(** ** Windows *)

Section windows.
Context {A : Type}.
Implicit Types l : list A.

Lemma windows_lookup n l i :
  0 < n →
  windows n l !! i = if decide (i + n ≤ length l) then Some (take n (drop i l)) else None.
Proof.
  intros Hn. revert i. induction l as [|x l IH]; intros i; cbn [windows length].
  { rewrite lookup_nil. case_decide; [lia|done]. }
  destruct (decide (n ≤ S (length l))) as [Hle|Hgt].
  - destruct i as [|i]; cbn.
    + case_decide; [done|lia].
    + rewrite IH. repeat case_decide; try done; lia.
  - rewrite lookup_nil. case_decide; [lia|done].
Qed.

Lemma take_drop_app_le n j (a b : list A) :
  j + n ≤ length a → take n (drop j (a ++ b)) = take n (drop j a).
Proof.
  intros H. rewrite drop_app_le by lia. apply take_app_le. rewrite length_drop. lia.
Qed.

Lemma windows_nil_short n l : length l < n → windows n l = [].
Proof. destruct l; cbn; [done|]. case_decide; [lia|done]. Qed.

Lemma position_windows n l (p : list A → bool) i :
  0 < n → position p (windows n l) = Some i → i + n ≤ length l.
Proof.
  intros Hn [(w & Hw & _) _]%position_Some.
  rewrite windows_lookup in Hw by done. case_decide; [done|done].
Qed.
End windows.
