(* ===== verification/RustStd.v ===== *)
(** * Strings and characters

    What the daemon uses of Rust's [str] and [char].  A [str] is the sequence
    of its Unicode scalar values; [utf8] gives the bytes [as_bytes] and [len]
    see.  The definitions follow the documented behaviour of the standard
    library: [char::is_whitespace] is the [White_Space] property, [trim],
    [split_whitespace], [split], [join], [contains], [starts_with],
    [to_ascii_lowercase], [str::parse::<u8>]. *)

From S2P Require Import Prelude.
From Stdlib Require Ascii String.
From stdpp Require sorting.
From Stdlib Require Export Sorted.
Local Open Scope Z_scope.

(** Scalar values and bytes are integers; a byte string is a list of them. *)
Abbreviation char := Z (only parsing).
Abbreviation byte := Z (only parsing).
Abbreviation str := (list Z) (only parsing).

(** ASCII literals. *)
Definition lit (s : string) : list Z :=
  map (λ a, Z.of_N (Ascii.N_of_ascii a)) (String.list_ascii_of_string s).

Definition is_char (c : char) : Prop :=
  0 ≤ c < 55296 ∨ 57344 ≤ c ≤ 1114111.

Definition str_eqb (s t : str) : bool := bool_decide (s = t).

(** ** UTF-8 *)

Definition encode_utf8 (c : char) : list byte :=
  if c <? 128 then [c]
  else if c <? 2048 then [192 + c / 64; 128 + c mod 64]
  else if c <? 65536 then [224 + c / 4096; 128 + (c / 64) mod 64; 128 + c mod 64]
  else [240 + c / 262144; 128 + (c / 4096) mod 64; 128 + (c / 64) mod 64; 128 + c mod 64].

Definition utf8 (s : str) : list byte := mjoin (map encode_utf8 s).

(** ** Character classes *)

Definition in_range (lo hi c : Z) : bool := (lo <=? c) && (c <=? hi).

Definition is_ascii (c : Z) : bool := in_range 0 127 c.
Definition is_ascii_digit (c : Z) : bool := in_range 48 57 c.
Definition is_ascii_hexdigit (c : Z) : bool :=
  in_range 48 57 c || in_range 65 70 c || in_range 97 102 c.
Definition to_ascii_lowercase (c : Z) : Z := if in_range 65 90 c then c + 32 else c.

(** The [White_Space] property. *)
Definition is_whitespace (c : char) : bool :=
  in_range 9 13 c || (c =? 32) || (c =? 133) || (c =? 160) || (c =? 5760) ||
  in_range 8192 8202 c || (c =? 8232) || (c =? 8233) || (c =? 8239) ||
  (c =? 8287) || (c =? 12288).

(** ** Trimming and splitting *)

Definition trim_start (s : str) : str := drop_while is_whitespace s.
Definition trim_end (s : str) : str := drop_while_end is_whitespace s.
Definition trim (s : str) : str := trim_end (trim_start s).

(** [trim_end_matches] with a set of characters. *)
Definition trim_end_matches (set : list char) (s : str) : str :=
  drop_while_end (λ c, bool_decide (c ∈ set)) s.
Definition trim_matches (p : char → bool) (s : str) : str :=
  drop_while_end p (drop_while p s).

(** [split(sep)]: one more piece than there are separators. *)
Fixpoint split_on (sep : char) (s : str) : list str :=
  match s with
  | [] => [[]]
  | c :: rest =>
      if c =? sep then [] :: split_on sep rest
      else match split_on sep rest with
           | [] => [[c]]
           | piece :: pieces => (c :: piece) :: pieces
           end
  end.

(** [split_whitespace]: the non-empty maximal runs of non-whitespace.
    [cur] is the run being read. *)
Fixpoint split_ws_aux (cur : str) (s : str) : list str :=
  match s with
  | [] => match cur with [] => [] | _ => [cur] end
  | c :: rest =>
      if is_whitespace c then
        match cur with
        | [] => split_ws_aux [] rest
        | _ => cur :: split_ws_aux [] rest
        end
      else split_ws_aux (cur ++ [c]) rest
  end.
Definition split_whitespace (s : str) : list str := split_ws_aux [] s.

(** [join(sep)] *)
Fixpoint join (sep : str) (l : list str) : str :=
  match l with
  | [] => []
  | [x] => x
  | x :: rest => x ++ sep ++ join sep rest
  end.

(** [str::lines]: a line feed, or a carriage return and a line feed, ends a
    line, and nothing after the last line feed is no line. *)
Definition strip_cr (s : str) : str :=
  match last s with Some c => if c =? 13 then removelast s else s | None => s end.
Fixpoint lines_of (pieces : list str) : list str :=
  match pieces with
  | [] => []
  | [s] => match s with [] => [] | _ => [s] end
  | s :: rest => strip_cr s :: lines_of rest
  end.
Definition lines (s : str) : list str := lines_of (split_on 10 s).

(** ** Searching *)

Definition str_starts_with (s pre : str) : bool := starts_with Z.eqb pre s.
Definition strip_prefix (pre s : str) : option str :=
  if str_starts_with s pre then Some (drop (length pre) s) else None.
Definition ends_with_char (s : str) (c : char) : bool :=
  match last s with Some d => d =? c | None => false end.

(** [contains(needle)]: a substring test; on valid UTF-8 the byte search and
    the scalar search agree, so it is written on scalars. *)
Fixpoint str_contains (s needle : str) : bool :=
  str_starts_with s needle ||
  match s with [] => false | _ :: rest => str_contains rest needle end.

(** ** Numbers *)

Fixpoint digits_value (acc : Z) (s : str) : option Z :=
  match s with
  | [] => Some acc
  | c :: rest =>
      if is_ascii_digit c then digits_value (acc * 10 + (c - 48)) rest else None
  end.

(** [str::parse::<u8>]: an optional plus sign, then at least one digit, and a
    value that fits. *)
Definition parse_u8 (s : str) : option Z :=
  let ds := match s with 43 :: rest => rest | _ => s end in
  match ds with
  | [] => None
  | _ => match digits_value 0 ds with
         | Some n => if n <=? 255 then Some n else None
         | None => None
         end
  end.

(** [str::parse::<u64>]. *)
Definition parse_u64 (s : str) : option Z :=
  let ds := match s with 43 :: rest => rest | _ => s end in
  match ds with
  | [] => None
  | _ => match digits_value 0 ds with
         | Some n => if n <=? U64_MAX then Some n else None
         | None => None
         end
  end.

(** The digits of a number in base [b], most significant first; a number has no
    more digits than bits. *)
Fixpoint radix_digits (b : Z) (fuel : nat) (n : Z) (acc : list Z) : list Z :=
  match fuel with
  | O => acc
  | S fuel => if n <? b then n :: acc else radix_digits b fuel (n / b) (n mod b :: acc)
  end.

Definition radix (b n : Z) : list Z := radix_digits b (S (Z.to_nat (Z.log2 n))) n [].

Definition hex_digit (n : Z) : char := if n <? 10 then 48 + n else 87 + n.

(** [{}] and [{:x}] of an unsigned integer, and [{:02x}] of each byte. *)
Definition decimal (n : Z) : str := map (Z.add 48) (radix 10 n).
Definition hex (n : Z) : str := map hex_digit (radix 16 n).
Definition hex_bytes (l : list byte) : str := mjoin (map (λ b, [hex_digit (b / 16); hex_digit (b mod 16)]) l).

(** ** Case mapping *)

(** [char::to_lowercase] is the full Unicode mapping, a table of the standard
    library: an operation the development is generic in. *)
Class UnicodeCase := char_to_lowercase : Z → list Z.

Definition str_to_ascii_lowercase (s : str) : str := map to_ascii_lowercase s.

(** ** Pieces and lines *)

Lemma drop_while_end_id {A} (p : A → bool) l x :
  last l = Some x → p x = false → drop_while_end p l = l.
Proof.
  intros Hl Hx. apply last_Some in Hl as [l' ->]. unfold drop_while_end.
  rewrite reverse_snoc. cbn [drop_while]. rewrite Hx. by rewrite reverse_cons, reverse_involutive.
Qed.

Lemma split_on_app sep s t :
  split_on sep (s ++ sep :: t) = split_on sep s ++ split_on sep t.
Proof.
  induction s as [|c s IH]; cbn; [by rewrite Z.eqb_refl|].
  destruct (c =? sep); [by rewrite IH|]. rewrite IH.
  destruct (split_on sep s) eqn:H; [|done]. by destruct s as [|c' s]; cbn in H; repeat case_match.
Qed.

Lemma split_on_ne sep s : split_on sep s ≠ [].
Proof. destruct s as [|c s]; cbn; [done|]. destruct (c =? sep); [done|]. by case_match. Qed.

Lemma split_on_none sep s : sep ∉ s → split_on sep s = [s].
Proof.
  induction s as [|c s IH]; intros Hs; [done|]. apply not_elem_of_cons in Hs as [Hc Hs].
  cbn. rewrite (proj2 (Z.eqb_neq c sep)) by done. by rewrite (IH Hs).
Qed.

(** A line without its end of line, and the lines after it. *)
Lemma lines_cons l s :
  10 ∉ l → last l ≠ Some 13 → lines (l ++ 10 :: s) = l :: lines s.
Proof.
  intros Hl Hcr. unfold lines. rewrite split_on_app, (split_on_none 10 l) by done. cbn [app].
  destruct (split_on 10 s) as [|x r] eqn:Hs; [by apply split_on_ne in Hs|].
  change (lines_of (l :: x :: r)) with (strip_cr l :: lines_of (x :: r)). f_equal.
  unfold strip_cr. destruct (last l) as [c|]; [|done].
  destruct (Z.eqb_spec c 13); [congruence|done].
Qed.

(** ** Sorting *)

(** [sort_by_key]: a stable sort; [le] compares keys.  Insertion from the right
    keeps equal elements in their order. *)
Section sorting.
Context {A : Type} (le : A → A → bool).

Fixpoint insert_sorted (x : A) (l : list A) : list A :=
  match l with
  | [] => [x]
  | y :: rest => if le x y then x :: l else y :: insert_sorted x rest
  end.

Definition sort_by (l : list A) : list A := foldr insert_sorted [] l.

Lemma insert_sorted_perm x l : insert_sorted x l ≡ₚ x :: l.
Proof.
  induction l as [|y l IH]; cbn; [done|]. destruct (le x y); [done|].
  rewrite IH. constructor.
Qed.

Lemma sort_by_perm l : sort_by l ≡ₚ l.
Proof. induction l as [|x l IH]; cbn; [done|]. by rewrite insert_sorted_perm, IH. Qed.

Context (le_total : ∀ x y, le x y = true ∨ le y x = true)
        (le_trans : ∀ x y z, le x y = true → le y z = true → le x z = true).

Notation sorted := (StronglySorted (λ x y, le x y = true)).

Lemma insert_sorted_sorted x l : sorted l → sorted (insert_sorted x l).
Proof using le_total le_trans.
  induction 1 as [|y l Hl IH Hy]; cbn; [repeat constructor|].
  destruct (le x y) eqn:Hxy.
  - constructor; [by constructor|]. constructor; [done|].
    eapply Forall_impl; [exact Hy|]. cbn. eauto.
  - constructor; [done|]. rewrite insert_sorted_perm. constructor; [|done].
    destruct (le_total x y); congruence.
Qed.

Lemma sort_by_sorted l : sorted (sort_by l).
Proof using le_total le_trans.
  induction l as [|x l IH]; cbn; [constructor|]. by apply insert_sorted_sorted.
Qed.

(** Stability: the elements of one class of the order keep their order. *)
Lemma sort_by_stable x l :
  filter (λ y, le x y && le y x = true) (sort_by l) =
  filter (λ y, le x y && le y x = true) l.
Proof using le_total le_trans.
  assert (∀ z k, sorted k →
    filter (λ y, le x y && le y x = true) (insert_sorted z k) =
    filter (λ y, le x y && le y x = true) (z :: k)) as Hins.
  { intros z k. induction 1 as [|w k Hk IH Hw]; cbn [insert_sorted]; [done|].
    destruct (le z w) eqn:Hzw; [done|].
    rewrite filter_cons, IH, !filter_cons.
    destruct (decide (le x w && le w x = true)) as [H1|H1];
      destruct (decide (le x z && le z x = true)) as [H2|H2]; try done.
    apply andb_true_iff in H1 as [? ?]. apply andb_true_iff in H2 as [? ?].
    rewrite (le_trans z x w) in Hzw by done. done. }
  induction l as [|y l IH]; [done|].
  cbn [sort_by foldr]. change (foldr insert_sorted [] l) with (sort_by l).
  rewrite Hins by apply sort_by_sorted. rewrite !filter_cons, IH. done.
Qed.
End sorting.

(** ** [Ord] *)

(** The laws of Rust's [Ord] for a comparison. *)
Class OrdLaws {A : Type} (cmp : A → A → comparison) : Prop := mkOrdLaws {
  ord_antisym : ∀ x y, cmp y x = CompOpp (cmp x y);
  ord_eq : ∀ x y z, cmp x y = Eq → cmp x z = cmp y z;
  ord_lt_trans : ∀ x y z, cmp x y = Lt → cmp y z = Lt → cmp x z = Lt
}.

Lemma ord_lt_eq {A} (cmp : A → A → comparison) `{!OrdLaws cmp} x y z :
  cmp x y = Lt → cmp y z = Eq → cmp x z = Lt.
Proof.
  intros H1 H2. assert (cmp z y = Eq) as H3 by (by rewrite (ord_antisym (cmp := cmp) y z), H2).
  rewrite (ord_antisym (cmp := cmp) z x), (ord_eq (cmp := cmp) z y x H3).
  by rewrite (ord_antisym (cmp := cmp) x y), H1.
Qed.

#[export] Instance Z_ord_laws : OrdLaws Z.compare.
Proof.
  split.
  - intros x y. apply Z.compare_antisym.
  - by intros x y z ->%Z.compare_eq_iff.
  - intros x y z. rewrite !Z.compare_lt_iff. lia.
Qed.

#[export] Instance nat_ord_laws : OrdLaws Nat.compare.
Proof.
  split.
  - intros x y. apply Nat.compare_antisym.
  - by intros x y z ->%Nat.compare_eq_iff.
  - intros x y z. rewrite !Nat.compare_lt_iff. lia.
Qed.

(** [then_with] *)
Definition then_with (a b : comparison) : comparison := match a with Eq => b | _ => a end.

Section then_with.
Context {A B C : Type} (f : A → B) (g : A → C) (cb : B → B → comparison) (cc : C → C → comparison).
Context {Hb : OrdLaws cb} {Hc : OrdLaws cc}.

#[export] Instance then_with_laws : OrdLaws (λ x y, then_with (cb (f x) (f y)) (cc (g x) (g y))).
Proof using Hb Hc.
  split.
  - intros x y. rewrite (ord_antisym (cmp := cb) (f x)), (ord_antisym (cmp := cc) (g x)). by destruct (cb (f x) (f y)).
  - intros x y z H. destruct (cb (f x) (f y)) eqn:E; try done. cbn in H.
    by rewrite (ord_eq (cmp := cb) (f x) (f y)), (ord_eq (cmp := cc) (g x) (g y)).
  - intros x y z H1 H2. destruct (cb (f x) (f y)) eqn:E1; try done; cbn in H1.
    + rewrite (ord_eq (cmp := cb) (f x) (f y)) by done. destruct (cb (f y) (f z)) eqn:E2; try done; cbn in *.
      by eapply (ord_lt_trans (cmp := cc) (g x)).
    + destruct (cb (f y) (f z)) eqn:E2; try done; cbn in H2.
      * by rewrite (ord_lt_eq cb (f x) (f y) (f z)).
      * by rewrite (ord_lt_trans (cmp := cb) (f x) (f y) (f z)).
Qed.
End then_with.

(** [str::cmp]: bytewise, which for UTF-8 is scalar by scalar. *)
Fixpoint str_cmp (a b : list Z) : comparison :=
  match a, b with
  | [], [] => Eq
  | [], _ :: _ => Lt
  | _ :: _, [] => Gt
  | x :: a, y :: b => then_with (x ?= y)%Z (str_cmp a b)
  end.

#[export] Instance str_ord_laws : OrdLaws str_cmp.
Proof.
  split.
  - induction x as [|x a IH]; intros [|y b]; cbn; try done.
    rewrite (Z.compare_antisym x y), IH. by destruct (x ?= y)%Z.
  - induction x as [|x a IH]; intros [|y b] [|z c]; cbn; try done.
    destruct (Z.compare_spec x y); cbn; try done. intros H1. subst y. by rewrite (IH b).
  - induction x as [|x a IH]; intros [|y b] [|z c]; cbn; try done.
    destruct (Z.compare_spec x y), (Z.compare_spec y z); cbn; try done; intros H1 H2; subst;
      rewrite ?Z.compare_refl; cbn; eauto.
    + by rewrite (proj2 (Z.compare_lt_iff _ _)).
    + by rewrite (proj2 (Z.compare_lt_iff _ _)).
    + by rewrite (proj2 (Z.compare_lt_iff x z)) by lia.
Qed.

Definition cmp_le {A} (cmp : A → A → comparison) (x y : A) : bool :=
  match cmp x y with Gt => false | _ => true end.

Lemma cmp_le_total {A} (cmp : A → A → comparison) `{!OrdLaws cmp} x y :
  cmp_le cmp x y = true ∨ cmp_le cmp y x = true.
Proof. unfold cmp_le. rewrite (ord_antisym (cmp := cmp) x y). destruct (cmp x y); cbn; auto. Qed.

Lemma cmp_le_trans {A} (cmp : A → A → comparison) `{!OrdLaws cmp} x y z :
  cmp_le cmp x y = true → cmp_le cmp y z = true → cmp_le cmp x z = true.
Proof.
  unfold cmp_le. destruct (cmp x y) eqn:E1; [|..]; try done; intros _.
  - by rewrite (ord_eq (cmp := cmp) x y z).
  - destruct (cmp y z) eqn:E2; try done; intros _.
    + by rewrite (ord_lt_eq cmp x y z).
    + by rewrite (ord_lt_trans (cmp := cmp) x y z).
Qed.

(** The first of a sorted list is a least element. *)
Lemma sort_by_head {A} (cmp : A → A → comparison) `{!OrdLaws cmp} (l : list A) x :
  head (sort_by (cmp_le cmp) l) = Some x → x ∈ l ∧ ∀ y, y ∈ l → cmp_le cmp x y = true.
Proof.
  intros Hh. pose proof (sort_by_perm (cmp_le cmp) l) as Hp.
  pose proof (sort_by_sorted (cmp_le cmp) (cmp_le_total cmp) (cmp_le_trans cmp) l) as Hs.
  destruct (sort_by (cmp_le cmp) l) as [|x' k]; [done|]. injection Hh as ->. split.
  - rewrite <- Hp. by left.
  - intros y. rewrite <- Hp, elem_of_cons. intros [->|Hy].
    + destruct (cmp_le_total cmp x x); done.
    + apply StronglySorted_inv in Hs as [_ Hall]. rewrite Forall_forall in Hall. by apply Hall.
Qed.

Lemma sort_by_head_None {A} (cmp : A → A → comparison) (l : list A) :
  head (sort_by (cmp_le cmp) l) = None → l = [].
Proof.
  intros Hh. pose proof (sort_by_perm (cmp_le cmp) l) as Hp.
  destruct (sort_by (cmp_le cmp) l); [|done]. by apply Permutation_nil_l in Hp.
Qed.

(** ** Numbers in a base *)

Definition radix_value (b acc : Z) (l : list Z) : Z := foldl (λ a d, a * b + d) acc l.

Lemma radix_digits_value b fuel n acc :
  1 < b → 0 ≤ n → (Z.log2 n < Z.of_nat fuel) → radix_value b 0 (radix_digits b fuel n acc) = radix_value b n acc.
Proof.
  intros Hb. revert n acc. induction fuel as [|fuel IH]; intros n acc Hn Hf; cbn [radix_digits].
  - pose proof (Z.log2_nonneg n). lia.
  - destruct (Z.ltb_spec n b); [done|]. rewrite IH.
    + unfold radix_value. cbn. f_equal. pose proof (Z.div_mod n b). lia.
    + apply Z.div_pos; lia.
    + assert (Z.log2 (n / b) < Z.log2 n); [|lia].
      assert (0 < n / b) by (apply Z.div_str_pos; lia).
      apply Z.lt_le_trans with (Z.log2 (2 * (n / b))); [rewrite Z.log2_double by done; lia|].
      apply Z.log2_le_mono. pose proof (Z.mul_div_le n b). nia.
Qed.

Lemma radix_value_radix b n : 1 < b → 0 ≤ n → radix_value b 0 (radix b n) = n.
Proof. intros Hb Hn. unfold radix. pose proof (Z.log2_nonneg n). by rewrite radix_digits_value by lia. Qed.

Lemma radix_digits_range b fuel n acc :
  0 < b → 0 ≤ n → Forall (λ d, 0 ≤ d < b) acc → Forall (λ d, 0 ≤ d < b) (radix_digits b fuel n acc).
Proof.
  intros Hb. revert n acc. induction fuel as [|fuel IH]; intros n acc Hn Ha; cbn [radix_digits]; [done|].
  destruct (Z.ltb_spec n b); [by constructor|]. apply IH; [apply Z.div_pos; lia|].
  constructor; [by apply Z.mod_pos_bound|done].
Qed.

Lemma radix_range b n : 0 < b → 0 ≤ n → Forall (λ d, 0 ≤ d < b) (radix b n).
Proof. intros. by apply radix_digits_range. Qed.

Lemma radix_ne b n : radix b n ≠ [].
Proof.
  unfold radix. generalize (Z.to_nat (Z.log2 n)). intros k. cbn. destruct (n <? b); [done|].
  assert (∀ f m acc, acc ≠ [] → radix_digits b f m acc ≠ []) as H; [|by apply H].
  induction f as [|f IH]; intros m acc Ha; cbn; [done|]. destruct (m <? b); [done|]. by apply IH.
Qed.

(** [n] has at most [k] digits when it is below [b ^ k]. *)
Lemma radix_digits_length b fuel n acc k :
  1 < b → 0 ≤ n < b ^ Z.of_nat (S k) → (length (radix_digits b fuel n acc) ≤ S k + length acc)%nat.
Proof.
  intros Hb. revert n acc k. induction fuel as [|fuel IH]; intros n acc k Hn; cbn [radix_digits]; [lia|].
  destruct (Z.ltb_spec n b); [cbn; lia|]. destruct k as [|k].
  - exfalso. change (Z.of_nat 1) with 1 in Hn. rewrite Z.pow_1_r in Hn. lia.
  - etrans; [apply (IH _ _ k)|cbn; lia]. split; [apply Z.div_pos; lia|].
    apply Z.div_lt_upper_bound; [lia|]. rewrite (Nat2Z.inj_succ (S k)), Z.pow_succ_r in Hn by lia. lia.
Qed.

Lemma decimal_length n : 0 ≤ n ≤ U64_MAX → (length (decimal n) ≤ 20)%nat.
Proof.
  intros Hn. unfold decimal, radix. rewrite length_map.
  etrans; [apply (radix_digits_length _ _ _ _ 19); [lia|]|cbn; lia]. unfold U64_MAX in Hn. lia.
Qed.

Lemma decimal_digits n : 0 ≤ n → Forall (λ c, 48 ≤ c ≤ 57) (decimal n).
Proof.
  intros Hn. unfold decimal. apply Forall_map. eapply Forall_impl; [by apply (radix_range 10)|].
  intros d Hd. cbn in *. lia.
Qed.

Lemma digits_value_radix acc l :
  Forall (λ d, 0 ≤ d < 10) l → digits_value acc (map (Z.add 48) l) = Some (radix_value 10 acc l).
Proof.
  intros Hl. revert acc. induction Hl as [|d l Hd Hl IH]; intros acc; [done|]. cbn [map digits_value].
  unfold is_ascii_digit, in_range. rewrite !(proj2 (Z.leb_le _ _)) by lia. cbn [andb].
  rewrite IH. unfold radix_value. cbn. do 2 f_equal. lia.
Qed.

(** A printed number is read back. *)
Lemma parse_u64_decimal n : is_u64 n → parse_u64 (decimal n) = Some n.
Proof.
  intros Hn. pose proof (decimal_digits n ltac:(apply Hn)) as Hd.
  assert (decimal n ≠ []) as Hne by (unfold decimal; intros ?%map_eq_nil; by eapply radix_ne).
  unfold parse_u64. destruct (decimal n) as [|c l] eqn:Hc; [done|].
  assert ((match c :: l with 43 :: rest => rest | _ => c :: l end) = c :: l) as ->.
  { apply Forall_inv in Hd. destruct c as [|c|c]; [done| |done]. repeat (destruct c as [c|c|]; try done). lia. }
  rewrite <- Hc. unfold decimal. rewrite digits_value_radix by (apply radix_range; [lia|apply Hn]).
  rewrite radix_value_radix by (try apply Hn; lia). destruct Hn as [_ Hn]. by rewrite (proj2 (Z.leb_le _ _)).
Qed.

Lemma hex_digit_inj m n : 0 ≤ m < 16 → 0 ≤ n < 16 → hex_digit m = hex_digit n → m = n.
Proof. unfold hex_digit. intros ??. destruct (Z.ltb_spec m 10), (Z.ltb_spec n 10); lia. Qed.

Lemma hex_inj m n : 0 ≤ m → 0 ≤ n → hex m = hex n → m = n.
Proof.
  intros Hm Hn He. rewrite <- (radix_value_radix 16 m), <- (radix_value_radix 16 n) by lia. f_equal.
  unfold hex in He. pose proof (radix_range 16 m ltac:(lia) Hm) as H1. pose proof (radix_range 16 n ltac:(lia) Hn) as H2.
  revert He H2. generalize (radix 16 n). induction H1 as [|d l Hd Hl IH]; intros [|d' l'] He H2; try done.
  cbn in He. injection He as He Hls. apply Forall_cons in H2 as [Hd' H2]. f_equal; [by apply hex_digit_inj|by apply IH].
Qed.

(** Neither printing has a character other than its digits. *)
Lemma hex_digits n : 0 ≤ n → Forall (λ c, is_ascii_hexdigit c = true) (hex n).
Proof.
  intros Hn. unfold hex. apply Forall_map. eapply Forall_impl; [by apply (radix_range 16)|].
  intros d Hd. cbn in *. unfold is_ascii_hexdigit, in_range, hex_digit. destruct (Z.ltb_spec d 10); lia.
Qed.

Lemma hex_length n : 0 ≤ n ≤ U64_MAX → (length (hex n) ≤ 16)%nat.
Proof.
  intros Hn. unfold hex, radix. rewrite length_map.
  etrans; [apply (radix_digits_length _ _ _ _ 15); [lia|]|cbn; lia]. unfold U64_MAX in Hn. lia.
Qed.

Lemma hex_bytes_length l : length (hex_bytes l) = (2 * length l)%nat.
Proof.
  induction l as [|b l IH]; [done|]. change (length (hex_bytes (b :: l))) with (S (S (length (hex_bytes l)))).
  rewrite IH. cbn [length]. lia.
Qed.

Lemma hex_bytes_digits l : Forall is_u8 l → Forall (λ c, is_ascii_hexdigit c = true) (hex_bytes l).
Proof.
  unfold hex_bytes. induction 1 as [|b l Hb Hl IH]; [constructor|]. cbn. unfold is_u8 in Hb.
  assert (∀ d, 0 ≤ d < 16 → is_ascii_hexdigit (hex_digit d) = true) as Hd.
  { intros d Hd. unfold is_ascii_hexdigit, in_range, hex_digit. destruct (Z.ltb_spec d 10); lia. }
  constructor; [apply Hd; split; [apply Z.div_pos; lia|apply Z.div_lt_upper_bound; lia]|].
  constructor; [apply Hd; by apply Z.mod_pos_bound|exact IH].
Qed.

Lemma str_cmp_eq a b : str_cmp a b = Eq → a = b.
Proof.
  revert b. induction a as [|x a IH]; intros [|y b]; cbn; try done.
  unfold then_with. destruct (x ?= y) eqn:Hc; try done. apply Z.compare_eq_iff in Hc as ->. by intros ->%IH.
Qed.

(** A sorted list is determined by what it holds, where the order tells elements apart. *)
Lemma sort_by_unique {A} (cmp : A → A → comparison) {Hc : OrdLaws cmp} (l k : list A) :
  (∀ x y, x ∈ l → y ∈ l → cmp x y = Eq → x = y) → l ≡ₚ k → sort_by (cmp_le cmp) l = sort_by (cmp_le cmp) k.
Proof.
  intros Hd Hp. pose proof (sort_by_sorted (cmp_le cmp) (cmp_le_total cmp) (cmp_le_trans cmp)) as Hs.
  apply (sorting.StronglySorted_unique_strong _ _ _) with (2 := Hs l) (3 := Hs k); [|by rewrite !sort_by_perm].
  intros x y Hx Hy. rewrite sort_by_perm in Hx, Hy. rewrite <- Hp in Hy. unfold cmp_le. rewrite (ord_antisym (cmp := cmp) x y).
  specialize (Hd x y Hx Hy). destruct (cmp x y); by auto.
Qed.

Lemma decimal_inj m n : 0 ≤ m → 0 ≤ n → decimal m = decimal n → m = n.
Proof.
  intros Hm Hn He. rewrite <- (radix_value_radix 10 m), <- (radix_value_radix 10 n) by lia.
  apply Some_inj. rewrite <- !digits_value_radix by (apply radix_range; lia). unfold decimal in He. by rewrite He.
Qed.
