(* ===== verification/Utf8.v ===== *)
(** * UTF-8 is self-synchronising

    Searching the bytes of a string is searching its scalar values: what makes
    the byte-window matcher of [detection/classify.rs], and every
    [str::contains] the library writes on scalars, mean what they say. *)

From S2P Require Import Prelude RustStd.
Local Open Scope Z_scope.

Definition valid_str (s : str) : Prop := Forall is_char s.

#[export] Instance is_char_dec c : Decision (is_char c).
Proof. unfold is_char. apply _. Defined.
#[export] Instance valid_str_dec s : Decision (valid_str s).
Proof. unfold valid_str. apply _. Defined.

(** Continuation bytes; every other byte of valid UTF-8 starts a character. *)
Definition is_continuation (b : byte) : Prop := 128 ≤ b < 192.

Ltac div_lia := Z.to_euclidean_division_equations; lia.

(** The four shapes of an encoded character. *)
Lemma encode_utf8_cases c :
  is_char c →
  (c < 128 ∧ encode_utf8 c = [c] ∧ 0 ≤ c) ∨
  (128 ≤ c < 2048 ∧ ∃ a b, encode_utf8 c = [192 + a; 128 + b] ∧
     2 ≤ a < 32 ∧ 0 ≤ b < 64 ∧ c = a * 64 + b) ∨
  (2048 ≤ c < 65536 ∧ ∃ a b d, encode_utf8 c = [224 + a; 128 + b; 128 + d] ∧
     0 ≤ a < 16 ∧ 0 ≤ b < 64 ∧ 0 ≤ d < 64 ∧ c = a * 4096 + b * 64 + d) ∨
  (65536 ≤ c ∧ ∃ a b d e, encode_utf8 c = [240 + a; 128 + b; 128 + d; 128 + e] ∧
     0 ≤ a < 5 ∧ 0 ≤ b < 64 ∧ 0 ≤ d < 64 ∧ 0 ≤ e < 64 ∧
     c = a * 262144 + b * 4096 + d * 64 + e).
Proof.
  intros Hc. unfold is_char in Hc. unfold encode_utf8.
  destruct (Z.ltb_spec c 128); [left; split_and!; [done..|lia]|right].
  destruct (Z.ltb_spec c 2048); [left|right].
  { split; [lia|]. exists (c / 64), (c mod 64). split_and!; try done; div_lia. }
  destruct (Z.ltb_spec c 65536); [left|right].
  { split; [lia|]. exists (c / 4096), ((c / 64) mod 64), (c mod 64).
    split_and!; try done; div_lia. }
  split; [lia|]. exists (c / 262144), ((c / 4096) mod 64), ((c / 64) mod 64), (c mod 64).
  split_and!; try done; div_lia.
Qed.

(** A character starts with a lead byte and goes on with continuation bytes. *)
Lemma encode_utf8_shape c :
  is_char c →
  ∃ b rest, encode_utf8 c = b :: rest ∧ ¬ is_continuation b ∧ Forall is_continuation rest.
Proof.
  intros Hc. unfold is_continuation.
  destruct (encode_utf8_cases c Hc)
    as [(?&->&?)|[(?&a&b&->&?&?&?)|[(?&a&b&d&->&?&?&?&?)|(?&a&b&d&e&->&?&?&?&?&?)]]];
    do 2 eexists; (split; [reflexivity|]); (split; [lia|]); repeat constructor; lia.
Qed.

(** No encoding is a prefix of another. *)
Lemma encode_utf8_prefix_free c c' r r' :
  is_char c → is_char c' → encode_utf8 c ++ r = encode_utf8 c' ++ r' → c = c' ∧ r = r'.
Proof.
  intros Hc Hc'.
  destruct (encode_utf8_cases c Hc)
    as [(?&->&?)|[(?&a&b&->&?&?&?)|[(?&a&b&d&->&?&?&?&?)|(?&a&b&d&e&->&?&?&?&?&?)]]];
  destruct (encode_utf8_cases c' Hc')
    as [(?&->&?)|[(?&a'&b'&->&?&?&?)|[(?&a'&b'&d'&->&?&?&?&?)|(?&a'&b'&d'&e'&->&?&?&?&?&?)]]];
  cbn [app]; intros Heq; injection Heq; intros; split; first [done | lia | exfalso; lia].
Qed.

Lemma utf8_cons c s : utf8 (c :: s) = encode_utf8 c ++ utf8 s.
Proof. done. Qed.
Lemma utf8_app a b : utf8 (a ++ b) = utf8 a ++ utf8 b.
Proof. induction a as [|c a IH]; [done|]. cbn [app]. by rewrite !utf8_cons, IH, app_assoc. Qed.

Lemma encode_utf8_nonempty c : is_char c → encode_utf8 c ≠ [].
Proof. intros (b & rest & -> & _)%encode_utf8_shape. done. Qed.

Lemma utf8_prefix a s y :
  valid_str a → valid_str s → utf8 s = utf8 a ++ y → ∃ q, s = a ++ q ∧ y = utf8 q.
Proof.
  intros Ha. revert s. induction Ha as [|c a Hc Ha IH]; intros s Hs Heq.
  { by exists s. }
  destruct Hs as [|c' s Hc' Hs].
  { rewrite utf8_cons in Heq. destruct (encode_utf8_shape c Hc) as (b & rest & Hb & _).
    rewrite Hb in Heq. done. }
  rewrite !utf8_cons, <-app_assoc in Heq.
  destruct (encode_utf8_prefix_free _ _ _ _ Hc' Hc Heq) as [-> Heq'].
  destruct (IH s Hs Heq') as (q & -> & ->). by exists q.
Qed.

(** A valid string found in the bytes of another starts at a character. *)
Lemma utf8_infix a s x y :
  valid_str a → a ≠ [] → valid_str s → utf8 s = x ++ utf8 a ++ y →
  ∃ p q, s = p ++ a ++ q ∧ x = utf8 p ∧ y = utf8 q.
Proof.
  intros Ha Hne Hs. revert x. induction Hs as [|c s Hc Hs IH]; intros x Heq.
  { destruct a as [|c a]; [done|]. apply Forall_cons in Ha as [Hc _].
    destruct (encode_utf8_shape c Hc) as (b & rest & Hb & _).
    rewrite utf8_cons, Hb in Heq. by destruct x. }
  destruct x as [|x0 x].
  { destruct (utf8_prefix a (c :: s) y) as (q & -> & ->); [done|by constructor|done|].
    by exists [], q. }
  rewrite utf8_cons in Heq.
  destruct (encode_utf8_shape c Hc) as (b & rest & Hb & Hlead & Hcont).
  rewrite Hb in Heq. cbn [app] in Heq. injection Heq as <- Heq.
  assert (∃ x', x = rest ++ x' ∧ utf8 s = x' ++ utf8 a ++ y) as (x' & -> & Heq').
  { apply app_eq_app in Heq as (l & [[Hr Ht]|[Hr Ht]]).
    - destruct l as [|l0 l].
      { exists []. rewrite app_nil_r in Hr. subst. by rewrite app_nil_r. }
      exfalso. destruct a as [|ca a]; [done|]. apply Forall_cons in Ha as [Hca _].
      destruct (encode_utf8_shape ca Hca) as (b' & rest' & Hb' & Hlead' & _).
      rewrite utf8_cons, Hb' in Ht. injection Ht as <- _.
      apply Hlead'. subst rest. by apply Forall_app in Hcont as [_ [? _]%Forall_cons].
    - exists l. split; [done|]. by rewrite Ht. }
  destruct (IH x' Heq') as (p & q & -> & -> & ->).
  exists (c :: p), q. split_and!; [done| |done].
  rewrite utf8_cons, Hb. done.
Qed.

(** ASCII case mapping commutes with encoding. *)
Lemma to_ascii_lowercase_high c : 128 ≤ c → to_ascii_lowercase c = c.
Proof. intros. unfold to_ascii_lowercase, in_range. rewrite (proj2 (Z.leb_gt c 90)) by lia. by rewrite andb_false_r. Qed.

Lemma to_ascii_lowercase_char c : is_char c → is_char (to_ascii_lowercase c).
Proof.
  unfold is_char, to_ascii_lowercase, in_range.
  destruct (Z.leb_spec 65 c), (Z.leb_spec c 90); cbn; lia.
Qed.

Lemma to_ascii_lowercase_low c : 0 ≤ c < 128 → 0 ≤ to_ascii_lowercase c < 128.
Proof.
  unfold to_ascii_lowercase, in_range.
  destruct (Z.leb_spec 65 c), (Z.leb_spec c 90); cbn; lia.
Qed.

Lemma encode_utf8_lowercase c :
  is_char c → map to_ascii_lowercase (encode_utf8 c) = encode_utf8 (to_ascii_lowercase c).
Proof.
  intros Hc. destruct (Z.ltb_spec c 128).
  - assert (0 ≤ c) by (unfold is_char in Hc; lia).
    pose proof (to_ascii_lowercase_low c ltac:(lia)).
    unfold encode_utf8. rewrite !(proj2 (Z.ltb_lt _ _)) by lia. done.
  - rewrite (to_ascii_lowercase_high c) by done.
    destruct (encode_utf8_cases c Hc)
      as [(?&->&?)|[(?&a&b&->&?&?&?)|[(?&a&b&d&->&?&?&?&?)|(?&a&b&d&e&->&?&?&?&?&?)]]];
      cbn [map]; rewrite ?to_ascii_lowercase_high by lia; done.
Qed.

Lemma utf8_lowercase s :
  valid_str s → map to_ascii_lowercase (utf8 s) = utf8 (map to_ascii_lowercase s).
Proof.
  induction 1 as [|c s Hc Hs IH]; [done|].
  cbn [map]. by rewrite !utf8_cons, map_app, encode_utf8_lowercase, IH.
Qed.

Lemma valid_lowercase s : valid_str s → valid_str (map to_ascii_lowercase s).
Proof. induction 1; constructor; auto using to_ascii_lowercase_char. Qed.

(** ** Decoding *)

(** [String::from_utf8]: the first character and what follows, if the bytes are
    its encoding. *)
Definition decode_utf8 (l : list byte) : option (char * list byte) :=
  let char_of c bytes rest :=
    if bool_decide (is_char c) && bool_decide (encode_utf8 c = bytes) then Some (c, rest) else None in
  match l with
  | a :: r1 =>
      if a <? 128 then char_of a [a] r1 else
      match r1 with
      | b :: r2 =>
          if a <? 224 then char_of ((a - 192) * 64 + (b - 128)) [a; b] r2 else
          match r2 with
          | d :: r3 =>
              if a <? 240 then char_of ((a - 224) * 4096 + (b - 128) * 64 + (d - 128)) [a; b; d] r3 else
              match r3 with
              | e :: r4 =>
                  char_of ((a - 240) * 262144 + (b - 128) * 4096 + (d - 128) * 64 + (e - 128))
                    [a; b; d; e] r4
              | [] => None
              end
          | [] => None
          end
      | [] => None
      end
  | [] => None
  end.

Fixpoint from_utf8_loop (fuel : nat) (l : list byte) : option str :=
  match l, fuel with
  | [], _ => Some []
  | _, O => None
  | _, S fuel => p ← decode_utf8 l; s ← from_utf8_loop fuel p.2; Some (p.1 :: s)
  end.

Definition from_utf8 (l : list byte) : option str := from_utf8_loop (length l) l.

Lemma decode_utf8_sound l c rest :
  decode_utf8 l = Some (c, rest) → is_char c ∧ l = encode_utf8 c ++ rest.
Proof.
  unfold decode_utf8. intros H. repeat case_match; try done; simplify_eq.
  all: repeat match goal with H : (_ && _) = true |- _ => apply andb_prop in H as [?%bool_decide_eq_true ?%bool_decide_eq_true] end.
  all: split; [done|]; match goal with H : encode_utf8 _ = _ |- _ => by rewrite H end.
Qed.

Lemma decode_utf8_encode c rest : is_char c → decode_utf8 (encode_utf8 c ++ rest) = Some (c, rest).
Proof.
  intros Hc. pose proof (encode_utf8_cases c Hc)
    as [(?&He&?)|[(?&a&b&He&?&?&?)|[(?&a&b&d&He&?&?&?&?)|(?&a&b&d&e&He&?&?&?&?&?)]]];
    rewrite He; cbn [app decode_utf8].
  - rewrite (proj2 (Z.ltb_lt _ _)) by lia. by rewrite !bool_decide_true.
  - rewrite (proj2 (Z.ltb_ge _ _)), (proj2 (Z.ltb_lt _ _)) by lia.
    replace ((192 + a - 192) * 64 + (128 + b - 128)) with c by lia. by rewrite !bool_decide_true.
  - rewrite !(proj2 (Z.ltb_ge _ _)), (proj2 (Z.ltb_lt _ _)) by lia.
    replace ((224 + a - 224) * 4096 + (128 + b - 128) * 64 + (128 + d - 128)) with c by lia.
    by rewrite !bool_decide_true.
  - rewrite !(proj2 (Z.ltb_ge _ _)) by lia.
    replace ((240 + a - 240) * 262144 + (128 + b - 128) * 4096 + (128 + d - 128) * 64 + (128 + e - 128))
      with c by lia.
    by rewrite !bool_decide_true.
Qed.

Lemma from_utf8_loop_utf8 s fuel :
  valid_str s → (length (utf8 s) ≤ fuel)%nat → from_utf8_loop fuel (utf8 s) = Some s.
Proof.
  intros Hs. revert fuel. induction Hs as [|c s Hc Hs IH]; intros fuel Hf; [by destruct fuel|].
  pose proof (encode_utf8_nonempty c Hc) as Hne. rewrite utf8_cons in *. rewrite length_app in Hf.
  destruct (encode_utf8 c) as [|b bs] eqn:He; [done|].
  destruct fuel as [|fuel]; [cbn in Hf; lia|]. cbn [app from_utf8_loop].
  change (b :: bs ++ utf8 s) with ((b :: bs) ++ utf8 s). rewrite <- He, decode_utf8_encode by done.
  cbn. rewrite IH; [done|]. cbn in Hf. lia.
Qed.

(** Decoding inverts encoding. *)
Lemma from_utf8_utf8 s : valid_str s → from_utf8 (utf8 s) = Some s.
Proof. intros Hs. by apply from_utf8_loop_utf8. Qed.

Lemma from_utf8_sound l s : from_utf8 l = Some s → valid_str s ∧ l = utf8 s.
Proof.
  unfold from_utf8. generalize (length l) as fuel. intros fuel. revert l s.
  induction fuel as [|fuel IH]; intros l s; [destruct l; cbn; [intros [= <-]; by split; [constructor|]|done]|].
  destruct l as [|b l]; [cbn; intros [= <-]; by split; [constructor|]|]. cbn [from_utf8_loop].
  destruct (decode_utf8 (b :: l)) as [[c rest]|] eqn:Hd; [|done]. cbn.
  destruct (from_utf8_loop fuel rest) as [s'|] eqn:Hs; [|done]. cbn. intros [= <-].
  apply decode_utf8_sound in Hd as [Hc ->]. apply IH in Hs as [Hv ->].
  split; [by constructor|]. by rewrite utf8_cons.
Qed.
