(* ===== verification/DraftBytes.v ===== *)
(** * Draft bytes ([crates/daemon/src/draft_bytes.rs])

    Which producer-declared draft bytes can put text at a composer.  The loop
    of [draft_content_byte_count] is modelled on the slice that remains
    ([&data[index..]]); [escape_sequence] and [string_escape_len] are the
    helpers with the same names. *)

From S2P Require Import Prelude RustStd.
Local Open Scope Z_scope.

Definition ESC : byte := 27.
Definition BEL : byte := 7.
Definition DEL : byte := 127.
Definition PASTE_START : list byte := [27; 91; 50; 48; 48; 126].
Definition PASTE_END : list byte := [27; 91; 50; 48; 49; 126].
Definition X10_MOUSE_REPORT_LEN : nat := 6.
Definition CONTENT_CAPABLE_SEQUENCE_FINALS : list byte := [65; 66].
Definition STRING_ESCAPE_INTRODUCERS : list byte := [80; 93; 88; 94; 95].

Definition byte_in (set : list byte) (b : byte) : bool := bool_decide (b ∈ set).

Definition is_inert_control (b : byte) : bool :=
  in_range 0 8 b || (b =? 11) || (b =? 12) || (b =? 21) || (b =? 23) || (b =? 26) ||
  in_range 28 31 b || (b =? DEL).

(** The scan of [string_escape_len] from [index] over the rest of the slice. *)
Fixpoint string_escape_scan (index : nat) (rest : list byte) : option nat :=
  match rest with
  | [] => None
  | b :: rest' =>
      if b =? BEL then Some (index + 1)%nat
      else if b =? ESC then
        match rest' with
        | c :: _ => if c =? 92 then Some (index + 2)%nat else None
        | [] => None
        end
      else string_escape_scan (S index) rest'
  end.

Definition string_escape_len (data : list byte) : option nat :=
  string_escape_scan 2 (drop 2 data).

(** [escape_sequence]: bytes consumed, and whether they can create content. *)
Definition escape_sequence (data : list byte) : nat * bool :=
  match data !! 1%nat with
  | Some b =>
      if b =? 91 then
        match position (in_range 64 126) (drop 2 data) with
        | Some offset =>
            let index := (offset + 2)%nat in
            if bool_decide (index = 2%nat) && bool_decide (data !! 2%nat = Some 77)
            then (Nat.min X10_MOUSE_REPORT_LEN (length data), false)
            else (S index, match data !! index with
                           | Some f => byte_in CONTENT_CAPABLE_SEQUENCE_FINALS f
                           | None => false
                           end)
        | None => (length data, false)
        end
      else if b =? 79 then
        match data !! 2%nat with
        | Some f => (3%nat, byte_in CONTENT_CAPABLE_SEQUENCE_FINALS f)
        | None => (length data, false)
        end
      else if byte_in STRING_ESCAPE_INTRODUCERS b then
        match string_escape_len data with
        | Some len => (len, false)
        | None => (2%nat, false)
        end
      else (2%nat, false)
  | None => (1%nat, false)
  end.

(** Where the paste payload ends: the first [PASTE_END], or the whole rest. *)
Definition paste_payload_len (payload : list byte) : nat :=
  default (length payload)
    (position (λ w, bool_decide (w = PASTE_END)) (windows (length PASTE_END) payload)).

(** One iteration of the loop on a non-empty slice: the content it adds and
    the bytes it consumes. *)
Definition draft_step (rest : list byte) : Z * nat :=
  if starts_with Z.eqb PASTE_START rest then
    let payload := drop (length PASTE_START) rest in
    let end_ := paste_payload_len payload in
    (Z.of_nat end_,
     Nat.min (length PASTE_START + end_ + length PASTE_END) (length rest))
  else
    match rest with
    | [] => (0, 0%nat)
    | b :: _ =>
        if b =? ESC then
          let '(consumed, content_capable) := escape_sequence rest in
          (if content_capable then Z.of_nat consumed else 0, consumed)
        else (if is_inert_control b then 0 else 1, 1%nat)
    end.

(** The [while index < data.len()] loop; [None] only when fuel runs out. *)
Fixpoint draft_loop (fuel : nat) (rest : list byte) (content : Z) : option Z :=
  match rest with
  | [] => Some content
  | _ :: _ =>
      match fuel with
      | O => None
      | S fuel' =>
          let '(added, consumed) := draft_step rest in
          draft_loop fuel' (drop consumed rest) (content + added)
      end
  end.

Definition draft_content_byte_count (data : list byte) : Z :=
  default 0 (draft_loop (length data) data 0).

(** ** Every iteration makes progress *)

Lemma string_escape_scan_bounds index rest n :
  string_escape_scan index rest = Some n → (index < n ≤ index + length rest)%nat.
Proof.
  revert index. induction rest as [|b rest IH]; intros index; cbn [string_escape_scan length]; [done|].
  destruct (b =? BEL); [intros [= <-]; lia|].
  destruct (b =? ESC).
  - destruct rest as [|c rest']; [done|]. cbn [length].
    destruct (c =? 92); [|done]. intros [= <-]. lia.
  - intros H%IH. lia.
Qed.

Lemma string_escape_len_bounds data n :
  string_escape_len data = Some n → (2 < n ≤ length data)%nat.
Proof.
  unfold string_escape_len. intros H%string_escape_scan_bounds.
  rewrite length_drop in H. lia.
Qed.

Lemma escape_sequence_bounds data :
  data ≠ [] → (1 ≤ (escape_sequence data).1 ≤ length data)%nat.
Proof.
  intros Hne. unfold escape_sequence.
  destruct (data !! 1%nat) as [b|] eqn:H1; [|destruct data; [done|cbn [fst length]; lia]].
  apply lookup_lt_Some in H1.
  destruct (b =? 91).
  { destruct (position _ _) as [offset|] eqn:Hp; [|cbn [fst]; lia].
    apply position_lt in Hp. rewrite length_drop in Hp.
    destruct (_ && _); cbn [fst]; unfold X10_MOUSE_REPORT_LEN; lia. }
  destruct (b =? 79).
  { destruct (data !! 2%nat) eqn:H2; cbn [fst]; [apply lookup_lt_Some in H2; lia|lia]. }
  destruct (byte_in _ b); [|cbn [fst]; lia].
  destruct (string_escape_len data) eqn:Hl; cbn [fst]; [|lia].
  apply string_escape_len_bounds in Hl. lia.
Qed.

Lemma paste_payload_len_bound payload : (paste_payload_len payload ≤ length payload)%nat.
Proof.
  unfold paste_payload_len. destruct (position _ _) eqn:H; cbn [from_option id]; [|done].
  apply position_windows in H; [unfold id; lia|cbn; lia].
Qed.

Lemma starts_with_Z pre l : starts_with Z.eqb pre l = true ↔ ∃ rest, l = pre ++ rest.
Proof. apply starts_with_prefix. apply Z.eqb_eq. Qed.

Lemma draft_step_bounds rest :
  rest ≠ [] →
  (1 ≤ (draft_step rest).2 ≤ length rest)%nat ∧
  0 ≤ (draft_step rest).1 ≤ Z.of_nat (draft_step rest).2.
Proof.
  intros Hne. unfold draft_step. destruct (starts_with Z.eqb PASTE_START rest) eqn:Hs.
  - apply starts_with_Z in Hs as [rest' ->].
    pose proof (paste_payload_len_bound rest') as Hb.
    change (drop (length PASTE_START) (PASTE_START ++ rest')) with rest'.
    rewrite length_app. unfold PASTE_START, PASTE_END. cbn [length fst snd]. lia.
  - destruct rest as [|b rest]; [done|]. destruct (b =? ESC).
    + pose proof (escape_sequence_bounds (b :: rest) ltac:(done)) as Hb.
      destruct (escape_sequence (b :: rest)) as [consumed capable]. cbn [fst snd] in *.
      destruct capable; lia.
    + cbn [fst snd length]. destruct (is_inert_control b); lia.
Qed.

(** ** The loop is total, and fuel beyond the length changes nothing *)

Lemma draft_loop_shift fuel rest c :
  draft_loop fuel rest c = (λ n, c + n) <$> draft_loop fuel rest 0.
Proof.
  revert rest c. induction fuel as [|fuel IH]; intros [|b rest] c; cbn [draft_loop];
    [by cbn; rewrite Z.add_0_r|done|by cbn; rewrite Z.add_0_r|].
  destruct (draft_step (b :: rest)) as [added consumed].
  rewrite (IH _ (c + added)), (IH _ (0 + added)), <-option_fmap_compose.
  apply option_fmap_ext. intros n. cbn. lia.
Qed.

Lemma draft_loop_fuel fuel rest c :
  (length rest ≤ fuel)%nat → draft_loop fuel rest c = draft_loop (length rest) rest c.
Proof.
  revert fuel c. induction rest as [rest IH] using (induction_ltof1 _ (@length byte)).
  unfold ltof in IH. intros fuel c Hf.
  destruct rest as [|b rest]; [by destruct fuel|].
  destruct fuel as [|fuel]; [cbn in Hf; lia|].
  pose proof (draft_step_bounds (b :: rest) ltac:(done)) as [Hb _].
  cbn [draft_loop length] in *.
  destruct (draft_step (b :: rest)) as [added consumed]. cbn [snd] in Hb.
  assert (length (drop consumed (b :: rest)) ≤ length rest)%nat as Hlen.
  { rewrite length_drop. cbn [length]. lia. }
  rewrite (IH (drop consumed (b :: rest))) by lia.
  symmetry. apply IH; lia.
Qed.

Lemma draft_loop_total fuel rest c :
  (length rest ≤ fuel)%nat → is_Some (draft_loop fuel rest c).
Proof.
  revert rest c. induction fuel as [|fuel IH]; intros [|b rest] c Hf; cbn [draft_loop];
    try (by eexists); [cbn in Hf; lia|].
  pose proof (draft_step_bounds (b :: rest) ltac:(done)) as [Hb _].
  destruct (draft_step (b :: rest)) as [added consumed]. cbn [snd] in Hb.
  apply IH. rewrite length_drop. lia.
Qed.

Lemma draft_count_nil : draft_content_byte_count [] = 0.
Proof. done. Qed.

(** The unfolding equation of the loop. *)
Lemma draft_count_step rest :
  rest ≠ [] →
  draft_content_byte_count rest =
    (draft_step rest).1 + draft_content_byte_count (drop (draft_step rest).2 rest).
Proof.
  intros Hne. destruct rest as [|b rest]; [done|].
  pose proof (draft_step_bounds (b :: rest) ltac:(done)) as [Hb _].
  unfold draft_content_byte_count. cbn [draft_loop length] in *.
  destruct (draft_step (b :: rest)) as [added consumed]. cbn [fst snd] in *.
  assert (length (drop consumed (b :: rest)) ≤ length rest)%nat as Hlen.
  { rewrite length_drop. cbn [length]. lia. }
  rewrite draft_loop_shift, (draft_loop_fuel (length rest)) by done.
  destruct (draft_loop_total (length (drop consumed (b :: rest))) (drop consumed (b :: rest)) 0)
    as [n ->]; [done|]. cbn. unfold id. lia.
Qed.

(** Induction along the iterations of the loop. *)
Lemma draft_ind (P : list byte → Prop) :
  P [] →
  (∀ rest, rest ≠ [] → P (drop (draft_step rest).2 rest) → P rest) →
  ∀ rest, P rest.
Proof.
  intros H0 Hs rest. induction rest as [rest IH] using (induction_ltof1 _ (@length byte)).
  unfold ltof in IH. destruct (decide (rest = [])) as [->|Hne]; [done|].
  pose proof (draft_step_bounds rest Hne) as [Hb _].
  apply Hs; [done|]. apply IH. rewrite length_drop. lia.
Qed.

Lemma draft_count_bounds data :
  0 ≤ draft_content_byte_count data ≤ Z.of_nat (length data).
Proof.
  induction data as [|rest Hne IH] using draft_ind; [by rewrite draft_count_nil|].
  pose proof (draft_step_bounds rest Hne) as [Hc Ha].
  rewrite draft_count_step by done. rewrite length_drop in IH. lia.
Qed.

(** ** The grammar of a write

    An independent description of what a producer's write is made of: typed
    text, inert controls, bracketed pastes, CSI and SS3 keys, X10 mouse
    reports, terminal replies with a string payload, Alt chords and a bare
    Escape, with the content each of them declares.  A string introducer that
    meets another escape before a terminator, and has a terminator after that,
    has no reading here: the comment of [string_escape_len] and its code read
    it differently ([string_escape_stops_at_foreign_escape]). *)

Definition csi_final (b : byte) : bool := in_range 64 126 b.
Definition csi_params (l : list byte) : Prop := ∀ b, b ∈ l → csi_final b = false.
Definition plain_payload (l : list byte) : Prop := ∀ b, b ∈ l → b ≠ BEL ∧ b ≠ ESC.
Definition string_terminator (l : list byte) : Prop := l = [BEL] ∨ l = [ESC; 92].
Definition string_terminated (l : list byte) : Prop :=
  ∃ payload term rest, l = payload ++ term ++ rest ∧
    plain_payload payload ∧ string_terminator term.
(** A terminator stands somewhere in the bytes. *)
Definition terminator_in (l : list byte) : Prop :=
  ∃ before term rest, l = before ++ term ++ rest ∧ string_terminator term.
Definition paste_end_at (l : list byte) (i : nat) : Prop := take 6 (drop i l) = PASTE_END.
Definition recall_weight (f : byte) (n : nat) : Z :=
  if byte_in CONTENT_CAPABLE_SEQUENCE_FINALS f then Z.of_nat n else 0.

Inductive write_content : list byte → Z → Prop :=
  | wc_nil : write_content [] 0
  | wc_text b rest n :
      b ≠ ESC → is_inert_control b = false →
      write_content rest n → write_content (b :: rest) (1 + n)
  | wc_inert b rest n :
      is_inert_control b = true → write_content rest n → write_content (b :: rest) n
  | wc_paste p rest n :
      (∀ i, (i < length p)%nat → ¬ paste_end_at (p ++ PASTE_END) i) →
      write_content rest n →
      write_content (PASTE_START ++ p ++ PASTE_END ++ rest) (Z.of_nat (length p) + n)
  | wc_paste_open p :
      (∀ i, ¬ paste_end_at p i) →
      write_content (PASTE_START ++ p) (Z.of_nat (length p))
  | wc_csi params f rest n :
      csi_params params → csi_final f = true →
      ¬ (params = [] ∧ f = 77) → ¬ (params = [50; 48; 48] ∧ f = 126) →
      write_content rest n →
      write_content (ESC :: 91 :: params ++ f :: rest) (recall_weight f (3 + length params) + n)
  | wc_mouse coords rest n :
      (length coords = 3 ∨ length coords < 3 ∧ rest = [])%nat →
      write_content rest n → write_content (ESC :: 91 :: 77 :: coords ++ rest) n
  | wc_csi_open params : csi_params params → write_content (ESC :: 91 :: params) 0
  | wc_ss3 f rest n :
      write_content rest n → write_content (ESC :: 79 :: f :: rest) (recall_weight f 3 + n)
  | wc_ss3_open : write_content [ESC; 79] 0
  | wc_string i payload term rest n :
      i ∈ STRING_ESCAPE_INTRODUCERS → plain_payload payload → string_terminator term →
      write_content rest n → write_content (ESC :: i :: payload ++ term ++ rest) n
  | wc_chord c rest n :
      c ≠ 91 → c ≠ 79 → (c ∈ STRING_ESCAPE_INTRODUCERS → ¬ terminator_in rest) →
      write_content rest n → write_content (ESC :: c :: rest) n
  | wc_escape : write_content [ESC] 0.

Lemma ESC_not_inert : is_inert_control ESC = false.
Proof. done. Qed.

(** *** Pastes *)

Lemma paste_payload_len_first payload i :
  paste_end_at payload i → (∀ j, (j < i)%nat → ¬ paste_end_at payload j) →
  paste_payload_len payload = i.
Proof.
  intros Hi Hb. unfold paste_payload_len.
  assert (i + 6 ≤ length payload)%nat as Hlen.
  { apply (f_equal length) in Hi. rewrite length_take, length_drop in Hi.
    change (length PASTE_END) with 6%nat in Hi. lia. }
  enough (position (λ w, bool_decide (w = PASTE_END)) (windows (length PASTE_END) payload) = Some i)
    as -> by done.
  change (length PASTE_END) with 6%nat.
  apply position_Some. split.
  - exists PASTE_END. rewrite windows_lookup by lia. rewrite decide_True by done.
    split; [by f_equal|]. by apply bool_decide_eq_true.
  - intros j w Hj. rewrite windows_lookup by lia. case_decide; [|done].
    intros [= <-]. apply bool_decide_eq_false. by apply Hb.
Qed.

Lemma paste_payload_len_none payload :
  (∀ i, ¬ paste_end_at payload i) → paste_payload_len payload = length payload.
Proof.
  intros Hn. unfold paste_payload_len.
  destruct (position _ _) as [i|] eqn:Hi; [|done].
  apply position_Some in Hi as [(w & Hw & Hp) _].
  rewrite windows_lookup in Hw by (cbn; lia). case_decide; [|done].
  injection Hw as <-. apply bool_decide_eq_true in Hp. by destruct (Hn i).
Qed.

Lemma paste_payload_len_inv payload :
  (∃ p rest, payload = p ++ PASTE_END ++ rest ∧ length p = paste_payload_len payload ∧
     ∀ i, (i < length p)%nat → ¬ paste_end_at (p ++ PASTE_END) i) ∨
  (paste_payload_len payload = length payload ∧ ∀ i, ¬ paste_end_at payload i).
Proof.
  unfold paste_payload_len. destruct (position _ _) as [i|] eqn:Hi; cbn [from_option id].
  - left. pose proof (position_windows 6 payload _ i ltac:(lia) Hi) as Hlen.
    apply position_Some in Hi as [(w & Hw & Hp) Hb].
    rewrite windows_lookup in Hw by (cbn; lia). rewrite decide_True in Hw by done.
    injection Hw as <-. apply bool_decide_eq_true in Hp.
    change (length PASTE_END) with 6%nat in *.
    assert (length (take i payload) = i) as Hli by (rewrite length_take; lia).
    assert (payload = (take i payload ++ PASTE_END) ++ drop (i + 6) payload) as Hsplit.
    { rewrite <-app_assoc. rewrite <-Hp at 1. by rewrite <-drop_drop, take_drop, take_drop. }
    exists (take i payload), (drop (i + 6) payload). unfold id.
    split_and!; [by rewrite app_assoc|done|].
    intros j Hj Hje. rewrite Hli in Hj.
    assert (windows 6 payload !! j = Some (take 6 (drop j payload))) as Hwj.
    { rewrite windows_lookup by lia. case_decide; [done|lia]. }
    apply (Hb j) in Hwj; [|done]. apply bool_decide_eq_false in Hwj. apply Hwj.
    rewrite Hsplit, take_drop_app_le; [done|]. rewrite length_app, Hli.
    change (length PASTE_END) with 6%nat. lia.
  - right. split; [done|]. intros i Hi'.
    rewrite position_None in Hi. specialize (Hi (take 6 (drop i payload))).
    rewrite bool_decide_eq_false in Hi. apply Hi; [|done].
    apply list_elem_of_lookup. exists i. change (length PASTE_END) with 6%nat.
    rewrite windows_lookup by lia. rewrite decide_True; [done|].
    apply (f_equal length) in Hi'. rewrite length_take, length_drop in Hi'.
    change (length PASTE_END) with 6%nat in Hi'. lia.
Qed.

(** *** What one iteration does on each token *)

Lemma draft_step_paste p rest :
  (∀ i, (i < length p)%nat → ¬ paste_end_at (p ++ PASTE_END) i) →
  draft_step (PASTE_START ++ p ++ PASTE_END ++ rest) =
    (Z.of_nat (length p), (12 + length p)%nat).
Proof.
  intros Hp. unfold draft_step.
  rewrite (proj2 (starts_with_Z _ _)) by (by eexists).
  change (drop (length PASTE_START) (PASTE_START ++ p ++ PASTE_END ++ rest))
    with (p ++ PASTE_END ++ rest).
  rewrite (paste_payload_len_first _ (length p)).
  - f_equal. rewrite !length_app. unfold PASTE_START, PASTE_END. cbn [length]. lia.
  - unfold paste_end_at. by rewrite drop_app_length.
  - intros j Hj. unfold paste_end_at. rewrite app_assoc, take_drop_app_le; [by apply Hp|].
    rewrite length_app. change (length PASTE_END) with 6%nat. lia.
Qed.

Lemma draft_step_paste_open p :
  (∀ i, ¬ paste_end_at p i) →
  draft_step (PASTE_START ++ p) = (Z.of_nat (length p), length (PASTE_START ++ p)).
Proof.
  intros Hp. unfold draft_step.
  rewrite (proj2 (starts_with_Z _ _)) by (by eexists).
  change (drop (length PASTE_START) (PASTE_START ++ p)) with p.
  rewrite paste_payload_len_none by done.
  f_equal. rewrite !length_app. unfold PASTE_START, PASTE_END. cbn [length]. lia.
Qed.

Lemma not_paste_start b l :
  b ≠ ESC → starts_with Z.eqb PASTE_START (b :: l) = false.
Proof. intros Hb. cbn [starts_with PASTE_START]. destruct (Z.eqb_spec 27 b) as [<-|]; [by destruct Hb|done]. Qed.

Lemma not_paste_start_2 c l :
  c ≠ 91 → starts_with Z.eqb PASTE_START (ESC :: c :: l) = false.
Proof. intros Hc. cbn [starts_with PASTE_START]. destruct (Z.eqb_spec 91 c) as [<-|]; [by destruct Hc|done]. Qed.

Lemma not_paste_start_csi params f rest :
  csi_params params → csi_final f = true → ¬ (params = [50; 48; 48] ∧ f = 126) →
  starts_with Z.eqb PASTE_START (ESC :: 91 :: params ++ f :: rest) = false.
Proof.
  intros Hp Hf Hne. destruct (starts_with _ _ _) eqn:Hs; [|done].
  apply starts_with_Z in Hs as [r Hr]. injection Hr as Hr.
  pose proof (position_app_first csi_final params f rest Hp Hf) as H1.
  assert (position csi_final ([50; 48; 48] ++ 126 :: r) = Some 3%nat) as H2 by done.
  rewrite Hr in H1. cbn [app] in H2. rewrite H2 in H1. injection H1 as Hlen.
  destruct Hne. destruct params as [|a [|b [|c [|]]]]; try done.
  cbn in Hr. by simplify_eq.
Qed.

Lemma not_paste_start_csi_open params :
  csi_params params → starts_with Z.eqb PASTE_START (ESC :: 91 :: params) = false.
Proof.
  intros Hp. destruct (starts_with _ _ _) eqn:Hs; [|done].
  apply starts_with_Z in Hs as [r Hr]. injection Hr as ->.
  assert (csi_final 126 = false) by (apply Hp; set_solver). done.
Qed.

Lemma draft_step_escape l :
  starts_with Z.eqb PASTE_START (ESC :: l) = false →
  draft_step (ESC :: l) =
    let '(consumed, capable) := escape_sequence (ESC :: l) in
    (if capable then Z.of_nat consumed else 0, consumed).
Proof. intros H. unfold draft_step. by rewrite H. Qed.

Lemma escape_sequence_csi l :
  escape_sequence (ESC :: 91 :: l) =
    match position csi_final l with
    | Some offset =>
        if bool_decide (offset = 0%nat) && bool_decide (l !! 0%nat = Some 77)
        then (Nat.min X10_MOUSE_REPORT_LEN (2 + length l), false)
        else ((3 + offset)%nat, match l !! offset with
                                | Some f => byte_in CONTENT_CAPABLE_SEQUENCE_FINALS f
                                | None => false
                                end)
    | None => ((2 + length l)%nat, false)
    end.
Proof.
  transitivity (match position csi_final l with
    | Some offset =>
        if bool_decide ((offset + 2 = 2)%nat) && bool_decide (l !! 0%nat = Some 77)
        then (Nat.min X10_MOUSE_REPORT_LEN (2 + length l), false)
        else (S (offset + 2), match (ESC :: 91 :: l) !! (offset + 2)%nat with
                                | Some f => byte_in CONTENT_CAPABLE_SEQUENCE_FINALS f
                                | None => false
                                end)
    | None => ((2 + length l)%nat, false)
    end); [reflexivity|].
  destruct (position csi_final l) as [offset|]; [|done].
  rewrite (bool_decide_ext (offset + 2 = 2)%nat (offset = 0)%nat) by lia.
  by rewrite (Nat.add_comm offset 2).
Qed.

Lemma draft_step_csi params f rest :
  csi_params params → csi_final f = true →
  ¬ (params = [] ∧ f = 77) → ¬ (params = [50; 48; 48] ∧ f = 126) →
  draft_step (ESC :: 91 :: params ++ f :: rest) =
    (recall_weight f (3 + length params), (3 + length params)%nat).
Proof.
  intros Hp Hf Hm Hs. rewrite draft_step_escape by (by apply not_paste_start_csi).
  rewrite escape_sequence_csi, position_app_first by done.
  assert (bool_decide (length params = 0%nat) &&
          bool_decide ((params ++ f :: rest) !! 0%nat = Some 77) = false) as ->.
  { destruct params as [|a params]; [|done].
    apply andb_false_iff. right. apply bool_decide_eq_false. intros [= ->]. by apply Hm. }
  rewrite list_lookup_middle by done. unfold recall_weight. by destruct (byte_in _ f).
Qed.

Lemma draft_step_mouse coords rest :
  (length coords = 3 ∨ length coords < 3 ∧ rest = [])%nat →
  draft_step (ESC :: 91 :: 77 :: coords ++ rest) = (0, (3 + length coords)%nat).
Proof.
  intros Hc. rewrite draft_step_escape by done.
  rewrite escape_sequence_csi. cbn [position app]. change (csi_final 77) with true.
  rewrite !bool_decide_eq_true_2 by done. cbn [andb]. f_equal.
  cbn [length]. rewrite length_app. unfold X10_MOUSE_REPORT_LEN.
  destruct Hc as [Hc|[Hc ->]]; cbn [length]; lia.
Qed.

Lemma draft_step_csi_open params :
  csi_params params →
  draft_step (ESC :: 91 :: params) = (0, length (ESC :: 91 :: params)).
Proof.
  intros Hp. rewrite draft_step_escape by (by apply not_paste_start_csi_open).
  rewrite escape_sequence_csi. by rewrite (proj2 (position_None csi_final params)).
Qed.

Lemma draft_step_ss3 f rest :
  draft_step (ESC :: 79 :: f :: rest) = (recall_weight f 3, 3%nat).
Proof.
  rewrite draft_step_escape by done. unfold recall_weight.
  change (escape_sequence (ESC :: 79 :: f :: rest))
    with (3%nat, byte_in CONTENT_CAPABLE_SEQUENCE_FINALS f).
  by destruct (byte_in _ f).
Qed.

(** A well-formed reply is consumed whole. *)
Lemma string_escape_scan_terminated index payload term rest :
  plain_payload payload → string_terminator term →
  string_escape_scan index (payload ++ term ++ rest) =
    Some (index + length payload + length term)%nat.
Proof.
  intros Hp Ht. revert index. induction payload as [|b payload IH]; intros index.
  { destruct Ht as [-> | ->]; cbn; f_equal; lia. }
  destruct (Hp b) as [Hbel Hesc]; [set_solver|]. cbn [app string_escape_scan length].
  rewrite (proj2 (Z.eqb_neq b BEL)), (proj2 (Z.eqb_neq b ESC)) by done.
  rewrite IH by (intros c Hc; apply Hp; set_solver). f_equal. lia.
Qed.

Lemma string_escape_scan_inv index l n :
  string_escape_scan index l = Some n → string_terminated l.
Proof.
  revert index. induction l as [|b l IH]; intros index; cbn [string_escape_scan]; [done|].
  destruct (Z.eqb_spec b BEL) as [->|Hbel].
  { intros _. exists [], [BEL], l. split_and!; [done| |by left]. intros c Hc. set_solver. }
  destruct (Z.eqb_spec b ESC) as [->|Hesc].
  { destruct l as [|c l]; [done|]. destruct (Z.eqb_spec c 92) as [->|]; [|done].
    intros _. exists [], [ESC; 92], l. split_and!; [done| |by right]. intros c Hc. set_solver. }
  intros (payload & term & rest & -> & Hp & Ht)%IH.
  exists (b :: payload), term, rest. split_and!; [done| |done].
  intros c [->|Hc]%elem_of_cons; [done|by apply Hp].
Qed.

Lemma introducer_not_csi i : i ∈ STRING_ESCAPE_INTRODUCERS → i ≠ 91 ∧ i ≠ 79.
Proof. unfold STRING_ESCAPE_INTRODUCERS. set_solver. Qed.

Lemma escape_sequence_other c l :
  c ≠ 91 → c ≠ 79 →
  escape_sequence (ESC :: c :: l) =
    if byte_in STRING_ESCAPE_INTRODUCERS c
    then match string_escape_scan 2 l with Some len => (len, false) | None => (2%nat, false) end
    else (2%nat, false).
Proof.
  intros H91 H79. unfold escape_sequence. change ((ESC :: c :: l) !! 1%nat) with (Some c). cbv beta iota.
  rewrite (proj2 (Z.eqb_neq c 91)), (proj2 (Z.eqb_neq c 79)) by done. done.
Qed.

Lemma draft_step_string i payload term rest :
  i ∈ STRING_ESCAPE_INTRODUCERS → plain_payload payload → string_terminator term →
  draft_step (ESC :: i :: payload ++ term ++ rest) =
    (0, (2 + length payload + length term)%nat).
Proof.
  intros Hi Hp Ht. destruct (introducer_not_csi i Hi) as [H91 H79].
  rewrite draft_step_escape by (by apply not_paste_start_2).
  rewrite escape_sequence_other by done.
  unfold byte_in. rewrite bool_decide_eq_true_2 by done.
  by rewrite string_escape_scan_terminated.
Qed.

Lemma draft_step_chord c rest :
  c ≠ 91 → c ≠ 79 → (c ∈ STRING_ESCAPE_INTRODUCERS → ¬ string_terminated rest) →
  draft_step (ESC :: c :: rest) = (0, 2%nat).
Proof.
  intros H91 H79 Hs. rewrite draft_step_escape by (by apply not_paste_start_2).
  rewrite escape_sequence_other by done.
  unfold byte_in. destruct (bool_decide (c ∈ _)) eqn:Hc; [|done].
  destruct (string_escape_scan 2 rest) eqn:Hl; [|done].
  apply string_escape_scan_inv in Hl. bool_simpl. by destruct Hs.
Qed.

Lemma terminated_has_terminator l : string_terminated l → terminator_in l.
Proof. intros (p & t & r & -> & _ & Ht). by exists p, t, r. Qed.

(** One iteration that consumes a whole token. *)
Lemma draft_count_token tok rest w :
  tok ≠ [] → draft_step (tok ++ rest) = (w, length tok) →
  draft_content_byte_count (tok ++ rest) = w + draft_content_byte_count rest.
Proof.
  intros Hne Hs. rewrite draft_count_step by (by destruct tok).
  rewrite Hs. cbn [fst snd]. by rewrite drop_app_length.
Qed.

Lemma draft_step_plain b rest :
  b ≠ ESC → draft_step (b :: rest) = (if is_inert_control b then 0 else 1, 1%nat).
Proof.
  intros Hb. unfold draft_step. rewrite not_paste_start by done.
  by rewrite (proj2 (Z.eqb_neq b ESC)).
Qed.

Lemma draft_count_plain b rest :
  b ≠ ESC →
  draft_content_byte_count (b :: rest) =
    (if is_inert_control b then 0 else 1) + draft_content_byte_count rest.
Proof. intros Hb. apply (draft_count_token [b] rest); [done|]. by apply draft_step_plain. Qed.

Lemma write_content_sound data n :
  write_content data n → draft_content_byte_count data = n.
Proof.
  induction 1 as [|b rest n Hb Hi _ IH|b rest n Hi _ IH|p rest n Hp _ IH|p Hp
    |params f rest n Hp Hf Hm Hs _ IH|coords rest n Hc _ IH|params Hp|f rest n _ IH|
    |i payload term rest n Hi Hp Ht _ IH|c rest n H91 H79 Hs _ IH|].
  - done.
  - rewrite draft_count_plain by done. by rewrite Hi, IH.
  - rewrite draft_count_plain by (by intros ->). by rewrite Hi, IH.
  - rewrite <-IH. rewrite !app_assoc. apply draft_count_token; [by destruct p|].
    rewrite <-!app_assoc, draft_step_paste by done. f_equal.
    rewrite !length_app. cbn [length PASTE_START PASTE_END]. lia.
  - rewrite <-(app_nil_r (PASTE_START ++ p)), (draft_count_token _ [] (Z.of_nat (length p)));
      [rewrite draft_count_nil; lia|done|].
    by rewrite app_nil_r, draft_step_paste_open.
  - rewrite <-IH. change (ESC :: 91 :: params ++ f :: rest) with ([ESC; 91] ++ params ++ [f] ++ rest).
    rewrite !app_assoc. apply draft_count_token; [done|].
    rewrite <-!app_assoc. cbn [app]. rewrite draft_step_csi by done. f_equal.
    cbn [length]. rewrite ?length_app. cbn [length]. lia.
  - rewrite <-IH. change (ESC :: 91 :: 77 :: coords ++ rest) with ((ESC :: 91 :: 77 :: coords) ++ rest).
    rewrite (draft_count_token _ _ 0); [done|done|]. by apply draft_step_mouse.
  - rewrite <-(app_nil_r (ESC :: 91 :: params)), (draft_count_token _ [] 0); [done|done|].
    by rewrite app_nil_r, draft_step_csi_open.
  - rewrite <-IH. by apply (draft_count_token [ESC; 79; f] rest), draft_step_ss3.
  - done.
  - rewrite <-IH. change (ESC :: i :: payload ++ term ++ rest) with ([ESC; i] ++ payload ++ term ++ rest).
    rewrite !app_assoc, (draft_count_token _ _ 0); [done|done|].
    rewrite <-!app_assoc. cbn [app]. rewrite draft_step_string by done. f_equal.
    cbn [length]. rewrite ?length_app. cbn [length]. lia.
  - rewrite <-IH. apply (draft_count_token [ESC; c] rest 0); [done|].
    apply draft_step_chord; [done|done|]. intros Hc Ht%terminated_has_terminator. by apply Hs.
  - done.
Qed.

(** *** Every write in which string escapes are clear is covered *)

(** Every string introducer that has a terminator after it reaches one before
    it meets any other escape. *)
Definition clear_strings (data : list byte) : Prop :=
  ∀ before i rest, data = before ++ ESC :: i :: rest → i ∈ STRING_ESCAPE_INTRODUCERS →
    terminator_in rest → string_terminated rest.

Lemma clear_strings_tail pre l : clear_strings (pre ++ l) → clear_strings l.
Proof. intros H b i r ->. apply (H (pre ++ b)). by rewrite <-app_assoc. Qed.

Lemma clear_strings_plain data : ESC ∉ data → clear_strings data.
Proof.
  intros H b i r ->. exfalso. apply H, elem_of_app. right. by left.
Qed.

Lemma csi_cover l :
  (csi_params l) ∨ ∃ params f rest, l = params ++ f :: rest ∧ csi_params params ∧ csi_final f = true.
Proof.
  destruct (position csi_final l) as [i|] eqn:Hi.
  - right. apply position_split in Hi as (f & rest & Heq & Hf & Hp & _). by exists (take i l), f, rest.
  - left. exact (proj1 (position_None _ _) Hi).
Qed.

Lemma mouse_cover (l : list byte) :
  ∃ coords rest, l = coords ++ rest ∧ (length coords = 3 ∨ length coords < 3 ∧ rest = [])%nat.
Proof.
  exists (take 3 l), (drop 3 l). rewrite take_drop, length_take. split; [done|].
  destruct (decide (3 ≤ length l)%nat); [left; lia|right].
  split; [lia|]. apply drop_ge. lia.
Qed.

Lemma write_content_total data : clear_strings data → ∃ n, write_content data n.
Proof.
  induction data as [data IH] using (induction_ltof1 _ (@length byte)). unfold ltof in IH.
  intros Hclear.
  assert (∀ pre l, data = pre ++ l → pre ≠ [] → ∃ n, write_content l n) as Hrest.
  { intros pre l -> Hpre. apply IH; [|by eapply clear_strings_tail].
    rewrite length_app. destruct pre; [done|cbn; lia]. }
  clear IH. destruct data as [|b l]; [exists 0; apply wc_nil|].
  destruct (decide (b = ESC)) as [->|Hb].
  2:{ destruct (Hrest [b] l) as [n Hn]; [done|done|]. destruct (is_inert_control b) eqn:Hi;
        eexists; [by apply wc_inert|by apply wc_text]. }
  destruct l as [|c l]; [exists 0; apply wc_escape|].
  destruct (decide (c = 91)) as [->|H91].
  - destruct (csi_cover l) as [Hp|(params & f & rest & -> & Hp & Hf)]; [eexists; by apply wc_csi_open|].
    destruct (decide (params = [] ∧ f = 77)) as [[-> ->]|Hm].
    { destruct (mouse_cover rest) as (coords & rest' & -> & Hc).
      destruct (Hrest (ESC :: 91 :: 77 :: coords) rest') as [n Hn]; [done|done|].
      eexists. by apply wc_mouse. }
    destruct (decide (params = [50; 48; 48] ∧ f = 126)) as [[-> ->]|Hs].
    { destruct (paste_payload_len_inv rest) as [(p & rest' & -> & _ & Hfirst)|[_ Hnone]].
      - destruct (Hrest (PASTE_START ++ p ++ PASTE_END) rest') as [n Hn];
          [by rewrite <-!app_assoc|done|].
        eexists. by apply (wc_paste p rest' n).
      - eexists. by apply (wc_paste_open rest). }
    destruct (Hrest (ESC :: 91 :: params ++ [f]) rest) as [n Hn];
      [cbn; by rewrite <-app_assoc|done|].
    eexists. by apply wc_csi.
  - destruct (decide (c = 79)) as [->|H79].
    { destruct l as [|f rest]; [exists 0; apply wc_ss3_open|].
      destruct (Hrest [ESC; 79; f] rest) as [n Hn]; [done|done|]. eexists. by apply wc_ss3. }
    destruct (decide (c ∈ STRING_ESCAPE_INTRODUCERS)) as [Hi|Hi].
    + destruct (string_escape_scan 2 l) as [k|] eqn:Hk.
      * apply string_escape_scan_inv in Hk as (payload & term & rest & -> & Hp & Ht).
        destruct (Hrest (ESC :: c :: payload ++ term) rest) as [n Hn];
          [cbn; by rewrite <-app_assoc|done|].
        eexists. by eapply wc_string.
      * destruct (Hrest [ESC; c] l) as [n Hn]; [done|done|].
        eexists. apply wc_chord; [done|done| |done].
        intros _ Hin. destruct (Hclear [] c l) as (payload & term & rest & -> & Hp & Ht); [done..|].
        by rewrite string_escape_scan_terminated in Hk.
    + destruct (Hrest [ESC; c] l) as [n Hn]; [done|done|]. eexists. by apply wc_chord.
Qed.

(** ** Properties *)

(** C34: the byte counter of [draft_content_byte_count] implements the grammar
    of terminal writes: whatever content the grammar gives a write, the code
    counts it, and a write whose string escapes are clear (each that has a
    terminator after it reaches one before any other escape) has the content
    that the code counts under the grammar. *)
Theorem draft_count_refines_grammar data :
  (∀ n, write_content data n → draft_content_byte_count data = n) ∧
  (clear_strings data → write_content data (draft_content_byte_count data)).
Proof.
  split; [apply write_content_sound|]. intros Hclear.
  destruct (write_content_total data Hclear) as [m Hm].
  by rewrite (write_content_sound _ _ Hm).
Qed.

(** A reply to a colour query, then two typed characters. *)
Definition typed_after_reply : list byte := [27; 93; 120; 27; 92] ++ lit "hi".

Lemma typed_after_reply_clear : clear_strings typed_after_reply.
Proof.
  assert (string_terminated ([120; 27; 92] ++ lit "hi")) as Hterm.
  { exists [120], [ESC; 92], (lit "hi"). split_and!; [done| |by right].
    intros b ->%list_elem_of_singleton. done. }
  intros before i rest Heq Hi _.
  destruct before as [|? [|? [|? [|? before]]]]; cbn in Heq; try discriminate Heq.
  - by injection Heq as <- <-.
  - injection Heq as _ _ _ <- _. exfalso. revert Hi. unfold STRING_ESCAPE_INTRODUCERS. set_solver.
  - exfalso. assert (ESC ∈ [92; 104; 105]) as Hesc; [|set_solver].
    injection Heq as _ _ _ _ Heq. change ([92; 104; 105] = before ++ ESC :: i :: rest) in Heq.
    rewrite Heq. apply elem_of_app. right. by left.
Qed.

Lemma draft_count_refines_grammar_witness : write_content typed_after_reply 2.
Proof. apply (proj2 (draft_count_refines_grammar typed_after_reply)), typed_after_reply_clear. Defined.

(** The counting loop always finishes: as many iterations as the write has
    bytes are enough, and the count it returns is between zero and the length
    of the write, so the [u64] accumulator cannot overflow. *)
Theorem draft_loop_terminates data :
  ∃ n, draft_loop (length data) data 0 = Some n ∧ 0 ≤ n ≤ Z.of_nat (length data).
Proof.
  destruct (draft_loop_total (length data) data 0) as [n Hn]; [done|].
  exists n. split; [done|]. pose proof (draft_count_bounds data) as Hb.
  unfold draft_content_byte_count in Hb. by rewrite Hn in Hb.
Qed.

(** Content of text without escapes is additive. *)
Lemma draft_count_app_plain pre rest :
  (∀ b, b ∈ pre → b ≠ ESC) →
  draft_content_byte_count (pre ++ rest) =
    draft_content_byte_count pre + draft_content_byte_count rest.
Proof.
  induction pre as [|b pre IH]; intros Hp; cbn [app]; [done|].
  rewrite !draft_count_plain by (apply Hp; set_solver).
  rewrite IH by (intros c Hc; apply Hp; set_solver). lia.
Qed.

Lemma string_escape_scan_foreign_escape index payload c rest :
  plain_payload payload → c ≠ 92 →
  string_escape_scan index (payload ++ ESC :: c :: rest) = None.
Proof.
  intros Hp Hc. revert index. induction payload as [|b payload IH]; intros index.
  { cbn. destruct (Z.eqb_spec c 92); [done|done]. }
  destruct (Hp b) as [Hbel Hesc]; [set_solver|]. cbn [app string_escape_scan].
  rewrite (proj2 (Z.eqb_neq b BEL)), (proj2 (Z.eqb_neq b ESC)) by done.
  apply IH. intros d Hd. apply Hp. set_solver.
Qed.

(** A string escape whose payload meets an [ESC] that is not [ST] is given
    up at that byte, whatever follows it - a later terminator is not looked
    for - and its payload is then counted as typed text.  (The comment in the
    source says the scan continues after such an [ESC].) *)
Theorem string_escape_stops_at_foreign_escape i payload c rest :
  i ∈ STRING_ESCAPE_INTRODUCERS → plain_payload payload → c ≠ 92 →
  string_escape_len (ESC :: i :: payload ++ ESC :: c :: rest) = None ∧
  draft_content_byte_count (ESC :: i :: payload ++ ESC :: c :: rest) =
    draft_content_byte_count payload + draft_content_byte_count (ESC :: c :: rest).
Proof.
  intros Hi Hp Hc.
  assert (string_escape_scan 2 (payload ++ ESC :: c :: rest) = None) as Hn
    by (by apply string_escape_scan_foreign_escape).
  split; [done|].
  rewrite <-draft_count_app_plain by (intros b Hb; by apply Hp).
  destruct (introducer_not_csi i Hi). apply (draft_count_token [ESC; i] _ 0); [done|].
  apply draft_step_chord; [done|done|]. intros _ (p & t & r & Heq & Hp' & Ht).
  rewrite Heq, string_escape_scan_terminated in Hn by done. done.
Qed.

Lemma string_escape_stops_at_foreign_escape_witness :
  string_escape_len ([27; 80] ++ lit "x" ++ [27; 91] ++ lit "y" ++ [27; 92]) = None ∧
  draft_content_byte_count ([27; 80] ++ lit "x" ++ [27; 91] ++ lit "y" ++ [27; 92]) = 1.
Proof.
  apply (string_escape_stops_at_foreign_escape 80 (lit "x") 91 (lit "y" ++ [27; 92])).
  - vm_compute. by left.
  - intros b Hb. apply list_elem_of_singleton in Hb as ->. done.
  - done.
Defined.

Example draft_hello : draft_content_byte_count (lit "hello") = 5.
Proof. vm_compute. reflexivity. Qed.
Example draft_mixed :
  draft_content_byte_count ([27;91;67] ++ lit "hi" ++ [127;27;91;68]) = 2.
Proof. vm_compute. reflexivity. Qed.
Example draft_paste : draft_content_byte_count (PASTE_START ++ lit "a" ++ [27;91;67] ++ lit "b" ++ PASTE_END) = 5.
Proof. vm_compute. reflexivity. Qed.
Example draft_osc : draft_content_byte_count ([27] ++ lit "]11;rgb:1e1e/1e1e/1e1e" ++ [27;92] ++ lit "hi") = 2.
Proof. vm_compute. reflexivity. Qed.
Example draft_unterminated : draft_content_byte_count ([27] ++ lit "]hello") = 5.
Proof. vm_compute. reflexivity. Qed.
