(* ===== verification/TerminalKeys.v ===== *)
(** * Named terminal keys ([crates/runtime-defaults/src/terminal_keys.rs])

    The vocabulary of named keys the agent-facing surfaces accept, with the
    bytes each writes and the composer meaning it declares. *)

From S2P Require Import Prelude RustStd DraftBytes.
Local Open Scope Z_scope.

Inductive TerminalKeyClass := Draft | Submission.

#[export] Instance TerminalKeyClass_eq_dec : EqDecision TerminalKeyClass.
Proof. solve_decision. Defined.

Definition TerminalKeyClass_as_str (c : TerminalKeyClass) : str :=
  match c with
  | Draft => lit "draft"
  | Submission => lit "submission"
  end.

Record TerminalKey := mkKey {
  key_name : str;
  key_bytes : list byte;
  key_class : TerminalKeyClass
}.

#[export] Instance TerminalKey_eq_dec : EqDecision TerminalKey.
Proof. solve_decision. Defined.

Definition CTRL_LETTERS_WITH_NAMED_EQUIVALENTS : list char := lit "im".

Definition NAMED_KEYS : list TerminalKey := [
  mkKey (lit "escape") [27] Draft;
  mkKey (lit "enter") [13] Submission;
  mkKey (lit "tab") [9] Draft;
  mkKey (lit "backtab") [27; 91; 90] Draft;
  mkKey (lit "backspace") [127] Draft;
  mkKey (lit "delete") [27; 91; 51; 126] Draft;
  mkKey (lit "up") [27; 91; 65] Draft;
  mkKey (lit "down") [27; 91; 66] Draft;
  mkKey (lit "right") [27; 91; 67] Draft;
  mkKey (lit "left") [27; 91; 68] Draft;
  mkKey (lit "home") [27; 91; 72] Draft;
  mkKey (lit "end") [27; 91; 70] Draft;
  mkKey (lit "page-up") [27; 91; 53; 126] Draft;
  mkKey (lit "page-down") [27; 91; 54; 126] Draft;
  mkKey (lit "space") [32] Draft
].

Definition NAMED_CTRL_KEYS : list TerminalKey := [
  mkKey (lit "ctrl-space") [0] Draft;
  mkKey (lit "ctrl-backslash") [28] Draft;
  mkKey (lit "ctrl-right-bracket") [29] Draft;
  mkKey (lit "ctrl-caret") [30] Draft;
  mkKey (lit "ctrl-underscore") [31] Draft
].

Definition CTRL_LETTER_KEYS : list TerminalKey := [
  mkKey (lit "ctrl-a") [1] Draft;
  mkKey (lit "ctrl-b") [2] Draft;
  mkKey (lit "ctrl-c") [3] Draft;
  mkKey (lit "ctrl-d") [4] Draft;
  mkKey (lit "ctrl-e") [5] Draft;
  mkKey (lit "ctrl-f") [6] Draft;
  mkKey (lit "ctrl-g") [7] Draft;
  mkKey (lit "ctrl-h") [8] Draft;
  mkKey (lit "ctrl-j") [10] Draft;
  mkKey (lit "ctrl-k") [11] Draft;
  mkKey (lit "ctrl-l") [12] Draft;
  mkKey (lit "ctrl-n") [14] Draft;
  mkKey (lit "ctrl-o") [15] Draft;
  mkKey (lit "ctrl-p") [16] Draft;
  mkKey (lit "ctrl-q") [17] Draft;
  mkKey (lit "ctrl-r") [18] Draft;
  mkKey (lit "ctrl-s") [19] Draft;
  mkKey (lit "ctrl-t") [20] Draft;
  mkKey (lit "ctrl-u") [21] Draft;
  mkKey (lit "ctrl-v") [22] Draft;
  mkKey (lit "ctrl-w") [23] Draft;
  mkKey (lit "ctrl-x") [24] Draft;
  mkKey (lit "ctrl-y") [25] Draft;
  mkKey (lit "ctrl-z") [26] Draft
].

Definition terminal_keys : list TerminalKey :=
  NAMED_KEYS ++ NAMED_CTRL_KEYS ++ CTRL_LETTER_KEYS.

Definition terminal_key_names : list str := map key_name terminal_keys.

Definition terminal_key (name : str) : option TerminalKey :=
  find_first (λ key, str_eqb (key_name key) name) terminal_keys.

(** The rejection of an unknown key: either the spelling to use instead, or
    the list of accepted names. *)
Inductive UnknownKeyMessage :=
  | UseInstead (name replacement : str)
  | AcceptedKeys (name : str) (names : list str).

Definition unknown_terminal_key_message (name : str) : UnknownKeyMessage :=
  let redundant :=
    if str_eqb name (lit "ctrl-m") then Some (lit "enter")
    else if str_eqb name (lit "ctrl-i") then Some (lit "tab")
    else if str_eqb name (lit "ctrl-[") || str_eqb name (lit "ctrl-bracket")
            || str_eqb name (lit "ctrl-left-bracket") then Some (lit "escape")
    else None in
  match redundant with
  | Some replacement => UseInstead name replacement
  | None => AcceptedKeys name terminal_key_names
  end.

(** ** Lemmas *)

Lemma find_first_unique {A} (p : A → bool) l x :
  x ∈ l → p x = true → (∀ y, y ∈ l → p y = true → y = x) → find_first p l = Some x.
Proof.
  intros Hx Hp Hu. destruct (find_first p l) as [y|] eqn:Hf.
  - apply find_first_Some in Hf as [Hy Hpy]. f_equal. by apply Hu.
  - rewrite find_first_None in Hf. rewrite (Hf x) in Hp by done. done.
Qed.

Lemma terminal_key_names_NoDup : NoDup terminal_key_names.
Proof. apply (bool_decide_eq_true_1 (NoDup terminal_key_names)). vm_compute. reflexivity. Qed.

Lemma terminal_key_name_inj k1 k2 :
  k1 ∈ terminal_keys → k2 ∈ terminal_keys → key_name k1 = key_name k2 → k1 = k2.
Proof.
  intros [i Hi]%list_elem_of_lookup [j Hj]%list_elem_of_lookup Hn.
  assert (i = j) as ->; [|congruence].
  apply (NoDup_lookup terminal_key_names i j (key_name k1)).
  - apply terminal_key_names_NoDup.
  - unfold terminal_key_names. by rewrite list_lookup_fmap, Hi.
  - unfold terminal_key_names. by rewrite list_lookup_fmap, Hj, Hn.
Qed.

(** ** Properties *)

(** The vocabulary round-trips: resolving a key's name gives that key back,
    for every key of the table, and a name resolves only to a key that carries
    it.  Names are therefore unique and matching is exact. *)
Theorem terminal_key_roundtrip name key :
  terminal_key name = Some key ↔ key ∈ terminal_keys ∧ key_name key = name.
Proof.
  unfold terminal_key, str_eqb. split.
  - intros [Hin Hp]%find_first_Some. by bool_simpl.
  - intros [Hin <-]. apply find_first_unique; [done|by apply bool_decide_eq_true|].
    intros y Hy Hn. bool_simpl. by apply terminal_key_name_inj.
Qed.

(** [enter] is the only key that declares a submission and the only one
    that writes a carriage return; every other key is a draft that writes at
    least one byte and no carriage return. *)
Theorem only_enter_submits key :
  key ∈ terminal_keys →
  key_bytes key ≠ [] ∧
  (key_class key = Submission ↔ key_name key = lit "enter") ∧
  (key_class key = Submission ↔ 13 ∈ key_bytes key).
Proof.
  assert (Forall (λ k, key_bytes k ≠ [] ∧
    (bool_decide (key_class k = Submission) = bool_decide (key_name k = lit "enter")) ∧
    (bool_decide (key_class k = Submission) = bool_decide (13 ∈ key_bytes k))) terminal_keys) as H.
  { repeat constructor; done. }
  rewrite Forall_forall in H. intros (Hne & H1 & H2)%H. split; [done|].
  rewrite <-(bool_decide_eq_true (key_class key = Submission)).
  split; [rewrite H1|rewrite H2]; apply bool_decide_eq_true.
Qed.

Lemma only_enter_submits_witness :
  mkKey (lit "enter") [13] Submission ∈ terminal_keys ∧
  key_bytes (mkKey (lit "enter") [13] Submission) ≠ [].
Proof.
  assert (mkKey (lit "enter") [13] Submission ∈ terminal_keys) as Hin
    by (apply list_elem_of_lookup; exists 1%nat; reflexivity).
  split; [exact Hin|]. exact (proj1 (only_enter_submits _ Hin)).
Defined.

(** The [ctrl-]letter chords are exactly the alphabet minus the letters that
    have a key of their own, and each writes the C0 control of its letter. *)
Theorem ctrl_letters_are_c0_controls letter :
  97 ≤ letter ≤ 122 →
  terminal_key (lit "ctrl-" ++ [letter]) =
    if bool_decide (letter ∈ CTRL_LETTERS_WITH_NAMED_EQUIVALENTS) then None
    else Some (mkKey (lit "ctrl-" ++ [letter]) [Z.land letter 31] Draft).
Proof.
  intros H. assert (letter ∈ seqZ 97 26) as Hin by (apply elem_of_seqZ; lia).
  assert (Forall (λ l, terminal_key (lit "ctrl-" ++ [l]) =
    if bool_decide (l ∈ CTRL_LETTERS_WITH_NAMED_EQUIVALENTS) then None
    else Some (mkKey (lit "ctrl-" ++ [l]) [Z.land l 31] Draft)) (seqZ 97 26)) as HF.
  { apply (bool_decide_eq_true_1 (Forall _ _)). vm_compute. reflexivity. }
  rewrite Forall_forall in HF. by apply HF.
Qed.

Lemma ctrl_letters_are_c0_controls_witness :
  terminal_key (lit "ctrl-c") = Some (mkKey (lit "ctrl-c") [3] Draft).
Proof. exact (ctrl_letters_are_c0_controls 99 ltac:(lia)). Defined.

(** Of the named keys a caller can send, those that arm the composer ledger
    are exactly the ones that can put text at the composer: tab, up, down,
    space, the control keys that insert or recall, and enter itself; every
    other key declares no draft at all. *)
Theorem keys_that_can_create_content :
  map key_name (filter (λ k, draft_content_byte_count (key_bytes k) ≠ 0) terminal_keys) =
    map lit ["enter"; "tab"; "up"; "down"; "space"; "ctrl-j"; "ctrl-n"; "ctrl-o"; "ctrl-p";
             "ctrl-q"; "ctrl-r"; "ctrl-s"; "ctrl-t"; "ctrl-v"; "ctrl-x"; "ctrl-y"]%string.
Proof. vm_compute. reflexivity. Qed.

(** A rejected name is told apart: the three redundant spellings get their
    replacement, and the replacement is a key of the vocabulary. *)
Lemma unknown_key_replacement name n r :
  unknown_terminal_key_message name = UseInstead n r → n = name ∧ is_Some (terminal_key r).
Proof.
  unfold unknown_terminal_key_message.
  repeat case_if; intros [= <- <-]; (split; [done|]); by eexists.
Qed.
