(* ===== verification/CliVersion.v ===== *)
(** * CLI versions and version ranges ([crates/daemon/src/detection/version.rs])

    [CliVersion::parse] scans for the first dotted numeric run; it only tests
    ASCII bytes, so it is written here on the scalar values of the text.  The
    outer loop carries the character before the slice that remains, the inner
    one ([scan_number]) the components read so far. *)

From S2P Require Import Prelude RustStd.
Local Open Scope Z_scope.
Local Open Scope kanna_scope.

Record CliVersion := mkVersion { parts : list Z; raw : str }.

#[export] Instance CliVersion_eq_dec : EqDecision CliVersion.
Proof. solve_decision. Defined.

(** The characters a version may follow. *)
Definition version_boundary (c : char) : bool := bool_decide (c ∈ lit " vV(" ++ [9; 10]).

Definition next_is_digit (rest : str) : bool :=
  match rest with c :: _ => is_ascii_digit c | [] => false end.

(** What the inner [while] leaves behind. *)
Record NumberScan := mkScan {
  scan_parts : list Z;
  scan_current : Z;
  scan_digits : nat;
  scan_prev : option char;
  scan_rest : str
}.

Fixpoint scan_number (ps : list Z) (current : Z) (digits : nat) (prev : option char)
    (rest : str) : NumberScan :=
  match rest with
  | [] => mkScan ps current digits prev []
  | c :: rest' =>
      if is_ascii_digit c then
        scan_number ps (u64_saturating_add (u64_saturating_mul current 10) (c - 48))
          (S digits) (Some c) rest'
      else if (c =? 46) && bool_decide (0 < digits)%nat && next_is_digit rest' then
        scan_number (ps ++ [current]) 0 0 (Some c) rest'
      else mkScan ps current digits prev rest
  end.

Definition scan_components (s : NumberScan) : list Z :=
  if bool_decide (0 < scan_digits s)%nat then scan_parts s ++ [scan_current s]
  else scan_parts s.

(** [raw]: the first whitespace-separated word from the start of the run,
    without trailing punctuation. *)
Definition version_raw (rest : str) (s : NumberScan) : str :=
  trim_end_matches (lit ",);")
    (default (take (length rest - length (scan_rest s)) rest) (head (split_whitespace rest))).

(** The outer loop; the outer [None] is running out of fuel. *)
Fixpoint parse_loop (fuel : nat) (prev : option char) (rest : str)
    : option (option CliVersion) :=
  match rest with
  | [] => Some None
  | c :: rest' =>
      match fuel with
      | O => None
      | S fuel' =>
          if negb (is_ascii_digit c) then parse_loop fuel' (Some c) rest'
          else if match prev with Some p => negb (version_boundary p) | None => false end
          then parse_loop fuel' (Some c) rest'
          else
            let s := scan_number [] 0 0 prev rest in
            let components := scan_components s in
            if bool_decide (2 ≤ length components)%nat
            then Some (Some (mkVersion components (version_raw rest s)))
            else parse_loop fuel' (scan_prev s) (scan_rest s)
      end
  end.

Definition parse (text : str) : option CliVersion :=
  default None (parse_loop (length text) None text).

Definition component (v : CliVersion) (index : nat) : Z := default 0 (parts v !! index).

(** [impl Ord for CliVersion] *)
Fixpoint cmp_components (indices : list nat) (a b : CliVersion) : comparison :=
  match indices with
  | [] => Eq
  | i :: rest =>
      match component a i ?= component b i with
      | Eq => cmp_components rest a b
      | ordering => ordering
      end
  end.

Definition cmp (a b : CliVersion) : comparison :=
  cmp_components (seq 0 (Nat.max (length (parts a)) (length (parts b)))) a b.

Definition version_eq (a b : CliVersion) : bool :=
  match cmp a b with Eq => true | _ => false end.

Inductive Comparator :=
  GreaterOrEqual | Greater | LessOrEqual | Less | Equal | NotEqual.

#[export] Instance Comparator_eq_dec : EqDecision Comparator.
Proof. solve_decision. Defined.

Definition comparator_tokens : list (str * Comparator) := [
  (lit ">=", GreaterOrEqual);
  (lit "<=", LessOrEqual);
  (lit "!=", NotEqual);
  (lit "==", Equal);
  (lit ">", Greater);
  (lit "<", Less);
  (lit "=", Equal)
].

Definition Comparator_parse (text : str) : option (Comparator * str) :=
  find_map (λ '(token, comparator),
    match strip_prefix token text with
    | Some rest => Some (comparator, trim rest)
    | None => None
    end) comparator_tokens.

Definition Comparator_admits (c : Comparator) (candidate bound : CliVersion) : bool :=
  match c, cmp candidate bound with
  | GreaterOrEqual, (Gt | Eq) => true
  | Greater, Gt => true
  | LessOrEqual, (Lt | Eq) => true
  | Less, Lt => true
  | Equal, Eq => true
  | NotEqual, (Lt | Gt) => true
  | _, _ => false
  end.

Record VersionRange := mkRange {
  bounds : list (Comparator * CliVersion);
  range_raw : str
}.

Inductive RangeError :=
  | EmptyComparator (text : str)
  | NoComparator (text clause : str)
  | UnparseableVersion (text clause : str).

(** One clause of a range. *)
Definition parse_clause (text clause0 : str) : result (Comparator * CliVersion) RangeError :=
  let clause := trim clause0 in
  if bool_decide (clause = []) then Err (EmptyComparator text)
  else match Comparator_parse clause with
       | None => Err (NoComparator text clause)
       | Some (comparator, rest) =>
           match parse rest with
           | None => Err (UnparseableVersion text clause)
           | Some bound => Ok (comparator, bound)
           end
       end.

Definition VersionRange_parse (text : str) : result VersionRange RangeError :=
  let trimmed := trim text in
  if bool_decide (trimmed = []) || str_eqb trimmed (lit "*") then
    Ok (mkRange [] (lit "*"))
  else
    let? bs := collect_results (map (parse_clause text) (split_on 44 trimmed)) in
    Ok (mkRange bs trimmed).

Definition admits (r : VersionRange) (version : option CliVersion) : bool :=
  match version with
  | None => true
  | Some v => forallb (λ '(comparator, bound), Comparator_admits comparator v bound) (bounds r)
  end.

Definition is_unbounded (r : VersionRange) : bool := bool_decide (bounds r = []).

(** ** The version order *)

Lemma cmp_components_Eq l a b :
  cmp_components l a b = Eq ↔ ∀ i, i ∈ l → component a i = component b i.
Proof.
  induction l as [|i l IH]; cbn; [split; [by intros _ i ?%elem_of_nil|done]|].
  setoid_rewrite elem_of_cons.
  destruct (Z.compare_spec (component a i) (component b i)) as [He|Hl|Hg].
  - rewrite IH. naive_solver.
  - split; [done|]. intros H. specialize (H i ltac:(by left)). lia.
  - split; [done|]. intros H. specialize (H i ltac:(by left)). lia.
Qed.

Lemma cmp_components_seq_Lt s n a b :
  cmp_components (seq s n) a b = Lt ↔
  ∃ i, (s ≤ i < s + n)%nat ∧ (∀ j, (s ≤ j < i)%nat → component a j = component b j) ∧
       component a i < component b i.
Proof.
  revert s. induction n as [|n IH]; intros s; cbn [seq cmp_components].
  { split; [done|]. intros (i & ? & _). lia. }
  destruct (Z.compare_spec (component a s) (component b s)) as [He|Hl|Hg].
  - rewrite IH. split; intros (i & Hi & Hb & Hlt).
    + exists i. split_and!; [lia|lia| |done]. intros j Hj.
      destruct (decide (j = s)) as [->|]; [done|]. apply Hb. lia.
    + destruct (decide (i = s)) as [->|]; [lia|].
      exists i. split_and!; [lia|lia| |done]. intros j Hj. apply Hb. lia.
  - split; [|done]. intros _. exists s. split_and!; [lia|lia| |done]. intros j Hj. lia.
  - split; [done|]. intros (i & Hi & Hb & Hlt).
    destruct (decide (i = s)) as [->|]; [lia|]. specialize (Hb s). lia.
Qed.

Lemma cmp_components_antisym l a b :
  cmp_components l b a = CompOpp (cmp_components l a b).
Proof.
  induction l as [|i l IH]; cbn; [done|].
  rewrite (Z.compare_antisym (component a i) (component b i)).
  by destruct (component a i ?= component b i).
Qed.

Lemma component_beyond v i : (length (parts v) ≤ i)%nat → component v i = 0.
Proof. intros H. unfold component. by rewrite lookup_ge_None_2. Qed.

Lemma cmp_Eq a b : cmp a b = Eq ↔ ∀ i, component a i = component b i.
Proof.
  unfold cmp. rewrite cmp_components_Eq. split; intros H i; [|auto].
  destruct (decide (i < Nat.max (length (parts a)) (length (parts b)))%nat) as [Hi|Hi].
  - apply H. apply elem_of_seq. lia.
  - by rewrite !component_beyond by lia.
Qed.

(** The comparison is the lexicographic order of the zero-padded components. *)
Lemma cmp_Lt a b :
  cmp a b = Lt ↔
  ∃ i, (∀ j, (j < i)%nat → component a j = component b j) ∧ component a i < component b i.
Proof.
  unfold cmp. rewrite cmp_components_seq_Lt. split; intros (i & H).
  - destruct H as (Hi & Hb & Hlt). exists i. split; [|done]. intros j Hj. apply Hb. lia.
  - destruct H as [Hb Hlt]. exists i. split_and!; [lia| | |done].
    + destruct (decide (i < Nat.max (length (parts a)) (length (parts b)))%nat); [lia|].
      rewrite !component_beyond in Hlt by lia. lia.
    + intros j Hj. apply Hb. lia.
Qed.

Lemma cmp_antisym a b : cmp b a = CompOpp (cmp a b).
Proof. unfold cmp. rewrite Nat.max_comm. apply cmp_components_antisym. Qed.

Lemma cmp_Lt_trans a b c : cmp a b = Lt → cmp b c = Lt → cmp a c = Lt.
Proof.
  rewrite !cmp_Lt. intros (i & Hi & Hilt) (k & Hk & Hklt).
  destruct (lt_eq_lt_dec i k) as [[Hik|Hik]|Hik].
  - exists i. split; [|rewrite <-Hk by lia; lia]. intros j Hj. rewrite Hi, Hk by lia. done.
  - subst. exists k. split; [|lia]. intros j Hj. rewrite Hi, Hk by lia. done.
  - exists k. split; [|rewrite Hi by lia; lia]. intros j Hj. rewrite Hi, Hk by lia. done.
Qed.

(** Releases are compared, not spelled: [2.1] and [2.1.0] are one release. *)
Definition same_release (a b : CliVersion) : Prop := cmp a b = Eq.

#[export] Instance same_release_equiv : Equivalence same_release.
Proof.
  split.
  - intros a. by apply cmp_Eq.
  - intros a b H. apply cmp_Eq. intros i. symmetry. revert i. by apply cmp_Eq.
  - intros a b c H1 H2. apply cmp_Eq. intros i.
    rewrite (proj1 (cmp_Eq a b)) by done. revert i. by apply cmp_Eq.
Qed.

Lemma cmp_ext a b a' b' :
  (∀ i, component a i = component a' i) → (∀ i, component b i = component b' i) →
  cmp a b = cmp a' b'.
Proof.
  intros Ha Hb. destruct (cmp a' b') eqn:H.
  - apply cmp_Eq. intros i. rewrite Ha, Hb. revert i. by apply cmp_Eq.
  - apply cmp_Lt in H as (i & Hi & Hlt). apply cmp_Lt. exists i.
    split; [intros j Hj|]; rewrite Ha, Hb; auto.
  - rewrite cmp_antisym in H |- *. destruct (cmp b' a') eqn:H'; try done.
    apply cmp_Lt in H' as (i & Hi & Hlt).
    enough (cmp b a = Lt) as -> by done. apply cmp_Lt. exists i.
    split; [intros j Hj|]; rewrite Ha, Hb; auto.
Qed.

#[export] Instance cmp_proper : Proper (same_release ==> same_release ==> eq) cmp.
Proof. intros a a' Ha b b' Hb. apply cmp_ext; by apply cmp_Eq. Qed.

#[export] Instance Comparator_admits_proper c :
  Proper (same_release ==> same_release ==> eq) (Comparator_admits c).
Proof. intros a a' Ha b b' Hb. unfold Comparator_admits. by rewrite (cmp_proper _ _ Ha _ _ Hb). Qed.

Lemma component_trailing_zeros ps r r' n i :
  component (mkVersion (ps ++ replicate n 0) r) i = component (mkVersion ps r') i.
Proof.
  unfold component. cbn [parts]. destruct (decide (i < length ps)%nat) as [Hi|Hi].
  - by rewrite lookup_app_l.
  - rewrite lookup_app_r, (lookup_ge_None_2 ps) by lia. cbn.
    destruct (replicate n 0 !! (i - length ps)%nat) eqn:H; [|done].
    by apply lookup_replicate in H as [-> _].
Qed.

(** ** Parsing a version *)

(** The value of a digit run, with the saturation of the code. *)
Definition saturating_value (cur : Z) (d : str) : Z :=
  fold_left (λ acc c, u64_saturating_add (u64_saturating_mul acc 10) (c - 48)) d cur.

Definition digit_run (d : str) : Prop := d ≠ [] ∧ ∀ c, c ∈ d → is_ascii_digit c = true.
Definition digit_runs (ds : list str) : Prop := ∀ d, d ∈ ds → digit_run d.
Definition dotted (ds : list str) : str := join [46] ds.

(** Nothing in [suf] continues a dotted run. *)
Definition run_ends (suf : str) : Prop :=
  match suf with
  | [] => True
  | c :: rest => is_ascii_digit c = false ∧ (c = 46 → next_is_digit rest = false)
  end.

Lemma digit_runs_head d ds : digit_runs (d :: ds) → digit_run d.
Proof. intros H. apply H. by apply elem_of_cons; left. Qed.

Lemma digit_runs_tail d ds : digit_runs (d :: ds) → digit_runs ds.
Proof. intros H x Hx. apply H. by apply elem_of_cons; right. Qed.

Lemma scan_number_digits ps cur n prev d rest :
  (∀ c, c ∈ d → is_ascii_digit c = true) →
  scan_number ps cur n prev (d ++ rest) =
    scan_number ps (saturating_value cur d) (n + length d)
      (match last d with Some c => Some c | None => prev end) rest.
Proof.
  revert cur n prev. induction d as [|c d IH]; intros cur n prev Hd; cbn [app].
  { cbn. by rewrite Nat.add_0_r. }
  cbn [scan_number]. rewrite (Hd c) by set_solver.
  rewrite IH by (intros c' Hc'; apply Hd; set_solver).
  cbn [length saturating_value fold_left]. f_equal; [lia|].
  rewrite last_cons. by destruct (last d).
Qed.

Lemma scan_number_ends ps cur n prev suf :
  run_ends suf → scan_number ps cur n prev suf = mkScan ps cur n prev suf.
Proof.
  destruct suf as [|c suf]; [done|]. intros [Hc Hdot]. cbn [scan_number]. rewrite Hc.
  destruct (Z.eqb_spec c 46) as [->|]; [|done]. rewrite Hdot by done.
  by rewrite andb_false_r.
Qed.

Lemma scan_number_dotted ps prev d ds suf :
  digit_runs (d :: ds) → run_ends suf →
  let s := scan_number ps 0 0 prev (dotted (d :: ds) ++ suf) in
  scan_components s = ps ++ map (saturating_value 0) (d :: ds) ∧ scan_rest s = suf.
Proof.
  revert ps prev d. induction ds as [|d' ds IH]; intros ps prev d Hds Hsuf.
  - destruct (digit_runs_head _ _ Hds) as [Hne Hd].
    cbn [dotted join]. cbn zeta. rewrite scan_number_digits, scan_number_ends by done.
    unfold scan_components. cbn [scan_digits scan_parts scan_current scan_rest map].
    rewrite bool_decide_eq_true_2; [done|]. destruct d; [done|cbn; lia].
  - destruct (digit_runs_head _ _ Hds) as [Hne Hd].
    destruct (digit_runs_head _ _ (digit_runs_tail _ _ Hds)) as [Hne' Hd'].
    change (dotted (d :: d' :: ds) ++ suf) with ((d ++ 46 :: dotted (d' :: ds)) ++ suf).
    rewrite <-app_assoc. cbn zeta. rewrite scan_number_digits by done.
    cbn [app scan_number]. change (is_ascii_digit 46) with false.
    rewrite Z.eqb_refl, bool_decide_eq_true_2 by (destruct d; [done|cbn; lia]).
    assert (next_is_digit (dotted (d' :: ds) ++ suf) = true) as ->.
    { destruct d' as [|c d']; [done|]. assert (is_ascii_digit c = true) by (apply Hd'; set_solver).
      by destruct ds. }
    cbn [andb].
    destruct (IH (ps ++ [saturating_value 0 d]) (Some 46) d') as [H1 H2];
      [by eapply digit_runs_tail|done|].
    split; [|exact H2]. cbn zeta in H1. rewrite H1. by rewrite <-app_assoc.
Qed.

Lemma scan_number_rest_length ps cur n prev rest :
  (length (scan_rest (scan_number ps cur n prev rest)) ≤ length rest)%nat.
Proof.
  revert ps cur n prev. induction rest as [|c rest IH]; intros ps cur n prev; [done|].
  cbn [scan_number]. destruct (is_ascii_digit c).
  { etrans; [apply IH|cbn; lia]. }
  destruct (_ && _); [|done]. etrans; [apply IH|cbn; lia].
Qed.

Lemma parse_loop_total fuel prev rest :
  (length rest ≤ fuel)%nat → is_Some (parse_loop fuel prev rest).
Proof.
  revert prev rest. induction fuel as [|fuel IH]; intros prev [|c rest] Hf; cbn [parse_loop];
    try (by eexists); [cbn in Hf; lia|].
  cbn [length] in Hf.
  destruct (is_ascii_digit c) eqn:Hc; cbn [negb]; [|apply IH; lia].
  destruct (match prev with Some p => _ | None => _ end); [apply IH; lia|].
  destruct (bool_decide _); [by eexists|]. apply IH.
  cbn [scan_number]. rewrite Hc. etrans; [apply scan_number_rest_length|lia].
Qed.

(** Characters that cannot start a version are skipped. *)
Lemma parse_loop_skip fuel prev pre rest :
  (∀ c, c ∈ pre → is_ascii_digit c = false) →
  parse_loop (length pre + fuel) prev (pre ++ rest) =
    parse_loop fuel (match last pre with Some c => Some c | None => prev end) rest.
Proof.
  revert prev. induction pre as [|c pre IH]; intros prev Hp; [done|].
  cbn [app length Nat.add parse_loop]. rewrite (Hp c) by set_solver. cbn [negb].
  rewrite IH by (intros c' Hc'; apply Hp; set_solver).
  rewrite last_cons. by destruct (last pre).
Qed.

Lemma split_ws_head cur word suf :
  cur ++ word ≠ [] → (∀ c, c ∈ word → is_whitespace c = false) →
  (suf = [] ∨ ∃ w rest, suf = w :: rest ∧ is_whitespace w = true) →
  head (split_ws_aux cur (word ++ suf)) = Some (cur ++ word).
Proof.
  revert cur. induction word as [|c word IH]; intros cur Hne Hw Hs.
  - rewrite app_nil_r in *. cbn [app]. destruct Hs as [->|(w & rest & -> & Hws)]; cbn.
    + by destruct cur.
    + rewrite Hws. by destruct cur.
  - cbn [app split_ws_aux]. rewrite (Hw c) by set_solver.
    rewrite IH; [by rewrite <-app_assoc|by destruct cur| |done].
    intros c' Hc'. apply Hw. set_solver.
Qed.

Lemma dotted_chars ds c :
  digit_runs ds → c ∈ dotted ds → c = 46 ∨ is_ascii_digit c = true.
Proof.
  induction ds as [|d ds IH]; intros Hds; [by intros ?%elem_of_nil|].
  assert (c ∈ d → is_ascii_digit c = true) as Hd by (apply (digit_runs_head _ _ Hds)).
  destruct ds as [|d' ds]; [by auto|].
  change (dotted (d :: d' :: ds)) with (d ++ 46 :: dotted (d' :: ds)).
  rewrite elem_of_app, elem_of_cons. intros [Hc|[->|Hc]]; auto.
  apply IH; [by eapply digit_runs_tail|done].
Qed.

Lemma dotted_last d ds :
  digit_runs (d :: ds) → ∃ c, last (dotted (d :: ds)) = Some c ∧ is_ascii_digit c = true.
Proof.
  revert d. induction ds as [|d' ds IH]; intros d Hds.
  - destruct (digit_runs_head _ _ Hds) as [Hne Hd]. cbn.
    destruct (last d) as [c|] eqn:Hl; [|by apply last_None in Hl].
    exists c. split; [done|]. apply Hd. by apply last_Some_elem_of.
  - change (dotted (d :: d' :: ds)) with (d ++ 46 :: dotted (d' :: ds)).
    destruct (IH d') as (c & Hc & Hcd); [by eapply digit_runs_tail|].
    exists c. split; [|done]. rewrite last_app_cons, last_cons, Hc. done.
Qed.

Lemma digit_not_whitespace c : is_ascii_digit c = true → is_whitespace c = false.
Proof.
  unfold is_ascii_digit, in_range, is_whitespace. intros H. bool_simpl.
  unfold in_range. lia.
Qed.

(** ** Splitting and trimming a range *)

Lemma trim_start_ws w s : is_whitespace w = true → trim_start (w :: s) = trim_start s.
Proof. intros H. unfold trim_start. cbn. by rewrite H. Qed.

Lemma trim_end_snoc w s : is_whitespace w = true → trim_end (s ++ [w]) = trim_end s.
Proof.
  intros H. unfold trim_end, drop_while_end. rewrite reverse_snoc. cbn [drop_while]. by rewrite H.
Qed.

Lemma drop_while_snoc {A} (p : A → bool) l w :
  drop_while p (l ++ [w]) =
    match drop_while p l with
    | [] => if p w then [] else [w]
    | _ => drop_while p l ++ [w]
    end.
Proof. induction l as [|x l IH]; cbn; [done|]. by destruct (p x). Qed.

Lemma trim_snoc w s : is_whitespace w = true → trim (s ++ [w]) = trim s.
Proof.
  intros H. unfold trim, trim_start. rewrite drop_while_snoc, H.
  destruct (drop_while is_whitespace s) eqn:Hs; [done|]. by apply trim_end_snoc.
Qed.

Lemma trim_cons w s : is_whitespace w = true → trim (w :: s) = trim s.
Proof. intros H. unfold trim. by rewrite trim_start_ws. Qed.

(** Trimming the whole before splitting changes no trimmed piece. *)
Lemma split_trim_start sep s :
  is_whitespace sep = false →
  map trim (split_on sep (trim_start s)) = map trim (split_on sep s).
Proof.
  intros Hsep. induction s as [|c s IH]; [done|].
  destruct (is_whitespace c) eqn:Hc.
  - rewrite trim_start_ws, IH by done. cbn [split_on].
    destruct (Z.eqb_spec c sep) as [->|]; [congruence|].
    destruct (split_on sep s) eqn:H; [by apply split_on_ne in H|].
    cbn [map]. by rewrite trim_cons.
  - unfold trim_start. cbn [drop_while]. by rewrite Hc.
Qed.

Lemma split_snoc sep s w :
  w ≠ sep →
  ∃ init piece, split_on sep s = init ++ [piece] ∧
                split_on sep (s ++ [w]) = init ++ [piece ++ [w]].
Proof.
  intros Hw. induction s as [|c s (init & piece & H1 & H2)]; cbn.
  - exists [], []. by rewrite (proj2 (Z.eqb_neq w sep)).
  - destruct (c =? sep).
    + exists ([] :: init), piece. by rewrite H1, H2.
    + rewrite H1, H2. destruct init as [|x init]; cbn.
      * by exists [], (c :: piece).
      * by exists ((c :: x) :: init), piece.
Qed.

Lemma split_trim_end sep s :
  is_whitespace sep = false →
  map trim (split_on sep (trim_end s)) = map trim (split_on sep s).
Proof.
  intros Hsep. induction s as [|w s IH] using rev_ind; [done|].
  destruct (is_whitespace w) eqn:Hw.
  - rewrite trim_end_snoc, IH by done.
    destruct (split_snoc sep s w) as (init & piece & -> & ->); [by intros ->; congruence|].
    rewrite !map_app. cbn [map]. by rewrite trim_snoc.
  - unfold trim_end. rewrite (drop_while_end_id _ _ w); [done|by apply last_snoc|done].
Qed.

Lemma split_trim sep s :
  is_whitespace sep = false → map trim (split_on sep (trim s)) = map trim (split_on sep s).
Proof. intros H. unfold trim. by rewrite split_trim_end, split_trim_start. Qed.

(** The bounds a range text denotes, one clause at a time. *)
Definition clause_bounds (text : str) (clauses : list str)
    : result (list (Comparator * CliVersion)) RangeError :=
  collect_results (map (parse_clause text) clauses).

(** A clause without its error text: only its trimmed form matters. *)
Definition clause_bound (clause : str) : option (Comparator * CliVersion) :=
  match parse_clause [] clause with Ok b => Some b | Err _ => None end.

Lemma parse_clause_Ok text clause b :
  parse_clause text clause = Ok b ↔ clause_bound (trim clause) = Some b.
Proof.
  unfold clause_bound, parse_clause.
  assert (trim (trim clause) = trim clause) as ->.
  { unfold trim at 1. unfold trim_start at 1.
    destruct (trim clause) as [|x rest] eqn:Ht; [done|].
    assert (is_whitespace x = false) as Hx.
    { unfold trim, trim_end, drop_while_end in Ht. apply (f_equal reverse) in Ht.
      rewrite reverse_involutive in Ht.
      destruct (drop_while_suffix is_whitespace (reverse (trim_start clause))) as (pre & Heq & _).
      rewrite Ht in Heq. apply (f_equal reverse) in Heq.
      rewrite reverse_involutive, reverse_app, reverse_involutive in Heq. cbn [app] in Heq.
      by eapply drop_while_head. }
    cbn [drop_while]. rewrite Hx. rewrite <-Ht. unfold trim, trim_end, drop_while_end.
    by rewrite reverse_involutive, drop_while_idemp. }
  destruct (bool_decide (trim clause = [])); [done|].
  destruct (Comparator_parse (trim clause)) as [[c rest]|]; [|done].
  destruct (parse rest); [naive_solver|done].
Qed.

Lemma clause_bounds_Ok text clauses bs :
  clause_bounds text clauses = Ok bs ↔ map clause_bound (map trim clauses) = map Some bs.
Proof.
  revert bs. induction clauses as [|c cs IH]; intros bs; cbn.
  { destruct bs; naive_solver. }
  unfold clause_bounds in *. cbn. destruct (parse_clause text c) as [b|e] eqn:Hc.
  - apply parse_clause_Ok in Hc. rewrite Hc.
    destruct (collect_results (map (parse_clause text) cs)) as [bs'|e] eqn:Hcs.
    + rewrite (proj1 (IH bs') eq_refl). destruct bs as [|b0 bs0]; [done|].
      split; [by intros [= -> ->]|]. intros [= -> H2]. do 2 f_equal.
      by apply (list_fmap_eq_inj (A:=Comparator * CliVersion) Some) in H2; [|intros ?? [= ->]].
    + split; [done|]. destruct bs as [|b0 bs0]; [done|]. intros [= -> H2].
      apply IH in H2. done.
  - split; [done|]. destruct bs as [|b0 bs0]; [done|]. intros [= H1 _].
    apply (parse_clause_Ok text) in H1. congruence.
Qed.

Example parse_claude :
  raw <$> parse (lit "2.1.263 (Claude Code)") = Some (lit "2.1.263").
Proof. vm_compute. reflexivity. Qed.
Example parse_codex : parts <$> parse (lit "codex-cli 0.52.0") = Some [0; 52; 0].
Proof. vm_compute. reflexivity. Qed.
Example parse_bare : parse (lit "Claude Code 2") = None.
Proof. vm_compute. reflexivity. Qed.
Example range_and :
  (λ r, admits r (parse (lit "1.18.15"))) <$>
    match VersionRange_parse (lit ">=1.16,<1.19") with Ok r => Some r | Err _ => None end
  = Some true.
Proof. vm_compute. reflexivity. Qed.
Example range_bad : map (λ t, is_ok (VersionRange_parse (lit t)))
  ["2.1.263"; ">="; ">=abc"; ">=1.0,,<2.0"]%string = [false; false; false; false].
Proof. vm_compute. reflexivity. Qed.

(** ** Properties *)

(** C39: the release comparison is a lawful total order: it is the lexicographic
    order of the components padded with zeros, it is antisymmetric and
    transitive, two versions are equal exactly when they compare equal (not
    when they are spelled alike), equal versions compare alike with every other,
    and trailing zeros change nothing. *)
Theorem version_order_lawful :
  (∀ a b, cmp a b = Lt ↔
     ∃ i, (∀ j, (j < i)%nat → component a j = component b j) ∧ component a i < component b i) ∧
  (∀ a b, cmp b a = CompOpp (cmp a b)) ∧
  (∀ a b c, cmp a b = Lt → cmp b c = Lt → cmp a c = Lt) ∧
  (∀ a b, version_eq a b = true ↔ ∀ i, component a i = component b i) ∧
  (∀ a b c, version_eq a b = true → cmp a c = cmp b c) ∧
  (∀ ps r r' n, version_eq (mkVersion (ps ++ replicate n 0) r) (mkVersion ps r') = true).
Proof.
  assert (∀ a b, version_eq a b = true ↔ cmp a b = Eq) as Heq
    by (intros a b; unfold version_eq; by destruct (cmp a b)).
  split_and!.
  - apply cmp_Lt.
  - apply cmp_antisym.
  - apply cmp_Lt_trans.
  - intros a b. by rewrite Heq, cmp_Eq.
  - intros a b c H%Heq. apply cmp_ext; [by apply cmp_Eq|done].
  - intros. apply Heq, cmp_Eq. intros i. apply component_trailing_zeros.
Qed.

(** A version is found in real [--version] output: after any text without
    digits that ends at a boundary character, a dotted run of two or more
    numbers that ends the text or is followed by whitespace is parsed into its
    numbers, and [raw] is the run itself. *)
Theorem parse_finds_dotted_run pre d d' ds suf :
  (∀ c, c ∈ pre → is_ascii_digit c = false) →
  (match last pre with Some c => version_boundary c = true | None => True end) →
  digit_runs (d :: d' :: ds) →
  (suf = [] ∨ ∃ w rest, suf = w :: rest ∧ is_whitespace w = true) →
  parse (pre ++ dotted (d :: d' :: ds) ++ suf) =
    Some (mkVersion (map (saturating_value 0) (d :: d' :: ds)) (dotted (d :: d' :: ds))).
Proof.
  intros Hpre Hlast Hds Hsuf. unfold parse. rewrite length_app, parse_loop_skip by done.
  set (run := dotted (d :: d' :: ds)). set (prev := match last pre with Some c => _ | None => _ end).
  assert (run_ends suf) as Hends.
  { destruct Hsuf as [->|(w & rest & -> & Hw)]; [done|]. split; [|by intros ->].
    destruct (is_ascii_digit w) eqn:Hd; [|done]. apply digit_not_whitespace in Hd. congruence. }
  destruct (scan_number_dotted [] prev d (d' :: ds) suf Hds Hends) as [Hcomp _].
  fold run in Hcomp. cbn zeta in Hcomp.
  destruct (run ++ suf) as [|c rest] eqn:Hrun.
  { destruct (digit_runs_head _ _ Hds) as [? _]. by destruct d. }
  assert (is_ascii_digit c = true) as Hc.
  { destruct (digit_runs_head _ _ Hds) as [? Hd]. destruct d as [|c0 d0]; [done|].
    injection Hrun as -> _. apply Hd. by apply elem_of_cons; left. }
  cbn [length parse_loop]. rewrite Hc. cbn [negb].
  assert (match prev with Some p => negb (version_boundary p) | None => false end = false) as ->.
  { unfold prev. destruct (last pre); [by rewrite Hlast|done]. }
  rewrite Hcomp. rewrite bool_decide_eq_true_2 by (cbn; lia). cbn. do 2 f_equal.
  unfold version_raw, split_whitespace. rewrite <-Hrun.
  destruct (dotted_last _ _ Hds) as (x & Hx & Hxd). fold run in Hx.
  rewrite (split_ws_head [] run suf); [|by intros Hr; change (run = []) in Hr; rewrite Hr in Hx| |done].
  - cbn.
    apply (drop_while_end_id _ _ x); [done|]. apply bool_decide_eq_false.
    unfold is_ascii_digit, in_range in Hxd. bool_simpl. cbn. rewrite !elem_of_cons, elem_of_nil. lia.
  - intros y [->|Hy]%dotted_chars; [done|by apply digit_not_whitespace|done].
Qed.

Lemma parse_finds_dotted_run_witness :
  parse (lit "codex-cli 0.52.0") = Some (mkVersion [0; 52; 0] (lit "0.52.0")).
Proof.
  apply (parse_finds_dotted_run (lit "codex-cli ") (lit "0") (lit "52") [lit "0"] []).
  - intros c Hc. repeat (apply elem_of_cons in Hc as [->|Hc]; [reflexivity|]).
    by apply elem_of_nil in Hc.
  - reflexivity.
  - intros d Hd. repeat (apply elem_of_cons in Hd as [->|Hd];
      [split; [done|]; intros c Hc;
       repeat (apply elem_of_cons in Hc as [->|Hc]; [reflexivity|]); by apply elem_of_nil in Hc|]).
    by apply elem_of_nil in Hd.
  - by left.
Defined.

Lemma range_parse_bounds text r :
  VersionRange_parse text = Ok r → bounds r ≠ [] →
  map clause_bound (map trim (split_on 44 text)) = map Some (bounds r).
Proof.
  unfold VersionRange_parse. destruct (_ || _); [by intros [= <-]|].
  destruct (collect_results _) as [bs|e] eqn:Hcs; cbn; [|done]. intros [= <-] _.
  rewrite <-(split_trim 44 text) by done. cbn. by apply clause_bounds_Ok in Hcs.
Qed.

Lemma range_parse_of_clauses text bs :
  map clause_bound (map trim (split_on 44 text)) = map Some bs →
  (2 ≤ length bs)%nat →
  VersionRange_parse text = Ok (mkRange bs (trim text)).
Proof.
  intros Hbs Hlen. unfold VersionRange_parse.
  assert (length (split_on 44 (trim text)) = length bs) as Hl.
  { rewrite <-split_trim in Hbs by done. apply (f_equal length) in Hbs. by rewrite !length_map in Hbs. }
  rewrite <-split_trim in Hbs by done.
  destruct (_ || _) eqn:Hb.
  - apply orb_true_iff in Hb as [Hb|Hb]; unfold str_eqb in Hb; bool_simpl;
      rewrite Hb in Hl; rewrite <-Hl in Hlen; vm_compute in Hlen; lia.
  - change (collect_results (map (parse_clause text) (split_on 44 (trim text))))
      with (clause_bounds text (split_on 44 (trim text))).
    by rewrite (proj2 (clause_bounds_Ok text _ bs)).
Qed.

(** A comma is a conjunction: when two texts parse to ranges that constrain
    something, the two joined by a comma parse to a range that admits exactly
    the versions both admit - known or unknown. *)
Theorem range_comma_is_conjunction a b ra rb :
  VersionRange_parse a = Ok ra → VersionRange_parse b = Ok rb →
  is_unbounded ra = false → is_unbounded rb = false →
  ∃ r, VersionRange_parse (a ++ 44 :: b) = Ok r ∧
       ∀ v, admits r v = admits ra v && admits rb v.
Proof.
  unfold is_unbounded. intros Ha Hb Hna Hnb. bool_simpl.
  pose proof (range_parse_bounds _ _ Ha Hna) as Ba.
  pose proof (range_parse_bounds _ _ Hb Hnb) as Bb.
  eexists. split.
  - apply (range_parse_of_clauses _ (bounds ra ++ bounds rb)).
    + by rewrite split_on_app, !map_app, Ba, Bb.
    + rewrite length_app. destruct (bounds ra), (bounds rb); cbn; try done. lia.
  - intros [v|]; [|done]. cbn. apply forallb_app.
Qed.

Lemma range_comma_is_conjunction_witness :
  ∃ r, VersionRange_parse (lit ">=1.16" ++ 44 :: lit " <1.19") = Ok r ∧
       ∀ v, admits r v = admits (mkRange [(GreaterOrEqual, mkVersion [1; 16] (lit "1.16"))] (lit ">=1.16")) v
                       && admits (mkRange [(Less, mkVersion [1; 19] (lit "1.19"))] (lit "<1.19")) v.
Proof.
  apply range_comma_is_conjunction; vm_compute; reflexivity.
Defined.

(** Rule selection does not depend on how a release is spelled: a range
    admits two spellings of one release alike, and an unknown version is
    admitted by every range. *)
Theorem admits_same_release r a b :
  cmp a b = Eq → admits r (Some a) = admits r (Some b) ∧ admits r None = true.
Proof.
  intros H. split; [|done]. unfold admits.
  induction (bounds r) as [|[c bd] l IH]; cbn; [done|].
  rewrite (Comparator_admits_proper c a b H bd bd ltac:(reflexivity)). by f_equal.
Qed.

Lemma admits_same_release_witness :
  admits (mkRange [(GreaterOrEqual, mkVersion [2; 1] [])] []) (Some (mkVersion [2; 1; 0] [])) = true ∧
  admits (mkRange [(GreaterOrEqual, mkVersion [2; 1] [])] []) None = true.
Proof.
  exact (admits_same_release (mkRange [(GreaterOrEqual, mkVersion [2; 1] [])] [])
           (mkVersion [2; 1; 0] []) (mkVersion [2; 1] []) eq_refl).
Defined.
