(* ===== verification/Protocol.v ===== *)
(** * Protocol vocabulary

    The enumerations of [crates/daemon/src/protocol.rs] and
    [crates/kanna-agent-protocol/src/providers.rs] the daemon's components
    share, with decidable equality and countability. *)

From S2P Require Import Prelude RustStd.

Inductive AgentProvider := Claude | Copilot | Codex | Opencode | Antigravity.

#[export] Instance AgentProvider_eq_dec : EqDecision AgentProvider.
Proof. solve_decision. Defined.

Definition AgentProvider_index (p : AgentProvider) : nat :=
  match p with Claude => 0 | Copilot => 1 | Codex => 2 | Opencode => 3 | Antigravity => 4 end.
Definition AgentProvider_of_index (n : nat) : option AgentProvider :=
  match n with
  | 0 => Some Claude | 1 => Some Copilot | 2 => Some Codex
  | 3 => Some Opencode | 4 => Some Antigravity | _ => None
  end.

#[export] Instance AgentProvider_countable : Countable AgentProvider.
Proof. apply (inj_countable AgentProvider_index AgentProvider_of_index). by intros []. Defined.

Inductive SessionStatus := Busy | Waiting | Idle.

#[export] Instance SessionStatus_eq_dec : EqDecision SessionStatus.
Proof. solve_decision. Defined.

Inductive ComposerAttestation := Typed | NotTyped | Unknown.

#[export] Instance ComposerAttestation_eq_dec : EqDecision ComposerAttestation.
Proof. solve_decision. Defined.
