(* ===== verification/Schema.v ===== *)
(** * The rule-file schema ([crates/daemon/src/detection/schema.rs])

    The declarative shape of [rules.json], field for field.  JSON decoding is
    serde's and is not modelled: the library starts from the decoded value. *)

From S2P Require Import Prelude RustStd Protocol.

Definition SCHEMA_VERSION : Z := 1.

Inductive VocabularySet :=
  | ComposerPrompts | IdlePromptGlyphs | SpinnerGlyphs | WorkingFooterGlyphs
  | InFlightMarkers | DoneFooterMarkers | BusyMarkers | WaitingMarkers
  | PermissionActionMarkers | MenuCaretGlyphs | DividerGlyphs | BoxBorderGlyphs
  | ComposerStatusSeparators | SubagentParentPrefixes | SubagentTaskPrefixes
  | BlockArtGlyphs | FooterProgressGlyphs | TurnSummaryGlyphs | WorktreePathMarkers
  | TitleBusyGlyphs | TitleIdleGlyphs.

#[export] Instance VocabularySet_eq_dec : EqDecision VocabularySet.
Proof. solve_decision. Defined.

Record VersionedStrings := mkVersionedStrings {
  vs_id : str;
  vs_versions : option str;
  vs_values : list str
}.

Record VersionedGlyphs := mkVersionedGlyphs {
  vg_id : str;
  vg_versions : option str;
  vg_glyphs : list str
}.

(** The named literal sets.  The source's struct has one field per set; the
    string-valued and the glyph-valued sets keep their two entry types. *)
Record Vocabulary := mkVocabulary {
  composer_prompts : list VersionedGlyphs;
  idle_prompt_glyphs : list VersionedGlyphs;
  spinner_glyphs : list VersionedGlyphs;
  working_footer_glyphs : list VersionedGlyphs;
  in_flight_markers : list VersionedStrings;
  done_footer_markers : list VersionedStrings;
  busy_markers : list VersionedStrings;
  waiting_markers : list VersionedStrings;
  permission_action_markers : list VersionedStrings;
  menu_caret_glyphs : list VersionedGlyphs;
  divider_glyphs : list VersionedGlyphs;
  box_border_glyphs : list VersionedGlyphs;
  composer_status_separators : list VersionedStrings;
  subagent_parent_prefixes : list VersionedStrings;
  subagent_task_prefixes : list VersionedStrings;
  block_art_glyphs : list VersionedGlyphs;
  footer_progress_glyphs : list VersionedGlyphs;
  turn_summary_glyphs : list VersionedGlyphs;
  worktree_path_markers : list VersionedStrings;
  title_busy_glyphs : list VersionedGlyphs;
  title_idle_glyphs : list VersionedGlyphs
}.

(** [Vocabulary::default()]: every set empty. *)
Definition default_vocabulary : Vocabulary :=
  mkVocabulary [] [] [] [] [] [] [] [] [] [] [] [] [] [] [] [] [] [] [] [] [].

Inductive LineMatch :=
  | LContains (value : str)
  | LContainsAll (values : list str)
  | LEquals (value : str)
  | LStartsWith (value : str)
  | LContainsAny (set : VocabularySet)
  | LContainsAllOf (set : VocabularySet)
  | LStartsWithAny (set : VocabularySet)
  | LStartsWithGlyph (set : VocabularySet)
  | LStartsWithGlyphWord (set : VocabularySet)
  | LAllCharactersIn (set : VocabularySet)
  | LAnyOf (matches : list LineMatch)
  | LAllOf (matches : list LineMatch)
  | LNot (inner : LineMatch).

Record ChromeEntry := mkChromeEntry {
  ce_id : str;
  ce_versions : option str;
  ce_match : LineMatch
}.

(** Declared in the order [derive(Ord)] compares: grid first. *)
Inductive Channel := Grid | Title | Progress.

#[export] Instance Channel_eq_dec : EqDecision Channel.
Proof. solve_decision. Defined.

Inductive ProgressState := Removed | Normal | PError | Indeterminate | Paused.

#[export] Instance ProgressState_eq_dec : EqDecision ProgressState.
Proof. solve_decision. Defined.

Definition ProgressState_from_code (code : Z) : option ProgressState :=
  match code with
  | 0 => Some Removed
  | 1 => Some Normal
  | 2 => Some PError
  | 3 => Some Indeterminate
  | 4 => Some Paused
  | _ => None
  end%Z.

Inductive Predicate :=
  | AnyLine (m : LineMatch)
  | AnyLineWrapped (m : LineMatch)
  | LastNonEmptyLine (m : LineMatch)
  | TextMatch (m : LineMatch)
  | ProgressIn (states : list ProgressState)
  | Structural (name : str).

Record Rule := mkRule {
  r_id : str;
  r_status : SessionStatus;
  r_channel : Channel;
  r_versions : option str;
  r_priority : Z;
  r_when : Predicate
}.

Record CommonRules := mkCommonRules {
  c_vocabulary : Vocabulary;
  c_chrome : list ChromeEntry;
  c_rules : list Rule
}.

Record ProviderRuleSet := mkProviderRuleSet {
  p_provider : AgentProvider;
  p_version_probe : option (list str);
  p_vocabulary : Vocabulary;
  p_chrome : list ChromeEntry;
  p_rules : list Rule;
  p_status_rows : option nat;
  p_waiting_prompt_rows : option nat
}.

Record RuleFile := mkRuleFile {
  schema_version : Z;
  common : CommonRules;
  providers : list ProviderRuleSet
}.
