(* ===== verification/Progress.v ===== *)
(** * OSC 9;4 progress reports ([crates/daemon/src/detection/progress.rs])

    The incremental scanner over the raw PTY byte stream: [push] is one byte,
    [write] one chunk. *)

From S2P Require Import Prelude RustStd Schema.
Local Open Scope Z_scope.

Record ProgressReport := mkReport {
  report_state : ProgressState;
  report_percent : option Z
}.

Definition MAX_PAYLOAD : nat := 64.

Inductive ScanState := SText | SEscape | SPayload | SPayloadEscape.

#[export] Instance ScanState_eq_dec : EqDecision ScanState.
Proof. solve_decision. Defined.

Record ProgressScanner := mkScanner {
  state : ScanState;
  payload : str;
  ignoring : bool;
  latest : option ProgressReport
}.

Definition new_scanner : ProgressScanner := mkScanner SText [] false None.

Definition latest_state (s : ProgressScanner) : option ProgressState := report_state <$> latest s.

(** [9;4;<state>[;<percent>]] *)
Definition parse_progress (p : str) : option ProgressReport :=
  match split_on 59 p with
  | f0 :: rest0 =>
      if negb (str_eqb f0 (lit "9")) then None else
      match rest0 with
      | f1 :: rest1 =>
          if negb (str_eqb f1 (lit "4")) then None else
          match rest1 with
          | f2 :: rest2 =>
              code ← parse_u8 (trim f2);
              st ← ProgressState_from_code code;
              let percent :=
                match rest2 with
                | value :: _ =>
                    match parse_u8 (trim value) with
                    | Some n => if n <=? 100 then Some n else None
                    | None => None
                    end
                | [] => None
                end in
              Some (mkReport st percent)
          | [] => None
          end
      | [] => None
      end
  | [] => None
  end.

Definition accumulate (s : ProgressScanner) (b : byte) : ProgressScanner :=
  if ignoring s then s
  else if bool_decide (MAX_PAYLOAD ≤ length (payload s))%nat
  then mkScanner (state s) [] true (latest s)
  else if is_ascii b then mkScanner (state s) (payload s ++ [b]) (ignoring s) (latest s)
  else mkScanner (state s) [] true (latest s).

Definition finish (s : ProgressScanner) : ProgressScanner :=
  let latest' :=
    if ignoring s then latest s
    else match parse_progress (payload s) with
         | Some report => Some report
         | None => latest s
         end in
  mkScanner SText [] false latest'.

Definition push (s : ProgressScanner) (b : byte) : ProgressScanner :=
  match state s with
  | SText =>
      if b =? 27 then mkScanner SEscape (payload s) (ignoring s) (latest s) else s
  | SEscape =>
      if b =? 93 then mkScanner SPayload [] false (latest s)
      else if b =? 27 then mkScanner SEscape (payload s) (ignoring s) (latest s)
      else mkScanner SText (payload s) (ignoring s) (latest s)
  | SPayload =>
      if b =? 7 then finish s
      else if b =? 27 then mkScanner SPayloadEscape (payload s) (ignoring s) (latest s)
      else accumulate s b
  | SPayloadEscape =>
      if b =? 92 then finish s
      else if b =? 93 then mkScanner SPayload [] false (latest s)
      else mkScanner SText [] (ignoring s) (latest s)
  end.

Definition write (s : ProgressScanner) (bytes : list byte) : ProgressScanner :=
  fold_left push bytes s.

Example scan_split :
  latest (write (write (write new_scanner ([27] ++ lit "]9;4")) (lit ";3")) (lit ";0" ++ [7]))
  = Some (mkReport Indeterminate (Some 0)).
Proof. vm_compute. reflexivity. Qed.
Example scan_next :
  latest (write new_scanner ([27] ++ lit "]0;title" ++ [27] ++ lit "[1m" ++ [27] ++ lit "]9;4;2;0" ++ [7]))
  = Some (mkReport PError (Some 0)).
Proof. vm_compute. reflexivity. Qed.

(** ** Invariant of the scanner *)

Definition scan_wf (s : ProgressScanner) : Prop :=
  (length (payload s) ≤ MAX_PAYLOAD)%nat ∧
  Forall (λ b, is_ascii b = true) (payload s) ∧
  (ignoring s = true → payload s = []) ∧
  (state s = SText ∨ state s = SEscape → payload s = []).

(** Each conjunct of [scan_wf] after one transition. *)
Ltac scan_wf_cases :=
  unfold scan_wf; split_and!; cbn [payload ignoring state];
  first [ done | by auto | by rewrite ?length_nil; unfold MAX_PAYLOAD; lia | by intros [?|?]; auto
        | by intros [?|?]; congruence | congruence | idtac ].

Lemma accumulate_wf s b : state s = SPayload → scan_wf s → scan_wf (accumulate s b).
Proof.
  intros Hst Hwf. pose proof Hwf as (Hlen & Hascii & Hign & Hout). unfold accumulate.
  destruct (ignoring s) eqn:Hi; [done|].
  destruct (bool_decide _) eqn:Hfull; [scan_wf_cases|]. bool_simpl.
  destruct (is_ascii b) eqn:Hb; [|scan_wf_cases].
  scan_wf_cases; [rewrite length_app; cbn; lia|]. apply Forall_app; auto.
Qed.

Lemma push_wf s b : scan_wf s → scan_wf (push s b).
Proof.
  intros Hwf. pose proof Hwf as (Hlen & Hascii & Hign & Hout). unfold push, finish.
  destruct (state s) eqn:Hst; repeat case_if; try done;
    try (by apply accumulate_wf); scan_wf_cases.
Qed.

(** Whatever bytes the PTY delivers, and however they are split into
    writes, the scanner never buffers more than 64 bytes, buffers only ASCII
    (so the buffer is a valid string), and buffers nothing outside a payload
    or once it has decided to ignore one. *)
Theorem scanner_buffer_bounded (chunks : list (list byte)) :
  scan_wf (fold_left write chunks new_scanner).
Proof.
  assert (∀ bytes s, scan_wf s → scan_wf (write s bytes)) as Hw.
  { induction bytes as [|b bytes IH]; intros s Hs; cbn; [done|]. apply IH, push_wf, Hs. }
  assert (scan_wf new_scanner) as H0 by (repeat split; cbn; auto; unfold MAX_PAYLOAD; lia).
  revert H0. generalize new_scanner. induction chunks as [|c chunks IH]; intros s Hs; cbn; auto.
Qed.

(** ** Chunking does not matter *)

Lemma write_app s a b : write s (a ++ b) = write (write s a) b.
Proof. apply fold_left_app. Qed.

Lemma write_cons s b l : write s (b :: l) = write (push s b) l.
Proof. done. Qed.

Lemma write_chunks chunks s : fold_left write chunks s = write s (mjoin chunks).
Proof.
  revert s. induction chunks as [|c chunks IH]; intros s; [done|].
  change (mjoin (c :: chunks)) with (c ++ mjoin chunks).
  cbn [fold_left]. by rewrite IH, write_app.
Qed.

(** ** What one OSC sequence does *)

(** The bytes of an OSC payload: neither of the two bytes that can end it. *)
Definition payload_bytes (p : list byte) : Prop := Forall (λ b, b ≠ 27 ∧ b ≠ 7) p.
Definition terminator (t : list byte) : Prop := t = [7] ∨ t = [27; 92].

(** The contents the scanner keeps: nothing once the payload is too long or
    not ASCII. *)
Definition readable (p : list byte) : bool :=
  bool_decide (length p ≤ MAX_PAYLOAD)%nat && forallb is_ascii p.

Definition osc_effect (p : list byte) (old : option ProgressReport) : option ProgressReport :=
  if readable p then match parse_progress p with Some r => Some r | None => old end else old.

Lemma write_ignoring p s :
  payload_bytes p → state s = SPayload → ignoring s = true → write s p = s.
Proof.
  induction p as [|b p IH]; intros Hp Hst Hi; cbn; [done|].
  apply Forall_cons in Hp as [[? ?] Hp].
  unfold push. rewrite Hst, (proj2 (Z.eqb_neq b 7)), (proj2 (Z.eqb_neq b 27)) by done.
  unfold accumulate. rewrite Hi. by apply IH.
Qed.

Lemma readable_app a b : readable (a ++ b) = true → readable a = true.
Proof.
  unfold readable. rewrite forallb_app, length_app. intros H. bool_simpl; [|done].
  apply bool_decide_eq_true_2. lia.
Qed.

Lemma write_payload p buf old :
  payload_bytes p → readable buf = true →
  write (mkScanner SPayload buf false old) p =
  if readable (buf ++ p) then mkScanner SPayload (buf ++ p) false old
  else mkScanner SPayload [] true old.
Proof.
  revert buf. induction p as [|b p IH]; intros buf Hp Hbuf.
  { by rewrite app_nil_r, Hbuf. }
  apply Forall_cons in Hp as [[H27 H7] Hp].
  rewrite write_cons. unfold push; cbn [state].
  rewrite (proj2 (Z.eqb_neq b 7)), (proj2 (Z.eqb_neq b 27)) by done.
  assert (readable (buf ++ [b]) = false →
          readable (buf ++ b :: p) = false) as Hpre.
  { intros H. rewrite (cons_middle b buf p), app_assoc.
    apply not_true_iff_false. intros H'. apply readable_app in H'. congruence. }
  unfold accumulate; cbn [ignoring payload state latest].
  assert (readable (buf ++ [b]) =
          negb (bool_decide (MAX_PAYLOAD ≤ length buf)%nat) && is_ascii b) as Hsnoc.
  { revert Hbuf. unfold readable. rewrite forallb_app, length_app. cbn.
    intros Hb. bool_simpl. rewrite andb_true_r.
    replace (forallb is_ascii buf) with true by done.
    repeat case_bool_decide; cbn; try done; lia. }
  destruct (bool_decide (MAX_PAYLOAD ≤ length buf)%nat) eqn:Hfull; cbn in Hsnoc.
  { rewrite Hpre by done. by apply write_ignoring. }
  destruct (is_ascii b) eqn:Hb; cbn in Hsnoc.
  - rewrite IH by done. by rewrite <-app_assoc.
  - rewrite Hpre by done. by apply write_ignoring.
Qed.

Lemma osc_sequence s p t :
  state s = SText → payload_bytes p → terminator t →
  write s (27 :: 93 :: p ++ t) = mkScanner SText [] false (osc_effect p (latest s)).
Proof.
  intros Hst Hp Ht. rewrite !write_cons. unfold push at 2. rewrite Hst.
  unfold push. cbn [Z.eqb Pos.eqb state latest].
  rewrite write_app, write_payload by done. cbn [app].
  unfold osc_effect. destruct (readable p) eqn:Hr; destruct Ht as [-> | ->]; cbn; done.
Qed.

(** An OSC sequence that starts in plain text is read the same however the
    kernel splits it into reads and whichever terminator it uses: it leaves the
    scanner back in plain text with an empty buffer; a payload of at most 64
    ASCII bytes that parses as a report replaces the latest report; every
    other payload (another OSC command, an overlong one, one with a non-ASCII
    byte) leaves the latest report alone. *)
Theorem osc_report_read_across_chunks s p t chunks :
  state s = SText → payload_bytes p → terminator t →
  mjoin chunks = 27 :: 93 :: p ++ t →
  fold_left write chunks s = mkScanner SText [] false (osc_effect p (latest s)).
Proof. intros ? ? ? Hc. rewrite write_chunks, Hc. by apply osc_sequence. Qed.

Lemma osc_report_read_across_chunks_witness :
  fold_left write [[27]; [93; 57]; lit ";4;1;"; lit "50"; [27]; [92]] new_scanner
  = mkScanner SText [] false (osc_effect (lit "9;4;1;50") None)
  ∧ osc_effect (lit "9;4;1;50") None = Some (mkReport Normal (Some 50)).
Proof.
  split; [|vm_compute; reflexivity].
  apply (osc_report_read_across_chunks new_scanner (lit "9;4;1;50") [27; 92]).
  - reflexivity.
  - apply Forall_forall. cbn. intros b Hb.
    repeat (apply elem_of_cons in Hb as [->|Hb]; [split; discriminate|]).
    by apply elem_of_nil in Hb.
  - by right.
  - reflexivity.
Defined.

(** ** Reports round trip *)

Definition progress_code (st : ProgressState) : Z :=
  match st with Removed => 0 | Normal => 1 | PError => 2 | Indeterminate => 3 | Paused => 4 end.

(** A percentage in decimal, as an emitter prints it. *)
Definition print_percent (n : Z) : str :=
  if n <? 10 then [48 + n]
  else if n <? 100 then [48 + n / 10; 48 + n mod 10]
  else [48 + n / 100; 48 + (n / 10) mod 10; 48 + n mod 10].

Definition print_report (r : ProgressReport) : str :=
  lit "9;4;" ++ [48 + progress_code (report_state r)] ++
  match report_percent r with Some n => [59] ++ print_percent n | None => [] end.

Definition all_states : list ProgressState := [Removed; Normal; PError; Indeterminate; Paused].
Definition all_percents : list (option Z) :=
  None :: map (λ n, Some (Z.of_nat n)) (seq 0 101).

Definition report_ok (r : ProgressReport) : bool :=
  let p := print_report r in
  forallb (λ b, negb (b =? 27) && negb (b =? 7)) p && readable p &&
  match parse_progress p with
  | Some r' => bool_decide (report_state r' = report_state r) &&
               bool_decide (report_percent r' = report_percent r)
  | None => false
  end.

Lemma all_reports_ok :
  forallb (λ st, forallb (λ n, report_ok (mkReport st n)) all_percents) all_states = true.
Proof. vm_compute. reflexivity. Qed.

Lemma report_ok_all st n :
  match n with Some k => 0 ≤ k ≤ 100 | None => True end → report_ok (mkReport st n) = true.
Proof.
  intros Hn. pose proof all_reports_ok as H.
  rewrite forallb_forall in H. specialize (H st).
  assert (In st all_states) as Hst by (destruct st; cbn; tauto).
  specialize (H Hst). rewrite forallb_forall in H. apply H.
  destruct n as [k|]; [right|by left].
  apply in_map_iff. exists (Z.to_nat k). split; [f_equal; lia|]. apply in_seq. lia.
Qed.

(** Every report an emitter can print, any of the five states with or
    without a percentage from 0 to 100, is read back exactly, from any point of
    plain text, under either terminator and any chunking. *)
Theorem progress_report_roundtrip s st n t chunks :
  state s = SText → terminator t →
  match n with Some k => 0 ≤ k ≤ 100 | None => True end →
  mjoin chunks = 27 :: 93 :: print_report (mkReport st n) ++ t →
  latest (fold_left write chunks s) = Some (mkReport st n).
Proof.
  intros Hst Ht Hn Hc. pose proof (report_ok_all st n Hn) as Hok.
  unfold report_ok in Hok. bool_simpl.
  rewrite write_chunks, Hc, osc_sequence; [|done| |done].
  - cbn [latest]. unfold osc_effect.
    destruct (readable _) eqn:Hr; [|congruence].
    destruct (parse_progress _) as [[st' n']|] eqn:Hp; [|done].
    bool_simpl. cbn [report_state report_percent] in *. congruence.
  - apply Forall_forall. intros b Hb.
    match goal with H : forallb _ _ = true |- _ => rewrite forallb_forall in H; specialize (H b) end.
    rewrite <-list_elem_of_In in *. specialize (H Hb). bool_simpl. lia.
Qed.

Lemma progress_report_roundtrip_witness :
  latest (fold_left write [[27; 93]; lit "9;4;2;"; lit "100"; [7]] new_scanner)
  = Some (mkReport PError (Some 100)).
Proof.
  apply (progress_report_roundtrip new_scanner PError (Some 100) [7]).
  - reflexivity.
  - by left.
  - cbv. split; discriminate.
  - reflexivity.
Defined.

(** ** An interrupted payload *)

(** A payload interrupted by another escape is dropped, never spliced into
    what follows; and the byte after that escape decides whether the sequence
    that interrupts is seen at all: a second introducer is read in full, but
    when the interrupting escape is itself doubled the scanner falls back to
    plain text and the report that follows the second escape is lost, although
    the same doubled escape outside a payload is handled. *)
Theorem doubled_escape_loses_report p r st :
  payload_bytes p → payload_bytes r → readable r = true → parse_progress r = Some st →
  latest (write new_scanner (27 :: 93 :: p ++ 27 :: 93 :: r ++ [7])) = Some st ∧
  latest (write new_scanner (27 :: 27 :: 93 :: r ++ [7])) = Some st ∧
  latest (write new_scanner (27 :: 93 :: p ++ 27 :: 27 :: 93 :: r ++ [7])) = None.
Proof.
  intros Hp Hr Hread Hparse.
  assert (∀ old, write (mkScanner SPayload [] false old) (r ++ [7]) =
                 mkScanner SText [] false (Some st)) as Hdone.
  { intros old. rewrite write_app, write_payload by done. cbn [app]. rewrite Hread.
    cbn [write fold_left push state Z.eqb Pos.eqb finish ignoring payload].
    unfold finish. cbn [ignoring payload latest]. by rewrite Hparse. }
  assert (write new_scanner [27; 93] = mkScanner SPayload [] false None) as Hopen by done.
  assert (∀ l, 27 :: 93 :: l = [27; 93] ++ l) as Hcons by done.
  assert (∀ l, write new_scanner (27 :: 93 :: p ++ l) =
     write (if readable p then mkScanner SPayload p false None
            else mkScanner SPayload [] true None) l) as Hpl.
  { intros l. by rewrite Hcons, write_app, Hopen, write_app, write_payload. }
  split_and!.
  - rewrite Hpl, Hcons, write_app.
    destruct (readable p);
      change (latest (write (mkScanner SPayload [] false None) (r ++ [7])) = Some st);
      by rewrite Hdone.
  - change (27 :: 27 :: 93 :: ?l) with ([27; 27; 93] ++ l). rewrite write_app.
    change (write new_scanner [27; 27; 93]) with (mkScanner SPayload [] false None).
    by rewrite Hdone.
  - rewrite Hpl. change (27 :: 27 :: 93 :: ?l) with ([27; 27; 93] ++ l). rewrite write_app.
    assert (∀ i l, payload_bytes l → state (write (mkScanner SText [] i None) l) = SText ∧
              latest (write (mkScanner SText [] i None) l) = None) as Htext.
    { intros i l. induction l as [|b l IH]; intros Hl; [done|].
      apply Forall_cons in Hl as [[? ?] Hl]. rewrite write_cons. unfold push. cbn [state].
      rewrite (proj2 (Z.eqb_neq b 27)) by done. by apply IH. }
    assert (∀ s, state s = SText → latest (write s [7]) = latest s) as Hbel.
    { intros s Hs. cbn. unfold push. by rewrite Hs. }
    destruct (readable p);
      [change (write (mkScanner SPayload p false None) [27; 27; 93])
         with (mkScanner SText [] false None)
      |change (write (mkScanner SPayload [] true None) [27; 27; 93])
         with (mkScanner SText [] true None)];
      rewrite write_app, Hbel; apply (Htext _ r Hr).
Qed.

Lemma doubled_escape_loses_report_witness :
  latest (write new_scanner (27 :: 93 :: lit "0;t" ++ 27 :: 27 :: 93 :: lit "9;4;1;5" ++ [7]))
  = None.
Proof.
  apply (doubled_escape_loses_report (lit "0;t") (lit "9;4;1;5") (mkReport Normal (Some 5)));
    try reflexivity;
    (apply Forall_forall; cbn; intros b Hb;
     repeat (apply elem_of_cons in Hb as [->|Hb]; [split; discriminate|]);
     by apply elem_of_nil in Hb).
Defined.
