(* ===== verification/Rules.v ===== *)
(** * Compiling and resolving the rule file ([crates/daemon/src/detection/rules.rs])

    [compile] validates a decoded rule file, [merge_over] lays an override file
    over it, [resolve] narrows it to one provider and one CLI version.  Error
    messages are kept as constructors; the text they are formatted into is not
    modelled.  [char::to_lowercase] is the class [UnicodeCase]. *)

From S2P Require Import Prelude RustStd Protocol Schema CliVersion.
Local Open Scope kanna_scope.

(** ** Data *)

Definition STRUCTURAL_PREDICATES : list str := [
  lit "claude-working-footer";
  lit "claude-active-subagent";
  lit "claude-parked-composer";
  lit "claude-selected-menu-option";
  lit "opencode-composer-status";
  lit "copilot-busy-above-path";
  lit "copilot-idle-composer-below-path"
].

Inductive Namespace := NsCommon | NsProvider.

#[export] Instance Namespace_eq_dec : EqDecision Namespace.
Proof. solve_decision. Defined.

Inductive Matcher :=
  | MContains (needle : str)
  | MContainsAll (needles : list str)
  | MEquals (value : str)
  | MStartsWith (value : str)
  | MContainsAny (set : VocabularySet)
  | MContainsAllOf (set : VocabularySet)
  | MStartsWithAny (set : VocabularySet)
  | MStartsWithGlyph (set : VocabularySet)
  | MStartsWithGlyphWord (set : VocabularySet)
  | MAllCharactersIn (set : VocabularySet)
  | MAnyOf (matchers : list Matcher)
  | MAllOf (matchers : list Matcher)
  | MNot (inner : Matcher).

Inductive CompiledPredicate :=
  | CAnyLine (m : Matcher)
  | CAnyLineWrapped (m : Matcher)
  | CLastNonEmptyLine (m : Matcher)
  | CText (m : Matcher)
  | CProgressState (states : list ProgressState)
  | CStructural (name : str).

Record CompiledRule := mkCompiledRule {
  cr_id : str;
  cr_status : SessionStatus;
  cr_channel : Channel;
  cr_namespace : Namespace;
  cr_versions : VersionRange;
  cr_priority : Z;
  cr_order : Z;
  cr_predicate : CompiledPredicate
}.

Record CompiledChrome := mkCompiledChrome {
  cc_id : str;
  cc_namespace : Namespace;
  cc_versions : VersionRange;
  cc_matcher : Matcher
}.

Record ResolvedSet := mkResolvedSet {
  rs_values : list str;
  rs_values_lower : list str;
  rs_glyphs : list char
}.

Definition default_set : ResolvedSet := mkResolvedSet [] [] [].

Definition ResolvedSet_is_empty (s : ResolvedSet) : bool :=
  bool_decide (rs_values s = []) && bool_decide (rs_glyphs s = []).

Definition SET_COUNT : nat := 21.

Definition set_index (set : VocabularySet) : nat :=
  match set with
  | ComposerPrompts => 0
  | IdlePromptGlyphs => 1
  | SpinnerGlyphs => 2
  | WorkingFooterGlyphs => 3
  | InFlightMarkers => 4
  | DoneFooterMarkers => 5
  | BusyMarkers => 6
  | WaitingMarkers => 7
  | PermissionActionMarkers => 19
  | MenuCaretGlyphs => 20
  | DividerGlyphs => 8
  | BoxBorderGlyphs => 9
  | ComposerStatusSeparators => 10
  | SubagentParentPrefixes => 11
  | SubagentTaskPrefixes => 12
  | BlockArtGlyphs => 13
  | FooterProgressGlyphs => 14
  | TurnSummaryGlyphs => 15
  | WorktreePathMarkers => 16
  | TitleBusyGlyphs => 17
  | TitleIdleGlyphs => 18
  end.

(** [[ResolvedSet; SET_COUNT]]: an array indexed by [set_index].  An index out
    of range would panic in the source; [set_index_lt] excludes it. *)
Definition ResolvedVocabulary : Type := list ResolvedSet.

Definition default_resolved : ResolvedVocabulary := replicate SET_COUNT default_set.

Definition get (v : ResolvedVocabulary) (set : VocabularySet) : ResolvedSet :=
  default default_set (v !! set_index set).

Definition push_strings (v : ResolvedVocabulary) (set : VocabularySet) (values : list str)
    : ResolvedVocabulary :=
  alter (λ r, mkResolvedSet (rs_values r ++ values)
                            (rs_values_lower r ++ map str_to_ascii_lowercase values)
                            (rs_glyphs r))
        (set_index set) v.

Definition push_glyphs `{UnicodeCase} (v : ResolvedVocabulary) (set : VocabularySet)
    (glyphs : list char) : ResolvedVocabulary :=
  alter (λ r, mkResolvedSet (rs_values r ++ map (λ g, [g]) glyphs)
                            (rs_values_lower r ++ map char_to_lowercase glyphs)
                            (rs_glyphs r ++ glyphs))
        (set_index set) v.

Record VocabularyEntry := mkVocabularyEntry {
  ve_id : str;
  ve_set : VocabularySet;
  ve_versions : VersionRange;
  ve_values : list str;
  ve_glyphs : list char
}.

Definition CompiledVocabulary : Type := list VocabularyEntry.

(** The body of the loop in [CompiledVocabulary::resolve]. *)
Definition resolve_entry `{UnicodeCase} (version : option CliVersion)
    (resolved : ResolvedVocabulary) (entry : VocabularyEntry) : ResolvedVocabulary :=
  if negb (admits (ve_versions entry) version) then resolved
  else
    let resolved :=
      if bool_decide (ve_values entry = []) then resolved
      else push_strings resolved (ve_set entry) (ve_values entry) in
    if bool_decide (ve_glyphs entry = []) then resolved
    else push_glyphs resolved (ve_set entry) (ve_glyphs entry).

Definition resolve_vocabulary `{UnicodeCase} (v : CompiledVocabulary)
    (version : option CliVersion) : ResolvedVocabulary :=
  fold_left (resolve_entry version) v default_resolved.

Record CompiledProvider := mkCompiledProvider {
  cp_probe_args : list str;
  cp_vocabulary : CompiledVocabulary;
  cp_chrome : list CompiledChrome;
  cp_rules : list CompiledRule;
  cp_status_rows : option nat;
  cp_waiting_prompt_rows : option nat
}.

Definition DEFAULT_STATUS_ROWS : nat := 8.

Record CompiledRules := mkCompiledRules {
  common_vocabulary : CompiledVocabulary;
  common_chrome : list CompiledChrome;
  common_rules : list CompiledRule;
  compiled_providers : gmap AgentProvider CompiledProvider
}.

Record ResolvedRule := mkResolvedRule {
  rr_id : str;
  rr_status : SessionStatus;
  rr_channel : Channel;
  rr_namespace : Namespace;
  rr_predicate : CompiledPredicate
}.

Record ResolvedRules := mkResolvedRules {
  res_provider : AgentProvider;
  res_version : option CliVersion;
  res_common : ResolvedVocabulary;
  res_vocabulary : ResolvedVocabulary;
  res_chrome : list (Namespace * Matcher);
  res_rules : list ResolvedRule;
  res_status_rows : nat;
  res_waiting_prompt_rows : nat;
  res_probe_args : list str
}.

Definition vocabulary_for (r : ResolvedRules) (ns : Namespace) : ResolvedVocabulary :=
  match ns with NsCommon => res_common r | NsProvider => res_vocabulary r end.

(** ** Compiling *)

(** Where an entry is declared: [None] is the common section. *)
Definition Label := option AgentProvider.

Inductive RuleError :=
  | SchemaMismatch (declared : Z)
  | DeclaredTwice (label : Label)
  | DuplicateId (label : Label) (id : str)
  | NoValues (label : Label) (id : str)
  | NoGlyphs (label : Label) (id : str)
  | NotSingleCharacter (label : Label) (id glyph : str)
  | NoProgressStates (rule_id : str)
  | UnknownStructural (rule_id name : str)
  | WrongChannel (rule_id : str) (declared required : Channel)
  | InvalidRange (id : str) (error : RangeError).

Abbreviation Compiled A := (result (A * gset (list Z)) RuleError) (only parsing).

Definition parse_range (raw : option str) (id : str) : result VersionRange RuleError :=
  match VersionRange_parse (default (lit "*") raw) with
  | Ok r => Ok r
  | Err error => Err (InvalidRange id error)
  end.

Fixpoint compile_match (m : LineMatch) : Matcher :=
  match m with
  | LContains value => MContains (str_to_ascii_lowercase value)
  | LContainsAll values => MContainsAll (map str_to_ascii_lowercase values)
  | LEquals value => MEquals value
  | LStartsWith value => MStartsWith value
  | LContainsAny set => MContainsAny set
  | LContainsAllOf set => MContainsAllOf set
  | LStartsWithAny set => MStartsWithAny set
  | LStartsWithGlyph set => MStartsWithGlyph set
  | LStartsWithGlyphWord set => MStartsWithGlyphWord set
  | LAllCharactersIn set => MAllCharactersIn set
  | LAnyOf matches => MAnyOf (map compile_match matches)
  | LAllOf matches => MAllOf (map compile_match matches)
  | LNot inner => MNot (compile_match inner)
  end.

Definition compile_predicate (p : Predicate) (rule_id : str)
    : result CompiledPredicate RuleError :=
  match p with
  | AnyLine m => Ok (CAnyLine (compile_match m))
  | AnyLineWrapped m => Ok (CAnyLineWrapped (compile_match m))
  | LastNonEmptyLine m => Ok (CLastNonEmptyLine (compile_match m))
  | TextMatch m => Ok (CText (compile_match m))
  | ProgressIn states =>
      if bool_decide (states = []) then Err (NoProgressStates rule_id)
      else Ok (CProgressState states)
  | Structural name =>
      match find_first (λ candidate, str_eqb candidate name) STRUCTURAL_PREDICATES with
      | Some known => Ok (CStructural known)
      | None => Err (UnknownStructural rule_id name)
      end
  end.

(** The channel a predicate reads. *)
Definition required_channel (p : CompiledPredicate) : Channel :=
  match p with
  | CText _ => Title
  | CProgressState _ => Progress
  | CAnyLine _ | CAnyLineWrapped _ | CLastNonEmptyLine _ | CStructural _ => Grid
  end.

Definition check_channel (p : CompiledPredicate) (channel : Channel) (rule_id : str)
    : result unit RuleError :=
  if bool_decide (channel = required_channel p) then Ok ()
  else Err (WrongChannel rule_id channel (required_channel p)).

(** [seen_ids.insert(id)], refused when the id is already there. *)
Definition claim_id (label : Label) (id : str) (seen : gset (list Z))
    : result (gset (list Z)) RuleError :=
  if bool_decide (id ∈ seen) then Err (DuplicateId label id) else Ok ({[id]} ∪ seen).

(** A [for] loop that pushes one compiled item per declared item. *)
Fixpoint compile_each {A B : Type} (f : nat → A → gset (list Z) → Compiled B)
    (index : nat) (l : list A) (seen : gset (list Z)) : Compiled (list B) :=
  match l with
  | [] => Ok ([], seen)
  | x :: rest =>
      let? (y, seen) := f index x seen in
      let? (ys, seen) := compile_each f (S index) rest seen in
      Ok (y :: ys, seen)
  end.

Definition compile_strings_entry (label : Label) (set : VocabularySet)
    (entry : VersionedStrings) (seen : gset (list Z)) : Compiled VocabularyEntry :=
  let? seen := claim_id label (vs_id entry) seen in
  if bool_decide (vs_values entry = []) then Err (NoValues label (vs_id entry))
  else
    let? versions := parse_range (vs_versions entry) (vs_id entry) in
    Ok (mkVocabularyEntry (vs_id entry) set versions (vs_values entry) [], seen).

Definition single_character (label : Label) (id : str) (glyph : str)
    : result char RuleError :=
  match glyph with
  | [c] => Ok c
  | _ => Err (NotSingleCharacter label id glyph)
  end.

Definition compile_glyphs_entry (label : Label) (set : VocabularySet)
    (entry : VersionedGlyphs) (seen : gset (list Z)) : Compiled VocabularyEntry :=
  let? seen := claim_id label (vg_id entry) seen in
  if bool_decide (vg_glyphs entry = []) then Err (NoGlyphs label (vg_id entry))
  else
    let? glyphs := collect_results (map (single_character label (vg_id entry)) (vg_glyphs entry)) in
    let? versions := parse_range (vg_versions entry) (vg_id entry) in
    Ok (mkVocabularyEntry (vg_id entry) set versions [] glyphs, seen).

Definition string_sets (v : Vocabulary) : list (VocabularySet * list VersionedStrings) := [
  (InFlightMarkers, in_flight_markers v);
  (DoneFooterMarkers, done_footer_markers v);
  (BusyMarkers, busy_markers v);
  (WaitingMarkers, waiting_markers v);
  (PermissionActionMarkers, permission_action_markers v);
  (ComposerStatusSeparators, composer_status_separators v);
  (SubagentParentPrefixes, subagent_parent_prefixes v);
  (SubagentTaskPrefixes, subagent_task_prefixes v);
  (WorktreePathMarkers, worktree_path_markers v)
].

Definition glyph_sets (v : Vocabulary) : list (VocabularySet * list VersionedGlyphs) := [
  (ComposerPrompts, composer_prompts v);
  (IdlePromptGlyphs, idle_prompt_glyphs v);
  (SpinnerGlyphs, spinner_glyphs v);
  (WorkingFooterGlyphs, working_footer_glyphs v);
  (DividerGlyphs, divider_glyphs v);
  (BoxBorderGlyphs, box_border_glyphs v);
  (BlockArtGlyphs, block_art_glyphs v);
  (FooterProgressGlyphs, footer_progress_glyphs v);
  (TurnSummaryGlyphs, turn_summary_glyphs v);
  (TitleBusyGlyphs, title_busy_glyphs v);
  (TitleIdleGlyphs, title_idle_glyphs v);
  (MenuCaretGlyphs, menu_caret_glyphs v)
].

(** The declared entries, each with the set it belongs to, in loop order. *)
Definition flat_sets {A} (sets : list (VocabularySet * list A)) : list (VocabularySet * A) :=
  flat_map (λ '(set, declared), map (λ entry, (set, entry)) declared) sets.

Definition compile_vocabulary (v : Vocabulary) (label : Label) (seen : gset (list Z))
    : Compiled CompiledVocabulary :=
  let? (strings, seen) :=
    compile_each (λ _ '(set, entry), compile_strings_entry label set entry)
                 0 (flat_sets (string_sets v)) seen in
  let? (glyphs, seen) :=
    compile_each (λ _ '(set, entry), compile_glyphs_entry label set entry)
                 0 (flat_sets (glyph_sets v)) seen in
  Ok (strings ++ glyphs, seen).

Definition compile_chrome_entry (ns : Namespace) (label : Label) (entry : ChromeEntry)
    (seen : gset (list Z)) : Compiled CompiledChrome :=
  let? seen := claim_id label (ce_id entry) seen in
  let? versions := parse_range (ce_versions entry) (ce_id entry) in
  Ok (mkCompiledChrome (ce_id entry) ns versions (compile_match (ce_match entry)), seen).

Definition compile_chrome (declared : list ChromeEntry) (ns : Namespace) (label : Label)
    (seen : gset (list Z)) : Compiled (list CompiledChrome) :=
  compile_each (λ _, compile_chrome_entry ns label) 0 declared seen.

Definition compile_rule (ns : Namespace) (label : Label) (order_base : Z) (index : nat) (rule : Rule)
    (seen : gset (list Z)) : Compiled CompiledRule :=
  let? seen := claim_id label (r_id rule) seen in
  let? predicate := compile_predicate (r_when rule) (r_id rule) in
  let? _ := check_channel predicate (r_channel rule) (r_id rule) in
  let? versions := parse_range (r_versions rule) (r_id rule) in
  Ok (mkCompiledRule (r_id rule) (r_status rule) (r_channel rule) ns versions
        (r_priority rule) (order_base + Z.of_nat index) predicate, seen).

Definition compile_rules (declared : list Rule) (ns : Namespace) (label : Label)
    (seen : gset (list Z)) (order_base : Z) : Compiled (list CompiledRule) :=
  compile_each (compile_rule ns label order_base) 0 declared seen.

(** The body of the provider loop; it returns the entry it inserts. *)
Definition compile_provider (index : nat) (set : ProviderRuleSet) (seen : gset (list Z))
    : Compiled CompiledProvider :=
  let label := Some (p_provider set) in
  let? (vocabulary, seen) := compile_vocabulary (p_vocabulary set) label seen in
  let? (chrome, seen) := compile_chrome (p_chrome set) NsProvider label seen in
  let? (rules, seen) :=
    compile_rules (p_rules set) NsProvider label seen ((Z.of_nat index + 1) * 10000) in
  Ok (mkCompiledProvider (default [] (p_version_probe set)) vocabulary chrome rules
        (p_status_rows set) (p_waiting_prompt_rows set), seen).

Fixpoint compile_providers (index : nat) (sets : list ProviderRuleSet) (seen : gset (list Z))
    (acc : gmap AgentProvider CompiledProvider)
    : Compiled (gmap AgentProvider CompiledProvider) :=
  match sets with
  | [] => Ok (acc, seen)
  | set :: rest =>
      match acc !! p_provider set with
      | Some _ => Err (DeclaredTwice (Some (p_provider set)))
      | None =>
          let? (compiled, seen) := compile_provider index set seen in
          compile_providers (S index) rest seen (<[p_provider set := compiled]> acc)
      end
  end.

Definition compile (file : RuleFile) : result CompiledRules RuleError :=
  if negb (schema_version file =? SCHEMA_VERSION)%Z
  then Err (SchemaMismatch (schema_version file))
  else
    let? (vocabulary, seen) := compile_vocabulary (c_vocabulary (common file)) None ∅ in
    let? (chrome, seen) := compile_chrome (c_chrome (common file)) NsCommon None seen in
    let? (rules, seen) := compile_rules (c_rules (common file)) NsCommon None seen 0 in
    let? (provs, _) := compile_providers 0 (providers file) seen ∅ in
    Ok (mkCompiledRules vocabulary chrome rules provs).

(** ** Merging an override file *)

(** The loop of the three [merge_*] functions: replace the first entry with
    the same id, else append.  [keep old new] is what is stored on a
    replacement. *)
Section merge.
Context {A : Type} (id_of : A → str) (keep : A → A → A).

Fixpoint replace_or_push (base : list A) (entry : A) : list A :=
  match base with
  | [] => [entry]
  | existing :: rest =>
      if str_eqb (id_of existing) (id_of entry) then keep existing entry :: rest
      else existing :: replace_or_push rest entry
  end.

Definition merge_by_id (base overlay : list A) : list A :=
  fold_left replace_or_push overlay base.
End merge.

Definition merge_vocabulary (base overlay : CompiledVocabulary) : CompiledVocabulary :=
  merge_by_id ve_id (λ _ entry, entry) base overlay.

Definition merge_chrome (base overlay : list CompiledChrome) : list CompiledChrome :=
  merge_by_id cc_id (λ _ entry, entry) base overlay.

(** A replaced rule keeps the order of the rule it replaces. *)
Definition keep_order (existing rule : CompiledRule) : CompiledRule :=
  mkCompiledRule (cr_id rule) (cr_status rule) (cr_channel rule) (cr_namespace rule)
    (cr_versions rule) (cr_priority rule) (cr_order existing) (cr_predicate rule).

Definition merge_rules (base overlay : list CompiledRule) : list CompiledRule :=
  merge_by_id cr_id keep_order base overlay.

Definition merge_provider (base overlay : CompiledProvider) : CompiledProvider :=
  mkCompiledProvider
    (if bool_decide (cp_probe_args overlay = []) then cp_probe_args base
     else cp_probe_args overlay)
    (merge_vocabulary (cp_vocabulary base) (cp_vocabulary overlay))
    (merge_chrome (cp_chrome base) (cp_chrome overlay))
    (merge_rules (cp_rules base) (cp_rules overlay))
    (match cp_status_rows overlay with Some n => Some n | None => cp_status_rows base end)
    (match cp_waiting_prompt_rows overlay with
     | Some n => Some n
     | None => cp_waiting_prompt_rows base
     end).

(** One iteration of the loop over the overlay's providers. *)
Definition merge_one_provider (provider : AgentProvider) (overlay : CompiledProvider)
    (merged : gmap AgentProvider CompiledProvider) : gmap AgentProvider CompiledProvider :=
  match merged !! provider with
  | Some base => <[provider := merge_provider base overlay]> merged
  | None => <[provider := overlay]> merged
  end.

Definition merge_over (base overlay : CompiledRules) : CompiledRules :=
  mkCompiledRules
    (merge_vocabulary (common_vocabulary base) (common_vocabulary overlay))
    (merge_chrome (common_chrome base) (common_chrome overlay))
    (merge_rules (common_rules base) (common_rules overlay))
    (map_fold merge_one_provider (compiled_providers base) (compiled_providers overlay)).

(** ** Resolving *)

Definition global_composer_prompts `{UnicodeCase} (c : CompiledRules) : list char :=
  rs_glyphs (get (resolve_vocabulary (common_vocabulary c) None) ComposerPrompts).

Definition probe_args (c : CompiledRules) (provider : AgentProvider) : list str :=
  default [] (cp_probe_args <$> compiled_providers c !! provider).

(** [derive(Ord)] on [Channel]. *)
Definition Channel_index (c : Channel) : nat :=
  match c with Grid => 0 | Title => 1 | Progress => 2 end.

(** Comparison of the keys [(channel, priority, order)]. *)
Definition rule_key_le (a b : CompiledRule) : bool :=
  match Nat.compare (Channel_index (cr_channel a)) (Channel_index (cr_channel b)) with
  | Lt => true
  | Gt => false
  | Eq =>
      match Z.compare (cr_priority a) (cr_priority b) with
      | Lt => true
      | Gt => false
      | Eq => (cr_order a <=? cr_order b)%Z
      end
  end.

Definition resolved_rule (rule : CompiledRule) : ResolvedRule :=
  mkResolvedRule (cr_id rule) (cr_status rule) (cr_channel rule) (cr_namespace rule)
    (cr_predicate rule).

(** The rules of the file that apply to one provider and version, before the
    sort. *)
Definition selected_rules (c : CompiledRules) (provider : AgentProvider)
    (version : option CliVersion) : list CompiledRule :=
  List.filter (λ rule, admits (cr_versions rule) version)
    (common_rules c ++ from_option cp_rules [] (compiled_providers c !! provider)).

Definition resolve `{UnicodeCase} (c : CompiledRules) (provider : AgentProvider)
    (version : option CliVersion) : ResolvedRules :=
  let compiled := compiled_providers c !! provider in
  let status_rows := default DEFAULT_STATUS_ROWS (compiled ≫= cp_status_rows) in
  mkResolvedRules provider version
    (resolve_vocabulary (common_vocabulary c) version)
    (from_option (λ p, resolve_vocabulary (cp_vocabulary p) version) default_resolved compiled)
    (map (λ entry, (cc_namespace entry, cc_matcher entry))
       (List.filter (λ entry, admits (cc_versions entry) version)
          (common_chrome c ++ from_option cp_chrome [] compiled)))
    (map resolved_rule (sort_by rule_key_le (selected_rules c provider version)))
    status_rows
    (default status_rows (compiled ≫= cp_waiting_prompt_rows))
    (from_option cp_probe_args [] compiled).

(** Every rule id, for diagnostics; the order across providers is the map's. *)
Definition rule_ids (c : CompiledRules) : list str :=
  map cr_id (common_rules c) ++
  flat_map (λ p, map cr_id (cp_rules p.2)) (map_to_list (compiled_providers c)).

(** ** The vocabulary a version sees *)

Lemma set_index_lt set : set_index set < SET_COUNT.
Proof. destruct set; cbn; unfold SET_COUNT; lia. Qed.

Lemma set_index_inj a b : set_index a = set_index b → a = b.
Proof. by destruct a, b. Qed.

(** What one entry adds to its set. *)
Definition entry_set `{UnicodeCase} (e : VocabularyEntry) : ResolvedSet :=
  mkResolvedSet (ve_values e ++ map (λ g, [g]) (ve_glyphs e))
    (map str_to_ascii_lowercase (ve_values e) ++ map char_to_lowercase (ve_glyphs e))
    (ve_glyphs e).

Definition append_set (a b : ResolvedSet) : ResolvedSet :=
  mkResolvedSet (rs_values a ++ rs_values b) (rs_values_lower a ++ rs_values_lower b)
    (rs_glyphs a ++ rs_glyphs b).

(** The reference: the entries of the set that the version is admitted to, one
    after the other. *)
Definition vocabulary_view `{UnicodeCase} (v : CompiledVocabulary) (version : option CliVersion)
    (set : VocabularySet) : ResolvedSet :=
  foldr append_set default_set
    (map entry_set
       (List.filter (λ e, bool_decide (ve_set e = set) && admits (ve_versions e) version) v)).

Lemma append_set_nil_r a : append_set a default_set = a.
Proof. destruct a. unfold append_set. cbn. by rewrite !app_nil_r. Qed.
Lemma append_set_assoc a b c : append_set a (append_set b c) = append_set (append_set a b) c.
Proof. unfold append_set. cbn. by rewrite !app_assoc. Qed.

Lemma get_alter f (v : ResolvedVocabulary) set set' :
  length v = SET_COUNT →
  get (alter f (set_index set) v) set' =
  if decide (set = set') then f (get v set') else get v set'.
Proof.
  intros Hlen. unfold get, ResolvedVocabulary in *. case_decide as Hs.
  - subst set'. rewrite list_lookup_alter_eq.
    destruct (lookup_lt_is_Some_2 v (set_index set)) as [r ->]; [|done].
    rewrite Hlen. apply set_index_lt.
  - rewrite list_lookup_alter_ne; [done|]. by intros ?%set_index_inj.
Qed.

Lemma resolve_entry_length `{UnicodeCase} version v e :
  length (resolve_entry version v e) = length v.
Proof.
  unfold resolve_entry, push_strings, push_glyphs, ResolvedVocabulary in *.
  repeat case_if; by rewrite ?length_alter.
Qed.

Lemma resolve_entry_get `{UnicodeCase} version v e set :
  length v = SET_COUNT →
  get (resolve_entry version v e) set =
  if bool_decide (ve_set e = set) && admits (ve_versions e) version
  then append_set (get v set) (entry_set e) else get v set.
Proof.
  intros Hlen. unfold resolve_entry.
  destruct (admits _ _); cbn [negb]; rewrite ?andb_false_r, ?andb_true_r; [|done].
  destruct (bool_decide (ve_values e = [])) eqn:Hv;
    destruct (bool_decide (ve_glyphs e = [])) eqn:Hg; bool_simpl;
    unfold push_strings, push_glyphs, entry_set, append_set;
    rewrite ?get_alter by (unfold ResolvedVocabulary; rewrite ?length_alter; done);
    destruct (decide (ve_set e = set)) as [Hs|Hs];
    rewrite ?(bool_decide_eq_true_2 _ Hs), ?(bool_decide_eq_false_2 _ Hs); try done;
    rewrite ?Hv, ?Hg; destruct (get v set); cbn; by rewrite ?app_nil_r, ?app_assoc.
Qed.

Lemma resolve_vocabulary_from `{UnicodeCase} version v acc set :
  length acc = SET_COUNT →
  get (fold_left (resolve_entry version) v acc) set =
  append_set (get acc set) (vocabulary_view v version set).
Proof.
  revert acc. induction v as [|e v IH]; intros acc Hlen; cbn [fold_left].
  { by rewrite append_set_nil_r. }
  rewrite IH by (by rewrite resolve_entry_length).
  rewrite resolve_entry_get by done. unfold vocabulary_view. cbn [List.filter].
  destruct (bool_decide _ && _); [|done].
  cbn [map foldr]. by rewrite append_set_assoc.
Qed.

(** Resolving a vocabulary for a CLI version gives every named set exactly
    the values of its own entries that the version admits, in file order:
    nothing leaks from one set's slot of the array to another's, string values
    are lowered in ASCII and glyphs are kept in all three views. *)
Theorem vocabulary_resolution_exact `{UnicodeCase} v version set :
  get (resolve_vocabulary v version) set = vocabulary_view v version set.
Proof.
  unfold resolve_vocabulary. rewrite resolve_vocabulary_from by apply length_replicate.
  unfold get at 1. unfold default_resolved, ResolvedVocabulary. rewrite lookup_replicate_2 by apply set_index_lt.
  cbn. by destruct (vocabulary_view v version set).
Qed.

(** ** Which files compile *)

(** [fresh ids seen]: no id is declared twice or already taken. *)
Definition fresh (ids : list str) (seen : gset (list Z)) : Prop :=
  NoDup ids ∧ ∀ i, i ∈ ids → i ∉ seen.

(** A compilation step that claims [ids] succeeds exactly when they are fresh
    and [V] holds, and records them. *)
Definition accepts {B : Type} (r : Compiled B) (ids : list str) (seen : gset (list Z)) (V : Prop) : Prop :=
  match r with
  | Ok (_, seen') => fresh ids seen ∧ V ∧ seen' = list_to_set ids ∪ seen
  | Err _ => ¬ (fresh ids seen ∧ V)
  end.

Lemma fresh_app a b seen :
  fresh (a ++ b) seen ↔ fresh a seen ∧ fresh b (list_to_set a ∪ seen).
Proof.
  unfold fresh. rewrite NoDup_app.
  setoid_rewrite elem_of_app. setoid_rewrite not_elem_of_union.
  setoid_rewrite elem_of_list_to_set. naive_solver.
Qed.

Lemma accepts_bind {B D : Type} (m : Compiled B) (k : (B * gset (list Z))%type → Compiled D) (a b : list str)
    (seen : gset (list Z)) (V W : Prop) :
  accepts m a seen V →
  (∀ y, m = Ok (y, list_to_set a ∪ seen) → accepts (k (y, list_to_set a ∪ seen)) b (list_to_set a ∪ seen) W) →
  accepts (result_bind m k) (a ++ b) seen (V ∧ W).
Proof.
  intros Hm Hk. destruct m as [[y seen']|e]; cbn in *.
  - destruct Hm as (Hf & HV & ->). specialize (Hk y eq_refl).
    unfold accepts in *. destruct (k _) as [[z seen'']|e]; cbn in *.
    + destruct Hk as (Hf' & HW & ->). rewrite fresh_app, list_to_set_app_L. split_and!; auto.
      apply set_eq. intros i. rewrite !elem_of_union. tauto.
    + rewrite fresh_app. tauto.
  - rewrite fresh_app. tauto.
Qed.

Lemma accepts_ret {B : Type} (y : B) (seen : gset (list Z)) : accepts (Ok (y, seen)) [] seen True.
Proof.
  cbn. split_and!; [split; [constructor|]|done|]; [by intros i ?%elem_of_nil|set_solver].
Qed.

Lemma accepts_map {B D : Type} (m : Compiled B) (k : (B * gset (list Z))%type → Compiled D)
    (a : list str) (seen : gset (list Z)) (V : Prop) :
  accepts m a seen V → (∀ y s, ∃ z, k (y, s) = Ok (z, s)) → accepts (result_bind m k) a seen V.
Proof.
  intros Hm Hk. destruct m as [[y s]|e]; cbn [result_bind]; [|done].
  by destruct (Hk y s) as [z ->].
Qed.

Lemma accepts_iff {B : Type} (r : Compiled B) (ids : list str) (seen : gset (list Z)) (V W : Prop) :
  (V ↔ W) → accepts r ids seen V → accepts r ids seen W.
Proof. unfold accepts. destruct r as [[??]|]; tauto. Qed.

#[export] Instance accepts_proper {B : Type} (r : Compiled B) (ids : list str)
    (seen : gset (list Z)) : Proper (iff ==> iff) (accepts r ids seen).
Proof. intros V W HVW. split; by apply accepts_iff. Qed.

Lemma accepts_claim {B : Type} (label : Label) (id : str) (seen : gset (list Z)) (V : Prop)
    (k : gset (list Z) → Compiled B) :
  (match k ({[id]} ∪ seen) with
   | Ok (_, seen') => V ∧ seen' = {[id]} ∪ seen
   | Err _ => ¬ V
   end) →
  accepts (result_bind (claim_id label id seen) k) [id] seen V.
Proof.
  assert (fresh [id] seen ↔ id ∉ seen) as Hfr.
  { unfold fresh. setoid_rewrite list_elem_of_singleton. pose proof (NoDup_singleton id).
    naive_solver. }
  assert (list_to_set [id] = ({[id]} : gset (list Z))) as Hset by set_solver.
  unfold claim_id. case_bool_decide as Hin; cbn [result_bind]; intros Hk.
  - cbn. rewrite Hfr. tauto.
  - unfold accepts. destruct (k _) as [[y seen']|e].
    + rewrite Hfr, Hset. tauto.
    + tauto.
Qed.

Lemma compile_each_accepts {A B : Type} (f : nat → A → gset (list Z) → Compiled B)
    (id_of : A → str) (valid : A → Prop) (index : nat) (l : list A)
    (seen : gset (list Z)) :
  (∀ i x (seen : gset (list Z)), accepts (f i x seen) [id_of x] seen (valid x)) →
  accepts (compile_each f index l seen) (map id_of l) seen (Forall valid l).
Proof.
  intros Hf. revert index seen. induction l as [|x l IH]; intros index seen; cbn [compile_each map].
  { eapply accepts_iff; [|apply accepts_ret]. split; [constructor|done]. }
  eapply accepts_iff; [symmetry; apply Forall_cons|].
  change (id_of x :: map id_of l) with ([id_of x] ++ map id_of l).
  apply accepts_bind; [apply Hf|]. intros y _.
  apply accepts_map; [apply IH|]. by eexists.
Qed.

(** What a valid rule file is, entry by entry. *)
Definition valid_range (raw : option str) : Prop :=
  is_ok (VersionRange_parse (default (lit "*") raw)) = true.
Definition valid_strings (e : VersionedStrings) : Prop :=
  vs_values e ≠ [] ∧ valid_range (vs_versions e).
Definition valid_glyphs (e : VersionedGlyphs) : Prop :=
  vg_glyphs e ≠ [] ∧ Forall (λ g, length g = 1) (vg_glyphs e) ∧ valid_range (vg_versions e).
Definition valid_chrome (e : ChromeEntry) : Prop := valid_range (ce_versions e).

Definition valid_predicate (p : Predicate) : Prop :=
  match p with
  | ProgressIn states => states ≠ []
  | Structural name => name ∈ STRUCTURAL_PREDICATES
  | _ => True
  end.
(** The evidence a predicate reads. *)
Definition predicate_channel (p : Predicate) : Channel :=
  match p with
  | TextMatch _ => Title
  | ProgressIn _ => Progress
  | _ => Grid
  end.
Definition valid_rule (r : Rule) : Prop :=
  valid_predicate (r_when r) ∧ r_channel r = predicate_channel (r_when r) ∧
  valid_range (r_versions r).

(** The entries of a vocabulary, field by field. *)
Definition string_entries (v : Vocabulary) : list VersionedStrings :=
  in_flight_markers v ++ done_footer_markers v ++ busy_markers v ++ waiting_markers v ++ permission_action_markers v
  ++ composer_status_separators v ++ subagent_parent_prefixes v ++ subagent_task_prefixes v ++ worktree_path_markers v.
Definition glyph_entries (v : Vocabulary) : list VersionedGlyphs :=
  composer_prompts v ++ idle_prompt_glyphs v ++ spinner_glyphs v ++ working_footer_glyphs v ++ divider_glyphs v ++ box_border_glyphs v
  ++ block_art_glyphs v ++ footer_progress_glyphs v ++ turn_summary_glyphs v ++ title_busy_glyphs v ++ title_idle_glyphs v ++ menu_caret_glyphs v.

Lemma flat_sets_cons {A} (set : VocabularySet) (l : list A) sets : map snd (flat_sets ((set, l) :: sets)) = l ++ map snd (flat_sets sets).
Proof. unfold flat_sets. cbn [flat_map]. rewrite map_app, map_map. cbn. by rewrite map_id. Qed.

(** The compiler goes over every field. *)
Lemma string_sets_entries v : map snd (flat_sets (string_sets v)) = string_entries v.
Proof. unfold string_sets, string_entries. rewrite !flat_sets_cons. cbn. by rewrite app_nil_r. Qed.

Lemma glyph_sets_entries v : map snd (flat_sets (glyph_sets v)) = glyph_entries v.
Proof. unfold glyph_sets, glyph_entries. rewrite !flat_sets_cons. cbn. by rewrite app_nil_r. Qed.

(** Every set is compiled from one field. *)
Lemma each_set_is_compiled_once v :
  NoDup (map fst (string_sets v) ++ map fst (glyph_sets v)) ∧ ∀ set, set ∈ map fst (string_sets v) ++ map fst (glyph_sets v).
Proof. split; [apply (bool_decide_unpack _); by vm_compute|]. intros []; apply (bool_decide_unpack _); by vm_compute. Qed.

Definition section_ids (v : Vocabulary) (chrome : list ChromeEntry) (rules : list Rule)
    : list str :=
  (map vs_id (string_entries v) ++ map vg_id (glyph_entries v)) ++
  map ce_id chrome ++ map r_id rules.
Definition valid_section (v : Vocabulary) (chrome : list ChromeEntry) (rules : list Rule) : Prop :=
  (Forall valid_strings (string_entries v) ∧ Forall valid_glyphs (glyph_entries v)) ∧
  Forall valid_chrome chrome ∧ Forall valid_rule rules.

Definition provider_ids (s : ProviderRuleSet) : list str :=
  section_ids (p_vocabulary s) (p_chrome s) (p_rules s).
Definition valid_provider (s : ProviderRuleSet) : Prop :=
  valid_section (p_vocabulary s) (p_chrome s) (p_rules s).

Definition declared_ids (file : RuleFile) : list str :=
  section_ids (c_vocabulary (common file)) (c_chrome (common file)) (c_rules (common file)) ++
  flat_map provider_ids (providers file).

Definition valid_file (file : RuleFile) : Prop :=
  schema_version file = SCHEMA_VERSION ∧
  NoDup (declared_ids file) ∧
  NoDup (map p_provider (providers file)) ∧
  valid_section (c_vocabulary (common file)) (c_chrome (common file)) (c_rules (common file)) ∧
  Forall valid_provider (providers file).

Lemma parse_range_ok raw id :
  match parse_range raw id with Ok _ => valid_range raw | Err _ => ¬ valid_range raw end.
Proof. unfold parse_range, valid_range. by destruct (VersionRange_parse _). Qed.

Lemma compile_strings_accepts label set e seen :
  accepts (compile_strings_entry label set e seen) [vs_id e] seen (valid_strings e).
Proof.
  unfold compile_strings_entry, valid_strings. apply accepts_claim.
  case_bool_decide as Hv; [tauto|].
  pose proof (parse_range_ok (vs_versions e) (vs_id e)).
  destruct (parse_range _ _); cbn; tauto.
Qed.

Lemma single_characters_ok label id glyphs :
  match collect_results (map (single_character label id) glyphs) with
  | Ok cs => glyphs = map (λ c, [c]) cs
  | Err _ => ¬ Forall (λ g, length g = 1) glyphs
  end.
Proof.
  induction glyphs as [|g glyphs IH]; cbn; [done|].
  assert (∀ P : Prop, length g ≠ 1 → ¬ Forall (λ g, length g = 1) (g :: glyphs)) as Hbad.
  { intros _ Hg [? ?]%Forall_cons. done. }
  destruct g as [|c [|? ?]]; cbn; [by apply (Hbad True)| |by apply (Hbad True)].
  destruct (collect_results _) as [cs|]; [by rewrite IH|].
  intros [? ?]%Forall_cons. done.
Qed.

Lemma compile_glyphs_accepts label set e seen :
  accepts (compile_glyphs_entry label set e seen) [vg_id e] seen (valid_glyphs e).
Proof.
  unfold compile_glyphs_entry, valid_glyphs. apply accepts_claim.
  case_bool_decide as Hv; [tauto|].
  pose proof (single_characters_ok label (vg_id e) (vg_glyphs e)) as Hg.
  destruct (collect_results _) as [cs|]; cbn [result_bind]; [|tauto].
  assert (Forall (λ g, length g = 1) (vg_glyphs e)) as Hlen.
  { rewrite Hg. apply Forall_map, Forall_true. done. }
  pose proof (parse_range_ok (vg_versions e) (vg_id e)).
  destruct (parse_range _ _); cbn; tauto.
Qed.

Lemma flat_sets_map {A} (id_of : A → str) sets :
  map (λ p : VocabularySet * A, id_of p.2) (flat_sets sets) = map id_of (map snd (flat_sets sets)).
Proof. by rewrite map_map. Qed.

Lemma compile_vocabulary_accepts v label seen :
  accepts (compile_vocabulary v label seen)
    (map vs_id (string_entries v) ++ map vg_id (glyph_entries v)) seen
    (Forall valid_strings (string_entries v) ∧ Forall valid_glyphs (glyph_entries v)).
Proof.
  unfold compile_vocabulary. rewrite <-string_sets_entries, <-glyph_sets_entries.
  rewrite <-!flat_sets_map, !Forall_map.
  apply accepts_bind.
  { apply compile_each_accepts. intros i [set e] s. apply compile_strings_accepts. }
  intros ys _. apply accepts_map.
  { apply compile_each_accepts. intros i [set e] s. apply compile_glyphs_accepts. }
  by eexists.
Qed.

Lemma compile_chrome_accepts declared ns label seen :
  accepts (compile_chrome declared ns label seen) (map ce_id declared) seen
    (Forall valid_chrome declared).
Proof.
  apply compile_each_accepts. intros _ e s. unfold compile_chrome_entry, valid_chrome.
  apply accepts_claim. pose proof (parse_range_ok (ce_versions e) (ce_id e)).
  destruct (parse_range _ _); cbn; tauto.
Qed.

Lemma compile_predicate_ok p id :
  match compile_predicate p id with
  | Ok c => valid_predicate p ∧ required_channel c = predicate_channel p
  | Err _ => ¬ valid_predicate p
  end.
Proof.
  destruct p as [| | | |states|name]; try done; unfold compile_predicate.
  - case_bool_decide; cbn; tauto.
  - destruct (find_first _ _) as [known|] eqn:Hf.
    + apply find_first_Some in Hf as [Hin Heq].
      apply bool_decide_eq_true in Heq as ->. done.
    + unfold valid_predicate. intros Hin.
      rewrite find_first_None in Hf. specialize (Hf _ Hin).
      apply bool_decide_eq_false in Hf. done.
Qed.

Lemma compile_rules_accepts declared ns label seen base :
  accepts (compile_rules declared ns label seen base) (map r_id declared) seen
    (Forall valid_rule declared).
Proof.
  apply compile_each_accepts. intros i r s. unfold compile_rule, valid_rule.
  apply accepts_claim.
  pose proof (compile_predicate_ok (r_when r) (r_id r)) as Hp.
  destruct (compile_predicate _ _) as [c|]; cbn [result_bind]; [|tauto].
  destruct Hp as [Hp Hc]. unfold check_channel. rewrite Hc.
  case_bool_decide; cbn [result_bind]; [|tauto].
  pose proof (parse_range_ok (r_versions r) (r_id r)).
  destruct (parse_range _ _); cbn; tauto.
Qed.

Lemma compile_provider_accepts index s seen :
  accepts (compile_provider index s seen) (provider_ids s) seen (valid_provider s).
Proof.
  unfold compile_provider, provider_ids, valid_provider, section_ids, valid_section.
  apply accepts_bind; [apply compile_vocabulary_accepts|]. intros v _.
  apply accepts_bind; [apply compile_chrome_accepts|]. intros ch _.
  apply accepts_map; [apply compile_rules_accepts|]. by eexists.
Qed.

Lemma compile_providers_accepts index sets seen acc :
  accepts (compile_providers index sets seen acc) (flat_map provider_ids sets) seen
    ((NoDup (map p_provider sets) ∧ ∀ s, s ∈ sets → acc !! p_provider s = None) ∧
     Forall valid_provider sets).
Proof.
  revert index seen acc. induction sets as [|s sets IH]; intros index seen acc;
    cbn [compile_providers flat_map map].
  { eapply accepts_iff; [|apply accepts_ret].
    split; [|done]. intros _. repeat constructor. by intros s ?%elem_of_nil. }
  destruct (acc !! p_provider s) as [c|] eqn:Hacc.
  { cbn. intros (_ & (_ & Hnone) & _). rewrite Hnone in Hacc; [done|]. by left. }
  eapply accepts_iff; [|apply (accepts_bind _ _ _ _ _ (valid_provider s)
    ((NoDup (map p_provider sets) ∧
      ∀ s', s' ∈ sets → p_provider s' ≠ p_provider s ∧ acc !! p_provider s' = None) ∧
     Forall valid_provider sets)); [apply compile_provider_accepts|]].
  - rewrite Forall_cons, NoDup_cons. setoid_rewrite elem_of_cons.
    rewrite list_elem_of_fmap. naive_solver.
  - intros c _. eapply accepts_iff; [|apply IH].
    setoid_rewrite lookup_insert_None. naive_solver.
Qed.

(** [compile] after the schema check, keeping the ids it has claimed. *)
Definition compile_claims (file : RuleFile) : Compiled CompiledRules :=
  let? (vocabulary, seen) := compile_vocabulary (c_vocabulary (common file)) None ∅ in
  let? (chrome, seen) := compile_chrome (c_chrome (common file)) NsCommon None seen in
  let? (rules, seen) := compile_rules (c_rules (common file)) NsCommon None seen 0 in
  let? (provs, seen) := compile_providers 0 (providers file) seen ∅ in
  Ok (mkCompiledRules vocabulary chrome rules provs, seen).

Lemma compile_claims_eq file :
  compile file =
  if negb (schema_version file =? SCHEMA_VERSION)%Z
  then Err (SchemaMismatch (schema_version file))
  else let? (c, _) := compile_claims file in Ok c.
Proof.
  unfold compile, compile_claims. case_if; [done|].
  destruct (compile_vocabulary _ _ _) as [[v s1]|]; cbn [result_bind]; [|done].
  destruct (compile_chrome _ _ _ _) as [[ch s2]|]; cbn [result_bind]; [|done].
  destruct (compile_rules _ _ _ _ _) as [[ru s3]|]; cbn [result_bind]; [|done].
  by destruct (compile_providers _ _ _ _) as [[pr s4]|].
Qed.

Lemma compile_claims_accepts file :
  accepts (compile_claims file) (declared_ids file) ∅
    (valid_section (c_vocabulary (common file)) (c_chrome (common file)) (c_rules (common file)) ∧
     NoDup (map p_provider (providers file)) ∧ Forall valid_provider (providers file)).
Proof.
  unfold declared_ids, section_ids, valid_section. rewrite <-!app_assoc.
  rewrite (app_assoc (map vs_id _)).
  eapply accepts_iff; [|apply accepts_bind; [apply compile_vocabulary_accepts|]; intros v _;
    apply accepts_bind; [apply compile_chrome_accepts|]; intros ch _;
    apply accepts_bind; [apply compile_rules_accepts|]; intros ru _;
    apply accepts_map; [apply compile_providers_accepts|]; by eexists].
  assert (∀ s, s ∈ providers file →
    (∅ : gmap AgentProvider CompiledProvider) !! p_provider s = None) as Hempty
    by (intros; apply lookup_empty).
  tauto.
Qed.

Lemma compile_ok_iff_valid (file : RuleFile) :
  is_ok (compile file) = true ↔ valid_file file.
Proof.
  rewrite compile_claims_eq. unfold valid_file.
  destruct (Z.eqb_spec (schema_version file) SCHEMA_VERSION) as [Hs|Hs]; cbn [negb]; [|naive_solver].
  pose proof (compile_claims_accepts file) as H. unfold accepts, fresh in H.
  assert (∀ i, i ∈ declared_ids file → i ∉ (∅ : gset (list Z))) as Hempty
    by (intros; apply not_elem_of_empty).
  destruct (compile_claims file) as [[c s]|e]; cbn; [tauto|].
  split; [done|]. tauto.
Qed.

(** C38: a rule file is accepted exactly when it is valid: the schema version
    is the one the daemon understands, no id is declared twice anywhere in the
    file (vocabulary, chrome and rules of the common section and of every
    provider together), no provider is declared twice, and every entry is
    well-formed (values present, glyphs single characters, version ranges
    parse, structural predicates known, each rule on the channel its predicate
    reads).  In particular nothing invalid is silently dropped. *)
Theorem compile_accepts_exactly_valid_files (file : RuleFile) :
  is_ok (compile file) = true ↔ valid_file file.
Proof. apply compile_ok_iff_valid. Qed.

(** ** Every rule reads the channel it declares *)

Definition rule_ok (r : CompiledRule) : Prop := cr_channel r = required_channel (cr_predicate r).

Definition rules_ok (c : CompiledRules) : Prop :=
  Forall rule_ok (common_rules c) ∧
  map_Forall (λ _ p, Forall rule_ok (cp_rules p)) (compiled_providers c).

Lemma compile_each_Forall {A B : Type} (f : nat → A → gset (list Z) → Compiled B) (P : B → Prop)
    (index : nat) (l : list A) (seen seen' : gset (list Z)) (ys : list B) :
  (∀ i x s y s', f i x s = Ok (y, s') → P y) →
  compile_each f index l seen = Ok (ys, seen') → Forall P ys.
Proof.
  intros Hf. revert index seen ys. induction l as [|x l IH]; intros index seen ys; cbn.
  { intros [= <- <-]. constructor. }
  destruct (f index x seen) as [[y s]|] eqn:Hy; cbn; [|done].
  destruct (compile_each f (S index) l s) as [[ys' s']|] eqn:Hys; cbn; [|done].
  intros [= <- <-]. constructor; eauto.
Qed.

Lemma compile_rules_ok declared ns label seen base ys seen' :
  compile_rules declared ns label seen base = Ok (ys, seen') → Forall rule_ok ys.
Proof.
  apply compile_each_Forall. intros i r s y s'. unfold compile_rule, check_channel.
  destruct (claim_id _ _ _); cbn [result_bind]; [|done].
  destruct (compile_predicate _ _) as [p|]; cbn [result_bind]; [|done].
  case_bool_decide as Hc; cbn [result_bind]; [|done].
  destruct (parse_range _ _); cbn [result_bind]; [|done].
  intros [= <- <-]. exact Hc.
Qed.

Lemma compile_providers_ok index sets seen acc provs seen' :
  map_Forall (λ _ p, Forall rule_ok (cp_rules p)) acc →
  compile_providers index sets seen acc = Ok (provs, seen') →
  map_Forall (λ _ p, Forall rule_ok (cp_rules p)) provs.
Proof.
  revert index seen acc. induction sets as [|s sets IH]; intros index seen acc Hacc; cbn.
  { by intros [= <- <-]. }
  destruct (acc !! _); [done|].
  destruct (compile_provider index s seen) as [[c s1]|] eqn:Hc; cbn [result_bind]; [|done].
  apply IH. apply map_Forall_insert_2; [|done].
  revert Hc. unfold compile_provider.
  destruct (compile_vocabulary _ _ _) as [[v s2]|]; cbn [result_bind]; [|done].
  destruct (compile_chrome _ _ _ _) as [[ch s3]|]; cbn [result_bind]; [|done].
  destruct (compile_rules _ _ _ _ _) as [[ru s4]|] eqn:Hr; cbn [result_bind]; [|done].
  intros [= <- <-]. by eapply compile_rules_ok.
Qed.

Lemma compile_rules_are_ok file c : compile file = Ok c → rules_ok c.
Proof.
  unfold compile, rules_ok. case_if; [done|].
  destruct (compile_vocabulary _ _ _) as [[v s1]|]; cbn [result_bind]; [|done].
  destruct (compile_chrome _ _ _ _) as [[ch s2]|]; cbn [result_bind]; [|done].
  destruct (compile_rules _ _ _ _ _) as [[ru s3]|] eqn:Hru; cbn [result_bind]; [|done].
  destruct (compile_providers _ _ _ _) as [[pr s4]|] eqn:Hpr; cbn [result_bind]; [|done].
  intros [= <-]. cbn. split; [by eapply compile_rules_ok|].
  eapply compile_providers_ok; [|exact Hpr]. apply map_Forall_empty.
Qed.

(** Invariants of single entries survive a merge when [keep] respects them. *)
Lemma merge_by_id_Forall {A} (id_of : A → str) keep (P : A → Prop) base overlay :
  (∀ x y, P y → P (keep x y)) → Forall P base → Forall P overlay →
  Forall P (merge_by_id id_of keep base overlay).
Proof.
  intros Hkeep Hbase Hover. unfold merge_by_id. revert base Hbase.
  induction Hover as [|x overlay Hx Hover IH]; intros base Hbase; cbn; [done|].
  apply IH. clear IH. induction Hbase as [|y base Hy Hbase IH]; cbn; [by constructor|].
  case_if; constructor; auto.
Qed.

(** Laying an override over the providers touches each provider once, so the
    order the source's hash map is walked in is irrelevant. *)
Lemma merge_providers_lookup base overlay p :
  map_fold merge_one_provider base overlay !! p =
  union_with (λ b o, Some (merge_provider b o)) (base !! p) (overlay !! p).
Proof.
  revert p. apply (map_fold_weak_ind (λ r m, ∀ p,
    r !! p = union_with (λ b o, Some (merge_provider b o)) (base !! p) (m !! p))).
  - intros p. rewrite lookup_empty. by destruct (base !! p).
  - intros q o m r Hq IH p. unfold merge_one_provider.
    pose proof (IH q) as IHq. rewrite Hq in IHq.
    assert (r !! q = base !! q) as Hrq by (rewrite IHq; by destruct (base !! q)).
    rewrite Hrq.
    destruct (decide (p = q)) as [->|Hne].
    + rewrite lookup_insert_eq. destruct (base !! q); by rewrite lookup_insert_eq.
    + rewrite (lookup_insert_ne m) by done.
      destruct (base !! q); rewrite lookup_insert_ne by done; apply IH.
Qed.

Lemma merge_over_ok base overlay : rules_ok base → rules_ok overlay → rules_ok (merge_over base overlay).
Proof.
  intros [Hb Hbp] [Ho Hop]. split; cbn.
  - by apply merge_by_id_Forall.
  - intros p c Hc. rewrite merge_providers_lookup in Hc.
    destruct (compiled_providers base !! p) as [b|] eqn:Hbase;
      destruct (compiled_providers overlay !! p) as [o|] eqn:Hover; cbn in Hc; simplify_eq.
    + apply merge_by_id_Forall; [done|by eapply Hbp|by eapply Hop].
    + by eapply Hbp.
    + by eapply Hop.
Qed.

Lemma resolved_rule_in `{UnicodeCase} c provider version r :
  r ∈ res_rules (resolve c provider version) ↔
  ∃ rule, r = resolved_rule rule ∧ rule ∈ selected_rules c provider version.
Proof.
  unfold resolve. cbn [res_rules]. rewrite list_elem_of_fmap.
  split; intros (rule & -> & Hin); exists rule; (split; [done|]); revert Hin; by rewrite sort_by_perm.
Qed.

Lemma selected_rules_ok c provider version :
  rules_ok c → Forall rule_ok (selected_rules c provider version).
Proof.
  intros [Hc Hp]. apply Forall_forall. intros r Hr. unfold selected_rules in Hr.
  rewrite list_elem_of_In in Hr. apply filter_In in Hr as [Hr _].
  rewrite <-list_elem_of_In, elem_of_app in Hr. destruct Hr as [Hr|Hr].
  - by eapply Forall_forall in Hc.
  - destruct (compiled_providers c !! provider) as [p|] eqn:Hprov; cbn in Hr.
    + apply Hp in Hprov. by eapply Forall_forall in Hprov.
    + by apply elem_of_nil in Hr.
Qed.

(** No rule the classifier ever evaluates reads evidence other than its
    channel's: in the rules resolved, for any provider and version, from a
    bundled file with an override laid over it, every rule's channel is the
    one its predicate reads. *)
Theorem resolved_rules_match_channels `{UnicodeCase} file overlay base over provider version r :
  compile file = Ok base → compile overlay = Ok over →
  r ∈ res_rules (resolve (merge_over base over) provider version) →
  rr_channel r = required_channel (rr_predicate r).
Proof.
  intros Hb Ho (rule & -> & Hin)%resolved_rule_in.
  assert (rules_ok (merge_over base over)) as Hok
    by (apply merge_over_ok; by eapply compile_rules_are_ok).
  apply (selected_rules_ok _ provider version) in Hok.
  rewrite Forall_forall in Hok. exact (Hok rule Hin).
Qed.

(** ** The order rules are tried in *)

Lemma rule_key_le_spec a b :
  rule_key_le a b = true ↔
  Channel_index (cr_channel a) < Channel_index (cr_channel b) ∨
  Channel_index (cr_channel a) = Channel_index (cr_channel b) ∧
  ((cr_priority a < cr_priority b)%Z ∨ cr_priority a = cr_priority b ∧ (cr_order a ≤ cr_order b)%Z).
Proof.
  unfold rule_key_le.
  destruct (Nat.compare_spec (Channel_index (cr_channel a)) (Channel_index (cr_channel b)));
    destruct (Z.compare_spec (cr_priority a) (cr_priority b));
    rewrite ?Z.leb_le; split; intros; try done; lia.
Qed.

Lemma rule_key_le_total a b : rule_key_le a b = true ∨ rule_key_le b a = true.
Proof. rewrite !rule_key_le_spec. lia. Qed.
Lemma rule_key_le_trans a b c :
  rule_key_le a b = true → rule_key_le b c = true → rule_key_le a c = true.
Proof. rewrite !rule_key_le_spec. lia. Qed.

(** The classifier tries exactly the rules of the file that the provider
    and version select, each as often as it is declared, ordered by channel
    (grid before title before progress), then priority, then file order; rules
    that tie on all three keep their order. *)
Theorem resolved_rules_ordered `{UnicodeCase} c provider version :
  ∃ sel, res_rules (resolve c provider version) = map resolved_rule sel ∧
    sel ≡ₚ selected_rules c provider version ∧
    StronglySorted (λ a b, rule_key_le a b = true) sel ∧
    ∀ x, filter (λ y, rule_key_le x y && rule_key_le y x = true) sel =
         filter (λ y, rule_key_le x y && rule_key_le y x = true)
                (selected_rules c provider version).
Proof.
  exists (sort_by rule_key_le (selected_rules c provider version)). split_and!.
  - done.
  - apply sort_by_perm.
  - apply sort_by_sorted; [apply rule_key_le_total|apply rule_key_le_trans].
  - intros x. apply sort_by_stable; [apply rule_key_le_total|apply rule_key_le_trans].
Qed.

(** A one-rule file per provider, for the concrete instances. *)
Definition sample_rule (id : str) : Rule :=
  mkRule id Busy Grid None 100 (AnyLine (LContains (lit "esc to interrupt"))).
Definition sample_provider (p : AgentProvider) (rules : list Rule) : ProviderRuleSet :=
  mkProviderRuleSet p None default_vocabulary [] rules None None.
Definition sample_file (sets : list ProviderRuleSet) : RuleFile :=
  mkRuleFile 1 (mkCommonRules default_vocabulary [] []) sets.

#[local] Instance ascii_case : UnicodeCase := λ c, [to_ascii_lowercase c].

Definition compile_default (file : RuleFile) : CompiledRules :=
  match compile file with Ok c => c | Err _ => mkCompiledRules [] [] [] ∅ end.

Definition bundled_sample : RuleFile :=
  sample_file [sample_provider Claude []; sample_provider Codex [sample_rule (lit "bundled")]].
Definition override_sample : RuleFile :=
  sample_file [sample_provider Codex [sample_rule (lit "appended")]].

Lemma resolved_rules_match_channels_witness :
  ∃ r, r ∈ res_rules (resolve (merge_over (compile_default bundled_sample)
                                           (compile_default override_sample)) Codex None) ∧
       rr_channel r = required_channel (rr_predicate r).
Proof.
  exists (resolved_rule (mkCompiledRule (lit "bundled") Busy Grid NsProvider
    (mkRange [] (lit "*")) 100 20000 (CAnyLine (MContains (lit "esc to interrupt"))))).
  assert (resolved_rule (mkCompiledRule (lit "bundled") Busy Grid NsProvider
    (mkRange [] (lit "*")) 100 20000 (CAnyLine (MContains (lit "esc to interrupt"))))
    ∈ res_rules (resolve (merge_over (compile_default bundled_sample)
                                      (compile_default override_sample)) Codex None)) as Hin.
  { apply resolved_rule_in. eexists. split; [reflexivity|].
    vm_compute. apply elem_of_cons. left. reflexivity. }
  split; [exact Hin|].
  apply (resolved_rules_match_channels bundled_sample override_sample
           (compile_default bundled_sample) (compile_default override_sample) Codex None).
  - vm_compute. reflexivity.
  - vm_compute. reflexivity.
  - exact Hin.
Defined.

(** ** Overriding by id *)

Section merge_lemmas.
Context {A : Type} (id_of : A → str) (keep : A → A → A)
        (keep_id : ∀ x y, id_of (keep x y) = id_of y).

Definition find_id (id : str) (l : list A) : option A :=
  find_first (λ x, str_eqb (id_of x) id) l.

Lemma find_id_cons id x l :
  find_id id (x :: l) = if decide (id_of x = id) then Some x else find_id id l.
Proof.
  unfold find_id, str_eqb. cbn. case_decide as Hx.
  - by rewrite bool_decide_eq_true_2.
  - by rewrite bool_decide_eq_false_2.
Qed.

Lemma find_id_None id l : id ∉ map id_of l → find_id id l = None.
Proof.
  induction l as [|x l IH]; [done|]. cbn [map]. rewrite not_elem_of_cons. intros [??].
  rewrite find_id_cons, decide_False by done. by apply IH.
Qed.

Lemma replace_or_push_find id base e :
  find_id id (replace_or_push id_of keep base e) =
  if decide (id_of e = id)
  then Some (match find_id id base with Some b => keep b e | None => e end)
  else find_id id base.
Proof using keep_id.
  induction base as [|x base IH]; cbn [replace_or_push].
  { rewrite find_id_cons. by case_decide. }
  unfold str_eqb. case_bool_decide as Hx.
  - rewrite !find_id_cons, keep_id, Hx. by case_decide.
  - rewrite !find_id_cons, IH. repeat case_decide; congruence.
Qed.

Lemma replace_or_push_ids base e :
  map id_of (replace_or_push id_of keep base e) =
  if decide (id_of e ∈ map id_of base) then map id_of base else map id_of base ++ [id_of e].
Proof using keep_id.
  induction base as [|x base IH]; [done|]. cbn [replace_or_push map].
  unfold str_eqb. case_bool_decide as Hx.
  - cbn [map]. rewrite keep_id, Hx, decide_True by (by left). done.
  - cbn [map]. rewrite IH. destruct (decide (id_of e ∈ map id_of base)).
    + rewrite decide_True by (by right). done.
    + rewrite decide_False; [done|]. rewrite not_elem_of_cons. auto.
Qed.

Lemma merge_by_id_find id base overlay :
  NoDup (map id_of overlay) →
  find_id id (merge_by_id id_of keep base overlay) =
  match find_id id overlay with
  | Some o => Some (match find_id id base with Some b => keep b o | None => o end)
  | None => find_id id base
  end.
Proof using keep_id.
  revert base. induction overlay as [|e overlay IH]; intros base Hnd; [done|].
  cbn [map] in Hnd. apply NoDup_cons in Hnd as [He Hnd].
  change (merge_by_id id_of keep base (e :: overlay))
    with (merge_by_id id_of keep (replace_or_push id_of keep base e) overlay).
  rewrite IH, replace_or_push_find, find_id_cons by done.
  case_decide as Hid; [subst id|done]. by rewrite find_id_None.
Qed.

Lemma merge_by_id_ids base overlay :
  NoDup (map id_of overlay) →
  map id_of (merge_by_id id_of keep base overlay) =
  map id_of base ++ filter (λ i, i ∉ map id_of base) (map id_of overlay).
Proof using keep_id.
  revert base. induction overlay as [|e overlay IH]; intros base Hnd.
  { cbn. by rewrite app_nil_r. }
  cbn [map] in Hnd |- *. apply NoDup_cons in Hnd as [He Hnd].
  change (merge_by_id id_of keep base (e :: overlay))
    with (merge_by_id id_of keep (replace_or_push id_of keep base e) overlay).
  rewrite IH, replace_or_push_ids, filter_cons by done.
  destruct (decide (id_of e ∈ map id_of base)) as [Hin|Hin].
  - by rewrite decide_False by tauto.
  - rewrite decide_True by done. rewrite <-app_assoc. cbn [app]. do 2 f_equal.
    apply list_filter_ext_in. intros i Hi. rewrite elem_of_app, list_elem_of_singleton.
    naive_solver.
Qed.
End merge_lemmas.

(** An override file replaces by id and appends the rest: when its ids are
    distinct (which compiling it guarantees) the merged rules have the base's
    ids in the base's order followed by the new ids in the overlay's; a rule
    the overlay names is the overlay's, but with the order of the rule it
    replaces; a rule it does not name is untouched. *)
Theorem override_replaces_by_id base overlay :
  NoDup (map cr_id overlay) →
  map cr_id (merge_rules base overlay) =
    map cr_id base ++ filter (λ i, i ∉ map cr_id base) (map cr_id overlay) ∧
  ∀ id, find_id cr_id id (merge_rules base overlay) =
    match find_id cr_id id overlay with
    | Some o => Some (match find_id cr_id id base with Some b => keep_order b o | None => o end)
    | None => find_id cr_id id base
    end.
Proof. intros Hnd. split; [by apply merge_by_id_ids|]. intros id. by apply merge_by_id_find. Qed.

Definition sample_compiled (id : str) (order : Z) : CompiledRule :=
  mkCompiledRule id Busy Grid NsProvider (mkRange [] (lit "*")) 100 order
    (CAnyLine (MContains (lit "x"))).

Lemma override_replaces_by_id_witness :
  map cr_id (merge_rules [sample_compiled (lit "a") 0; sample_compiled (lit "b") 1]
                         [sample_compiled (lit "c") 0; sample_compiled (lit "b") 1])
  = [lit "a"; lit "b"; lit "c"].
Proof.
  rewrite (proj1 (override_replaces_by_id
    [sample_compiled (lit "a") 0; sample_compiled (lit "b") 1]
    [sample_compiled (lit "c") 0; sample_compiled (lit "b") 1]
    ltac:(apply (bool_decide_unpack _); vm_compute; exact I))).
  vm_compute. reflexivity.
Defined.

(** A rule an override appends is not tried last.  Rules of equal channel
    and priority are ordered by the position of their provider in the file
    they came from, so when the override lists the provider earlier than the
    bundled file does, its appended rule is tried before the bundled rules it
    was appended to, although the merged list has it after them. *)
Theorem appended_override_rule_tried_first :
  let base := compile_default bundled_sample in
  let merged := merge_over base (compile_default override_sample) in
  is_ok (compile bundled_sample) = true ∧ is_ok (compile override_sample) = true ∧
  map cr_id (from_option cp_rules [] (compiled_providers merged !! Codex))
    = [lit "bundled"; lit "appended"] ∧
  map rr_id (res_rules (resolve merged Codex None)) = [lit "appended"; lit "bundled"].
Proof. vm_compute. done. Qed.
