(* ===== verification/Matching.v ===== *)
(** * Matching primitives ([crates/daemon/src/detection/classify.rs])

    The line matchers, the chrome test and the composer landmarks the
    classifier is built from.  Lines are strings of scalar values; the one
    function that works on bytes, [contains_ascii_case_insensitive], is written
    on the UTF-8 encoding, as the source is. *)

From S2P Require Import Prelude RustStd Utf8 Protocol Schema CliVersion Rules.
Local Open Scope Z_scope.

Definition WAITING_PROMPT_MAX_CHARS : nat := 240.
Definition WAITING_PROMPT_MAX_LINES : nat := 3.

(** ** Primitives on lines *)

Definition contains_ascii_case_insensitive (haystack needle_lowercase : str) : bool :=
  if bool_decide (needle_lowercase = []) then true
  else
    let haystack := utf8 haystack in
    let needle := utf8 needle_lowercase in
    if bool_decide (length haystack < length needle)%nat then false
    else
      existsb
        (λ window, forallb (λ '(lhs, rhs), to_ascii_lowercase lhs =? rhs)
                           (zip window needle))
        (windows (length needle) haystack).

Definition contains_any (line : str) (needles_lowercase : list str) : bool :=
  existsb (contains_ascii_case_insensitive line) needles_lowercase.

Definition starts_with_any (line : str) (prefixes : list str) : bool :=
  let trimmed := trim_start line in
  existsb (λ prefix, str_starts_with trimmed prefix) prefixes.

Definition contains_glyph (glyphs : list char) (c : char) : bool := bool_decide (c ∈ glyphs).

Definition starts_with_glyph (line : str) (glyphs : list char) : bool :=
  match trim_start line with
  | [] => false
  | character :: _ => contains_glyph glyphs character
  end.

Definition starts_with_glyph_word (line : str) (glyphs : list char) : bool :=
  match trim_start line with
  | [] => false
  | first :: rest =>
      contains_glyph glyphs first &&
      match rest with [] => false | next :: _ => is_whitespace next end
  end.

Definition all_characters_in (line : str) (glyphs : list char) : bool :=
  if bool_decide (glyphs = []) then false
  else
    let trimmed := trim line in
    negb (bool_decide (trimmed = [])) &&
    forallb (λ character, (character =? 32) || contains_glyph glyphs character) trimmed.

Definition prompt_remainder (line : str) (prompts : list char) : option str :=
  match trim_start line with
  | [] => None
  | first :: remainder =>
      if contains_glyph prompts first then Some (trim remainder) else None
  end.

Definition last_non_empty_line (lines : list str) : str :=
  default [] (find_first (λ line, negb (bool_decide (line = []))) (reverse lines)).

Definition starts_numbered_option (text : str) : bool :=
  let digit_count := length (take_while is_ascii_digit text) in
  bool_decide (0 < digit_count)%nat &&
  match drop digit_count text with
  | [] => false
  | character :: _ => (character =? 46) || (character =? 41)
  end.

Fixpoint matches_line (m : Matcher) (line : str) (vocabulary : ResolvedVocabulary) : bool :=
  match m with
  | MContains needle => contains_ascii_case_insensitive line needle
  | MContainsAll needles => forallb (contains_ascii_case_insensitive line) needles
  | MEquals value => str_eqb (trim line) value
  | MStartsWith value => str_starts_with (trim line) value
  | MContainsAny set => contains_any line (rs_values_lower (get vocabulary set))
  | MContainsAllOf set =>
      let values := rs_values_lower (get vocabulary set) in
      negb (bool_decide (values = [])) &&
      forallb (contains_ascii_case_insensitive line) values
  | MStartsWithAny set => starts_with_any line (rs_values (get vocabulary set))
  | MStartsWithGlyph set => starts_with_glyph line (rs_glyphs (get vocabulary set))
  | MStartsWithGlyphWord set => starts_with_glyph_word line (rs_glyphs (get vocabulary set))
  | MAllCharactersIn set => all_characters_in line (rs_glyphs (get vocabulary set))
  | MAnyOf matchers => existsb (λ inner, matches_line inner line vocabulary) matchers
  | MAllOf matchers => forallb (λ inner, matches_line inner line vocabulary) matchers
  | MNot inner => negb (matches_line inner line vocabulary)
  end.

(** ** Chrome and the composer *)

Definition chrome_matches (line : str) (rules : ResolvedRules) (only : option Namespace) : bool :=
  let trimmed := trim line in
  if bool_decide (trimmed = []) then true
  else
    existsb (λ '(ns, matcher), matches_line matcher trimmed (vocabulary_for rules ns))
      (List.filter (λ '(ns, _), match only with None => true | Some wanted => bool_decide (ns = wanted) end)
         (res_chrome rules)).

Definition is_chrome (line : str) (rules : ResolvedRules) : bool := chrome_matches line rules None.

Definition is_provider_chrome (line : str) (rules : ResolvedRules) : bool :=
  chrome_matches line rules (Some NsProvider).

Definition is_divider (line : str) (rules : ResolvedRules) : bool :=
  all_characters_in line (rs_glyphs (get (res_common rules) DividerGlyphs)).

Definition line_is_selected_menu_option (line : str) (rules : ResolvedRules) : bool :=
  let carets := rs_glyphs (get (res_common rules) MenuCaretGlyphs) in
  match prompt_remainder line carets with
  | Some remainder => starts_numbered_option remainder
  | None => false
  end.

(** The slice up to the first element that satisfies [p]. *)
Definition before_first {A} (p : A → bool) (l : list A) : list A :=
  match position p l with Some border => take border l | None => l end.

Definition composer_box_tail (below : list str) (rules : ResolvedRules) : list str :=
  let borders := rs_glyphs (get (res_vocabulary rules) DividerGlyphs) in
  if bool_decide (borders = []) then below
  else before_first (λ line, all_characters_in line borders) below.

Definition composer_index (lines : list str) (rules : ResolvedRules) : option nat :=
  let prompts := rs_glyphs (get (res_vocabulary rules) ComposerPrompts) in
  if bool_decide (prompts = []) then None
  else rposition (λ line, starts_with_glyph line prompts &&
                          negb (line_is_selected_menu_option line rules)) lines.

Definition composer_text (line : str) (rules : ResolvedRules) : str :=
  default [] (prompt_remainder line (rs_glyphs (get (res_vocabulary rules) ComposerPrompts))).

(** ** Snippets *)

Definition ELLIPSIS : char := 8230.

Definition bound_waiting_prompt (value : str) : option str :=
  let collapsed := join [32] (split_whitespace value) in
  if bool_decide (collapsed = []) then None
  else if bool_decide (length collapsed ≤ WAITING_PROMPT_MAX_CHARS)%nat then Some collapsed
  else Some (take (WAITING_PROMPT_MAX_CHARS - 1) collapsed ++ [ELLIPSIS]).

(** ** Byte search is character search *)

(** The reference: some run of characters of the line, lowered in ASCII, is the
    needle. *)
Definition contains_ci (line needle : str) : Prop :=
  ∃ pre mid post, line = pre ++ mid ++ post ∧ map to_ascii_lowercase mid = needle.

Lemma forallb_zip_lower window needle :
  length window = length needle →
  forallb (λ '(lhs, rhs), to_ascii_lowercase lhs =? rhs) (zip window needle) = true ↔
  map to_ascii_lowercase window = needle.
Proof.
  revert needle. induction window as [|w window IH]; intros [|n needle] Hlen; cbn in *; try done.
  rewrite andb_true_iff, Z.eqb_eq, IH by lia. split; [intros [-> ->]; done|by intros [= -> ->]].
Qed.

Lemma utf8_nil_inv s : valid_str s → utf8 s = [] → s = [].
Proof.
  destruct 1 as [|c s Hc Hs]; [done|]. rewrite utf8_cons.
  intros [Hnil _]%app_eq_nil. by apply encode_utf8_nonempty in Hnil.
Qed.

Lemma contains_window haystack needle :
  valid_str needle → needle ≠ [] →
  contains_ascii_case_insensitive haystack needle = true ↔
  ∃ pre mid post, utf8 haystack = pre ++ mid ++ post ∧
                  map to_ascii_lowercase mid = utf8 needle.
Proof.
  intros Hv Hne. unfold contains_ascii_case_insensitive.
  rewrite bool_decide_eq_false_2 by done.
  assert (0 < length (utf8 needle))%nat as Hpos.
  { destruct (utf8 needle) eqn:Hn; [|cbn; lia]. by apply utf8_nil_inv in Hn. }
  split.
  - case_bool_decide; [done|]. intros (w & Hin & Hw)%existsb_exists.
    rewrite <-list_elem_of_In in Hin. apply list_elem_of_lookup in Hin as [i Hi].
    rewrite windows_lookup in Hi by done. case_decide as Hle; [|done].
    injection Hi as Hi. exists (take i (utf8 haystack)), w, (drop (i + length (utf8 needle)) (utf8 haystack)).
    split.
    + rewrite <-Hi, <-drop_drop, take_drop, take_drop. done.
    + apply forallb_zip_lower; [|done]. rewrite <-Hi, length_take, length_drop. lia.
  - intros (pre & mid & post & Heq & Hmid).
    assert (length mid = length (utf8 needle)) as Hlen by (by rewrite <-Hmid, length_map).
    rewrite bool_decide_eq_false_2 by (rewrite Heq, !length_app; lia).
    apply existsb_exists. exists mid. split; [|by apply forallb_zip_lower].
    rewrite <-list_elem_of_In. apply (list_elem_of_lookup_2 _ (length pre)).
    rewrite windows_lookup by done. rewrite Heq, !length_app, decide_True by lia.
    rewrite drop_app_length, <-Hlen, take_app_length. done.
Qed.

(** The matcher every marker, footer and dialog rule rests on.  The source
    slides a window of bytes over the UTF-8 encoding of the line and lowers
    each byte; on every pair of valid strings this finds the needle exactly
    when some run of characters of the line, lowered in ASCII, is the needle.
    A multi-byte glyph is never matched in its middle and no byte of one is
    mistaken for a letter. *)
Theorem byte_window_search_is_character_search haystack needle :
  valid_str haystack → valid_str needle →
  contains_ascii_case_insensitive haystack needle = true ↔ contains_ci haystack needle.
Proof.
  intros Hh Hn. destruct (decide (needle = [])) as [->|Hne].
  { unfold contains_ascii_case_insensitive. split; [|done]. intros _. by exists [], [], haystack. }
  rewrite contains_window by done. split.
  - intros (pre & mid & post & Heq & Hmid).
    apply (f_equal (map to_ascii_lowercase)) in Heq.
    rewrite !map_app, Hmid, utf8_lowercase in Heq by done.
    apply utf8_infix in Heq as (p & q & Hs & _ & _); auto using valid_lowercase.
    apply map_eq_app in Hs as (p' & rest & -> & _ & Hrest).
    apply map_eq_app in Hrest as (mid' & q' & -> & Hm & _).
    by exists p', mid', q'.
  - intros (pre & mid & post & -> & <-).
    unfold valid_str in *. rewrite !Forall_app in Hh. destruct Hh as (_ & Hmid & _).
    exists (utf8 pre), (utf8 mid), (utf8 post).
    rewrite !utf8_app. split; [done|]. by apply utf8_lowercase.
Qed.

Lemma byte_window_search_is_character_search_witness :
  contains_ci ([10043; 32] ++ lit "Esc to INTERRUPT") (lit "esc to interrupt").
Proof.
  apply (byte_window_search_is_character_search
           ([10043; 32] ++ lit "Esc to INTERRUPT") (lit "esc to interrupt")).
  - apply (bool_decide_unpack _). vm_compute. exact I.
  - apply (bool_decide_unpack _). vm_compute. exact I.
  - vm_compute. reflexivity.
Defined.

(** ** Snippets are one bounded line *)

Definition is_word (w : str) : Prop := w ≠ [] ∧ Forall (λ c, is_whitespace c = false) w.

Lemma split_ws_aux_words cur s :
  Forall (λ c, is_whitespace c = false) cur → Forall is_word (split_ws_aux cur s).
Proof.
  revert cur. induction s as [|c s IH]; intros cur Hcur; cbn [split_ws_aux].
  { destruct cur; [constructor|]. constructor; [by split|constructor]. }
  destruct (is_whitespace c) eqn:Hc.
  - destruct cur; [by apply IH|]. constructor; [by split|]. by apply IH.
  - apply IH. apply Forall_app. auto.
Qed.

Lemma split_whitespace_words s : Forall is_word (split_whitespace s).
Proof. by apply split_ws_aux_words. Qed.

Lemma split_ws_aux_nil cur s :
  split_ws_aux cur s = [] ↔ cur = [] ∧ Forall (λ c, is_whitespace c = true) s.
Proof.
  revert cur. induction s as [|c s IH]; intros cur; cbn [split_ws_aux].
  { destruct cur; naive_solver. }
  rewrite Forall_cons. destruct (is_whitespace c) eqn:Hc.
  - destruct cur; [rewrite IH; naive_solver|naive_solver].
  - rewrite IH. split; [intros [?%app_eq_nil _]|]; naive_solver.
Qed.

Lemma split_ws_aux_word cur w rest :
  Forall (λ c, is_whitespace c = false) w →
  split_ws_aux cur (w ++ rest) = split_ws_aux (cur ++ w) rest.
Proof.
  intros Hw. revert cur. induction Hw as [|c w Hc Hw IH]; intros cur; cbn [app].
  { by rewrite app_nil_r. }
  cbn [split_ws_aux]. by rewrite Hc, IH, <-app_assoc.
Qed.

Lemma split_ws_aux_space cur rest :
  cur ≠ [] → split_ws_aux cur (32 :: rest) = cur :: split_ws_aux [] rest.
Proof. by destruct cur. Qed.

Lemma join_cons2 (x y : str) l : join [32] (x :: y :: l) = x ++ 32 :: join [32] (y :: l).
Proof. done. Qed.

(** Joining words with single spaces and splitting again gives the words. *)
Lemma split_join ws : Forall is_word ws → split_whitespace (join [32] ws) = ws.
Proof.
  unfold split_whitespace. induction 1 as [|w ws [Hne Hw] Hws IH]; [done|].
  destruct ws as [|w' ws].
  - cbn [join]. rewrite <-(app_nil_r w) at 1. rewrite split_ws_aux_word by done. cbn. by destruct w.
  - rewrite join_cons2, split_ws_aux_word by done.
    by rewrite (split_ws_aux_space w), IH.
Qed.

Lemma join_whitespace ws c :
  Forall is_word ws → c ∈ join [32] ws → is_whitespace c = true → c = 32.
Proof.
  induction 1 as [|w ws [Hne Hw] Hws IH]; intros Hin Hc; [by apply elem_of_nil in Hin|].
  assert (c ∈ w → c = 32) as Hbad.
  { intros Hcw. rewrite Forall_forall in Hw. apply Hw in Hcw. congruence. }
  destruct ws as [|w' ws]; cbn [join] in Hin; [auto|].
  apply elem_of_app in Hin as [|Hin]; [auto|]. apply elem_of_cons in Hin as [|]; auto.
Qed.

Lemma join_nil ws : Forall is_word ws → join [32] ws = [] → ws = [].
Proof.
  destruct 1 as [|w ws [Hne _] _]; [done|]. intros Hj. destruct ws; cbn [join] in Hj; [done|].
  by apply app_eq_nil in Hj as [? _].
Qed.

(** A published snippet is one readable line: never empty, at most 240
    characters, no whitespace but single spaces (so no line break survives);
    when the collapsed text fits it holds exactly the words of the rendered
    text in order, and otherwise it is cut to 239 characters and an ellipsis.
    There is no snippet exactly when the text is all whitespace. *)
Theorem snippet_is_one_bounded_line value :
  match bound_waiting_prompt value with
  | None => Forall (λ c, is_whitespace c = true) value
  | Some s =>
      (0 < length s ≤ WAITING_PROMPT_MAX_CHARS)%nat ∧
      (∀ c, c ∈ s → is_whitespace c = true → c = 32) ∧
      let collapsed := join [32] (split_whitespace value) in
      if bool_decide (length collapsed ≤ WAITING_PROMPT_MAX_CHARS)%nat
      then split_whitespace s = split_whitespace value
      else s = take 239 collapsed ++ [ELLIPSIS]
  end.
Proof.
  pose proof (split_whitespace_words value) as Hws. unfold bound_waiting_prompt. cbn zeta.
  case_bool_decide as Hnil.
  { apply join_nil in Hnil; [|done]. by apply split_ws_aux_nil in Hnil as [_ ?]. }
  assert (length (join [32] (split_whitespace value)) ≠ 0%nat) by (by intros ?%nil_length_inv).
  case_bool_decide as Hle.
  - split_and!; [lia|done| |by apply split_join].
    intros c. by apply join_whitespace.
  - unfold WAITING_PROMPT_MAX_CHARS in *. split_and!.
    + rewrite length_app, length_take. cbn [length]. lia.
    + rewrite length_app, length_take. cbn [length]. lia.
    + intros c [Hc|Hc]%elem_of_app.
      * apply list_elem_of_lookup in Hc as [i [Hc _]%lookup_take_Some].
        apply (join_whitespace _ c Hws). by eapply list_elem_of_lookup_2.
      * apply list_elem_of_singleton in Hc as ->. done.
    + done.
Qed.
