(* ===== verification/Classify.v ===== *)
(** * Classifying a rendered frame ([crates/daemon/src/detection/classify.rs])

    Everything here is a function of a resolved rule set and of the rendered
    evidence: the methods of [Classifier] after they have fetched their rules.
    The fetching, with its cache and its generations, is the registry's. *)

From S2P Require Import Prelude RustStd Protocol Schema CliVersion Rules Matching.
Local Open Scope Z_scope.

Inductive ComposerState := ComposerEmpty | SuggestionOnly | ComposerUnknown.

#[export] Instance ComposerState_eq_dec : EqDecision ComposerState.
Proof. solve_decision. Defined.

Definition proves_nothing_typed (s : ComposerState) : bool :=
  match s with ComposerEmpty | SuggestionOnly => true | ComposerUnknown => false end.

Record Evidence := mkEvidence {
  ev_lines : list str;
  ev_title : str;
  ev_progress : option ProgressState
}.

Record Verdict := mkVerdict {
  v_status : SessionStatus;
  v_rule_id : str;
  v_channel : Channel
}.

(** ** Structural predicates *)

Definition animated_in_flight_footer (trimmed : str) (vocabulary : ResolvedVocabulary) : bool :=
  (starts_with_glyph_word trimmed (rs_glyphs (get vocabulary SpinnerGlyphs)) ||
   starts_with_glyph_word trimmed (rs_glyphs (get vocabulary WorkingFooterGlyphs))) &&
  contains_any trimmed (rs_values_lower (get vocabulary InFlightMarkers)) &&
  negb (contains_any trimmed (rs_values_lower (get vocabulary DoneFooterMarkers))).

Definition active_subagent (lines : list str) (rules : ResolvedRules) : bool :=
  let parents := rs_values (get (res_vocabulary rules) SubagentParentPrefixes) in
  let tasks := rs_values (get (res_vocabulary rules) SubagentTaskPrefixes) in
  if bool_decide (parents = []) || bool_decide (tasks = []) then false
  else
    match rposition (λ line, starts_with_any line parents) lines with
    | None => false
    | Some parent_index =>
        let after_parent := drop (parent_index + 1) lines in
        existsb (λ line, starts_with_any line tasks) after_parent &&
        negb (existsb (λ line, starts_with_glyph line
                (rs_glyphs (get (res_vocabulary rules) ComposerPrompts))) after_parent)
    end.

Definition parked_composer (lines : list str) (rules : ResolvedRules) : bool :=
  match composer_index lines rules with
  | None => false
  | Some index =>
      let region_top :=
        default index (rposition (λ line, is_divider line rules) (take index lines)) in
      if bool_decide (region_top = 0%nat) then false
      else
        let below := drop (index + 1) lines in
        let above_status_bar := before_first (λ line, is_divider line rules) below in
        forallb (λ line, is_chrome line rules) above_status_bar
  end.

Definition composer_status_line (line : str) (vocabulary : ResolvedVocabulary) : bool :=
  let borders := rs_glyphs (get vocabulary BoxBorderGlyphs) in
  let separators := rs_values (get vocabulary ComposerStatusSeparators) in
  if bool_decide (borders = []) || bool_decide (separators = []) then false
  else
    match prompt_remainder line borders with
    | None => false
    | Some remainder => existsb (λ separator, str_contains remainder separator) separators
    end.

Definition worktree_path_index (lines : list str) (rules : ResolvedRules) : option nat :=
  let markers := rs_values (get (res_common rules) WorktreePathMarkers) in
  if bool_decide (markers = []) then None
  else rposition (λ line, existsb (λ marker, str_contains line marker) markers) lines.

Definition copilot_busy_above_path (lines : list str) (rules : ResolvedRules) : bool :=
  match worktree_path_index lines rules with
  | None => false
  | Some path_index =>
      bool_decide (0 < path_index)%nat &&
      contains_any (default [] (lines !! (path_index - 1)%nat))
        (rs_values_lower (get (res_vocabulary rules) BusyMarkers))
  end.

Definition copilot_idle_below_path (lines : list str) (rules : ResolvedRules) : bool :=
  match worktree_path_index lines rules with
  | None => false
  | Some path_index =>
      let prompts := rs_glyphs (get (res_vocabulary rules) IdlePromptGlyphs) in
      match find_map (λ line, prompt_remainder line prompts) (drop (path_index + 1) lines) with
      | Some remainder => bool_decide (remainder = [])
      | None => false
      end
  end.

Definition structural (name : str) (lines : list str) (rules : ResolvedRules) : bool :=
  if str_eqb name (lit "claude-working-footer") then
    existsb (λ line, animated_in_flight_footer (trim line) (res_vocabulary rules)) lines
  else if str_eqb name (lit "claude-active-subagent") then active_subagent lines rules
  else if str_eqb name (lit "claude-parked-composer") then parked_composer lines rules
  else if str_eqb name (lit "claude-selected-menu-option") then
    existsb (λ line, line_is_selected_menu_option line rules) lines
  else if str_eqb name (lit "opencode-composer-status") then
    existsb (λ line, composer_status_line line (res_vocabulary rules)) lines
  else if str_eqb name (lit "copilot-busy-above-path") then copilot_busy_above_path lines rules
  else if str_eqb name (lit "copilot-idle-composer-below-path") then
    copilot_idle_below_path lines rules
  else false.

(** ** Evaluating rules *)

(** The [match] in the body of [classify]'s loop. *)
Definition rule_matches (rules : ResolvedRules) (evidence : Evidence) (rule : ResolvedRule) : bool :=
  let vocabulary := vocabulary_for rules (rr_namespace rule) in
  let lines := ev_lines evidence in
  match rr_predicate rule with
  | CAnyLine matcher => existsb (λ line, matches_line matcher line vocabulary) lines
  | CAnyLineWrapped matcher =>
      existsb (λ line, matches_line matcher line vocabulary) lines ||
      existsb (λ pair, match pair with
                       | [first; second] => matches_line matcher (first ++ [32] ++ second) vocabulary
                       | _ => false
                       end) (windows 2 lines)
  | CLastNonEmptyLine matcher => matches_line matcher (last_non_empty_line lines) vocabulary
  | CText matcher =>
      negb (bool_decide (ev_title evidence = [])) &&
      matches_line matcher (ev_title evidence) vocabulary
  | CProgressState states =>
      match ev_progress evidence with
      | Some progress => bool_decide (progress ∈ states)
      | None => false
      end
  | CStructural name => structural name lines rules
  end.

Definition verdict_of (rule : ResolvedRule) : Verdict :=
  mkVerdict (rr_status rule) (rr_id rule) (rr_channel rule).

Definition classify (rules : ResolvedRules) (evidence : Evidence) : option Verdict :=
  find_map (λ rule, if rule_matches rules evidence rule then Some (verdict_of rule) else None)
    (res_rules rules).

Definition unclassified_footer (rules : ResolvedRules) (lines : list str) : option str :=
  let vocabulary := res_vocabulary rules in
  if ResolvedSet_is_empty (get vocabulary SpinnerGlyphs) then None
  else
    find_first (λ line,
        starts_with_glyph_word line (rs_glyphs (get vocabulary SpinnerGlyphs)) &&
        negb (animated_in_flight_footer line vocabulary) &&
        negb (contains_any line (rs_values_lower (get vocabulary DoneFooterMarkers))))
      (map trim lines).

(** ** The composer of a frame *)

Definition frame_is_busy_or_waiting (rules : ResolvedRules) (lines : list str) : bool :=
  match classify rules (mkEvidence lines [] None) with
  | Some verdict =>
      bool_decide (v_channel verdict = Grid) &&
      match v_status verdict with Busy | Waiting => true | Idle => false end
  | None => false
  end.

Definition composer_reading (rules : ResolvedRules) (lines : list str) : option (nat * str) :=
  if frame_is_busy_or_waiting rules lines then None
  else
    composer_index ← composer_index lines rules;
    if existsb (λ line, negb (is_chrome line rules))
         (composer_box_tail (drop (composer_index + 1) lines) rules)
    then None
    else Some (composer_index, composer_text (default [] (lines !! composer_index)) rules).

Definition composer_prompts (rules : ResolvedRules) : list char :=
  rs_glyphs (get (res_vocabulary rules) ComposerPrompts).

Definition composer_line (rules : ResolvedRules) (frame_lines status_lines : list str)
    : option str :=
  if frame_is_busy_or_waiting rules status_lines then None
  else
    index ← composer_index frame_lines rules;
    Some (composer_text (default [] (frame_lines !! index)) rules).

(** ** Waiting-prompt extraction *)

Definition line_is_permission_option (line : str) (rules : ResolvedRules) : bool :=
  let prompts := rs_glyphs (get (res_common rules) ComposerPrompts) in
  starts_numbered_option (trim_start (default line (prompt_remainder line prompts))).

(** The loop of [waiting_question_from_lines]. *)
Fixpoint question_loop (rules : ResolvedRules) (lines : list str) (question : list str)
    : list str :=
  match lines with
  | [] => question
  | line :: rest =>
      let trimmed := trim line in
      if bool_decide (trimmed = []) then
        if bool_decide (question = []) then question_loop rules rest question else question
      else if negb (bool_decide (question = [])) && line_is_permission_option trimmed rules
      then question
      else
        let question := question ++ [trimmed] in
        if ends_with_char trimmed 63 ||
           bool_decide (length question = WAITING_PROMPT_MAX_LINES)
        then question
        else question_loop rules rest question
  end.

Definition waiting_question_from_lines (lines : list str) (rules : ResolvedRules) : option str :=
  let markers := rs_values_lower (get (res_common rules) WaitingMarkers) in
  if bool_decide (markers = []) then None
  else
    let start :=
      match rposition (λ line, contains_any line markers) lines with
      | Some index => Some index
      | None =>
          rposition (λ pair, match pair with
                             | [first; second] => contains_any (first ++ [32] ++ second) markers
                             | _ => false
                             end) (windows 2 lines)
      end in
    start ← start;
    bound_waiting_prompt (join [32] (question_loop rules (drop start lines) [])).

(** The upward loops: collect at most three lines, from the bottom, skipping
    what [frame] rejects before the first line and stopping at it after.
    [stop] ends the loop without taking the line; [clean] is what is kept. *)
Fixpoint upward_loop (clean : str → str) (frame stop : str → bool) (lines : list str)
    (content : list str) : list str :=
  match lines with
  | [] => content
  | line :: rest =>
      let trimmed := clean line in
      if frame trimmed then
        if bool_decide (content = []) then upward_loop clean frame stop rest content else content
      else if stop trimmed then content
      else
        let content := content ++ [trimmed] in
        if bool_decide (length content = WAITING_PROMPT_MAX_LINES) then content
        else upward_loop clean frame stop rest content
  end.

Definition waiting_question_above_menu (lines : list str) (rules : ResolvedRules) : option str :=
  menu_index ← position (λ line, line_is_selected_menu_option line rules) lines;
  let question :=
    upward_loop trim
      (λ trimmed, bool_decide (trimmed = []) || is_divider trimmed rules)
      (λ trimmed, line_is_permission_option trimmed rules)
      (reverse (take menu_index lines)) [] in
  bound_waiting_prompt (join [32] (reverse question)).

(** [while start > 0 && starts_with_glyph(&lines[start - 1], borders)] *)
Fixpoint box_start (borders : list char) (lines : list str) (start : nat) : nat :=
  match start with
  | O => O
  | S before =>
      if starts_with_glyph (default [] (lines !! before)) borders
      then box_start borders lines before else start
  end.

Fixpoint boxed_question_loop (borders : list char) (lines : list str) (question : list str)
    : list str :=
  match lines with
  | [] => question
  | line :: rest =>
      match prompt_remainder line borders with
      | None => boxed_question_loop borders rest question
      | Some body =>
          if bool_decide (body = []) then boxed_question_loop borders rest question
          else
            let question := question ++ [body] in
            if bool_decide (length question = WAITING_PROMPT_MAX_LINES) then question
            else boxed_question_loop borders rest question
      end
  end.

Definition boxed_permission_question (lines : list str) (rules : ResolvedRules) : option str :=
  let borders := rs_glyphs (get (res_vocabulary rules) BoxBorderGlyphs) in
  let actions := rs_values_lower (get (res_vocabulary rules) PermissionActionMarkers) in
  if bool_decide (borders = []) || bool_decide (actions = []) then None
  else
    action_index ← rposition (λ line, forallb (contains_ascii_case_insensitive line) actions) lines;
    let start := box_start borders lines action_index in
    let question :=
      boxed_question_loop borders (drop start (take action_index lines)) [] in
    bound_waiting_prompt (join [32] question).

Definition boxed_transcript_tail (lines : list str) (rules : ResolvedRules) : option str :=
  let borders := rs_glyphs (get (res_vocabulary rules) BoxBorderGlyphs) in
  if bool_decide (borders = []) then None
  else
    composer_index ← position (λ line, starts_with_glyph line borders) lines;
    let block_art := rs_glyphs (get (res_vocabulary rules) BlockArtGlyphs) in
    let content :=
      upward_loop (λ line, trim_end (trim_end_matches block_art (trim line)))
        (λ trimmed, bool_decide (trimmed = []) || is_provider_chrome trimmed rules)
        (λ _, false)
        (reverse (take composer_index lines)) [] in
    bound_waiting_prompt (join [32] (reverse content)).

(** The last loop of [waiting_prompt_from_lines]: the chrome test reads the raw
    row, the snippet keeps it trimmed. *)
Fixpoint content_loop (rules : ResolvedRules) (lines : list str) (content : list str) : list str :=
  match lines with
  | [] => content
  | line :: rest =>
      if is_chrome line rules then
        if bool_decide (content = []) then content_loop rules rest content else content
      else
        let content := content ++ [trim line] in
        if bool_decide (length content = WAITING_PROMPT_MAX_LINES) then content
        else content_loop rules rest content
  end.

Definition waiting_prompt_from_lines (classification_lines frame_lines : list str)
    (rules : ResolvedRules) : option str :=
  let '(classification_transcript, frame_transcript) :=
    match composer_index frame_lines rules with
    | Some index =>
        (match composer_index classification_lines rules with
         | Some classification_composer => take classification_composer classification_lines
         | None => []
         end, take index frame_lines)
    | None => (classification_lines, frame_lines)
    end in
  match waiting_question_from_lines classification_transcript rules with
  | Some question => Some question
  | None =>
  match waiting_question_above_menu classification_transcript rules with
  | Some question => Some question
  | None =>
  match boxed_permission_question classification_transcript rules with
  | Some question => Some question
  | None =>
  match boxed_transcript_tail classification_transcript rules with
  | Some tail => Some tail
  | None =>
      bound_waiting_prompt (join [32] (reverse (content_loop rules (reverse frame_transcript) [])))
  end end end end.

(** ** First match wins, and the grid outranks every other channel *)

Lemma find_map_Some {A B} (f : A → option B) l y :
  find_map f l = Some y ↔
  ∃ i x, l !! i = Some x ∧ f x = Some y ∧ ∀ j z, (j < i)%nat → l !! j = Some z → f z = None.
Proof.
  induction l as [|x l IH]; cbn [find_map].
  { split; [done|]. by intros (i & x & ? & _). }
  destruct (f x) as [y'|] eqn:Hx.
  - split.
    + intros [= ->]. exists 0%nat, x. split_and!; [done..|]. lia.
    + intros ([|i] & x' & Hl & Hf & Hb); cbn in Hl; [congruence|].
      specialize (Hb 0%nat x ltac:(lia) eq_refl). congruence.
  - rewrite IH. split.
    + intros (i & x' & Hl & Hf & Hb). exists (S i), x'. split_and!; [done..|].
      intros [|j] z Hj Hz; cbn in Hz; [congruence|]. by apply (Hb j); [lia|].
    + intros ([|i] & x' & Hl & Hf & Hb); cbn in Hl; [congruence|].
      exists i, x'. split_and!; [done..|]. intros j z Hj Hz. apply (Hb (S j)); [lia|done].
Qed.

Lemma classify_Some rules ev v :
  classify rules ev = Some v ↔
  ∃ i rule, res_rules rules !! i = Some rule ∧ rule_matches rules ev rule = true ∧
    v = verdict_of rule ∧
    ∀ j r, (j < i)%nat → res_rules rules !! j = Some r → rule_matches rules ev r = false.
Proof.
  unfold classify. rewrite find_map_Some. split.
  - intros (i & rule & Hl & Hf & Hb). exists i, rule.
    destruct (rule_matches rules ev rule) eqn:Hm; [|done]. injection Hf as <-.
    split_and!; try done. intros j r Hj Hr. specialize (Hb j r Hj Hr).
    by destruct (rule_matches rules ev r).
  - intros (i & rule & Hl & Hm & -> & Hb). exists i, rule. rewrite Hm. split_and!; [done..|].
    intros j r Hj Hr. by rewrite (Hb j r Hj Hr).
Qed.

Lemma classify_None rules ev :
  classify rules ev = None ↔ ∀ r, r ∈ res_rules rules → rule_matches rules ev r = false.
Proof.
  unfold classify. induction (res_rules rules) as [|r l IH]; cbn [find_map].
  { split; [|done]. by intros _ r ?%elem_of_nil. }
  rewrite (all_false_cons (rule_matches rules ev)).
  destruct (rule_matches rules ev r) eqn:Hr; [|rewrite IH; tauto].
  split; [done|]. by intros [? _].
Qed.

Lemma sorted_lookup {A} (R : A → A → Prop) l i j x y :
  StronglySorted R l → (i < j)%nat → l !! i = Some x → l !! j = Some y → R x y.
Proof.
  intros Hs. revert i j. induction Hs as [|z l Hl IH Hz]; intros i j Hij Hx Hy; [done|].
  destruct i as [|i], j as [|j]; cbn in *; try lia.
  - injection Hx as ->. rewrite Forall_forall in Hz. apply Hz. by eapply list_elem_of_lookup_2.
  - apply (IH i j); [lia|done..].
Qed.

(** For every rule file, provider and version: if any rule of the selected
    rules matches the evidence then the frame gets a verdict, and the verdict
    is that of a matching rule whose channel comes no later, and within that
    channel whose declared priority is no lower ranked, than any matching
    rule's.  In particular a title or progress rule never decides a frame on
    which some grid rule matched. *)
Theorem verdict_is_best_ranked_match `{UnicodeCase} c provider version ev rule :
  let rules := resolve c provider version in
  rule ∈ selected_rules c provider version →
  rule_matches rules ev (resolved_rule rule) = true →
  ∃ best, best ∈ selected_rules c provider version ∧
    rule_matches rules ev (resolved_rule best) = true ∧
    classify rules ev = Some (verdict_of (resolved_rule best)) ∧
    (Channel_index (cr_channel best) < Channel_index (cr_channel rule) ∨
     cr_channel best = cr_channel rule ∧ (cr_priority best ≤ cr_priority rule)%Z)%nat.
Proof.
  intros rules Hin Hm.
  set (sel := sort_by rule_key_le (selected_rules c provider version)).
  assert (res_rules rules = map resolved_rule sel) as Hrules by done.
  assert (rule ∈ sel) as Hsel by (unfold sel; by rewrite sort_by_perm).
  destruct (classify rules ev) as [v|] eqn:Hv.
  2:{ rewrite classify_None in Hv. rewrite (Hv (resolved_rule rule)) in Hm; [done|].
      rewrite Hrules. apply list_elem_of_fmap. by exists rule. }
  apply classify_Some in Hv as (i & r & Hi & Hr & -> & Hbefore).
  rewrite Hrules in Hi. apply list_lookup_fmap_Some in Hi as (best & -> & Hi).
  exists best. split_and!; [|done..|].
  { assert (best ∈ sel) as Hb by (by eapply list_elem_of_lookup_2). revert Hb.
    unfold sel. by rewrite sort_by_perm. }
  apply list_elem_of_lookup in Hsel as [j Hj].
  destruct (decide (j < i)%nat) as [Hji|Hij].
  { rewrite (Hbefore j (resolved_rule rule)) in Hm; [done|done|].
    rewrite Hrules. apply list_lookup_fmap_Some. by exists rule. }
  assert (rule_key_le best rule = true) as Hle.
  { destruct (decide (i = j)) as [->|Hne].
    - replace best with rule by congruence. destruct (rule_key_le_total rule rule); done.
    - eapply (sorted_lookup (λ a b, rule_key_le a b = true) sel i j); [|lia|done|done].
      apply sort_by_sorted; [apply rule_key_le_total|apply rule_key_le_trans]. }
  apply rule_key_le_spec in Hle.
  assert (Channel_index (cr_channel best) = Channel_index (cr_channel rule) →
          cr_channel best = cr_channel rule) by (destruct (cr_channel best), (cr_channel rule); done).
  destruct Hle as [?|(? & [?|[? ?]])]; [left; lia|right; split; [auto|lia]..].
Qed.

Definition ranked_sample : RuleFile :=
  sample_file [sample_provider Claude
    [mkRule (lit "title") Idle Title None 1 (TextMatch (LContains (lit "ready")));
     mkRule (lit "grid") Busy Grid None 50 (AnyLine (LContains (lit "esc to interrupt")))]].

Lemma verdict_is_best_ranked_match_witness :
  ∃ best, classify (resolve (H := ascii_case) (compile_default ranked_sample) Claude None)
            (mkEvidence [lit "ESC to interrupt"] (lit "ready") None)
          = Some (verdict_of (resolved_rule best)) ∧ cr_channel best = Grid.
Proof.
  destruct (verdict_is_best_ranked_match (H := ascii_case) (compile_default ranked_sample)
              Claude None (mkEvidence [lit "ESC to interrupt"] (lit "ready") None)
              (mkCompiledRule (lit "grid") Busy Grid NsProvider (mkRange [] (lit "*")) 50 10001
                 (CAnyLine (MContains (lit "esc to interrupt")))))
    as (best & _ & _ & Hclass & Hrank).
  - vm_compute. apply elem_of_cons. right. apply elem_of_cons. left. reflexivity.
  - vm_compute. reflexivity.
  - exists best. split; [exact Hclass|]. cbn in Hrank. destruct Hrank as [Hlt|[Heq _]]; [lia|exact Heq].
Defined.

(** ** The parked composer *)

Lemma before_first_app {A} (p : A → bool) l x tail :
  p x = true → before_first p (l ++ x :: tail) = before_first p l.
Proof.
  intros Hx. unfold before_first. rewrite position_app. destruct (position p l) as [i|] eqn:Hi.
  - apply position_lt in Hi. by rewrite take_app_le by lia.
  - cbn. rewrite Hx. cbn. by rewrite Nat.add_0_r, take_app_length.
Qed.

Lemma before_first_forall {A} (p q : A → bool) l :
  forallb q (before_first p l) = true ↔
  ∀ j x, l !! j = Some x → (∀ k y, (k ≤ j)%nat → l !! k = Some y → p y = false) → q x = true.
Proof.
  unfold before_first. rewrite forallb_forall. setoid_rewrite <-list_elem_of_In. split.
  - intros Hq j x Hj Hk. apply Hq. destruct (position p l) as [i|] eqn:Hi.
    + apply position_Some in Hi as [(y & Hy & Hp) _].
      destruct (decide (i ≤ j)%nat) as [Hij|Hij]; [rewrite (Hk i y) in Hp by done; done|].
      apply (list_elem_of_lookup_2 _ j). rewrite lookup_take_lt by lia. done.
    + by eapply list_elem_of_lookup_2.
  - intros Hall x Hx. destruct (position p l) as [i|] eqn:Hi.
    + apply list_elem_of_lookup in Hx as [j [Hj Hlt]%lookup_take_Some].
      apply position_Some in Hi as [_ Hb].
      apply (Hall j x Hj). intros k y Hk. apply Hb. lia.
    + apply list_elem_of_lookup in Hx as [j Hj]. apply (Hall j x Hj).
      intros k y _ Hy. rewrite position_None in Hi. apply Hi. by eapply list_elem_of_lookup_2.
Qed.

(** The idle verdict is never given to a frame that has not read above the
    composer box.  A frame counts as parked exactly when it shows a composer
    that is not the top row, some row above the box was read (if the top row
    is a divider, the box opens with another one further down), and every row
    below the composer, up to the box's closing divider, is chrome. *)
Theorem parked_composer_exact lines rules :
  parked_composer lines rules = true ↔
  ∃ i, composer_index lines rules = Some i ∧ (0 < i)%nat ∧
    (∀ top, lines !! 0%nat = Some top → is_divider top rules = true →
       ∃ d row, (0 < d < i)%nat ∧ lines !! d = Some row ∧ is_divider row rules = true) ∧
    (∀ j row, lines !! (i + 1 + j)%nat = Some row →
       (∀ k y, (k ≤ j)%nat → lines !! (i + 1 + k)%nat = Some y → is_divider y rules = false) →
       is_chrome row rules = true).
Proof.
  unfold parked_composer. destruct (composer_index lines rules) as [i|].
  2:{ split; [done|]. by intros (i & ? & _). }
  cbn zeta.
  assert (default i (rposition (λ line, is_divider line rules) (take i lines)) ≠ 0%nat ↔
    (0 < i)%nat ∧ ∀ top, lines !! 0%nat = Some top → is_divider top rules = true →
       ∃ d row, (0 < d < i)%nat ∧ lines !! d = Some row ∧ is_divider row rules = true) as Htop.
  { destruct (rposition _ (take i lines)) as [d|] eqn:Hd; cbn [default id from_option].
    - apply rposition_Some in Hd as [(row & Hrow & Hdiv) Hafter].
      apply lookup_take_Some in Hrow as [Hrow Hlt]. split.
      + intros Hne. split; [lia|]. intros top _ _. exists d, row. split_and!; [lia..|done|done].
      + intros [_ Hex] ->. destruct (Hex row Hrow Hdiv) as (d' & row' & [??] & Hrow' & Hdiv').
        rewrite (Hafter d' row') in Hdiv'; [done|lia|]. by rewrite lookup_take_lt.
    - rewrite rposition_None in Hd. split; [|lia]. intros Hne. split; [lia|].
      intros top Ht Hdiv. rewrite Hd in Hdiv; [done|].
      apply (list_elem_of_lookup_2 _ 0). by rewrite lookup_take_lt by lia. }
  assert (forallb (λ line, is_chrome line rules)
     (before_first (λ line, is_divider line rules) (drop (i + 1) lines)) = true ↔
    (∀ j row, lines !! (i + 1 + j)%nat = Some row →
       (∀ k y, (k ≤ j)%nat → lines !! (i + 1 + k)%nat = Some y → is_divider y rules = false) →
       is_chrome row rules = true)) as Hbelow.
  { rewrite before_first_forall. by setoid_rewrite lookup_drop. }
  case_bool_decide as Hzero.
  - split; [done|]. intros (i' & [= <-] & Hi & Ht & _). destruct (proj2 Htop); done.
  - rewrite Hbelow. apply Htop in Hzero. split.
    + intros Hb. exists i. tauto.
    + by intros (i' & [= <-] & _ & _ & Hb).
Qed.

Lemma composer_index_app lines tail rules :
  composer_index tail rules = None →
  composer_index (lines ++ tail) rules = composer_index lines rules.
Proof.
  unfold composer_index. case_bool_decide; [done|]. intros Hn.
  by rewrite rposition_app, Hn.
Qed.

(** What the provider paints below the box's closing divider, a status-bar
    row nobody has measured included, changes neither the parked verdict nor,
    for any rows below the composer, the snippet: rows that do not themselves
    draw a composer can be appended under one without effect. *)
Theorem rows_below_composer_are_inert lines frame border tail rules i j :
  composer_index lines rules = Some i → composer_index frame rules = Some j →
  composer_index (border :: tail) rules = None →
  (is_divider border rules = true →
   parked_composer (lines ++ border :: tail) rules = parked_composer lines rules) ∧
  waiting_prompt_from_lines (lines ++ border :: tail) (frame ++ border :: tail) rules =
  waiting_prompt_from_lines lines frame rules.
Proof.
  intros Hi Hj Hn.
  assert (∀ l k, composer_index l rules = Some k → (k < length l)%nat) as Hlt.
  { intros l k. unfold composer_index. case_bool_decide; [done|]. apply rposition_lt. }
  pose proof (Hlt _ _ Hi). pose proof (Hlt _ _ Hj). split.
  - intros Hb. unfold parked_composer. rewrite composer_index_app, Hi by done. cbn zeta.
    rewrite take_app_le by lia. rewrite drop_app_le by lia. by rewrite before_first_app.
  - unfold waiting_prompt_from_lines. rewrite !composer_index_app, Hi, Hj by done.
    by rewrite !take_app_le by lia.
Qed.

(** Claude's composer, its box borders and an unmeasured status row. *)
Definition claude_sample : ResolvedRules :=
  mkResolvedRules Claude None
    (push_glyphs (H := ascii_case) default_resolved DividerGlyphs [9472])
    (push_glyphs (H := ascii_case) default_resolved ComposerPrompts [10095])
    [] [] 8 8 [].

Lemma rows_below_composer_are_inert_witness :
  parked_composer ([lit "done"; [9472]; [10095]] ++ [[9472]; lit "unmeasured badge"]) claude_sample
  = true ∧
  waiting_prompt_from_lines ([lit "done"; [9472]; [10095]] ++ [[9472]; lit "unmeasured badge"])
    ([lit "done"; [9472]; [10095]] ++ [[9472]; lit "unmeasured badge"]) claude_sample
  = waiting_prompt_from_lines [lit "done"; [9472]; [10095]] [lit "done"; [9472]; [10095]]
      claude_sample.
Proof.
  destruct (rows_below_composer_are_inert [lit "done"; [9472]; [10095]]
              [lit "done"; [9472]; [10095]] [9472] [lit "unmeasured badge"] claude_sample 2 2)
    as [Hparked Hprompt].
  - vm_compute. reflexivity.
  - vm_compute. reflexivity.
  - vm_compute. reflexivity.
  - split; [|exact Hprompt].
    rewrite Hparked; vm_compute; reflexivity.
Defined.
