(* ===== verification/Registry.v ===== *)
(** * The active rules and a session's view of them
    ([crates/daemon/src/detection/mod.rs], [Classifier] of [classify.rs])

    The active rule set sits behind a lock and a generation counter that live
    sessions poll.  Publishing and reading are two accesses each, so they are
    modelled as two steps each, with every interleaving of any number of
    publishers against a session's classifier.  The atomics are sequentially
    consistent here, which the acquire/release pairs of the source give for
    this pattern (each side touches the lock and the counter in opposite
    orders). *)

From S2P Require Import Prelude RustStd Protocol Schema CliVersion Rules Matching Classify.
Local Open Scope Z_scope.

(** ** Shared state and its two-step accesses *)

Record Shared := mkShared {
  active : CompiledRules;
  generation : Z
}.

(** [publish]: replace the rules, then bump the generation. *)
Inductive PublishPc := PubStart (rules : CompiledRules) | PubWritten | PubDone.

Definition publish_step (sh : Shared) (pc : PublishPc) : Shared * PublishPc :=
  match pc with
  | PubStart rules => (mkShared rules (generation sh), PubWritten)
  | PubWritten => (mkShared (active sh) (u64_add (generation sh) 1), PubDone)
  | PubDone => (sh, PubDone)
  end.

(** [current_rules]: read the generation, then the rules. *)
Inductive CurrentPc :=
  | CurStart
  | CurGeneration (generation : Z)
  | CurDone (rules : CompiledRules) (generation : Z).

Definition current_rules_step (sh : Shared) (pc : CurrentPc) : CurrentPc :=
  match pc with
  | CurStart => CurGeneration (generation sh)
  | CurGeneration g => CurDone (active sh) g
  | CurDone rules g => CurDone rules g
  end.

(** ** Loading the override file *)

(** What the override path holds, as the file system and serde report it. *)
Inductive OverrideFile :=
  | Missing
  | Unreadable
  | Undecodable
  | Decoded (file : RuleFile).

Inductive LoadOutcome :=
  | BundledOnly
  | Merged
  | RefusedUnreadable
  | RefusedUndecodable
  | RefusedInvalid (error : RuleError).

(** [load]: the outcome, and the rules handed to [publish] if any. *)
Definition load (bundled : CompiledRules) (file : OverrideFile)
    : LoadOutcome * option CompiledRules :=
  match file with
  | Missing => (BundledOnly, Some bundled)
  | Unreadable => (RefusedUnreadable, None)
  | Undecodable => (RefusedUndecodable, None)
  | Decoded file =>
      match compile file with
      | Ok overlay => (Merged, Some (merge_over bundled overlay))
      | Err error => (RefusedInvalid error, None)
      end
  end.

(** One poll of the watcher: compare the stat with the last one. *)
Record WatchState := mkWatchState {
  exists_ : bool;
  modified : option Z;
  len : Z
}.

#[export] Instance WatchState_eq_dec : EqDecision WatchState.
Proof. solve_decision. Defined.

Definition watch_poll (state next : WatchState) : WatchState * bool :=
  if bool_decide (next = state) then (state, false) else (next, true).

(** ** A session's classifier *)

Record Classifier := mkClassifier {
  cl_provider : option AgentProvider;
  cl_version : option CliVersion;
  cl_resolved : option ResolvedRules;
  cl_generation : Z
}.

Definition Classifier_none : Classifier := mkClassifier None None None 0.

(** [PartialEq] on [Option<CliVersion>], which [set_version] tests. *)
Definition version_option_eq (a b : option CliVersion) : bool :=
  match a, b with
  | None, None => true
  | Some x, Some y => version_eq x y
  | _, _ => false
  end.

Section classifier.
Context `{UnicodeCase}.

(** [resolve] from where it has fetched the rules. *)
Definition store_resolved (cl : Classifier) (provider : AgentProvider)
    (rules : CompiledRules) (g : Z) : Classifier :=
  mkClassifier (cl_provider cl) (cl_version cl)
    (Some (resolve rules provider (cl_version cl))) g.

(** [resolve] with nobody publishing meanwhile. *)
Definition Classifier_resolve (sh : Shared) (cl : Classifier) : Classifier :=
  match cl_provider cl with
  | None => mkClassifier (cl_provider cl) (cl_version cl) None (generation sh)
  | Some provider =>
      match current_rules_step sh (current_rules_step sh CurStart) with
      | CurDone rules g => store_resolved cl provider rules g
      | _ => cl
      end
  end.

Definition with_version (sh : Shared) (provider : option AgentProvider)
    (version : option CliVersion) : Classifier :=
  Classifier_resolve sh (mkClassifier provider version None 0).

Definition set_version (sh : Shared) (cl : Classifier) (version : option CliVersion)
    : Classifier * bool :=
  if version_option_eq (cl_version cl) version then (cl, false)
  else
    (Classifier_resolve sh
       (mkClassifier (cl_provider cl) version (cl_resolved cl) (cl_generation cl)), true).

(** The test of [refresh]. *)
Definition needs_refresh (sh : Shared) (cl : Classifier) : bool :=
  bool_decide (cl_provider cl ≠ None) && negb (cl_generation cl =? generation sh).

Definition refresh (sh : Shared) (cl : Classifier) : Classifier :=
  if needs_refresh sh cl then Classifier_resolve sh cl else cl.

Definition Classifier_rules (sh : Shared) (cl : Classifier)
    : Classifier * option ResolvedRules :=
  let cl := refresh sh cl in (cl, cl_resolved cl).

Definition status_rows (sh : Shared) (cl : Classifier) : Classifier * nat :=
  let '(cl, rules) := Classifier_rules sh cl in
  (cl, from_option res_status_rows DEFAULT_STATUS_ROWS rules).

Definition waiting_prompt_rows (sh : Shared) (cl : Classifier) : Classifier * nat :=
  let '(cl, rules) := Classifier_rules sh cl in
  (cl, from_option res_waiting_prompt_rows DEFAULT_STATUS_ROWS rules).

Definition Classifier_classify (sh : Shared) (cl : Classifier) (ev : Evidence)
    : Classifier * option Verdict :=
  let '(cl, rules) := Classifier_rules sh cl in
  (cl, rules ← rules; classify rules ev).

Definition Classifier_waiting_prompt (sh : Shared) (cl : Classifier)
    (classification_lines frame_lines : list str) : Classifier * option str :=
  let '(cl, rules) := Classifier_rules sh cl in
  (cl, rules ← rules; waiting_prompt_from_lines classification_lines frame_lines rules).

(** ** Interleavings *)

(** [completed] counts publications that have bumped the generation: history
    for the proofs, read by no step. *)
Record World := mkWorld {
  shared : Shared;
  publishers : list PublishPc;
  classifier : Classifier;
  fetching : option CurrentPc;
  completed : nat
}.

Inductive step : World → World → Prop :=
  (** A reload, or an install, starts. *)
  | step_publish_start rules sh pubs cl f n :
      step (mkWorld sh pubs cl f n) (mkWorld sh (pubs ++ [PubStart rules]) cl f n)
  (** Some publisher makes its next access. *)
  | step_publish i pc pc' sh sh' pubs cl f n :
      pubs !! i = Some pc → publish_step sh pc = (sh', pc') →
      step (mkWorld sh pubs cl f n)
           (mkWorld sh' (<[i := pc']> pubs) cl f
              (match pc with PubWritten => S n | _ => n end))
  (** The session notices a new generation and starts to resolve. *)
  | step_refresh sh pubs cl n :
      needs_refresh sh cl = true →
      step (mkWorld sh pubs cl None n) (mkWorld sh pubs cl (Some CurStart) n)
  (** A version probe answers. *)
  | step_set_version version sh pubs cl n :
      version_option_eq (cl_version cl) version = false →
      step (mkWorld sh pubs cl None n)
           (mkWorld sh pubs
              (mkClassifier (cl_provider cl) version (cl_resolved cl) (cl_generation cl))
              (Some CurStart) n)
  (** The fetch in progress makes its next access. *)
  | step_fetch sh pubs cl pc n :
      step (mkWorld sh pubs cl (Some pc) n)
           (mkWorld sh pubs cl (Some (current_rules_step sh pc)) n)
  (** The fetch is over: the view is stored. *)
  | step_store provider rules g sh pubs cl n :
      cl_provider cl = Some provider →
      step (mkWorld sh pubs cl (Some (CurDone rules g)) n)
           (mkWorld sh pubs (store_resolved cl provider rules g) None n).

(** A session of [provider] is being created over the rules [initial]. *)
Definition initial_world (initial : CompiledRules) (provider : AgentProvider)
    (version : option CliVersion) : World :=
  mkWorld (mkShared initial 1) [] (mkClassifier (Some provider) version None 0)
    (Some CurStart) 0.

(** No publisher is between its two accesses. *)
Definition quiescent (w : World) : Prop := PubWritten ∉ publishers w.

(** *** The invariant *)

Definition written (pubs : list PublishPc) : nat :=
  length (List.filter (λ pc, match pc with PubWritten => true | _ => false end) pubs).

(** The [k]-th generation. *)
Definition nth_generation (k : nat) : Z := (1 + Z.of_nat k) mod (U64_MAX + 1).

(** A view fetched under generation [b] is of rules written no earlier. *)
Definition fetched (hist : list CompiledRules) (bumps : nat) (rules : CompiledRules) (g : Z)
    : Prop :=
  ∃ b h, g = nth_generation b ∧ (b ≤ bumps)%nat ∧ (b ≤ h)%nat ∧ hist !! h = Some rules.

Definition fetch_ok (hist : list CompiledRules) (bumps : nat) (pc : CurrentPc) : Prop :=
  match pc with
  | CurStart => True
  | CurGeneration g => ∃ b, g = nth_generation b ∧ (b ≤ bumps)%nat
  | CurDone rules g => fetched hist bumps rules g
  end.

Definition view_ok (hist : list CompiledRules) (bumps : nat) (cl : Classifier) : Prop :=
  ∃ provider rules, cl_provider cl = Some provider ∧
    cl_resolved cl = Some (resolve rules provider (cl_version cl)) ∧
    fetched hist bumps rules (cl_generation cl).

Definition world_inv (provider : AgentProvider) (w : World) : Prop :=
  ∃ hist,
    last hist = Some (active (shared w)) ∧
    generation (shared w) = nth_generation (completed w) ∧
    length hist = S (completed w + written (publishers w)) ∧
    cl_provider (classifier w) = Some provider ∧
    match fetching w with
    | Some pc => fetch_ok hist (completed w) pc
    | None => view_ok hist (completed w) (classifier w)
    end.

Lemma written_concat a b : written (a ++ b) = (written a + written b)%nat.
Proof. unfold written. by rewrite List.filter_app, length_app. Qed.

Lemma written_insert pubs i pc pc' :
  pubs !! i = Some pc →
  (written (<[i := pc']> pubs) + match pc with PubWritten => 1 | _ => 0 end =
   written pubs + match pc' with PubWritten => 1 | _ => 0 end)%nat.
Proof.
  intros Hi. rewrite insert_take_drop by (by eapply lookup_lt_Some).
  assert (written pubs = written (take i pubs) + written (pc :: drop (S i) pubs))%nat as ->
    by (by rewrite <-written_concat, take_drop_middle).
  rewrite written_concat. unfold written. destruct pc, pc'; cbn; lia.
Qed.

Lemma written_app pubs rules : written (pubs ++ [PubStart rules]) = written pubs.
Proof. rewrite written_concat. cbn. lia. Qed.

Lemma fetched_mono hist hist' bumps bumps' rules g :
  (bumps ≤ bumps')%nat → (∃ ext, hist' = hist ++ ext) →
  fetched hist bumps rules g → fetched hist' bumps' rules g.
Proof.
  intros Hb [ext ->] (b & h & ? & ? & ? & Hh). exists b, h. split_and!; [done|lia|done|].
  by apply lookup_app_l_Some.
Qed.

Lemma fetch_ok_mono hist hist' bumps bumps' pc :
  (bumps ≤ bumps')%nat → (∃ ext, hist' = hist ++ ext) →
  fetch_ok hist bumps pc → fetch_ok hist' bumps' pc.
Proof.
  intros Hb Hext. destruct pc; cbn; [done| |by apply fetched_mono].
  intros (b & ? & ?). exists b. split; [done|lia].
Qed.

Lemma view_ok_mono hist hist' bumps bumps' cl :
  (bumps ≤ bumps')%nat → (∃ ext, hist' = hist ++ ext) →
  view_ok hist bumps cl → view_ok hist' bumps' cl.
Proof.
  intros Hb Hext (p & r & ? & ? & ?). exists p, r. split_and!; [done..|].
  by eapply fetched_mono.
Qed.

Lemma nth_generation_succ k : u64_add (nth_generation k) 1 = nth_generation (S k).
Proof.
  unfold u64_add, nth_generation. rewrite Zplus_mod_idemp_l. f_equal. lia.
Qed.

(** Extending the history is how a publisher's steps preserve the view. *)
Lemma session_ok_mono hist hist' bumps bumps' (f : option CurrentPc) cl :
  (bumps ≤ bumps')%nat → (∃ ext, hist' = hist ++ ext) →
  match f with Some pc => fetch_ok hist bumps pc | None => view_ok hist bumps cl end →
  match f with Some pc => fetch_ok hist' bumps' pc | None => view_ok hist' bumps' cl end.
Proof. intros ??. destruct f; [by apply fetch_ok_mono|by apply view_ok_mono]. Qed.

Lemma publish_preserves provider i pc pc' sh sh' pubs cl f n :
  pubs !! i = Some pc → publish_step sh pc = (sh', pc') →
  world_inv provider (mkWorld sh pubs cl f n) →
  world_inv provider (mkWorld sh' (<[i := pc']> pubs) cl f
                        (match pc with PubWritten => S n | _ => n end)).
Proof.
  intros Hi Hpub (hist & Hlast & Hgen & Hlen & Hp & Hs).
  pose proof (written_insert pubs i pc pc' Hi) as Hw.
  destruct pc as [rules| |]; cbn [publish_step] in Hpub; injection Hpub as <- <-;
    cbn [shared publishers classifier fetching completed active generation] in *.
  - exists (hist ++ [rules]). split_and!.
    + apply last_snoc.
    + done.
    + rewrite length_app. cbn [length completed publishers]. lia.
    + done.
    + eapply session_ok_mono; [| |exact Hs]; [done|by eexists].
  - exists hist. cbn [shared publishers classifier fetching completed active generation].
    split_and!; [done|by rewrite Hgen, nth_generation_succ|lia|done|].
    eapply session_ok_mono; [| |exact Hs]; [lia|]. exists []. by rewrite app_nil_r.
  - exists hist. cbn [shared publishers classifier fetching completed active generation].
    split_and!; [done|done|lia|done|done].
Qed.

Lemma step_preserves provider w w' :
  world_inv provider w → step w w' → world_inv provider w'.
Proof.
  intros Hinv Hstep. destruct Hstep as
    [rules sh pubs cl f n | i pc pc' sh sh' pubs cl f n Hi Hpub | sh pubs cl n Hneed
    | version sh pubs cl n Hv | sh pubs cl pc n | p rules g sh pubs cl n Hpr].
  - destruct Hinv as (hist & ?). exists hist. unfold world_inv in *.
    cbn [shared publishers classifier fetching completed] in *. by rewrite written_app.
  - by eapply publish_preserves.
  - destruct Hinv as (hist & ? & ? & ? & ? & ?). exists hist. by split_and!.
  - destruct Hinv as (hist & ? & ? & ? & ? & ?). exists hist. by split_and!.
  - destruct Hinv as (hist & Hlast & Hgen & Hlen & Hp & Hf). exists hist.
    cbn [shared publishers classifier fetching completed] in *. split_and!; try done.
    destruct pc as [|g|rules g]; cbn in *; [by exists n| |done].
    destruct Hf as (b & ? & ?). exists b, (pred (length hist)).
    split_and!; [done|done|lia|]. by rewrite <-last_lookup.
  - destruct Hinv as (hist & ? & ? & ? & Hp & Hf). exists hist. cbn in *. split_and!; try done.
    exists p, rules. by split_and!.
Qed.

Lemma reachable_inv initial provider version w :
  reachable step (initial_world initial provider version) w → world_inv provider w.
Proof.
  apply reachable_invariant; [|apply step_preserves].
  exists [initial]. by split_and!.
Qed.

Lemma written_zero pubs : PubWritten ∉ pubs → written pubs = 0%nat.
Proof.
  intros Hn. unfold written. induction pubs as [|pc pubs IH]; [done|].
  apply not_elem_of_cons in Hn as [? Hn]. cbn. destruct pc; [by apply IH|done|by apply IH].
Qed.

Lemma nth_generation_inj a b :
  Z.of_nat a < U64_MAX → Z.of_nat b < U64_MAX →
  nth_generation a = nth_generation b → a = b.
Proof.
  unfold nth_generation. intros ??. rewrite !Z.mod_small by (unfold U64_MAX in *; lia). lia.
Qed.

(** C40: Hot reload never leaves a session on stale rules.  Take any
    interleaving of any number of rule publications (each writes the rules
    and then bumps the generation) with a session that is created, probed
    for its version and refreshed at arbitrary points (each fetch reads the
    generation and then the rules).  In every state reached with the session
    at rest and no publication half-way, the rules the session uses next,
    cached or refetched, are exactly the active rules resolved for its
    provider and version, as long as the 64-bit counter has not wrapped. *)
Theorem hot_reload_reaches_sessions initial provider version w :
  reachable step (initial_world initial provider version) w →
  fetching w = None → quiescent w → Z.of_nat (completed w) < U64_MAX →
  (Classifier_rules (shared w) (classifier w)).2 =
  Some (resolve (active (shared w)) provider (cl_version (classifier w))).
Proof.
  intros Hreach Hidle Hq Hwrap. apply reachable_inv in Hreach as (hist & Hlast & Hgen & Hlen & Hp & Hv).
  rewrite Hidle in Hv. destruct Hv as (p & rules & Hp' & Hres & b & h & Hg & Hb & Hbh & Hh).
  rewrite Hp' in Hp. injection Hp as ->.
  unfold Classifier_rules, refresh. cbn zeta. cbn [snd].
  destruct (needs_refresh _ _) eqn:Hneed.
  - unfold Classifier_resolve. rewrite Hp'. done.
  - rewrite Hres. do 2 f_equal. unfold needs_refresh in Hneed.
    rewrite bool_decide_eq_true_2 in Hneed by (by rewrite Hp').
    apply negb_false_iff, Z.eqb_eq in Hneed.
    rewrite Hg, Hgen in Hneed. apply nth_generation_inj in Hneed; [|lia..]. subst b.
    rewrite (written_zero _ Hq) in Hlen.
    assert (h = pred (length hist)) as ->.
    { apply lookup_lt_Some in Hh. lia. }
    rewrite last_lookup in Hlast. congruence.
Qed.
End classifier.

(** A broken override costs a machine nothing: a missing one publishes the
    bundled rules, one that decodes and validates publishes the bundled rules
    with it laid over them, and one that cannot be read, decoded or validated
    publishes nothing, so the rules in force stay. *)
Theorem load_publishes_exactly_when_valid bundled file :
  (file = Missing → load bundled file = (BundledOnly, Some bundled)) ∧
  (∀ f overlay, file = Decoded f → compile f = Ok overlay →
     load bundled file = (Merged, Some (merge_over bundled overlay))) ∧
  ((load bundled file).2 ≠ None ↔ file = Missing ∨ ∃ f, file = Decoded f ∧ valid_file f).
Proof.
  split_and!; [by intros ->|by intros f overlay -> Hc; cbn; rewrite Hc|].
  destruct file as [| | |f]; cbn; [naive_solver..|].
  pose proof (compile_ok_iff_valid f) as Hv.
  destruct (compile f) as [overlay|error] eqn:Hc; cbn in *.
  - split; [|done]. intros _. right. exists f. split; [done|by apply Hv].
  - split; [done|]. intros [?|(f' & [= <-] & Hf%Hv)]; done.
Qed.

(** A session created over empty rules, then a reload of the sample file. *)
Definition empty_rules : CompiledRules := mkCompiledRules [] [] [] ∅.
Definition reloaded_world : World :=
  mkWorld (mkShared (compile_default ranked_sample) 2) [PubDone]
    (mkClassifier (Some Claude) None (Some (resolve (H := ascii_case) empty_rules Claude None)) 1)
    None 1.

Lemma reloaded_world_reachable :
  reachable (step (H := ascii_case)) (initial_world empty_rules Claude None) reloaded_world.
Proof.
  eapply reachable_step; [eapply reachable_step; [eapply reachable_step; [eapply reachable_step;
    [eapply reachable_step; [eapply reachable_step; [apply reachable_init|]|]|]|]|]|].
  - apply step_fetch.
  - apply step_fetch.
  - apply (step_store Claude). reflexivity.
  - apply (step_publish_start (compile_default ranked_sample)).
  - eapply (step_publish 0); reflexivity.
  - apply (step_publish 0 PubWritten PubDone
             (mkShared (compile_default ranked_sample) 1)
             (mkShared (compile_default ranked_sample) 2)); reflexivity.
Qed.

Lemma hot_reload_reaches_sessions_witness :
  (Classifier_rules (H := ascii_case) (shared reloaded_world) (classifier reloaded_world)).2 =
  Some (resolve (H := ascii_case) (compile_default ranked_sample) Claude None).
Proof.
  apply (hot_reload_reaches_sessions (H := ascii_case) empty_rules Claude None reloaded_world).
  - apply reloaded_world_reachable.
  - reflexivity.
  - unfold quiescent, reloaded_world. cbn. rewrite list_elem_of_singleton. discriminate.
  - vm_compute. reflexivity.
Defined.
