(* ===== verification/Session.v ===== *)
(** * Session input: messages, the attestation ledger, the PTY writer
    ([crates/daemon/src/session.rs], the writer of [crates/daemon/src/output.rs])

    [Session] is the part of [SessionHandle] that input goes through: the
    channel to the writer, the composer-attestation ledger behind its lock, the
    mirrored-output counter and the bracketed-paste flag.  [Writer] is the
    state of the select loop that drains the channel into the PTY. *)

From S2P Require Import Prelude RustStd Protocol DraftBytes Classify.
Local Open Scope Z_scope.

(** ** The bytes of one logical message *)

Definition BRACKETED_PASTE_BEGIN : list byte := [27; 91; 50; 48; 48; 126].
Definition BRACKETED_PASTE_END : list byte := [27; 91; 50; 48; 49; 126].
Definition PASTE_FRAMING_MIN_LEN : nat := 256.
Definition LOGICAL_INPUT_SUBMIT_DELAY_MS : Z := 150.

Definition CR : byte := 13.
Definition LF : byte := 10.

Definition logical_message_bytes (data : list byte) (bracketed_paste_mode : bool) : list byte :=
  if bool_decide (data = []) then [CR]
  else
    let has_newline := existsb (λ b, (b =? CR) || (b =? LF)) data in
    if negb bracketed_paste_mode ||
       (negb has_newline && bool_decide (length data < PASTE_FRAMING_MIN_LEN)%nat)
    then data ++ [CR]
    else BRACKETED_PASTE_BEGIN ++ data ++ BRACKETED_PASTE_END ++ [CR].

(** ** Pending input *)

Inductive PendingInputKind := Raw | Logical.

#[export] Instance PendingInputKind_eq_dec : EqDecision PendingInputKind.
Proof. solve_decision. Defined.

Inductive RawInputKind := Draft | Submission | Control.

(** [written] is the acknowledgement channel: the caller's ticket. *)
Record PendingInput := mkInput {
  data : list byte;
  kind : PendingInputKind;
  declared_draft : bool;
  written : option nat
}.

Definition raw (d : list byte) (w : option nat) : PendingInput := mkInput d Raw false w.
Definition raw_draft (d : list byte) (w : option nat) : PendingInput := mkInput d Raw true w.
Definition logical (d : list byte) (w : option nat) (bracketed_paste_mode : bool) : PendingInput :=
  mkInput (logical_message_bytes d bracketed_paste_mode) Logical false w.

Inductive InputQueueError := Closed | CoordinationUnavailable.

(** ** The ledger *)

Record InputCoordinationState := mkLedger {
  raw_input_draft_active : bool;
  raw_input_draft_state_known : bool;
  typed_draft_bytes : option Z;
  declared_draft_writes_enqueued : Z;
  declared_draft_writes_completed : Z;
  mirrored_chunks_at_last_draft_write : Z
}.

(** The fields of [SessionRecord] the ledger is built from. *)
Definition from_record (draft_active state_known : bool) (typed : option Z)
    : InputCoordinationState :=
  mkLedger draft_active state_known typed 0 0 0.

Definition ledger_attestation (l : InputCoordinationState) : ComposerAttestation :=
  if negb (raw_input_draft_state_known l) then Unknown
  else match typed_draft_bytes l with
       | Some n => if n =? 0 then NotTyped else Typed
       | None => Unknown
       end.

Definition ledger_unresolved (l : InputCoordinationState) : bool :=
  negb (raw_input_draft_state_known l) || raw_input_draft_active l.

(** What each declared kind does to the ledger, and the input it routes. *)
Definition route_raw (l : InputCoordinationState) (d : list byte) (k : RawInputKind)
    (w : option nat) : InputCoordinationState * PendingInput :=
  match k with
  | Submission =>
      (mkLedger false true (Some 0) (declared_draft_writes_enqueued l)
         (declared_draft_writes_completed l) (mirrored_chunks_at_last_draft_write l), raw d w)
  | Draft =>
      let content_bytes := draft_content_byte_count d in
      if content_bytes =? 0 then (l, raw d w)
      else
        (mkLedger true true
           ((λ typed, u64_saturating_add typed content_bytes) <$> typed_draft_bytes l)
           (u64_add (declared_draft_writes_enqueued l) 1)
           (declared_draft_writes_completed l) (mirrored_chunks_at_last_draft_write l),
         raw_draft d w)
  | Control => (l, raw d w)
  end.

(** ** The session's input side *)

Record Session := mkSession {
  channel : list PendingInput;
  receiver_open : bool;
  ledger : InputCoordinationState;
  poisoned : bool;
  mirrored_chunks : Z;
  bracketed_paste_mode : bool
}.

(** [SessionHandle::new]: messages a predecessor was still holding are
    submitted first. *)
Definition SessionHandle_new (l : InputCoordinationState) (paste_mode : bool)
    (pending_logical_inputs : list (list byte)) : Session :=
  mkSession (map (λ d, logical d None paste_mode) pending_logical_inputs)
    true l false 0 paste_mode.

(** [input_tx.send]: refused when the receiver is gone. *)
Definition send (s : Session) (input : PendingInput) : result Session InputQueueError :=
  if receiver_open s then
    Ok (mkSession (channel s ++ [input]) true (ledger s) (poisoned s) (mirrored_chunks s)
          (bracketed_paste_mode s))
  else Err Closed.

Definition set_ledger (s : Session) (l : InputCoordinationState) : Session :=
  mkSession (channel s) (receiver_open s) l (poisoned s) (mirrored_chunks s)
    (bracketed_paste_mode s).

Definition enqueue_terminal_reply (s : Session) (d : list byte) : result Session InputQueueError :=
  send s (raw d None).

(** The ledger moves before the send, also when the send then fails: the
    session is returned with either outcome. *)
Definition enqueue_raw_input_with_ack (s : Session) (d : list byte) (k : RawInputKind)
    (w : option nat) : Session * result unit InputQueueError :=
  if poisoned s then (s, Err CoordinationUnavailable)
  else
    let '(l, routed) := route_raw (ledger s) d k w in
    let s := set_ledger s l in
    match send s routed with
    | Ok s => (s, Ok ())
    | Err e => (s, Err e)
    end.

Definition enqueue_logical_input (s : Session) (d : list byte) (w : nat)
    : result Session InputQueueError :=
  send s (logical d (Some w) (bracketed_paste_mode s)).

(** [complete_declared_draft_write]: [sampled] is the counter it has loaded. *)
Definition complete_declared_draft_write (s : Session) (sampled : Z)
    : result Session InputQueueError :=
  if poisoned s then Err CoordinationUnavailable
  else
    let l := ledger s in
    Ok (set_ledger s
          (mkLedger (raw_input_draft_active l) (raw_input_draft_state_known l)
             (typed_draft_bytes l) (declared_draft_writes_enqueued l)
             (u64_add (declared_draft_writes_completed l) 1) sampled)).

(** The counting part of [mirror_output_at]; [mode] is what the terminal
    reports after the chunk. *)
Definition count_mirrored (s : Session) (mode : bool) : Session :=
  mkSession (channel s) (receiver_open s) (ledger s) (poisoned s)
    (u64_add (mirrored_chunks s) 1) mode.

Definition composer_attestation (s : Session) : ComposerAttestation :=
  if poisoned s then Unknown else ledger_attestation (ledger s).

Definition attestation_unresolved (s : Session) : bool :=
  if poisoned s then false else ledger_unresolved (ledger s).

(** The decision of [attest_empty_composer], once the counter has been sampled
    and the frame read. *)
Definition attest_decide (l : InputCoordinationState) (mirrored_chunks_before_read : Z)
    (composer : ComposerState) : bool * InputCoordinationState :=
  if negb (proves_nothing_typed composer) then (false, l)
  else if raw_input_draft_state_known l &&
          (negb (raw_input_draft_active l) ||
           negb (declared_draft_writes_completed l =? declared_draft_writes_enqueued l) ||
           negb (mirrored_chunks_at_last_draft_write l <? mirrored_chunks_before_read))
  then (false, l)
  else
    (true, mkLedger false true (Some 0) (declared_draft_writes_enqueued l)
             (declared_draft_writes_completed l) (mirrored_chunks_at_last_draft_write l)).

Definition input_coordination_requires_v3 (s : Session) : result bool InputQueueError :=
  if poisoned s then Err CoordinationUnavailable else Ok (raw_input_draft_active (ledger s)).

(** [take_composer_transition]: the published pair and what is emitted;
    [text] is the composer line the frame draws. *)
Abbreviation Published := (option str * ComposerAttestation)%type.

Definition take_composer_transition (published : option Published) (text : option str)
    (attestation : ComposerAttestation) : option Published * option Published :=
  let had_composer := match published with Some (Some _, _) => true | _ => false end in
  if bool_decide (text = None) && negb had_composer
  then (Some (None, attestation), None)
  else
    let current := (text, attestation) in
    if bool_decide (published = Some current) then (published, None)
    else (Some current, Some current).

(** ** The PTY writer *)

(** [finishing] is an input whose last byte is on the PTY and whose accounting
    is not done yet, with the mirrored-chunk count once it is loaded. *)
Record Writer := mkWriter {
  pending_input : list PendingInput;
  pending_offset : nat;
  submit_pause : option Z;
  finishing : option (PendingInput * option Z)
}.

Definition new_writer : Writer := mkWriter [] 0 None None.

(** Receiving one input: an empty raw write is acknowledged at once. *)
Definition writer_receive (w : Writer) (input : PendingInput) : Writer * option nat :=
  if bool_decide (data input = []) && bool_decide (kind input = Raw)
  then (w, written input)
  else (mkWriter (pending_input w ++ [input]) (pending_offset w) (submit_pause w) (finishing w),
        None).

Definition after_submission (now : Z) : Z := now + LOGICAL_INPUT_SUBMIT_DELAY_MS.

Definition pause_elapsed (until now : Z) : bool := until <=? now.

(** The timer branch. *)
Definition writer_timer (w : Writer) (now : Z) : Writer :=
  match submit_pause w with
  | Some until =>
      if pause_elapsed until now
      then mkWriter (pending_input w) (pending_offset w) None (finishing w) else w
  | None => w
  end.

(** The PTY accepted [n] bytes of the front input. *)
Definition writer_wrote (w : Writer) (n : nat) (now : Z) : Writer :=
  match pending_input w with
  | [] => w
  | front :: rest =>
      if bool_decide (n = 0%nat) then w
      else
        let offset := (pending_offset w + n)%nat in
        if bool_decide (length (data front) ≤ offset)%nat then
          mkWriter rest 0
            (if bool_decide (kind front = Logical) then Some (after_submission now)
             else submit_pause w)
            (Some (front, None))
        else mkWriter (front :: rest) offset (submit_pause w) (finishing w)
  end.

(** ** A framed message is one paste *)

Lemma paste_end_no_straddle p i :
  (i < length p)%nat → paste_end_at (p ++ PASTE_END) i → paste_end_at p i.
Proof.
  unfold paste_end_at. intros Hi Hend.
  assert (∀ k b, (k < 6)%nat → PASTE_END !! k = Some b → (p ++ PASTE_END) !! (i + k)%nat = Some b)
    as Hk.
  { intros k b Hk Hb. rewrite <-Hend in Hb. rewrite lookup_take_lt in Hb by done.
    by rewrite lookup_drop in Hb. }
  destruct (decide (i + 6 ≤ length p)%nat) as [Hle|Hgt].
  { rewrite <-Hend. by rewrite (take_drop_app_le 6 i p PASTE_END Hle). }
  exfalso. set (k := (length p - i)%nat).
  assert (0 < k < 6)%nat as Hk6 by lia.
  destruct (PASTE_END !! k) as [b|] eqn:Hb.
  2:{ apply lookup_ge_None in Hb. cbn in Hb. lia. }
  pose proof (Hk k b ltac:(lia) Hb) as Hat.
  rewrite lookup_app_r in Hat by lia.
  replace (i + k - length p)%nat with 0%nat in Hat by lia.
  cbn in Hat. injection Hat as <-.
  destruct k as [|[|[|[|[|[|?]]]]]]; cbn in Hb; try discriminate; lia.
Qed.

(** The hypothesis below, by computation. *)
Lemma no_paste_end_by_scan l :
  forallb (λ i, negb (bool_decide (take 6 (drop i l) = PASTE_END))) (seq 0 (length l)) = true →
  ∀ i, ¬ paste_end_at l i.
Proof.
  intros Hscan i Hend. pose proof Hend as Hlen. unfold paste_end_at in *.
  apply (f_equal length) in Hlen. rewrite length_take, length_drop in Hlen.
  change (length PASTE_END) with 6%nat in Hlen.
  rewrite forallb_forall in Hscan. specialize (Hscan i ltac:(apply in_seq; lia)).
  bool_simpl. done.
Qed.

(** Whether a message is framed. *)
Definition needs_framing (d : list byte) : Prop :=
  d ≠ [] ∧ ((∃ b, b ∈ d ∧ (b = CR ∨ b = LF)) ∨ (PASTE_FRAMING_MIN_LEN ≤ length d)%nat).

Lemma framed_bytes d :
  needs_framing d →
  logical_message_bytes d true = PASTE_START ++ d ++ PASTE_END ++ [CR].
Proof.
  intros [Hne Hlong]. unfold logical_message_bytes. rewrite bool_decide_eq_false_2 by done.
  cbn [negb orb]. destruct (existsb _ d) eqn:Hnl; cbn [negb andb]; [done|].
  rewrite bool_decide_eq_false_2; [done|].
  destruct Hlong as [(b & Hin & Hb)|]; [|lia].
  apply not_true_iff_false in Hnl. destruct Hnl. apply existsb_exists. exists b.
  rewrite <-list_elem_of_In. split; [done|]. rewrite orb_true_iff, !Z.eqb_eq. done.
Qed.

(** When the terminal has asked for bracketed paste, a message that spans
    lines or is long enough to be split by the PTY queue travels as one paste:
    reading the bytes as a terminal does, the first token is a paste holding
    the whole message, byte for byte, and all that is left after it is the
    single Enter.  This needs the message not to contain the paste terminator
    itself. *)
Theorem framed_message_is_one_paste d :
  needs_framing d → (∀ i, ¬ paste_end_at d i) →
  let bytes := logical_message_bytes d true in
  draft_step bytes = (Z.of_nat (length d), 12 + length d)%nat ∧
  drop (12 + length d) bytes = [CR].
Proof.
  intros Hf Hend. cbn zeta. rewrite (framed_bytes d Hf).
  assert (∀ i, (i < length d)%nat → ¬ paste_end_at (d ++ PASTE_END) i) as Hcond.
  { intros i Hi He. by apply (Hend i), paste_end_no_straddle. }
  pose proof (draft_step_paste d [CR] Hcond) as Hstep.
  assert (drop (12 + length d) (PASTE_START ++ d ++ PASTE_END ++ [CR]) = [CR]) as Hdrop.
  { replace (12 + length d)%nat with (length (PASTE_START ++ d ++ PASTE_END))
      by (rewrite !length_app; cbn; lia).
    rewrite !app_assoc. by rewrite drop_app_length. }
  split; [by rewrite Hstep|done].
Qed.

Lemma framed_message_is_one_paste_witness :
  drop (12 + length (lit "one" ++ [LF] ++ lit "two"))
    (logical_message_bytes (lit "one" ++ [LF] ++ lit "two") true) = [CR].
Proof.
  apply (framed_message_is_one_paste (lit "one" ++ [LF] ++ lit "two")).
  - split; [discriminate|]. left. exists LF. split; [|by right].
    apply elem_of_app. right. apply elem_of_app. left. by apply elem_of_cons; left.
  - apply no_paste_end_by_scan. reflexivity.
Defined.

(** A message that does contain the paste terminator is not protected by
    the frame: the terminal sees the paste close at the embedded terminator,
    and the rest of the message, line breaks included, arrives outside it as
    typed input.  Nothing escapes or refuses such bytes. *)
Theorem embedded_terminator_splits_message a b :
  needs_framing (a ++ PASTE_END ++ b) → (∀ i, ¬ paste_end_at a i) →
  let bytes := logical_message_bytes (a ++ PASTE_END ++ b) true in
  draft_step bytes = (Z.of_nat (length a), 12 + length a)%nat ∧
  drop (12 + length a) bytes = b ++ PASTE_END ++ [CR].
Proof.
  intros Hf Hend. cbn zeta. rewrite (framed_bytes _ Hf).
  replace (PASTE_START ++ (a ++ PASTE_END ++ b) ++ PASTE_END ++ [CR])
    with (PASTE_START ++ a ++ PASTE_END ++ (b ++ PASTE_END ++ [CR])) by (by rewrite <-!app_assoc).
  split.
  - rewrite draft_step_paste; [done|].
    intros i Hi He. by apply (Hend i), paste_end_no_straddle.
  - replace (12 + length a)%nat with (length (PASTE_START ++ a ++ PASTE_END))
      by (rewrite !length_app; cbn; lia).
    pose proof (drop_app_length (PASTE_START ++ a ++ PASTE_END) (b ++ PASTE_END ++ [CR])) as Hdrop.
    rewrite <-!app_assoc in Hdrop. exact Hdrop.
Qed.

Lemma embedded_terminator_splits_message_witness :
  drop (12 + 2) (logical_message_bytes (lit "hi" ++ PASTE_END ++ [CR] ++ lit "rm") true)
  = ([CR] ++ lit "rm") ++ PASTE_END ++ [CR].
Proof.
  apply (embedded_terminator_splits_message (lit "hi") ([CR] ++ lit "rm")).
  - split; [discriminate|]. left. exists CR. split; [|by left].
    rewrite !elem_of_app. right. right. left. by apply elem_of_cons; left.
  - apply no_paste_end_by_scan. reflexivity.
Defined.
