(* ===== verification/Quiesce.v ===== *)
(** * Quiescing a reader for a handoff ([StreamControl] of
    [crates/daemon/src/session.rs], the loop of [stream_output] in
    [output.rs], and the transfer of [handoff.rs])

    A handoff asks every reader to quiesce, polls until each says it has,
    transfers the PTY descriptors, and then either stops the readers or rolls
    back and resumes them.  The flags are separate atomics, so the reader, the
    handoff and a kill interleave access by access; [Notify] keeps at most one
    permit. *)

From S2P Require Import Prelude RustStd Session.
Local Open Scope Z_scope.

(** ** [StreamControl] *)

Record StreamControl := mkControl {
  stop_requested : bool;
  stopped : bool;
  quiesce_requested : bool;
  quiesced : bool;
  permit : bool
}.

Definition new_control : StreamControl := mkControl false false false false false.

Definition set_stop_requested (c : StreamControl) : StreamControl :=
  mkControl true (stopped c) (quiesce_requested c) (quiesced c) (permit c).

Definition set_stopped (c : StreamControl) : StreamControl :=
  mkControl (stop_requested c) true (quiesce_requested c) (quiesced c) (permit c).

Definition set_quiesce_requested (c : StreamControl) (flag : bool) : StreamControl :=
  mkControl (stop_requested c) (stopped c) flag (quiesced c) (permit c).

Definition set_quiesced (c : StreamControl) (flag : bool) : StreamControl :=
  mkControl (stop_requested c) (stopped c) (quiesce_requested c) flag (permit c).

(** [state_notify.notify_one()], and what a wait that completes leaves. *)
Definition set_permit (c : StreamControl) (flag : bool) : StreamControl :=
  mkControl (stop_requested c) (stopped c) (quiesce_requested c) (quiesced c) flag.

(** ** The reader's loop *)

(** Where the reader is between two accesses.  [RSelect] carries the receive
    branch's precondition, evaluated when the [select!] is entered; the two
    [RStop]s are the stores of [mark_stopped]. *)
Inductive ReaderPc :=
  | RTop
  | RTestDrain
  | RDrain
  | RTestQuiesce
  | RMarkQuiesced
  | RInner
  | RInnerStop
  | RWaiting
  | RMarkResumed
  | REnter
  | RSelect (receiving : bool)
  | RStop
  | RStop2
  | REnded.

#[export] Instance ReaderPc_eq_dec : EqDecision ReaderPc.
Proof. solve_decision. Defined.

(** The handoff, per reader; a handoff is serialized by the daemon's lifecycle
    lock. *)
Inductive HandoffPc :=
  | HIdle
  | HNotify
  | HPoll
  | HPollStopped
  | HTransfer
  | HResume
  | HResumeNotify
  | HCommitted
  | HStopNotify
  | HDone.

#[export] Instance HandoffPc_eq_dec : EqDecision HandoffPc.
Proof. solve_decision. Defined.

Record Loop := mkLoop {
  control : StreamControl;
  retired : bool;
  input_rx : list PendingInput;
  writer : Writer;
  reader : ReaderPc;
  handoff : HandoffPc;
  kill_notifies : bool
}.

Inductive LoopAction :=
  | AReader
  | ASelectReceive
  | ASelectTimer (now : Z)
  | ASelectWrite (n : nat) (now : Z)
  | ASelectRead (eof : bool)
  | ASelectWake
  | ASelectTick
  | AEnqueue (input : PendingInput)
  | AHandoff
  | ATimeout
  | ARollback
  | AKill
  | ARetire.

Definition must_stop (y : Loop) : bool := stop_requested (control y) || retired y.

Definition at_reader (y : Loop) (pc : ReaderPc) : Loop :=
  mkLoop (control y) (retired y) (input_rx y) (writer y) pc (handoff y) (kill_notifies y).

Definition with_control (y : Loop) (c : StreamControl) (pc : ReaderPc) : Loop :=
  mkLoop c (retired y) (input_rx y) (writer y) pc (handoff y) (kill_notifies y).

Definition receive (y : Loop) (pc : ReaderPc) : option Loop :=
  match input_rx y with
  | input :: rest =>
      Some (mkLoop (control y) (retired y) rest (writer_receive (writer y) input).1 pc (handoff y)
              (kill_notifies y))
  | [] => None
  end.

(** One access of the reader outside the [select!]. *)
Definition reader_step (y : Loop) : option Loop :=
  let c := control y in
  match reader y with
  | RTop => Some (at_reader y (if must_stop y then RStop else RTestDrain))
  | RTestDrain => Some (at_reader y (if quiesce_requested c then RDrain else RTestQuiesce))
  | RDrain =>
      match receive y RDrain with
      | Some y' => Some y'
      | None => Some (at_reader y RTestQuiesce)
      end
  | RTestQuiesce =>
      Some (at_reader y (if quiesce_requested c && bool_decide (pending_input (writer y) = [])
                         then RMarkQuiesced else REnter))
  | RMarkQuiesced => Some (with_control y (set_quiesced c true) RInner)
  | RInner => Some (at_reader y (if quiesce_requested c then RInnerStop else RMarkResumed))
  | RInnerStop => Some (at_reader y (if must_stop y then RStop else RWaiting))
  | RWaiting => if permit c then Some (with_control y (set_permit c false) RInner) else None
  | RMarkResumed => Some (with_control y (set_quiesced c false) RTop)
  | REnter => Some (at_reader y (RSelect (negb (quiesce_requested c))))
  | RSelect _ => None
  | RStop => Some (with_control y (set_stopped c) RStop2)
  | RStop2 => Some (with_control y (set_quiesced c false) REnded)
  | REnded => None
  end.

(** The writable branch. *)
Definition select_write (y : Loop) (n : nat) (now : Z) : option Loop :=
  match pending_input (writer y), submit_pause (writer y) with
  | front :: _, None =>
      if must_stop y then Some (at_reader y RStop)
      else if bool_decide (n ≤ length (drop (pending_offset (writer y)) (data front)))%nat then
        let w := writer_wrote (writer y) n now in
        Some (mkLoop (control y) (retired y) (input_rx y)
                (mkWriter (pending_input w) (pending_offset w) (submit_pause w) None) RTop
                (handoff y) (kill_notifies y))
      else None
  | _, _ => None
  end.

(** The handoff's next access. *)
Definition handoff_step (y : Loop) : option Loop :=
  let c := control y in
  let go c pc := Some (mkLoop c (retired y) (input_rx y) (writer y) (reader y) pc (kill_notifies y)) in
  match handoff y with
  | HIdle => go (set_quiesce_requested c true) HNotify
  | HNotify => go (set_permit c true) HPoll
  | HPoll => go c (if quiesced c then HTransfer else HPollStopped)
  | HPollStopped => go c (if stopped c then HTransfer else HPoll)
  | HTransfer => go c HCommitted
  | HResume => go (set_quiesce_requested c false) HResumeNotify
  | HResumeNotify => go (set_permit c true) HIdle
  | HCommitted => go (set_stop_requested c) HStopNotify
  | HStopNotify => go (set_permit c true) HDone
  | HDone => None
  end.

Definition at_handoff (y : Loop) (pc : HandoffPc) : Loop :=
  mkLoop (control y) (retired y) (input_rx y) (writer y) (reader y) pc (kill_notifies y).

(** A kill: [request_stop], which is a store and a notification. *)
Definition kill_step (y : Loop) : Loop :=
  if kill_notifies y
  then mkLoop (set_permit (control y) true) (retired y) (input_rx y) (writer y) (reader y) (handoff y)
         false
  else mkLoop (set_stop_requested (control y)) (retired y) (input_rx y) (writer y) (reader y)
         (handoff y) true.

Definition next_loop (y : Loop) (a : LoopAction) : option Loop :=
  let select k := match reader y with RSelect receiving => k receiving | _ => None end in
  match a with
  | AReader => reader_step y
  | ASelectReceive => select (λ receiving, if receiving : bool then receive y RTop else None)
  | ASelectTimer now =>
      select (λ _, Some (mkLoop (control y) (retired y) (input_rx y) (writer_timer (writer y) now)
                           RTop (handoff y) (kill_notifies y)))
  | ASelectWrite n now => select (λ _, select_write y n now)
  | ASelectRead eof =>
      select (λ _, Some (at_reader y (if must_stop y || eof then RStop else RTop)))
  | ASelectWake =>
      select (λ _, if permit (control y)
                   then Some (with_control y (set_permit (control y) false) RTop) else None)
  | ASelectTick => select (λ _, Some (at_reader y (if must_stop y then RStop else RTop)))
  | AEnqueue input =>
      if bool_decide (data input ≠ [] ∨ kind input = Raw) then
        Some (mkLoop (control y) (retired y) (input_rx y ++ [input]) (writer y) (reader y)
                (handoff y) (kill_notifies y))
      else None
  | AHandoff => handoff_step y
  | ATimeout => match handoff y with HPoll => Some (at_handoff y HResume) | _ => None end
  | ARollback => match handoff y with HTransfer => Some (at_handoff y HResume) | _ => None end
  | AKill => Some (kill_step y)
  | ARetire =>
      Some (mkLoop (control y) true (input_rx y) (writer y) (reader y) (handoff y) (kill_notifies y))
  end.

Definition initial_loop : Loop := mkLoop new_control false [] new_writer RTop HIdle false.

(** Actions of the reader that touch the PTY. *)
Definition touches_pty (a : LoopAction) : Prop :=
  match a with ASelectWrite _ _ | ASelectRead _ => True | _ => False end.

Definition loop_step (y y' : Loop) : Prop := ∃ a, next_loop y a = Some y'.

(** Runs in which a handoff starts only when the reader has acknowledged the
    end of the previous one. *)
Definition settled (y : Loop) (a : LoopAction) : Prop :=
  a = AHandoff → handoff y = HIdle → quiesced (control y) = false.

Definition settled_step (y y' : Loop) : Prop := ∃ a, settled y a ∧ next_loop y a = Some y'.

(** ** Invariants of every run *)

Definition parked (pc : ReaderPc) : Prop := pc = RInner ∨ pc = RInnerStop ∨ pc = RWaiting.
Definition ended (pc : ReaderPc) : Prop := pc = RStop ∨ pc = RStop2 ∨ pc = REnded.

Definition asking (pc : HandoffPc) : bool :=
  match pc with HIdle | HResume | HResumeNotify => false | _ => true end.
Definition transferring (pc : HandoffPc) : bool :=
  match pc with HTransfer | HCommitted | HStopNotify | HDone => true | _ => false end.

Record pc_inv (y : Loop) : Prop := mkPcInv {
  pi_inside : parked (reader y) ∨ reader y = RMarkResumed → quiesced (control y) = true;
  pi_quiesced : quiesced (control y) = true →
    parked (reader y) ∨ reader y = RMarkResumed ∨ ended (reader y);
  pi_asking : asking (handoff y) = true ∨ handoff y = HResume → quiesce_requested (control y) = true;
  pi_stopped : stopped (control y) = true → reader y = RStop2 ∨ reader y = REnded;
  pi_empty : reader y = RMarkQuiesced ∨ parked (reader y) ∨ reader y = RMarkResumed →
    pending_input (writer y) = [];
  pi_resume : reader y = RInnerStop ∨ reader y = RWaiting → quiesce_requested (control y) = false →
    permit (control y) = true ∨ handoff y = HResumeNotify;
  pi_stop : reader y = RWaiting → stop_requested (control y) = true →
    permit (control y) = true ∨ handoff y = HStopNotify ∨ kill_notifies y = true
}.

(** Opens the invariant of a state whose fields are known and closes the
    fields that the step does not touch. *)
Ltac pc_inv_tac :=
  constructor; unfold parked, ended in *; cbn in *; bool_simpl;
  try first [assumption | solve [intros; destruct_or?; discriminate] | solve [intuition discriminate]
            | intuition congruence].

Lemma pc_inv_handoff y y' : handoff_step y = Some y' → pc_inv y → pc_inv y'.
Proof.
  destruct y as [c rt rx w pc h k]. intros H [A B C D E F G]. unfold handoff_step in H. cbn in *.
  destruct h; simplify_eq/=; pc_inv_tac.
Qed.

Lemma pc_inv_receive y pc y' :
  receive y pc = Some y' → pc = RDrain ∨ pc = RTop →
  reader y = RDrain ∨ (∃ b, reader y = RSelect b) → pc_inv y → pc_inv y'.
Proof.
  destruct y as [c rt rx w rd h k]. unfold receive. cbn. destruct rx as [|input rx]; [done|].
  intros [= <-] Hpc Hrd [A B C D E F G]. cbn in *.
  destruct Hpc as [-> | ->], Hrd as [-> | [b ->]]; pc_inv_tac.
Qed.

Lemma pc_inv_reader y y' : reader_step y = Some y' → pc_inv y → pc_inv y'.
Proof.
  intros H Hinv. destruct (decide (reader y = RDrain)) as [Hd|Hd].
  { unfold reader_step in H. rewrite Hd in H. destruct (receive y RDrain) as [y1|] eqn:Hr.
    - injection H as <-. eapply pc_inv_receive; eauto.
    - injection H as <-. destruct y as [c rt rx w rd h k], Hinv as [A B C D E F G]. cbn in *. pc_inv_tac. }
  destruct y as [c rt rx w rd h k], Hinv as [A B C D E F G]. unfold reader_step in H. cbn in *.
  destruct rd; try done; unfold must_stop in *; cbn in *.
  all: destruct c as [sr sp qr qd pm]; cbn in *.
  all: repeat case_match; simplify_eq/=.
  all: pc_inv_tac.
Qed.

Lemma pc_inv_select_write y n now y' b :
  reader y = RSelect b → select_write y n now = Some y' → pc_inv y → pc_inv y'.
Proof.
  destruct y as [[sr sp qr qd pm] rt rx w rd h k]. unfold select_write, must_stop. cbn. intros ->.
  intros H [A B C D E F G]. cbn in *. repeat case_match; simplify_eq/=; pc_inv_tac.
Qed.

Lemma pc_inv_kill y : pc_inv y → pc_inv (kill_step y).
Proof.
  destruct y as [[sr sp qr qd pm] rt rx w rd h k]. unfold kill_step. cbn.
  intros [A B C D E F G]. cbn in *. destruct k; pc_inv_tac.
Qed.

Lemma pc_inv_step y a y' : next_loop y a = Some y' → pc_inv y → pc_inv y'.
Proof.
  intros H Hinv. destruct a; cbn in H.
  - by eapply pc_inv_reader.
  - destruct (reader y) as [| | | | | | | | | |[] | | |] eqn:Hr; try done.
    eapply pc_inv_receive; eauto.
  - destruct (reader y) eqn:Hr; simplify_eq. destruct y, Hinv. cbn in *. subst. pc_inv_tac.
  - destruct (reader y) eqn:Hr; simplify_eq. by eapply pc_inv_select_write.
  - destruct (reader y) eqn:Hr; simplify_eq. destruct y, Hinv. cbn in *. subst.
    destruct (must_stop _ || eof); pc_inv_tac.
  - destruct (reader y) eqn:Hr; simplify_eq. destruct y as [c], Hinv. cbn in *. subst.
    destruct (permit c); simplify_eq. pc_inv_tac.
  - destruct (reader y) eqn:Hr; simplify_eq. destruct y, Hinv. cbn in *. subst.
    destruct (must_stop _); pc_inv_tac.
  - case_match; simplify_eq. destruct y, Hinv. cbn in *. pc_inv_tac.
  - by eapply pc_inv_handoff.
  - destruct (handoff y) eqn:Hh; simplify_eq. destruct y, Hinv. cbn in *. subst. pc_inv_tac.
  - destruct (handoff y) eqn:Hh; simplify_eq. destruct y, Hinv. cbn in *. subst. pc_inv_tac.
  - simplify_eq. by apply pc_inv_kill.
  - simplify_eq. destruct y, Hinv. cbn in *. pc_inv_tac.
Qed.

Lemma initial_pc_inv : pc_inv initial_loop.
Proof. pc_inv_tac. Qed.

Lemma reachable_pc_inv y : reachable loop_step initial_loop y → pc_inv y.
Proof.
  apply reachable_invariant; [apply initial_pc_inv|]. intros y0 y1 Hinv [a Ha]. by eapply pc_inv_step.
Qed.

(** ** Runs in which handoffs are settled *)

Record handoff_inv (y : Loop) : Prop := mkHandoffInv {
  hi_asking : asking (handoff y) = true → reader y ≠ RMarkResumed;
  hi_transfer : transferring (handoff y) = true → parked (reader y) ∨ ended (reader y)
}.

(** A reader that is asked to quiesce does not resume, and one that is parked
    or has ended stays so. *)
Lemma reader_holds y y' :
  quiesce_requested (control y) = true → reader_step y = Some y' → reader y ≠ RMarkResumed →
  handoff y' = handoff y ∧ reader y' ≠ RMarkResumed ∧
  (parked (reader y) ∨ ended (reader y) → parked (reader y') ∨ ended (reader y')).
Proof.
  destruct y as [c rt rx w rd h k]. unfold reader_step, receive, parked, ended. cbn. intros Hq H Hne.
  destruct rd; repeat case_match; simplify_eq/=; rewrite ?Hq in *; intuition congruence.
Qed.

Definition by_handoff (a : LoopAction) : bool :=
  match a with AHandoff | ATimeout | ARollback => true | _ => false end.

Lemma reader_handoff y y' : reader_step y = Some y' → handoff y' = handoff y.
Proof.
  destruct y as [c rt rx w rd h k]. unfold reader_step, receive. cbn.
  destruct rd; intros H; repeat case_match; simplify_eq/=; done.
Qed.

Lemma select_holds y a y' b :
  reader y = RSelect b → next_loop y a = Some y' → by_handoff a = false →
  handoff y' = handoff y ∧ (reader y' = reader y ∨ reader y' = RTop ∨ reader y' = RStop).
Proof.
  intros Hr H Hh. destruct a; cbn in H; rewrite ?Hr in H; try done;
    unfold reader_step, receive, select_write, kill_step in H; rewrite ?Hr in H;
    repeat case_match; simplify_eq/=; auto.
Qed.

Lemma other_holds y a y' :
  next_loop y a = Some y' → (∀ b, reader y ≠ RSelect b) → a ≠ AReader →
  reader y' = reader y ∧ (by_handoff a = false → handoff y' = handoff y).
Proof.
  intros H Hr Ha. destruct a; cbn in H; try done;
    try (destruct (reader y) eqn:Hrd; try done; by destruct (Hr receiving));
    unfold handoff_step, kill_step in H; repeat case_match; simplify_eq/=; auto; naive_solver.
Qed.

(** The handoff's own steps. *)
Lemma handoff_moves y y' :
  (handoff_step y = Some y' ∨ next_loop y ATimeout = Some y' ∨ next_loop y ARollback = Some y') →
  reader y' = reader y ∧
  (asking (handoff y') = true → asking (handoff y) = true ∨ handoff y = HIdle) ∧
  (transferring (handoff y') = true → transferring (handoff y) = true ∨
     quiesced (control y) = true ∨ stopped (control y) = true).
Proof.
  unfold handoff_step. cbn. intros [H|[H|H]]; destruct (handoff y); simplify_eq/=; try tauto.
  - split_and!; [done| |]; destruct (quiesced (control y)); cbn; auto.
  - split_and!; [done| |]; destruct (stopped (control y)); cbn; auto.
Qed.

Lemma handoff_inv_step y a y' :
  settled y a → next_loop y a = Some y' → pc_inv y → handoff_inv y → handoff_inv y'.
Proof.
  intros Hset H Hpc [HA HT].
  destruct (by_handoff a) eqn:Hh.
  { assert (a = AHandoff ∨ a = ATimeout ∨ a = ARollback) as Hcase by (destruct a; auto; done).
    assert (handoff_step y = Some y' ∨ next_loop y ATimeout = Some y' ∨ next_loop y ARollback = Some y')
      as Hm by (destruct Hcase as [->|[->| ->]]; auto).
    assert (handoff y = HIdle → asking (handoff y') = true → quiesced (control y) = false) as Hidle.
    { intros Hi _. destruct Hcase as [->|[->| ->]]; [by apply Hset|cbn in H; by rewrite Hi in H..]. }
    apply handoff_moves in Hm as (Hr & Ha & Ht). constructor; rewrite Hr.
    - intros Hask. destruct (Ha Hask) as [|Hi]; [by apply HA|]. intros Hres.
      rewrite (pi_inside y Hpc) in Hidle by auto. by discriminate (Hidle Hi Hask).
    - intros Htr. destruct (Ht Htr) as [|[Hq|Hs]]; [by apply HT| |].
      + assert (asking (handoff y') = true) as Hask by (by destruct (handoff y')).
        destruct (pi_quiesced y Hpc Hq) as [|[Hres|]]; [by left| |by right].
        destruct (Ha Hask) as [Hask'|Hi]; [by destruct (HA Hask')|].
        rewrite (Hidle Hi Hask) in Hq. done.
      + right. destruct (pi_stopped y Hpc Hs); unfold ended; auto. }
  assert (∀ pc, transferring pc = true → asking pc = true) as Htr by (by intros []).
  assert (a = AReader ∨ a ≠ AReader) as [->|Hne] by (destruct a; auto; right; discriminate).
  { constructor.
    - intros Hask. cbn in H. destruct (asking (handoff y)) eqn:Hask'.
      + apply (reader_holds y y'); auto. apply Hpc; auto.
      + destruct (reader_handoff y y' H). congruence.
    - intros Htrans. cbn in H. rewrite (reader_handoff y y' H) in Htrans.
      apply (reader_holds y y'); auto. apply Hpc; auto. }
  assert (handoff y' = handoff y ∧ (reader y' = reader y ∨
     ((∃ b, reader y = RSelect b) ∧ (reader y' = RTop ∨ reader y' = RStop)))) as [Eh Hr].
  { destruct (reader y) eqn:Hr.
    all: try (destruct (other_holds y a y' H) as [E1 E2]; [congruence|done|split; [by apply E2|left; congruence]]).
    destruct (select_holds y a y' receiving Hr H) as [E1 E2]; [done|]. rewrite Hr in E2.
    split; [done|]. destruct E2; eauto. }
  constructor; rewrite Eh.
  - intros Hask. destruct Hr as [->|[_ [-> | ->]]]; auto.
  - intros Htrans. destruct Hr as [->|[[b Hb] _]]; [auto|].
    destruct (HT Htrans) as [Hp|Hp]; unfold parked, ended in Hp; rewrite Hb in Hp; intuition discriminate.
Qed.

Lemma initial_handoff_inv : handoff_inv initial_loop.
Proof. by constructor. Qed.

Lemma settled_reachable y :
  reachable settled_step initial_loop y → pc_inv y ∧ handoff_inv y.
Proof.
  apply (reachable_invariant settled_step (λ y, pc_inv y ∧ handoff_inv y)).
  - split; [apply initial_pc_inv|apply initial_handoff_inv].
  - intros y0 y1 [Hp Hh] (a & Hs & Ha). split; [by eapply pc_inv_step|by eapply handoff_inv_step].
Qed.

(** ** What a handoff may rely on *)

(** C32: while a handoff transfers a session's descriptor the old reader is out
    of the way: it neither reads nor writes the PTY, and unless it has ended
    (then the session is not transferred as live) it holds no input half
    written.  This needs each handoff to begin after the reader has
    acknowledged the end of the one before. *)
Theorem transfer_excludes_the_reader y a :
  reachable settled_step initial_loop y → transferring (handoff y) = true →
  (touches_pty a → next_loop y a = None) ∧
  (parked (reader y) ∧ pending_input (writer y) = [] ∨ ended (reader y)).
Proof.
  intros [Hp Hh]%settled_reachable Ht. destruct (hi_transfer y Hh Ht) as [Hpark|Hend].
  - split; [|left; split; [done|apply Hp; auto]].
    intros Ha. unfold parked in Hpark. destruct a; try done; cbn;
      destruct Hpark as [->|[->| ->]]; done.
  - split; [|by right]. intros Ha. unfold ended in Hend.
    destruct a; try done; cbn; destruct Hend as [->|[->| ->]]; done.
Qed.

Fixpoint run_loop (actions : list LoopAction) (y : Loop) : option Loop :=
  match actions with
  | [] => Some y
  | a :: rest => match next_loop y a with Some y' => run_loop rest y' | None => None end
  end.

Lemma run_loop_reachable actions y0 y y' :
  reachable loop_step y0 y → run_loop actions y = Some y' → reachable loop_step y0 y'.
Proof.
  revert y. induction actions as [|a actions IH]; intros y Hr; cbn [run_loop]; [by intros [= <-]|].
  destruct (next_loop y a) as [y1|] eqn:Ha; [|done]. apply IH.
  eapply reachable_step; [done|]. by exists a.
Qed.

(** A run whose handoffs are all settled, by computation. *)
Fixpoint run_settled (actions : list LoopAction) (y : Loop) : option Loop :=
  match actions with
  | [] => Some y
  | a :: rest =>
      if match a, handoff y with AHandoff, HIdle => quiesced (control y) | _, _ => false end then None
      else match next_loop y a with Some y' => run_settled rest y' | None => None end
  end.

Lemma run_settled_reachable actions y0 y y' :
  reachable settled_step y0 y → run_settled actions y = Some y' → reachable settled_step y0 y'.
Proof.
  revert y. induction actions as [|a actions IH]; intros y Hr; cbn [run_settled]; [by intros [= <-]|].
  destruct (match a, handoff y with AHandoff, HIdle => quiesced (control y) | _, _ => false end) eqn:Hs;
    [done|].
  destruct (next_loop y a) as [y1|] eqn:Ha; [|done]. apply IH.
  eapply reachable_step; [done|]. exists a. split; [|done].
  intros -> Hi. by rewrite Hi in Hs.
Qed.

(** A message is queued, the reader writes it and parks, the handoff sees it. *)
Definition transfer_run : list LoopAction :=
  [AEnqueue (raw [97] None); AHandoff; AHandoff; AReader; AReader; AReader; AReader; AReader; AReader;
   ASelectWrite 1 0; AReader; AReader; AReader; AReader; AReader; AHandoff].

Definition transferred : Loop := default initial_loop (run_settled transfer_run initial_loop).

Lemma transfer_excludes_the_reader_witness :
  reader transferred = RInner ∧ next_loop transferred (ASelectRead false) = None.
Proof.
  split; [vm_compute; reflexivity|].
  refine (proj1 (transfer_excludes_the_reader transferred (ASelectRead false) _ _) _).
  - apply (run_settled_reachable transfer_run _ initial_loop); [constructor|vm_compute; reflexivity].
  - vm_compute; reflexivity.
  - exact I.
Defined.

(** Without that, the flag of an earlier quiesce can be taken for a new
    one.  The reader has read the request's end but not yet cleared
    [quiesced] when the next handoff raises the request and polls: the handoff
    transfers while the reader takes queued input and writes it to the PTY. *)
Theorem stale_quiesced_flag_admits_writes :
  ∃ y y', reachable loop_step initial_loop y ∧ handoff y = HTransfer ∧
    next_loop y (ASelectWrite 1 0) = Some y' ∧ handoff y' = HTransfer ∧
    pending_input (writer y) ≠ pending_input (writer y').
Proof.
  eexists _, _. split_and!.
  - apply (run_loop_reachable
      ([AHandoff; AHandoff; AReader; AReader; AReader; AReader; AReader; AHandoff; ARollback;
        AHandoff; AHandoff; AReader; AEnqueue (raw [97] None); AHandoff; AHandoff; AHandoff] ++
       replicate 7 AReader) _ initial_loop); [constructor|vm_compute; reflexivity].
  - reflexivity.
  - vm_compute; reflexivity.
  - reflexivity.
  - by vm_compute.
Qed.

(** No wake-up is lost.  Whenever a parked reader sleeps although the
    handoff has resumed it or a stop was requested, a permit is there to wake
    it or whoever changed the flag is still about to leave one; so once those
    notifications are done its next step is enabled. *)
Theorem parked_reader_wakes y :
  reachable loop_step initial_loop y → reader y = RWaiting →
  quiesce_requested (control y) = false ∨ stop_requested (control y) = true →
  handoff y ≠ HResumeNotify → handoff y ≠ HStopNotify → kill_notifies y = false →
  ∃ y', next_loop y AReader = Some y' ∧ reader y' = RInner.
Proof.
  intros Hp%reachable_pc_inv Hw Hflag H1 H2 Hk.
  assert (permit (control y) = true) as Hperm.
  { destruct Hflag as [Hq|Hs].
    - by destruct (pi_resume y Hp (or_intror Hw) Hq).
    - destruct (pi_stop y Hp Hw Hs) as [?|[?|?]]; congruence. }
  cbn. unfold reader_step. rewrite Hw, Hperm. eauto.
Qed.

(** A reader asleep in a quiesce that is then rolled back. *)
Definition rolled_back : Loop :=
  default initial_loop
    (run_loop [AHandoff; AHandoff; AReader; AReader; AReader; AReader; AReader; AHandoff; AReader;
               AReader; AReader; AReader; AReader; ARollback; AHandoff; AHandoff] initial_loop).

Lemma parked_reader_wakes_witness :
  reader rolled_back = RWaiting ∧ ∃ y', next_loop rolled_back AReader = Some y' ∧ reader y' = RInner.
Proof.
  split; [vm_compute; reflexivity|]. refine (parked_reader_wakes rolled_back _ _ _ _ _ _).
  - apply (run_loop_reachable
      [AHandoff; AHandoff; AReader; AReader; AReader; AReader; AReader; AHandoff; AReader;
       AReader; AReader; AReader; AReader; ARollback; AHandoff; AHandoff] _ initial_loop);
      [constructor|vm_compute; reflexivity].
  - vm_compute; reflexivity.
  - left. vm_compute; reflexivity.
  - vm_compute. discriminate.
  - vm_compute. discriminate.
  - vm_compute; reflexivity.
Defined.

(** ** A quiesce request is served *)

(** The reader's own actions. *)
Definition own (a : LoopAction) : bool :=
  match a with
  | AReader | ASelectReceive | ASelectTimer _ | ASelectWrite _ _ | ASelectRead _ | ASelectWake
  | ASelectTick => true
  | _ => false
  end.

Definition own_step (y y' : Loop) : Prop := ∃ a, own a = true ∧ next_loop y a = Some y'.

(** Every accepted input can be written: a logical message is never empty, and
    the offset is inside the front input. *)
Record queue_inv (y : Loop) : Prop := mkQueueInv {
  qi_rx : Forall (λ i, data i ≠ [] ∨ kind i = Raw) (input_rx y);
  qi_pending : Forall (λ i, data i ≠ []) (pending_input (writer y));
  qi_offset : match pending_input (writer y) with
              | [] => pending_offset (writer y) = 0%nat
              | front :: _ => (pending_offset (writer y) < length (data front))%nat
              end
}.

Lemma queue_inv_ext y y' :
  input_rx y' = input_rx y → pending_input (writer y') = pending_input (writer y) →
  pending_offset (writer y') = pending_offset (writer y) → queue_inv y → queue_inv y'.
Proof. intros E1 E2 E3 []. constructor; by rewrite ?E1, ?E2, ?E3. Qed.

Lemma queue_inv_receive y pc y' : receive y pc = Some y' → queue_inv y → queue_inv y'.
Proof.
  unfold receive. destruct (input_rx y) as [|input rx] eqn:Hrx; [done|]. intros [= <-] [Q1 Q2 Q3].
  rewrite Hrx in Q1. apply Forall_cons in Q1 as [Hi Q1]. unfold writer_receive.
  destruct (bool_decide (data input = []) && bool_decide (kind input = Raw)) eqn:Hskip;
    constructor; cbn; try done.
  - apply Forall_app. split; [done|]. apply Forall_singleton. intros He.
    rewrite bool_decide_eq_true_2 in Hskip by done. cbn in Hskip. case_bool_decide; naive_solver.
  - destruct (pending_input (writer y)) as [|front rest]; [|done]. cbn. rewrite Q3.
    apply andb_false_iff in Hskip. destruct (data input) eqn:Hd; cbn; [|lia].
    destruct Hi as [|Hk]; [done|]. destruct Hskip; case_bool_decide; done.
Qed.

Lemma queue_inv_write y n now y' : select_write y n now = Some y' → queue_inv y → queue_inv y'.
Proof.
  unfold select_write. destruct (pending_input (writer y)) as [|front rest] eqn:Hp; [done|].
  destruct (submit_pause (writer y)); [done|]. destruct (must_stop y).
  { intros [= <-] Hq. by eapply queue_inv_ext, Hq. }
  case_bool_decide as Hn; [|done]. intros [= <-] [Q1 Q2 Q3]. rewrite Hp in Q2, Q3.
  apply Forall_cons in Q2 as [Hf Q2]. rewrite length_drop in Hn. unfold writer_wrote. rewrite Hp.
  constructor; cbn; [done| |].
  - repeat case_bool_decide; cbn; rewrite ?Hp; auto.
  - case_bool_decide as Hz; cbn; [by rewrite Hp|]. case_bool_decide as Hfull; cbn; [|lia].
    destruct rest as [|front' rest]; [done|]. apply Forall_cons in Q2 as [Hf' _].
    destruct (data front'); cbn; [done|lia].
Qed.

Lemma queue_inv_step y a y' : next_loop y a = Some y' → queue_inv y → queue_inv y'.
Proof.
  intros H Hq. destruct a; cbn in H.
  - unfold reader_step in H.
    destruct (reader y); try (repeat case_match; simplify_eq; by eapply queue_inv_ext, Hq).
    destruct (receive y RDrain) eqn:Hr; simplify_eq; [by eapply queue_inv_receive|].
    by eapply queue_inv_ext, Hq.
  - destruct (reader y) as [| | | | | | | | | |[] | | |]; try done. by eapply queue_inv_receive.
  - destruct (reader y); simplify_eq. eapply queue_inv_ext, Hq; cbn; try done;
      unfold writer_timer; by repeat case_match.
  - destruct (reader y); simplify_eq. by eapply queue_inv_write.
  - repeat case_match; simplify_eq; by eapply queue_inv_ext, Hq.
  - repeat case_match; simplify_eq; by eapply queue_inv_ext, Hq.
  - repeat case_match; simplify_eq; by eapply queue_inv_ext, Hq.
  - case_bool_decide as Hi; simplify_eq. destruct Hq. constructor; cbn; try done.
    apply Forall_app. split; [done|by apply Forall_singleton].
  - unfold handoff_step in H. repeat case_match; simplify_eq; by eapply queue_inv_ext, Hq.
  - repeat case_match; simplify_eq; by eapply queue_inv_ext, Hq.
  - repeat case_match; simplify_eq; by eapply queue_inv_ext, Hq.
  - simplify_eq. unfold kill_step. case_match; by eapply queue_inv_ext, Hq.
  - simplify_eq. by eapply queue_inv_ext, Hq.
Qed.

Lemma reachable_queue_inv y : reachable loop_step initial_loop y → queue_inv y.
Proof.
  apply reachable_invariant; [by repeat constructor|]. intros y0 y1 Hq [a Ha]. by eapply queue_inv_step.
Qed.

Lemma own_trans y0 y1 y2 :
  reachable own_step y0 y1 → reachable own_step y1 y2 → reachable own_step y0 y2.
Proof. intros H0. induction 1 as [|y y' _ IH Hs]; [done|]. by eapply reachable_step. Qed.

Lemma own_one y a y' y2 :
  own a = true → next_loop y a = Some y' → reachable own_step y' y2 → reachable own_step y y2.
Proof.
  intros Ho Ha. apply own_trans. eapply reachable_step; [constructor|]. by exists a.
Qed.

(** What a run of the reader alone does not change, and where it is to lead. *)
Definition served (y y' : Loop) : Prop :=
  reachable own_step y y' ∧ handoff y' = handoff y ∧
  quiesce_requested (control y') = quiesce_requested (control y) ∧
  (parked (reader y') ∧ pending_input (writer y') = [] ∨ reader y' = REnded).

Lemma served_step y a y' y2 :
  own a = true → next_loop y a = Some y' → handoff y' = handoff y →
  quiesce_requested (control y') = quiesce_requested (control y) → served y' y2 → served y y2.
Proof.
  intros Ho Ha Eh Eq (Hr & Hh & Hq & Hend). split_and!; [by eapply own_one|congruence|congruence|done].
Qed.

Lemma served_stop y : reader y = RStop → ∃ y', served y y'.
Proof.
  intros Hr. eexists. eapply (served_step _ AReader); [done|cbn; unfold reader_step; rewrite Hr; done|done|done|].
  eapply (served_step _ AReader); [done|reflexivity|done|done|].
  split_and!; [constructor|done|done|by right].
Qed.

(** [drain] empties the channel into the queue. *)
Lemma served_drain y :
  queue_inv y → reader y = RDrain →
  (∀ y1, queue_inv y1 → reader y1 = RTestQuiesce → input_rx y1 = [] → handoff y1 = handoff y →
     control y1 = control y → ∃ y2, served y1 y2) → ∃ y2, served y y2.
Proof.
  remember (length (input_rx y)) as n eqn:Hn. revert y Hn.
  induction n as [|n IH]; intros y Hn Hq Hr Hk.
  - destruct (input_rx y) eqn:Hrx; [|done].
    assert (next_loop y AReader = Some (at_reader y RTestQuiesce)) as Hs
      by (cbn; unfold reader_step, receive; by rewrite Hr, Hrx).
    destruct (Hk (at_reader y RTestQuiesce)) as [y2 H2]; try done; [by eapply queue_inv_step|].
    exists y2. by eapply (served_step y AReader).
  - destruct (receive y RDrain) as [y1|] eqn:Hrec; [|unfold receive in Hrec; by destruct (input_rx y)].
    assert (next_loop y AReader = Some y1) as Hs by (cbn; unfold reader_step; by rewrite Hr, Hrec).
    assert (length (input_rx y1) = n ∧ reader y1 = RDrain ∧ handoff y1 = handoff y ∧
            control y1 = control y) as (H1 & H2 & H3 & H4).
    { unfold receive in Hrec. destruct (input_rx y) eqn:Hrx; simplify_eq/=. done. }
    destruct (IH y1) as [y2 Hs2]; try done; [by eapply queue_inv_step| |].
    + intros z ? ? ? Hz1 Hz2. apply Hk; try done; congruence.
    + exists y2. eapply (served_step y AReader); [done|done|done|by rewrite H4|done].
Qed.

(** A pass of the loop from its top with the channel empty. *)
Lemma served_top y :
  queue_inv y → reader y = RTop → quiesce_requested (control y) = true → input_rx y = [] →
  (∀ z, queue_inv z → reader z = RTestQuiesce → control z = control y → input_rx z = [] →
     writer z = writer y → handoff z = handoff y → ∃ y2, served z y2) → ∃ y2, served y y2.
Proof.
  intros Hq Hr Hreq Hrx Hk. destruct (must_stop y) eqn:Hstop.
  - destruct (served_stop (at_reader y RStop) eq_refl) as [y2 H2]. exists y2.
    apply (served_step y AReader (at_reader y RStop)); [done| |done|done|exact H2].
    cbn. unfold reader_step. by rewrite Hr, Hstop.
  - destruct (Hk (at_reader y RTestQuiesce)) as [y2 H2]; try done; [by eapply queue_inv_ext, Hq|].
    exists y2. apply (served_step y AReader (at_reader y RTestDrain)); [done| |done|done|].
    { cbn. unfold reader_step. by rewrite Hr, Hstop. }
    apply (served_step _ AReader (at_reader y RDrain)); [done| |done|done|].
    { cbn. unfold reader_step. cbn. by rewrite Hreq. }
    apply (served_step _ AReader (at_reader y RTestQuiesce)); [done| |done|done|exact H2].
    cbn. unfold reader_step, receive. cbn. by rewrite Hrx.
Qed.

(** Entering the [select!] with input still pending. *)
Lemma served_enter y a y1 y2 :
  reader y = RTestQuiesce → pending_input (writer y) ≠ [] → own a = true →
  next_loop (at_reader y (RSelect (negb (quiesce_requested (control y))))) a = Some y1 → handoff y1 = handoff y →
  control y1 = control y → served y1 y2 → served y y2.
Proof.
  intros Hr Hp Ho Ha Hh Hc Hs.
  apply (served_step y AReader (at_reader y REnter)); [done| |done|done|].
  { cbn. unfold reader_step. rewrite Hr, (bool_decide_eq_false_2 _ Hp), andb_false_r. done. }
  eapply (served_step _ AReader); [done|reflexivity|done|done|].
  eapply (served_step _ a); [done|exact Ha|done|by rewrite Hc|done].
Qed.

(** Writing the whole front input. *)
Lemma write_front y front rest :
  queue_inv y → pending_input (writer y) = front :: rest → submit_pause (writer y) = None →
  must_stop y = false →
  ∃ y1, select_write y (length (data front) - pending_offset (writer y)) 0 = Some y1 ∧
    reader y1 = RTop ∧ handoff y1 = handoff y ∧ control y1 = control y ∧ input_rx y1 = input_rx y ∧
    pending_input (writer y1) = rest.
Proof.
  intros [_ _ Q3] Hp Hpause Hstop. rewrite Hp in Q3. unfold select_write.
  rewrite Hp, Hpause, Hstop, length_drop, bool_decide_eq_true_2 by lia. eexists. split; [done|]. cbn.
  split_and!; try done. unfold writer_wrote. rewrite Hp, bool_decide_eq_false_2 by lia.
  by rewrite bool_decide_eq_true_2 by lia.
Qed.

(** With the channel empty, one pass of the loop per queued input, and one more
    for a pause that has to elapse. *)
Lemma served_quiesce n : ∀ y,
  queue_inv y → reader y = RTestQuiesce → quiesce_requested (control y) = true → input_rx y = [] →
  length (pending_input (writer y)) = n → ∃ y2, served y y2.
Proof.
  induction n as [|n IH]; intros y Hq Hr Hreq Hrx Hn.
  { destruct (pending_input (writer y)) eqn:Hp; [|done].
    eexists. apply (served_step y AReader (at_reader y RMarkQuiesced)); [done| |done|done|].
    { cbn. unfold reader_step. by rewrite Hr, Hreq, Hp. }
    eapply (served_step _ AReader); [done|reflexivity|done|done|].
    split_and!; [constructor|done|done|left]. split; [by left|done]. }
  assert (∀ y, queue_inv y → reader y = RTestQuiesce → quiesce_requested (control y) = true →
            input_rx y = [] → length (pending_input (writer y)) = S n →
            submit_pause (writer y) = None → ∃ y2, served y y2) as Hwrite.
  { clear y Hq Hr Hreq Hrx Hn. intros y Hq Hr Hreq Hrx Hn Hpause.
    destruct (pending_input (writer y)) as [|front rest] eqn:Hp; [done|].
    destruct (must_stop y) eqn:Hstop.
    - destruct (served_stop (at_reader y RStop) eq_refl) as [y2 H2]. exists y2.
      apply (served_enter y ASelectTick (at_reader y RStop) y2 Hr); [by rewrite Hp|done| |done|done|done].
      cbn. unfold must_stop in *. cbn. by rewrite Hstop.
    - destruct (write_front (at_reader y (RSelect false)) front rest) as (y1 & Hw & Hr1 & Hh1 & Hc1 & Hrx1 & Hp1);
        [by eapply queue_inv_ext, Hq|done..|].
      destruct (served_top y1) as [y2 H2]; try congruence.
      { eapply queue_inv_write, (queue_inv_ext y); done. }
      { rewrite Hc1. done. }
      { rewrite Hrx1. done. }
      { intros z Hqz Hrz Hcz Hrxz Hwz Hhz. apply IH; try done.
        - rewrite Hcz, Hc1. done.
        - rewrite Hwz, Hp1. cbn in Hn. lia. }
      exists y2. eapply (served_enter y (ASelectWrite _ 0) y1 y2 Hr);
        [by rewrite Hp|done| |done|done|done]. rewrite Hreq. cbn. exact Hw. }
  destruct (submit_pause (writer y)) as [until|] eqn:Hpause; [|by apply Hwrite].
  set (y1 := mkLoop (control y) (retired y) (input_rx y) (writer_timer (writer y) until) RTop
               (handoff y) (kill_notifies y)).
  assert (writer_timer (writer y) until =
          mkWriter (pending_input (writer y)) (pending_offset (writer y)) None (finishing (writer y))) as Ht.
  { unfold writer_timer, pause_elapsed. by rewrite Hpause, (proj2 (Z.leb_le _ _)) by lia. }
  destruct (served_top y1) as [y2 H2]; try done.
  { eapply queue_inv_ext, Hq; cbn; by rewrite ?Ht. }
  { intros z Hqz Hrz Hcz Hrxz Hwz Hhz. apply Hwrite; try done; [by rewrite Hcz|..];
      rewrite Hwz; cbn; by rewrite Ht. }
  exists y2. apply (served_enter y (ASelectTimer until) y1 y2 Hr); [|done|reflexivity..|done].
  intros He. by rewrite He in Hn.
Qed.

(** From the drain, the top and the [select!], with any channel. *)
Lemma served_from_drain y :
  queue_inv y → reader y = RDrain → quiesce_requested (control y) = true → ∃ y2, served y y2.
Proof.
  intros Hq Hr Hreq. apply served_drain; [done|done|]. intros z Hqz Hrz Hrxz _ Hcz.
  eapply served_quiesce; [done|done|by rewrite Hcz|done|done].
Qed.

Lemma served_from_top y :
  queue_inv y → reader y = RTop → quiesce_requested (control y) = true → ∃ y2, served y y2.
Proof.
  intros Hq Hr Hreq. destruct (must_stop y) eqn:Hstop.
  - destruct (served_stop (at_reader y RStop) eq_refl) as [y2 H2]. exists y2.
    apply (served_step y AReader (at_reader y RStop)); [done| |done|done|exact H2].
    cbn. unfold reader_step. by rewrite Hr, Hstop.
  - destruct (served_from_drain (at_reader y RDrain)) as [y2 H2]; [by eapply queue_inv_ext, Hq|done|done|].
    exists y2. apply (served_step y AReader (at_reader y RTestDrain)); [done| |done|done|].
    { cbn. unfold reader_step. by rewrite Hr, Hstop. }
    apply (served_step _ AReader (at_reader y RDrain)); [done| |done|done|done].
    cbn. unfold reader_step. cbn. by rewrite Hreq.
Qed.

Lemma served_from_select y b :
  queue_inv y → reader y = RSelect b → quiesce_requested (control y) = true → ∃ y2, served y y2.
Proof.
  intros Hq Hr Hreq. set (pc := if must_stop y then RStop else RTop).
  assert (next_loop y ASelectTick = Some (at_reader y pc)) as Ht by (cbn; by rewrite Hr).
  assert (∃ y2, served (at_reader y pc) y2) as [y2 H2].
  { unfold pc. destruct (must_stop y); [by apply served_stop|].
    apply served_from_top; [by eapply queue_inv_ext, Hq|done|done]. }
  exists y2. by apply (served_step y ASelectTick (at_reader y pc)).
Qed.

Lemma served_from_enter y :
  queue_inv y → reader y = REnter → quiesce_requested (control y) = true → ∃ y2, served y y2.
Proof.
  intros Hq Hr Hreq.
  destruct (served_from_select (at_reader y (RSelect (negb (quiesce_requested (control y))))) _
              ltac:(by eapply queue_inv_ext, Hq) eq_refl Hreq) as [y2 H2].
  exists y2. eapply (served_step y AReader); [done|cbn; unfold reader_step; by rewrite Hr|done|done|done].
Qed.

Lemma served_here y : parked (reader y) → pending_input (writer y) = [] → served y y.
Proof. intros Hp He. split_and!; [constructor|done|done|by left]. Qed.

Lemma served_from_test y :
  queue_inv y → reader y = RTestQuiesce → quiesce_requested (control y) = true → ∃ y2, served y y2.
Proof.
  intros Hq Hr Hreq. destruct (pending_input (writer y)) as [|front rest] eqn:He.
  - eexists. apply (served_step y AReader (at_reader y RMarkQuiesced)); [done| |done|done|].
    { cbn. unfold reader_step. by rewrite Hr, Hreq, He. }
    eapply (served_step _ AReader); [done|reflexivity|done|done|].
    apply served_here; [by left|done].
  - destruct (served_from_enter (at_reader y REnter)) as [y2 H2]; [by eapply queue_inv_ext, Hq|done|done|].
    exists y2. apply (served_step y AReader (at_reader y REnter)); [done| |done|done|done].
    cbn. unfold reader_step. rewrite Hr, He. by rewrite andb_false_r.
Qed.

Lemma served_reachable y :
  queue_inv y → pc_inv y → quiesce_requested (control y) = true → ∃ y', served y y'.
Proof.
  intros Hq Hp Hreq. destruct (reader y) eqn:Hr.
  - by apply served_from_top.
  - destruct (served_from_drain (at_reader y RDrain)) as [y2 H2]; [by eapply queue_inv_ext, Hq|done|done|].
    exists y2. apply (served_step y AReader (at_reader y RDrain)); [done| |done|done|done].
    cbn. unfold reader_step. by rewrite Hr, Hreq.
  - by apply served_from_drain.
  - by apply served_from_test.
  - exists (with_control y (set_quiesced (control y) true) RInner).
    apply (served_step y AReader (with_control y (set_quiesced (control y) true) RInner)); [done| |done|done|].
    { cbn. unfold reader_step. by rewrite Hr. }
    apply served_here; [by left|]. apply Hp. auto.
  - exists y. apply served_here; rewrite ?Hr; [by left|]. apply Hp. rewrite Hr. unfold parked. auto.
  - exists y. apply served_here; rewrite ?Hr; [by right; left|]. apply Hp. rewrite Hr. unfold parked. auto.
  - exists y. apply served_here; rewrite ?Hr; [by right; right|]. apply Hp. rewrite Hr. unfold parked. auto.
  - destruct (served_from_top (with_control y (set_quiesced (control y) false) RTop)) as [y2 H2];
      [by eapply queue_inv_ext, Hq|done|done|].
    exists y2. eapply (served_step y AReader); [done|cbn; unfold reader_step; by rewrite Hr|done|done|done].
  - by apply served_from_enter.
  - by eapply served_from_select.
  - by apply served_stop.
  - eexists. eapply (served_step y AReader); [done|cbn; unfold reader_step; by rewrite Hr|done|done|].
    split_and!; [constructor|done|done|by right].
  - exists y. split_and!; [constructor|done|done|by right].
Qed.

(** A quiesce request is always served.  From every reachable state in
    which a handoff has raised the request, the reader alone, whatever it was
    doing and however much input is queued, comes to a state in which it is
    parked with nothing half written, or has ended. *)
Theorem quiesce_request_is_served y :
  reachable loop_step initial_loop y → quiesce_requested (control y) = true →
  ∃ y', reachable own_step y y' ∧ handoff y' = handoff y ∧
    (parked (reader y') ∧ pending_input (writer y') = [] ∧ quiesced (control y') = true ∨
     reader y' = REnded).
Proof.
  intros Hreach Hreq. pose proof (reachable_queue_inv y Hreach) as Hq.
  destruct (served_reachable y Hq (reachable_pc_inv y Hreach) Hreq) as (y' & Hr & Hh & Hq' & Hend).
  exists y'. split_and!; [done|done|]. destruct Hend as [[Hp He]|He]; [left|by right].
  split_and!; [done|done|]. eapply pi_inside; [|by left].
  apply reachable_pc_inv. clear -Hreach Hr. induction Hr as [|y1 y2 _ IH (a & _ & Ha)]; [done|].
  eapply reachable_step; [apply IH|by exists a].
Qed.

(** A request raised while a message is half written and another is queued. *)
Definition asked : Loop :=
  default initial_loop
    (run_loop [AEnqueue (raw [97; 98] None); AReader; AReader; AReader; AReader; ASelectReceive; AReader;
               AReader; AReader; AReader; ASelectWrite 1 0; AEnqueue (raw [99] None); AHandoff]
       initial_loop).

Lemma quiesce_request_is_served_witness :
  pending_offset (writer asked) = 1%nat ∧
  ∃ y', reachable own_step asked y' ∧ handoff y' = handoff asked ∧
    (parked (reader y') ∧ pending_input (writer y') = [] ∧ quiesced (control y') = true ∨
     reader y' = REnded).
Proof.
  split; [vm_compute; reflexivity|]. refine (quiesce_request_is_served asked _ _).
  - apply (run_loop_reachable
      [AEnqueue (raw [97; 98] None); AReader; AReader; AReader; AReader; ASelectReceive; AReader;
       AReader; AReader; AReader; ASelectWrite 1 0; AEnqueue (raw [99] None); AHandoff] _ initial_loop);
      [constructor|vm_compute; reflexivity].
  - vm_compute; reflexivity.
Defined.
