(* ===== verification/InputSystem.v ===== *)
(** * Everything that happens to a session's input, interleaved

    Producers enqueue from their own tasks, the writer drains the channel into
    the PTY, output is mirrored, and the status tick attests the composer in
    three accesses (sample the counter, read the frame, decide under the
    lock).  [next] runs one action; every interleaving of actions is a path of
    [sys_step].  The write side of [complete_declared_draft_write] is two
    accesses as well, so the interleavings include those of a writer in another
    task than the mirror. *)

From S2P Require Import Prelude RustStd Protocol DraftBytes Classify Session.
Local Open Scope Z_scope.

Inductive AttestPc :=
  | AttIdle
  | AttSampled (sample : Z)
  | AttRead (sample : Z) (frame : nat) (composer : ComposerState).

(** History, read by no operation: the inputs the channel accepted, the bytes
    the PTY took, the inputs written in full, the acknowledgements fired, the
    chunks mirrored, drafts counted, drafts whose send failed, the chunk count
    when a declared draft last reached the PTY, and the draft writes since the
    last boundary. *)
Record History := mkHistory {
  accepted : list PendingInput;
  pty : list byte;
  done_inputs : list PendingInput;
  acks : list nat;
  chunks : nat;
  drafts_counted : nat;
  drafts_lost : nat;
  landed : nat;
  typed_since : list (list byte)
}.

Record Sys := mkSys {
  sess : Session;
  wr : Writer;
  running : bool;
  att : AttestPc;
  hist : History
}.

Inductive Action :=
  | ARaw (d : list byte) (k : RawInputKind) (w : option nat)
  | ALogical (d : list byte) (w : nat)
  | AReply (d : list byte)
  | AReceive
  | ATimer (now : Z)
  | AWrite (n : nat) (now : Z)
  | AFinish
  | AMirror (mode : bool)
  | AAttest
  | AReadFrame (composer : ComposerState)
  | ADecide
  | APoison
  | AEnd.

(** ** One action *)

Definition log_accept (h : History) (input : PendingInput) : History :=
  mkHistory (accepted h ++ [input]) (pty h) (done_inputs h) (acks h) (chunks h)
    (drafts_counted h) (drafts_lost h) (landed h) (typed_since h).

Definition log_ack (h : History) (w : option nat) : History :=
  match w with
  | Some id => mkHistory (accepted h) (pty h) (done_inputs h) (acks h ++ [id]) (chunks h)
                 (drafts_counted h) (drafts_lost h) (landed h) (typed_since h)
  | None => h
  end.

Definition counts_draft (d : list byte) (k : RawInputKind) : bool :=
  match k with Draft => negb (draft_content_byte_count d =? 0) | _ => false end.

(** What a raw write does to the history of drafts; [sent] tells whether the
    channel took it. *)
Definition log_raw (h : History) (d : list byte) (k : RawInputKind) (sent : bool) : History :=
  mkHistory (accepted h) (pty h) (done_inputs h) (acks h) (chunks h)
    (if counts_draft d k then S (drafts_counted h) else drafts_counted h)
    (if counts_draft d k && negb sent then S (drafts_lost h) else drafts_lost h)
    (landed h)
    (match k with
     | Submission => []
     | Draft => typed_since h ++ [d]
     | Control => typed_since h
     end).

Definition log_write (h : History) (bytes : list byte) : History :=
  mkHistory (accepted h) (pty h ++ bytes) (done_inputs h) (acks h) (chunks h)
    (drafts_counted h) (drafts_lost h) (landed h) (typed_since h).

Definition log_done (h : History) (input : PendingInput) : History :=
  mkHistory (accepted h) (pty h) (done_inputs h ++ [input]) (acks h) (chunks h)
    (drafts_counted h) (drafts_lost h)
    (if declared_draft input then chunks h else landed h) (typed_since h).

Definition log_mirror (h : History) : History :=
  mkHistory (accepted h) (pty h) (done_inputs h) (acks h) (S (chunks h))
    (drafts_counted h) (drafts_lost h) (landed h) (typed_since h).

Definition log_boundary (h : History) : History :=
  mkHistory (accepted h) (pty h) (done_inputs h) (acks h) (chunks h)
    (drafts_counted h) (drafts_lost h) (landed h) [].

Definition set_channel (s : Session) (c : list PendingInput) : Session :=
  mkSession c (receiver_open s) (ledger s) (poisoned s) (mirrored_chunks s)
    (bracketed_paste_mode s).

Definition close (s : Session) : Session :=
  mkSession (channel s) false (ledger s) (poisoned s) (mirrored_chunks s)
    (bracketed_paste_mode s).

(** The loop leaves: the receiver is dropped with it. *)
Definition ended (y : Sys) : Sys := mkSys (close (sess y)) (wr y) false (att y) (hist y).

Definition do_raw (y : Sys) (d : list byte) (k : RawInputKind) (w : option nat) : Sys :=
  let '(s, r) := enqueue_raw_input_with_ack (sess y) d k w in
  match r with
  | Ok _ =>
      mkSys s (wr y) (running y) (att y)
        (log_accept (log_raw (hist y) d k true) (route_raw (ledger (sess y)) d k w).2)
  | Err Closed => mkSys s (wr y) (running y) (att y) (log_raw (hist y) d k false)
  | Err CoordinationUnavailable => y
  end.

Definition do_send (y : Sys) (input : PendingInput) (r : result Session InputQueueError) : Sys :=
  match r with
  | Ok s => mkSys s (wr y) (running y) (att y) (log_accept (hist y) input)
  | Err _ => y
  end.

Definition do_receive (y : Sys) : option Sys :=
  match channel (sess y) with
  | input :: rest =>
      let '(w, ack) := writer_receive (wr y) input in
      Some (mkSys (set_channel (sess y) rest) w (running y) (att y) (log_ack (hist y) ack))
  | [] => None
  end.

(** The writable branch: enabled with a pending input, no pause, and the
    accounting of the previous input over; the PTY takes [n] of the bytes
    offered. *)
Definition do_write (y : Sys) (n : nat) (now : Z) : option Sys :=
  match pending_input (wr y), submit_pause (wr y), finishing (wr y) with
  | front :: _, None, None =>
      let slice := drop (pending_offset (wr y)) (data front) in
      if bool_decide (n ≤ length slice)%nat then
        let w := writer_wrote (wr y) n now in
        let h := log_write (hist y) (take n slice) in
        Some (mkSys (sess y) w (running y) (att y)
                (match finishing w with Some (input, _) => log_done h input | None => h end))
      else None
  | _, _, _ => None
  end.

Definition set_finishing (w : Writer) (f : option (PendingInput * option Z)) : Writer :=
  mkWriter (pending_input w) (pending_offset w) (submit_pause w) f.

(** Accounting of a written input: load the counter, record the completion,
    acknowledge. *)
Definition do_finish (y : Sys) : option Sys :=
  match finishing (wr y) with
  | None => None
  | Some (input, loaded) =>
      if negb (declared_draft input) then
        Some (mkSys (sess y) (set_finishing (wr y) None) (running y) (att y)
                (log_ack (hist y) (written input)))
      else
        match loaded with
        | None =>
            Some (mkSys (sess y)
                    (set_finishing (wr y) (Some (input, Some (mirrored_chunks (sess y)))))
                    (running y) (att y) (hist y))
        | Some sampled =>
            match complete_declared_draft_write (sess y) sampled with
            | Ok s =>
                Some (mkSys s (set_finishing (wr y) None) (running y) (att y)
                        (log_ack (hist y) (written input)))
            | Err _ => Some (ended y)
            end
        end
  end.

Definition do_decide (y : Sys) : option Sys :=
  match att y with
  | AttRead sample _ composer =>
      if poisoned (sess y) then Some (mkSys (sess y) (wr y) (running y) AttIdle (hist y))
      else
        let '(resolved, l) := attest_decide (ledger (sess y)) sample composer in
        Some (mkSys (set_ledger (sess y) l) (wr y) (running y) AttIdle
                (if resolved then log_boundary (hist y) else hist y))
  | _ => None
  end.

Definition poison (s : Session) : Session :=
  mkSession (channel s) (receiver_open s) (ledger s) true (mirrored_chunks s)
    (bracketed_paste_mode s).

Definition next (y : Sys) (a : Action) : option Sys :=
  match a with
  | ARaw d k w => Some (do_raw y d k w)
  | ALogical d w =>
      Some (do_send y (logical d (Some w) (bracketed_paste_mode (sess y)))
              (enqueue_logical_input (sess y) d w))
  | AReply d => Some (do_send y (raw d None) (enqueue_terminal_reply (sess y) d))
  | AReceive => if running y then do_receive y else None
  | ATimer now =>
      if running y then Some (mkSys (sess y) (writer_timer (wr y) now) true (att y) (hist y))
      else None
  | AWrite n now => if running y then do_write y n now else None
  | AFinish => if running y then do_finish y else None
  | AMirror mode =>
      Some (mkSys (count_mirrored (sess y) mode) (wr y) (running y) (att y) (log_mirror (hist y)))
  | AAttest =>
      match att y with
      | AttIdle =>
          if attestation_unresolved (sess y)
          then Some (mkSys (sess y) (wr y) (running y) (AttSampled (mirrored_chunks (sess y))) (hist y))
          else None
      | _ => None
      end
  | AReadFrame composer =>
      match att y with
      | AttSampled sample =>
          Some (mkSys (sess y) (wr y) (running y) (AttRead sample (chunks (hist y)) composer) (hist y))
      | _ => None
      end
  | ADecide => do_decide y
  | APoison => Some (mkSys (poison (sess y)) (wr y) (running y) (att y) (hist y))
  | AEnd => if running y then Some (ended y) else None
  end.

Definition sys_step (y y' : Sys) : Prop := ∃ a, next y a = Some y'.

(** A session as [SessionHandle::new] makes it. *)
Definition initial_sys (l : InputCoordinationState) (mode : bool) (held : list (list byte)) : Sys :=
  mkSys (SessionHandle_new l mode held) new_writer true AttIdle
    (mkHistory (map (λ d, logical d None mode) held) [] [] [] 0 0 0 0 []).

(** Running a list of actions, for examples. *)
Definition run (y : Sys) (l : list Action) : option Sys :=
  fold_left (λ y a, y ≫= λ y, next y a) l (Some y).

Lemma run_reachable y l y' : run y l = Some y' → reachable sys_step y y'.
Proof.
  unfold run. revert y'. induction l as [|a l IH] using rev_ind; intros y'.
  { intros [= <-]. constructor. }
  rewrite fold_left_app. cbn. destruct (fold_left _ l (Some y)) as [y1|] eqn:H1; cbn; [|done].
  intros Hn. eapply reachable_step; [by apply IH|]. by exists a.
Qed.

(** ** The byte stream *)

Definition bytes_of (l : list PendingInput) : list byte := mjoin (map data l).
Definition nonempty (l : list PendingInput) : list PendingInput :=
  List.filter (λ i, negb (bool_decide (data i = []))) l.

(** What has been accepted and is not on the PTY yet. *)
Definition unwritten (y : Sys) : list byte :=
  drop (pending_offset (wr y)) (bytes_of (pending_input (wr y))) ++ bytes_of (channel (sess y)).

Lemma bytes_of_app a b : bytes_of (a ++ b) = bytes_of a ++ bytes_of b.
Proof. unfold bytes_of. by rewrite map_app, join_app. Qed.
Lemma bytes_of_cons i l : bytes_of (i :: l) = data i ++ bytes_of l.
Proof. done. Qed.
Lemma nonempty_app a b : nonempty (a ++ b) = nonempty a ++ nonempty b.
Proof. apply List.filter_app. Qed.
Lemma nonempty_cons i l :
  nonempty (i :: l) = if bool_decide (data i = []) then nonempty l else i :: nonempty l.
Proof. unfold nonempty. cbn. by destruct (bool_decide _). Qed.
Lemma bytes_of_nonempty l : bytes_of (nonempty l) = bytes_of l.
Proof.
  induction l as [|i l IH]; [done|]. rewrite nonempty_cons, bytes_of_cons, <-IH.
  case_bool_decide as Hd; [by rewrite Hd|done].
Qed.

Definition offset_ok (w : Writer) : Prop :=
  match pending_input w with
  | [] => pending_offset w = 0%nat
  | front :: _ => (pending_offset w < length (data front))%nat
  end.

Definition acked (h : History) (id : nat) : Prop :=
  ∃ i, written i = Some id ∧ (i ∈ done_inputs h ∨ i ∈ accepted h ∧ data i = []).

Record stream_inv (s : Session) (w : Writer) (h : History) : Prop := mkStreamInv {
  si_pty : pty h = bytes_of (done_inputs h) ++ take (pending_offset w) (bytes_of (pending_input w));
  si_pending : Forall (λ i, data i ≠ []) (pending_input w);
  si_offset : offset_ok w;
  si_channel : Forall (λ i, kind i = Logical → data i ≠ []) (channel s);
  si_order : nonempty (accepted h) = done_inputs h ++ pending_input w ++ nonempty (channel s);
  si_acks : Forall (acked h) (acks h);
  si_finishing : ∀ i l, finishing w = Some (i, l) → i ∈ done_inputs h;
  si_members : ∀ i, i ∈ channel s → i ∈ accepted h
}.

Lemma logical_nonempty d w mode : data (logical d w mode) ≠ [].
Proof.
  cbn. unfold logical_message_bytes. case_bool_decide; [done|].
  case_if; [by destruct d|done].
Qed.

Lemma acked_mono h h' id :
  (∀ i, i ∈ done_inputs h → i ∈ done_inputs h') → (∀ i, i ∈ accepted h → i ∈ accepted h') →
  acked h id → acked h' id.
Proof. intros Hd Ha (i & Hw & [?|[? ?]]); exists i; eauto. Qed.

(** The parts of the state each action can leave alone. *)
Lemma stream_inv_ext s s' w w' h h' :
  channel s' = channel s → pending_input w' = pending_input w →
  pending_offset w' = pending_offset w →
  (finishing w' = finishing w ∨ finishing w' = None ∨
   ∃ i l l', finishing w = Some (i, l) ∧ finishing w' = Some (i, l')) →
  accepted h' = accepted h → pty h' = pty h → done_inputs h' = done_inputs h → acks h' = acks h →
  stream_inv s w h → stream_inv s' w' h'.
Proof.
  intros Hc Hp Ho Hf Ha Hpty Hd Hk [H1 H2 H3 H4 H5 H6 H7 H8].
  constructor; rewrite ?Hc, ?Hp, ?Ho, ?Ha, ?Hpty, ?Hd, ?Hk; try done.
  - unfold offset_ok in *. by rewrite Hp, Ho.
  - eapply Forall_impl; [exact H6|]. intros id. apply acked_mono; by rewrite ?Hd, ?Ha.
  - intros i l Hi. destruct Hf as [Hf|[Hf|(j & l1 & l2 & Hf & Hf')]]; [rewrite Hf in Hi; eauto|congruence|].
    rewrite Hf' in Hi. injection Hi as <- _. eauto.
Qed.

(** Field access, without touching the lists. *)
Ltac sys_simpl :=
  cbn [pending_input pending_offset submit_pause finishing channel receiver_open ledger poisoned
       mirrored_chunks bracketed_paste_mode accepted pty done_inputs acks chunks drafts_counted
       drafts_lost landed typed_since sess wr running att hist set_channel close set_ledger poison
       log_accept log_ack log_raw log_write log_done log_mirror log_boundary set_finishing
       count_mirrored] in *.

Lemma stream_inv_accept s w h i :
  (kind i = Logical → data i ≠ []) →
  stream_inv s w h → stream_inv (set_channel s (channel s ++ [i])) w (log_accept h i).
Proof.
  intros Hi [H1 H2 H3 H4 H5 H6 H7 H8]. constructor; sys_simpl; try done.
  - apply Forall_app. auto.
  - by rewrite !nonempty_app, H5, <-!app_assoc.
  - eapply Forall_impl; [exact H6|]. intros id. apply acked_mono; [done|].
    intros j ?. cbn. apply elem_of_app. by left.
  - intros j [Hj|Hj]%elem_of_app; apply elem_of_app; auto.
Qed.

Lemma stream_inv_ack s w h id :
  acked h id → stream_inv s w h → stream_inv s w (log_ack h (Some id)).
Proof.
  intros Hid [H1 H2 H3 H4 H5 H6 H7 H8]. constructor; sys_simpl; try done.
  apply Forall_app. auto.
Qed.

Lemma nonempty_length {A} (l : list A) : l ≠ [] → (0 < length l)%nat.
Proof. destruct l; cbn; [done|lia]. Qed.

Lemma take_offset_app w l :
  offset_ok w →
  take (pending_offset w) (bytes_of (pending_input w ++ l)) =
  take (pending_offset w) (bytes_of (pending_input w)).
Proof.
  unfold offset_ok. rewrite bytes_of_app. destruct (pending_input w) as [|f rest].
  - intros ->. done.
  - intros Hlt. apply take_app_le. rewrite bytes_of_cons, length_app. lia.
Qed.

Lemma stream_inv_receive s w h i rest w' ack :
  channel s = i :: rest → writer_receive w i = (w', ack) →
  stream_inv s w h → stream_inv (set_channel s rest) w' (log_ack h ack).
Proof.
  intros Hc Hr [H1 H2 H3 H4 H5 H6 H7 H8]. rewrite Hc in *.
  apply Forall_cons in H4 as [Hi H4]. rewrite nonempty_cons in H5.
  assert (∀ j, j ∈ rest → j ∈ accepted h) as Hmem by (intros j ?; apply H8; by right).
  unfold writer_receive in Hr. destruct (bool_decide (data i = [])) eqn:Hd; cbn [andb] in Hr.
  - apply bool_decide_eq_true in Hd. case_bool_decide as Hk; injection Hr as <- <-.
    + assert (stream_inv (set_channel s rest) w h) as Hinv by by constructor.
      destruct (written i) as [id|] eqn:Hw; [|done]. apply stream_inv_ack; [|done].
      exists i. split; [done|]. right. split; [apply H8; by left|done].
    + destruct Hi; [by destruct (kind i)|done].
  - apply bool_decide_eq_false in Hd. injection Hr as <- <-. constructor; sys_simpl; try done.
    + by rewrite take_offset_app.
    + apply Forall_app. auto.
    + unfold offset_ok in *. sys_simpl. destruct (pending_input w); [|done].
      rewrite H3. by apply nonempty_length.
    + by rewrite H5, <-app_assoc.
Qed.

Lemma stream_inv_wrote s w h n now front rest :
  pending_input w = front :: rest → finishing w = None →
  (n ≤ length (drop (pending_offset w) (data front)))%nat →
  stream_inv s w h →
  let w' := writer_wrote w n now in
  let h' := log_write h (take n (drop (pending_offset w) (data front))) in
  stream_inv s w' (match finishing w' with Some (i, _) => log_done h' i | None => h' end).
Proof.
  intros Hp Hf Hn [H1 H2 H3 H4 H5 H6 H7 H8]. cbn zeta. unfold writer_wrote, offset_ok in *.
  rewrite Hp in *. apply Forall_cons in H2 as [Hfront H2]. rewrite length_drop in Hn.
  rewrite bytes_of_cons, take_app_le in H1 by lia.
  case_bool_decide as Hz.
  { subst n. rewrite Hf. constructor; unfold offset_ok; rewrite ?Hp; sys_simpl; try done.
    - rewrite app_nil_r, bytes_of_cons, take_app_le by lia. done.
    - by constructor. }
  case_bool_decide as Hdone; cbn [finishing].
  - assert (n = length (data front) - pending_offset w)%nat as -> by lia.
    constructor; sys_simpl; try done.
    + rewrite H1, bytes_of_app, bytes_of_cons, <-!app_assoc. f_equal.
      rewrite (take_ge (drop _ _)) by (rewrite length_drop; lia).
      rewrite app_assoc, take_drop. by rewrite !app_nil_r.
    + unfold offset_ok. sys_simpl. destruct rest as [|f2 rest]; [done|].
      apply Forall_cons in H2 as [Hf2 _]. by apply nonempty_length.
    + by rewrite H5, <-app_assoc.
    + eapply Forall_impl; [exact H6|]. intros id. apply acked_mono; [|done].
      intros j ?. cbn. apply elem_of_app. by left.
    + intros i l [= <- _]. apply elem_of_app. right. by apply list_elem_of_singleton.
  - rewrite Hf. constructor; unfold offset_ok; sys_simpl; try done.
    + rewrite H1, bytes_of_cons, <-app_assoc. f_equal. rewrite take_app_le by lia.
      rewrite <-(take_drop (pending_offset w) (take (pending_offset w + n) (data front))).
      rewrite take_take, Nat.min_l by lia. f_equal.
      rewrite skipn_firstn_comm. f_equal. lia.
    + by constructor.
    + lia.
Qed.

Definition sys_stream_inv (y : Sys) : Prop := stream_inv (sess y) (wr y) (hist y).

(** Closes the actions that touch neither the queue nor the stream. *)
Ltac stream_frame := eapply stream_inv_ext; [..|eassumption]; sys_simpl; auto.

Lemma stream_inv_send y i r :
  sys_stream_inv y → send (sess y) i = r → (kind i = Logical → data i ≠ []) →
  sys_stream_inv (do_send y i r).
Proof.
  intros Hy <- Hi. unfold do_send, send. destruct (receiver_open (sess y)); [|done].
  pose proof (stream_inv_accept _ _ _ i Hi Hy). unfold sys_stream_inv. stream_frame.
Qed.

Lemma route_raw_kind l d k w : kind (route_raw l d k w).2 = Raw.
Proof. unfold route_raw. destruct k; cbv zeta; [by destruct (_ =? 0)|done..]. Qed.

Lemma stream_inv_raw y d k w : sys_stream_inv y → sys_stream_inv (do_raw y d k w).
Proof.
  intros Hy. unfold do_raw, enqueue_raw_input_with_ack. destruct (poisoned (sess y)); [done|].
  destruct (route_raw (ledger (sess y)) d k w) as [l i] eqn:Hr. unfold send.
  destruct (receiver_open (set_ledger (sess y) l)) eqn:Ho.
  - assert (kind i = Raw) as Hk by (change i with (l, i).2; rewrite <-Hr; apply route_raw_kind).
    assert (kind i = Logical → data i ≠ []) as Hi by congruence.
    pose proof (stream_inv_accept _ _ _ i Hi Hy). unfold sys_stream_inv. sys_simpl. stream_frame.
  - unfold sys_stream_inv in *. sys_simpl. stream_frame.
Qed.

Lemma stream_inv_finish y y' : sys_stream_inv y → do_finish y = Some y' → sys_stream_inv y'.
Proof.
  unfold do_finish, sys_stream_inv. intros Hy.
  destruct (finishing (wr y)) as [[i loaded]|] eqn:Hf; [|done].
  assert (∀ s w, channel s = channel (sess y) → w = set_finishing (wr y) None →
            stream_inv s w (log_ack (hist y) (written i))) as Hack.
  { intros s w Hc ->.
    assert (stream_inv s (set_finishing (wr y) None) (hist y)) as Hbase by stream_frame.
    destruct (written i) as [id|] eqn:Hw; [|done]. apply stream_inv_ack; [|done].
    exists i. split; [done|]. left. exact (si_finishing _ _ _ Hy i loaded Hf). }
  destruct (declared_draft i); cbn [negb].
  - destruct loaded as [m|].
    + unfold complete_declared_draft_write. destruct (poisoned (sess y)); intros [= <-]; sys_simpl.
      * unfold ended. sys_simpl. stream_frame.
      * by apply Hack.
    + intros [= <-]. sys_simpl. stream_frame. right. right. by eauto.
  - intros [= <-]. sys_simpl. by apply Hack.
Qed.

Lemma stream_inv_step y y' : sys_stream_inv y → sys_step y y' → sys_stream_inv y'.
Proof.
  intros Hy [a Ha]. destruct a as [d k w|d w|d| |now|n now| |mode| |c| | |]; cbn [next] in Ha.
  - injection Ha as <-. by apply stream_inv_raw.
  - injection Ha as <-. apply stream_inv_send; [done|done|]. intros _. apply logical_nonempty.
  - injection Ha as <-. by apply stream_inv_send.
  - destruct (running y); [|done]. unfold do_receive in Ha.
    destruct (channel (sess y)) as [|i rest] eqn:Hc; [done|].
    destruct (writer_receive (wr y) i) as [w' ack] eqn:Hr. injection Ha as <-.
    unfold sys_stream_inv. sys_simpl. by eapply stream_inv_receive.
  - destruct (running y); [|done]. injection Ha as <-. unfold sys_stream_inv in *. sys_simpl.
    unfold writer_timer. destruct (submit_pause (wr y)); [|done]. case_if; [|done]. stream_frame.
  - destruct (running y); [|done]. unfold do_write in Ha.
    destruct (pending_input (wr y)) as [|front rest] eqn:Hp; [done|].
    destruct (submit_pause (wr y)); [done|]. destruct (finishing (wr y)) eqn:Hf; [done|].
    case_bool_decide as Hn; [|done]. injection Ha as <-. unfold sys_stream_inv. sys_simpl.
    by eapply stream_inv_wrote.
  - destruct (running y); [|done]. by eapply stream_inv_finish.
  - injection Ha as <-. unfold sys_stream_inv in *. sys_simpl. stream_frame.
  - destruct (att y); try done. destruct (attestation_unresolved (sess y)); [|done].
    by injection Ha as <-.
  - destruct (att y); try done. by injection Ha as <-.
  - unfold do_decide in Ha. destruct (att y) as [| |sample frame c]; try done.
    destruct (poisoned (sess y)); [by injection Ha as <-|].
    destruct (attest_decide _ _ _) as [resolved l]. injection Ha as <-.
    unfold sys_stream_inv in *. sys_simpl. destruct resolved; sys_simpl; stream_frame.
  - injection Ha as <-. unfold sys_stream_inv in *. sys_simpl. stream_frame.
  - destruct (running y); [|done]. injection Ha as <-. unfold sys_stream_inv, ended in *. sys_simpl.
    stream_frame.
Qed.

Lemma initial_stream_inv l mode held : sys_stream_inv (initial_sys l mode held).
Proof.
  unfold sys_stream_inv, initial_sys, SessionHandle_new, new_writer. sys_simpl.
  constructor; sys_simpl; try done.
  apply Forall_map, Forall_true. intros d _. apply logical_nonempty.
Qed.

Lemma reachable_stream_inv l mode held y :
  reachable sys_step (initial_sys l mode held) y → sys_stream_inv y.
Proof. apply reachable_invariant; [apply initial_stream_inv|apply stream_inv_step]. Qed.

Lemma stream_split y :
  sys_stream_inv y → bytes_of (accepted (hist y)) = pty (hist y) ++ unwritten y.
Proof.
  intros [H1 H2 H3 H4 H5 H6 H7 H8]. unfold unwritten.
  rewrite <-(bytes_of_nonempty (accepted (hist y))), H5, !bytes_of_app, H1, bytes_of_nonempty.
  rewrite <-!app_assoc. f_equal. rewrite app_assoc, take_drop. done.
Qed.

(** C1: the PTY receives exactly the accepted input, in the order it was
    accepted.  However producers, the writer, mirrored output, attestation and
    a failing lock interleave, and however few bytes each PTY write takes, the
    bytes on the PTY followed by the bytes still queued (in the writer from
    its offset, then in the channel) are the concatenation of every accepted
    input: nothing is lost, duplicated, reordered or interleaved, and messages
    a predecessor held at handoff come first. *)
Theorem pty_stream_is_accepted_input l mode held y :
  reachable sys_step (initial_sys l mode held) y →
  bytes_of (accepted (hist y)) = pty (hist y) ++ unwritten y.
Proof. intros Hr. by eapply stream_split, reachable_stream_inv. Qed.

(** An acknowledgement means what its caller assumes: when the ticket of
    an input has fired, that input was accepted, and either it was empty or
    the PTY has received every byte of it, after every byte of every input
    accepted before it. *)
Theorem acknowledged_input_is_on_the_pty l mode held y id :
  reachable sys_step (initial_sys l mode held) y →
  id ∈ acks (hist y) →
  ∃ i, i ∈ accepted (hist y) ∧ written i = Some id ∧
    (data i = [] ∨
     ∃ before after, nonempty (accepted (hist y)) = before ++ i :: after ∧
       (bytes_of before ++ data i) `prefix_of` pty (hist y)).
Proof.
  intros Hr%reachable_stream_inv Hin. destruct Hr as [H1 H2 H3 H4 H5 H6 H7 H8].
  rewrite Forall_forall in H6. destruct (H6 id Hin) as (i & Hw & [Hdone|[Hacc Hd]]).
  - exists i. apply list_elem_of_split in Hdone as (before & after & Hdone).
    split_and!; [|done|].
    + assert (i ∈ nonempty (accepted (hist y))) as Hi.
      { rewrite H5, Hdone. rewrite !elem_of_app, elem_of_cons. auto. }
      unfold nonempty in Hi. rewrite list_elem_of_In in Hi. apply filter_In in Hi as [Hi _].
      by rewrite list_elem_of_In.
    + right. exists before, (after ++ pending_input (wr y) ++ nonempty (channel (sess y))).
      split; [by rewrite H5, Hdone, <-app_assoc|].
      rewrite H1, Hdone, bytes_of_app, bytes_of_cons. eexists. by rewrite <-!app_assoc.
  - exists i. auto.
Qed.

(** ** Attestation waits for drafts to land *)

Definition draft_count (l : list PendingInput) : nat := length (List.filter declared_draft l).

(** Declared drafts accepted by the ledger whose write is not yet recorded. *)
Definition outstanding (s : Session) (w : Writer) : nat :=
  (draft_count (channel s) + draft_count (pending_input w) +
   match finishing w with Some (i, _) => if declared_draft i then 1 else 0 | None => 0 end)%nat.

Definition u64_of (n : nat) : Z := Z.of_nat n mod (U64_MAX + 1).

Record count_inv (s : Session) (w : Writer) (h : History) : Prop := mkCountInv {
  ci_enqueued : declared_draft_writes_enqueued (ledger s) = u64_of (drafts_counted h);
  ci_completed : ∃ n, declared_draft_writes_completed (ledger s) = u64_of n ∧
                      (n + outstanding s w + drafts_lost h = drafts_counted h)%nat;
  ci_drafts : Forall (λ i, declared_draft i = true → data i ≠ []) (channel s);
  ci_logical : Forall (λ i, kind i = Logical → data i ≠ []) (channel s)
}.

(** Order of the events a frame is evidence about, as long as the chunk counter
    has not wrapped. *)
Record frame_inv (s : Session) (w : Writer) (a : AttestPc) (h : History) : Prop := mkFrameInv {
  fi_mirrored : mirrored_chunks s = Z.of_nat (chunks h);
  fi_landed : (landed h ≤ chunks h)%nat;
  fi_last : mirrored_chunks_at_last_draft_write (ledger s) ≤ Z.of_nat (chunks h);
  fi_recorded :
    match finishing w with
    | Some (i, loaded) =>
        if declared_draft i
        then match loaded with
             | Some m => Z.of_nat (landed h) ≤ m ≤ Z.of_nat (chunks h)
             | None => True
             end
        else Z.of_nat (landed h) ≤ mirrored_chunks_at_last_draft_write (ledger s)
    | None => Z.of_nat (landed h) ≤ mirrored_chunks_at_last_draft_write (ledger s)
    end;
  fi_attest :
    match a with
    | AttIdle => True
    | AttSampled sample => sample ≤ Z.of_nat (chunks h)
    | AttRead sample frame _ => sample ≤ Z.of_nat frame ∧ (frame ≤ chunks h)%nat
    end
}.

Definition draft_inv (y : Sys) : Prop :=
  count_inv (sess y) (wr y) (hist y) ∧
  (Z.of_nat (chunks (hist y)) ≤ U64_MAX → frame_inv (sess y) (wr y) (att y) (hist y)).

Lemma u64_of_succ n : u64_add (u64_of n) 1 = u64_of (S n).
Proof. unfold u64_add, u64_of. rewrite Zplus_mod_idemp_l. f_equal. lia. Qed.

Lemma u64_of_small n : Z.of_nat n ≤ U64_MAX → u64_of n = Z.of_nat n.
Proof. intros. unfold u64_of. apply Z.mod_small. unfold U64_MAX in *. lia. Qed.

Lemma draft_count_app a b : draft_count (a ++ b) = (draft_count a + draft_count b)%nat.
Proof. unfold draft_count. by rewrite List.filter_app, length_app. Qed.

Lemma draft_count_one i : draft_count [i] = if declared_draft i then 1%nat else 0%nat.
Proof. unfold draft_count. cbn. by destruct (declared_draft i). Qed.

Lemma draft_count_cons i l :
  draft_count (i :: l) = ((if declared_draft i then 1 else 0) + draft_count l)%nat.
Proof. unfold draft_count. cbn. by destruct (declared_draft i). Qed.

(** A routed raw write is a declared draft exactly when the ledger counts it,
    and then it has bytes to write. *)
Lemma route_raw_spec l d k w l' i :
  route_raw l d k w = (l', i) →
  kind i = Raw ∧ declared_draft i = counts_draft d k ∧
  (declared_draft i = true → data i ≠ []) ∧
  declared_draft_writes_enqueued l' =
    (if counts_draft d k then u64_add (declared_draft_writes_enqueued l) 1
     else declared_draft_writes_enqueued l) ∧
  declared_draft_writes_completed l' = declared_draft_writes_completed l ∧
  mirrored_chunks_at_last_draft_write l' = mirrored_chunks_at_last_draft_write l.
Proof.
  unfold route_raw, counts_draft. destruct k; cbv zeta.
  - destruct (draft_content_byte_count d =? 0) eqn:Hc; intros [= <- <-]; cbn; split_and!; try done.
    intros _ ->. by rewrite draft_count_nil in Hc.
  - by intros [= <- <-].
  - by intros [= <- <-].
Qed.

(** Actions that leave the counted state alone. *)
Lemma count_inv_ext s s' w w' h h' :
  ledger s' = ledger s → channel s' = channel s → pending_input w' = pending_input w →
  outstanding s' w' = outstanding s w →
  drafts_counted h' = drafts_counted h → drafts_lost h' = drafts_lost h →
  count_inv s w h → count_inv s' w' h'.
Proof.
  intros Hl Hc Hp Ho Hd Hlost [H1 H2 H3 H4]. constructor; rewrite ?Hl, ?Hc, ?Hd, ?Hlost, ?Ho; done.
Qed.

Lemma frame_inv_ext s s' w w' a h h' :
  ledger s' = ledger s → mirrored_chunks s' = mirrored_chunks s → finishing w' = finishing w →
  chunks h' = chunks h → landed h' = landed h → frame_inv s w a h → frame_inv s' w' a h'.
Proof.
  intros Hl Hm Hf Hc Hd [H1 H2 H3 H4 H5].
  constructor; rewrite ?Hl, ?Hm, ?Hf, ?Hc, ?Hd; done.
Qed.

Lemma draft_inv_raw y d k w : draft_inv y → draft_inv (do_raw y d k w).
Proof.
  intros [Hc Hf]. unfold do_raw, enqueue_raw_input_with_ack.
  destruct (poisoned (sess y)); [done|].
  destruct (route_raw (ledger (sess y)) d k w) as [l i] eqn:Hr.
  destruct (route_raw_spec _ _ _ _ _ _ Hr) as (Hk & Hd & Hne & Henq & Hcomp & Hlast).
  destruct Hc as [H1 (n & H2 & Hn) H3 H4]. unfold send, outstanding in *. sys_simpl.
  assert ((if counts_draft d k then u64_add (declared_draft_writes_enqueued (ledger (sess y))) 1
           else declared_draft_writes_enqueued (ledger (sess y))) =
          u64_of (if counts_draft d k then S (drafts_counted (hist y)) else drafts_counted (hist y)))
    as Hcount.
  { destruct (counts_draft d k); [|done]. by rewrite H1, u64_of_succ. }
  destruct (receiver_open (sess y)) eqn:Ho; unfold draft_inv; sys_simpl; (split; [|]).
  - constructor; sys_simpl.
    + by rewrite Henq.
    + exists n. split; [by rewrite Hcomp|]. unfold outstanding. sys_simpl.
      rewrite draft_count_app, draft_count_one, Hd.
      destruct (counts_draft d k); cbn [andb negb]; lia.
    + apply Forall_app. auto.
    + apply Forall_app. split; [done|]. constructor; [|done]. congruence.
  - intros Hb. destruct (Hf Hb) as [F1 F2 F3 F4 F5]. constructor; sys_simpl; rewrite ?Hlast; done.
  - constructor; sys_simpl.
    + by rewrite Henq.
    + exists n. split; [by rewrite Hcomp|]. unfold outstanding. sys_simpl.
      destruct (counts_draft d k); cbn [andb negb]; lia.
    + done.
    + done.
  - intros Hb. destruct (Hf Hb) as [F1 F2 F3 F4 F5]. constructor; sys_simpl; rewrite ?Hlast; done.
Qed.

Lemma draft_inv_send y i r :
  draft_inv y → send (sess y) i = r → declared_draft i = false →
  (kind i = Logical → data i ≠ []) → draft_inv (do_send y i r).
Proof.
  intros [Hc Hf] <- Hd Hk. unfold do_send, send. destruct (receiver_open (sess y)); [|done].
  destruct Hc as [H1 (n & H2 & Hn) H3 H4]. unfold draft_inv. sys_simpl. split.
  - constructor; sys_simpl; [done| | |].
    + exists n. split; [done|]. unfold outstanding in *. sys_simpl.
      rewrite draft_count_app, draft_count_one, Hd. lia.
    + apply Forall_app. split; [done|]. constructor; [congruence|done].
    + apply Forall_app. auto.
  - intros Hb. specialize (Hf Hb). by eapply frame_inv_ext; [..|exact Hf].
Qed.

Lemma draft_inv_receive y y' : draft_inv y → do_receive y = Some y' → draft_inv y'.
Proof.
  intros [Hc Hf]. unfold do_receive. destruct (channel (sess y)) as [|i rest] eqn:Hch; [done|].
  destruct Hc as [H1 (n & H2 & Hn) H3 H4]. rewrite Hch in *.
  apply Forall_cons in H3 as [Hi H3]. apply Forall_cons in H4 as [Hl H4].
  unfold writer_receive.
  destruct (bool_decide (data i = []) && bool_decide (kind i = Raw)) eqn:He; intros [= <-];
    unfold draft_inv; sys_simpl.
  - apply andb_true_iff in He as [He _]. apply bool_decide_eq_true in He.
    assert (declared_draft i = false) as Hd.
    { destruct (declared_draft i); [|done]. by destruct (Hi eq_refl). }
    assert (∀ h, drafts_counted (log_ack h (written i)) = drafts_counted h ∧
                 drafts_lost (log_ack h (written i)) = drafts_lost h ∧
                 chunks (log_ack h (written i)) = chunks h ∧
                 landed (log_ack h (written i)) = landed h) as Hlog by (by destruct (written i)).
    destruct (Hlog (hist y)) as (E1 & E2 & E3 & E4). split.
    + constructor; sys_simpl; rewrite ?E1, ?E2; try done.
      exists n. split; [done|]. unfold outstanding in *. rewrite Hch, draft_count_cons, Hd in Hn.
      sys_simpl. lia.
    + rewrite E3. intros Hb. specialize (Hf Hb). by eapply frame_inv_ext; [..|exact Hf].
  - split.
    + constructor; sys_simpl; try done.
      exists n. split; [done|]. unfold outstanding in *. rewrite Hch, draft_count_cons in Hn.
      sys_simpl. rewrite draft_count_app, draft_count_one. lia.
    + intros Hb. specialize (Hf Hb). by eapply frame_inv_ext; [..|exact Hf].
Qed.

Lemma draft_inv_write y y' n now : draft_inv y → do_write y n now = Some y' → draft_inv y'.
Proof.
  intros [Hc Hf]. unfold do_write.
  destruct (pending_input (wr y)) as [|front rest] eqn:Hp; [done|].
  destruct (submit_pause (wr y)) as [|]; [done|]. destruct (finishing (wr y)) eqn:Hfin; [done|].
  case_bool_decide as Hn; [|done]. intros [= <-]. unfold writer_wrote. rewrite Hp.
  assert (count_inv (sess y) (wr y) (log_write (hist y) (take n (drop (pending_offset (wr y)) (data front)))))
    as Hc' by (eapply count_inv_ext; [..|exact Hc]; done).
  case_bool_decide; [|case_bool_decide as Hdone].
  - rewrite Hfin. split; [exact Hc'|]. sys_simpl. intros Hb. specialize (Hf Hb).
    by eapply frame_inv_ext; [..|exact Hf].
  - sys_simpl. destruct Hc as [H1 (m & H2 & Hm) H3 H4]. unfold outstanding in Hm.
    rewrite Hp, Hfin, draft_count_cons in Hm. split.
    + constructor; sys_simpl; try done. exists m. split; [done|]. unfold outstanding. sys_simpl. lia.
    + sys_simpl. intros Hb. destruct (Hf Hb) as [F1 F2 F3 F4 F5]. rewrite Hfin in F4.
      constructor; sys_simpl; try done; destruct (declared_draft front); done.
  - rewrite Hfin. split; sys_simpl.
    + eapply count_inv_ext; [..|exact Hc]; try done.
      unfold outstanding. sys_simpl. by rewrite Hp, Hfin.
    + intros Hb. specialize (Hf Hb). eapply frame_inv_ext; [..|exact Hf]; by rewrite ?Hfin.
Qed.

Lemma log_ack_counts h w :
  drafts_counted (log_ack h w) = drafts_counted h ∧ drafts_lost (log_ack h w) = drafts_lost h ∧
  chunks (log_ack h w) = chunks h ∧ landed (log_ack h w) = landed h ∧
  typed_since (log_ack h w) = typed_since h.
Proof. by destruct w. Qed.

Lemma draft_inv_finish y y' : draft_inv y → do_finish y = Some y' → draft_inv y'.
Proof.
  intros [Hc Hf]. unfold do_finish.
  destruct (finishing (wr y)) as [[i loaded]|] eqn:Hfin; [|done].
  destruct (log_ack_counts (hist y) (written i)) as (E1 & E2 & E3 & E4 & _).
  destruct (declared_draft i) eqn:Hd; cbn [negb].
  - destruct loaded as [m|].
    + unfold complete_declared_draft_write. destruct (poisoned (sess y)); intros [= <-].
      { unfold ended. split; sys_simpl; [by eapply count_inv_ext; [..|exact Hc]|].
        intros Hb. specialize (Hf Hb). by eapply frame_inv_ext; [..|exact Hf]. }
      destruct Hc as [H1 (k & H2 & Hk) H3 H4]. unfold outstanding in Hk. rewrite Hfin, Hd in Hk.
      split; sys_simpl.
      * constructor; sys_simpl; cbn [declared_draft_writes_enqueued declared_draft_writes_completed];
          rewrite ?E1, ?E2; try done.
        exists (S k). split; [by rewrite H2, u64_of_succ|]. unfold outstanding. sys_simpl. lia.
      * rewrite E3. intros Hb. destruct (Hf Hb) as [F1 F2 F3 F4 F5]. rewrite Hfin, Hd in F4.
        constructor; sys_simpl; cbn [mirrored_chunks_at_last_draft_write]; rewrite ?E3, ?E4; try done; lia.
    + intros [= <-]. split; sys_simpl.
      * eapply count_inv_ext; [..|exact Hc]; try done.
        unfold outstanding. sys_simpl. by rewrite Hfin.
      * intros Hb. destruct (Hf Hb) as [F1 F2 F3 F4 F5]. constructor; sys_simpl; try done.
        rewrite Hd, F1. lia.
  - intros [= <-]. split; sys_simpl.
    + eapply count_inv_ext; [..|exact Hc]; try done.
      unfold outstanding. sys_simpl. by rewrite Hfin, Hd.
    + rewrite E3. intros Hb. destruct (Hf Hb) as [F1 F2 F3 F4 F5]. rewrite Hfin, Hd in F4.
      constructor; sys_simpl; rewrite ?E3, ?E4; done.
Qed.

Lemma attest_decide_counts l sample c resolved l' :
  attest_decide l sample c = (resolved, l') →
  declared_draft_writes_enqueued l' = declared_draft_writes_enqueued l ∧
  declared_draft_writes_completed l' = declared_draft_writes_completed l ∧
  mirrored_chunks_at_last_draft_write l' = mirrored_chunks_at_last_draft_write l.
Proof. unfold attest_decide. repeat case_if; by intros [= <- <-]. Qed.

Lemma draft_inv_decide y y' : draft_inv y → do_decide y = Some y' → draft_inv y'.
Proof.
  intros [Hc Hf]. unfold do_decide. destruct (att y) as [| |sample frame c] eqn:Hatt; try done.
  destruct (poisoned (sess y)).
  { intros [= <-]. split; sys_simpl; [done|]. intros Hb. by destruct (Hf Hb). }
  destruct (attest_decide _ _ _) as [resolved l] eqn:Hd.
  apply attest_decide_counts in Hd as (E1 & E2 & E3). intros [= <-].
  destruct Hc as [H1 H2 H3 H4]. split; sys_simpl.
  - destruct resolved; constructor; sys_simpl; rewrite ?E1, ?E2; done.
  - assert (chunks (if resolved then log_boundary (hist y) else hist y) = chunks (hist y)) as ->
      by (by destruct resolved).
    intros Hb. destruct (Hf Hb) as [F1 F2 F3 F4 F5].
    destruct resolved; constructor; sys_simpl; rewrite ?E3; done.
Qed.

Lemma draft_inv_mirror y mode :
  draft_inv y →
  draft_inv (mkSys (count_mirrored (sess y) mode) (wr y) (running y) (att y) (log_mirror (hist y))).
Proof.
  intros [Hc Hf]. split; sys_simpl.
  - by eapply count_inv_ext; [..|exact Hc].
  - intros Hb. destruct Hf as [F1 F2 F3 F4 F5]; [lia|]. constructor; sys_simpl.
    + rewrite F1, u64_add_small; unfold U64_MAX in *; lia.
    + lia.
    + lia.
    + destruct (finishing (wr y)) as [[i [m|]]|]; [|done..]. destruct (declared_draft i); [lia|done].
    + destruct (att y); [done|lia|lia].
Qed.

Lemma draft_inv_step y y' : draft_inv y → sys_step y y' → draft_inv y'.
Proof.
  intros Hy [a Ha]. destruct a as [d k w|d w|d| |now|n now| |mode| |c| | |]; cbn [next] in Ha.
  - injection Ha as <-. by apply draft_inv_raw.
  - injection Ha as <-. apply draft_inv_send; [done|done|done|]. intros _. apply logical_nonempty.
  - injection Ha as <-. by apply draft_inv_send.
  - destruct (running y); [|done]. by eapply draft_inv_receive.
  - destruct (running y); [|done]. injection Ha as <-. destruct Hy as [Hc Hf]. split; sys_simpl.
    + eapply count_inv_ext; [..|exact Hc]; try done; unfold outstanding, writer_timer;
        destruct (submit_pause (wr y)); try done; by case_if.
    + intros Hb. specialize (Hf Hb). eapply frame_inv_ext; [..|exact Hf]; try done.
      unfold writer_timer. destruct (submit_pause (wr y)); try done. by case_if.
  - destruct (running y); [|done]. by eapply draft_inv_write.
  - destruct (running y); [|done]. by eapply draft_inv_finish.
  - injection Ha as <-. by apply draft_inv_mirror.
  - destruct (att y) eqn:Hatt; try done. destruct (attestation_unresolved (sess y)); [|done].
    injection Ha as <-. destruct Hy as [Hc Hf]. split; sys_simpl; [done|].
    intros Hb. destruct (Hf Hb) as [F1 F2 F3 F4 F5]. constructor; sys_simpl; try done. lia.
  - destruct (att y) as [|sample|] eqn:Hatt; try done. injection Ha as <-.
    destruct Hy as [Hc Hf]. split; sys_simpl; [done|].
    intros Hb. destruct (Hf Hb) as [F1 F2 F3 F4 F5]. rewrite Hatt in F5. constructor; sys_simpl; done.
  - by eapply draft_inv_decide.
  - injection Ha as <-. destruct Hy as [Hc Hf]. split; sys_simpl.
    + by eapply count_inv_ext; [..|exact Hc].
    + intros Hb. specialize (Hf Hb). by eapply frame_inv_ext; [..|exact Hf].
  - destruct (running y); [|done]. injection Ha as <-. unfold ended. destruct Hy as [Hc Hf]. split; sys_simpl.
    + by eapply count_inv_ext; [..|exact Hc].
    + intros Hb. specialize (Hf Hb). by eapply frame_inv_ext; [..|exact Hf].
Qed.

(** The ledger [l] of a new handle has counted nothing yet. *)
Definition fresh_counters (l : InputCoordinationState) : Prop :=
  declared_draft_writes_enqueued l = 0 ∧ declared_draft_writes_completed l = 0 ∧
  mirrored_chunks_at_last_draft_write l = 0.

Lemma initial_draft_inv l mode held :
  fresh_counters l → draft_inv (initial_sys l mode held).
Proof.
  intros (E1 & E2 & E3). unfold draft_inv, initial_sys, SessionHandle_new, new_writer. sys_simpl. split.
  - constructor; sys_simpl.
    + by rewrite E1.
    + exists 0%nat. split; [by rewrite E2|]. unfold outstanding. sys_simpl.
      assert (draft_count (map (λ d, logical d None mode) held) = 0%nat) as ->; [|done].
      induction held as [|d held IH]; [done|]. cbn [map]. by rewrite draft_count_cons.
    + apply Forall_map, Forall_true. done.
    + apply Forall_map, Forall_true. intros d _. apply logical_nonempty.
  - intros _. constructor; sys_simpl; rewrite ?E3; try done.
Qed.

(** A rendered frame may clear a human's draft only if it is evidence about
    it.  In every interleaving, when attestation resolves a session that has a
    declared draft to "nobody typed here", every declared draft write the
    ledger ever counted has reached the PTY and been recorded (none is queued,
    in the writer's hands, or was refused), and the frame that was read
    contains at least one chunk of output mirrored after the last of them
    reached the PTY. *)
Theorem attestation_waits_for_drafts l mode held y sample frame composer l' :
  fresh_counters l →
  reachable sys_step (initial_sys l mode held) y →
  Z.of_nat (chunks (hist y)) ≤ U64_MAX → Z.of_nat (drafts_counted (hist y)) ≤ U64_MAX →
  att y = AttRead sample frame composer →
  raw_input_draft_state_known (ledger (sess y)) = true →
  attest_decide (ledger (sess y)) sample composer = (true, l') →
  outstanding (sess y) (wr y) = 0%nat ∧ drafts_lost (hist y) = 0%nat ∧
  (landed (hist y) < frame)%nat.
Proof.
  intros Hl Hr Hchunks Hdrafts Hatt Hknown Hdec.
  assert (draft_inv y) as [Hc Hf].
  { revert Hr. apply reachable_invariant; [by apply initial_draft_inv|apply draft_inv_step]. }
  unfold attest_decide in Hdec. rewrite Hknown in Hdec. cbn [andb] in Hdec.
  destruct (negb (proves_nothing_typed composer)); [done|].
  match type of Hdec with (if ?b then _ else _) = _ => destruct b eqn:Hb end; [done|].
  bool_simpl. destruct Hc as [C1 (n & C2 & Cn) _ _]. destruct (Hf Hchunks) as [F1 F2 F3 F4 F5].
  assert (n = drafts_counted (hist y)) as Heq.
  { pose proof (u64_of_small n ltac:(lia)). pose proof (u64_of_small _ Hdrafts).
    apply Nat2Z.inj. lia. }
  assert (outstanding (sess y) (wr y) = 0%nat) as Ho by lia. split_and!; [done|lia|].
  rewrite Hatt in F5.
  assert (Z.of_nat (landed (hist y)) ≤ mirrored_chunks_at_last_draft_write (ledger (sess y))) as Hlast.
  { unfold outstanding in Ho. destruct (finishing (wr y)) as [[i loaded]|]; [|done].
    destruct (declared_draft i); [lia|done]. }
  lia.
Qed.

(** A draft is typed, written in two pieces, recorded, echoed and cleared by
    the provider; then the composer is read. *)
Definition draft_script : list Action :=
  [ARaw (lit "ls") Draft None; AReceive; AWrite 1 0; AWrite 1 0; AFinish; AFinish;
   AMirror false; AAttest; AReadFrame ComposerEmpty].

Definition fresh_ledger : InputCoordinationState := from_record false true (Some 0).

Definition drafted_sys : Sys :=
  default (initial_sys fresh_ledger false []) (run (initial_sys fresh_ledger false []) draft_script).

Lemma drafted_sys_reachable : reachable sys_step (initial_sys fresh_ledger false []) drafted_sys.
Proof. apply (run_reachable _ draft_script). reflexivity. Qed.

Lemma attestation_waits_for_drafts_witness :
  outstanding (sess drafted_sys) (wr drafted_sys) = 0%nat ∧ drafts_lost (hist drafted_sys) = 0%nat ∧
  (landed (hist drafted_sys) < 1)%nat.
Proof.
  apply (attestation_waits_for_drafts fresh_ledger false [] drafted_sys 1 1 ComposerEmpty
           (mkLedger false true (Some 0) 1 1 0)).
  - by split_and!.
  - apply drafted_sys_reachable.
  - vm_compute. discriminate.
  - vm_compute. discriminate.
  - vm_compute. reflexivity.
  - vm_compute. reflexivity.
  - vm_compute. reflexivity.
Defined.

Lemma pty_stream_is_accepted_input_witness :
  bytes_of (accepted (hist drafted_sys)) = pty (hist drafted_sys) ++ unwritten drafted_sys.
Proof.
  apply (pty_stream_is_accepted_input fresh_ledger false [] drafted_sys).
  apply drafted_sys_reachable.
Defined.

(** Two messages, the second waiting out the pause after the first. *)
Definition message_script : list Action :=
  [ALogical (lit "hi") 7; AReply (lit "x"); AReceive; AWrite 3 0; AFinish].
Definition messaged_sys : Sys :=
  default (initial_sys fresh_ledger false []) (run (initial_sys fresh_ledger false []) message_script).

Lemma acknowledged_input_is_on_the_pty_witness :
  ∃ i, i ∈ accepted (hist messaged_sys) ∧ written i = Some 7%nat ∧
    (data i = [] ∨
     ∃ before after, nonempty (accepted (hist messaged_sys)) = before ++ i :: after ∧
       (bytes_of before ++ data i) `prefix_of` pty (hist messaged_sys)).
Proof.
  apply (acknowledged_input_is_on_the_pty fresh_ledger false [] messaged_sys 7).
  - apply (run_reachable _ message_script). reflexivity.
  - vm_compute. apply elem_of_cons. left. reflexivity.
Defined.

(** ** The ledger is a count of what was typed *)

Definition content_total (l : list (list byte)) : Z :=
  foldr (λ d total, draft_content_byte_count d + total) 0 l.

Lemma content_total_snoc l d :
  content_total (l ++ [d]) = content_total l + draft_content_byte_count d.
Proof.
  unfold content_total. induction l as [|x l IH]; cbn [app foldr]; [lia|]. rewrite IH. lia.
Qed.

Lemma content_nonneg d : 0 ≤ draft_content_byte_count d.
Proof. pose proof (draft_count_bounds d). lia. Qed.

Lemma content_total_nonneg l : 0 ≤ content_total l.
Proof.
  induction l as [|d l IH]; cbn; [lia|]. pose proof (content_nonneg d). unfold content_total in IH. lia.
Qed.

Definition typed_inv (l : InputCoordinationState) (h : History) : Prop :=
  raw_input_draft_state_known l = true ∧
  typed_draft_bytes l = Some (Z.min (content_total (typed_since h)) U64_MAX) ∧
  raw_input_draft_active l = negb (content_total (typed_since h) =? 0).

Lemma typed_inv_raw l h d k w sent :
  typed_inv l h → typed_inv (route_raw l d k w).1 (log_raw h d k sent).
Proof.
  intros (Hk & Ht & Ha). unfold route_raw, typed_inv. destruct k; cbv zeta; cbn [typed_since log_raw].
  - rewrite content_total_snoc. destruct (Z.eqb_spec (draft_content_byte_count d) 0) as [Hz|Hz]; cbn [fst].
    + by rewrite Hz, Z.add_0_r.
    + cbn [raw_input_draft_state_known typed_draft_bytes raw_input_draft_active]. split_and!; [done| |].
      * rewrite Ht. cbn. f_equal. unfold u64_saturating_add.
        pose proof (content_nonneg d). lia.
      * symmetry. apply negb_true_iff, Z.eqb_neq.
        pose proof (content_total_nonneg (typed_since h)). pose proof (content_nonneg d). lia.
  - by split_and!.
  - by split_and!.
Qed.

Lemma typed_inv_decide l h sample c resolved l' :
  typed_inv l h → attest_decide l sample c = (resolved, l') →
  typed_inv l' (if resolved then log_boundary h else h).
Proof. intros H Hd. unfold attest_decide in Hd. repeat case_match; simplify_eq; done. Qed.

Lemma typed_inv_step y y' :
  typed_inv (ledger (sess y)) (hist y) → sys_step y y' → typed_inv (ledger (sess y')) (hist y').
Proof.
  intros Hy [a Ha].
  assert (∀ w, typed_inv (ledger (sess y)) (log_ack (hist y) w)) as Hack by (by intros [?|]).
  destruct a as [d k w|d w|d| |now|n now| |mode| |c| | |]; cbn [next] in Ha.
  - injection Ha as <-. unfold do_raw, enqueue_raw_input_with_ack.
    destruct (poisoned (sess y)); [done|].
    pose proof (λ sent, typed_inv_raw _ _ d k w sent Hy) as Hraw.
    destruct (route_raw (ledger (sess y)) d k w) as [l i]. unfold send. sys_simpl.
    destruct (receiver_open (sess y)); sys_simpl; [apply (Hraw true)|apply (Hraw false)].
  - injection Ha as <-. unfold do_send, enqueue_logical_input, send.
    destruct (receiver_open (sess y)); by sys_simpl.
  - injection Ha as <-. unfold do_send, enqueue_terminal_reply, send.
    destruct (receiver_open (sess y)); by sys_simpl.
  - destruct (running y); [|done]. unfold do_receive in Ha. destruct (channel (sess y)); [done|].
    destruct (writer_receive _ _) as [w' ack]. injection Ha as <-. apply Hack.
  - destruct (running y); [|done]. by injection Ha as <-.
  - destruct (running y); [|done]. unfold do_write in Ha.
    destruct (pending_input (wr y)), (submit_pause (wr y)), (finishing (wr y)); try done.
    case_bool_decide; [|done]. injection Ha as <-. sys_simpl. repeat case_match; done.
  - destruct (running y); [|done]. unfold do_finish in Ha.
    destruct (finishing (wr y)) as [[i loaded]|]; [|done].
    destruct (declared_draft i); cbn [negb] in Ha; [|injection Ha as <-; apply Hack].
    destruct loaded; [|by injection Ha as <-]. unfold complete_declared_draft_write in Ha.
    destruct (poisoned (sess y)); injection Ha as <-; [done|]. apply (Hack (written i)).
  - by injection Ha as <-.
  - destruct (att y); try done. destruct (attestation_unresolved _); [|done]. by injection Ha as <-.
  - destruct (att y); try done. by injection Ha as <-.
  - unfold do_decide in Ha. destruct (att y); try done.
    destruct (poisoned (sess y)); [by injection Ha as <-|].
    destruct (attest_decide _ _ _) as [resolved l] eqn:Hd. injection Ha as <-.
    by eapply typed_inv_decide.
  - by injection Ha as <-.
  - destruct (running y); [|done]. by injection Ha as <-.
Qed.

(** The composer's label is a count of keystrokes.  For a session this
    daemon spawned, in every interleaving, the ledger holds the number of
    composer-content bytes in the draft writes accepted since the last
    boundary (a submission, or a frame that proved the composer empty),
    saturated at the 64-bit maximum; arrows, mouse reports, pastes' markers,
    control writes and delivered messages add nothing.  So the composer is
    labelled not-typed exactly when that count is zero and typed otherwise,
    and a draft is active exactly when it is not zero. *)
Theorem attestation_counts_typed_content mode held y :
  reachable sys_step (initial_sys fresh_ledger mode held) y →
  let total := content_total (typed_since (hist y)) in
  typed_draft_bytes (ledger (sess y)) = Some (Z.min total U64_MAX) ∧
  raw_input_draft_active (ledger (sess y)) = negb (total =? 0) ∧
  composer_attestation (sess y) =
    (if poisoned (sess y) then Unknown else if total =? 0 then NotTyped else Typed).
Proof.
  intros Hr. cbn zeta.
  assert (typed_inv (ledger (sess y)) (hist y)) as (Hk & Ht & Ha).
  { revert Hr. apply (reachable_invariant _ (λ y, typed_inv (ledger (sess y)) (hist y)));
      [done|apply typed_inv_step]. }
  split_and!; [done|done|]. unfold composer_attestation, ledger_attestation.
  destruct (poisoned (sess y)); [done|]. rewrite Hk, Ht. cbn [negb].
  pose proof (content_total_nonneg (typed_since (hist y))).
  destruct (Z.eqb_spec (content_total (typed_since (hist y))) 0) as [->|Hne]; [done|].
  rewrite (proj2 (Z.eqb_neq _ 0)); [done|]. unfold U64_MAX. lia.
Qed.

Lemma attestation_counts_typed_content_witness :
  composer_attestation (sess drafted_sys) = Typed.
Proof.
  pose proof (attestation_counts_typed_content false [] drafted_sys drafted_sys_reachable)
    as (_ & _ & Hatt).
  rewrite Hatt. vm_compute. reflexivity.
Defined.

(** ** Everything queued drains *)

Definition drained (y : Sys) : Prop :=
  channel (sess y) = [] ∧ pending_input (wr y) = [] ∧ finishing (wr y) = None.

(** Work left for the writer; every action of the writer lowers it. *)
Definition work (y : Sys) : nat :=
  (6 * length (channel (sess y)) + 5 * length (pending_input (wr y)) +
   match submit_pause (wr y) with Some _ => 1 | None => 0 end +
   match finishing (wr y) with Some (_, None) => 2 | Some (_, Some _) => 1 | None => 0 end)%nat.

Definition alive (y : Sys) : Prop := running y = true ∧ poisoned (sess y) = false.

Lemma log_ack_accepted h w : accepted (log_ack h w) = accepted h.
Proof. by destruct w. Qed.

Lemma writer_progress y :
  alive y → sys_stream_inv y →
  drained y ∨
  ∃ y', sys_step y y' ∧ alive y' ∧ accepted (hist y') = accepted (hist y) ∧ (work y' < work y)%nat.
Proof.
  intros [Hrun Hp] Hinv. unfold drained, work.
  destruct (finishing (wr y)) as [[i loaded]|] eqn:Hfin.
  { right. destruct (do_finish y) as [y'|] eqn:Hdo.
    - exists y'. split; [exists AFinish; cbn; by rewrite Hrun|].
      unfold do_finish in Hdo. rewrite Hfin in Hdo.
      destruct (declared_draft i); cbn [negb] in Hdo; [destruct loaded|];
        [unfold complete_declared_draft_write in Hdo; rewrite Hp in Hdo|..];
        injection Hdo as <-; unfold alive; sys_simpl; rewrite ?log_ack_accepted; (split_and!; [done..|]);
        try destruct loaded; lia.
    - exfalso. unfold do_finish in Hdo. rewrite Hfin in Hdo. unfold complete_declared_draft_write in Hdo.
      rewrite Hp in Hdo. repeat case_match; done. }
  destruct (channel (sess y)) as [|i rest] eqn:Hch.
  2:{ right. destruct (writer_receive (wr y) i) as [w' ack] eqn:Hr.
      eexists. split; [exists AReceive; cbn; rewrite Hrun; unfold do_receive; rewrite Hch, Hr; done|].
      unfold writer_receive in Hr. unfold alive. sys_simpl. rewrite log_ack_accepted.
      split_and!; [done..|]. case_match; injection Hr as <- <-; rewrite ?Hfin; sys_simpl;
        rewrite ?length_app, ?Hfin; cbn [length]; lia. }
  destruct (pending_input (wr y)) as [|front rest] eqn:Hpend; [by left|]. right.
  destruct (submit_pause (wr y)) as [until|] eqn:Hpause.
  { eexists. split; [exists (ATimer until); cbn; rewrite Hrun; done|]. unfold alive. sys_simpl.
    split_and!; [done..|]. unfold writer_timer, pause_elapsed. rewrite Hpause, Z.leb_refl. sys_simpl.
    rewrite Hch, Hpend, Hfin. lia. }
  pose proof (si_offset _ _ _ Hinv) as Hoff. unfold offset_ok in Hoff. rewrite Hpend in Hoff.
  set (n := length (drop (pending_offset (wr y)) (data front))).
  assert (n ≠ 0)%nat as Hn by (unfold n; rewrite length_drop; lia).
  assert (length (data front) ≤ pending_offset (wr y) + n)%nat as Hfull
    by (unfold n; rewrite length_drop; lia).
  eexists. split.
  { exists (AWrite n 0). cbn. rewrite Hrun. unfold do_write. rewrite Hpend, Hpause, Hfin.
    rewrite bool_decide_eq_true_2 by done. reflexivity. }
  unfold alive. sys_simpl. unfold writer_wrote. rewrite Hpend.
  rewrite bool_decide_eq_false_2, bool_decide_eq_true_2 by done. sys_simpl.
  split_and!; [done..|]. rewrite Hch. cbn [length]. case_bool_decide; rewrite ?Hpause; lia.
Qed.

(** Nothing accepted is ever withheld.  From every reachable state in which
    the writer is running and its lock is sound, the writer alone, whatever it
    was in the middle of, reaches a state with its queue and the channel empty
    in which the PTY holds every accepted byte: a pause always elapses, no
    input blocks the ones behind it, and no frame, draft or attestation state
    is consulted. *)
Theorem queued_input_always_drains l mode held y :
  reachable sys_step (initial_sys l mode held) y → alive y →
  ∃ y', reachable sys_step y y' ∧ drained y' ∧
    accepted (hist y') = accepted (hist y) ∧
    pty (hist y') = bytes_of (accepted (hist y)).
Proof.
  intros Hr%reachable_stream_inv Ha. remember (work y) as k eqn:Hk. revert y Hr Ha Hk.
  induction k as [k IH] using lt_wf_ind; intros y Hinv Ha ->.
  destruct (writer_progress y Ha Hinv) as [Hd|(y1 & Hstep & Ha1 & Hacc & Hlt)].
  - exists y. split_and!; [constructor|done|done|].
    rewrite (stream_split y Hinv). unfold unwritten. destruct Hd as (-> & -> & _).
    change (bytes_of []) with ([] : list Z). by rewrite drop_nil, !app_nil_r.
  - pose proof (stream_inv_step _ _ Hinv Hstep) as Hinv1.
    destruct (IH _ Hlt y1 Hinv1 Ha1 eq_refl) as (y' & Hr' & Hd & Hacc' & Hpty).
    exists y'. rewrite <-Hacc. split_and!; [|done|done|done].
    clear -Hstep Hr'. induction Hr'; [eapply reachable_step; [constructor|done]|].
    by eapply reachable_step.
Qed.

Lemma queued_input_always_drains_witness :
  ∃ y', reachable sys_step messaged_sys y' ∧ drained y' ∧
    accepted (hist y') = accepted (hist messaged_sys) ∧ pty (hist y') = lit "hi" ++ [13] ++ lit "x".
Proof.
  apply (queued_input_always_drains fresh_ledger false [] messaged_sys).
  - apply (run_reachable _ message_script). reflexivity.
  - split; reflexivity.
Defined.
