(* ===== verification/StatusDetect.v ===== *)
(** * When a frame becomes a status ([crates/daemon/src/session.rs])

    The throttle, the synchronized-frame guard, the provider gate on
    output-triggered idle, and the quiet refresh.  Time is in milliseconds.
    The terminal is what it reports: whether its frame is complete and, when
    asked, what it shows ([None] for a frame no rule reads) or a read error. *)

From S2P Require Import Prelude RustStd Protocol.
Local Open Scope Z_scope.

Definition STATUS_DETECTION_THROTTLE_MS : Z := 500.
Definition STATUS_IDLE_FLUSH_MS : Z := STATUS_DETECTION_THROTTLE_MS.

(** [saturating_duration_since] *)
Definition saturating_since (now earlier : Z) : Z := Z.max 0 (now - earlier).

Definition allows_output_triggered_idle (provider : option AgentProvider) : bool :=
  negb (bool_decide (provider = Some Claude)).

Record StatusDetectionOptions := mkOptions {
  opt_now : Z;
  opt_throttle : Z;
  opt_allow_idle : bool
}.

(** What the headless terminal reports for one check. *)
Record Reading (E : Type) := mkReading {
  frame_complete : bool;
  visible_status : result (option SessionStatus) E
}.
Arguments mkReading {E} _ _.
Arguments frame_complete {E} _.
Arguments visible_status {E} _.

(** [status_observed] and [last_status_check_at], which the check updates. *)
Record Check := mkCheck {
  status_observed : bool;
  last_status_check_at : option Z
}.

Definition throttled (c : Check) (now throttle : Z) : bool :=
  match last_status_check_at c with
  | Some last_check_at => saturating_since now last_check_at <? throttle
  | None => false
  end.

Definition detect_headless_terminal_status_if_due {E} (reading : Reading E)
    (status : SessionStatus) (c : Check) (options : StatusDetectionOptions)
    : Check * result (option SessionStatus) E :=
  if negb (frame_complete reading) then (c, Ok None)
  else if throttled c (opt_now options) (opt_throttle options) then (c, Ok None)
  else
    match visible_status reading with
    | Err e => (c, Err e)
    | Ok (Some next_status) =>
        if bool_decide (next_status = Idle) && negb (opt_allow_idle options) then (c, Ok None)
        else
          (mkCheck true (Some (opt_now options)),
           Ok (if bool_decide (status = next_status) then None else Some next_status))
    | Ok None =>
        if negb (opt_allow_idle options) then (c, Ok None)
        else
          (mkCheck (status_observed c) (Some (opt_now options)),
           Ok (if status_observed c &&
                  match status with Busy | Waiting => true | Idle => false end
               then Some Idle else None))
    end.

(** The fields of [SessionRuntimeState] the status loop reads and writes. *)
Record Runtime := mkRuntime {
  rt_provider : option AgentProvider;
  rt_status : SessionStatus;
  rt_check : Check;
  rt_last_output_at : option Z
}.

Definition detect_runtime_status_if_due {E} (reading : Reading E) (rt : Runtime)
    (now throttle : Z) (allow_idle : bool) : Runtime * result (option SessionStatus) E :=
  let '(c, r) :=
    detect_headless_terminal_status_if_due reading (rt_status rt) (rt_check rt)
      (mkOptions now throttle allow_idle) in
  (mkRuntime (rt_provider rt) (rt_status rt) c (rt_last_output_at rt), r).

(** The status part of [mirror_output_at]. *)
Definition mirror_output_at {E} (reading : Reading E) (rt : Runtime) (now throttle : Z)
    : Runtime * result (option SessionStatus) E :=
  let rt := mkRuntime (rt_provider rt) (rt_status rt) (rt_check rt) (Some now) in
  detect_runtime_status_if_due reading rt now throttle
    (allows_output_triggered_idle (rt_provider rt)).

Definition mirror_output {E} (reading : Reading E) (rt : Runtime) (now : Z) :=
  mirror_output_at reading rt now STATUS_DETECTION_THROTTLE_MS.

Definition refresh_quiet_status_at {E} (reading : Reading E) (rt : Runtime) (quiet_for now : Z)
    : Runtime * result (option SessionStatus) E :=
  if match rt_last_output_at rt with
     | Some last_output_at => saturating_since now last_output_at <? quiet_for
     | None => false
     end
  then (rt, Ok None)
  else detect_runtime_status_if_due reading rt now 0 true.

Definition update_status (rt : Runtime) (status : SessionStatus) : Runtime * bool :=
  if bool_decide (rt_status rt = status) then (rt, false)
  else (mkRuntime (rt_provider rt) status (rt_check rt) (rt_last_output_at rt), true).

(** ** Runs of the status loop *)

Inductive Event (E : Type) :=
  | EOutput (now : Z) (reading : Reading E)
  | ETick (now : Z) (reading : Reading E).
Arguments EOutput {E} _ _.
Arguments ETick {E} _ _.

(** One event of [stream_output]'s loop; a status that is returned is applied
    and published. *)
Definition loop_step {E} (rt : Runtime) (e : Event E) : Runtime * option SessionStatus :=
  let '(rt, r) :=
    match e with
    | EOutput now reading => mirror_output reading rt now
    | ETick now reading => refresh_quiet_status_at reading rt STATUS_IDLE_FLUSH_MS now
    end in
  match r with
  | Ok (Some status) =>
      let '(rt, changed) := update_status rt status in
      (rt, if changed then Some status else None)
  | _ => (rt, None)
  end.

Fixpoint loop {E} (rt : Runtime) (events : list (Event E)) : Runtime * list SessionStatus :=
  match events with
  | [] => (rt, [])
  | e :: rest =>
      let '(rt, published) := loop_step rt e in
      let '(rt, more) := loop rt rest in
      (rt, option_list published ++ more)
  end.

(** ** What a published status rests on *)

Definition event_reading {E} (e : Event E) : Reading E :=
  match e with EOutput _ r | ETick _ r => r end.

Section readings.
Context {E : Type}.
Implicit Types (reading : Reading E) (rt : Runtime).

(** The cases in which a check returns a status. *)
Lemma detect_Some reading status c o c' s :
  detect_headless_terminal_status_if_due reading status c o = (c', Ok (Some s)) →
  frame_complete reading = true ∧ throttled c (opt_now o) (opt_throttle o) = false ∧
  status ≠ s ∧ last_status_check_at c' = Some (opt_now o) ∧
  (visible_status reading = Ok (Some s) ∧ (s = Idle → opt_allow_idle o = true) ∨
   visible_status reading = Ok None ∧ s = Idle ∧ opt_allow_idle o = true ∧
   status_observed c = true).
Proof.
  unfold detect_headless_terminal_status_if_due.
  destruct (frame_complete reading); cbn [negb]; [|done].
  destruct (throttled c _ _); [done|].
  destruct (visible_status reading) as [[s'|]|e]; [| |done].
  - destruct (bool_decide_reflect (s' = Idle)), (opt_allow_idle o); cbn; try done;
      case_bool_decide; intros [= <- <-]; naive_solver.
  - destruct (opt_allow_idle o); cbn [negb]; [|done].
    destruct (status_observed c), status; cbn; intros [= <- <-]; naive_solver.
Qed.

(** Every status change the loop publishes rests on a complete frame: it
    is the status that frame shows, or idle for a frame no rule reads, and it
    is a change.  An output chunk never makes a Claude session idle: Claude's
    idle comes only from a tick, and a tick publishes only when no output has
    arrived for half a second. *)
Theorem published_status_is_evidenced rt rt' (e : Event E) s :
  loop_step rt e = (rt', Some s) →
  frame_complete (event_reading e) = true ∧ rt_status rt ≠ s ∧ rt_status rt' = s ∧
  match e with
  | EOutput now _ =>
      (visible_status (event_reading e) = Ok (Some s) ∨
       visible_status (event_reading e) = Ok None ∧ s = Idle) ∧
      (rt_provider rt = Some Claude → s ≠ Idle)
  | ETick now _ =>
      (visible_status (event_reading e) = Ok (Some s) ∨
       visible_status (event_reading e) = Ok None ∧ s = Idle) ∧
      ∀ t, rt_last_output_at rt = Some t → STATUS_IDLE_FLUSH_MS ≤ saturating_since now t
  end.
Proof.
  assert (∀ now throttle allow rt0 rt1 (r : Reading E), detect_runtime_status_if_due r rt0 now throttle allow = (rt1, Ok (Some s)) →
    ∃ c, detect_headless_terminal_status_if_due r (rt_status rt0) (rt_check rt0)
           (mkOptions now throttle allow) = (c, Ok (Some s)) ∧ rt_status rt1 = rt_status rt0) as Hrun.
  { intros now throttle allow rt0 rt1 r. unfold detect_runtime_status_if_due.
    destruct (detect_headless_terminal_status_if_due r _ _ _) as [c res]. intros [= <- ->]. by exists c. }
  assert (∀ rt1 r, (let '(rt, changed) := update_status rt1 r in
             (rt, if changed then Some r else None)) = (rt', Some s) →
          r = s ∧ rt_status rt' = s) as Hup.
  { intros rt1 r. unfold update_status. case_bool_decide; [done|]. by intros [= <- <-]. }
  unfold loop_step. destruct e as [now r|now r]; cbn [event_reading].
  - unfold mirror_output, mirror_output_at. cbn zeta.
    destruct (detect_runtime_status_if_due r _ _ _ _) as [rt1 [[s1|]|]] eqn:Hd; try done.
    intros [-> Hs]%Hup. apply Hrun in Hd as (c & (Hc & _ & Hne & _ & Hv)%detect_Some & _).
    cbn in *. split_and!; [done..|naive_solver|].
    intros Hclaude ->. unfold allows_output_triggered_idle in Hv. rewrite Hclaude in Hv. naive_solver.
  - unfold refresh_quiet_status_at.
    destruct (match rt_last_output_at rt with Some _ => _ | None => _ end) eqn:Hq; [done|].
    destruct (detect_runtime_status_if_due r _ _ _ _) as [rt1 [[s1|]|]] eqn:Hd; try done.
    intros [-> Hs]%Hup. apply Hrun in Hd as (c & (Hc & _ & Hne & _ & Hv)%detect_Some & _).
    split_and!; [done..|naive_solver|]. intros t Ht. rewrite Ht in Hq. lia.
Qed.

(** An output chunk inside the throttle window changes nothing but the time
    of the last output. *)
Lemma throttled_output rt now reading t :
  last_status_check_at (rt_check rt) = Some t →
  saturating_since now t < STATUS_DETECTION_THROTTLE_MS →
  loop_step rt (EOutput now reading) =
  (mkRuntime (rt_provider rt) (rt_status rt) (rt_check rt) (Some now), None).
Proof.
  intros Ht Hlt. unfold loop_step, mirror_output, mirror_output_at, detect_runtime_status_if_due,
    detect_headless_terminal_status_if_due, throttled. cbn [rt_check rt_status opt_now opt_throttle].
  rewrite Ht, (proj2 (Z.ltb_lt _ _)) by done. by destruct (negb (frame_complete reading)).
Qed.

(** Classification is throttled: once a check has consumed the slot at
    time [t], any burst of output chunks within the next half second is
    mirrored without a single further classification: nothing is published
    and the slot is untouched, so the first chunk after the window is
    eligible again. *)
Theorem output_burst_is_throttled rt t (events : list (Z * Reading E)) :
  last_status_check_at (rt_check rt) = Some t →
  Forall (λ '(now, _), saturating_since now t < STATUS_DETECTION_THROTTLE_MS) events →
  let '(rt', published) := loop rt (map (λ '(now, r), EOutput now r) events) in
  published = [] ∧ rt_check rt' = rt_check rt ∧ rt_status rt' = rt_status rt.
Proof.
  intros Ht Hall. revert rt Ht. induction Hall as [|[now r] events Hnow Hall IH]; intros rt Ht; [done|].
  cbn [map loop]. rewrite (throttled_output rt now r t Ht Hnow).
  specialize (IH (mkRuntime (rt_provider rt) (rt_status rt) (rt_check rt) (Some now)) Ht).
  destruct (loop _ _) as [rt' published]. done.
Qed.

(** The quiet refresh converges and cannot be starved: whatever the
    throttle slot holds, a tick on a quiet terminal with a complete frame
    leaves the session at the status the frame shows. *)
Theorem quiet_tick_converges rt now reading s :
  (∀ t, rt_last_output_at rt = Some t → STATUS_IDLE_FLUSH_MS ≤ saturating_since now t) →
  frame_complete reading = true → visible_status reading = Ok (Some s) →
  rt_status (loop_step rt (ETick now reading)).1 = s.
Proof.
  intros Hq Hc Hv.
  assert (match rt_last_output_at rt with
          | Some t => saturating_since now t <? STATUS_IDLE_FLUSH_MS | None => false end = false) as Hquiet.
  { destruct (rt_last_output_at rt) as [t|]; [|done]. specialize (Hq t eq_refl). lia. }
  unfold loop_step, refresh_quiet_status_at. rewrite Hquiet.
  unfold detect_runtime_status_if_due, detect_headless_terminal_status_if_due, throttled.
  rewrite Hc, Hv. cbn [negb opt_now opt_throttle opt_allow_idle].
  assert (∀ t, (saturating_since now t <? 0) = false) as Hzero
    by (intros; unfold saturating_since; lia).
  destruct (last_status_check_at (rt_check rt)) as [t|]; rewrite ?Hzero;
    rewrite andb_false_r; case_bool_decide; try done;
    unfold update_status; cbn [rt_status]; case_bool_decide; done.
Qed.

(** A frame no rule can read does not leave the status alone: on a quiet
    tick it turns a session that was observed busy or waiting into an idle
    one, and that is published. *)
Theorem unreadable_quiet_frame_publishes_idle rt now reading :
  (∀ t, rt_last_output_at rt = Some t → STATUS_IDLE_FLUSH_MS ≤ saturating_since now t) →
  frame_complete reading = true → visible_status reading = Ok None →
  status_observed (rt_check rt) = true → rt_status rt ≠ Idle →
  (loop_step rt (ETick now reading)).2 = Some Idle.
Proof.
  intros Hq Hc Hv Ho Hs.
  assert (match rt_last_output_at rt with
          | Some t => saturating_since now t <? STATUS_IDLE_FLUSH_MS | None => false end = false) as Hquiet.
  { destruct (rt_last_output_at rt) as [t|]; [|done]. specialize (Hq t eq_refl). lia. }
  unfold loop_step, refresh_quiet_status_at. rewrite Hquiet.
  unfold detect_runtime_status_if_due, detect_headless_terminal_status_if_due, throttled.
  rewrite Hc, Hv, Ho. cbn [negb opt_now opt_throttle opt_allow_idle andb].
  assert (∀ t, (saturating_since now t <? 0) = false) as Hzero
    by (intros; unfold saturating_since; lia).
  destruct (last_status_check_at (rt_check rt)) as [t|]; rewrite ?Hzero;
    destruct (rt_status rt) eqn:Hst; try done; unfold update_status; cbn [rt_status]; by rewrite Hst.
Qed.
End readings.

(** Concrete sessions. *)
Definition busy_claude : Runtime :=
  mkRuntime (Some Claude) Busy (mkCheck true (Some 1000)) (Some 1000).
Definition shows (s : option SessionStatus) : Reading unit := mkReading true (Ok s).

Lemma published_status_is_evidenced_witness :
  frame_complete (shows (Some Idle)) = true ∧ Busy ≠ Idle.
Proof.
  destruct (published_status_is_evidenced busy_claude
    (mkRuntime (Some Claude) Idle (mkCheck true (Some 1600)) (Some 1000))
    (ETick 1600 (shows (Some Idle))) Idle ltac:(reflexivity)) as (Hc & Hne & _).
  split; [exact Hc|exact Hne].
Defined.

Lemma output_burst_is_throttled_witness :
  (loop busy_claude [EOutput 1100 (shows (Some Waiting)); EOutput 1499 (shows (Some Waiting))]).2 = [].
Proof.
  pose proof (output_burst_is_throttled busy_claude 1000
    [(1100, shows (Some Waiting)); (1499, shows (Some Waiting))] eq_refl
    ltac:(repeat constructor)) as H.
  exact (proj1 H).
Defined.

Lemma quiet_tick_converges_witness :
  rt_status (loop_step busy_claude (ETick 1600 (shows (Some Waiting)))).1 = Waiting.
Proof.
  apply (quiet_tick_converges busy_claude 1600 (shows (Some Waiting)) Waiting).
  - intros t [= <-]. vm_compute. discriminate.
  - reflexivity.
  - reflexivity.
Defined.

Lemma unreadable_quiet_frame_publishes_idle_witness :
  (loop_step busy_claude (ETick 1600 (shows None))).2 = Some Idle.
Proof.
  apply (unreadable_quiet_frame_publishes_idle busy_claude 1600 (shows None)).
  - intros t [= <-]. vm_compute. discriminate.
  - reflexivity.
  - reflexivity.
  - reflexivity.
  - discriminate.
Defined.
