(* ===== verification/SessionManager.v ===== *)
(** * The session table ([SessionManager] of [crates/daemon/src/session.rs])

    Sessions are shared handles: an [Arc] is a handle number into a store, so
    that identity ([Arc::ptr_eq]), retirement and the teardown claim are of the
    handle and not of the id it is filed under.  Lifecycle locks are kept
    weakly: [live] is the set of locks some task still holds. *)

From S2P Require Import Prelude RustStd.

Definition SessionId := list Z.
Definition HandleId := nat.
Definition LockId := nat.

#[export] Instance SessionId_eq_dec : EqDecision SessionId := _ : EqDecision (list Z).
#[export] Instance SessionId_countable : Countable SessionId := _ : Countable (list Z).
#[export] Instance HandleId_eq_dec : EqDecision HandleId := _ : EqDecision nat.
#[export] Instance HandleId_countable : Countable HandleId := _ : Countable nat.

(** The two flags of a [SessionHandle] the table depends on. *)
Record Handle := mkHandle {
  retired : bool;
  teardown_claimed : bool
}.

Definition new_handle : Handle := mkHandle false false.

Record Manager := mkManager {
  sessions : gmap SessionId HandleId;
  lifecycle_locks : gmap SessionId LockId;
  teardown_tombstones : gset SessionId;
  handoff_epoch : Z;
  sealed_for_handoff : bool
}.

Definition new_manager : Manager := mkManager ∅ ∅ ∅ 0 false.

(** The heap of handles and of held locks. *)
Record Store := mkStore {
  handles_ : gmap HandleId Handle;
  live : gset LockId;
  next_lock : LockId
}.

Definition retire (h : HandleId) (st : Store) : Store :=
  mkStore (alter (λ x, mkHandle true (teardown_claimed x)) h (handles_ st)) (live st) (next_lock st).

Definition retire_opt (h : option HandleId) (st : Store) : Store :=
  match h with Some h => retire h st | None => st end.

Definition is_retired (h : HandleId) (st : Store) : bool :=
  match handles_ st !! h with Some x => retired x | None => false end.

(** [compare_exchange(false, true)] *)
Definition claim_teardown (h : HandleId) (st : Store) : Store * bool :=
  match handles_ st !! h with
  | Some x =>
      if teardown_claimed x then (st, false)
      else (mkStore (<[h := mkHandle (retired x) true]> (handles_ st)) (live st) (next_lock st), true)
  | None => (st, false)
  end.

Definition set_sessions (m : Manager) (s : gmap SessionId HandleId) : Manager :=
  mkManager s (lifecycle_locks m) (teardown_tombstones m) (handoff_epoch m) (sealed_for_handoff m).

Definition seal_for_handoff (m : Manager) : Manager * Z :=
  let epoch := u64_add (handoff_epoch m) 1 in
  (mkManager (sessions m) (lifecycle_locks m) (teardown_tombstones m) epoch true, epoch).

Definition unseal_for_handoff (m : Manager) : Manager :=
  mkManager (sessions m) (lifecycle_locks m) (teardown_tombstones m) (handoff_epoch m) false.

Definition insert (m : Manager) (st : Store) (id : SessionId) (h : HandleId) : Manager * Store :=
  (set_sessions m (<[id := h]> (sessions m)), retire_opt (sessions m !! id) st).

Definition insert_unless_sealed (m : Manager) (st : Store) (id : SessionId) (h : HandleId)
    : Manager * Store * bool :=
  if sealed_for_handoff m || bool_decide (id ∈ teardown_tombstones m) then (m, st, false)
  else (set_sessions m (<[id := h]> (sessions m)), retire_opt (sessions m !! id) st, true).

Definition begin_teardown (m : Manager) (id : SessionId) : Manager * bool :=
  (mkManager (sessions m) (lifecycle_locks m) ({[id]} ∪ teardown_tombstones m) (handoff_epoch m)
     (sealed_for_handoff m),
   negb (bool_decide (id ∈ teardown_tombstones m))).

Definition end_teardown (m : Manager) (id : SessionId) : Manager :=
  mkManager (sessions m) (lifecycle_locks m) (teardown_tombstones m ∖ {[id]}) (handoff_epoch m)
    (sealed_for_handoff m).

Definition is_tearing_down (m : Manager) (id : SessionId) : bool :=
  bool_decide (id ∈ teardown_tombstones m).

Definition get (m : Manager) (id : SessionId) : option HandleId := sessions m !! id.

Definition remove (m : Manager) (st : Store) (id : SessionId)
    : Manager * Store * option HandleId :=
  let removed := sessions m !! id in
  (set_sessions m (delete id (sessions m)), retire_opt removed st, removed).

Definition is_current (m : Manager) (id : SessionId) (h : HandleId) : bool :=
  match sessions m !! id with Some current => bool_decide (current = h) | None => false end.

Definition remove_if_same (m : Manager) (st : Store) (id : SessionId) (expected : HandleId)
    : Manager * Store * option HandleId :=
  if is_current m id expected then remove m st id else (m, st, None).

Definition contains (m : Manager) (id : SessionId) : bool :=
  match sessions m !! id with Some _ => true | None => false end.

Definition handles (m : Manager) : list (SessionId * HandleId) := map_to_list (sessions m).

Definition kill_all_handles (m : Manager) (st : Store)
    : Manager * Store * list (SessionId * HandleId) :=
  let hs := handles m in
  (set_sessions m ∅, foldr (λ p, retire p.2) st hs, hs).

(** [lifecycle_lock]: dead entries are dropped, a live lock is shared, and
    otherwise a new one is filed; the caller holds what is returned. *)
Definition lifecycle_lock (m : Manager) (st : Store) (id : SessionId) : Manager * Store * LockId :=
  let kept := filter (λ p, p.2 ∈ live st) (lifecycle_locks m) in
  let with_locks locks :=
    mkManager (sessions m) locks (teardown_tombstones m) (handoff_epoch m) (sealed_for_handoff m) in
  match kept !! id with
  | Some lock => (with_locks kept, st, lock)
  | None =>
      let lock := next_lock st in
      (with_locks (<[id := lock]> kept),
       mkStore (handles_ st) ({[lock]} ∪ live st) (S lock), lock)
  end.

(** The last holder of a lock lets it go. *)
Definition drop_lock (st : Store) (lock : LockId) : Store :=
  mkStore (handles_ st) (live st ∖ {[lock]}) (next_lock st).

(** ** Runs *)

(** [owner] remembers which id each lock was made for, [inserted] every handle
    that was ever filed: history only. *)
Record Table := mkTable {
  mgr : Manager;
  store : Store;
  owner : gmap LockId SessionId;
  inserted : gset HandleId
}.

Definition initial_table : Table := mkTable new_manager (mkStore ∅ ∅ 0) ∅ ∅.

Inductive TableOp :=
  | OpCreate (h : HandleId)
  | OpInsert (id : SessionId) (h : HandleId)
  | OpSpawn (id : SessionId) (h : HandleId)
  | OpRemove (id : SessionId)
  | OpRemoveIfSame (id : SessionId) (expected : HandleId)
  | OpKillAll
  | OpClaim (h : HandleId)
  | OpSeal
  | OpUnseal
  | OpBeginTeardown (id : SessionId)
  | OpEndTeardown (id : SessionId)
  | OpLock (id : SessionId)
  | OpDropLock (l : LockId).

(** A handle that exists and was never filed: what a creator inserts. *)
Definition insertable (t : Table) (h : HandleId) : bool :=
  bool_decide (is_Some (handles_ (store t) !! h)) && negb (bool_decide (h ∈ inserted t)).

Definition apply_op (t : Table) (op : TableOp) : option Table :=
  match op with
  | OpCreate h =>
      match handles_ (store t) !! h with
      | Some _ => None
      | None =>
          Some (mkTable (mgr t)
                  (mkStore (<[h := new_handle]> (handles_ (store t))) (live (store t))
                     (next_lock (store t))) (owner t) (inserted t))
      end
  | OpInsert id h =>
      if insertable t h then
        let '(m, st) := insert (mgr t) (store t) id h in
        Some (mkTable m st (owner t) ({[h]} ∪ inserted t))
      else None
  | OpSpawn id h =>
      if insertable t h then
        let '(m, st, b) := insert_unless_sealed (mgr t) (store t) id h in
        Some (mkTable m st (owner t) (if b then {[h]} ∪ inserted t else inserted t))
      else None
  | OpRemove id =>
      let '(m, st, _) := remove (mgr t) (store t) id in
      Some (mkTable m st (owner t) (inserted t))
  | OpRemoveIfSame id h =>
      let '(m, st, _) := remove_if_same (mgr t) (store t) id h in
      Some (mkTable m st (owner t) (inserted t))
  | OpKillAll =>
      let '(m, st, _) := kill_all_handles (mgr t) (store t) in
      Some (mkTable m st (owner t) (inserted t))
  | OpClaim h => Some (mkTable (mgr t) (claim_teardown h (store t)).1 (owner t) (inserted t))
  | OpSeal => Some (mkTable (seal_for_handoff (mgr t)).1 (store t) (owner t) (inserted t))
  | OpUnseal => Some (mkTable (unseal_for_handoff (mgr t)) (store t) (owner t) (inserted t))
  | OpBeginTeardown id => Some (mkTable (begin_teardown (mgr t) id).1 (store t) (owner t) (inserted t))
  | OpEndTeardown id => Some (mkTable (end_teardown (mgr t) id) (store t) (owner t) (inserted t))
  | OpLock id =>
      let '(m, st, l) := lifecycle_lock (mgr t) (store t) id in
      Some (mkTable m st (<[l := id]> (owner t)) (inserted t))
  | OpDropLock l => Some (mkTable (mgr t) (drop_lock (store t) l) (owner t) (inserted t))
  end.

(** The steps a restriction [P] allows. *)
Definition table_step (P : TableOp → Prop) (t t' : Table) : Prop :=
  ∃ op, P op ∧ apply_op t op = Some t'.

Definition any_op (_ : TableOp) : Prop := True.

(** ** Retirement *)

Lemma retire_lookup h h' st :
  handles_ (retire h st) !! h' =
  if decide (h = h') then (λ x, mkHandle true (teardown_claimed x)) <$> handles_ st !! h'
  else handles_ st !! h'.
Proof.
  cbn. case_decide; [subst; apply lookup_alter_eq|by apply lookup_alter_ne].
Qed.

Lemma is_retired_retire h h' st :
  is_Some (handles_ st !! h) →
  is_retired h' (retire h st) = bool_decide (h = h') || is_retired h' st.
Proof.
  intros [x Hx]. unfold is_retired. rewrite retire_lookup. case_decide as Heq.
  - subst. rewrite bool_decide_eq_true_2 by done. by rewrite Hx.
  - rewrite bool_decide_eq_false_2 by done. done.
Qed.

(** The invariant: the table files handles that are not retired, each under one
    id; a handle that was filed and no longer is has been retired; a handle
    never filed is not. *)
Record table_inv (t : Table) : Prop := mkTableInv {
  ti_current : ∀ id h, sessions (mgr t) !! id = Some h →
    h ∈ inserted t ∧ is_retired h (store t) = false;
  ti_unique : ∀ id id' h, sessions (mgr t) !! id = Some h → sessions (mgr t) !! id' = Some h → id = id';
  ti_outgoing : ∀ h, h ∈ inserted t → (∀ id, sessions (mgr t) !! id ≠ Some h) →
    is_retired h (store t) = true;
  ti_exists : ∀ h, h ∈ inserted t → is_Some (handles_ (store t) !! h);
  ti_new : ∀ h, h ∉ inserted t → is_retired h (store t) = false
}.

Lemma is_retired_opt old k st :
  (∀ h, old = Some h → is_Some (handles_ st !! h)) →
  is_retired k (retire_opt old st) = bool_decide (old = Some k) || is_retired k st.
Proof.
  intros Hold. destruct old as [h|]; cbn [retire_opt]; [|done].
  rewrite is_retired_retire by auto. f_equal. apply bool_decide_ext. naive_solver.
Qed.

Lemma retire_opt_exists old k st :
  is_Some (handles_ (retire_opt old st) !! k) ↔ is_Some (handles_ st !! k).
Proof.
  destruct old as [h|]; cbn [retire_opt]; [|done]. rewrite retire_lookup.
  case_decide; [|done]. by rewrite fmap_is_Some.
Qed.

Lemma table_inv_insert t id h :
  insertable t h = true → table_inv t →
  table_inv (mkTable (set_sessions (mgr t) (<[id := h]> (sessions (mgr t))))
               (retire_opt (sessions (mgr t) !! id) (store t)) (owner t) ({[h]} ∪ inserted t)).
Proof.
  unfold insertable. intros Hins [H1 H2 H3 H4 H5]. bool_simpl.
  assert (∀ k, sessions (mgr t) !! id = Some k → is_Some (handles_ (store t) !! k)) as Hold.
  { intros k [Hk _]%H1. by apply H4. }
  assert (∀ id', sessions (mgr t) !! id' ≠ Some h) as Hnot by (intros id' [? _]%H1; done).
  constructor; cbn [mgr store inserted sessions set_sessions].
  - intros id' k. rewrite is_retired_opt by done.
    destruct (decide (id = id')) as [<-|Hne].
    + rewrite lookup_insert_eq. intros [= <-]. split; [set_solver|].
      rewrite (H5 h), bool_decide_eq_false_2 by done. done.
    + rewrite lookup_insert_ne by done. intros Hk. destruct (H1 _ _ Hk) as [Hin Hr].
      split; [set_solver|]. rewrite Hr, bool_decide_eq_false_2; [done|].
      intros Ho. by apply Hne, (H2 _ _ k).
  - intros id1 id2 k Hk1 Hk2. apply lookup_insert_Some in Hk1 as [[<- <-]|[? Hk1]];
      apply lookup_insert_Some in Hk2 as [[<- ?]|[? Hk2]]; try done.
    + by apply Hnot in Hk2.
    + subst. by apply Hnot in Hk1.
    + by eapply H2.
  - intros k Hk Hgone. rewrite is_retired_opt by done.
    assert (k ≠ h) as Hkh by (intros ->; apply (Hgone id); apply lookup_insert_eq).
    destruct (decide (sessions (mgr t) !! id = Some k)) as [Ho|Ho];
      [by rewrite bool_decide_eq_true_2|].
    rewrite (H3 k); [apply orb_true_r|set_solver|].
    intros id' Hid'. apply (Hgone id'). rewrite lookup_insert_ne; [done|]. intros <-. done.
  - intros k Hk. rewrite retire_opt_exists. apply elem_of_union in Hk as [->%elem_of_singleton|Hk]; auto.
  - intros k Hk. rewrite is_retired_opt by done. rewrite (H5 k) by set_solver.
    rewrite bool_decide_eq_false_2; [done|]. intros [Hin _]%H1. set_solver.
Qed.

Lemma table_inv_delete t id :
  table_inv t →
  table_inv (mkTable (set_sessions (mgr t) (delete id (sessions (mgr t))))
               (retire_opt (sessions (mgr t) !! id) (store t)) (owner t) (inserted t)).
Proof.
  intros [H1 H2 H3 H4 H5].
  assert (∀ k, sessions (mgr t) !! id = Some k → is_Some (handles_ (store t) !! k)) as Hold.
  { intros k [Hk _]%H1. by apply H4. }
  constructor; cbn [mgr store inserted sessions set_sessions].
  - intros id' k [Hne Hk]%lookup_delete_Some. destruct (H1 _ _ Hk) as [Hin Hr]. split; [done|].
    rewrite is_retired_opt, Hr, bool_decide_eq_false_2 by (done || intros Ho; by apply Hne, (H2 _ _ k)).
    done.
  - intros id1 id2 k [_ Hk1]%lookup_delete_Some [_ Hk2]%lookup_delete_Some. by eapply H2.
  - intros k Hk Hgone. rewrite is_retired_opt by done.
    destruct (decide (sessions (mgr t) !! id = Some k)) as [Ho|Ho];
      [by rewrite bool_decide_eq_true_2|].
    rewrite (H3 k); [apply orb_true_r|done|].
    intros id' Hid'. apply (Hgone id'). apply lookup_delete_Some. split; [|done]. intros <-. done.
  - intros k Hk. rewrite retire_opt_exists. auto.
  - intros k Hk. rewrite is_retired_opt by done. rewrite (H5 k) by done.
    rewrite bool_decide_eq_false_2; [done|]. intros [Hin _]%H1. done.
Qed.

Lemma retire_all_spec (l : list (SessionId * HandleId)) st k :
  (∀ p, p ∈ l → is_Some (handles_ st !! p.2)) →
  is_retired k (foldr (λ p, retire p.2) st l) = bool_decide (k ∈ map snd l) || is_retired k st ∧
  (is_Some (handles_ (foldr (λ p, retire p.2) st l) !! k) ↔ is_Some (handles_ st !! k)).
Proof.
  induction l as [|p l IH]; intros Hall; [done|]. cbn [foldr map].
  destruct IH as [IH1 IH2]; [intros; apply Hall; by right|].
  assert (∀ j, is_Some (handles_ (foldr (λ p, retire p.2) st l) !! j) ↔ is_Some (handles_ st !! j)) as Hex.
  { clear. induction l as [|q l IH]; intros j; [done|]. cbn [foldr].
    rewrite <-(IH j). apply (retire_opt_exists (Some q.2)). }
  split.
  - rewrite is_retired_retire by (apply Hex, Hall; by left). rewrite IH1.
    rewrite orb_assoc. f_equal. rewrite <-bool_decide_or. apply bool_decide_ext.
    rewrite elem_of_cons. naive_solver.
  - rewrite <-IH2. apply (retire_opt_exists (Some p.2)).
Qed.

Lemma table_inv_kill_all t :
  table_inv t →
  table_inv (mkTable (set_sessions (mgr t) ∅)
               (foldr (λ p, retire p.2) (store t) (handles (mgr t))) (owner t) (inserted t)).
Proof.
  intros [H1 H2 H3 H4 H5].
  assert (∀ p, p ∈ handles (mgr t) → is_Some (handles_ (store t) !! p.2)) as Hall.
  { intros [id h] Hp. apply elem_of_map_to_list in Hp. cbn. apply H4. by eapply H1. }
  assert (∀ k, k ∈ map snd (handles (mgr t)) ↔ ∃ id, sessions (mgr t) !! id = Some k) as Hmem.
  { intros k. unfold handles. rewrite list_elem_of_fmap. split.
    - intros ([id h] & -> & Hp%elem_of_map_to_list). by exists id.
    - intros [id Hid]. exists (id, k). split; [done|]. by apply elem_of_map_to_list. }
  constructor; cbn [mgr store inserted sessions set_sessions].
  - intros id h Hid. by rewrite lookup_empty in Hid.
  - intros id id' h Hid. by rewrite lookup_empty in Hid.
  - intros k Hk _. rewrite (proj1 (retire_all_spec _ _ k Hall)).
    destruct (decide (k ∈ map snd (handles (mgr t)))) as [Hin|Hin];
      [by rewrite bool_decide_eq_true_2|].
    rewrite (H3 k); [apply orb_true_r|done|]. intros id Hid. apply Hin, Hmem. by exists id.
  - intros k Hk. rewrite (proj2 (retire_all_spec _ _ k Hall)). auto.
  - intros k Hk. rewrite (proj1 (retire_all_spec _ _ k Hall)), (H5 k) by done.
    rewrite bool_decide_eq_false_2; [done|]. intros [id [Hin _]%H1]%Hmem. done.
Qed.

(** Changes that keep the table and every handle's retirement. *)
Lemma table_inv_same t m st o :
  sessions m = sessions (mgr t) → (∀ k, is_retired k st = is_retired k (store t)) →
  (∀ k, is_Some (handles_ (store t) !! k) → is_Some (handles_ st !! k)) →
  table_inv t → table_inv (mkTable m st o (inserted t)).
Proof.
  intros Hs Hr Hex [H1 H2 H3 H4 H5]. constructor; cbn [mgr store inserted]; rewrite ?Hs.
  - intros id h Hid. rewrite Hr. by eapply H1.
  - done.
  - intros h Hin Hgone. rewrite Hr. auto.
  - auto.
  - intros h Hin. rewrite Hr. auto.
Qed.

Lemma claim_retired h st k :
  is_retired k (claim_teardown h st).1 = is_retired k st ∧
  (is_Some (handles_ st !! k) → is_Some (handles_ (claim_teardown h st).1 !! k)).
Proof.
  unfold claim_teardown. destruct (handles_ st !! h) as [x|] eqn:Hx; [|done].
  destruct (teardown_claimed x); [done|]. unfold is_retired. cbn [fst handles_].
  destruct (decide (h = k)) as [<-|Hne].
  - rewrite lookup_insert_eq, Hx. split; [done|]. by eexists.
  - by rewrite lookup_insert_ne.
Qed.

Lemma table_inv_op P t t' : table_inv t → table_step P t t' → table_inv t'.
Proof.
  intros Hinv (op & _ & Hop). destruct op; cbn [apply_op] in Hop.
  - destruct (handles_ (store t) !! h) eqn:Hh; [done|]. injection Hop as <-.
    apply table_inv_same; [done| |intros k Hk; cbn; destruct (decide (h = k)) as [<-|]; [by rewrite lookup_insert_eq; eexists|by rewrite lookup_insert_ne]|done].
    intros k. unfold is_retired. cbn [handles_]. destruct (decide (h = k)) as [<-|];
      [by rewrite lookup_insert_eq, Hh|by rewrite lookup_insert_ne].
  - destruct (insertable t h) eqn:Hi; [|done]. injection Hop as <-. by apply table_inv_insert.
  - destruct (insertable t h) eqn:Hi; [|done]. unfold insert_unless_sealed in Hop.
    destruct (sealed_for_handoff (mgr t) || _); injection Hop as <-;
      [by destruct t|by apply table_inv_insert].
  - injection Hop as <-. by apply table_inv_delete.
  - unfold remove_if_same in Hop. destruct (is_current _ _ _); injection Hop as <-; [by apply table_inv_delete|by destruct t].
  - injection Hop as <-. by apply table_inv_kill_all.
  - injection Hop as <-. apply table_inv_same; [done|..|done]; intros k; apply claim_retired.
  - injection Hop as <-. by apply table_inv_same.
  - injection Hop as <-. by apply table_inv_same.
  - injection Hop as <-. by apply table_inv_same.
  - injection Hop as <-. by apply table_inv_same.
  - unfold lifecycle_lock in Hop. destruct (_ !! id) as [l|]; injection Hop as <-; by apply table_inv_same.
  - injection Hop as <-. by apply table_inv_same.
Qed.

Lemma initial_table_inv : table_inv initial_table.
Proof. constructor; cbn; try set_solver. Qed.

(** Retirement follows the table exactly.  However sessions are created,
    spawned, adopted, replaced under the same id, removed, torn down, sealed
    and killed, a handle that was ever filed is retired exactly when no id maps
    to it any more, and no handle is filed under two ids: so an outgoing
    incarnation is always fenced and the current one never is. *)
Theorem retired_iff_not_current t h :
  reachable (table_step any_op) initial_table t → h ∈ inserted t →
  (is_retired h (store t) = true ↔ ∀ id, sessions (mgr t) !! id ≠ Some h) ∧
  ∀ id id', sessions (mgr t) !! id = Some h → sessions (mgr t) !! id' = Some h → id = id'.
Proof.
  intros Hr Hin.
  assert (table_inv t) as [H1 H2 H3 H4 H5].
  { revert Hr. apply reachable_invariant; [apply initial_table_inv|]. intros ??. apply table_inv_op. }
  split; [|intros; by eapply H2]. split.
  - intros Hret id Hid. destruct (H1 _ _ Hid). congruence.
  - by apply H3.
Qed.

Definition run_ops (ops : list TableOp) : option Table :=
  fold_left (λ t op, t ≫= λ t, apply_op t op) ops (Some initial_table).

Lemma run_ops_reachable ops t : run_ops ops = Some t → reachable (table_step any_op) initial_table t.
Proof.
  unfold run_ops. revert t. induction ops as [|op ops IH] using rev_ind; intros t.
  { intros [= <-]. constructor. }
  rewrite fold_left_app. cbn. destruct (fold_left _ ops _) as [t1|]; cbn; [|done].
  intros Hn. eapply reachable_step; [by apply IH|]. by exists op.
Qed.

(** Session 1 is replaced under its id by session 2. *)
Definition replaced_table : Table :=
  default initial_table (run_ops [OpCreate 1; OpSpawn (lit "s") 1; OpCreate 2; OpSpawn (lit "s") 2]).

Lemma retired_iff_not_current_witness :
  is_retired 1 (store replaced_table) = true ↔
  ∀ id, sessions (mgr replaced_table) !! id ≠ Some 1.
Proof.
  apply (retired_iff_not_current replaced_table 1).
  - apply (run_ops_reachable
             [OpCreate 1; OpSpawn (lit "s") 1; OpCreate 2; OpSpawn (lit "s") 2]).
    vm_compute. reflexivity.
  - apply (bool_decide_unpack _). vm_compute. exact I.
Defined.

(** ** Lifecycle locks *)

Record lock_inv (t : Table) : Prop := mkLockInv {
  li_filed : ∀ l id, l ∈ live (store t) → owner t !! l = Some id →
    lifecycle_locks (mgr t) !! id = Some l;
  li_owned : ∀ id l, lifecycle_locks (mgr t) !! id = Some l → owner t !! l = Some id;
  li_fresh : ∀ l id, owner t !! l = Some id → l < next_lock (store t);
  li_live : ∀ l, l ∈ live (store t) → is_Some (owner t !! l)
}.

Lemma lock_inv_same t m st o i :
  lifecycle_locks m = lifecycle_locks (mgr t) → o = owner t →
  live st ⊆ live (store t) → next_lock st = next_lock (store t) →
  lock_inv t → lock_inv (mkTable m st o i).
Proof.
  intros Hl -> Hlive Hn [H1 H2 H3 H4]. constructor; cbn [mgr store owner]; rewrite ?Hl, ?Hn; auto.
Qed.

Lemma retire_opt_locks old st :
  live (retire_opt old st) = live st ∧ next_lock (retire_opt old st) = next_lock st.
Proof. by destruct old. Qed.

Lemma retire_all_locks (l : list (SessionId * HandleId)) st :
  live (foldr (λ p, retire p.2) st l) = live st ∧
  next_lock (foldr (λ p, retire p.2) st l) = next_lock st.
Proof. induction l as [|p l [IH1 IH2]]; [done|]. by cbn. Qed.

Lemma claim_locks h st :
  live (claim_teardown h st).1 = live st ∧ next_lock (claim_teardown h st).1 = next_lock st.
Proof. unfold claim_teardown. repeat case_match; done. Qed.

Lemma lock_inv_lock t id m st l :
  lifecycle_lock (mgr t) (store t) id = (m, st, l) → lock_inv t →
  lock_inv (mkTable m st (<[l := id]> (owner t)) (inserted t)).
Proof.
  intros Hlock [H1 H2 H3 H4]. unfold lifecycle_lock in Hlock. cbn zeta in Hlock.
  destruct (filter _ (lifecycle_locks (mgr t)) !! id) as [l'|] eqn:Hk; injection Hlock as <- <- <-.
  - apply map_lookup_filter_Some in Hk as [Hk Hlive]. cbn in Hlive.
    rewrite insert_id by (by apply H2). constructor; cbn [mgr store owner lifecycle_locks].
    + intros l0 id0 Hl0 Ho. apply map_lookup_filter_Some. auto.
    + intros id0 l0 [Hl0 _]%map_lookup_filter_Some. auto.
    + done.
    + done.
  - assert (owner t !! next_lock (store t) = None) as Hnew.
    { destruct (owner t !! next_lock (store t)) eqn:Ho; [|done]. apply H3 in Ho. lia. }
    assert (next_lock (store t) ∉ live (store t)) as Hdead.
    { intros [? Ho]%H4. congruence. }
    constructor; cbn [mgr store owner lifecycle_locks live next_lock].
    + intros l0 id0 [->%elem_of_singleton|Hl0]%elem_of_union Ho.
      * rewrite lookup_insert_eq in Ho. injection Ho as ->. apply lookup_insert_eq.
      * rewrite lookup_insert_ne in Ho by (by intros <-).
        pose proof (H1 _ _ Hl0 Ho) as Hfiled.
        rewrite lookup_insert_ne; [by apply map_lookup_filter_Some|].
        intros <-. rewrite map_lookup_filter_None in Hk. destruct Hk as [Hk|Hk]; [congruence|].
        by apply (Hk l0).
    + intros id0 l0 [[<- <-]|[Hne [Hl0 Hl0live]%map_lookup_filter_Some]]%lookup_insert_Some;
        [apply lookup_insert_eq|]. rewrite lookup_insert_ne; [auto|].
      intros <-. apply H2 in Hl0. congruence.
    + intros l0 id0 [[<- <-]|[_ Ho]]%lookup_insert_Some; [lia|]. apply H3 in Ho. lia.
    + intros l0 [->%elem_of_singleton|Hl0]%elem_of_union.
      * rewrite lookup_insert_eq. by eexists.
      * rewrite lookup_insert_ne by (by intros <-). auto.
Qed.

Lemma lock_inv_op P t t' : lock_inv t → table_step P t t' → lock_inv t'.
Proof.
  intros Hinv (op & _ & Hop).
  assert (∀ old s i, lock_inv (mkTable (set_sessions (mgr t) s) (retire_opt old (store t)) (owner t) i)) as Hset.
  { intros old s i. destruct (retire_opt_locks old (store t)) as [E1 E2].
    apply (lock_inv_same t); [done|done|by rewrite E1|done|done]. }
  destruct op; cbn [apply_op] in Hop.
  - destruct (handles_ (store t) !! h); [done|]. injection Hop as <-. by apply (lock_inv_same t).
  - destruct (insertable t h); [|done]. injection Hop as <-. apply Hset.
  - destruct (insertable t h); [|done]. unfold insert_unless_sealed in Hop.
    destruct (sealed_for_handoff (mgr t) || _); injection Hop as <-; [by destruct t|apply Hset].
  - injection Hop as <-. apply Hset.
  - unfold remove_if_same in Hop. destruct (is_current _ _ _); injection Hop as <-; [apply Hset|by destruct t].
  - injection Hop as <-. destruct (retire_all_locks (handles (mgr t)) (store t)) as [E1 E2].
    apply (lock_inv_same t); [done|done|by rewrite E1|done|done].
  - injection Hop as <-. destruct (claim_locks h (store t)) as [E1 E2].
    apply (lock_inv_same t); [done|done|by rewrite E1|done|done].
  - injection Hop as <-. by apply (lock_inv_same t).
  - injection Hop as <-. by apply (lock_inv_same t).
  - injection Hop as <-. by apply (lock_inv_same t).
  - injection Hop as <-. by apply (lock_inv_same t).
  - destruct (lifecycle_lock (mgr t) (store t) id) as [[m st] l] eqn:Hl. injection Hop as <-.
    by apply lock_inv_lock.
  - injection Hop as <-. apply (lock_inv_same t); [done|done| |done|done]. cbn. set_solver.
Qed.

(** Lifecycle serialization is per id: two tasks that hold lifecycle locks
    obtained for the same session id, at whatever times and with whatever
    happened in between, hold the same lock, although the table keeps locks
    weakly and drops the ones nobody holds. *)
Theorem lifecycle_lock_is_unique_per_id t a b id :
  reachable (table_step any_op) initial_table t →
  a ∈ live (store t) → b ∈ live (store t) → owner t !! a = Some id → owner t !! b = Some id → a = b.
Proof.
  intros Hr Ha Hb Hoa Hob.
  assert (lock_inv t) as [H1 _ _ _].
  { revert Hr. apply reachable_invariant; [|intros ??; apply lock_inv_op].
    constructor; cbn; set_solver. }
  pose proof (H1 _ _ Ha Hoa). pose proof (H1 _ _ Hb Hob). congruence.
Qed.

Definition locked_table : Table :=
  default initial_table (run_ops [OpLock (lit "s"); OpDropLock 0; OpLock (lit "s"); OpLock (lit "s")]).

Lemma lifecycle_lock_is_unique_per_id_witness :
  owner locked_table !! 1 = Some (lit "s") ∧ 1 = 1.
Proof.
  split; [vm_compute; reflexivity|].
  apply (lifecycle_lock_is_unique_per_id locked_table 1 1 (lit "s")).
  - apply (run_ops_reachable [OpLock (lit "s"); OpDropLock 0; OpLock (lit "s"); OpLock (lit "s")]).
    vm_compute. reflexivity.
  - apply (bool_decide_unpack _). vm_compute. exact I.
  - apply (bool_decide_unpack _). vm_compute. exact I.
  - vm_compute. reflexivity.
  - vm_compute. reflexivity.
Defined.

(** ** Sealing and single-flight teardown *)

(** What a serving daemon does between a handoff snapshot and its outcome:
    everything but adopting at startup and lifting the seal. *)
Definition while_sealed (op : TableOp) : Prop :=
  match op with OpInsert _ _ | OpUnseal => False | _ => True end.

Lemma sealed_step t t' :
  sealed_for_handoff (mgr t) = true → table_step while_sealed t t' →
  sealed_for_handoff (mgr t') = true ∧ sessions (mgr t') ⊆ sessions (mgr t).
Proof.
  intros Hs (op & Hop & Happ). destruct op; cbn [apply_op while_sealed] in *; try done.
  - destruct (handles_ (store t) !! h); [done|]. by injection Happ as <-.
  - destruct (insertable t h); [|done]. unfold insert_unless_sealed in Happ.
    rewrite Hs in Happ. by injection Happ as <-.
  - injection Happ as <-. split; [done|]. cbn. apply delete_subseteq.
  - unfold remove_if_same in Happ. destruct (is_current _ _ _); injection Happ as <-; split; try done.
    cbn. apply delete_subseteq.
  - injection Happ as <-. split; [done|]. cbn. apply map_empty_subseteq.
  - by injection Happ as <-.
  - by injection Happ as <-.
  - by injection Happ as <-.
  - by injection Happ as <-.
  - unfold lifecycle_lock in Happ. destruct (_ !! id); by injection Happ as <-.
  - by injection Happ as <-.
Qed.

(** The table a handoff snapshot was taken of only shrinks until the seal
    lifts: whatever is spawned, removed, killed or torn down in between, no
    session appears that the snapshot does not have, and none is rebound to
    another handle. *)
Theorem sealed_table_only_shrinks t t' :
  reachable (table_step while_sealed) (mkTable (seal_for_handoff (mgr t)).1 (store t) (owner t) (inserted t)) t' →
  sealed_for_handoff (mgr t') = true ∧ sessions (mgr t') ⊆ sessions (mgr t).
Proof.
  apply (reachable_invariant _ (λ t', sealed_for_handoff (mgr t') = true ∧ sessions (mgr t') ⊆ sessions (mgr t))).
  - done.
  - intros t1 t2 [Hs Hsub] Hstep. destruct (sealed_step _ _ Hs Hstep) as [Hs' Hsub'].
    split; [done|]. by transitivity (sessions (mgr t1)).
Qed.

Lemma sealed_table_only_shrinks_witness :
  sealed_for_handoff (seal_for_handoff (mgr replaced_table)).1 = true.
Proof.
  apply (sealed_table_only_shrinks replaced_table
           (mkTable (seal_for_handoff (mgr replaced_table)).1 (store replaced_table)
              (owner replaced_table) (inserted replaced_table))).
  apply reachable_init.
Defined.

Definition claimed (h : HandleId) (st : Store) : Prop :=
  ∃ x, handles_ st !! h = Some x ∧ teardown_claimed x = true.

Lemma claimed_retire_opt h old st : claimed h st → claimed h (retire_opt old st).
Proof.
  intros (x & Hx & Hc). destruct old as [k|]; cbn [retire_opt]; [|by exists x].
  unfold claimed. rewrite retire_lookup. case_decide; [|by exists x]. rewrite Hx. cbn. by eexists.
Qed.

Lemma claimed_step P h t t' : claimed h (store t) → table_step P t t' → claimed h (store t').
Proof.
  intros Hc (op & _ & Hop). destruct op; cbn [apply_op] in Hop.
  - destruct (handles_ (store t) !! h0) eqn:Hh; [done|]. injection Hop as <-.
    destruct Hc as (x & Hx & Hc). exists x. cbn. rewrite lookup_insert_ne by congruence. done.
  - destruct (insertable t h0); [|done]. injection Hop as <-. by apply claimed_retire_opt.
  - destruct (insertable t h0); [|done]. unfold insert_unless_sealed in Hop.
    destruct (sealed_for_handoff (mgr t) || _); injection Hop as <-; [done|by apply claimed_retire_opt].
  - injection Hop as <-. by apply claimed_retire_opt.
  - unfold remove_if_same in Hop. destruct (is_current _ _ _); injection Hop as <-; [by apply claimed_retire_opt|done].
  - injection Hop as <-. cbn. induction (handles (mgr t)) as [|p l IH]; [done|].
    apply (claimed_retire_opt h (Some p.2)). exact IH.
  - injection Hop as <-. cbn. unfold claim_teardown. destruct Hc as (x & Hx & Hc).
    destruct (handles_ (store t) !! h0) as [y|] eqn:Hy; [|by exists x].
    destruct (teardown_claimed y) eqn:Hcy; [by exists x|]. exists x. cbn.
    rewrite lookup_insert_ne; [done|]. intros ->. congruence.
  - by injection Hop as <-.
  - by injection Hop as <-.
  - by injection Hop as <-.
  - by injection Hop as <-.
  - unfold lifecycle_lock in Hop. destruct (_ !! id); by injection Hop as <-.
  - by injection Hop as <-.
Qed.

(** Teardown is single-flight: after one claim of a handle's teardown
    succeeds, no later claim of it does, whatever happens to the table in
    between, so concurrent and retried kills run one sweep. *)
Theorem teardown_claimed_at_most_once P t t' h st :
  claim_teardown h (store t) = (st, true) →
  reachable (table_step P) (mkTable (mgr t) st (owner t) (inserted t)) t' →
  (claim_teardown h (store t')).2 = false.
Proof.
  intros Hclaim Hr.
  assert (claimed h (store t')) as (x & Hx & Hc).
  { revert Hr. apply (reachable_invariant _ (λ t, claimed h (store t)));
      [|intros ??; apply claimed_step]. cbn [store].
    unfold claim_teardown in Hclaim. destruct (handles_ (store t) !! h) as [y|]; [|done].
    destruct (teardown_claimed y); [done|]. injection Hclaim as <-.
    eexists. cbn. split; [apply lookup_insert_eq|done]. }
  unfold claim_teardown. by rewrite Hx, Hc.
Qed.

Lemma teardown_claimed_at_most_once_witness :
  (claim_teardown 2 (claim_teardown 2 (store replaced_table)).1).2 = false.
Proof.
  apply (teardown_claimed_at_most_once any_op replaced_table
           (mkTable (mgr replaced_table) (claim_teardown 2 (store replaced_table)).1
              (owner replaced_table) (inserted replaced_table)) 2
           (claim_teardown 2 (store replaced_table)).1).
  - vm_compute. reflexivity.
  - apply reachable_init.
Defined.
