(* ===== verification/AgentJournal.v ===== *)
(** * The journal of an agent session ([AgentJournal] of
    [crates/daemon/src/agent.rs], [is_safe] of
    [crates/runtime-defaults/src/session_id.rs])

    Events are kept in memory and appended to a file, one JSON object a line;
    a write that fails is repaired later by rewriting the whole file, with a
    budget that spaces the attempts; the provider's session id is kept in a
    second file, replaced atomically.  The directory is a map from names to
    contents, which one process at a time changes; what the operating system
    answers comes from outside as the [*Env] records.  Serialization is
    [serde_json]'s: a pair of functions with the laws of [JsonLaws].  Symbolic
    links and descriptors are not modelled. *)

From stdpp Require Import vector.
From S2P Require Import Prelude RustStd Utf8.
Local Open Scope Z_scope.

(** ** Names *)

Definition is_safe (session_id : str) : bool :=
  negb (bool_decide (session_id = [])) && forallb (λ c, negb (c =? 0)) session_id
  && forallb (λ c, negb (c =? 47) && negb (c =? 92)) session_id
  && forallb is_ascii session_id && forallb (λ c, negb (in_range 65 90 c)) session_id
  && negb (bool_decide (session_id = lit ".")) && negb (bool_decide (session_id = lit "..")).

Definition history_name (session_id : str) : str := session_id ++ lit ".ndjson".
Definition metadata_name_of (session_id : str) : str := session_id ++ lit ".meta.json".

Definition suffix (nonce : list byte) : str := hex_bytes nonce.

Definition candidate (name : str) (nonce : vec byte 12) : str :=
  name ++ lit ".tmp." ++ suffix (vec_to_list nonce).

(** ** Retrying *)

(** Times are in milliseconds. *)
Record RetryBudget := mkBudget { attempts : Z; next_attempt_at : option Z }.

Definition RETRY_BASE : Z := 200.
Definition RETRY_MAX : Z := 30000.

Definition new_budget : RetryBudget := mkBudget 0 None.

Definition due (b : RetryBudget) (now : Z) : bool :=
  match next_attempt_at b with None => true | Some t => t <=? now end.

Definition record_failure (b : RetryBudget) (now : Z) : RetryBudget :=
  let n := Z.min (attempts b + 1) 4294967295 in
  mkBudget n (Some (now + Z.min (RETRY_BASE * Z.shiftl 1 (Z.min n 8)) RETRY_MAX)).

Definition record_success (b : RetryBudget) : RetryBudget := new_budget.

(** ** Replacing a file *)

Abbreviation Files := (gmap str (list byte)) (only parsing).

(** The nonces drawn ([None] where the random source fails), and what the
    system calls answer; [staged] is the number of bytes written when writing
    or syncing the staging file fails. *)
Record ReplaceEnv := mkReplaceEnv {
  nonces : list (option (vec byte 12));
  create_ok : bool;
  staged : option nat;
  rename_ok : bool;
  unlink_ok : bool;
  sync_ok : bool
}.

(** The loop that finds a name that is not taken; [more] attempts are left
    when one is. *)
Fixpoint staging_name (fs : Files) (name : str) (more : nat) (drawn : list (option (vec byte 12)))
    {struct drawn}
    : option str :=
  match drawn with
  | Some nonce :: drawn =>
      if bool_decide (is_Some (fs !! candidate name nonce)) then
        match more with O => None | S more => staging_name fs name more drawn end
      else Some (candidate name nonce)
  | _ => None
  end.

(** [replace_durably]: the directory after each of its effects, and whether it
    succeeded. *)
Definition replace_durably (env : ReplaceEnv) (fs : Files) (name : str) (contents : list byte)
    : list Files * bool :=
  match staging_name fs name 8 (nonces env) with
  | None => ([], false)
  | Some staging =>
      if create_ok env then
        let created := <[staging := []]> fs in
        match staged env with
        | Some n =>
            let torn := <[staging := take n contents]> fs in
            (created :: torn :: (if unlink_ok env then [delete staging torn] else []), false)
        | None =>
            let full := <[staging := contents]> fs in
            if rename_ok env
            then ([created; full; <[name := contents]> (delete staging full)], sync_ok env)
            else (created :: full :: (if unlink_ok env then [delete staging full] else []), false)
        end
      else ([], false)
  end.

Definition files_after (fs : Files) (r : list Files * bool) : Files := default fs (last r.1).

(** ** Entries and their text *)

Record SeqAgentEvent (E : Type) := mkEntry { seq : nat; event : E }.
Arguments mkEntry {E} _ _.
Arguments seq {E} _.
Arguments event {E} _.

(** [serde_json] on an entry and on the metadata, whose only field is the
    provider's session id. *)
Class Json (E : Type) := {
  entry_to_json : SeqAgentEvent E → str;
  entry_from_json : str → option (SeqAgentEvent E);
  meta_to_json : str → str;
  meta_from_json : str → option (option str)
}.

(** An object is written in braces on one line; an id is read back. *)
Class JsonLaws (E : Type) `{!Json E} := {
  json_valid (e : SeqAgentEvent E) : valid_str (entry_to_json e);
  json_line (e : SeqAgentEvent E) : 10 ∉ entry_to_json e;
  json_braces (e : SeqAgentEvent E) : ∃ body, entry_to_json e = 123 :: body ++ [125];
  json_meta (id : str) : valid_str id → meta_from_json (meta_to_json id) = Some (Some id);
  json_meta_valid (id : str) : valid_str id → valid_str (meta_to_json id)
}.

(** An event of which an entry is read back as it was written.  [serde_json] promises
    this of an event without floating-point numbers; the cost of a turn is one, and may
    be read back as its neighbour. *)
Definition reads_back {E} `{!Json E} (ev : E) : Prop :=
  ∀ n, entry_from_json (entry_to_json (mkEntry n ev)) = Some (mkEntry n ev).

Definition exact {E} `{!Json E} (l : list (SeqAgentEvent E)) : Prop := Forall (λ e, reads_back (event e)) l.

Section journal.
Context {E : Type} `{!Json E}.
Abbreviation Entry := (SeqAgentEvent E).

Definition line_bytes (e : Entry) : list byte := utf8 (entry_to_json e) ++ [10].

(** The body [rewrite_atomically] writes. *)
Definition render (events : list Entry) : list byte := mjoin (map line_bytes events).

(** The lines of a history that parse. *)
Definition parse_history (content : list byte) : list Entry :=
  match from_utf8 content with
  | None => []
  | Some s => omap entry_from_json (filter (λ l, l ≠ []) (map trim (lines s)))
  end.

Definition parse_metadata (content : list byte) : option str :=
  s ← from_utf8 content; id ← meta_from_json s; id.

(** ** The journal *)

(** [file] says whether the history is open for appending. *)
Record AgentJournal := mkJournal {
  dir : bool;
  file_name : str;
  metadata_name : str;
  file : bool;
  events : list Entry;
  provider_session_id : option str;
  pending_provider_session_id : option str;
  degraded : bool;
  repair_needed : bool;
  repair_retry : RetryBudget;
  metadata_retry : RetryBudget
}.

Definition memory_only : AgentJournal :=
  mkJournal false [] [] false [] None None true false new_budget new_budget.

Definition needs_seq_migration (l : list Entry) : bool :=
  existsb (λ p, negb (seq p.2 =? p.1)%nat) (imap pair l).

(** The entries renumbered by their position. *)
Definition renumber (l : list Entry) : list Entry := imap (λ i e, mkEntry i (event e)) l.

Definition rewrite_atomically (env : ReplaceEnv) (fs : Files) (name : str) (l : list Entry)
    : list Files * bool := replace_durably env fs name (render l).

(** [open_file] with [O_CREAT]. *)
Definition open_append (fs : Files) (name : str) : Files :=
  match fs !! name with Some _ => fs | None => <[name := []]> fs end.

Record OpenEnv := mkOpenEnv {
  dir_opened : bool;
  history_read : bool;
  metadata_read : bool;
  migration : ReplaceEnv;
  append_opened : bool
}.

Definition open (session_id : str) (env : OpenEnv) (fs : Files) : AgentJournal * Files :=
  if negb (is_safe session_id) then (memory_only, fs)
  else if negb (dir_opened env) then (memory_only, fs)
  else
    let name := history_name session_id in
    let metadata := metadata_name_of session_id in
    let loaded := if history_read env then from_option parse_history [] (fs !! name) else [] in
    let id := if metadata_read env then fs !! metadata ≫= parse_metadata else None in
    let migrates := needs_seq_migration loaded in
    let r := if migrates then rewrite_atomically (migration env) fs name (renumber loaded)
             else ([], true) in
    let fs1 := files_after fs r in
    let unconfirmed := negb r.2 in
    let opened := negb unconfirmed && append_opened env in
    (mkJournal true name metadata opened (if migrates then renumber loaded else loaded) id None
       (negb opened) unconfirmed new_budget new_budget,
     if opened then open_append fs1 name else fs1).

(** [publish_provider_session_id] *)
Definition publish_provider_session_id (j : AgentJournal) (env : ReplaceEnv) (fs : Files) (id : str)
    : Files * bool :=
  if dir j then
    let r := replace_durably env fs (metadata_name j) (utf8 (meta_to_json id)) in
    (files_after fs r, r.2)
  else (fs, false).

(** What [publish_provider_session_id] leaves in the record. *)
Definition id_published (j : AgentJournal) (id : str) : AgentJournal :=
  mkJournal (dir j) (file_name j) (metadata_name j) (file j) (events j) (Some id) None (degraded j)
    (repair_needed j) (repair_retry j) (record_success (metadata_retry j)).

Definition id_refused (j : AgentJournal) (id : str) (b : RetryBudget) (now : Z) : AgentJournal :=
  mkJournal (dir j) (file_name j) (metadata_name j) (file j) (events j) (provider_session_id j)
    (Some id) (degraded j) (repair_needed j) (repair_retry j) (record_failure b now).

Definition set_provider_session_id (j : AgentJournal) (env : ReplaceEnv) (now : Z) (id : str) (fs : Files)
    : AgentJournal * Files :=
  if bool_decide (provider_session_id j = Some id) then (j, fs)
  else
    let repeats := bool_decide (pending_provider_session_id j = Some id) in
    if repeats && negb (due (metadata_retry j) now) then (j, fs)
    else
      let b := if repeats then metadata_retry j else record_success (metadata_retry j) in
      let '(fs1, ok) := publish_provider_session_id j env fs id in
      ((if ok then id_published j id else id_refused j id b now), fs1).

Record AppendEnv := mkAppendEnv {
  now : Z;
  metadata_env : ReplaceEnv;
  history_env : ReplaceEnv;
  reopened : bool;
  written : option nat
}.

(** The two halves of [retry_pending_durable_work]. *)
Definition retry_metadata (j : AgentJournal) (env : AppendEnv) (fs : Files) : AgentJournal * Files :=
  match pending_provider_session_id j with
  | Some id =>
      let '(fs1, ok) := publish_provider_session_id j (metadata_env env) fs id in
      ((if ok then id_published j id else id_refused j id (metadata_retry j) (now env)), fs1)
  | None => (j, fs)
  end.

Definition repair_refused (j : AgentJournal) (now : Z) : AgentJournal :=
  mkJournal (dir j) (file_name j) (metadata_name j) (file j) (events j) (provider_session_id j)
    (pending_provider_session_id j) (degraded j) (repair_needed j) (record_failure (repair_retry j) now)
    (metadata_retry j).

Definition repaired (j : AgentJournal) : AgentJournal :=
  mkJournal (dir j) (file_name j) (metadata_name j) true (events j) (provider_session_id j)
    (pending_provider_session_id j) false false (record_success (repair_retry j)) (metadata_retry j).

Definition retry_repair (j : AgentJournal) (env : AppendEnv) (fs : Files) : AgentJournal * Files :=
  if dir j then
    let r := rewrite_atomically (history_env env) fs (file_name j) (events j) in
    let fs1 := files_after fs r in
    if r.2 && reopened env
    then (repaired j, open_append fs1 (file_name j))
    else (repair_refused j (now env), fs1)
  else (repair_refused j (now env), fs).

Definition retry_pending_durable_work (j : AgentJournal) (env : AppendEnv) (repair_due metadata_due : bool)
    (fs : Files) : AgentJournal * Files :=
  let '(j1, fs1) := if metadata_due then retry_metadata j env fs else (j, fs) in
  if repair_due then retry_repair j1 env fs1 else (j1, fs1).

(** The retries at the start of [append]. *)
Definition before_append (j : AgentJournal) (env : AppendEnv) (fs : Files) : AgentJournal * Files :=
  let repair_due := repair_needed j && due (repair_retry j) (now env) in
  let metadata_due := bool_decide (is_Some (pending_provider_session_id j)) && due (metadata_retry j) (now env) in
  if repair_due || metadata_due then retry_pending_durable_work j env repair_due metadata_due fs else (j, fs).

(** The bytes of the line that reach the file; a failed write leaves out at
    least the last one. *)
Definition append_bytes (env : AppendEnv) (e : Entry) : list byte :=
  match written env with None => line_bytes e | Some n => take (n `min` (length (line_bytes e) - 1)) (line_bytes e) end.

Definition push_entry (j : AgentJournal) (e : Entry) : AgentJournal :=
  mkJournal (dir j) (file_name j) (metadata_name j) (file j) (events j ++ [e]) (provider_session_id j)
    (pending_provider_session_id j) (degraded j) (repair_needed j) (repair_retry j) (metadata_retry j).

Definition write_refused (j : AgentJournal) (now : Z) : AgentJournal :=
  mkJournal (dir j) (file_name j) (metadata_name j) false (events j) (provider_session_id j)
    (pending_provider_session_id j) true true (record_failure (repair_retry j) now) (metadata_retry j).

Definition append (j0 : AgentJournal) (env : AppendEnv) (ev : E) (fs0 : Files)
    : AgentJournal * Files * Entry :=
  let '(j, fs) := before_append j0 env fs0 in
  let entry := mkEntry (length (events j)) ev in
  if file j then
    let fs1 := <[file_name j := default [] (fs !! file_name j) ++ append_bytes env entry]> fs in
    let j1 := match written env with None => j | Some _ => write_refused j (now env) end in
    (push_entry j1 entry, fs1, entry)
  else (push_entry j entry, fs, entry).

Definition next_seq (j : AgentJournal) : nat := length (events j).

Definition events_from (j : AgentJournal) (from_seq : nat) : list Entry := drop from_seq (events j).

(** [remove_file]; [unlinked] is whether each of the two calls succeeds. *)
Definition remove_file (j : AgentJournal) (unlinked : bool * bool) (fs : Files) : AgentJournal * Files :=
  (mkJournal (dir j) (file_name j) (metadata_name j) false (events j) (provider_session_id j)
     (pending_provider_session_id j) (degraded j) (repair_needed j) (repair_retry j) (metadata_retry j),
   if dir j then
     let fs1 := if unlinked.1 then delete (file_name j) fs else fs in
     if unlinked.2 then delete (metadata_name j) fs1 else fs1
   else fs).

(** ** The daemon's host: a directory, and one life of the daemon after another *)

Record Host := mkHost { journal : AgentJournal; files : Files; clock : Z }.

Inductive JournalAction :=
  | AAppend (ev : E) (env : AppendEnv)
  | ASetId (id : str) (env : ReplaceEnv)
  | ATick (now : Z)
  | AReopen (env : OpenEnv).

(** The environment's clock is the host's. *)
Definition at_clock (y : Host) (env : AppendEnv) : AppendEnv :=
  mkAppendEnv (clock y) (metadata_env env) (history_env env) (reopened env) (written env).

Section host.
Context (session_id : str).

Definition next_host (y : Host) (a : JournalAction) : option Host :=
  match a with
  | AAppend ev env =>
      let '(j, fs, _) := append (journal y) (at_clock y env) ev (files y) in Some (mkHost j fs (clock y))
  | ASetId id env =>
      if bool_decide (valid_str id) then
        let '(j, fs) := set_provider_session_id (journal y) env (clock y) id (files y) in
        Some (mkHost j fs (clock y))
      else None
  | ATick now => if clock y <=? now then Some (mkHost (journal y) (files y) now) else None
  | AReopen env => let '(j, fs) := open session_id env (files y) in Some (mkHost j fs (clock y))
  end.

(** The bytes of the history. *)
Definition content (y : Host) : list byte := default [] (files y !! history_name session_id).

Definition ends_line (l : list byte) : Prop := l = [] ∨ last l = Some 10.

(** An event is one that is read back; a restart finds the history ending with a whole
    line, and can read the two files. *)
Definition sound (y : Host) (a : JournalAction) : Prop :=
  match a with
  | AAppend ev _ => reads_back ev
  | AReopen env => ends_line (content y) ∧ history_read env = true ∧ metadata_read env = true
  | _ => True
  end.

Definition host_step (y y' : Host) : Prop := ∃ a, next_host y a = Some y'.
Definition sound_step (y y' : Host) : Prop := ∃ a, sound y a ∧ next_host y a = Some y'.
End host.
End journal.

(** ** Names do not collide *)

Lemma length_suffix nonce : length (suffix nonce) = (2 * length nonce)%nat.
Proof. induction nonce as [|b l IH]; [done|]. change (suffix (b :: l)) with ([hex_digit (b / 16); hex_digit (b mod 16)] ++ suffix l). rewrite length_app, IH. cbn. lia. Qed.

Lemma length_candidate name nonce : length (candidate name nonce) = (length name + 29)%nat.
Proof. unfold candidate. rewrite !length_app, length_suffix, length_vec_to_list. cbn. lia. Qed.

Lemma names_differ id : history_name id ≠ metadata_name_of id.
Proof. unfold history_name, metadata_name_of. by intros ?%app_inv_head. Qed.

Lemma candidate_not_name name nonce : candidate name nonce ≠ name.
Proof. intros H%(f_equal length). rewrite length_candidate in H. lia. Qed.

(** A staging name is neither of the session's two names. *)
Lemma candidate_differs id name nonce :
  name = history_name id ∨ name = metadata_name_of id →
  candidate name nonce ≠ history_name id ∧ candidate name nonce ≠ metadata_name_of id.
Proof.
  intros Hn. split; intros H%(f_equal length); rewrite length_candidate in H;
    destruct Hn as [-> | ->]; unfold history_name, metadata_name_of in H; rewrite !length_app in H; cbn in H; lia.
Qed.

Lemma safe_lowercase id : is_safe id = true → map to_ascii_lowercase id = id.
Proof.
  unfold is_safe. rewrite !andb_true_iff. intros ((((((_&_)&_)&_)&Hu)&_)&_).
  rewrite forallb_forall in Hu. rewrite <- (List.map_id id) at 2. apply map_ext_in. intros c Hc.
  specialize (Hu c Hc). unfold to_ascii_lowercase. by destruct (in_range 65 90 c).
Qed.

(** ** Replacing a file *)

Lemma staging_name_spec fs name more drawn s :
  staging_name fs name more drawn = Some s → fs !! s = None ∧ ∃ nonce, s = candidate name nonce.
Proof.
  revert more. induction drawn as [|[nonce|] drawn IH]; intros more; cbn; [done| |done].
  case_bool_decide as Hx; [destruct more as [|more]; [done|apply IH]|].
  intros [= <-]. split; [by apply eq_None_not_Some|by exists nonce].
Qed.

(** [fs'] is [fs] but for [name], which may hold [contents], and for a staging
    file. *)
Definition replacing (fs fs' : Files) (name : str) (contents : list byte) : Prop :=
  (fs' !! name = fs !! name ∨ fs' !! name = Some contents)
  ∧ ∀ k, k ≠ name → (∀ nonce, k ≠ candidate name nonce) ∨ is_Some (fs !! k) → fs' !! k = fs !! k.

Lemma replacing_refl fs name contents : replacing fs fs name contents.
Proof. split; [by left|done]. Qed.

(** Along the way the name holds what it held or all of the new contents, and
    nothing else that matters changes; a success leaves the new contents. *)
Lemma replace_durably_spec env fs name contents :
  (∀ fs', fs' ∈ (replace_durably env fs name contents).1 → replacing fs fs' name contents)
  ∧ ((replace_durably env fs name contents).2 = true →
     files_after fs (replace_durably env fs name contents) !! name = Some contents).
Proof.
  unfold replace_durably. destruct (staging_name _ _ _ _) as [s|] eqn:Hs; [|split; cbn; [by intros ? ?%not_elem_of_nil|done]].
  apply staging_name_spec in Hs as (Hs & nonce & ->).
  assert (∀ k, k ≠ name → (∀ nonce, k ≠ candidate name nonce) ∨ is_Some (fs !! k) → k ≠ candidate name nonce) as Hk.
  { intros k _ [Hk|[x Hx]] ->; [by eapply Hk|]. congruence. }
  assert (∀ x, replacing fs (<[candidate name nonce := x]> fs) name contents) as Hput.
  { intros x. split; [left; rewrite lookup_insert_ne; [done|apply candidate_not_name]|].
    intros k H1 H2. rewrite lookup_insert_ne; [done|]. by apply not_eq_sym, Hk. }
  assert (∀ x, replacing fs (delete (candidate name nonce) (<[candidate name nonce := x]> fs)) name contents) as Hdel.
  { intros x. rewrite delete_insert_id by done. apply replacing_refl. }
  destruct (create_ok env); [|split; cbn; [by intros ? ?%not_elem_of_nil|done]].
  destruct (staged env) as [n|]; [|destruct (rename_ok env)].
  - split; [|done]. cbn. intros fs' Hin. destruct (unlink_ok env); set_solver.
  - split.
    + cbn [fst]. intros fs' [->|[->|[->|[]%not_elem_of_nil]%elem_of_cons]%elem_of_cons]%elem_of_cons; [done..|].
      rewrite delete_insert_id by done. split; [right; apply lookup_insert_eq|].
      intros k H1 H2. by rewrite lookup_insert_ne.
    + intros _. apply lookup_insert_eq.
  - split; [|done]. cbn. intros fs' Hin. destruct (unlink_ok env); set_solver.
Qed.

Lemma files_after_replacing env fs name contents :
  replacing fs (files_after fs (replace_durably env fs name contents)) name contents.
Proof.
  unfold files_after. destruct (last _) as [fs'|] eqn:Hl; [|apply replacing_refl].
  eapply replace_durably_spec. by apply last_Some_elem_of in Hl.
Qed.

Lemma replace_durably_ok env fs name contents :
  (replace_durably env fs name contents).2 = true →
  files_after fs (replace_durably env fs name contents) !! name = Some contents.
Proof. apply replace_durably_spec. Qed.

(** ** The text of a history *)

Lemma not_elem_of_utf8 c s : valid_str s → 0 ≤ c < 128 → c ∉ s → c ∉ utf8 s.
Proof.
  intros Hs Hc. induction Hs as [|d s Hd Hs IH]; [by intros _ ?%not_elem_of_nil|].
  intros [Hne Hn]%not_elem_of_cons. rewrite utf8_cons. intros [Hin|Hin]%elem_of_app; [|by apply IH].
  destruct (encode_utf8_cases d Hd)
    as [(?&He&?)|[(?&a&b&He&?&?&?)|[(?&a&b&e&He&?&?&?&?)|(?&a&b&e&f&He&?&?&?&?&?)]]];
    rewrite He in Hin; rewrite !elem_of_cons in Hin; pose proof (not_elem_of_nil c); intuition lia.
Qed.

Lemma last_removed {A} (l : list A) x y : x ∉ l → last l = Some y → y ≠ x.
Proof. intros Hx Hl ->. by apply Hx, last_Some_elem_of. Qed.

Section text.
Context {E : Type} `{!Json E, !JsonLaws E}.
Abbreviation Entry := (SeqAgentEvent E).

Lemma render_app (l k : list Entry) : render (l ++ k) = render l ++ render k.
Proof. unfold render. by rewrite map_app, join_app. Qed.

Lemma render_utf8 (l : list Entry) :
  exact l →
  ∃ s, valid_str s ∧ render l = utf8 s ∧ omap entry_from_json (filter (λ l, l ≠ []) (map trim (lines s))) = l.
Proof using All.
  induction 1 as [|e l He _ (s & Hs & Hr & Hl)]; [by exists []; split_and!; [constructor|..]|].
  exists (entry_to_json e ++ 10 :: s). destruct (json_braces e) as [body Hb]. split_and!.
  - apply Forall_app. split; [apply json_valid|]. constructor; [left; lia|done].
  - change (render (e :: l)) with (line_bytes e ++ render l). unfold line_bytes.
    rewrite Hr, utf8_app, <- app_assoc. by rewrite utf8_cons.
  - rewrite lines_cons; [|apply json_line|rewrite Hb, last_cons, last_snoc; congruence].
    assert (trim (entry_to_json e) = entry_to_json e) as Ht.
    { rewrite Hb. unfold trim, trim_start, trim_end. cbn [drop_while is_whitespace]. cbn -[drop_while_end app].
      apply (drop_while_end_id _ _ 125); [|done]. by rewrite last_cons, last_snoc. }
    cbn [map]. rewrite Ht, filter_cons_True by (by rewrite Hb). destruct e as [n ev]. cbn in He |- *. by rewrite (He n), Hl.
Qed.

(** What is written is read back. *)
Lemma parse_render (l : list Entry) : exact l → parse_history (render l) = l.
Proof using All.
  intros Hx. destruct (render_utf8 l Hx) as (s & Hs & -> & Hl). unfold parse_history. by rewrite from_utf8_utf8.
Qed.

Lemma render_ends (l : list Entry) : ends_line (render l).
Proof.
  destruct l as [|e l _] using rev_ind; [by left|right]. rewrite render_app. unfold render at 2. cbn.
  unfold line_bytes. rewrite app_nil_r, app_assoc. by rewrite last_snoc.
Qed.

(** A line cut short has no line feed. *)
Lemma append_bytes_torn env (e : Entry) n : written env = Some n → 10 ∉ append_bytes env e.
Proof using All.
  intros Hw. unfold append_bytes. rewrite Hw. unfold line_bytes. rewrite length_app. cbn [length].
  replace (n `min` (length (utf8 (entry_to_json e)) + 1 - 1))%nat
    with (n `min` length (utf8 (entry_to_json e)))%nat by lia.
  rewrite take_app_le by lia. intros Hin%elem_of_take. destruct Hin as (i & Hin & _).
  apply list_elem_of_lookup_2 in Hin. revert Hin. apply not_elem_of_utf8; [apply json_valid|lia|apply json_line].
Qed.

Lemma append_bytes_whole env (l : list Entry) e :
  written env = None → render l ++ append_bytes env e = render (l ++ [e]).
Proof. intros Hw. rewrite render_app. unfold append_bytes. rewrite Hw. cbn. by rewrite app_nil_r. Qed.

Lemma torn_ends (l torn : list byte) : 10 ∉ torn → ends_line (l ++ torn) → torn = [].
Proof.
  intros Ht. destruct torn as [|x torn _] using rev_ind; [done|]. intros [He|He].
  - apply app_eq_nil in He as [_ He]. by destruct torn.
  - rewrite app_assoc, last_snoc in He. injection He as ->. exfalso. apply Ht. set_solver.
Qed.
End text.

(** ** Positions *)

Section dense.
Context {E : Type}.
Abbreviation Entry := (SeqAgentEvent E).

(** Each entry's sequence number is its position. *)
Definition dense (l : list Entry) : Prop := ∀ i e, l !! i = Some e → seq e = i.

Lemma needs_seq_migration_false (l : list Entry) : needs_seq_migration l = false → dense l.
Proof.
  unfold needs_seq_migration. intros H i e He.
  destruct (decide (seq e = i)) as [|Hne]; [done|]. exfalso.
  assert (existsb (λ p, negb (seq p.2 =? p.1)%nat) (imap pair l) = true) as Ht; [|congruence].
  apply existsb_exists. exists (i, e). split; [|by rewrite (proj2 (Nat.eqb_neq _ _))].
  apply list_elem_of_In, list_elem_of_lookup. exists i. rewrite list_lookup_imap, He. done.
Qed.

Lemma renumber_dense (l : list Entry) : dense (renumber l).
Proof. intros i e. unfold renumber. rewrite list_lookup_imap, fmap_Some. by intros (e' & _ & ->). Qed.

Lemma renumber_events (l : list Entry) : event <$> renumber l = event <$> l.
Proof.
  apply list_eq. intros i. unfold renumber. rewrite !list_lookup_fmap, list_lookup_imap. by destruct (l !! i).
Qed.

Lemma dense_snoc (l : list Entry) ev : dense l → dense (l ++ [mkEntry (length l) ev]).
Proof.
  intros Hl i e. rewrite lookup_app. destruct (l !! i) as [e'|] eqn:He; [intros [= <-]; by apply Hl|].
  apply lookup_ge_None in He. rewrite list_lookup_singleton_Some. intros [? <-]. cbn. lia.
Qed.
End dense.

(** ** The invariant *)

Section invariant.
Context {E : Type} `{!Json E, !JsonLaws E} (sid : str).
Abbreviation Entry := (SeqAgentEvent E).

(** The file is the text of some entries, whose events are the first of the
    journal's, and a line cut short. *)
Definition on_disk (j : AgentJournal) (fs : Files) : Prop :=
  ∃ (es : list Entry) torn, default [] (fs !! history_name sid) = render es ++ torn ∧ 10 ∉ torn ∧ exact es
    ∧ (dir j = true → event <$> es `prefix_of` event <$> events j).

Definition budget_ok (b : RetryBudget) (t : Z) : Prop := ∀ t', next_attempt_at b = Some t' → t' ≤ t + RETRY_MAX.

Record journal_inv (j : AgentJournal) (fs : Files) (t : Z) : Prop := mkJournalInv {
  ji_dense : dense (events j);
  ji_names : dir j = true → file_name j = history_name sid ∧ metadata_name j = metadata_name_of sid;
  ji_degraded : degraded j = negb (file j);
  ji_file : file j = true → dir j = true ∧ repair_needed j = false
            ∧ fs !! history_name sid = Some (render (events j));
  ji_repair : repair_needed j = true → dir j = true;
  ji_disk : on_disk j fs;
  ji_id : dir j = true → pending_provider_session_id j = None →
          fs !! metadata_name_of sid ≫= parse_metadata = provider_session_id j;
  ji_pending : ∀ id, pending_provider_session_id j = Some id → valid_str id;
  ji_budget : budget_ok (repair_retry j) t ∧ budget_ok (metadata_retry j) t;
  ji_exact : exact (events j)
}.

Lemma exact_snoc (l : list Entry) n ev : exact l → reads_back ev → exact (l ++ [mkEntry n ev]).
Proof. intros Hl He. apply Forall_app. split; [done|]. by apply Forall_singleton. Qed.

Lemma exact_renumber (l : list Entry) : exact l → exact (renumber l).
Proof.
  intros Hl. apply (Forall_fmap event (reads_back (E:=E))). rewrite renumber_events. by apply (Forall_fmap event (reads_back (E:=E))).
Qed.

Lemma budget_new t : budget_ok new_budget t.
Proof. done. Qed.
Lemma budget_failure b t : budget_ok (record_failure b t) t.
Proof. intros t'. cbn. intros [= <-]. lia. Qed.
Lemma budget_later b t t' : t ≤ t' → budget_ok b t → budget_ok b t'.
Proof. intros Ht Hb t0 H0. specialize (Hb t0 H0). lia. Qed.

Lemma replacing_history fs fs' c : replacing fs fs' (history_name sid) c → fs' !! metadata_name_of sid = fs !! metadata_name_of sid.
Proof. intros [_ H]. apply H; [apply not_eq_sym, names_differ|]. left. intros n. by apply not_eq_sym, candidate_differs; left. Qed.
Lemma replacing_metadata fs fs' c : replacing fs fs' (metadata_name_of sid) c → fs' !! history_name sid = fs !! history_name sid.
Proof. intros [_ H]. apply H; [apply names_differ|]. left. intros n. by apply not_eq_sym, candidate_differs; right. Qed.

(** A change of the directory that leaves the history and the metadata. *)
Lemma on_disk_same j j' fs fs' :
  on_disk j fs → dir j' = dir j → event <$> events j `prefix_of` event <$> events j' →
  fs' !! history_name sid = fs !! history_name sid → on_disk j' fs'.
Proof.
  intros (es & torn & Hc & Ht & Hx & Hp) Hd He Hf. exists es, torn. rewrite Hf, Hd.
  split_and!; [done..|]. intros Hdir. etrans; [by apply Hp|done].
Qed.

Lemma inv_push j fs t e :
  journal_inv j fs t → file j = false → seq e = length (events j) → reads_back (event e) → journal_inv (push_entry j e) fs t.
Proof.
  intros [H1 H2 H3 H4 H5 H6 H7 H8 H9 H10] Hf He Hx. constructor; cbn; try done; [..|destruct e; by apply exact_snoc].
  - destruct e as [n ev]. cbn in He. subst n. by apply dense_snoc.
  - intros Ht. by rewrite Hf in Ht.
  - eapply on_disk_same; [done..| |done]. cbn. rewrite fmap_app. by eexists.
Qed.

Lemma parse_metadata_json id : valid_str id → parse_metadata (utf8 (meta_to_json id)) = Some id.
Proof.
  intros Hv. unfold parse_metadata. rewrite from_utf8_utf8 by (by apply json_meta_valid). cbn.
  by rewrite json_meta.
Qed.

(** Publishing an id. *)
Lemma inv_publish j fs t env id b :
  journal_inv j fs t → valid_str id → budget_ok b t →
  let '(fs1, ok) := publish_provider_session_id j env fs id in
  journal_inv (if ok then id_published j id else id_refused j id b t) fs1 t.
Proof.
  intros [H1 H2 H3 H4 H5 H6 H7 H8 [H9 H10] Hx] Hv Hb. unfold publish_provider_session_id.
  destruct (dir j) eqn:Hd.
  - destruct (H2 eq_refl) as [Hn Hm]. rewrite Hm.
    set (r := replace_durably _ _ _ _). pose proof (files_after_replacing env fs (metadata_name_of sid) (utf8 (meta_to_json id))) as Hr.
    pose proof (replacing_metadata _ _ _ Hr) as Hh. fold r in Hr, Hh.
    assert (on_disk j (files_after fs r)) as Hdisk by (by eapply on_disk_same).
    destruct r.2 eqn:Hok; constructor; cbn; rewrite ?Hd; try done.
    all: try (intros Hf; rewrite Hh; by apply H4).
    + intros _ _. unfold r in Hok |- *. rewrite replace_durably_ok by done. cbn. by apply parse_metadata_json.
    + intros id' [= <-]. done.
    + split; [done|apply budget_failure].
  - constructor; cbn; rewrite ?Hd; try done.
    + intros id' [= <-]. done.
    + split; [done|apply budget_failure].
Qed.

Lemma inv_set_id j fs t env id :
  journal_inv j fs t → valid_str id →
  let '(j1, fs1) := set_provider_session_id j env t id fs in journal_inv j1 fs1 t.
Proof using All.
  intros Hi Hv. unfold set_provider_session_id. case_bool_decide; [done|].
  destruct (_ && negb _); [done|]. set (b := if bool_decide _ then _ else _).
  assert (budget_ok b t) as Hb by (unfold b; case_bool_decide; [apply Hi|done]).
  pose proof (inv_publish j fs t env id b Hi Hv Hb) as Hpub.
  by destruct (publish_provider_session_id j env fs id) as [fs1 ok].
Qed.

Lemma inv_retry_metadata j fs t env :
  journal_inv j fs t → now env = t →
  journal_inv (retry_metadata j env fs).1 (retry_metadata j env fs).2 t.
Proof using All.
  intros Hi <-. unfold retry_metadata. destruct (pending_provider_session_id j) as [id|] eqn:Hp; [|done].
  pose proof (inv_publish j fs (now env) (metadata_env env) id (metadata_retry j) Hi
                (ji_pending _ _ _ Hi _ Hp) (proj2 (ji_budget _ _ _ Hi))) as Hpub.
  by destruct (publish_provider_session_id j (metadata_env env) fs id) as [fs1 ok].
Qed.

(** Writing all of the events keeps the history a prefix. *)
Lemma on_disk_rewritten j fs fs' es :
  on_disk j fs → replacing fs fs' (history_name sid) (render es) →
  event <$> es `prefix_of` event <$> events j → exact es → on_disk j fs'.
Proof.
  intros Hd [[Hf|Hf] _] He Hx; [by eapply on_disk_same|].
  exists es, []. rewrite Hf, app_nil_r. split_and!; [done|apply not_elem_of_nil|done|done].
Qed.

Lemma open_append_lookup fs name k : k ≠ name → open_append fs name !! k = fs !! k.
Proof. intros Hk. unfold open_append. destruct (fs !! name); [done|]. by rewrite lookup_insert_ne. Qed.

Lemma open_append_content fs name : open_append fs name !! name = Some (default [] (fs !! name)).
Proof. unfold open_append. destruct (fs !! name) eqn:Hf; [by rewrite Hf|]. by rewrite lookup_insert_eq. Qed.

Lemma inv_retry_repair j fs t env :
  journal_inv j fs t → now env = t → repair_needed j = true →
  journal_inv (retry_repair j env fs).1 (retry_repair j env fs).2 t.
Proof using All.
  intros [H1 H2 H3 H4 H5 H6 H7 H8 [H9 H10] Hx] <- Hn. pose proof (H5 Hn) as Hd.
  destruct (H2 Hd) as [Hname Hmeta]. unfold retry_repair. rewrite Hd, Hname.
  assert (file j = false) as Hf by (destruct (file j); [|done]; destruct (H4 eq_refl) as (_ & ? & _); congruence).
  unfold rewrite_atomically. set (r := replace_durably _ _ _ _).
  pose proof (files_after_replacing (history_env env) fs (history_name sid) (render (events j))) as Hr. fold r in Hr.
  pose proof (replacing_history _ _ _ Hr) as Hm.
  assert (on_disk j (files_after fs r)) as Hdisk by (by eapply on_disk_rewritten).
  destruct (r.2 && reopened env) eqn:Hok.
  - apply andb_prop in Hok as [Hok _].
    assert (open_append (files_after fs r) (history_name sid) !! history_name sid = Some (render (events j))) as Hc.
    { rewrite open_append_content. unfold r in Hok |- *. by rewrite replace_durably_ok. }
    constructor; cbn; try done.
    + exists (events j), []. rewrite Hc, app_nil_r. split_and!; [done|apply not_elem_of_nil|done|done].
    + intros _ Hp. rewrite open_append_lookup by (apply not_eq_sym, names_differ). rewrite Hm. by apply H7.
  - constructor; cbn; try done.
    + by rewrite Hf.
    + intros _ Hp. rewrite Hm. by apply H7.
    + split; [apply budget_failure|done].
Qed.

Lemma retry_metadata_repair j env fs : repair_needed (retry_metadata j env fs).1 = repair_needed j.
Proof.
  unfold retry_metadata. destruct (pending_provider_session_id j); [|done].
  destruct (publish_provider_session_id _ _ _ _) as [? []]; done.
Qed.

Lemma inv_before_append j fs t env :
  journal_inv j fs t → now env = t →
  journal_inv (before_append j env fs).1 (before_append j env fs).2 t.
Proof using All.
  intros Hi Ht. unfold before_append, retry_pending_durable_work. destruct (repair_needed j) eqn:Hn; cbn.
  - pose proof (inv_retry_metadata _ _ _ _ Hi Ht) as Hm.
    pose proof (retry_metadata_repair j env fs) as Hr. rewrite Hn in Hr.
    destruct (due (repair_retry j) (now env)), (_ && due (metadata_retry j) (now env)); cbn; try done.
    + destruct (retry_metadata j env fs) as [j1 fs1]. by apply inv_retry_repair.
    + by apply inv_retry_repair.
    + by destruct (retry_metadata j env fs).
  - pose proof (inv_retry_metadata _ _ _ _ Hi Ht) as Hm.
    destruct (_ && due (metadata_retry j) (now env)); cbn; [|done]. by destruct (retry_metadata j env fs).
Qed.

Lemma inv_append j fs t env ev :
  journal_inv j fs t → now env = t → reads_back ev →
  journal_inv (append j env ev fs).1.1 (append j env ev fs).1.2 t.
Proof using All.
  intros Hi Ht Hev. pose proof (inv_before_append _ _ _ _ Hi Ht) as Hb. unfold append.
  destruct (before_append j env fs) as [j1 fs1]. cbn [fst snd] in Hb. clear Hi.
  destruct (file j1) eqn:Hf; [|by apply inv_push].
  destruct Hb as [H1 H2 H3 H4 H5 H6 H7 H8 [H9 H10] Hx]. destruct (H4 Hf) as (Hd & Hn & Hc).
  destruct (H2 Hd) as [Hname Hmeta]. cbn [fst snd]. rewrite Hname, Hc. cbn [default].
  set (e := mkEntry _ _).
  assert (<[history_name sid := render (events j1) ++ append_bytes env e]> fs1 !! metadata_name_of sid
          = fs1 !! metadata_name_of sid) as Hm by (by rewrite lookup_insert_ne by apply names_differ).
  assert (dense (events j1 ++ [e])) as Hdense by (by apply dense_snoc).
  assert (exact (events j1 ++ [e])) as Hxe by (by apply exact_snoc).
  destruct (written env) as [n|] eqn:Hw; constructor; cbn; rewrite ?Hm, ?Hf; try done.
  - exists (events j1), (append_bytes env e). rewrite lookup_insert_eq. split_and!; [done| |done|].
    + by eapply append_bytes_torn.
    + intros _. cbn [events push_entry write_refused]. rewrite fmap_app. by eexists.
  - split; [rewrite Ht; apply budget_failure|done].
  - rewrite H3. by rewrite Hf.
  - intros _. rewrite lookup_insert_eq. split_and!; [done..|]. f_equal. by apply append_bytes_whole.
  - exists (events j1 ++ [e]), []. rewrite lookup_insert_eq, app_nil_r.
    split_and!; [by apply append_bytes_whole|apply not_elem_of_nil|done|done].
Qed.

Lemma inv_memory_only j fs t : on_disk j fs → journal_inv memory_only fs t.
Proof.
  intros (es & torn & Hc & Ht & Hx & _). constructor; cbn; try done; [by exists es, torn|by constructor].
Qed.

Lemma inv_open j fs t env :
  journal_inv j fs t → ends_line (default [] (fs !! history_name sid)) →
  history_read env = true → metadata_read env = true →
  journal_inv (open sid env fs).1 (open sid env fs).2 t.
Proof using All.
  intros Hi He Hr Hmr. pose proof (ji_disk _ _ _ Hi) as Hdisk.
  pose proof (inv_memory_only j fs t Hdisk) as Hmem. unfold open. rewrite Hr, Hmr.
  destruct (is_safe sid); [|done]. destruct (dir_opened env); [|done]. cbn [negb].
  destruct Hdisk as (es & torn & Hc & Ht & Hx & _). rewrite Hc in He.
  apply torn_ends in He as ->; [|done]. rewrite app_nil_r in Hc.
  assert (from_option parse_history [] (fs !! history_name sid) = es) as ->.
  { destruct (fs !! history_name sid); cbn in *; [subst; by apply parse_render|].
    rewrite <- (parse_render es Hx), <- Hc. done. }
  set (r := if needs_seq_migration es then _ else _).
  set (es' := if needs_seq_migration es then renumber es else es).
  assert (event <$> es' = event <$> es) as Hev by (unfold es'; destruct (needs_seq_migration es); [apply renumber_events|done]).
  assert (exact es') as Hx' by (unfold es'; destruct (needs_seq_migration es); [by apply exact_renumber|done]).
  assert (dense es') as Hdense.
  { unfold es'. destruct (needs_seq_migration es) eqn:Hn; [apply renumber_dense|by apply needs_seq_migration_false]. }
  assert (replacing fs (files_after fs r) (history_name sid) (render es')) as Hrep.
  { unfold r, es'. destruct (needs_seq_migration es); [apply files_after_replacing|apply replacing_refl]. }
  assert (r.2 = true → default [] (files_after fs r !! history_name sid) = render es') as Hok.
  { unfold r, es'. destruct (needs_seq_migration es); [|done]. intros ?. unfold rewrite_atomically in *. by rewrite replace_durably_ok. }
  assert (∃ es0, default [] (files_after fs r !! history_name sid) = render es0 ∧ event <$> es0 = event <$> es' ∧ exact es0) as (es0 & Hc0 & He0 & Hx0).
  { destruct Hrep as [[-> | ->] _]; [by exists es; rewrite Hev|by exists es']. }
  pose proof (replacing_history _ _ _ Hrep) as Hm. clearbody r es'. cbn [fst snd].
  destruct (negb (negb r.2) && append_opened env) eqn:Ho; cbn.
  - apply andb_prop in Ho as [Ho _]. rewrite negb_involutive in Ho. specialize (Hok Ho). rewrite Ho.
    constructor; cbn; try done.
    + intros _. rewrite open_append_content, Hok. done.
    + exists es', []. rewrite open_append_content, Hok, app_nil_r. split_and!; [done|apply not_elem_of_nil|done|done].
    + intros _ _. rewrite open_append_lookup by (apply not_eq_sym, names_differ). by rewrite Hm.
  - constructor; cbn; try done.
    + exists es0, []. rewrite Hc0, app_nil_r, He0. split_and!; [done|apply not_elem_of_nil|done|done].
    + intros _ _. by rewrite Hm.
Qed.
End invariant.

(** The system calls of a replacement succeed, and its first staging name is
    free. *)
Definition answers (env : ReplaceEnv) (fs : Files) (name : str) : Prop :=
  create_ok env = true ∧ staged env = None ∧ rename_ok env = true ∧ sync_ok env = true
  ∧ ∃ nonce rest, nonces env = Some nonce :: rest ∧ fs !! candidate name nonce = None.

Lemma answers_ok env fs name contents : answers env fs name → (replace_durably env fs name contents).2 = true.
Proof.
  intros (Hc & Hs & Hr & Hy & nonce & rest & Hn & Hf). unfold replace_durably. rewrite Hn. cbn [staging_name].
  rewrite bool_decide_false by (rewrite Hf; by intros [? ?]). by rewrite Hc, Hs, Hr.
Qed.

(** Replacing the metadata takes no staging name of the history. *)
Lemma answers_replacing env fs fs' sid c :
  answers env fs (history_name sid) → replacing fs fs' (metadata_name_of sid) c → answers env fs' (history_name sid).
Proof.
  intros (Hc & Hs & Hr & Hy & nonce & rest & Hn & Hf) [_ H]. unfold answers. split_and!; [done..|].
  exists nonce, rest. split; [done|]. rewrite H; [done| |left].
  - apply (candidate_differs sid); by left.
  - intros n Heq%(f_equal length). rewrite !length_candidate in Heq.
    unfold history_name, metadata_name_of in Heq. rewrite !length_app in Heq. cbn in Heq. lia.
Qed.

(** ** What the journal promises *)

(** A host on which no journal has been opened yet. *)
Definition initial_host {E : Type} (fs : Files) (t : Z) : Host (E:=E) := mkHost memory_only fs t.

Section promises.
Context {E : Type} `{!Json E, !JsonLaws E} (sid : str).
Abbreviation Entry := (SeqAgentEvent E).

Definition host_inv (y : Host) : Prop := journal_inv (E:=E) sid (journal y) (files y) (clock y).

Lemma host_inv_step y y' : host_inv y → sound_step sid y y' → host_inv y'.
Proof using All.
  intros Hi (a & Ha & Hs). unfold host_inv in *. destruct a as [ev env|id env|t|env]; cbn in Hs.
  - pose proof (inv_append sid _ _ _ (at_clock y env) ev Hi eq_refl Ha) as H0.
    destruct (append _ _ _ _) as [[j fs] e]. by injection Hs as <-.
  - case_bool_decide; [|done]. pose proof (inv_set_id sid _ _ _ env id Hi ltac:(done)) as H0.
    destruct (set_provider_session_id _ _ _ _ _) as [j fs]. by injection Hs as <-.
  - destruct (Z.leb_spec (clock y) t); [|done]. injection Hs as <-.
    destruct Hi as [H1 H2 H3 H4 H5 H6 H7 H8 [H9 H10] Hx]. constructor; cbn; try done.
    split; by eapply budget_later.
  - destruct Ha as (He & Hr & Hm). pose proof (inv_open sid _ _ _ env Hi He Hr Hm) as H0.
    destruct (open _ _ _) as [j fs]. by injection Hs as <-.
Qed.

Lemma host_inv_initial fs t (es : list Entry) :
  default [] (fs !! history_name sid) = render es → exact es → host_inv (initial_host fs t).
Proof.
  intros Hc Hx. apply (inv_memory_only _ memory_only). exists es, []. cbn [initial_host files]. rewrite Hc, app_nil_r.
  split_and!; [done|apply not_elem_of_nil|done|done].
Qed.

Lemma host_inv_reachable fs t (es : list Entry) y :
  default [] (fs !! history_name sid) = render es → exact es →
  reachable (sound_step sid) (initial_host fs t) y → host_inv y.
Proof using All.
  intros Hc Hx0. apply reachable_invariant; [by eapply host_inv_initial|apply host_inv_step].
Qed.

(** C5: what a journal that is not degraded holds is on disk, entry for entry
    and numbered by position, so reading the file gives it back; and whatever
    has failed, a file of whole lines holds the first events of the journal.
    This holds through failed writes, repairs, legacy files with duplicate
    numbers and restarts, provided a restart does not find a line cut short and can
    read the files ([sound]), and the events are ones [serde_json] reads back as they
    were written ([reads_back]). *)
Theorem journal_is_on_disk fs t (es : list Entry) y :
  default [] (fs !! history_name sid) = render es → exact es →
  reachable (sound_step sid) (initial_host fs t) y →
  (degraded (journal y) = false →
   parse_history (content sid y) = events (journal y) ∧ seq <$> events (journal y) = List.seq 0 (next_seq (journal y)))
  ∧ (dir (journal y) = true → ends_line (content sid y) →
     event <$> parse_history (content sid y) `prefix_of` event <$> events (journal y)).
Proof using All.
  intros Hc Hx0 Hi%(host_inv_reachable _ _ _ _ Hc Hx0). destruct Hi as [H1 H2 H3 H4 H5 (es' & torn & Hes & Ht & Hx & Hp) H7 H8 H9 H10].
  unfold content. split.
  - intros Hd. rewrite H3 in Hd. apply negb_false_iff in Hd. destruct (H4 Hd) as (_ & _ & ->). cbn [default].
    split; [by apply parse_render|]. unfold next_seq. apply list_eq. intros i.
    rewrite list_lookup_fmap. destruct (events (journal y) !! i) as [e|] eqn:He; cbn.
    + rewrite (H1 _ _ He). apply lookup_lt_Some in He. symmetry. by apply lookup_seq_lt.
    + apply lookup_ge_None in He. symmetry. by apply lookup_seq_ge.
  - intros Hd He. rewrite Hes in *. apply torn_ends in He as ->; [|done].
    rewrite app_nil_r, parse_render by done. by apply Hp.
Qed.

(** A crash during a rewrite leaves the old history or all of the new one:
    in every directory the rewrite passes through, whatever its system calls
    answer, the file parses to what it held or to the entries written, and no
    other file of the session is touched. *)
Theorem rewrite_is_never_half_done env fs (es : list Entry) fs' :
  exact es → fs' ∈ (rewrite_atomically env fs (history_name sid) es).1 →
  (fs' !! history_name sid = fs !! history_name sid
   ∨ parse_history (default [] (fs' !! history_name sid)) = es)
  ∧ fs' !! metadata_name_of sid = fs !! metadata_name_of sid.
Proof using All.
  intros Hx Hin. apply replace_durably_spec in Hin. split; [|by eapply replacing_history].
  destruct Hin as [[H|H] _]; [by left|right]. rewrite H. by apply parse_render.
Qed.

(** A restart of a journal that is not degraded gives the same entries. *)
Theorem restart_keeps_history fs t (es : list Entry) y env y' :
  default [] (fs !! history_name sid) = render es → exact es →
  reachable (sound_step sid) (initial_host fs t) y → degraded (journal y) = false →
  is_safe sid = true → dir_opened env = true → history_read env = true → append_opened env = true →
  next_host sid y (AReopen env) = Some y' →
  events (journal y') = events (journal y) ∧ degraded (journal y') = false ∧ files y' = files y.
Proof using All.
  intros Hc Hx0 Hi%(host_inv_reachable _ _ _ _ Hc Hx0) Hd Hs Hdir Hr Ha. cbn. unfold open. rewrite Hs, Hdir, Hr, Ha. cbn [negb].
  destruct Hi as [H1 H2 H3 H4 H5 H6 H7 H8 H9 H10]. rewrite H3 in Hd. apply negb_false_iff in Hd.
  destruct (H4 Hd) as (_ & _ & Hf). rewrite Hf. cbn [from_option]. rewrite parse_render by done.
  assert (needs_seq_migration (events (journal y)) = false) as ->.
  { apply not_true_iff_false. unfold needs_seq_migration. rewrite existsb_exists. intros ([i e] & Hin & Hne).
    apply list_elem_of_In, list_elem_of_lookup in Hin as [k Hk]. rewrite list_lookup_imap in Hk.
    destruct (events (journal y) !! k) as [e'|] eqn:He; [|done]. cbn in Hk. injection Hk as <- <-.
    cbn in Hne. by rewrite (H1 _ _ He), Nat.eqb_refl in Hne. }
  cbn. intros [= <-]. cbn. split_and!; try done. unfold open_append. by rewrite Hf.
Qed.

(** The id resumed after a restart.  While no id waits to be published, the
    metadata file names the id the journal has. *)
Theorem settled_id_is_on_disk fs t (es : list Entry) y :
  default [] (fs !! history_name sid) = render es → exact es →
  reachable (sound_step sid) (initial_host fs t) y →
  dir (journal y) = true → pending_provider_session_id (journal y) = None →
  files y !! metadata_name_of sid ≫= parse_metadata = provider_session_id (journal y).
Proof using All. intros Hc Hx0 Hi%(host_inv_reachable _ _ _ _ Hc Hx0). apply Hi. Qed.

(** A journal that waits for repair is repaired by the first event appended
    half a minute after: the directory then lets its whole history, with the
    new event, be written. *)
Theorem repair_is_not_put_off fs t (es : list Entry) y later ev env j fs' e :
  default [] (fs !! history_name sid) = render es → exact es →
  reachable (sound_step sid) (initial_host fs t) y →
  repair_needed (journal y) = true → clock y + RETRY_MAX ≤ later →
  answers (history_env env) (files y) (history_name sid) → reopened env = true → written env = None → now env = later → reads_back ev →
  append (journal y) env ev (files y) = (j, fs', e) →
  degraded j = false ∧ events j = events (journal y) ++ [e]
  ∧ parse_history (default [] (fs' !! history_name sid)) = events j.
Proof using All.
  intros Hc Hx0 Hi%(host_inv_reachable _ _ _ _ Hc Hx0) Hn Hl Hrep Hre Hw Hnow Hev Happ.
  assert (journal_inv sid (journal y) (files y) later) as Hi'.
  { destruct Hi as [H1 H2 H3 H4 H5 H6 H7 H8 [H9 H10] Hx]. constructor; try done.
    split; (eapply budget_later; [|done]); unfold RETRY_MAX in Hl; lia. }
  assert (due (repair_retry (journal y)) (now env) = true) as Hdue.
  { unfold due. destruct (next_attempt_at _) as [t'|] eqn:Ht; [|done]. apply Z.leb_le. rewrite Hnow.
    pose proof (proj1 (ji_budget _ _ _ _ Hi) _ Ht). lia. }
  pose proof (inv_append sid _ _ _ env ev Hi' Hnow Hev) as Ha. rewrite Happ in Ha. cbn [fst snd] in Ha.
  assert (file j = true ∧ events j = events (journal y) ++ [e]) as [Hf He].
  { revert Happ. unfold append, before_append, retry_pending_durable_work. rewrite Hn, Hdue. cbn [andb orb].
    set (j1 := if _ && _ then retry_metadata _ _ _ else _).
    pose proof (ji_repair _ _ _ _ Hi Hn) as Hd. destruct (ji_names _ _ _ _ Hi Hd) as [Hnm Hmm].
    assert (events j1.1 = events (journal y) ∧ dir j1.1 = dir (journal y) ∧ file_name j1.1 = file_name (journal y)
            ∧ answers (history_env env) j1.2 (history_name sid)) as (He1 & Hd1 & Hf1 & Ha1).
    { unfold j1. destruct (_ && _); [|done]. unfold retry_metadata. destruct (pending_provider_session_id _); [|done].
      unfold publish_provider_session_id. rewrite Hd, Hmm. set (r := replace_durably _ _ _ _).
      assert (answers (history_env env) (files_after (files y) r) (history_name sid)).
      { eapply answers_replacing; [done|]. apply files_after_replacing. }
      by destruct r.2. }
    destruct j1 as [j1 fs1]. cbn [fst snd] in *.
    unfold retry_repair, rewrite_atomically. rewrite Hd1, Hd, Hf1, Hnm, answers_ok by done. rewrite Hre. cbn. rewrite Hw.
    intros [= <- _ <-]. cbn. by rewrite He1. }
  destruct Ha as [H1 H2 H3 H4 H5 H6 H7 H8 H9 H10]. destruct (H4 Hf) as (_ & _ & ->).
  split_and!; [by rewrite H3, Hf|done|]. by apply parse_render.
Qed.
End promises.

(** ** Runs *)

(** Events that are numbers: an entry is its two numbers in unary, in braces, the
    second with a character of two bytes. *)
Definition number_json (e : SeqAgentEvent nat) : str :=
  123 :: replicate (seq e) 97 ++ replicate (event e) 233 ++ [125].

Definition read_number (s : str) : option (SeqAgentEvent nat) :=
  let e := mkEntry (count_occ Z.eq_dec s 97) (count_occ Z.eq_dec s 233) in
  if bool_decide (number_json e = s) then Some e else None.

#[local] Instance number_Json : Json nat := {|
  entry_to_json := number_json;
  entry_from_json := read_number;
  meta_to_json id := id;
  meta_from_json s := Some (Some s)
|}.

Lemma count_occ_replicate (x y : Z) n :
  count_occ Z.eq_dec (replicate n y) x = if bool_decide (x = y) then n else 0%nat.
Proof. induction n as [|n IH]; cbn; [by case_bool_decide|]. rewrite IH. destruct (Z.eq_dec y x); case_bool_decide; congruence. Qed.

Lemma numbers_read_back (ev : nat) : reads_back ev.
Proof.
  intros m. set (e := mkEntry m ev). cbn. unfold read_number.
  assert (∀ x, (x = 97 ∨ x = 233) → count_occ Z.eq_dec (number_json e) x
            = if bool_decide (x = 97) then seq e else event e) as Hc.
    { intros x Hx. unfold number_json. rewrite app_comm_cons, !count_occ_app. cbn [count_occ].
      rewrite !count_occ_replicate.
      repeat case_bool_decide; repeat (destruct (Z.eq_dec _ _)); lia. }
    rewrite !Hc by auto. cbn. by rewrite bool_decide_true.
Qed.

Lemma numbers_exact (l : list (SeqAgentEvent nat)) : exact l.
Proof. apply Forall_true. intros e. apply numbers_read_back. Qed.

#[local] Instance number_JsonLaws : JsonLaws nat.
Proof.
  constructor; cbn.
  - intros e. unfold number_json, valid_str, is_char. constructor; [lia|].
    repeat (apply Forall_app; split); [apply Forall_replicate; lia..|repeat constructor; lia].
  - intros e. unfold number_json. rewrite not_elem_of_cons, !not_elem_of_app. split_and!; [done| | |].
    + intros Hin%elem_of_replicate. lia.
    + intros Hin%elem_of_replicate. lia.
    + set_solver.
  - intros e. eexists (_ ++ _). unfold number_json. by rewrite <- app_assoc.
  - done.
  - done.
Qed.

Definition session : str := lit "s1".
Definition zeros : vec byte 12 := vreplicate 12 0.
Definition working : ReplaceEnv := mkReplaceEnv [Some zeros] true None true true true.
Definition failing : ReplaceEnv := mkReplaceEnv [Some zeros] true (Some 3%nat) true true true.
Definition opening : OpenEnv := mkOpenEnv true true true working true.
Definition write (n : option nat) : AppendEnv := mkAppendEnv 0 working working true n.

Definition run (fs : Files) (actions : list JournalAction) : Host :=
  default (initial_host fs 0) (exec (next_host session) (initial_host fs 0) actions).

(** A file in which an older daemon used a number twice. *)
Definition legacy : list (SeqAgentEvent nat) := [mkEntry 0 3; mkEntry 0 4]%nat.
Definition legacy_files : Files := {[ history_name session := render legacy ]}.

Definition legacy_opened : Host := run legacy_files [AReopen opening].
Definition legacy_torn : Host := run legacy_files [AReopen opening; AAppend 5%nat (write None); AAppend 6%nat (write (Some 2%nat))].

Lemma sound_exec fs (actions : list JournalAction) y y' :
  reachable (sound_step session) (initial_host fs 0) y →
  forallb (λ a, match a with AReopen _ => false | _ => true end) actions = true →
  exec (next_host session) y actions = Some y' →
  reachable (sound_step session) (initial_host (E:=nat) fs 0) y'.
Proof.
  revert y. induction actions as [|a actions IH]; intros y Hr Ha; [by intros [= <-]|]. cbn [exec].
  cbn in Ha. apply andb_prop in Ha as [Ha Hl]. destruct (next_host session y a) as [y1|] eqn:Hs; [|done].
  apply IH; [|done]. eapply reachable_step; [done|]. exists a. split; [destruct a; [apply numbers_read_back|done..]|done].
Qed.

Lemma legacy_opened_reachable : reachable (sound_step session) (initial_host legacy_files 0) legacy_opened.
Proof.
  eapply reachable_step; [constructor|]. exists (AReopen opening). split; [|by vm_compute].
  split; [|done]. right. by vm_compute.
Qed.

Theorem journal_is_on_disk_witness :
  parse_history (content session legacy_opened) = [mkEntry 0 3; mkEntry 1 4]%nat
  ∧ event <$> parse_history (content session legacy_opened) `prefix_of` event <$> events (journal legacy_opened).
Proof.
  edestruct (journal_is_on_disk session legacy_files 0 legacy legacy_opened) as [H1 H2];
    [vm_compute; reflexivity|apply numbers_exact|apply legacy_opened_reachable|].
  split; [|apply H2; [by vm_compute|right; by vm_compute]].
  destruct (H1 ltac:(by vm_compute)) as [-> _]. by vm_compute.
Defined.

Theorem rewrite_is_never_half_done_witness :
  parse_history (default [] (<[history_name session := render [mkEntry 0 9%nat]]> legacy_files !! history_name session)) = [mkEntry 0 9%nat].
Proof.
  destruct (rewrite_is_never_half_done session working legacy_files [mkEntry 0 9%nat]
              (<[history_name session := render [mkEntry 0 9%nat]]>
                 (delete (candidate (history_name session) zeros)
                    (<[candidate (history_name session) zeros := render [mkEntry 0 9%nat]]> legacy_files)))) as [[H|H] _].
  - apply numbers_exact.
  - right. right. left.
  - exfalso. revert H. by vm_compute.
  - etrans; [|exact H]. by vm_compute.
Defined.

Theorem restart_keeps_history_witness :
  events (journal (default legacy_opened (next_host session legacy_opened (AReopen opening)))) = [mkEntry 0 3; mkEntry 1 4]%nat.
Proof.
  edestruct (restart_keeps_history session legacy_files 0 legacy legacy_opened opening) as [He _].
  - by vm_compute.
  - apply numbers_exact.
  - apply legacy_opened_reachable.
  - by vm_compute.
  - by vm_compute.
  - done.
  - done.
  - done.
  - vm_compute. reflexivity.
  - etrans; [|etrans; [exact He|]]; by vm_compute.
Defined.

Definition identified : Host := run legacy_files [AReopen opening; ASetId (lit "A") working].

Theorem settled_id_is_on_disk_witness :
  files identified !! metadata_name_of session ≫= parse_metadata = Some (lit "A").
Proof.
  etrans; [apply (settled_id_is_on_disk session legacy_files 0 legacy identified)|by vm_compute].
  - by vm_compute.
  - apply numbers_exact.
  - eapply (sound_exec _ [ASetId (lit "A") working]); [apply legacy_opened_reachable|done|by vm_compute].
  - by vm_compute.
  - by vm_compute.
Defined.

Definition mended : AgentJournal * Files * SeqAgentEvent nat :=
  append (journal legacy_torn) (mkAppendEnv 30000 working working true None) 7%nat (files legacy_torn).

Theorem repair_is_not_put_off_witness :
  degraded mended.1.1 = false ∧ parse_history (default [] (mended.1.2 !! history_name session)) = events mended.1.1.
Proof.
  edestruct (repair_is_not_put_off session legacy_files 0 legacy legacy_torn 30000 7%nat
               (mkAppendEnv 30000 working working true None) mended.1.1 mended.1.2 mended.2) as (Hd & _ & Hp);
    [..|split; [exact Hd|exact Hp]].
  - by vm_compute.
  - apply numbers_exact.
  - eapply (sound_exec _ [AAppend 5%nat (write None); AAppend 6%nat (write (Some 2%nat))]);
      [apply legacy_opened_reachable|done|by vm_compute].
  - by vm_compute.
  - by vm_compute.
  - split_and!; [reflexivity..|]. exists zeros, []. split; [reflexivity|vm_compute; reflexivity].
  - done.
  - done.
  - done.
  - apply numbers_read_back.
  - unfold mended. by destruct (append _ _ _ _) as [[? ?] ?].
Defined.

(** ** What goes wrong *)

(** A line cut short is glued to the first one a new life appends, which is
    then lost although the journal is not degraded. *)
Definition torn_restart : Host :=
  run ∅ [AReopen opening; AAppend 1%nat (write (Some 3%nat)); AReopen opening; AAppend 2%nat (write None)].

Theorem torn_line_swallows_the_next :
  degraded (journal torn_restart) = false ∧ events (journal torn_restart) = [mkEntry 0 2]%nat
  ∧ parse_history (content session torn_restart) = [].
Proof. by vm_compute. Qed.

(** A line cut short within a character makes the whole history unreadable: the
    next life starts from nothing. *)
Definition torn_character : Host :=
  run ∅ [AReopen opening; AAppend 1%nat (write None); AAppend 2%nat (write (Some 3%nat))].

Theorem torn_character_hides_the_history :
  event <$> events (journal torn_character) = [1; 2]%nat
  ∧ events (journal (default torn_character (next_host session torn_character (AReopen opening)))) = [].
Proof. by vm_compute. Qed.

(** A history that could not be opened for appending is never opened again,
    unlike one that a write has failed on. *)
Theorem unopened_history_is_not_retried {E} `{!Json E} (j : AgentJournal (E:=E)) env ev fs :
  file j = false → repair_needed j = false →
  let j' := (append j env ev fs).1.1 in file j' = false ∧ repair_needed j' = false.
Proof.
  intros Hf Hn. unfold append, before_append, retry_pending_durable_work. rewrite Hn. cbn [andb orb].
  set (j1 := if _ && _ then _ else _).
  assert (file j1.1 = false ∧ repair_needed j1.1 = false) as [Hf1 Hn1].
  { unfold j1. destruct (_ && _); [|done]. unfold retry_metadata. destruct (pending_provider_session_id j); [|done].
    by destruct (publish_provider_session_id _ _ _ _) as [? []]. }
  destruct j1 as [j1 fs1]. cbn [fst] in *. by rewrite Hf1.
Qed.

(** An id that could not be published is published later although the old one
    has been set again since. *)
Definition stale_id : Host :=
  run ∅ [AReopen opening; ASetId (lit "A") working; ASetId (lit "B") failing; ASetId (lit "A") working;
         ATick 30000; AAppend 1%nat (write None)].

Theorem stale_id_is_published : provider_session_id (journal stale_id) = Some (lit "B").
Proof. by vm_compute. Qed.
