(* ===== verification/AgentRuntime.v ===== *)
(** * Agent sessions ([crates/daemon/src/agent_runtime], [AgentRegistry] and
    [ExitPublication] of [crates/daemon/src/agent.rs])

    The handlers of one session id and the readers of its children, interleaved
    at the registry lock.  Everything done under one lock acquisition is one
    step; what a handler still has to do is a [Task].  Ids do not interact
    but through the counter of incarnations, which other sessions also advance
    ([ADraw]), and the handoff seal.  A child is named by the incarnation it was
    spawned for.  What the adapter encodes, whether a pipe takes a write and
    whether a process can be spawned come from outside.  [AgentJournal] is the
    journal's storage; here it is the list of what was appended, each entry
    marked, for the statements, with the life that appended it.  Fan-out to
    clients, adoption and signals are not modelled. *)

From Stdlib Require Import ZifyBool.
From S2P Require Import Prelude RustStd Protocol.

(** ** The record of a session *)

Inductive TurnModel := Persistent | PerTurn.

Record AgentSessionRecord := mkRecord {
  child : option nat;
  stdin : option nat;
  incarnation : nat;
  spawning : bool;
  reservation_is_initial : bool;
  provider_session_id : bool;
  status : SessionStatus;
  session_allowed_tools : gset str;
  pending_permissions : gset str;
  exited : bool;
  interrupt_requested : bool;
  turn_model : TurnModel
}.

(** The states of an [ExitPublication]; each incarnation has its own. *)
Inductive Publication := ExitUnpublished | ExitPublishing | ExitPublished.

(** What a reader's adapter makes of a line, as far as the registry pass looks
    into it; [next] is [event_status]. *)
Inductive AgentEvent :=
  | PermissionRequest (request_id tool_name : str)
  | PermissionResolved (request_id : str)
  | OtherEvent (next : option SessionStatus).

Inductive SessionEndReason := Completed | Error | Interrupted | Crashed.

Inductive JournalEntry :=
  | UserMessage (life : nat)
  | FromProvider (life : nat) (event : AgentEvent)
  | Resolved (life : nat) (request_id : str)
  | SessionEnded (life : nat) (reason : SessionEndReason).

(** What is written to a child's standard input; an input's line keeps the
    incarnation it was planned for, an answer the request. *)
Inductive Line :=
  | InputLine (planned : nat)
  | Response (request_id : str)
  | ControlLine.

(** [ReaderCompletionState]; [None] is a life without readers yet. *)
Record Completion := mkCompletion {
  stdout_code : option Z;
  stderr_eof : bool;
  finalizer_chosen : bool
}.

Definition new_completion : Completion := mkCompletion None false false.

Definition take_ready (c : Completion) : Completion * option Z :=
  if finalizer_chosen c || negb (stderr_eof c) then (c, None)
  else
    match stdout_code c with
    | None => (c, None)
    | Some code => (mkCompletion (stdout_code c) (stderr_eof c) true, Some code)
    end.

Definition finish_stdout (c : Completion) (code : Z) : Completion * option Z :=
  take_ready (mkCompletion (Some code) (stderr_eof c) (finalizer_chosen c)).

Definition finish_stderr (c : Completion) : Completion * option Z :=
  take_ready (mkCompletion (stdout_code c) true (finalizer_chosen c)).

(** ** The shared state *)

(** [forked] are the children ever spawned, [reaping] those handed to the
    reaper or reaped; [installed] are the lives whose child was installed;
    [exits] are the exits broadcast. *)
Record Runtime := mkRuntime {
  registry : option AgentSessionRecord;
  tearing_down : bool;
  sealed : bool;
  next_incarnation : nat;
  publications : gmap nat Publication;
  completions : gmap nat Completion;
  journal : list JournalEntry;
  written : list (nat * Line);
  exits : list nat;
  forked : list nat;
  reaping : list nat
}.

Definition set_registry (y : Runtime) (r : option AgentSessionRecord) : Runtime :=
  mkRuntime r (tearing_down y) (sealed y) (next_incarnation y) (publications y) (completions y) (journal y)
    (written y) (exits y) (forked y) (reaping y).

Definition append_entry (y : Runtime) (e : JournalEntry) : Runtime :=
  mkRuntime (registry y) (tearing_down y) (sealed y) (next_incarnation y) (publications y) (completions y)
    (journal y ++ [e]) (written y) (exits y) (forked y) (reaping y).

Definition write_line (y : Runtime) (to : nat) (l : Line) : Runtime :=
  mkRuntime (registry y) (tearing_down y) (sealed y) (next_incarnation y) (publications y) (completions y)
    (journal y) (written y ++ [(to, l)]) (exits y) (forked y) (reaping y).

Definition reap (y : Runtime) (c : option nat) : Runtime :=
  mkRuntime (registry y) (tearing_down y) (sealed y) (next_incarnation y) (publications y) (completions y)
    (journal y) (written y) (exits y) (forked y) (option_list c ++ reaping y).

Definition set_publication (y : Runtime) (n : nat) (p : Publication) : Runtime :=
  mkRuntime (registry y) (tearing_down y) (sealed y) (next_incarnation y) (<[n := p]> (publications y))
    (completions y) (journal y) (written y) (exits y) (forked y) (reaping y).

Definition set_completion (y : Runtime) (n : nat) (c : Completion) : Runtime :=
  mkRuntime (registry y) (tearing_down y) (sealed y) (next_incarnation y) (publications y)
    (<[n := c]> (completions y)) (journal y) (written y) (exits y) (forked y) (reaping y).

Definition set_tearing_down (y : Runtime) (b : bool) : Runtime :=
  mkRuntime (registry y) b (sealed y) (next_incarnation y) (publications y) (completions y) (journal y)
    (written y) (exits y) (forked y) (reaping y).

(** [next_agent_incarnation] *)
Definition draw (y : Runtime) : Runtime :=
  mkRuntime (registry y) (tearing_down y) (sealed y) (S (next_incarnation y)) (publications y) (completions y)
    (journal y) (written y) (exits y) (forked y) (reaping y).

Definition is_published (y : Runtime) (n : nat) : bool :=
  match publications y !! n with Some ExitPublished => true | _ => false end.

(** The record, if it is of incarnation [n]. *)
Definition own_record (y : Runtime) (n : nat) : option AgentSessionRecord :=
  r ← registry y; if incarnation r =? n then Some r else None.

Definition with_status (r : AgentSessionRecord) (s : SessionStatus) : AgentSessionRecord :=
  mkRecord (child r) (stdin r) (incarnation r) (spawning r) (reservation_is_initial r) (provider_session_id r)
    s (session_allowed_tools r) (pending_permissions r) (exited r) (interrupt_requested r) (turn_model r).

Definition with_permissions (r : AgentSessionRecord) (allowed pending : gset str) : AgentSessionRecord :=
  mkRecord (child r) (stdin r) (incarnation r) (spawning r) (reservation_is_initial r) (provider_session_id r)
    (status r) allowed pending (exited r) (interrupt_requested r) (turn_model r).

Definition with_spawning (r : AgentSessionRecord) (b : bool) (n : nat) : AgentSessionRecord :=
  mkRecord (child r) (stdin r) n b (reservation_is_initial r) (provider_session_id r)
    (status r) (session_allowed_tools r) (pending_permissions r) (exited r) (interrupt_requested r) (turn_model r).

Definition with_interrupt (r : AgentSessionRecord) (b : bool) : AgentSessionRecord :=
  mkRecord (child r) (stdin r) (incarnation r) (spawning r) (reservation_is_initial r) (provider_session_id r)
    (status r) (session_allowed_tools r) (pending_permissions r) (exited r) b (turn_model r).

(** ** Tasks *)

Inductive Task :=
  (** [handle_spawn_agent] and the respawn of [handle_agent_input]. *)
  | TFirstPrompt (n : nat)
  | TParams (n : nat)
  | TFork (n : nat) (initial : bool)
  | TInstall (n : nat) (initial : bool)
  | TRelease (n : nat) (initial : bool)
  | TOrphan (n : nat)
  (** [handle_agent_input] *)
  | TWrite (n : nat)
  | TPrompt (n : nat)
  | TBusy (n : nat)
  (** A reader: idle, and in [process_event]. *)
  | TRead (n : nat) (stderr : bool)
  | TTouch (n : nat) (stderr : bool) (e : AgentEvent)
  | TStale (n : nat) (stderr : bool) (e : AgentEvent)
  | TRecord (n : nat) (stderr : bool) (e : AgentEvent)
  | TJournal (n : nat) (stderr : bool) (e : AgentEvent) (auto : option str)
  | TAuto (n : nat) (stderr : bool) (request_id : str)
  (** The end of a child. *)
  | TTake (n : nat)
  | TReap (n : nat) (c : option nat)
  | TMark (n : nat) (code : Z)
  | TFinish (n : nat) (stderr : bool) (code : Z)
  | TReason (n : nat) (code : Z)
  (** [publish_terminal_exit], for a reader or for a kill. *)
  | TClaim (n : nat) (reason : SessionEndReason) (kill : bool)
  | TEnd (n : nat) (reason : SessionEndReason) (kill : bool)
  | TComplete (n : nat) (kill : bool)
  (** [kill_agent_session] *)
  | TKill (r : AgentSessionRecord)
  | TWait (n : nat)
  | TEndTeardown (n : nat)
  (** [handle_agent_permission], after the registry pass. *)
  | TResolved (n : nat) (request_id : str).

(** What a step takes from outside: the event read or the end of the pipe, and
    whether the system call or the adapter succeeds. *)
Record StepEnv := mkStepEnv { line : option AgentEvent; ok : bool; code : Z; reports_id : bool }.

(** The registry pass of [process_event] for [e]; the answer is the request
    approved on the spot. *)
Definition record_event (y : Runtime) (r : AgentSessionRecord) (env : StepEnv) (e : AgentEvent)
    : Runtime * option str :=
  let r1 := mkRecord (child r) (stdin r) (incarnation r) (spawning r) (reservation_is_initial r)
              (provider_session_id r || reports_id env) (status r) (session_allowed_tools r)
              (pending_permissions r) (exited r) (interrupt_requested r) (turn_model r) in
  match e with
  | PermissionRequest id tool =>
      let approved := bool_decide (tool ∈ session_allowed_tools r) && ok env && bool_decide (is_Some (stdin r)) in
      if approved then
        (set_registry (write_line y (default 0 (stdin r)) (Response id)) (Some (with_status r1 Busy)), Some id)
      else
        (set_registry y (Some (with_status
           (with_permissions r1 (session_allowed_tools r) ({[id]} ∪ pending_permissions r)) Waiting)), None)
  | PermissionResolved id =>
      (set_registry y (Some (with_status
         (with_permissions r1 (session_allowed_tools r) (pending_permissions r ∖ {[id]})) Busy)), None)
  | OtherEvent next =>
      (set_registry y (Some (match next with Some s => with_status r1 s | None => r1 end)), None)
  end.

(** [install_respawned_child]: the tasks of the installed life, or the orphan. *)
Definition install (y : Runtime) (n : nat) (initial piped : bool) : Runtime * list Task :=
  match own_record y n with
  | Some r =>
      if sealed y then
        (if reservation_is_initial r then set_registry y None
         else set_registry y (Some (with_spawning r false n)), [TOrphan n])
      else
        let y1 := reap y (child r) in
        let r1 := mkRecord (Some n) (if piped then Some n else None) n false false (provider_session_id r)
                    (status r) (session_allowed_tools r) (pending_permissions r) false (interrupt_requested r)
                    (turn_model r) in
        (set_completion (set_registry y1 (Some r1)) n new_completion,
         TRead n false :: TRead n true :: if initial then [] else [TPrompt n])
  | None => (y, [TOrphan n])
  end.

(** The reason [publish_child_exit] gives; a turn that ended well gives none. *)
Definition end_reason (r : AgentSessionRecord) (code : Z) : option SessionEndReason :=
  if interrupt_requested r then Some Interrupted
  else
    match turn_model r with
    | PerTurn => if (code =? 0)%Z then None else Some Crashed
    | Persistent => if (code =? 0)%Z then Some Completed else Some Crashed
    end.

(** One [Definition] per phase: what its source does from one acquisition of a
    lock, or one call outside, to the next. *)

(** [spawn_agent_child] *)
Definition fork_step (y : Runtime) (n : nat) (initial ok : bool) : Runtime * list Task :=
  if ok then
    (mkRuntime (registry y) (tearing_down y) (sealed y) (next_incarnation y) (publications y)
       (completions y) (journal y) (written y) (exits y) (n :: forked y) (reaping y),
     [TInstall n initial])
  else (y, [TRelease n initial]).

Definition release_initial (y : Runtime) (n : nat) : Runtime :=
  match own_record y n with Some _ => set_registry y None | None => y end.

Definition release_respawn (y : Runtime) (n : nat) : Runtime :=
  match own_record y n with Some r => set_registry y (Some (with_spawning r false n)) | None => y end.

(** The write of an input that was planned for incarnation [n]. *)
Definition write_step (y : Runtime) (n : nat) (ok : bool) : Runtime * list Task :=
  match own_record y n with
  | Some r =>
      match stdin r with
      | Some c => if ok then (write_line y c (InputLine n), [TPrompt n]) else (y, [])
      | None => (y, [])
      end
  | None => (y, [])
  end.

Definition busy_step (y : Runtime) (n : nat) : Runtime :=
  match own_record y n with
  | Some r => set_registry y (Some (with_status r Busy))
  | None => y
  end.

(** [run_agent_reader]: the next event, or the end of the pipe; [ok] is a daemon
    that is still running. *)
Definition read_step (n : nat) (stderr : bool) (env : StepEnv) : list Task :=
  match line env with
  | Some e => [TTouch n stderr e]
  | None => if ok env then [if stderr then TFinish n true 0 else TTake n] else []
  end.

(** The two registry passes of [process_event]. *)
Definition touch_step (y : Runtime) (n : nat) (stderr : bool) (e : AgentEvent) : list Task :=
  [match own_record y n with Some _ => TRecord n stderr e | None => TStale n stderr e end].

Definition record_step (y : Runtime) (n : nat) (stderr : bool) (e : AgentEvent) (env : StepEnv)
    : Runtime * list Task :=
  match own_record y n with
  | Some r => let '(y1, auto) := record_event y r env e in (y1, [TJournal n stderr e auto])
  | None => (y, [TStale n stderr e])
  end.

(** The three phases of [prepare_child_exit]. *)
Definition take_step (y : Runtime) (n : nat) : Runtime * list Task :=
  match own_record y n with
  | Some r =>
      (set_registry y (Some (mkRecord None None n (spawning r) (reservation_is_initial r)
         (provider_session_id r) (status r) (session_allowed_tools r) (pending_permissions r)
         (exited r) (interrupt_requested r) (turn_model r))), [TReap n (child r)])
  | None => (y, [])
  end.

Definition reap_step (y : Runtime) (n : nat) (c : option nat) (code : Z) : Runtime * list Task :=
  (reap y c, [TMark n (match c with Some _ => code | None => -1 end)]).

Definition mark_step (y : Runtime) (n : nat) (c : Z) : Runtime * list Task :=
  match own_record y n with
  | Some r =>
      (set_registry y (Some (mkRecord (child r) (stdin r) n (spawning r) (reservation_is_initial r)
         (provider_session_id r) (status r) (session_allowed_tools r) (pending_permissions r)
         true (interrupt_requested r) (turn_model r))), [TFinish n false c])
  | None => (y, [])
  end.

(** The end of [run_agent_reader]. *)
Definition finish_step (y : Runtime) (n : nat) (stderr : bool) (c : Z) : Runtime * list Task :=
  let done := default new_completion (completions y !! n) in
  let '(done1, ready) := if stderr then finish_stderr done else finish_stdout done c in
  (set_completion y n done1, match ready with Some c => [TReason n c] | None => [] end).

(** The registry pass of [publish_child_exit]. *)
Definition reason_step (y : Runtime) (n : nat) (c : Z) : Runtime * list Task :=
  match own_record y n with
  | Some r =>
      (set_registry y (Some (with_status (with_interrupt r false) Idle)),
       match end_reason r c with Some reason => [TClaim n reason false] | None => [] end)
  | None => (y, [])
  end.

(** [publish_terminal_exit]: [try_claim], the journal, the broadcast and
    [complete]. *)
Definition claim_step (y : Runtime) (n : nat) (reason : SessionEndReason) (kill : bool) : Runtime * list Task :=
  match default ExitUnpublished (publications y !! n) with
  | ExitUnpublished => (set_publication y n ExitPublishing, [TEnd n reason kill])
  | _ => (y, if kill then [TWait n] else [])
  end.

Definition complete_step (y : Runtime) (n : nat) (kill : bool) : Runtime * list Task :=
  (set_publication
     (mkRuntime (registry y) (tearing_down y) (sealed y) (next_incarnation y) (publications y)
        (completions y) (journal y) (written y) (exits y ++ [n]) (forked y) (reaping y))
     n ExitPublished, if kill then [TEndTeardown n] else []).

(** [kill_agent_session] off the lock, up to the publication. *)
Definition kill_child_step (y : Runtime) (r : AgentSessionRecord) : Runtime * list Task :=
  (if exited r then y else reap y (child r), [TClaim (incarnation r) Interrupted true]).

(** [None] is a task that waits. *)
Definition task_step (y : Runtime) (t : Task) (env : StepEnv) : option (Runtime * list Task) :=
  match t with
  | TFirstPrompt n => Some (append_entry y (UserMessage n), [TFork n true])
  | TParams n => Some (y, match registry y with Some _ => [TFork n false] | None => [] end)
  | TFork n initial => Some (fork_step y n initial (ok env))
  | TInstall n initial => Some (install y n initial (ok env))
  | TRelease n initial => Some (if initial then release_initial y n else release_respawn y n, [])
  | TOrphan n => Some (reap y (Some n), [])
  | TWrite n => Some (write_step y n (ok env))
  | TPrompt n => Some (append_entry y (UserMessage n), [TBusy n])
  | TBusy n => Some (busy_step y n, [])
  | TRead n stderr => Some (y, read_step n stderr env)
  | TTouch n stderr e => Some (y, touch_step y n stderr e)
  | TStale n stderr e => Some (append_entry y (FromProvider n e), [TRead n stderr])
  | TRecord n stderr e => Some (record_step y n stderr e env)
  | TJournal n stderr e auto =>
      Some (append_entry y (FromProvider n e),
            [match auto with Some id => TAuto n stderr id | None => TRead n stderr end])
  | TAuto n stderr id => Some (append_entry y (Resolved n id), [TRead n stderr])
  | TTake n => Some (take_step y n)
  | TReap n c => Some (reap_step y n c (code env))
  | TMark n c => Some (mark_step y n c)
  | TFinish n stderr c => Some (finish_step y n stderr c)
  | TReason n c => Some (reason_step y n c)
  | TClaim n reason kill => Some (claim_step y n reason kill)
  | TEnd n reason kill => Some (append_entry y (SessionEnded n reason), [TComplete n kill])
  | TComplete n kill => Some (complete_step y n kill)
  | TKill r => Some (kill_child_step y r)
  | TWait n => if is_published y n then Some (y, [TEndTeardown n]) else None
  | TEndTeardown n => Some (set_tearing_down y false, [])
  | TResolved n id => Some (append_entry y (Resolved n id), [])
  end.

(** ** Requests of clients *)

Inductive Handler :=
  | HSpawn (m : TurnModel)
  | HInput (encodes : bool)
  | HKill
  | HPermission (request_id : str) (allow_session encodes ok : bool)
  | HInterrupt (signals ok : bool)
  | HSetModel (encodes ok : bool).

(** The tool of the latest journaled request of this id. *)
Definition requested_tool (j : list JournalEntry) (id : str) : option str :=
  head (omap (λ e, match e with
                   | FromProvider _ (PermissionRequest i tool) => if bool_decide (i = id) then Some tool else None
                   | _ => None
                   end) (reverse j)).

Definition reservation (n : nat) (m : TurnModel) : AgentSessionRecord :=
  mkRecord None None n true true false Busy ∅ ∅ true false m.

Definition live_stdin (r : AgentSessionRecord) : bool :=
  negb (exited r) && bool_decide (is_Some (stdin r)) && match turn_model r with Persistent => true | PerTurn => false end.

Definition handle_spawn_agent (y : Runtime) (m : TurnModel) : Runtime * list Task :=
  let n := next_incarnation y in
  let y1 := draw y in
  if sealed y then (y1, [])
  else if bool_decide (is_Some (registry y)) || tearing_down y then (y1, [])
  else (set_registry y1 (Some (reservation n m)), [TFirstPrompt n]).

Definition handle_agent_input (y : Runtime) (encodes : bool) : Runtime * list Task :=
  match registry y with
  | None => (y, [])
  | Some r =>
      if live_stdin r then (y, if encodes then [TWrite (incarnation r)] else [])
      else if negb (provider_session_id r) then (y, [])
      else if spawning r then (y, [])
      else
        let n := next_incarnation y in
        (set_registry (draw y) (Some (with_spawning r true n)), [TParams n])
  end.

Definition kill_agent_session (y : Runtime) : Runtime * list Task :=
  if sealed y then (y, [])
  else
    match registry y with
    | None => (y, [])
    | Some r => (set_tearing_down (set_registry y None) true, [TKill r])
    end.

Definition handle_agent_permission (y : Runtime) (id : str) (allow_session encodes ok : bool)
    : Runtime * list Task :=
  match registry y with
  | None => (y, [])
  | Some r =>
      if bool_decide (id ∉ pending_permissions r) then (y, [])
      else
        match encodes && ok, stdin r with
        | true, Some c =>
            let allowed :=
              match requested_tool (journal y) id with
              | Some tool => if allow_session then {[tool]} ∪ session_allowed_tools r else session_allowed_tools r
              | None => session_allowed_tools r
              end in
            (set_registry (write_line y c (Response id))
               (Some (with_status (with_permissions r allowed (pending_permissions r ∖ {[id]})) Busy)),
             [TResolved (incarnation r) id])
        | _, _ => (y, [])
        end
  end.

Definition handle_agent_interrupt (y : Runtime) (signals ok : bool) : Runtime * list Task :=
  match registry y with
  | None => (y, [])
  | Some r =>
      if signals then (if exited r then y else set_registry y (Some (with_interrupt r true)), [])
      else
        match stdin r with
        | Some c => (if ok then write_line y c ControlLine else y, [])
        | None => (y, [])
        end
  end.

Definition handle_agent_set_model (y : Runtime) (encodes ok : bool) : Runtime * list Task :=
  match registry y with
  | None => (y, [])
  | Some r =>
      match stdin r with
      | Some c => (if encodes && negb (exited r) && ok then write_line y c ControlLine else y, [])
      | None => (y, [])
      end
  end.

(** What a request does before it first gives the registry up. *)
Definition handle (y : Runtime) (h : Handler) : Runtime * list Task :=
  match h with
  | HSpawn m => handle_spawn_agent y m
  | HInput encodes => handle_agent_input y encodes
  | HKill => kill_agent_session y
  | HPermission id allow_session encodes ok => handle_agent_permission y id allow_session encodes ok
  | HInterrupt signals ok => handle_agent_interrupt y signals ok
  | HSetModel encodes ok => handle_agent_set_model y encodes ok
  end.

Record World := mkWorld { runtime : Runtime; tasks : list Task }.

Inductive RuntimeAction :=
  | AHandle (h : Handler)
  | AStep (i : nat) (env : StepEnv)
  | ASeal (on : bool)
  | ADraw.

Definition next_world (w : World) (a : RuntimeAction) : option World :=
  match a with
  | AHandle h => let '(y, ts) := handle (runtime w) h in Some (mkWorld y (ts ++ tasks w))
  | AStep i env =>
      t ← tasks w !! i;
      p ← task_step (runtime w) t env;
      Some (mkWorld p.1 (p.2 ++ delete i (tasks w)))
  | ASeal on =>
      let y := runtime w in
      Some (mkWorld (mkRuntime (registry y) (tearing_down y) on (next_incarnation y) (publications y)
                       (completions y) (journal y) (written y) (exits y) (forked y) (reaping y)) (tasks w))
  | ADraw => Some (mkWorld (draw (runtime w)) (tasks w))
  end.

Definition world_step (w w' : World) : Prop := ∃ a, next_world w a = Some w'.

Definition initial_world : World :=
  mkWorld (mkRuntime None false false 1 ∅ ∅ [] [] [] [] []) [].

(** ** Counting tasks *)

Definition count {A} (P : A → bool) (l : list A) : nat := length (List.filter P l).

Lemma count_nil {A} (P : A → bool) : count P [] = 0.
Proof. done. Qed.
Lemma count_cons {A} (P : A → bool) x l : count P (x :: l) = (if P x then 1 else 0) + count P l.
Proof. unfold count. cbn. by destruct (P x). Qed.
Lemma count_app {A} (P : A → bool) l k : count P (l ++ k) = count P l + count P k.
Proof. unfold count. by rewrite List.filter_app, length_app. Qed.
Lemma count_delete {A} (P : A → bool) l i x :
  l !! i = Some x → count P l = (if P x then 1 else 0) + count P (delete i l).
Proof.
  revert i. induction l as [|y l IH]; intros [|i] H; [done..| |].
  - injection H as ->. apply count_cons.
  - change (delete (S i) (y :: l)) with (y :: delete i l). rewrite !count_cons, (IH i H). lia.
Qed.
Lemma count_pos {A} (P : A → bool) l : 0 < count P l ↔ ∃ x, x ∈ l ∧ P x = true.
Proof.
  induction l as [|x l IH]; [rewrite count_nil; split; [lia|by intros (? & ?%not_elem_of_nil & _)]|].
  rewrite count_cons. split.
  - destruct (P x) eqn:Hx; [intros _; exists x; split; [by left|done]|].
    intros (z & Hz & Hp)%IH. exists z. split; [by right|done].
  - intros (z & [->|Hz]%elem_of_cons & Hp); [rewrite Hp; lia|].
    assert (0 < count P l) by (apply IH; by exists z). lia.
Qed.

Lemma count_mono {A} (P Q : A → bool) l : (∀ x, P x = true → Q x = true) → count P l ≤ count Q l.
Proof.
  intros H. induction l as [|x l IH]; [done|]. rewrite !count_cons.
  destruct (P x) eqn:Hx; [rewrite (H x Hx); lia|]. destruct (Q x); lia.
Qed.

(** A step on the list of tasks only matters up to what it takes and gives. *)
Section step.
Context (I : Runtime → ((Task → bool) → nat) → Prop).
Context (Hext : ∀ y f g, (∀ P, f P = g P) → I y f → I y g).

Lemma invariant_by_counting :
  (∀ y k h, I y (λ P, count P k) → I (handle y h).1 (λ P, count P (handle y h).2 + count P k)) →
  (∀ y k t env y' ts, task_step y t env = Some (y', ts) → I y (λ P, (if P t then 1 else 0) + count P k) →
     I y' (λ P, count P ts + count P k)) →
  (∀ y c on, I y c → I (mkRuntime (registry y) (tearing_down y) on (next_incarnation y) (publications y)
                       (completions y) (journal y) (written y) (exits y) (forked y) (reaping y)) c) →
  (∀ y c, I y c → I (draw y) c) →
  ∀ w w', I (runtime w) (λ P, count P (tasks w)) → world_step w w' → I (runtime w') (λ P, count P (tasks w')).
Proof using Hext.
  intros Hh Ht Hseal Hdraw w w' Hi ([h|i env|on|] & Hs); cbn in Hs.
  - specialize (Hh _ (tasks w) h Hi). destruct (handle (runtime w) h) as [y ts]. injection Hs as <-. cbn in *.
    eapply Hext; [|exact Hh]. intros P. symmetry. apply count_app.
  - destruct (tasks w !! i) as [t|] eqn:Hl; [|done]. cbn in Hs.
    destruct (task_step (runtime w) t env) as [[y ts]|] eqn:Hstep; [|done]. injection Hs as <-. cbn.
    eapply Hext; [|eapply (Ht _ (delete i (tasks w))); [exact Hstep|]].
    + intros P. symmetry. apply count_app.
    + eapply Hext; [|exact Hi]. intros P. by apply count_delete.
  - injection Hs as <-. by apply Hseal.
  - injection Hs as <-. by apply Hdraw.
Qed.
End step.

Abbreviation Tally := ((Task → bool) → nat) (only parsing).

(** Case analysis on a handler or a step: the branch it takes. *)
Ltac unfold_handle :=
  cbn [handle]; unfold handle_spawn_agent, handle_agent_input, kill_agent_session, handle_agent_permission,
    handle_agent_interrupt, handle_agent_set_model.

Ltac unfold_task H :=
  cbn [task_step] in H; unfold fork_step, release_initial, release_respawn, write_step, busy_step, read_step,
    touch_step, record_step, take_step, reap_step, mark_step, finish_step, reason_step, claim_step,
    complete_step, kill_child_step in H.

Ltac handler_cases :=
  match goal with |- context [handle ?y ?h] => destruct h; unfold_handle end;
  repeat case_match; simplify_eq; cbn [fst snd].

Ltac step_cases :=
  match goal with
  | H : task_step _ ?t _ = Some _ |- _ =>
      destruct t; unfold_task H;
      unfold install, record_event, finish_stdout, finish_stderr, take_ready in H;
      repeat case_match; simplify_eq; try discriminate
  end.

(** ** Exits *)

Definition ends (n : nat) (t : Task) : bool := match t with TEnd m _ _ => m =? n | _ => false end.
Definition completes (n : nat) (t : Task) : bool := match t with TComplete m _ => m =? n | _ => false end.
Definition is_end (n : nat) (e : JournalEntry) : bool := match e with SessionEnded m _ => m =? n | _ => false end.

Definition publication (y : Runtime) (n : nat) : Publication := default ExitUnpublished (publications y !! n).

(** Where an incarnation's exit is: with nobody, with the one task that claimed
    it, or journaled and broadcast. *)
Definition exit_at (p : Publication) (ending completing journaled broadcast : nat) : Prop :=
  match p with
  | ExitUnpublished => ending = 0 ∧ completing = 0 ∧ journaled = 0 ∧ broadcast = 0
  | ExitPublishing => ending + completing = 1 ∧ journaled = completing ∧ broadcast = 0
  | ExitPublished => ending = 0 ∧ completing = 0 ∧ journaled = 1 ∧ broadcast = 1
  end.

Definition exit_inv (y : Runtime) (c : Tally) : Prop :=
  ∀ n, exit_at (publication y n) (c (ends n)) (c (completes n))
         (count (is_end n) (journal y)) (count (Nat.eqb n) (exits y)).

Lemma publication_set y m p n : publication (set_publication y m p) n = if m =? n then p else publication y n.
Proof.
  unfold publication. cbn. destruct (Nat.eqb_spec m n) as [->|]; [by rewrite lookup_insert_eq|by rewrite lookup_insert_ne].
Qed.

Lemma exit_inv_step w w' :
  exit_inv (runtime w) (λ P, count P (tasks w)) → world_step w w' →
  exit_inv (runtime w') (λ P, count P (tasks w')).
Proof.
  apply invariant_by_counting; clear w w'.
  - intros y f g Hfg Hi n. specialize (Hi n). cbn in *. by rewrite <- !Hfg.
  - intros y k h Hi n. specialize (Hi n). handler_cases; exact Hi.
  - intros y k t env y' ts Hs Hi n. specialize (Hi n). revert Hi. generalize (λ P, count P k). intros c Hi.
    step_cases; try exact Hi; cbn [journal append_entry]; rewrite ?count_app.
    all: try (unfold exit_at in *; cbn in Hi |- *; rewrite ?count_cons, ?count_nil, ?Nat.add_0_r; cbn; exact Hi).
    all: rewrite ?publication_set; cbn [journal exits set_publication append_entry]; rewrite ?count_app, ?count_cons, ?count_nil;
      cbn [ends completes is_end]; unfold exit_at, publication in *; cbn [publications append_entry set_publication ends completes] in *.
    all: match goal with |- context [?a =? ?b] => destruct (Nat.eqb_spec a b) as [Heq|Hne]; [subst b|] end; rewrite ?Nat.eqb_refl, ?(proj2 (Nat.eqb_neq _ _)) by congruence; cbn in *.
    all: repeat case_match; simplify_eq; lia.
  - intros y c on Hi. exact Hi.
  - intros y c Hi. exact Hi.
Qed.

(** ** Lives *)


Definition spawning_for (n : nat) (t : Task) : bool :=
  match t with TFirstPrompt m | TParams m | TFork m _ | TInstall m _ | TRelease m _ => m =? n | _ => false end.
Definition initial_for (n : nat) (t : Task) : bool :=
  match t with TFirstPrompt m => m =? n | TFork m i | TInstall m i | TRelease m i => (m =? n) && i | _ => false end.
Definition reading_for (n : nat) (t : Task) : bool :=
  match t with
  | TRead m _ | TTouch m _ _ | TStale m _ _ | TRecord m _ _ | TJournal m _ _ _ | TAuto m _ _
  | TTake m | TReap m _ | TMark m _ | TFinish m _ _ | TReason m _ => m =? n
  | _ => false
  end.
Definition marking_for (n : nat) (t : Task) : bool :=
  match t with TReap m _ | TMark m _ => m =? n | _ => false end.
Definition writing_for (n : nat) (t : Task) : bool := match t with TWrite m => m =? n | _ => false end.

Definition is_installed (m : gmap nat Completion) (n : nat) : bool :=
  match m !! n with Some _ => true | None => false end.

(** Neither a child nor its standard input. *)
Definition is_empty (c s : option nat) : bool := match c, s with None, None => true | _, _ => false end.

(** A persistent provider's standard input is that of the record's own child. *)
Definition own_stdin (m : TurnModel) (s : option nat) (n : nat) : bool :=
  match m, s with Persistent, Some c => c =? n | _, _ => true end.

Definition is_persistent (m : TurnModel) : bool := match m with Persistent => true | PerTurn => false end.

(** What the record says of its own child. *)
Record record_ok (r : AgentSessionRecord) (next : nat) (c : Tally) : Prop := mkRecordOk {
  ro_fresh : incarnation r < next;
  ro_exited : exited r = true → is_empty (child r) (stdin r) = true;
  ro_marking : 0 < c (marking_for (incarnation r)) → is_empty (child r) (stdin r) = true;
  ro_initial : 0 < c (initial_for (incarnation r)) → reservation_is_initial r = true;
  ro_spawning : spawning r = true → 0 < c (spawning_for (incarnation r));
  ro_stdin : own_stdin (turn_model r) (stdin r) (incarnation r) = true;
  ro_writing : 0 < c (writing_for (incarnation r)) → is_persistent (turn_model r) = true
}.

(** The phases of an incarnation: being spawned, by one task, then, once its
    child is installed, read. *)
Record life_ok (y : Runtime) (c : Tally) (n : nat) : Prop := mkLifeOk {
  lo_unique : c (spawning_for n) ≤ 1;
  lo_installed : 0 < c (reading_for n) → is_installed (completions y) n = true;
  lo_spawning : 0 < c (spawning_for n) → is_installed (completions y) n = false;
  lo_fresh : next_incarnation y ≤ n →
    c (spawning_for n) = 0 ∧ c (reading_for n) = 0 ∧ c (writing_for n) = 0 ∧ is_installed (completions y) n = false
}.

Record lives_inv (y : Runtime) (c : Tally) : Prop := mkLivesInv {
  li_record : ∀ r, registry y = Some r → record_ok r (next_incarnation y) c;
  li_life : ∀ n, life_ok y c n
}.

Lemma record_ok_ext r next f g : (∀ P, f P = g P) → record_ok r next f → record_ok r next g.
Proof. intros H [H1 H2 H3 H4 H5 H6 H7]. by constructor; rewrite <- ?H. Qed.

Lemma life_ok_ext y f g n : (∀ P, f P = g P) → life_ok y f n → life_ok y g n.
Proof. intros H [H1 H2 H3 H4]. by constructor; rewrite <- ?H. Qed.

Lemma own_record_Some y n r : own_record y n = Some r ↔ registry y = Some r ∧ incarnation r = n.
Proof.
  unfold own_record. destruct (registry y) as [r'|]; cbn; [|split; [done|by intros [? _]]].
  destruct (Nat.eqb_spec (incarnation r') n); split; [intros [= <-]; done|by intros [[= <-] _]|done|by intros [[= <-] ?]].
Qed.

Lemma own_record_None y n r : own_record y n = None → registry y = Some r → incarnation r ≠ n.
Proof.
  intros Hn Hr He. assert (own_record y n = Some r) by (by apply own_record_Some). congruence.
Qed.

Lemma is_installed_insert m k c n : is_installed (<[k := c]> m) n = (k =? n) || is_installed m n.
Proof.
  unfold is_installed. destruct (Nat.eqb_spec k n) as [->|]; [by rewrite lookup_insert_eq|by rewrite lookup_insert_ne].
Qed.

(** [c] about the fields of records built from [r]. *)
Ltac tally :=
  unfold set_completion, with_status, with_permissions, with_spawning, with_interrupt, reservation in *;
  rewrite ?count_cons, ?count_nil in *;
  cbn [spawning_for initial_for reading_for marking_for writing_for incarnation exited reservation_is_initial
       spawning child stdin next_incarnation set_registry append_entry write_line reap set_publication
       set_tearing_down draw registry completions turn_model] in *;
  rewrite ?is_installed_insert in *.

Ltac eqbs :=
  repeat match goal with
    | b : bool |- context [_ && ?b] => is_var b; destruct b
    | b : bool, H : context [_ && ?b] |- _ => is_var b; destruct b
    | |- context [?a =? ?b] => destruct (Nat.eqb_spec a b); try subst
    | H : context [?a =? ?b] |- _ => destruct (Nat.eqb_spec a b); try subst
    end; cbn [andb orb] in *.

(** The facts about a record that is in the registry. *)
Ltac record_facts Hi :=
  repeat match goal with
    | H : own_record _ _ = Some _ |- _ => apply own_record_Some in H as [H <-]
    | H : own_record ?y ?n = None, H' : registry ?y = Some _ |- _ => apply (own_record_None _ _ _ H) in H' as ?; clear H
    end;
  repeat match goal with
    | H : registry ?y = Some ?a |- _ =>
        lazymatch goal with
        | _ : record_ok a _ _ |- _ => fail
        | _ => pose proof (li_record _ _ Hi a H)
        end
    end.

Ltac lives_cases Hi :=
  record_facts Hi; constructor;
  [ let r := fresh "r" in let Hr := fresh "Hr" in
    intros r Hr; tally; simplify_eq; record_facts Hi
  | let m := fresh "m" in intros m; destruct (li_life _ _ Hi m) as [U1 U2 U3 U4] ];
  repeat match goal with H : record_ok _ _ _ |- _ => destruct H as [?R1 ?R2 ?R3 ?R4 ?R5 ?R6 ?R7] end;
  constructor; tally; eqbs; try done; try lia.

(** Steps after which nothing of a life is other than it was. *)
Record same_life (r r' : AgentSessionRecord) : Prop := mkSameLife {
  sl_child : child r' = child r;
  sl_stdin : stdin r' = stdin r;
  sl_incarnation : incarnation r' = incarnation r;
  sl_spawning : spawning r' = true → spawning r = true;
  sl_initial : reservation_is_initial r' = reservation_is_initial r;
  sl_exited : exited r' = exited r;
  sl_model : turn_model r' = turn_model r
}.

Lemma lives_same y y' (f g : Tally) :
  lives_inv y f →
  (∀ r', registry y' = Some r' → ∃ r, registry y = Some r ∧ same_life r r'
     ∧ (spawning r' = true → g (spawning_for (incarnation r)) = f (spawning_for (incarnation r)))) →
  next_incarnation y' = next_incarnation y → completions y' = completions y →
  (∀ n, g (spawning_for n) ≤ f (spawning_for n)) →
  (∀ n, g (initial_for n) ≤ f (initial_for n)) → (∀ n, g (marking_for n) ≤ f (marking_for n)) →
  (∀ n, g (reading_for n) ≤ f (reading_for n)) →
  (∀ n, g (writing_for n) ≤ f (writing_for n)) → lives_inv y' g.
Proof.
  intros [H1 H2] Hr Hn Hc S1 S2 S3 S4 S5. constructor.
  - intros r' Hr'. destruct (Hr r' Hr') as (r & Hreg & [E1 E2 E3 E4 E5 E6 E7] & Hsp).
    destruct (H1 r Hreg) as [R1 R2 R3 R4 R5 R6 R7]. specialize (S2 (incarnation r)).
    specialize (S3 (incarnation r)). specialize (S5 (incarnation r)).
    clear H1 H2 S1 S4. constructor; rewrite ?E1, ?E2, ?E3, ?E5, ?E6, ?E7, ?Hn;
      [done|done|intros; apply R3; lia|intros; apply R4; lia| |done|intros; apply R7; lia].
    intros Hs. rewrite (Hsp Hs). by apply R5, E4.
  - intros n. destruct (H2 n) as [U1 U2 U3 U4].
    specialize (S1 n). specialize (S2 n). specialize (S3 n). specialize (S4 n). specialize (S5 n).
    constructor; rewrite ?Hc, ?Hn; lia.
Qed.

Lemma same_life_refl r : same_life r r.
Proof. done. Qed.

(** Closes the conditions of [lives_same] on the tasks. *)
Ltac same_tally := intros; tally; eqbs; cbn [andb]; lia.

Definition quiet (t : Task) : bool :=
  match t with
  | TParams _ | TInstall _ _ | TRelease _ _ | TTake _ | TMark _ _ | TFinish _ _ _ => false
  | _ => true
  end.

Lemma lives_quiet y c t env y' ts :
  quiet t = true → task_step y t env = Some (y', ts) →
  lives_inv y (λ P, (if P t then 1 else 0) + c P) → lives_inv y' (λ P, count P ts + c P).
Proof.
  intros Hq Hs Hi.
  assert (∀ n, count (spawning_for n) ts + c (spawning_for n) = (if spawning_for n t then 1 else 0) + c (spawning_for n)) as Hsp.
  { clear Hi. step_cases; try done; same_tally. }
  apply (lives_same _ _ _ _ Hi).
  - clear Hi. intros r' Hr'. cut (∃ r, registry y = Some r ∧ same_life r r').
    { intros (r & Hr & Hl). exists r. split_and!; [done|done|]. intros _. apply Hsp. }
    revert r' Hr'. clear Hsp.
    step_cases; cbn [registry set_registry append_entry write_line reap set_publication set_tearing_down];
      intros r' Hr'; try discriminate; eauto using same_life_refl.
    all: try match goal with H : own_record _ _ = Some _ |- _ => apply own_record_Some in H as [H _] end.
    all: injection Hr' as <-; eexists; (split; [eassumption|done]).
  - clear Hi. by step_cases; try case_match.
  - clear Hi. by step_cases; try case_match.
  - intros n. by rewrite (Hsp n).
  - clear Hi Hsp. step_cases; try done; same_tally.
  - clear Hi Hsp. step_cases; try done; same_tally.
  - clear Hi Hsp. step_cases; try done; same_tally.
  - clear Hi Hsp. step_cases; try done; same_tally.
Qed.

(** Handlers and the steps that are not quiet. *)
Lemma live_stdin_true r :
  live_stdin r = true → exited r = false ∧ is_empty (child r) (stdin r) = false ∧ is_persistent (turn_model r) = true.
Proof.
  unfold live_stdin. intros [[Hx Hs]%andb_prop Hm]%andb_prop. apply bool_decide_eq_true in Hs as [x Hs].
  rewrite Hs. split_and!; [by destruct (exited r)|by destruct (child r)|by destruct (turn_model r)].
Qed.

Lemma live_stdin_false r n :
  live_stdin r = false → (exited r = true → is_empty (child r) (stdin r) = true) →
  own_stdin (turn_model r) (stdin r) n = true.
Proof.
  unfold live_stdin, own_stdin, is_empty. intros Hl He. destruct (turn_model r); [|done].
  destruct (stdin r) as [x|]; [|done]. destruct (exited r); [|done]. specialize (He eq_refl). by destruct (child r).
Qed.

(** What holds of the tallies of a list. *)
Definition monotone (c : Tally) : Prop := ∀ n, c (initial_for n) ≤ c (spawning_for n) ∧ c (marking_for n) ≤ c (reading_for n).

Lemma monotone_count l : monotone (λ P, count P l).
Proof. intros n. split; apply count_mono; by intros []; cbn; try done; intros [? _]%andb_prop. Qed.

Definition quiet_handler (h : Handler) : bool :=
  match h with HSpawn _ | HInput _ => false | _ => true end.

Lemma lives_quiet_handler y c h :
  quiet_handler h = true → lives_inv y c → lives_inv (handle y h).1 (λ P, count P (handle y h).2 + c P).
Proof.
  intros Hq Hi.
  assert (∀ n, count (spawning_for n) (handle y h).2 + c (spawning_for n) = c (spawning_for n)) as Hsp.
  { clear Hi. intros n. by destruct h; try discriminate Hq; unfold_handle; repeat case_match. }
  apply (lives_same _ _ _ _ Hi).
  - clear Hi. intros r' Hr'. cut (∃ r, registry y = Some r ∧ same_life r r').
    { intros (r & Hr & Hl). exists r. split_and!; [done|done|]. intros _. apply Hsp. }
    clear Hsp. revert Hr'. handler_cases; cbn [registry set_registry write_line set_tearing_down];
      intros Hr'; try discriminate; eauto using same_life_refl.
    all: simplify_eq; eexists; (split; [first [eassumption|reflexivity]|done]).
  - clear -Hq. by destruct h; try discriminate Hq; unfold_handle; repeat case_match.
  - clear -Hq. by destruct h; try discriminate Hq; unfold_handle; repeat case_match.
  - intros n. by rewrite (Hsp n).
  - clear -Hq. intros n. by destruct h; try discriminate Hq; unfold_handle; repeat case_match.
  - clear -Hq. intros n. by destruct h; try discriminate Hq; unfold_handle; repeat case_match.
  - clear -Hq. intros n. by destruct h; try discriminate Hq; unfold_handle; repeat case_match.
  - clear -Hq. intros n. by destruct h; try discriminate Hq; unfold_handle; repeat case_match.
Qed.

Lemma lives_draw y c : lives_inv y c → lives_inv (draw y) c.
Proof.
  intros [H1 H2]. constructor.
  - intros r Hr. destruct (H1 r Hr). constructor; try done. cbn. lia.
  - intros n. destruct (H2 n) as [U1 U2 U3 U4]. constructor; try done. cbn. intros ?. apply U4. lia.
Qed.

Lemma lives_handle y c h : monotone c → lives_inv y c → lives_inv (handle y h).1 (λ P, count P (handle y h).2 + c P).
Proof.
  intros Hm Hi. destruct (quiet_handler h) eqn:Hq; [by apply lives_quiet_handler|].
  destruct (li_life _ _ Hi (next_incarnation y)) as [_ _ _ Hf]. specialize (Hf ltac:(lia)).
  pose proof (Hm (next_incarnation y)) as [Hf1 Hf2]. clear Hm.
  destruct h; try discriminate Hq; unfold_handle.
  - destruct (sealed y); [exact (lives_draw _ _ Hi)|]. case_match; [exact (lives_draw _ _ Hi)|].
    cbn [fst snd]. lives_cases Hi. by destruct m.
  - destruct (registry y) as [r|] eqn:Hr; [|exact Hi].
    destruct (live_stdin r) eqn:Hl.
    + destruct encodes; [|exact Hi]. apply live_stdin_true in Hl as (_ & _ & Hl). cbn [fst snd]. lives_cases Hi.
    + destruct (negb (provider_session_id r)); [exact Hi|]. destruct (spawning r); [exact Hi|]. cbn [fst snd].
      destruct (li_record _ _ Hi r Hr) as [R1 R2 R3 R4 R5 R6 R7]. constructor.
      * cbn [registry set_registry]. intros ? [= <-]. constructor; rewrite ?count_cons, ?count_nil; cbn; rewrite ?Nat.eqb_refl.
        -- lia.
        -- exact R2.
        -- clear -Hf Hf2. lia.
        -- clear -Hf Hf1. lia.
        -- lia.
        -- by apply live_stdin_false.
        -- clear -Hf. lia.
      * intros m. destruct (li_life _ _ Hi m) as [U1 U2 U3 U4]. constructor; tally;
          clear -Hf U1 U2 U3 U4; destruct (Nat.eqb_spec (next_incarnation y) m); subst; lia.
Qed.

(** A spawn that ends without a child: its record, if it is still there, is
    gone or no longer waits. *)
Lemma lives_given_up y y' c t ts n :
  lives_inv y (λ P, (if P t then 1 else 0) + c P) →
  registry y' = None ∨ (∃ r, registry y = Some r ∧ registry y' = Some (with_spawning r false (incarnation r)))
  ∨ (registry y' = registry y ∧ own_record y n = None) →
  next_incarnation y' = next_incarnation y → completions y' = completions y →
  t = TParams n ∨ (∃ i, t = TInstall n i) ∨ (∃ i, t = TRelease n i) → ts = [] ∨ ts = [TOrphan n] →
  lives_inv y' (λ P, count P ts + c P).
Proof.
  intros Hi Hr Hn Hc Ht Hts. apply (lives_same _ _ _ _ Hi); [|done..| | | | |].
  - intros r' Hr'. destruct Hr as [Hr|[(r & Hr & Hr0)|[Hr Ho]]].
    + congruence.
    + rewrite Hr0 in Hr'. injection Hr' as <-. exists r. by split_and!.
    + rewrite Hr in Hr'. exists r'. split_and!; [done|done|]. intros _.
      pose proof (own_record_None _ _ _ Ho Hr') as Hne.
      destruct Ht as [->|[[i ->]|[i ->]]], Hts as [-> | ->]; tally; by rewrite (proj2 (Nat.eqb_neq n (incarnation r'))) by auto.
  - intros m. destruct Ht as [->|[[i ->]|[i ->]]], Hts as [-> | ->]; tally; lia.
  - intros m. destruct Ht as [->|[[i ->]|[i ->]]], Hts as [-> | ->]; tally; lia.
  - intros m. destruct Ht as [->|[[i ->]|[i ->]]], Hts as [-> | ->]; tally; lia.
  - intros m. destruct Ht as [->|[[i ->]|[i ->]]], Hts as [-> | ->]; tally; lia.
  - intros m. destruct Ht as [->|[[i ->]|[i ->]]], Hts as [-> | ->]; tally; lia.
Qed.

(** The record whose child has just been installed. *)
Lemma lives_installed y y' c n initial piped r ts :
  lives_inv y (λ P, (if P (TInstall n initial) then 1 else 0) + c P) → monotone c →
  own_record y n = Some r →
  registry y' = Some (mkRecord (Some n) (if piped : bool then Some n else None) n false false (provider_session_id r)
                        (status r) (session_allowed_tools r) (pending_permissions r) false (interrupt_requested r)
                        (turn_model r)) →
  next_incarnation y' = next_incarnation y → completions y' = <[n := new_completion]> (completions y) →
  ts = TRead n false :: TRead n true :: (if initial then [] else [TPrompt n]) →
  lives_inv y' (λ P, count P ts + c P).
Proof.
  intros [H1 H2] Hm [Hr Hn]%own_record_Some Hr' Hnext Hc Hts.
  assert (∀ P, P (TPrompt n) = false → count P ts = (if P (TRead n false) then 1 else 0) + (if P (TRead n true) then 1 else 0)) as Hcount.
  { intros P HP. rewrite Hts, !count_cons. destruct initial; rewrite ?count_cons, ?count_nil, ?HP; lia. }
  destruct (H1 r Hr) as [R1 R2 R3 R4 R5 R6 R7]. destruct (H2 n) as [V1 V2 V3 V4]. destruct (Hm n) as [M1 M2].
  rewrite Hn in *. cbn [spawning_for reading_for] in V1, V2, V3. rewrite Nat.eqb_refl in V1, V3.
  constructor.
  - rewrite Hr'. intros ? [= <-]. rewrite Hnext. constructor; cbn [child stdin turn_model incarnation exited spawning]; rewrite ?Hcount by done; cbn.
    + done.
    + done.
    + clear -V1 V2 V3 M2. specialize (V3 ltac:(lia)). lia.
    + clear -V1 M1. lia.
    + done.
    + unfold own_stdin. destruct (turn_model r), piped; by rewrite ?Nat.eqb_refl.
    + exact R7.
  - intros m. destruct (H2 m) as [U1 U2 U3 U4]. clear -U1 U2 U3 U4 Hc Hnext Hcount. constructor; rewrite ?Hc, ?Hnext, ?is_installed_insert, ?Hcount by done;
      cbn [spawning_for reading_for writing_for] in *; destruct (Nat.eqb_spec n m) as [->|]; cbn [orb]; lia.
Qed.

Lemma lives_step y c t env y' ts :
  quiet t = false → monotone c → task_step y t env = Some (y', ts) →
  lives_inv y (λ P, (if P t then 1 else 0) + c P) → lives_inv y' (λ P, count P ts + c P).
Proof.
  intros Hq Hm Hs Hi. destruct t as [|n|?|n initial|n initial|?|?|?|?|?|?|?|?|?|?|n|?|n|n|?|?|?|?|?|?|?|?];
    try discriminate Hq; clear Hq; unfold_task Hs.
  - destruct (registry y) as [r|] eqn:Hr; simplify_eq.
    + clear Hm. lives_cases Hi.
    + eapply (lives_given_up _ _ _ _ _ n Hi); eauto.
  - unfold install in Hs. destruct (own_record y n) as [r|] eqn:Ho; [|simplify_eq; eapply (lives_given_up _ _ _ _ _ n Hi); eauto].
    destruct (sealed y); [|simplify_eq; by eapply lives_installed].
    pose proof Ho as [Hr Hn]%own_record_Some. destruct (reservation_is_initial r); simplify_eq.
    + eapply (lives_given_up _ _ _ _ _ (incarnation r) Hi); eauto.
    + eapply (lives_given_up _ _ _ _ _ (incarnation r) Hi); eauto.
  - destruct (own_record y n) as [r|] eqn:Ho; [|destruct initial; simplify_eq; eapply (lives_given_up _ _ _ _ _ n Hi); eauto].
    pose proof Ho as [Hr Hn]%own_record_Some. destruct initial; simplify_eq.
    + eapply (lives_given_up _ _ _ _ _ (incarnation r) Hi); eauto.
    + eapply (lives_given_up _ _ _ _ _ (incarnation r) Hi); eauto 6.
  - destruct (own_record y n) as [r|] eqn:Ho; simplify_eq; lives_cases Hi. by destruct (turn_model r).
  - destruct (own_record y n) as [r|] eqn:Ho; simplify_eq; lives_cases Hi.
  - repeat case_match; simplify_eq; lives_cases Hi.
Qed.

Lemma lives_inv_step w w' :
  lives_inv (runtime w) (λ P, count P (tasks w)) → world_step w w' →
  lives_inv (runtime w') (λ P, count P (tasks w')).
Proof.
  apply invariant_by_counting; clear w w'.
  - intros y f g Hfg [H1 H2]. constructor; [intros r Hr; eapply record_ok_ext; eauto|intros n; eapply life_ok_ext; eauto].
  - intros y k h Hi. apply lives_handle; [apply monotone_count|done].
  - intros y k t env y' ts Hs Hi. destruct (quiet t) eqn:Hq.
    + by eapply (lives_quiet _ _ t).
    + by eapply (lives_step _ _ t); [|apply monotone_count|..].
  - intros y c on [H1 H2]. constructor; [exact H1|]. intros n. destruct (H2 n). by constructor.
  - intros y c Hi. by apply lives_draw.
Qed.

(** ** Input and children *)

(** Lines of input are on the standard input of the child they were planned for. *)
Definition lines_inv (y : Runtime) : Prop := ∀ x n, (x, InputLine n) ∈ written y → x = n.

Lemma own_stdin_eq y c n r x :
  lives_inv y c → own_record y n = Some r → 0 < c (writing_for n) → stdin r = Some x → x = n.
Proof.
  intros Hi [Hr <-]%own_record_Some Hw Hx. destruct (li_record _ _ Hi r Hr) as [_ _ _ _ _ R6 R7].
  specialize (R7 Hw). unfold own_stdin, is_persistent in *. destruct (turn_model r); [|done].
  rewrite Hx in R6. by apply Nat.eqb_eq in R6.
Qed.

Lemma lines_handle y h : lines_inv y → lines_inv (handle y h).1.
Proof.
  intros Hl. handler_cases; try exact Hl; intros x k; cbn [written set_registry write_line set_tearing_down];
    intros [Hin|Hin]%elem_of_app; try (by apply Hl); by apply list_elem_of_singleton in Hin.
Qed.

Lemma lines_step y c t env y' ts :
  lives_inv y (λ P, (if P t then 1 else 0) + c P) → task_step y t env = Some (y', ts) → lines_inv y → lines_inv y'.
Proof.
  intros Hi Hs Hl. destruct t; unfold_task Hs; unfold install, record_event in Hs;
    repeat case_match; simplify_eq; try exact Hl; intros x k; cbn [written set_registry write_line];
    intros [Hin|Hin]%elem_of_app; try (by apply Hl); apply list_elem_of_singleton in Hin; simplify_eq.
  eapply own_stdin_eq; [exact Hi|done| |done]. cbn. rewrite Nat.eqb_refl. lia.
Qed.

Definition holding (x : nat) (t : Task) : bool :=
  match t with
  | TInstall m _ | TOrphan m => m =? x
  | TReap _ (Some m) => m =? x
  | TKill r => match child r with Some m => m =? x | None => false end
  | _ => false
  end.

(** A kill of a record that has exited holds no child. *)
Definition careless (t : Task) : bool :=
  match t with TKill r => exited r && negb (is_empty (child r) (stdin r)) | _ => false end.

(** Every child ever spawned is in the record, with a task that will install it
    or hand it to the reaper, or has been handed over. *)
Definition children_inv (y : Runtime) (c : Tally) : Prop :=
  c careless = 0
  ∧ (∀ r, registry y = Some r → reservation_is_initial r = true → child r = None)
  ∧ ∀ x, x ∈ forked y →
      x ∈ reaping y ∨ (∃ r, registry y = Some r ∧ child r = Some x) ∨ 0 < c (holding x).

Lemma children_handle y c h :
  lives_inv y c → children_inv y c → children_inv (handle y h).1 (λ P, count P (handle y h).2 + c P).
Proof.
  intros Hi Hc. pose proof Hc as (H0 & H1 & H2).
  assert (∀ r y1 r', registry y1 = Some r' → registry y = Some r → child r' = child r →
          reservation_is_initial r' = reservation_is_initial r → forked y1 = forked y → reaping y1 = reaping y →
          ∀ ts, count careless ts = 0 → children_inv y1 (λ P, count P ts + c P)) as Hsame.
  { intros r y1 r' Hr1 Hr Hch Hin Hf Hre ts Hts. split_and!; [lia| |].
    - rewrite Hr1. intros ? [= <-]. rewrite Hch, Hin. by apply H1.
    - rewrite Hf, Hre, Hr1. intros x Hx. destruct (H2 x Hx) as [?|[(r0 & Hr0 & Hc0)|?]]; [by left| |right; right; lia].
      right. left. exists r'. split; [done|]. congruence. }
  destruct h; unfold_handle.
  - destruct (sealed y); [exact Hc|]. destruct (bool_decide _ || _) eqn:Hb; [exact Hc|].
    apply orb_false_iff in Hb as [Hb _]. apply bool_decide_eq_false in Hb.
    cbn [fst snd]. split_and!; [exact H0|by intros r [= <-]|]. intros x Hx.
    destruct (H2 x Hx) as [?|[(r & Hr & _)|?]]; [by left| |right; right; rewrite count_cons, count_nil; cbn; lia].
    exfalso. apply Hb. by exists r.
  - destruct (registry y) as [r|] eqn:Hr; [|exact Hc]. destruct (live_stdin r).
    + destruct encodes; [|exact Hc]. by eapply (Hsame r).
    + destruct (negb _); [exact Hc|]. destruct (spawning r); [exact Hc|]. by eapply (Hsame r).
  - destruct (sealed y); [exact Hc|]. destruct (registry y) as [r|] eqn:Hr; [|exact Hc]. cbn [fst snd].
    destruct (li_record _ _ Hi r Hr) as [_ R2 _ _ _ _ _]. split_and!; [|done|].
    + rewrite count_cons, count_nil. cbn [careless]. destruct (exited r); [rewrite R2 by done|]; cbn; lia.
    + intros x Hx. rewrite count_cons, count_nil. cbn [holding].
      destruct (H2 x Hx) as [?|[(r' & [= <-] & Hx')|?]]; [by left| |right; right; lia].
      right. right. rewrite Hx', Nat.eqb_refl. lia.
  - destruct (registry y) as [r|] eqn:Hr; [|exact Hc]. case_bool_decide; [exact Hc|].
    destruct (encodes && _); [|exact Hc]. destruct (stdin r); [|exact Hc]. by eapply (Hsame r).
  - destruct (registry y) as [r|] eqn:Hr; [|exact Hc]. destruct signals.
    + destruct (exited r); [exact Hc|]. by eapply (Hsame r).
    + destruct (stdin r); [|exact Hc]. match goal with |- context [if ?b then write_line _ _ _ else _] => destruct b end; [|exact Hc]. by eapply (Hsame r).
  - destruct (registry y) as [r|] eqn:Hr; [|exact Hc]. destruct (stdin r); [|exact Hc].
    match goal with |- context [if ?b then write_line _ _ _ else _] => destruct b end; [|exact Hc]. by eapply (Hsame r).
Qed.

Lemma children_same y y' (f g : Tally) :
  children_inv y f → child <$> registry y' = child <$> registry y →
  reservation_is_initial <$> registry y' = reservation_is_initial <$> registry y →
  forked y' = forked y → (∀ x, x ∈ reaping y → x ∈ reaping y') →
  g careless ≤ f careless → (∀ x, f (holding x) ≤ g (holding x)) → children_inv y' g.
Proof.
  intros (H0 & H1 & H2) Hc Hi Hf Hr Hg Hh. split_and!; [lia| |].
  - intros r' Hr' Hin. rewrite Hr' in Hc, Hi. destruct (registry y) as [r|]; [|done]. cbn in Hc, Hi.
    injection Hc as ->. injection Hi as Hi. apply H1; [done|congruence].
  - rewrite Hf. intros x Hx. destruct (H2 x Hx) as [?|[(r & Hr0 & Hx')|?]]; [left; by apply Hr| |right; right; specialize (Hh x); lia].
    right. left. rewrite Hr0 in Hc. destruct (registry y') as [r'|]; [|done]. cbn in Hc. injection Hc as Hc.
    exists r'. split; [done|congruence].
Qed.

(** The steps that touch no child. *)
Definition childless (t : Task) : bool :=
  match t with
  | TFork _ _ | TInstall _ _ | TRelease _ _ | TOrphan _ | TTake _ | TReap _ _ | TKill _ => false
  | _ => true
  end.

Lemma own_record_fmap {A} (g : AgentSessionRecord → A) y n r r' :
  own_record y n = Some r → g r' = g r → g <$> Some r' = g <$> registry y.
Proof. intros [-> _]%own_record_Some Hg. cbn. by rewrite Hg. Qed.

Lemma record_event_frame y r env e y1 auto :
  record_event y r env e = (y1, auto) →
  forked y1 = forked y ∧ reaping y1 = reaping y
  ∧ ∃ r1, registry y1 = Some r1 ∧ child r1 = child r ∧ reservation_is_initial r1 = reservation_is_initial r.
Proof.
  unfold record_event. intros Hr. repeat case_match; simplify_eq; split_and!; try done; eexists; split_and!; done.
Qed.

Lemma record_event_completions y r env e y1 auto :
  record_event y r env e = (y1, auto) → completions y1 = completions y.
Proof. unfold record_event. intros Hr. by repeat case_match; simplify_eq. Qed.

Lemma children_quiet y c t env y' ts :
  childless t = true → task_step y t env = Some (y', ts) →
  children_inv y (λ P, (if P t then 1 else 0) + c P) → children_inv y' (λ P, count P ts + c P).
Proof.
  intros Hq Hs Hc.
  destruct t; try discriminate Hq; unfold_task Hs;
    repeat match type of Hs with
      | context [match own_record ?y ?n with _ => _ end] => destruct (own_record y n) as [?|] eqn:?
      | context [match ?x with _ => _ end] => destruct x eqn:?
      end; simplify_eq; try exact Hc.
  all: apply (children_same _ _ _ _ Hc); try done; cbn [registry set_registry write_line append_entry set_publication set_completion];
    try (by eapply own_record_fmap); try (clear; intros; rewrite ?count_cons, ?count_nil; cbn; lia).
  all: match goal with H : record_event _ _ _ _ = _ |- _ =>
         apply record_event_frame in H as (Hf & Hre & r1 & Hr1 & Hc1 & Hi1); rewrite ?Hf, ?Hre, ?Hr1; try done end;
       by eapply own_record_fmap.
Qed.

Lemma children_step y c t env y' ts :
  childless t = false → task_step y t env = Some (y', ts) →
  lives_inv y (λ P, (if P t then 1 else 0) + c P) →
  children_inv y (λ P, (if P t then 1 else 0) + c P) → children_inv y' (λ P, count P ts + c P).
Proof.
  intros Hq Hs Hi Hc. pose proof Hc as (H0 & H1 & H2).
  destruct t as [| |n initial|n initial|n initial|n| | | | | | | | | |n|n x| | | | | | |r| | |];
    try discriminate Hq; unfold_task Hs; cbn [careless holding] in H0, H2.
  - destruct (ok env); simplify_eq.
    + split_and!; [exact H0|exact H1|]. cbn [forked registry reaping]. intros x. rewrite count_cons, count_nil. cbn [holding].
      intros [->|Hx]%elem_of_cons; [right; right; rewrite Nat.eqb_refl; lia|].
      destruct (H2 x Hx) as [?|[?|?]]; [by left|by right; left|right; right; lia].
    + by apply (children_same _ _ _ _ Hc).
  - unfold install in Hs. destruct (own_record y n) as [r|] eqn:Ho.
    + pose proof Ho as [Hr Hn]%own_record_Some. destruct (sealed y); simplify_eq.
      * destruct (reservation_is_initial r) eqn:Hin.
        -- split_and!; [done|done|]. cbn [forked registry reaping set_registry]. intros x Hx. rewrite count_cons, count_nil. cbn [holding].
           destruct (H2 x Hx) as [?|[(r' & Hr' & Hx')|?]]; [by left| |right; right; lia].
           rewrite Hr in Hr'. injection Hr' as <-. rewrite (H1 r Hr Hin) in Hx'. done.
        -- apply (children_same _ _ _ _ Hc); try done; [by eapply own_record_fmap..|].
           intros x. rewrite count_cons, count_nil. cbn [holding]. lia.
      * split_and!.
        -- rewrite count_cons, count_cons. destruct initial; rewrite ?count_cons, ?count_nil; cbn; lia.
        -- by intros ? [= <-].
        -- cbn [forked registry reaping set_registry set_completion reap]. intros x Hx.
           destruct (H2 x Hx) as [?|[(r' & Hr' & Hx')|Hh]].
           ++ left. apply elem_of_app. by right.
           ++ left. apply elem_of_app. left. rewrite Hr in Hr'. injection Hr' as <-. rewrite Hx'. by left.
           ++ destruct (Nat.eqb_spec (incarnation r) x) as [<-|Hne]; [right; left; by eexists|].
              right. right. lia.
    + simplify_eq. apply (children_same _ _ _ _ Hc); try done. intros x. rewrite count_cons, count_nil. cbn [holding]. lia.
  - simplify_eq. destruct (own_record y n) as [r|] eqn:Ho; [|by destruct initial; apply (children_same _ _ _ _ Hc)].
    pose proof Ho as [Hr Hn]%own_record_Some. destruct initial.
    + split_and!; [done|done|]. cbn [forked registry reaping set_registry]. intros x Hx. rewrite count_nil.
      destruct (H2 x Hx) as [?|[(r' & Hr' & Hx')|?]]; [by left| |right; right; lia].
      rewrite Hr in Hr'. injection Hr' as <-. rewrite (H1 r Hr) in Hx'; [done|].
      apply (ro_initial _ _ _ (li_record _ _ Hi r Hr)). cbn. rewrite Hn, Nat.eqb_refl. cbn. lia.
    + apply (children_same _ _ _ _ Hc); try done; by eapply own_record_fmap.
  - simplify_eq. split_and!; [exact H0|exact H1|]. cbn [forked registry reaping reap option_list]. intros x Hx.
    change (x ∈ n :: reaping y ∨ (∃ r, registry y = Some r ∧ child r = Some x) ∨ 0 < count (holding x) [] + c (holding x)).
    rewrite elem_of_cons, count_nil. destruct (H2 x Hx) as [?|[?|Hh]]; [by left; right|by right; left|].
    destruct (Nat.eqb_spec n x) as [<-|]; [by left; left|right; right; lia].
  - destruct (own_record y n) as [r|] eqn:Ho; simplify_eq.
    + pose proof Ho as [Hr Hn]%own_record_Some. split_and!; [exact H0|by intros ? [= <-]|].
      cbn [forked registry reaping set_registry]. intros x Hx. rewrite count_cons, count_nil. cbn [holding].
      destruct (H2 x Hx) as [?|[(r' & Hr' & Hx')|?]]; [by left| |right; right; lia].
      rewrite Hr in Hr'. injection Hr' as <-. rewrite Hx', Nat.eqb_refl. lia.
    + by apply (children_same _ _ _ _ Hc).
  - simplify_eq. split_and!; [exact H0|exact H1|]. cbn [forked registry reaping reap]. intros x' Hx.
    rewrite elem_of_app. rewrite count_cons, count_nil. cbn [holding].
    destruct (H2 x' Hx) as [?|[?|Hh]]; [by left; right|by right; left|].
    destruct x as [m|]; [|right; right; cbn in Hh; lia].
    destruct (Nat.eqb_spec m x') as [<-|]; [left; left; by left|right; right; lia].
  - simplify_eq. split_and!.
    + rewrite count_cons, count_nil. cbn [careless]. lia.
    + by destruct (exited r).
    + intros x Hx. rewrite count_cons, count_nil. cbn [holding].
      assert (x ∈ forked y) as Hx0 by (by destruct (exited r)).
      assert (∀ z, z ∈ reaping y → z ∈ reaping (if exited r then y else reap y (child r))) as Hmono.
      { intros z Hz. destruct (exited r); [done|]. apply elem_of_app. by right. }
      destruct (H2 x Hx0) as [?|[?|Hh]]; [left; by apply Hmono|right; left; by destruct (exited r)|].
      destruct (child r) as [m|] eqn:Hch; [|right; right; lia].
      destruct (Nat.eqb_spec m x) as [<-|]; [|right; right; lia].
      left. destruct (exited r); [exfalso|apply elem_of_app; left; by left].
      revert H0. cbn. lia.
Qed.

(** ** Kills *)

Definition killing (t : Task) : bool :=
  match t with
  | TKill _ | TClaim _ _ true | TEnd _ _ true | TComplete _ true | TWait _ | TEndTeardown _ => true
  | _ => false
  end.
Definition waits (n : nat) (t : Task) : bool := match t with TWait m => m =? n | _ => false end.
Definition ends_teardown (n : nat) (t : Task) : bool := match t with TEndTeardown m => m =? n | _ => false end.

Definition is_some {A} (o : option A) : bool := match o with Some _ => true | None => false end.

(** One kill at a time, during which the id is not taken; it waits only for an
    exit that was claimed, and ends after the exit was published. *)
Record kill_inv (y : Runtime) (c : Tally) : Prop := mkKillInv {
  ki_one : c killing = if tearing_down y then 1 else 0;
  ki_free : tearing_down y = true → registry y = None;
  ki_waits n : 0 < c (waits n) → publication y n ≠ ExitUnpublished;
  ki_ends n : 0 < c (ends_teardown n) → publication y n = ExitPublished
}.

Lemma kill_same y y' (f g : Tally) :
  kill_inv y f → (registry y = None → registry y' = None) → tearing_down y' = tearing_down y →
  (∀ n, publication y' n = publication y n) → g killing = f killing →
  (∀ n, g (waits n) ≤ f (waits n)) → (∀ n, g (ends_teardown n) ≤ f (ends_teardown n)) → kill_inv y' g.
Proof.
  intros [H1 H2 H3 H4] Hr Ht Hp Hk Hw He. constructor; rewrite ?Ht, ?Hk; auto.
  - intros n Hn. rewrite Hp. apply H3. specialize (Hw n). lia.
  - intros n Hn. rewrite Hp. apply H4. specialize (He n). lia.
Qed.

(** A task never puts a record back. *)
Lemma step_registry_None y t env y' ts :
  task_step y t env = Some (y', ts) → registry y = None → registry y' = None.
Proof.
  intros Hs Hr. assert (∀ n, own_record y n = None) as Ho by (intros n; unfold own_record; by rewrite Hr).
  destruct t; unfold_task Hs; unfold install in Hs; rewrite ?Ho in Hs; repeat case_match; simplify_eq; done.
Qed.

(** The tasks that are not of an exit. *)
Definition exitless (t : Task) : bool :=
  match t with
  | TClaim _ _ _ | TEnd _ _ _ | TComplete _ _ | TKill _ | TWait _ | TEndTeardown _ => false
  | _ => true
  end.

Lemma exitless_frame y t env y' ts :
  exitless t = true → task_step y t env = Some (y', ts) →
  tearing_down y' = tearing_down y ∧ publications y' = publications y
  ∧ count killing ts = 0 ∧ (∀ n, count (waits n) ts = 0) ∧ (∀ n, count (ends_teardown n) ts = 0).
Proof.
  intros Hq Hs. destruct t; try discriminate Hq; unfold_task Hs; unfold install, record_event in Hs;
    repeat case_match; simplify_eq; split_and!; done.
Qed.

Lemma publication_published y n : is_published y n = true → publication y n = ExitPublished.
Proof. unfold is_published, publication. destruct (publications y !! n) as [[]|]; done. Qed.

Lemma kill_step y c t env y' ts :
  task_step y t env = Some (y', ts) → kill_inv y (λ P, (if P t then 1 else 0) + c P) →
  kill_inv y' (λ P, count P ts + c P).
Proof.
  intros Hs Hi. destruct (exitless t) eqn:Hq.
  { destruct (exitless_frame _ _ _ _ _ Hq Hs) as (Ht & Hp & Hk & Hw & He).
    apply (kill_same _ _ _ _ Hi); [by eapply step_registry_None|done|intros n; unfold publication; by rewrite Hp| | |].
    - rewrite Hk. by destruct t.
    - intros n. rewrite Hw. lia.
    - intros n. rewrite He. lia. }
  destruct Hi as [H1 H2 H3 H4].
  destruct t as [| | | | | | | | | | | | | | | | | | | |n reason kill|n reason kill|n kill|r|n|n|];
    try discriminate Hq; unfold_task Hs; cbn [killing waits ends_teardown] in H1, H3, H4.
  - fold (publication y n) in Hs. destruct (publication y n) eqn:Hp; simplify_eq.
    + constructor; cbn [tearing_down set_publication registry]; [by destruct kill|done| |].
      * intros m Hm. rewrite publication_set. destruct (n =? m); [done|]. by apply H3.
      * intros m Hm. rewrite publication_set. destruct (Nat.eqb_spec n m) as [<-|]; [|by apply H4].
        specialize (H4 n Hm). congruence.
    + constructor; [by destruct kill|done| |by destruct kill].
      intros m. destruct kill; [|by apply H3]. rewrite count_cons, count_nil. cbn [waits].
      destruct (Nat.eqb_spec n m) as [<-|]; [intros _; congruence|apply H3].
    + constructor; [by destruct kill|done| |by destruct kill].
      intros m. destruct kill; [|by apply H3]. rewrite count_cons, count_nil. cbn [waits].
      destruct (Nat.eqb_spec n m) as [<-|]; [intros _; congruence|apply H3].
  - simplify_eq. constructor; [by destruct kill|done|exact H3|exact H4].
  - simplify_eq. constructor; cbn [tearing_down set_publication registry]; [by destruct kill|done| |].
    + intros m Hm. rewrite publication_set. destruct (n =? m); [done|]. apply H3. destruct kill; exact Hm.
    + intros m Hm. rewrite publication_set. destruct (Nat.eqb_spec n m) as [<-|Hne]; [done|]. apply H4.
      destruct kill; [|exact Hm]. rewrite count_cons, count_nil in Hm. cbn [ends_teardown] in Hm.
      rewrite (proj2 (Nat.eqb_neq n m) Hne) in Hm. exact Hm.
  - simplify_eq. assert (∀ z, publication (if exited r then y else reap y (child r)) z = publication y z) as Hp by (by destruct (exited r)).
    constructor; [by destruct (exited r)|by destruct (exited r)|intros m; rewrite Hp; apply H3|intros m; rewrite Hp; apply H4].
  - destruct (is_published y n) eqn:Hp; simplify_eq. apply publication_published in Hp.
    constructor; [exact H1|done| |].
    + intros m Hm. apply H3. change (0 < c (waits m)) in Hm. lia.
    + intros m. rewrite count_cons, count_nil. cbn [ends_teardown]. destruct (Nat.eqb_spec n m) as [<-|]; [done|apply H4].
  - simplify_eq. destruct (tearing_down y); [|cbn in H1; lia].
    constructor; [cbn; lia|done|exact H3|]. intros m Hm. apply H4. change (0 < c (ends_teardown m)) in Hm. lia.
Qed.

Lemma kill_handle y c h : kill_inv y c → kill_inv (handle y h).1 (λ P, count P (handle y h).2 + c P).
Proof.
  intros Hi. destruct h; unfold_handle.
  - destruct (sealed y); [by apply (kill_same _ _ _ _ Hi)|]. destruct (bool_decide _ || _) eqn:Hb; [by apply (kill_same _ _ _ _ Hi)|].
    apply orb_false_iff in Hb as [_ Hb]. destruct Hi as [H1 H2 H3 H4]. constructor; [exact H1| |exact H3|exact H4].
    cbn. by rewrite Hb.
  - destruct (registry y) as [r|] eqn:Hr; [|exact Hi]. destruct (live_stdin r).
    + destruct encodes; [|exact Hi]. apply (kill_same _ _ _ _ Hi); try done.
    + destruct (negb _); [exact Hi|]. destruct (spawning r); [exact Hi|].
      apply (kill_same _ _ _ _ Hi); try done. congruence.
  - destruct (sealed y); [exact Hi|]. destruct (registry y) as [r|] eqn:Hr; [|exact Hi].
    destruct Hi as [H1 H2 H3 H4]. destruct (tearing_down y) eqn:Ht; [by rewrite H2 in Hr|].
    constructor; [|done|exact H3|exact H4]. cbn [fst snd]. rewrite count_cons, count_nil, H1. done.
  - destruct (registry y) as [r|] eqn:Hr; [|exact Hi]. case_bool_decide; [exact Hi|].
    destruct (encodes && _); [|exact Hi]. destruct (stdin r); [|exact Hi].
    apply (kill_same _ _ _ _ Hi); try done. congruence.
  - destruct (registry y) as [r|] eqn:Hr; [|exact Hi]. destruct signals.
    + destruct (exited r); [exact Hi|]. apply (kill_same _ _ _ _ Hi); try done. congruence.
    + destruct (stdin r); [|exact Hi]. match goal with |- context [if ?b then write_line _ _ _ else _] => destruct b end; [|exact Hi]; by apply (kill_same _ _ _ _ Hi); try congruence.
  - destruct (registry y) as [r|] eqn:Hr; [|exact Hi]. destruct (stdin r); [|exact Hi].
    match goal with |- context [if ?b then write_line _ _ _ else _] => destruct b end; [|exact Hi]; by apply (kill_same _ _ _ _ Hi); try congruence.
Qed.

(** ** Permissions *)

Definition is_response (id : str) (l : nat * Line) : bool :=
  match l.2 with Response i => bool_decide (i = id) | _ => false end.
Definition is_request (id : str) (e : JournalEntry) : bool :=
  match e with FromProvider _ (PermissionRequest i _) => bool_decide (i = id) | _ => false end.
Definition journals_request (id : str) (t : Task) : bool :=
  match t with TJournal _ _ (PermissionRequest i _) _ => bool_decide (i = id) | _ => false end.

Definition is_pending (y : Runtime) (id : str) : nat :=
  match registry y with Some r => if bool_decide (id ∈ pending_permissions r) then 1 else 0 | None => 0 end.

(** Every answer on a standard input, and the request that waits, is of a
    request of its own. *)
Definition permission_inv (y : Runtime) (c : Tally) : Prop :=
  ∀ id, count (is_response id) (written y) + is_pending y id
        ≤ count (is_request id) (journal y) + c (journals_request id).

Lemma permission_same y y' (f g : Tally) :
  permission_inv y f → (∀ id, count (is_response id) (written y') = count (is_response id) (written y)) →
  (∀ id, is_pending y' id ≤ is_pending y id) →
  (∀ id, count (is_request id) (journal y) + f (journals_request id)
         ≤ count (is_request id) (journal y') + g (journals_request id)) → permission_inv y' g.
Proof. intros Hi Hw Hp Hj id. specialize (Hi id). specialize (Hw id). specialize (Hp id). specialize (Hj id). lia. Qed.

Lemma is_pending_subset y y' id :
  (∀ r', registry y' = Some r' → ∃ r, registry y = Some r ∧ pending_permissions r' ⊆ pending_permissions r) →
  is_pending y' id ≤ is_pending y id.
Proof.
  unfold is_pending. intros H. destruct (registry y') as [r'|]; [|lia].
  destruct (H r' eq_refl) as (r & -> & Hs). case_bool_decide as H1; [|lia]. rewrite bool_decide_true; [done|set_solver].
Qed.

Definition records (t : Task) : bool := match t with TRecord _ _ _ => true | _ => false end.

Lemma permission_quiet y c t env y' ts :
  records t = false → task_step y t env = Some (y', ts) → permission_inv y (λ P, (if P t then 1 else 0) + c P) →
  permission_inv y' (λ P, count P ts + c P).
Proof.
  intros Hq Hs Hi. apply (permission_same _ _ _ _ Hi); clear Hi.
  - intros id. destruct t; try discriminate Hq; unfold_task Hs; unfold install in Hs; repeat case_match; simplify_eq; try done.
    cbn [written write_line]. rewrite count_app, count_cons, count_nil. cbn. lia.
  - intros id. apply is_pending_subset. destruct t; try discriminate Hq; unfold_task Hs; unfold install in Hs;
      repeat case_match; simplify_eq; cbn [registry append_entry write_line reap set_registry set_completion set_publication];
      intros r' Hr'; simplify_eq; eauto.
    all: match goal with H : own_record _ _ = Some _ |- _ => apply own_record_Some in H as [H _] end.
    all: eexists; (split; [eassumption|done]).
  - intros id. destruct t; try discriminate Hq; unfold_task Hs; unfold install in Hs;
      repeat match type of Hs with context [match ?x with _ => _ end] => destruct x eqn:? end; simplify_eq;
      cbn [journal append_entry write_line reap set_registry set_completion set_publication set_tearing_down];
      rewrite ?count_app, ?count_cons, ?count_nil; cbn [is_request journals_request];
      repeat match goal with |- context [match ?x with _ => _ end] => destruct x end; lia.
Qed.

Lemma permission_record y c n err e env y' ts :
  task_step y (TRecord n err e) env = Some (y', ts) →
  permission_inv y (λ P, (if P (TRecord n err e) then 1 else 0) + c P) →
  permission_inv y' (λ P, count P ts + c P).
Proof.
  unfold task_step, record_step. intros Hs Hi. destruct (own_record y n) as [r|] eqn:Ho; [|by simplify_eq].
  apply own_record_Some in Ho as [Hr _]. unfold record_event in Hs.
  destruct e as [i tool|i|next]; [destruct (_ && _)|..]; simplify_eq; intros id; specialize (Hi id); revert Hi;
    rewrite count_cons, count_nil; unfold is_pending; rewrite Hr;
    cbn [journals_request written journal registry write_line set_registry with_status with_permissions pending_permissions].
  - rewrite count_app, count_cons, count_nil. cbn [is_response snd]. case_bool_decide; lia.
  - intros Hi. destruct (decide (i = id)) as [->|Hne].
    + rewrite (bool_decide_true (id = id)) by done. revert Hi. repeat case_bool_decide; lia.
    + rewrite (bool_decide_false (i = id)) by done.
      rewrite (bool_decide_ext (id ∈ {[i]} ∪ pending_permissions r) (id ∈ pending_permissions r)) by set_solver. lia.
  - intros Hi. assert ((if bool_decide (id ∈ pending_permissions r ∖ {[i]}) then 1 else 0)
                       ≤ (if bool_decide (id ∈ pending_permissions r) then 1 else 0)); [|lia].
    repeat case_bool_decide; set_solver by lia.
  - by destruct next.
Qed.

Lemma is_pending_None y id : registry y = None → is_pending y id = 0.
Proof. unfold is_pending. by intros ->. Qed.

Ltac requests_tally :=
  intros ?; cbn [fst snd journal set_registry write_line draw set_tearing_down];
  rewrite ?count_cons, ?count_nil; cbn [journals_request]; lia.

Lemma permission_handle y c h : permission_inv y c → permission_inv (handle y h).1 (λ P, count P (handle y h).2 + c P).
Proof.
  intros Hi. destruct h; unfold_handle.
  - destruct (sealed y); [exact Hi|]. destruct (bool_decide _ || _) eqn:Hb; [exact Hi|].
    apply (permission_same _ _ _ _ Hi); [done| |requests_tally]. intros id. unfold is_pending. cbn [fst registry set_registry].
    rewrite bool_decide_false; [lia|]. set_solver.
  - destruct (registry y) as [r|] eqn:Hr; [|exact Hi]. destruct (live_stdin r); [by destruct encodes|].
    destruct (negb _); [exact Hi|]. destruct (spawning r); [exact Hi|].
    apply (permission_same _ _ _ _ Hi); [done| |requests_tally]. intros id. unfold is_pending. by rewrite Hr.
  - destruct (sealed y); [exact Hi|]. destruct (registry y) as [r|] eqn:Hr; [|exact Hi].
    apply (permission_same _ _ _ _ Hi); [done| |requests_tally]. intros id. rewrite is_pending_None by done. lia.
  - destruct (registry y) as [r|] eqn:Hr; [|exact Hi]. destruct (bool_decide (request_id ∉ _)) eqn:Hp; [exact Hi|].
    apply bool_decide_eq_false, dec_stable in Hp.
    destruct (encodes && _); [|exact Hi]. destruct (stdin r); [|exact Hi].
    intros id. specialize (Hi id). revert Hi. unfold is_pending. rewrite Hr.
    cbn [fst snd written journal registry write_line set_registry with_status with_permissions pending_permissions].
    rewrite count_app, !count_cons, !count_nil. cbn [is_response snd journals_request].
    destruct (decide (request_id = id)) as [->|Hne].
    + rewrite (bool_decide_true (id = id)), (bool_decide_true (id ∈ pending_permissions r)) by done.
      rewrite bool_decide_false by set_solver. lia.
    + rewrite (bool_decide_false (request_id = id)) by done.
      rewrite (bool_decide_ext (id ∈ pending_permissions r ∖ {[request_id]}) (id ∈ pending_permissions r)) by set_solver. lia.
  - destruct (registry y) as [r|] eqn:Hr; [|exact Hi]. destruct signals.
    + destruct (exited r); [exact Hi|]. apply (permission_same _ _ _ _ Hi); [done| |requests_tally]. intros id. unfold is_pending. by rewrite Hr.
    + destruct (stdin r); [|exact Hi]. match goal with |- context [if ?b then write_line _ _ _ else _] => destruct b end; [|exact Hi].
      apply (permission_same _ _ _ _ Hi); [|done|requests_tally]. intros id. cbn [fst written write_line]. rewrite count_app, count_cons, count_nil. cbn [is_response snd]. lia.
  - destruct (registry y) as [r|] eqn:Hr; [|exact Hi]. destruct (stdin r); [|exact Hi].
    match goal with |- context [if ?b then write_line _ _ _ else _] => destruct b end; [|exact Hi].
    apply (permission_same _ _ _ _ Hi); [|done|requests_tally]. intros id. cbn [fst written write_line]. rewrite count_app, count_cons, count_nil. cbn [is_response snd]. lia.
Qed.

(** ** What holds of every run *)

Definition core_inv (y : Runtime) (c : Tally) : Prop := lives_inv y c ∧ lines_inv y ∧ children_inv y c.

Lemma core_inv_step w w' :
  core_inv (runtime w) (λ P, count P (tasks w)) → world_step w w' →
  core_inv (runtime w') (λ P, count P (tasks w')).
Proof.
  apply invariant_by_counting; clear w w'.
  - intros y f g Hfg (H1 & H2 & (H3 & H4 & H5)). split; [|split; [done|split; [by rewrite <- Hfg|split; [done|]]]].
    + destruct H1 as [H1 H1']. constructor; [intros r Hr; eapply record_ok_ext; eauto|intros n; eapply life_ok_ext; eauto].
    + intros x Hx. rewrite <- Hfg. by apply H5.
  - intros y k h (H1 & H2 & H3). split; [|split]; [apply lives_handle; [apply monotone_count|done]|apply lines_handle; exact H2|exact (children_handle _ _ h H1 H3)].
  - intros y k t env y' ts Hs (H1 & H2 & H3). split; [|split; [exact (lines_step _ (λ P, count P k) _ _ _ _ H1 Hs H2)|]].
    + destruct (quiet t) eqn:Hq; [by eapply (lives_quiet _ _ t)|eapply (lives_step _ _ t); [done|apply monotone_count|done|done]].
    + destruct (childless t) eqn:Hq; [by eapply (children_quiet _ _ t)|by eapply (children_step _ _ t)].
  - intros y c on (H1 & H2 & H3). split; [|split; [exact H2|exact H3]]. destruct H1 as [H1 H1'].
    constructor; [exact H1|]. intros n. destruct (H1' n). by constructor.
  - intros y c (H1 & H2 & H3). split; [by apply lives_draw|split; [exact H2|exact H3]].
Qed.

Lemma kill_inv_step w w' :
  kill_inv (runtime w) (λ P, count P (tasks w)) → world_step w w' → kill_inv (runtime w') (λ P, count P (tasks w')).
Proof.
  apply invariant_by_counting; clear w w'.
  - intros y f g Hfg Hi. apply (kill_same _ _ _ _ Hi); try done; intros; by rewrite Hfg.
  - intros y k h. apply kill_handle.
  - intros y k t env y' ts Hs. by eapply kill_step.
  - intros y c on Hi. by apply (kill_same _ _ _ _ Hi).
  - intros y c Hi. by apply (kill_same _ _ _ _ Hi).
Qed.

Lemma permission_inv_step w w' :
  permission_inv (runtime w) (λ P, count P (tasks w)) → world_step w w' →
  permission_inv (runtime w') (λ P, count P (tasks w')).
Proof.
  apply invariant_by_counting; clear w w'.
  - intros y f g Hfg Hi id. rewrite <- Hfg. apply Hi.
  - intros y k h. apply permission_handle.
  - intros y k t env y' ts Hs. destruct (records t) eqn:Hr; [|by eapply permission_quiet].
    destruct t; try discriminate Hr. by eapply permission_record.
  - intros y c on Hi. exact Hi.
  - intros y c Hi. exact Hi.
Qed.

Lemma core_reachable w : reachable world_step initial_world w → core_inv (runtime w) (λ P, count P (tasks w)).
Proof.
  apply (reachable_invariant world_step (λ w, core_inv (runtime w) (λ P, count P (tasks w)))); [|intros ? ?; apply core_inv_step].
  split; [constructor; [done|]|split; [by intros x n Hx%not_elem_of_nil|split_and!; [done|done|by intros x Hx%not_elem_of_nil]]].
  intros n. constructor; cbn; rewrite ?count_nil; try done; lia.
Qed.

Lemma exit_reachable w : reachable world_step initial_world w → exit_inv (runtime w) (λ P, count P (tasks w)).
Proof. apply (reachable_invariant world_step (λ w, exit_inv (runtime w) (λ P, count P (tasks w)))); [by intros n|intros ? ?; apply exit_inv_step]. Qed.

Lemma kill_reachable w : reachable world_step initial_world w → kill_inv (runtime w) (λ P, count P (tasks w)).
Proof.
  apply (reachable_invariant world_step (λ w, kill_inv (runtime w) (λ P, count P (tasks w)))); [|intros ? ?; apply kill_inv_step].
  constructor; try done; intros n; cbn; lia.
Qed.

Lemma permission_reachable w : reachable world_step initial_world w → permission_inv (runtime w) (λ P, count P (tasks w)).
Proof. apply (reachable_invariant world_step (λ w, permission_inv (runtime w) (λ P, count P (tasks w)))); [|intros ? ?; apply permission_inv_step]. intros id. unfold is_pending. cbn. lia. Qed.

(** C4: input reaches the child it was meant for.  However handlers, readers,
    kills and respawns interleave, a line of input that is on a child's standard
    input was planned for the incarnation that child was spawned for. *)
Theorem input_reaches_its_own_child w x n :
  reachable world_step initial_world w → (x, InputLine n) ∈ written (runtime w) → x = n.
Proof. intros Hr. apply (core_reachable w Hr). Qed.

(** C7: no child is lost.  Every child ever spawned is the one in the session's
    record, or with a task that is about to install it or hand it to the reaper,
    or has been handed over. *)
Theorem no_child_is_lost w x :
  reachable world_step initial_world w → x ∈ forked (runtime w) →
  x ∈ reaping (runtime w) ∨ (∃ r, registry (runtime w) = Some r ∧ child r = Some x)
  ∨ ∃ t, t ∈ tasks w ∧ holding x t = true.
Proof.
  intros Hr%core_reachable Hx. destruct Hr as (_ & _ & _ & _ & H). destruct (H x Hx) as [?|[?|Hh]]; [by left|by right; left|].
  right. right. apply count_pos in Hh as (t & Ht & Hp). by exists t.
Qed.

(** A reserved id is never stuck: a record that waits for a child has a task
    that will install it or give the reservation up. *)
Theorem reservation_has_its_spawner w r :
  reachable world_step initial_world w → registry (runtime w) = Some r → spawning r = true →
  ∃ t, t ∈ tasks w ∧ spawning_for (incarnation r) t = true.
Proof.
  intros Hr%core_reachable Hreg Hs. destruct Hr as ([H1 _] & _ & _).
  pose proof (ro_spawning _ _ _ (H1 r Hreg) Hs) as Hp. by apply count_pos in Hp.
Qed.

(** C6: each incarnation's exit is published at most once, whoever claims it, and
    is journaled first. *)
Theorem exit_is_published_once w n :
  reachable world_step initial_world w →
  count (Nat.eqb n) (exits (runtime w)) ≤ count (is_end n) (journal (runtime w)) ≤ 1.
Proof.
  intros Hr%exit_reachable. specialize (Hr n). cbn in Hr. unfold exit_at in Hr. destruct (publication _ n); lia.
Qed.

(** C31: a kill that is over has ended its session: the exit of the incarnation it
    removed is journaled and broadcast; one that waits has somebody to wait for;
    and until it is over nobody takes the id. *)
Theorem kill_ends_the_session w n :
  reachable world_step initial_world w →
  (TEndTeardown n ∈ tasks w →
   count (is_end n) (journal (runtime w)) = 1 ∧ count (Nat.eqb n) (exits (runtime w)) = 1)
  ∧ (TWait n ∈ tasks w → is_published (runtime w) n = true ∨ ∃ t, t ∈ tasks w ∧ (ends n t || completes n t) = true)
  ∧ (∀ t, t ∈ tasks w → killing t = true → registry (runtime w) = None).
Proof.
  intros Hr. pose proof (exit_reachable w Hr n) as He. destruct (kill_reachable w Hr) as [H1 H2 H3 H4].
  cbn in He. unfold exit_at in He. split_and!.
  - intros Hin. assert (0 < count (ends_teardown n) (tasks w)) as Hc.
    { apply count_pos. eexists. split; [exact Hin|]. apply Nat.eqb_refl. }
    rewrite (H4 n Hc) in He. lia.
  - intros Hin. assert (0 < count (waits n) (tasks w)) as Hc.
    { apply count_pos. eexists. split; [exact Hin|]. apply Nat.eqb_refl. }
    specialize (H3 n Hc). destruct (publication (runtime w) n) eqn:Hp; [done| |].
    + right. destruct He as [He _].
      destruct (decide (0 < count (ends n) (tasks w))) as [Ht|Ht].
      * apply count_pos in Ht as (t & Ht & Hx). exists t. by rewrite Hx.
      * assert (0 < count (completes n) (tasks w)) as Ht' by lia.
        apply count_pos in Ht' as (t & Ht' & Hx). exists t. by rewrite Hx, orb_true_r.
    + left. unfold publication, is_published in *. by destruct (publications (runtime w) !! n) as [[]|].
  - intros t Ht Hk. apply H2. destruct (tearing_down (runtime w)); [done|].
    assert (0 < count killing (tasks w)) as Hc by (apply count_pos; eauto). lia.
Qed.

(** A permission request is answered at most once: the answers on standard
    inputs, by clients and on the spot, are no more than the requests read. *)
Theorem permission_is_answered_once w id :
  reachable world_step initial_world w →
  count (is_response id) (written (runtime w))
  ≤ count (is_request id) (journal (runtime w)) + count (journals_request id) (tasks w).
Proof. intros Hr%permission_reachable. specialize (Hr id). cbn in Hr. lia. Qed.

(** What is left of a record. *)
Definition left_alone (y y' : Runtime) (r : AgentSessionRecord) : Prop :=
  ∃ r', registry y' = Some r' ∧ reservation_is_initial r' = reservation_is_initial r
    ∧ (child r' = child r ∨ child r' = None)
    ∧ ∀ n, is_installed (completions y') n → is_installed (completions y) n.

Lemma sealed_handle y h r : sealed y = true → registry y = Some r → left_alone y (handle y h).1 r.
Proof.
  intros Hse Hr. destruct h; unfold_handle; rewrite ?Hse, ?Hr; repeat case_match; cbn [fst];
    (eexists; split; [first [exact Hr|done]|split_and!; auto]).
Qed.

Lemma step_when_sealed y t env y' ts r c :
  lives_inv y (λ P, (if P t then 1 else 0) + c P) → sealed y = true → registry y = Some r →
  reservation_is_initial r = false → task_step y t env = Some (y', ts) → left_alone y y' r.
Proof.
  intros [H1 H2] Hse Hr Hin Hs.
  assert (∀ n r0, own_record y n = Some r0 → r0 = r ∧ incarnation r = n) as Hown.
  { intros n r0 [Hr0 Hn]%own_record_Some. split; congruence. }
  destruct t; unfold_task Hs; unfold install in Hs; rewrite ?Hse in Hs;
    repeat match type of Hs with
      | context [record_event _ _ _ _] => fail 1
      | context [own_record ?y ?n] => destruct (own_record y n) as [?r0|] eqn:Ho
      | context [match ?x with _ => _ end] => destruct x eqn:?
      end; simplify_eq;
    repeat match goal with H : own_record _ _ = Some _ |- _ => apply Hown in H as [-> <-] end;
    try congruence; try (eexists; split; [first [exact Hr|done]|by split_and!; auto]; fail).
  - pose proof (ro_initial _ _ _ (H1 r Hr)) as Hx. cbn in Hx. rewrite Nat.eqb_refl in Hx. specialize (Hx ltac:(cbn; lia)). congruence.
  - destruct (own_record y n) as [r0|] eqn:Ho; [|simplify_eq; exists r; split_and!; auto].
    apply Hown in Ho as [-> _]. destruct (record_event y r env e) as [y1 auto] eqn:He. injection Hs as <- _.
    pose proof (record_event_completions _ _ _ _ _ _ He) as Hcm.
    apply record_event_frame in He as (_ & _ & r1 & Hr1 & Hc1 & Hi1).
    exists r1. split_and!; auto. intros m Hm. by rewrite ?Hcm in *.
  - eexists. split; [exact Hr|]. split_and!; auto. intros m. cbn [completions set_completion]. rewrite is_installed_insert.
    destruct (Nat.eqb_spec n m) as [->|]; [|done]. intros _. rewrite (lo_installed _ _ _ (H2 m)); [done|].
    cbn. rewrite Nat.eqb_refl. lia.
  - eexists. split; [exact Hr|]. split_and!; auto. intros m. cbn [completions set_completion]. rewrite is_installed_insert.
    destruct (Nat.eqb_spec n m) as [->|]; [|done]. intros _. rewrite (lo_installed _ _ _ (H2 m)); [done|].
    cbn. rewrite Nat.eqb_refl. lia.
Qed.

(** What a successor was sent stays true.  While the registry is sealed no
    step removes a session that has had a child, puts a child into it, or starts
    readers. *)
Theorem sealed_session_is_left_alone w a w' r :
  reachable world_step initial_world w → sealed (runtime w) = true →
  registry (runtime w) = Some r → reservation_is_initial r = false →
  next_world w a = Some w' → left_alone (runtime w) (runtime w') r.
Proof.
  intros Hr%core_reachable Hse Hreg Hin Hs. destruct Hr as (Hi & _ & _).
  destruct a as [h|i env|on|]; cbn in Hs.
  - pose proof (sealed_handle _ h _ Hse Hreg) as Hl. destruct (handle (runtime w) h) as [y ts]. by injection Hs as <-.
  - destruct (tasks w !! i) as [t|] eqn:Ht; [|done]. cbn in Hs.
    destruct (task_step (runtime w) t env) as [[y ts]|] eqn:Hstep; [|done]. injection Hs as <-. cbn.
    eapply (step_when_sealed _ _ _ _ _ _ (λ P, count P (delete i (tasks w)))); try done.
    destruct Hi as [H1 H2]. assert (∀ P, count P (tasks w) = (if P t then 1 else 0) + count P (delete i (tasks w))) as Hc by (intros P; by apply count_delete).
    constructor; [intros r0 Hr0; eapply record_ok_ext; [exact Hc|by apply H1]|intros n; eapply life_ok_ext; [exact Hc|by apply H2]].
  - injection Hs as <-. exists r. cbn. auto.
  - injection Hs as <-. exists r. cbn. auto.
Qed.

(** ** Runs *)

(** A reader's line, or a call that succeeds. *)
Definition yes : StepEnv := mkStepEnv None true 0 true.
Definition reads (e : AgentEvent) : StepEnv := mkStepEnv (Some e) true 0 true.
Definition step (i : nat) : RuntimeAction := AStep i yes.

Definition run (actions : list RuntimeAction) : World := default initial_world (exec next_world initial_world actions).

Lemma runs_reachable actions w : exec next_world initial_world actions = Some w → reachable world_step initial_world w.
Proof. intros H. eapply (exec_reachable next_world); [constructor|exact H]. Qed.

(** A session is spawned, its child reports an id and asks for a permission, an
    input is planned. *)
Definition spawned_run : list RuntimeAction :=
  [AHandle (HSpawn Persistent); step 0; step 0; step 0;
   AStep 0 (reads (PermissionRequest (lit "r") (lit "Bash"))); step 0; step 0; step 0;
   AHandle (HInput true)].

(** The input is written; a kill comes before it is journaled. *)
Definition killed_run : list RuntimeAction :=
  spawned_run ++ [step 0; AHandle HKill; step 0; step 0; step 0; step 0].

Lemma ran actions :
  exec next_world initial_world actions = Some (run actions) → reachable world_step initial_world (run actions).
Proof. apply runs_reachable. Qed.

Lemma input_reaches_its_own_child_witness :
  (1, InputLine 1) ∈ written (runtime (run killed_run)) ∧ 1 = 1.
Proof.
  assert ((1, InputLine 1) ∈ written (runtime (run killed_run))) as H by (vm_compute; left).
  split; [exact H|]. refine (input_reaches_its_own_child (run killed_run) 1 1 (ran _ _) H). vm_compute. reflexivity.
Defined.

Lemma no_child_is_lost_witness :
  1 ∈ forked (runtime (run killed_run)) ∧
  (1 ∈ reaping (runtime (run killed_run)) ∨ (∃ r, registry (runtime (run killed_run)) = Some r ∧ child r = Some 1)
  ∨ ∃ t, t ∈ tasks (run killed_run) ∧ holding 1 t = true).
Proof.
  assert (1 ∈ forked (runtime (run killed_run))) as H by (vm_compute; left).
  split; [exact H|]. refine (no_child_is_lost (run killed_run) 1 (ran _ _) H). vm_compute. reflexivity.
Defined.

(** A child of a per-turn provider has ended and an input has reserved the id
    again. *)
Definition respawning_run : list RuntimeAction :=
  [AHandle (HSpawn PerTurn); step 0; step 0; step 0; AStep 0 (reads (OtherEvent None));
   step 0; AStep 0 (reads (OtherEvent None)); step 0;
   step 0; step 0; step 0; step 0; step 0; step 0; AHandle (HInput true)].

Lemma reservation_has_its_spawner_witness :
  ∃ r, registry (runtime (run respawning_run)) = Some r ∧ spawning r = true
    ∧ ∃ t, t ∈ tasks (run respawning_run) ∧ spawning_for (incarnation r) t = true.
Proof.
  destruct (registry (runtime (run respawning_run))) as [r|] eqn:Hr; [|vm_compute in Hr; discriminate Hr].
  assert (spawning r = true) as Hs by (vm_compute in Hr; injection Hr as <-; reflexivity).
  exists r. split; [reflexivity|]. split; [exact Hs|].
  refine (reservation_has_its_spawner (run respawning_run) r (ran _ _) Hr Hs). vm_compute. reflexivity.
Defined.

Lemma exit_is_published_once_witness :
  count (Nat.eqb 1) (exits (runtime (run killed_run))) ≤ count (is_end 1) (journal (runtime (run killed_run))) ≤ 1
  ∧ exits (runtime (run killed_run)) = [1].
Proof.
  split; [refine (exit_is_published_once (run killed_run) 1 (ran _ _)); vm_compute; reflexivity|vm_compute; reflexivity].
Defined.

Lemma kill_ends_the_session_witness :
  TEndTeardown 1 ∈ tasks (run killed_run) ∧ count (is_end 1) (journal (runtime (run killed_run))) = 1.
Proof.
  assert (TEndTeardown 1 ∈ tasks (run killed_run)) as H by (vm_compute; left).
  split; [exact H|].
  refine (proj1 (proj1 (kill_ends_the_session (run killed_run) 1 (ran _ _)) H)). vm_compute. reflexivity.
Defined.

Lemma permission_is_answered_once_witness :
  count (is_response (lit "r")) (written (runtime (run (spawned_run ++ [AHandle (HPermission (lit "r") true true true)])))) = 1
  ∧ 1 ≤ count (is_request (lit "r")) (journal (runtime (run (spawned_run ++ [AHandle (HPermission (lit "r") true true true)]))))
        + count (journals_request (lit "r")) (tasks (run (spawned_run ++ [AHandle (HPermission (lit "r") true true true)]))).
Proof.
  split; [vm_compute; reflexivity|].
  refine (permission_is_answered_once (run (spawned_run ++ [AHandle (HPermission (lit "r") true true true)])) (lit "r") (ran _ _)).
  vm_compute. reflexivity.
Defined.

Lemma sealed_session_is_left_alone_witness :
  ∃ r w', registry (runtime (run (spawned_run ++ [ASeal true]))) = Some r
    ∧ next_world (run (spawned_run ++ [ASeal true])) (AHandle HKill) = Some w'
    ∧ left_alone (runtime (run (spawned_run ++ [ASeal true]))) (runtime w') r.
Proof.
  destruct (registry (runtime (run (spawned_run ++ [ASeal true])))) as [r|] eqn:Hr; [|vm_compute in Hr; discriminate Hr].
  destruct (next_world (run (spawned_run ++ [ASeal true])) (AHandle HKill)) as [w'|] eqn:Hn; [|vm_compute in Hn; discriminate Hn].
  exists r, w'. split; [reflexivity|]. split; [reflexivity|].
  refine (sealed_session_is_left_alone _ (AHandle HKill) _ _ (ran _ _) _ Hr _ Hn).
  - vm_compute. reflexivity.
  - vm_compute. reflexivity.
  - vm_compute in Hr. injection Hr as <-. reflexivity.
Defined.

(** ** What the model shows beside *)

(** The first prompt of a spawn is journaled after the registry lock is given
    up: of a spawn that was killed in between it lands in the transcript of the
    session that took the id since, although it never reaches a child there. *)
Definition first_prompt_late : list RuntimeAction :=
  [AHandle (HSpawn Persistent); AHandle HKill; step 0; step 0; step 0; step 0; step 0;
   AHandle (HSpawn Persistent); step 0; step 1].

Lemma killed_prompt_joins_the_next_transcript :
  journal (runtime (run first_prompt_late)) = [SessionEnded 1 Interrupted; UserMessage 2; UserMessage 1]
  ∧ (incarnation <$> registry (runtime (run first_prompt_late))) = Some 2.
Proof. vm_compute. by split. Qed.

(** A spawn that is refused because of the handoff seal has journaled its
    prompt; the retry journals it again. *)
Lemma refused_prompt_stays :
  journal (runtime (run [AHandle (HSpawn Persistent); step 0; ASeal true; step 0; step 0])) = [UserMessage 1]
  ∧ registry (runtime (run [AHandle (HSpawn Persistent); step 0; ASeal true; step 0; step 0])) = None.
Proof. vm_compute. by split. Qed.

(** A request that a child left open is still open for its successor, and the
    answer is written to the successor, which never asked. *)
Definition respawned_after_crash : list RuntimeAction :=
  [AHandle (HSpawn Persistent); step 0; step 0; step 0;
   AStep 0 (reads (PermissionRequest (lit "r") (lit "Bash"))); step 0; step 0; step 0;
   AStep 0 (mkStepEnv None true 1 true); step 0; AStep 0 (mkStepEnv None true 1 true); step 0; step 0;
   AStep 0 yes; step 0; step 0; step 0; step 0;
   AHandle (HInput true); step 0; step 0; step 0;
   AHandle (HPermission (lit "r") false true true)].

Lemma answer_reaches_a_child_that_never_asked :
  written (runtime (run respawned_after_crash)) = [(2, Response (lit "r"))]
  ∧ count (is_request (lit "r")) (journal (runtime (run respawned_after_crash))) = 1
  ∧ FromProvider 1 (PermissionRequest (lit "r") (lit "Bash")) ∈ journal (runtime (run respawned_after_crash)).
Proof. split_and!; [vm_compute; reflexivity|vm_compute; reflexivity|]. vm_compute. right. left. Qed.

(** An interrupt marks the session before it signals; when the signal is
    refused, and the client told so, a later crash passes for an
    interruption. *)
Definition refused_interrupt : list RuntimeAction :=
  [AHandle (HSpawn Persistent); step 0; step 0; step 0; AHandle (HInterrupt true false);
   AStep 0 (mkStepEnv None true 1 true); step 0; AStep 0 (mkStepEnv None true 1 true); step 0; step 0;
   AStep 0 (mkStepEnv None true 1 true); step 0; step 0; step 0; step 0; step 0].

Lemma refused_interrupt_hides_a_crash :
  journal (runtime (run refused_interrupt)) = [UserMessage 1; SessionEnded 1 Interrupted]
  ∧ written (runtime (run refused_interrupt)) = [].
Proof. vm_compute. by split. Qed.
