(* ===== verification/Fanout.v ===== *)
(** * Lag-aware terminal fanout ([crates/daemon/src/fanout.rs])

    Every subscriber owns a mailbox with byte accounting that is shared with
    the task that writes it to the client's socket, so mailboxes live in a
    store under their registration number and the registry's lists hold
    numbers.  Registry operations run under the fanout lock and are one step;
    a writer task takes a line, acquires the socket's lock and checks for
    cancellation, and finishes the write, as three steps that interleave with
    everything else. *)

From S2P Require Import Prelude RustStd.

Definition RegId := nat.
Definition WriterId := nat.

#[export] Instance RegId_eq_dec : EqDecision RegId := _ : EqDecision nat.
#[export] Instance RegId_countable : Countable RegId := _ : Countable nat.
#[export] Instance WriterId_eq_dec : EqDecision WriterId := _ : EqDecision nat.
#[export] Instance WriterId_countable : Countable WriterId := _ : Countable nat.

Inductive SubscriberKind := Attached | Observer.

#[export] Instance SubscriberKind_eq_dec : EqDecision SubscriberKind.
Proof. solve_decision. Defined.

Definition SUBSCRIBER_MAILBOX_MAX_BYTES : nat := 8 * 1024 * 1024.

(** A serialized event line; its length is what the budget counts. *)
Abbreviation Line := (list Z) (only parsing).

(** A registration's mailbox and flags.  [flight] is the line its task has
    taken and not finished; [closed] that the task has ended.  The last four
    fields are history: every line ever queued, the batch of the last
    synchronization, the number of lines that had been broadcast at it, and
    the bytes of a final event. *)
Record Mailbox := mkBox {
  writer_id : WriterId;
  kind : SubscriberKind;
  queue : list Line;
  flight : option Line;
  pending_bytes : Z;
  lagged : bool;
  cancelled : bool;
  closed : bool;
  lagged_since : option Z;
  sent : list Line;
  batch : list Line;
  synced_at : nat;
  final_bytes : nat
}.

Record Socket := mkSocket {
  holder : option RegId;
  log : list (RegId * Line)
}.

Record FanoutState := mkFanout {
  budget : nat;
  attached : list RegId;
  observers : list RegId;
  boxes : gmap RegId Mailbox;
  next_reg : RegId;
  notified : bool;
  streaming : bool;
  sockets : gmap WriterId Socket;
  broadcast : list Line;
  finished : bool
}.

Definition new_fanout (limit : nat) : FanoutState :=
  mkFanout limit [] [] ∅ 0 false false ∅ [] false.

Definition socket (f : FanoutState) (w : WriterId) : Socket :=
  default (mkSocket None []) (sockets f !! w).

(** ** Mailboxes *)

(** [Subscriber::enqueue]: the count is undone when the send fails. *)
Definition box_enqueue (b : Mailbox) (line : Line) : Mailbox * bool :=
  if closed b then (b, false)
  else
    (mkBox (writer_id b) (kind b) (queue b ++ [line]) (flight b)
       (pending_bytes b + Z.of_nat (length line))%Z (lagged b) (cancelled b) (closed b)
       (lagged_since b) (sent b ++ [line]) (batch b) (synced_at b) (final_bytes b), true).

Definition cancel (b : Mailbox) : Mailbox :=
  mkBox (writer_id b) (kind b) (queue b) (flight b) (pending_bytes b) (lagged b) true (closed b)
    (lagged_since b) (sent b) (batch b) (synced_at b) (final_bytes b).

Definition set_lag (b : Mailbox) (flag : bool) (since : option Z) : Mailbox :=
  mkBox (writer_id b) (kind b) (queue b) (flight b) (pending_bytes b) flag (cancelled b) (closed b)
    since (sent b) (batch b) (synced_at b) (final_bytes b).

Definition mark_synced (b : Mailbox) (lines : list Line) (at_ : nat) : Mailbox :=
  mkBox (writer_id b) (kind b) (queue b) (flight b) (pending_bytes b) (lagged b) (cancelled b)
    (closed b) (lagged_since b) (sent b) lines at_ (final_bytes b).

(** [lines.iter().try_for_each(|line| enqueue(line))] *)
Fixpoint box_enqueue_all (b : Mailbox) (lines : list Line) : Mailbox * bool :=
  match lines with
  | [] => (b, true)
  | line :: rest =>
      let '(b, ok) := box_enqueue b line in
      if ok then box_enqueue_all b rest else (b, false)
  end.

(** ** Registry *)

Definition list_of (f : FanoutState) (k : SubscriberKind) : list RegId :=
  match k with Attached => attached f | Observer => observers f end.

Definition set_list (f : FanoutState) (k : SubscriberKind) (l : list RegId) : FanoutState :=
  match k with
  | Attached => mkFanout (budget f) l (observers f) (boxes f) (next_reg f) (notified f) (streaming f) (sockets f)
                  (broadcast f) (finished f)
  | Observer => mkFanout (budget f) (attached f) l (boxes f) (next_reg f) (notified f) (streaming f) (sockets f)
                  (broadcast f) (finished f)
  end.

Definition set_boxes (f : FanoutState) (bs : gmap RegId Mailbox) : FanoutState :=
  mkFanout (budget f) (attached f) (observers f) bs (next_reg f) (notified f) (streaming f) (sockets f)
    (broadcast f) (finished f).

(** [list.retain]: cancels and drops the registrations of [w]. *)
Fixpoint cancel_and_remove (l : list RegId) (w : WriterId) (bs : gmap RegId Mailbox)
    : list RegId * gmap RegId Mailbox :=
  match l with
  | [] => ([], bs)
  | r :: rest =>
      match bs !! r with
      | Some b =>
          if bool_decide (writer_id b = w) then cancel_and_remove rest w (<[r := cancel b]> bs)
          else let '(rest, bs) := cancel_and_remove rest w bs in (r :: rest, bs)
      | None => let '(rest, bs) := cancel_and_remove rest w bs in (r :: rest, bs)
      end
  end.

Definition new_box (w : WriterId) (k : SubscriberKind) : Mailbox :=
  mkBox w k [] None 0 false false false None [] [] 0 0.

Definition remove (f : FanoutState) (k : SubscriberKind) (w : WriterId) : FanoutState :=
  let '(l, bs) := cancel_and_remove (list_of f k) w (boxes f) in
  set_list (set_boxes f bs) k l.

Definition remove_writer_everywhere (f : FanoutState) (w : WriterId) : FanoutState :=
  remove (remove f Attached w) Observer w.

(** [register]: [initial] are the serialized initial events. *)
Definition register (f : FanoutState) (k : SubscriberKind) (w : WriterId) (initial : list Line)
    : FanoutState :=
  let f := remove f k w in
  let r := next_reg f in
  let b := mark_synced (box_enqueue_all (new_box w k) initial).1 initial (length (broadcast f)) in
  let f := set_list f k (list_of f k ++ [r]) in
  mkFanout (budget f) (attached f) (observers f) (<[r := b]> (boxes f)) (S r) (notified f) (streaming f)
    (sockets f) (broadcast f) (finished f).

(** One subscriber's share of [enqueue_to_list]: what its mailbox becomes
    ([None] when it is dropped from the list) and whether it is ready for a
    resync. *)
Definition enqueue_one (limit : nat) (now : Z) (line : Line) (b : Mailbox)
    : option Mailbox * bool :=
  if closed b then (None, false)
  else match lagged_since b with
       | Some _ => (Some b, bool_decide (pending_bytes b = 0%Z))
       | None =>
           if bool_decide (Z.of_nat limit < pending_bytes b + Z.of_nat (length line))%Z
           then (Some (set_lag b true (Some now)), bool_decide (pending_bytes b = 0%Z))
           else
             let '(b, ok) := box_enqueue b line in
             (if ok then Some b else None, false)
       end.

Fixpoint enqueue_to_list (l : list RegId) (line : Line) (limit : nat) (now : Z)
    (bs : gmap RegId Mailbox) (ready : bool) : list RegId * gmap RegId Mailbox * bool :=
  match l with
  | [] => ([], bs, ready)
  | r :: rest =>
      match bs !! r with
      | None => enqueue_to_list rest line limit now bs ready
      | Some b =>
          match enqueue_one limit now line b with
          | (None, _) => enqueue_to_list rest line limit now bs ready
          | (Some b, drained) =>
              let '(kept, bs, ready) :=
                enqueue_to_list rest line limit now (<[r := b]> bs) (ready || drained) in
              (r :: kept, bs, ready)
          end
      end
  end.

Definition enqueue (f : FanoutState) (line : Line) (now : Z) : FanoutState * bool :=
  let '(att, bs, ready) := enqueue_to_list (attached f) line (budget f) now (boxes f) false in
  let '(obs, bs, ready) := enqueue_to_list (observers f) line (budget f) now bs ready in
  (mkFanout (budget f) att obs bs (next_reg f) (notified f) (streaming f) (sockets f) (broadcast f ++ [line])
     (finished f), ready).

(** [has_drained_lagged]'s test of one subscriber. *)
Definition drained_lagged (b : Mailbox) : bool :=
  match lagged_since b with Some _ => bool_decide (pending_bytes b = 0%Z) | None => false end.

Definition has_drained_lagged (f : FanoutState) : bool :=
  existsb (λ r, match boxes f !! r with Some b => drained_lagged b | None => false end)
    (attached f ++ observers f).

(** One subscriber's share of [resync_drained]. *)
Definition resync_one (lines : list Line) (at_ : nat) (b : Mailbox) : Mailbox :=
  if drained_lagged b then
    let '(b', ok) := box_enqueue_all b lines in
    if ok then set_lag (mark_synced b' lines at_) false None else b'
  else b.

Fixpoint resync_list (l : list RegId) (lines : list Line) (at_ : nat) (bs : gmap RegId Mailbox)
    : gmap RegId Mailbox :=
  match l with
  | [] => bs
  | r :: rest => resync_list rest lines at_ (alter (resync_one lines at_) r bs)
  end.

Definition resync_drained (f : FanoutState) (lines : list Line) : FanoutState :=
  match lines with
  | [] => f
  | _ => set_boxes f (resync_list (attached f ++ observers f) lines (length (broadcast f)) (boxes f))
  end.

(** [disconnect]: the task is aborted; what it held is gone. *)
Definition abort (b : Mailbox) : Mailbox :=
  mkBox (writer_id b) (kind b) [] None (pending_bytes b) (lagged b) (cancelled b) true
    (lagged_since b) (sent b) (batch b) (synced_at b) (final_bytes b).

Definition final_one (line : Line) (b : Mailbox) : Mailbox :=
  match lagged_since b with
  | Some _ => abort b
  | None =>
      let '(b', ok) := box_enqueue b line in
      if ok then
        mkBox (writer_id b') (kind b') (queue b') (flight b') (pending_bytes b') (lagged b')
          (cancelled b') (closed b') (lagged_since b') (sent b') (batch b') (synced_at b')
          (length line)
      else abort b'
  end.

(** [deliver_final]; callers drop the registry after it. *)
Definition deliver_final (f : FanoutState) (line : Line) : FanoutState :=
  mkFanout (budget f) [] []
    (foldr (λ r, alter (final_one line) r) (boxes f) (attached f ++ observers f))
    (next_reg f) (notified f) (streaming f) (sockets f) (broadcast f) true.

(** ** Writer tasks *)

Definition set_socket (f : FanoutState) (w : WriterId) (s : Socket) : FanoutState :=
  mkFanout (budget f) (attached f) (observers f) (boxes f) (next_reg f) (notified f) (streaming f)
    (<[w := s]> (sockets f)) (broadcast f) (finished f).

Definition set_notified (f : FanoutState) (n : bool) : FanoutState :=
  mkFanout (budget f) (attached f) (observers f) (boxes f) (next_reg f) n (streaming f) (sockets f) (broadcast f)
    (finished f).

(** [rx.recv()] *)
Definition task_recv (f : FanoutState) (r : RegId) : option FanoutState :=
  b ← boxes f !! r;
  match closed b, flight b, queue b with
  | false, None, line :: rest =>
      Some (set_boxes f (<[r := mkBox (writer_id b) (kind b) rest (Some line) (pending_bytes b)
                                  (lagged b) (cancelled b) (closed b) (lagged_since b) (sent b)
                                  (batch b) (synced_at b) (final_bytes b)]> (boxes f)))
  | _, _, _ => None
  end.

(** The end of a line: the count goes down; [ended] is the task's [return],
    which drops the receiver and what is queued in it. *)
Definition task_done (b : Mailbox) (line : Line) (ended : bool) : Mailbox :=
  mkBox (writer_id b) (kind b) (if ended then [] else queue b) None
    (pending_bytes b - Z.of_nat (length line))%Z (lagged b) (cancelled b) ended (lagged_since b)
    (sent b) (batch b) (synced_at b) (final_bytes b).

(** The socket's lock is taken; a cancelled registration writes nothing and
    ends. *)
Definition task_begin (f : FanoutState) (r : RegId) : option FanoutState :=
  b ← boxes f !! r;
  line ← flight b;
  match closed b, holder (socket f (writer_id b)) with
  | false, None =>
      if cancelled b then Some (set_boxes f (<[r := task_done b line true]> (boxes f)))
      else Some (set_socket f (writer_id b) (mkSocket (Some r) (log (socket f (writer_id b)))))
  | _, _ => None
  end.

(** The write finishes, [ok] or not, and the lock is released; the last line of
    a lagged backlog wakes the recovery path. *)
Definition task_end (f : FanoutState) (r : RegId) (ok : bool) : option FanoutState :=
  b ← boxes f !! r;
  line ← flight b;
  let s := socket f (writer_id b) in
  match closed b, bool_decide (holder s = Some r) with
  | false, true =>
      let f := set_socket f (writer_id b)
                 (mkSocket None (if ok then log s ++ [(r, line)] else log s)) in
      let f := set_boxes f (<[r := task_done b line (negb ok)]> (boxes f)) in
      Some (set_notified f
              (notified f || (bool_decide (pending_bytes b = Z.of_nat (length line)) && lagged b)))
  | _, _ => None
  end.

(** An aborted task drops the lock it held. *)
Definition task_abandon (f : FanoutState) (r : RegId) : option FanoutState :=
  b ← boxes f !! r;
  if closed b && bool_decide (holder (socket f (writer_id b)) = Some r)
  then Some (set_socket f (writer_id b) (mkSocket None (log (socket f (writer_id b)))))
  else None.

(** The session's PTY reader has been started. *)
Definition mark_streaming (f : FanoutState) : FanoutState :=
  mkFanout (budget f) (attached f) (observers f) (boxes f) (next_reg f) (notified f) true
    (sockets f) (broadcast f) (finished f).

(** ** Runs *)

Inductive FanoutOp :=
  | FRegister (k : SubscriberKind) (w : WriterId) (initial : list Line)
  | FRemove (k : SubscriberKind) (w : WriterId)
  | FRemoveEverywhere (w : WriterId)
  | FEnqueue (line : Line) (now : Z)
  | FResync (lines : list Line)
  | FFinal (line : Line)
  | FRecv (r : RegId)
  | FBegin (r : RegId)
  | FEnd (r : RegId) (ok : bool)
  | FAbandon (r : RegId)
  | FTakeNotify
  | FMarkStreaming.

Definition fanout_op (f : FanoutState) (op : FanoutOp) : option FanoutState :=
  match op with
  | FRegister k w initial => if finished f then None else Some (register f k w initial)
  | FRemove k w => Some (remove f k w)
  | FRemoveEverywhere w => Some (remove_writer_everywhere f w)
  | FEnqueue line now => if finished f then None else Some (enqueue f line now).1
  | FResync lines => if finished f then None else Some (resync_drained f lines)
  | FFinal line => if finished f then None else Some (deliver_final f line)
  | FRecv r => task_recv f r
  | FBegin r => task_begin f r
  | FEnd r ok => task_end f r ok
  | FAbandon r => task_abandon f r
  | FTakeNotify => Some (set_notified f false)
  | FMarkStreaming => Some (mark_streaming f)
  end.

Definition fanout_step (f f' : FanoutState) : Prop := ∃ op, fanout_op f op = Some f'.
