(* ===== verification/FanoutProofs.v ===== *)
(** * What the fanout guarantees

    Bounded memory, gap-free delivery behind a snapshot, and the cutover
    between two registrations of one connection, for every interleaving of
    registry operations with writer tasks. *)

From S2P Require Import Prelude RustStd Fanout.

Definition sum_len (l : list (list Z)) : nat := list_sum (map length l).

Lemma sum_len_app a b : sum_len (a ++ b) = sum_len a + sum_len b.
Proof. unfold sum_len. by rewrite map_app, list_sum_app. Qed.

(** The bytes a mailbox holds: queued, and taken but not finished. *)
Definition box_bytes (b : Mailbox) : nat :=
  sum_len (queue b) + match flight b with Some line => length line | None => 0 end.

(** ** Identity and monotone flags *)

(** What every operation keeps of a mailbox. *)
Record box_le (b b' : Mailbox) : Prop := mkBoxLe {
  bl_writer : writer_id b' = writer_id b;
  bl_kind : kind b' = kind b;
  bl_cancelled : cancelled b = true → cancelled b' = true;
  bl_closed : closed b = true → closed b' = true
}.

#[export] Instance box_le_preorder : PreOrder box_le.
Proof.
  split.
  - intros b. by constructor.
  - intros a b c [] []. constructor; [congruence|congruence|auto|auto].
Qed.

Definition boxes_le (bs bs' : gmap RegId Mailbox) : Prop :=
  ∀ r, option_relation box_le (λ _, False) (λ _, False) (bs !! r) (bs' !! r).

Lemma boxes_le_lookup bs bs' r b :
  boxes_le bs bs' → bs !! r = Some b → ∃ b', bs' !! r = Some b' ∧ box_le b b'.
Proof. intros H Hb. specialize (H r). rewrite Hb in H. cbn in H. destruct (bs' !! r); [eauto|done]. Qed.

Lemma boxes_le_lookup_inv bs bs' r b' :
  boxes_le bs bs' → bs' !! r = Some b' → ∃ b, bs !! r = Some b ∧ box_le b b'.
Proof. intros H Hb. specialize (H r). rewrite Hb in H. destruct (bs !! r); cbn in H; [eauto|done]. Qed.

#[export] Instance boxes_le_preorder : PreOrder boxes_le.
Proof.
  split.
  - intros bs r. destruct (bs !! r); cbn; [reflexivity|done].
  - intros a b c H1 H2 r. specialize (H1 r). specialize (H2 r).
    destruct (a !! r), (b !! r), (c !! r); cbn in *; try done. by etransitivity.
Qed.

Lemma boxes_le_insert bs r b b' : bs !! r = Some b → box_le b b' → boxes_le bs (<[r := b']> bs).
Proof.
  intros Hb Hle r'. destruct (decide (r = r')) as [<-|].
  - by rewrite lookup_insert_eq, Hb.
  - rewrite lookup_insert_ne by done. destruct (bs !! r'); cbn; [reflexivity|done].
Qed.

Lemma boxes_le_alter g bs r : (∀ b, box_le b (g b)) → boxes_le bs (alter g r bs).
Proof.
  intros Hg r'. destruct (decide (r = r')) as [<-|].
  - rewrite lookup_alter_eq. destruct (bs !! r); cbn; auto.
  - rewrite lookup_alter_ne by done. destruct (bs !! r'); cbn; [reflexivity|done].
Qed.

(** Reduces projections of mailboxes and nothing else. *)
Ltac box_cbn :=
  cbn [fst snd writer_id kind queue flight pending_bytes lagged cancelled closed lagged_since sent
       batch synced_at final_bytes set_boxes budget finished broadcast set_lag mark_synced cancel
       abort task_done].

Ltac box_le_tac := constructor; cbn; congruence.

Lemma box_enqueue_le b line : box_le b (box_enqueue b line).1.
Proof. unfold box_enqueue. destruct (closed b) eqn:?; [reflexivity|]. box_le_tac. Qed.

Lemma box_enqueue_all_le b lines : box_le b (box_enqueue_all b lines).1.
Proof.
  revert b. induction lines as [|line lines IH]; intros b; cbn [box_enqueue_all]; [reflexivity|].
  pose proof (box_enqueue_le b line) as Hle. destruct (box_enqueue b line) as [b' ok]. cbn [fst] in Hle.
  destruct ok; [|done]. etransitivity; [done|apply IH].
Qed.

(** What one broadcast does to one mailbox. *)
Definition enqueued (limit : nat) (now : Z) (line : list Z) (b : Mailbox) : Mailbox :=
  default b (enqueue_one limit now line b).1.

Lemma enqueue_one_None limit now line b :
  (enqueue_one limit now line b).1 = None ↔ closed b = true.
Proof.
  unfold enqueue_one, box_enqueue. destruct (closed b); [done|].
  destruct (lagged_since b); [done|]. by case_bool_decide.
Qed.

Lemma enqueued_le limit now line b : box_le b (enqueued limit now line b).
Proof.
  unfold enqueued, enqueue_one, box_enqueue. destruct (closed b) eqn:?; [reflexivity|].
  destruct (lagged_since b); [reflexivity|]. case_bool_decide; box_le_tac.
Qed.

Lemma resync_one_le lines at_ b : box_le b (resync_one lines at_ b).
Proof.
  unfold resync_one. destruct (drained_lagged b); [|reflexivity].
  pose proof (box_enqueue_all_le b lines) as Hle.
  destruct (box_enqueue_all b lines) as [b' ok]. cbn [fst] in Hle. destruct ok; [|done].
  etransitivity; [done|]. box_le_tac.
Qed.

Lemma final_one_le line b : box_le b (final_one line b).
Proof.
  unfold final_one, box_enqueue. destruct (lagged_since b); [box_le_tac|].
  destruct (closed b) eqn:?; box_le_tac.
Qed.

(** ** What the list traversals do to the store *)

Lemma foldr_alter_lookup (g : Mailbox → Mailbox) (l : list RegId) (bs : gmap RegId Mailbox) r :
  NoDup l →
  foldr (λ r, alter g r) bs l !! r = (if decide (r ∈ l) then g <$> bs !! r else bs !! r).
Proof.
  induction 1 as [|x l Hx Hl IH]; cbn [foldr]; [by rewrite decide_False by apply not_elem_of_nil|].
  destruct (decide (x = r)) as [<-|Hne].
  - rewrite lookup_alter_eq, IH, (decide_False (P := x ∈ l)) by done. by rewrite decide_True by left.
  - rewrite lookup_alter_ne, IH by done.
    destruct (decide (r ∈ l)); [rewrite decide_True by (by right)|rewrite decide_False by (rewrite elem_of_cons; naive_solver)]; done.
Qed.

Lemma resync_list_lookup l lines at_ bs r :
  NoDup l →
  resync_list l lines at_ bs !! r =
  (if decide (r ∈ l) then resync_one lines at_ <$> bs !! r else bs !! r).
Proof.
  intros Hl. revert bs. induction Hl as [|x l Hx Hl IH]; intros bs; cbn [resync_list];
    [by rewrite decide_False by apply not_elem_of_nil|].
  rewrite IH. destruct (decide (x = r)) as [<-|Hne].
  - rewrite decide_False, lookup_alter_eq by done. by rewrite decide_True by left.
  - rewrite lookup_alter_ne by done.
    destruct (decide (r ∈ l)); [rewrite decide_True by (by right)|rewrite decide_False by (rewrite elem_of_cons; naive_solver)]; done.
Qed.

Lemma enqueue_to_list_spec l line limit now bs ready :
  NoDup l →
  let '(kept, bs', _) := enqueue_to_list l line limit now bs ready in
  (∀ r, bs' !! r = if decide (r ∈ l) then enqueued limit now line <$> bs !! r else bs !! r) ∧
  (∀ r, r ∈ kept ↔ r ∈ l ∧ ∃ b, bs !! r = Some b ∧ closed b = false) ∧ sublist kept l.
Proof.
  intros Hl. revert bs ready. induction Hl as [|x l Hx Hl IH]; intros bs ready; cbn [enqueue_to_list].
  { split_and!; [intros r; by rewrite decide_False by apply not_elem_of_nil| |constructor].
    intros r. rewrite elem_of_nil. naive_solver. }
  assert (∀ (A : Type) r (a b : A), x ≠ r →
    (if decide (r ∈ x :: l) then a else b) = (if decide (r ∈ l) then a else b)) as Hdec.
  { intros A r a b Hne. destruct (decide (r ∈ l)); [by rewrite decide_True by (by right)|].
    rewrite decide_False; [done|]. rewrite elem_of_cons. naive_solver. }
  destruct (bs !! x) as [b|] eqn:Hbx.
  2:{ specialize (IH bs ready). destruct (enqueue_to_list l line limit now bs ready) as [[kept bs'] rd].
      destruct IH as (IH1 & IH2 & IH3). split_and!; [| |by constructor].
      - intros r. rewrite IH1. destruct (decide (x = r)) as [<-|Hne]; [|by rewrite Hdec].
        rewrite (decide_False (P := x ∈ l)), decide_True by (done || by left). by rewrite Hbx.
      - intros r. rewrite IH2, elem_of_cons. split; [naive_solver|].
        intros [[->|?] (b & Hb & Hc)]; [congruence|eauto]. }
  destruct (enqueue_one limit now line b) as [ob drained] eqn:He.
  pose proof (enqueue_one_None limit now line b) as Hnone. rewrite He in Hnone. cbn [fst] in Hnone.
  destruct ob as [b'|].
  - specialize (IH (<[x := b']> bs) (ready || drained)).
    destruct (enqueue_to_list l line limit now (<[x := b']> bs) (ready || drained)) as [[kept bs'] rd].
    destruct IH as (IH1 & IH2 & IH3).
    assert (enqueued limit now line b = b') as Hen by (unfold enqueued; by rewrite He).
    split_and!; [| |by constructor].
    + intros r. rewrite IH1. destruct (decide (x = r)) as [<-|Hne].
      * rewrite (decide_False (P := x ∈ l)), decide_True, lookup_insert_eq by (done || by left).
        rewrite Hbx. cbn. by rewrite Hen.
      * rewrite Hdec, lookup_insert_ne by done. done.
    + intros r. rewrite !elem_of_cons, IH2. destruct (decide (r = x)) as [->|Hne].
      * split; [|naive_solver]. intros _. split; [by left|]. exists b. split; [done|].
        destruct (closed b); [|done]. discriminate (proj2 Hnone eq_refl).
      * rewrite lookup_insert_ne by done. naive_solver.
  - specialize (IH bs ready). destruct (enqueue_to_list l line limit now bs ready) as [[kept bs'] rd].
    destruct IH as (IH1 & IH2 & IH3). assert (closed b = true) as Hc by (by apply Hnone).
    assert (enqueued limit now line b = b) as Hen by (unfold enqueued; by rewrite He).
    split_and!; [| |by constructor].
    + intros r. rewrite IH1. destruct (decide (x = r)) as [<-|Hne]; [|by rewrite Hdec].
      rewrite (decide_False (P := x ∈ l)), decide_True by (done || by left).
      rewrite Hbx. cbn. by rewrite Hen.
    + intros r. rewrite IH2, elem_of_cons. split; [naive_solver|].
      intros [[->|?] (b0 & Hb & Hcb)]; [congruence|eauto].
Qed.

(** What [cancel_and_remove] does to the registrations of a writer. *)
Definition cancelled_for (w : WriterId) (b : Mailbox) : Mailbox :=
  if bool_decide (writer_id b = w) then cancel b else b.

Lemma cancelled_for_le w b : box_le b (cancelled_for w b).
Proof. unfold cancelled_for. case_bool_decide; [box_le_tac|reflexivity]. Qed.

Lemma cancel_and_remove_spec l w bs :
  NoDup l →
  let '(kept, bs') := cancel_and_remove l w bs in
  (∀ r, bs' !! r = if decide (r ∈ l) then cancelled_for w <$> bs !! r else bs !! r) ∧
  (∀ r, r ∈ kept ↔ r ∈ l ∧ ∀ b, bs !! r = Some b → writer_id b ≠ w) ∧ sublist kept l.
Proof.
  intros Hl. revert bs. induction Hl as [|x l Hx Hl IH]; intros bs; cbn [cancel_and_remove].
  { split_and!; [intros r; by rewrite decide_False by apply not_elem_of_nil| |constructor].
    intros r. rewrite elem_of_nil. naive_solver. }
  assert (∀ (A : Type) r (a b : A), x ≠ r →
    (if decide (r ∈ x :: l) then a else b) = (if decide (r ∈ l) then a else b)) as Hdec.
  { intros A r a b Hne. destruct (decide (r ∈ l)); [by rewrite decide_True by (by right)|].
    rewrite decide_False; [done|]. rewrite elem_of_cons. naive_solver. }
  assert ((∀ b, bs !! x = Some b → writer_id b ≠ w) →
    let '(kept, bs') := (let '(rest, bs) := cancel_and_remove l w bs in (x :: rest, bs)) in
    (∀ r, bs' !! r = if decide (r ∈ x :: l) then cancelled_for w <$> bs !! r else bs !! r) ∧
    (∀ r, r ∈ kept ↔ r ∈ x :: l ∧ ∀ b, bs !! r = Some b → writer_id b ≠ w) ∧ sublist kept (x :: l))
    as Hkeep.
  { intros Hw. specialize (IH bs). destruct (cancel_and_remove l w bs) as [kept bs'].
    destruct IH as (IH1 & IH2 & IH3). split_and!; [| |by constructor].
    - intros r. rewrite IH1. destruct (decide (x = r)) as [<-|Hne]; [|by rewrite Hdec].
      rewrite (decide_False (P := x ∈ l)), decide_True by (done || by left).
      destruct (bs !! x) as [b|]; [|done]. cbn. unfold cancelled_for.
      by rewrite bool_decide_eq_false_2 by (by apply Hw).
    - intros r. rewrite !elem_of_cons, IH2. naive_solver. }
  destruct (bs !! x) as [b|] eqn:Hbx; [|by apply Hkeep].
  case_bool_decide as Hw; [|apply Hkeep; naive_solver].
  specialize (IH (<[x := cancel b]> bs)).
  destruct (cancel_and_remove l w (<[x := cancel b]> bs)) as [kept bs'].
  destruct IH as (IH1 & IH2 & IH3). split_and!; [| |by constructor].
  - intros r. rewrite IH1. destruct (decide (x = r)) as [<-|Hne].
    + rewrite (decide_False (P := x ∈ l)), decide_True, lookup_insert_eq by (done || by left).
      rewrite Hbx. cbn. unfold cancelled_for. by rewrite bool_decide_eq_true_2.
    + rewrite Hdec, lookup_insert_ne by done. done.
  - intros r. rewrite IH2, elem_of_cons. destruct (decide (r = x)) as [->|Hne].
    + split; [naive_solver|]. intros [_ Hb]. by destruct (Hb b).
    + rewrite lookup_insert_ne by done. naive_solver.
Qed.

(** ** Cutover *)

Definition log_upto (f : FanoutState) (w : WriterId) (k : SubscriberKind) (r : RegId) : Prop :=
  ∀ (r0 : RegId) line b0, (r0, line) ∈ log (socket f w) → boxes f !! r0 = Some b0 → kind b0 = k → r0 ≤ r.

Definition log_sorted (f : FanoutState) (w : WriterId) : Prop :=
  ∀ i j (r1 : RegId) l1 (r2 : RegId) l2 b1 b2, i < j →
    log (socket f w) !! i = Some (r1, l1) → log (socket f w) !! j = Some (r2, l2) →
    boxes f !! r1 = Some b1 → boxes f !! r2 = Some b2 → kind b1 = kind b2 → r1 ≤ r2.

Record ctrl_inv (f : FanoutState) : Prop := mkCtrlInv {
  ci_nodup : NoDup (attached f ++ observers f);
  ci_listed : ∀ k r, r ∈ list_of f k → ∃ b, boxes f !! r = Some b ∧ kind b = k;
  ci_fresh : ∀ r b, boxes f !! r = Some b → r < next_reg f;
  ci_unlisted : finished f = false → ∀ r b, boxes f !! r = Some b →
    r ∉ list_of f (kind b) → cancelled b = true ∨ closed b = true;
  ci_old : ∀ r r' b b', r < r' → boxes f !! r = Some b → boxes f !! r' = Some b' →
    kind b = kind b' → writer_id b = writer_id b' → cancelled b = true ∨ closed b = true;
  ci_log : ∀ w r line, (r, line) ∈ log (socket f w) → ∃ b, boxes f !! r = Some b ∧ writer_id b = w;
  ci_holder : ∀ w r, holder (socket f w) = Some r →
    ∃ b, boxes f !! r = Some b ∧ writer_id b = w ∧ log_upto f w (kind b) r;
  ci_sorted : ∀ w, log_sorted f w
}.

Lemma in_lists f k r : r ∈ list_of f k → r ∈ attached f ++ observers f.
Proof. rewrite elem_of_app. destruct k; auto. Qed.

(** Operations that only move mailboxes forward and shrink the lists. *)
Lemma ctrl_inv_le f f' :
  boxes_le (boxes f) (boxes f') → next_reg f' = next_reg f → sockets f' = sockets f →
  (finished f' = false → finished f = false) →
  (∀ k, sublist (list_of f' k) (list_of f k)) →
  (finished f' = false → ∀ r b', boxes f' !! r = Some b' → r ∈ list_of f (kind b') →
     r ∉ list_of f' (kind b') → cancelled b' = true ∨ closed b' = true) →
  ctrl_inv f → ctrl_inv f'.
Proof.
  intros Hle Hn Hs Hfin Hsub Hdrop [H1 H2 H3 H4 H5 H6 H7 H8].
  assert (∀ w, socket f' w = socket f w) as Hsock by (intros; unfold socket; by rewrite Hs).
  assert (∀ r b', boxes f' !! r = Some b' → ∃ b, boxes f !! r = Some b ∧ box_le b b') as Hback
    by (intros; by eapply boxes_le_lookup_inv).
  assert (∀ r b, boxes f !! r = Some b → ∃ b', boxes f' !! r = Some b' ∧ box_le b b') as Hforth
    by (intros; by eapply boxes_le_lookup).
  constructor; rewrite ?Hn.
  - eapply sublist_NoDup; [exact H1|]. apply sublist_app; [apply (Hsub Attached)|apply (Hsub Observer)].
  - intros k r Hr. destruct (H2 k r) as (b & Hb & Hk).
    { eapply elem_of_sublist; [exact Hr|apply Hsub]. }
    destruct (Hforth r b Hb) as (b' & Hb' & [? Hk' _ _]). exists b'. split; [done|congruence].
  - intros r b' Hb'. destruct (Hback r b' Hb') as (b & Hb & _). by eapply H3.
  - intros Hf r b' Hb' Hr. destruct (Hback r b' Hb') as (b & Hb & [? Hk Hc Hcl]).
    destruct (decide (r ∈ list_of f (kind b'))) as [Hin|Hin]; [by eapply Hdrop|].
    rewrite Hk in Hin. destruct (H4 (Hfin Hf) r b Hb Hin); auto.
  - intros r r' b1 b1' Hlt Hb1 Hb1' Hk Hw.
    destruct (Hback r b1 Hb1) as (b & Hb & [Hw0 Hk0 Hc Hcl]).
    destruct (Hback r' b1' Hb1') as (b' & Hb' & [Hw1 Hk1 _ _]).
    destruct (H5 r r' b b' Hlt Hb Hb'); [congruence|congruence|auto|auto].
  - intros w r line. rewrite Hsock. intros Hin. destruct (H6 w r line Hin) as (b & Hb & Hw).
    destruct (Hforth r b Hb) as (b' & Hb' & [Hw' _ _ _]). exists b'. split; [done|congruence].
  - intros w r. rewrite Hsock. intros Hh. destruct (H7 w r Hh) as (b & Hb & Hw & Hup).
    destruct (Hforth r b Hb) as (b' & Hb' & [Hw' Hk' _ _]). exists b'. split_and!; [done|congruence|].
    intros r0 line b0 Hin Hb0 Hk0. rewrite Hsock in Hin.
    destruct (Hback r0 b0 Hb0) as (b1 & Hb1 & [_ Hk1 _ _]). eapply Hup; [done|done|congruence].
  - intros w i j r1 l1 r2 l2 b1 b2 Hij. rewrite Hsock. intros Hi Hj Hb1 Hb2 Hk.
    destruct (Hback r1 b1 Hb1) as (c1 & Hc1 & [_ Hk1 _ _]).
    destruct (Hback r2 b2 Hb2) as (c2 & Hc2 & [_ Hk2 _ _]).
    eapply (H8 w i j); [done|done|done|done|done|congruence].
Qed.

Lemma list_of_set_list f k l k' :
  list_of (set_list f k l) k' = if decide (k = k') then l else list_of f k'.
Proof. by destruct k, k'. Qed.

Lemma set_list_fields f k l :
  boxes (set_list f k l) = boxes f ∧ next_reg (set_list f k l) = next_reg f ∧
  sockets (set_list f k l) = sockets f ∧ finished (set_list f k l) = finished f ∧
  budget (set_list f k l) = budget f ∧ broadcast (set_list f k l) = broadcast f ∧
  notified (set_list f k l) = notified f ∧ streaming (set_list f k l) = streaming f.
Proof. by destruct k. Qed.

Lemma list_of_nodup f k : NoDup (attached f ++ observers f) → NoDup (list_of f k).
Proof. rewrite NoDup_app. destruct k; naive_solver. Qed.

(** [remove], as the rest of the proofs use it. *)
Lemma remove_spec f k w :
  NoDup (attached f ++ observers f) →
  let f' := remove f k w in
  (∀ r, boxes f' !! r =
     if decide (r ∈ list_of f k) then cancelled_for w <$> boxes f !! r else boxes f !! r) ∧
  (∀ r, r ∈ list_of f' k ↔ r ∈ list_of f k ∧ ∀ b, boxes f !! r = Some b → writer_id b ≠ w) ∧
  (∀ k', sublist (list_of f' k') (list_of f k')) ∧
  (∀ k', k ≠ k' → list_of f' k' = list_of f k') ∧
  next_reg f' = next_reg f ∧ sockets f' = sockets f ∧ finished f' = finished f ∧
  budget f' = budget f ∧ broadcast f' = broadcast f.
Proof.
  intros Hnd. cbn zeta. unfold remove.
  pose proof (cancel_and_remove_spec (list_of f k) w (boxes f) (list_of_nodup f k Hnd)) as Hspec.
  destruct (cancel_and_remove (list_of f k) w (boxes f)) as [kept bs].
  destruct Hspec as (S1 & S2 & S3).
  destruct (set_list_fields (set_boxes f bs) k kept) as (E1 & E2 & E3 & E4 & E5 & E6 & _).
  rewrite E1, E2, E3, E4, E5, E6. split_and!; try done.
  - intros r. rewrite list_of_set_list, decide_True by done. apply S2.
  - intros k'. rewrite list_of_set_list. case_decide; [by subst|]. by destruct k'.
  - intros k' Hk. rewrite list_of_set_list, decide_False by done. by destruct k'.
Qed.

Lemma lookup_le_cond (P : RegId → Prop) `{∀ r, Decision (P r)} (g : Mailbox → Mailbox) bs bs' :
  (∀ b, box_le b (g b)) →
  (∀ r, bs' !! r = if decide (P r) then g <$> bs !! r else bs !! r) → boxes_le bs bs'.
Proof.
  intros Hg Hl r. rewrite Hl. case_decide; destruct (bs !! r); cbn; first [done|apply Hg|reflexivity].
Qed.

Lemma ctrl_inv_remove f k w : ctrl_inv f → ctrl_inv (remove f k w).
Proof.
  intros Hinv. pose proof (remove_spec f k w (ci_nodup f Hinv)) as (S1 & S2 & S3 & S4 & E2 & E3 & E4 & _).
  eapply ctrl_inv_le; [| | | | | |exact Hinv]; try done.
  - eapply lookup_le_cond; [|exact S1]. apply cancelled_for_le.
  - congruence.
  - intros _ r b' Hb' Hin Hout. rewrite S1 in Hb'.
    destruct (decide (k = kind b')) as [Hk|Hk]; [|by rewrite S4 in Hout].
    subst k. rewrite decide_True in Hb' by done.
    destruct (boxes f !! r) as [b|] eqn:Hb; cbn in Hb'; [|done]. injection Hb' as <-.
    left. unfold cancelled_for in *. case_bool_decide as Hw; [done|].
    exfalso. apply Hout, S2. split; [done|]. intros b0 Hb0. congruence.
Qed.

(** [enqueue], as the rest of the proofs use it. *)
Lemma enqueue_spec f line now :
  NoDup (attached f ++ observers f) →
  let f' := (enqueue f line now).1 in
  (∀ r, boxes f' !! r = if decide (r ∈ attached f ++ observers f)
                        then enqueued (budget f) now line <$> boxes f !! r else boxes f !! r) ∧
  (∀ k r, r ∈ list_of f' k ↔ r ∈ list_of f k ∧ ∃ b, boxes f !! r = Some b ∧ closed b = false) ∧
  (∀ k, sublist (list_of f' k) (list_of f k)) ∧
  next_reg f' = next_reg f ∧ sockets f' = sockets f ∧ finished f' = finished f ∧
  budget f' = budget f ∧ broadcast f' = broadcast f ++ [line].
Proof.
  intros Hnd. cbn zeta. unfold enqueue.
  assert (NoDup (attached f) ∧ NoDup (observers f) ∧ ∀ r, r ∈ observers f → r ∉ attached f)
    as (Ha & Ho & Hdis) by (apply NoDup_app in Hnd; naive_solver).
  pose proof (enqueue_to_list_spec (attached f) line (budget f) now (boxes f) false Ha) as Hspec.
  destruct (enqueue_to_list (attached f) _ _ _ _ _) as [[att bs] ready].
  destruct Hspec as (A1 & A2 & A3).
  pose proof (enqueue_to_list_spec (observers f) line (budget f) now bs ready Ho) as Hspec.
  destruct (enqueue_to_list (observers f) _ _ _ _ _) as [[obs bs'] ready'].
  destruct Hspec as (O1 & O2 & O3). cbn.
  split_and!; try done.
  - intros r. rewrite O1, A1. destruct (decide (r ∈ observers f)) as [Hr|Hr].
    + rewrite (decide_False (P := r ∈ attached f)) by auto.
      by rewrite decide_True by (apply elem_of_app; auto).
    + destruct (decide (r ∈ attached f)) as [Hr'|Hr'];
        [rewrite decide_True|rewrite decide_False]; rewrite ?elem_of_app; tauto.
  - intros [] r; cbn; [apply A2|]. rewrite O2. split; intros [Hr Hb]; (split; [done|]);
      rewrite A1, decide_False in * by auto; done.
  - by intros [].
Qed.

Lemma ctrl_inv_enqueue f line now : ctrl_inv f → ctrl_inv (enqueue f line now).1.
Proof.
  intros Hinv.
  pose proof (enqueue_spec f line now (ci_nodup f Hinv)) as (S1 & S2 & S3 & E2 & E3 & E4 & _).
  eapply ctrl_inv_le; [| | | | | |exact Hinv]; try done.
  - eapply lookup_le_cond; [|exact S1]. apply enqueued_le.
  - congruence.
  - intros _ r b' Hb' Hin Hout. rewrite S1, decide_True in Hb' by (by eapply in_lists).
    destruct (boxes f !! r) as [b|] eqn:Hb; cbn in Hb'; [|done]. injection Hb' as <-.
    right. apply (bl_closed _ _ (enqueued_le _ _ _ _)).
    destruct (closed b) eqn:Hc; [done|]. exfalso. apply Hout, S2. split; [done|]. by exists b.
Qed.

Lemma resync_spec f lines :
  NoDup (attached f ++ observers f) →
  let f' := resync_drained f lines in
  (∀ r, boxes f' !! r =
     if decide (r ∈ attached f ++ observers f ∧ lines ≠ [])
     then resync_one lines (length (broadcast f)) <$> boxes f !! r else boxes f !! r) ∧
  (∀ k, list_of f' k = list_of f k) ∧
  next_reg f' = next_reg f ∧ sockets f' = sockets f ∧ finished f' = finished f ∧
  budget f' = budget f ∧ broadcast f' = broadcast f.
Proof.
  intros Hnd. cbn zeta. destruct lines as [|l ls]; [cbn; split_and!; try done; intros r|].
  { by rewrite decide_False by naive_solver. }
  unfold resync_drained. split_and!; try done.
  intros r. cbn [boxes set_boxes]. rewrite resync_list_lookup by done.
  destruct (decide (r ∈ attached f ++ observers f)) as [H|H];
    [rewrite decide_True|rewrite decide_False]; try done; naive_solver.
Qed.

Lemma ctrl_inv_resync f lines : ctrl_inv f → ctrl_inv (resync_drained f lines).
Proof.
  intros Hinv. pose proof (resync_spec f lines (ci_nodup f Hinv)) as (S1 & S2 & E2 & E3 & E4 & _).
  eapply ctrl_inv_le; [| | | | | |exact Hinv]; try done.
  - eapply lookup_le_cond; [|exact S1]. apply resync_one_le.
  - congruence.
  - intros k. by rewrite S2.
  - intros _ r b' _ Hin Hout. by rewrite S2 in Hout.
Qed.

Lemma final_spec f line :
  NoDup (attached f ++ observers f) →
  ∀ r, boxes (deliver_final f line) !! r =
    if decide (r ∈ attached f ++ observers f) then final_one line <$> boxes f !! r else boxes f !! r.
Proof. intros Hnd r. cbn [boxes deliver_final]. by rewrite foldr_alter_lookup. Qed.

Lemma ctrl_inv_final f line : ctrl_inv f → ctrl_inv (deliver_final f line).
Proof.
  intros Hinv. pose proof (final_spec f line (ci_nodup f Hinv)) as S1.
  eapply ctrl_inv_le; [| | | | | |exact Hinv]; try done.
  - eapply lookup_le_cond; [|exact S1]. apply final_one_le.
  - intros []; apply sublist_nil_l.
Qed.

(** A task's own mailbox moving forward. *)
Lemma ctrl_inv_box f r b b' :
  boxes f !! r = Some b → box_le b b' → ctrl_inv f → ctrl_inv (set_boxes f (<[r := b']> (boxes f))).
Proof.
  intros Hb Hle Hinv. eapply ctrl_inv_le; [| | | | | |exact Hinv]; try done.
  by eapply boxes_le_insert.
Qed.

Lemma ctrl_inv_notified f n : ctrl_inv f → ctrl_inv (set_notified f n).
Proof. intros []. by constructor. Qed.

Lemma ctrl_inv_streaming f : ctrl_inv f → ctrl_inv (mark_streaming f).
Proof. intros []. by constructor. Qed.

Lemma socket_set_socket f w s w' :
  socket (set_socket f w s) w' = if decide (w = w') then s else socket f w'.
Proof.
  unfold socket, set_socket. cbn. case_decide; [subst; by rewrite lookup_insert_eq|].
  by rewrite lookup_insert_ne.
Qed.

(** A socket changing: its lock, and at most one line appended by its holder. *)
Lemma ctrl_inv_socket f w h extra :
  (∀ r, h = Some r → ∃ b, boxes f !! r = Some b ∧ writer_id b = w ∧
     ∀ (r0 : RegId) line b0, (r0, line) ∈ log (socket f w) ++ extra → boxes f !! r0 = Some b0 →
       kind b0 = kind b → r0 ≤ r) →
  (extra = [] ∨ ∃ r line, extra = [(r, line)] ∧ holder (socket f w) = Some r) →
  ctrl_inv f → ctrl_inv (set_socket f w (mkSocket h (log (socket f w) ++ extra))).
Proof.
  intros Hh Hx [H1 H2 H3 H4 H5 H6 H7 H8]. constructor; try done.
  - intros w' r line. rewrite socket_set_socket. case_decide; [subst w'|apply H6].
    cbn. rewrite elem_of_app. intros [Hin|Hin]; [by eapply H6|].
    destruct Hx as [->|(r' & l' & -> & Hr)]; [by apply not_elem_of_nil in Hin|].
    apply list_elem_of_singleton in Hin as [= -> ->]. destruct (H7 w r' Hr) as (b & ? & ? & _). by exists b.
  - intros w' r. rewrite socket_set_socket. case_decide; [subst w'|].
    + cbn. intros Hr. destruct (Hh r Hr) as (b & Hb & Hw & Hup). exists b. split_and!; [done|done|].
      intros r0 line b0. rewrite socket_set_socket, decide_True by done. apply Hup.
    + intros Hr. destruct (H7 w' r Hr) as (b & Hb & Hw & Hup). exists b. split_and!; [done|done|].
      intros r0 line b0. rewrite socket_set_socket, decide_False by done. apply Hup.
  - intros w' i j r1 l1 r2 l2 b1 b2 Hij. rewrite !socket_set_socket. case_decide; [subst w'|by apply H8].
    cbn. intros Hi Hj Hb1 Hb2 Hk. destruct Hx as [->|(r' & l' & -> & Hr)].
    + rewrite app_nil_r in *. by eapply (H8 w i j).
    + apply lookup_snoc_Some in Hj as [[Hlt Hj]|[-> [= <- <-]]].
      * rewrite lookup_app_l in Hi by lia. by eapply (H8 w i j).
      * rewrite lookup_app_l in Hi by lia. destruct (H7 w r' Hr) as (b & Hb & Hw & Hup).
        change (boxes f !! r' = Some b2) in Hb2. assert (b = b2) as -> by congruence.
        eapply Hup; [by eapply list_elem_of_lookup_2|done|done].
Qed.

(** [register] after the old registration is gone. *)
Lemma register_fields f k w initial :
  let g := remove f k w in
  let f' := register f k w initial in
  boxes f' = <[next_reg g := mark_synced (box_enqueue_all (new_box w k) initial).1 initial
                               (length (broadcast g))]> (boxes g) ∧
  (∀ k', list_of f' k' = list_of g k' ++ (if decide (k = k') then [next_reg g] else [])) ∧
  next_reg f' = S (next_reg g) ∧ sockets f' = sockets g ∧ finished f' = finished g ∧
  budget f' = budget g ∧ broadcast f' = broadcast g.
Proof.
  cbn zeta. unfold register. generalize (remove f k w) as g. intros g.
  split_and!; try (by destruct k). intros k'. destruct k, k'; cbn; by rewrite ?app_nil_r.
Qed.

Lemma register_box_identity w k initial at_ :
  let b := mark_synced (box_enqueue_all (new_box w k) initial).1 initial at_ in
  writer_id b = w ∧ kind b = k.
Proof. cbn. by destruct (box_enqueue_all_le (new_box w k) initial). Qed.

(** After [remove] every registration of the writer in that role is retired. *)
Lemma remove_retires f k w r c :
  finished f = false → ctrl_inv f → boxes (remove f k w) !! r = Some c →
  kind c = k → writer_id c = w → cancelled c = true ∨ closed c = true.
Proof.
  intros Hfin Hinv Hc Hk Hw.
  pose proof (remove_spec f k w (ci_nodup f Hinv)) as (S1 & S2 & _ & _ & _ & _ & Ef & _).
  apply (ci_unlisted _ (ctrl_inv_remove f k w Hinv) ltac:(congruence) r c Hc). rewrite Hk, S2.
  intros [Hin Hall]. rewrite S1, decide_True in Hc by done.
  destruct (boxes f !! r) as [d|] eqn:Hd; cbn in Hc; [|done]. injection Hc as <-.
  apply (Hall d eq_refl). by rewrite <- Hw, (bl_writer _ _ (cancelled_for_le w d)).
Qed.

Lemma nodup_push (a o : list RegId) (k : SubscriberKind) (r : RegId) :
  NoDup (a ++ o) → r ∉ a ++ o →
  NoDup ((a ++ (if decide (k = Attached) then [r] else [])) ++
         (o ++ (if decide (k = Observer) then [r] else []))).
Proof.
  intros Hnd Hr. assert (NoDup (r :: a ++ o)) as Hc by (by constructor).
  eapply NoDup_Permutation_proper; [|exact Hc]. symmetry.
  destruct k; cbn; rewrite ?app_nil_r.
  - rewrite <- app_assoc. cbn. apply Permutation_middle.
  - rewrite app_assoc. apply Permutation_cons_append.
Qed.

Lemma fresh_unused (g : FanoutState) : ctrl_inv g → boxes g !! next_reg g = None.
Proof.
  intros Hinv. destruct (boxes g !! next_reg g) as [c|] eqn:Hc; [|done].
  pose proof (ci_fresh g Hinv _ _ Hc). lia.
Qed.

Section fresh_registration.
Context (g f' : FanoutState) (b : Mailbox).
Context (Hinv : ctrl_inv g).
Context (Eb : boxes f' = <[next_reg g := b]> (boxes g)).
Context (El : ∀ k, list_of f' k = list_of g k ++ (if decide (kind b = k) then [next_reg g] else [])).
Context (En : next_reg f' = S (next_reg g)) (Es : sockets f' = sockets g).
Context (Ef : finished f' = finished g).
Context (Hgone : ∀ r c, boxes g !! r = Some c → kind c = kind b → writer_id c = writer_id b →
                   cancelled c = true ∨ closed c = true).

Lemma fresh_lookup r c : boxes g !! r = Some c → boxes f' !! r = Some c.
Proof.
  intros Hc. rewrite Eb, lookup_insert_ne; [done|]. intros <-. by rewrite fresh_unused in Hc.
Qed.

Lemma fresh_lookup_inv r c :
  boxes f' !! r = Some c → (r = next_reg g ∧ c = b) ∨ (r < next_reg g ∧ boxes g !! r = Some c).
Proof.
  rewrite Eb. intros Hc. apply lookup_insert_Some in Hc as [[<- <-]|[_ Hc]]; [by left|].
  right. split; [by eapply ci_fresh|done].
Qed.

Lemma fresh_socket w : socket f' w = socket g w.
Proof. unfold socket. by rewrite Es. Qed.

Lemma fresh_logged w r line c :
  (r, line) ∈ log (socket g w) → boxes f' !! r = Some c → boxes g !! r = Some c.
Proof.
  intros Hin Hc. destruct (ci_log g Hinv w r line Hin) as (d & Hd & _).
  pose proof (fresh_lookup r d Hd). congruence.
Qed.

Lemma fresh_lists :
  NoDup (attached f' ++ observers f') ∧
  (∀ k r, r ∈ list_of f' k → ∃ c, boxes f' !! r = Some c ∧ kind c = k).
Proof.
  split.
  - pose proof (El Attached) as Ea. pose proof (El Observer) as Eo. cbn [list_of] in Ea, Eo.
    rewrite Ea, Eo. apply nodup_push; [apply Hinv|]. rewrite elem_of_app. pose proof (fresh_unused g Hinv).
    intros [Hin|Hin]; [destruct (ci_listed g Hinv Attached _ Hin) as (c & ? & _)
                      |destruct (ci_listed g Hinv Observer _ Hin) as (c & ? & _)]; congruence.
  - intros k r. rewrite El, elem_of_app. intros [Hin|Hin].
    + destruct (ci_listed g Hinv k r Hin) as (c & Hc & Hk). exists c. by apply fresh_lookup in Hc.
    + destruct (decide (kind b = k)) as [Hk|]; [|by apply not_elem_of_nil in Hin].
      apply list_elem_of_singleton in Hin as ->. exists b. by rewrite Eb, lookup_insert_eq.
Qed.

Lemma ctrl_inv_fresh : ctrl_inv f'.
Proof.
  destruct fresh_lists as [Hl1 Hl2]. constructor; [done|done|..].
  - intros r c Hc. rewrite En. destruct (fresh_lookup_inv r c Hc) as [[-> _]|[? _]]; lia.
  - intros Hf r c Hc Hout. rewrite El, elem_of_app in Hout.
    destruct (fresh_lookup_inv r c Hc) as [[-> ->]|[_ Hc']].
    + rewrite decide_True in Hout by done. exfalso. apply Hout. right. by left.
    + eapply (ci_unlisted g Hinv); [congruence|done|]. tauto.
  - intros r r' c c' Hlt Hc Hc' Hk Hw.
    destruct (fresh_lookup_inv r c Hc) as [[-> ->]|[? Hd]],
             (fresh_lookup_inv r' c' Hc') as [[-> ->]|[? Hd']]; [lia|lia|by eapply Hgone|].
    by eapply (ci_old g Hinv r r').
  - intros w r line. rewrite fresh_socket. intros Hin.
    destruct (ci_log g Hinv w r line Hin) as (c & Hc & Hw). exists c. by apply fresh_lookup in Hc.
  - intros w r. rewrite fresh_socket. intros Hh. destruct (ci_holder g Hinv w r Hh) as (c & Hc & Hw & Hup).
    exists c. apply fresh_lookup in Hc. split_and!; [done|done|].
    intros r0 line b0. rewrite fresh_socket. intros Hin Hb0.
    apply (Hup r0 line b0 Hin). by eapply fresh_logged.
  - intros w i j r1 l1 r2 l2 b1 b2 Hij. rewrite fresh_socket. intros Hi Hj Hb1 Hb2.
    eapply (ci_sorted g Hinv w i j); [done|done|done| |].
    + eapply fresh_logged; [by eapply list_elem_of_lookup_2|done].
    + eapply fresh_logged; [by eapply list_elem_of_lookup_2|done].
Qed.
End fresh_registration.

Lemma ctrl_inv_register f k w initial :
  finished f = false → ctrl_inv f → ctrl_inv (register f k w initial).
Proof.
  intros Hfin Hinv. pose proof (register_fields f k w initial) as (Eb & El & En & Es & Efin & _).
  pose proof (register_box_identity w k initial (length (broadcast (remove f k w)))) as [Hw Hk].
  cbn zeta in *. eapply ctrl_inv_fresh; [by apply ctrl_inv_remove|exact Eb| |exact En|exact Es|exact Efin|].
  - rewrite Hk. exact El.
  - rewrite Hk, Hw. intros r c Hc Hkc Hwc. by eapply remove_retires.
Qed.

(** ** Writer tasks *)

Lemma task_recv_inv f r f' :
  task_recv f r = Some f' →
  ∃ b line rest, boxes f !! r = Some b ∧ closed b = false ∧ flight b = None ∧ queue b = line :: rest ∧
    f' = set_boxes f (<[r := mkBox (writer_id b) (kind b) rest (Some line) (pending_bytes b)
                               (lagged b) (cancelled b) (closed b) (lagged_since b) (sent b)
                               (batch b) (synced_at b) (final_bytes b)]> (boxes f)).
Proof.
  unfold task_recv. destruct (boxes f !! r) as [b|] eqn:Hb; cbn [mbind option_bind]; [|discriminate].
  destruct (closed b) eqn:?; [discriminate|]. destruct (flight b) eqn:?; [discriminate|].
  destruct (queue b) as [|line rest] eqn:?; [discriminate|]. intros [= <-]. exists b, line, rest.
  split_and!; [done..|congruence].
Qed.

Lemma task_begin_inv f r f' :
  task_begin f r = Some f' →
  ∃ b line, boxes f !! r = Some b ∧ closed b = false ∧ flight b = Some line ∧
    holder (socket f (writer_id b)) = None ∧
    ((cancelled b = true ∧ f' = set_boxes f (<[r := task_done b line true]> (boxes f))) ∨
     (cancelled b = false ∧
      f' = set_socket f (writer_id b) (mkSocket (Some r) (log (socket f (writer_id b)))))).
Proof.
  unfold task_begin. destruct (boxes f !! r) as [b|] eqn:Hb; cbn [mbind option_bind]; [|discriminate].
  destruct (flight b) as [line|] eqn:Hfl; cbn [mbind option_bind]; [|discriminate].
  destruct (closed b) eqn:Hcl; [done|]. destruct (holder (socket f (writer_id b))) eqn:Hh; [done|].
  intros Hf'. exists b, line. split_and!; try done.
  destruct (cancelled b) eqn:Hca; injection Hf' as <-; auto.
Qed.

Definition end_socket (f : FanoutState) (b : Mailbox) (r : RegId) (line : list Z) (ok : bool)
    : FanoutState :=
  set_socket f (writer_id b)
    (mkSocket None (log (socket f (writer_id b)) ++ (if ok then [(r, line)] else []))).

Lemma task_end_inv f r ok f' :
  task_end f r ok = Some f' →
  ∃ b line n, boxes f !! r = Some b ∧ closed b = false ∧ flight b = Some line ∧
    holder (socket f (writer_id b)) = Some r ∧
    f' = set_notified (set_boxes (end_socket f b r line ok)
                         (<[r := task_done b line (negb ok)]> (boxes f))) n.
Proof.
  unfold task_end. destruct (boxes f !! r) as [b|] eqn:Hb; cbn [mbind option_bind]; [|discriminate].
  destruct (flight b) as [line|] eqn:Hfl; cbn [mbind option_bind]; [|discriminate].
  destruct (closed b) eqn:Hcl; [done|]. case_bool_decide as Hh; [|done].
  intros [= <-]. eexists b, line, _. split_and!; try done.
  unfold end_socket. destruct ok; rewrite ?app_nil_r; reflexivity.
Qed.

Lemma task_abandon_inv f r f' :
  task_abandon f r = Some f' →
  ∃ b, boxes f !! r = Some b ∧ closed b = true ∧ holder (socket f (writer_id b)) = Some r ∧
    f' = set_socket f (writer_id b) (mkSocket None (log (socket f (writer_id b)))).
Proof.
  unfold task_abandon. destruct (boxes f !! r) as [b|] eqn:Hb; cbn [mbind option_bind]; [|discriminate].
  destruct (closed b) eqn:Hcl; cbn; [|done]. case_bool_decide as Hh; [|done].
  intros [= <-]. exists b. by split_and!.
Qed.

Lemma task_done_le b line ended : closed b = false → box_le b (task_done b line ended).
Proof. intros. box_le_tac. Qed.

Lemma ctrl_inv_begin f r f' : task_begin f r = Some f' → ctrl_inv f → ctrl_inv f'.
Proof.
  intros (b & line & Hb & Hcl & Hfl & Hh & [[Hca ->]|[Hca ->]])%task_begin_inv Hinv.
  { eapply ctrl_inv_box; [done|by apply task_done_le|done]. }
  rewrite <- (app_nil_r (log _)). apply ctrl_inv_socket; [|by left|done].
  intros r' [= <-]. exists b. split_and!; [done|done|]. intros r0 l0 b0. rewrite app_nil_r.
  intros Hin Hb0 Hk. destruct (decide (r0 ≤ r)) as [|Hlt]; [done|].
  destruct (ci_log f Hinv _ _ _ Hin) as (b1 & Hb1 & Hw). assert (b1 = b0) as -> by congruence.
  destruct (ci_old f Hinv r r0 b b0); [lia|done|done|done|done|congruence|congruence].
Qed.

Lemma ctrl_inv_end f r ok f' : task_end f r ok = Some f' → ctrl_inv f → ctrl_inv f'.
Proof.
  intros (b & line & n & Hb & Hcl & Hfl & Hh & ->)%task_end_inv Hinv.
  apply ctrl_inv_notified. eapply (ctrl_inv_box (end_socket f b r line ok));
    [done|by apply task_done_le|].
  apply ctrl_inv_socket; [done| |done]. destruct ok; [right; by exists r, line|by left].
Qed.

Lemma ctrl_inv_abandon f r f' : task_abandon f r = Some f' → ctrl_inv f → ctrl_inv f'.
Proof.
  intros (b & Hb & Hcl & Hh & ->)%task_abandon_inv Hinv.
  rewrite <- (app_nil_r (log _)). apply ctrl_inv_socket; [done|by left|done].
Qed.

Lemma ctrl_inv_op f op f' : fanout_op f op = Some f' → ctrl_inv f → ctrl_inv f'.
Proof.
  intros Hop Hinv. destruct op; cbn [fanout_op] in Hop;
    try (destruct (finished f) eqn:Hfin; [discriminate|]); try injection Hop as <-.
  - by apply ctrl_inv_register.
  - by apply ctrl_inv_remove.
  - by do 2 apply ctrl_inv_remove.
  - by apply ctrl_inv_enqueue.
  - by apply ctrl_inv_resync.
  - by apply ctrl_inv_final.
  - apply task_recv_inv in Hop as (b & line & rest & Hb & Hcl & _ & _ & ->).
    eapply ctrl_inv_box; [done| |done]. box_le_tac.
  - by eapply ctrl_inv_begin.
  - by eapply ctrl_inv_end.
  - by eapply ctrl_inv_abandon.
  - by apply ctrl_inv_notified.
  - by apply ctrl_inv_streaming.
Qed.

Lemma ctrl_inv_new limit : ctrl_inv (new_fanout limit).
Proof.
  constructor; cbn; try done.
  - constructor.
  - intros [] r Hr; by apply not_elem_of_nil in Hr.
  - intros w r line Hr. unfold socket in Hr. cbn in Hr. rewrite lookup_empty in Hr.
    by apply not_elem_of_nil in Hr.
Qed.

Lemma ctrl_inv_reachable limit f : reachable fanout_step (new_fanout limit) f → ctrl_inv f.
Proof.
  apply reachable_invariant; [apply ctrl_inv_new|]. intros f0 f1 Hinv [op Hop]. by eapply ctrl_inv_op.
Qed.

(** ** Mailbox contents *)

(** The accounting of one mailbox: what the shared counter says and how large
    the backlog can be. *)
Record box_mem (limit : nat) (fin : bool) (b : Mailbox) : Prop := mkBoxMem {
  bm_open : closed b = false → pending_bytes b = Z.of_nat (box_bytes b);
  bm_closed : closed b = true → queue b = [] ∧ flight b = None;
  bm_bound : box_bytes b ≤ max limit (sum_len (batch b)) + final_bytes b;
  bm_final : fin = false → final_bytes b = 0
}.

(** [wire] is what the task has written: the front of what was queued, the
    rest being in flight or in the queue while the task lives. *)
Definition box_wire (wire : list (list Z)) (b : Mailbox) : Prop :=
  ∃ rest, sent b = wire ++ rest ∧
    (closed b = false → rest = option_list (flight b) ++ queue b).

(** Behind its last snapshot a mailbox got the broadcasts made since, from the
    first one and without a gap; all of them unless it lags. *)
Definition box_stream (bc : list (list Z)) (b : Mailbox) : Prop :=
  ∃ pre live rest, sent b = pre ++ batch b ++ live ∧ synced_at b ≤ length bc ∧
    drop (synced_at b) bc = live ++ rest ∧ (lagged_since b = None → rest = []).

Lemma sum_len_snoc l (x : list Z) : sum_len (l ++ [x]) = sum_len l + length x.
Proof. rewrite sum_len_app. unfold sum_len. cbn. lia. Qed.

Lemma box_enqueue_all_closed b lines :
  closed b = true → lines ≠ [] → box_enqueue_all b lines = (b, false).
Proof. intros Hc Hl. destruct lines; [done|]. cbn. unfold box_enqueue. by rewrite Hc. Qed.

Lemma box_enqueue_all_open b lines :
  closed b = false →
  box_enqueue_all b lines =
    (mkBox (writer_id b) (kind b) (queue b ++ lines) (flight b)
       (pending_bytes b + Z.of_nat (sum_len lines)) (lagged b) (cancelled b) (closed b)
       (lagged_since b) (sent b ++ lines) (batch b) (synced_at b) (final_bytes b), true).
Proof.
  revert b. induction lines as [|line lines IH]; intros b Hc; cbn [box_enqueue_all].
  - rewrite !app_nil_r, Z.add_0_r. by destruct b.
  - unfold box_enqueue. rewrite Hc, IH by done. box_cbn.
    rewrite <- !app_assoc. change (sum_len (line :: lines)) with (length line + sum_len lines).
    do 2 f_equal. lia.
Qed.

(** *** One broadcast *)

Lemma enqueued_cases limit now line b :
  enqueued limit now line b = b ∨
  (closed b = false ∧ lagged_since b = None ∧ enqueued limit now line b = set_lag b true (Some now)) ∨
  (closed b = false ∧ lagged_since b = None ∧
   (pending_bytes b + Z.of_nat (length line) <= Z.of_nat limit)%Z ∧
   enqueued limit now line b = (box_enqueue b line).1).
Proof.
  unfold enqueued, enqueue_one, box_enqueue. destruct (closed b); [by left|].
  destruct (lagged_since b); [by left|]. case_bool_decide; [by right; left|].
  right; right. split_and!; try done. lia.
Qed.

Lemma box_mem_enqueued limit fin now line b :
  box_mem limit fin b → box_mem limit fin (enqueued limit now line b).
Proof.
  intros [M1 M2 M3 M4].
  destruct (enqueued_cases limit now line b) as [->|[(Hc & Hl & ->)|(Hc & Hl & Hlim & ->)]].
  - by constructor.
  - constructor; auto.
  - unfold box_enqueue. rewrite Hc. specialize (M1 Hc). unfold box_bytes in *.
    constructor; unfold box_bytes; box_cbn; rewrite ?sum_len_snoc; [lia|congruence|lia|auto].
Qed.

Lemma box_wire_enqueued limit now line b wire :
  box_wire wire b → box_wire wire (enqueued limit now line b).
Proof.
  intros Hw. destruct (enqueued_cases limit now line b) as [->|[(Hc & Hl & ->)|(Hc & Hl & _ & ->)]];
    [done|done|].
  destruct Hw as (rest & Hs & Hr). unfold box_enqueue. rewrite Hc. exists (rest ++ [line]). cbn.
  rewrite Hs, app_assoc. split; [done|]. intros _. by rewrite (Hr Hc), app_assoc.
Qed.

Lemma box_stream_enqueued limit now line b bc :
  closed b = false → box_stream bc b → box_stream (bc ++ [line]) (enqueued limit now line b).
Proof.
  intros Hopen (pre & live & rest & Hs & Hat & Hd & Hrest).
  assert (drop (synced_at b) (bc ++ [line]) = live ++ rest ++ [line]) as Hd'
    by (by rewrite drop_app_le, Hd, app_assoc).
  destruct (lagged_since b) as [since|] eqn:Hl.
  - assert (enqueued limit now line b = b) as ->
      by (destruct (enqueued_cases limit now line b) as [->|[(_ & ? & _)|(_ & ? & _)]]; congruence).
    exists pre, live, (rest ++ [line]). rewrite length_app, Hl. split_and!; [done|lia|done|done].
  - unfold enqueued, enqueue_one, box_enqueue. rewrite Hopen, Hl, (Hrest eq_refl) in *.
    case_bool_decide; cbn.
    + exists pre, live, [line]. cbn. rewrite length_app. split_and!; [done|lia|done|done].
    + exists pre, (live ++ [line]), []. cbn. rewrite Hs, length_app, app_nil_r, <- !app_assoc.
      split_and!; [done|lia|done|done].
Qed.

(** *** Resynchronization *)

Lemma resync_one_cases lines at_ b :
  lines ≠ [] →
  resync_one lines at_ b = b ∨
  (closed b = false ∧ pending_bytes b = 0%Z ∧
   resync_one lines at_ b = set_lag (mark_synced (box_enqueue_all b lines).1 lines at_) false None).
Proof.
  intros Hne. unfold resync_one, drained_lagged. destruct (lagged_since b); [|by left].
  case_bool_decide as Hp; [|by left]. destruct (closed b) eqn:Hc.
  - left. by rewrite box_enqueue_all_closed.
  - right. by rewrite box_enqueue_all_open.
Qed.

Lemma box_mem_resync limit fin lines at_ b :
  lines ≠ [] → (fin = false) →
  box_mem limit fin b → box_mem limit fin (resync_one lines at_ b).
Proof.
  intros Hne Hfin [M1 M2 M3 M4].
  destruct (resync_one_cases lines at_ b Hne) as [->|(Hc & Hp & ->)]; [by constructor|].
  rewrite box_enqueue_all_open by done. specialize (M1 Hc). unfold box_bytes in *.
  constructor; unfold box_bytes; box_cbn; rewrite ?sum_len_app; [lia|congruence|lia|auto].
Qed.

Lemma box_wire_resync lines at_ b wire :
  lines ≠ [] → box_wire wire b → box_wire wire (resync_one lines at_ b).
Proof.
  intros Hne Hw. destruct (resync_one_cases lines at_ b Hne) as [->|(Hc & _ & ->)]; [done|].
  rewrite box_enqueue_all_open by done. destruct Hw as (rest & Hs & Hr). exists (rest ++ lines). cbn.
  rewrite Hs, app_assoc. split; [done|]. intros _. by rewrite (Hr Hc), app_assoc.
Qed.

Lemma box_stream_resync lines bc b :
  lines ≠ [] → box_stream bc b → box_stream bc (resync_one lines (length bc) b).
Proof.
  intros Hne Hst. destruct (resync_one_cases lines (length bc) b Hne) as [->|(Hc & _ & ->)]; [done|].
  rewrite box_enqueue_all_open by done. exists (sent b), [], []. cbn.
  rewrite app_nil_r, drop_all. split_and!; done.
Qed.

(** *** The final event, cancellation, registration *)

Lemma box_mem_abort limit fin b : final_bytes b = 0 → box_mem limit fin (abort b).
Proof. intros Hf. constructor; unfold box_bytes; box_cbn; [done|done|cbn; lia|done]. Qed.

Lemma box_mem_final limit line b :
  box_mem limit false b → box_mem limit true (final_one line b).
Proof.
  intros [M1 M2 M3 M4]. specialize (M4 eq_refl). unfold final_one, box_enqueue.
  destruct (lagged_since b); [by apply box_mem_abort|].
  destruct (closed b) eqn:Hc; [by apply box_mem_abort|]. specialize (M1 eq_refl).
  unfold box_bytes in *.
  constructor; unfold box_bytes; box_cbn; rewrite ?sum_len_snoc; [lia|done|lia|done].
Qed.

Lemma box_wire_final line b wire : box_wire wire b → box_wire wire (final_one line b).
Proof.
  intros (rest & Hs & Hr). unfold final_one, box_enqueue.
  destruct (lagged_since b); [by exists rest|].
  destruct (closed b) eqn:Hc; [by exists rest|]. exists (rest ++ [line]). cbn.
  rewrite Hs, app_assoc. split; [done|]. intros _. by rewrite (Hr eq_refl), app_assoc.
Qed.

Lemma box_mem_cancelled_for limit fin w b :
  box_mem limit fin b → box_mem limit fin (cancelled_for w b).
Proof. intros []. unfold cancelled_for. case_bool_decide; by constructor. Qed.

Lemma box_wire_cancelled_for w b wire : box_wire wire b → box_wire wire (cancelled_for w b).
Proof. unfold cancelled_for. by case_bool_decide. Qed.

Lemma box_stream_cancelled_for w b bc : box_stream bc b → box_stream bc (cancelled_for w b).
Proof. unfold cancelled_for. by case_bool_decide. Qed.

Lemma registered_box w k initial at_ :
  mark_synced (box_enqueue_all (new_box w k) initial).1 initial at_ =
    mkBox w k initial None (Z.of_nat (sum_len initial)) false false false None initial initial at_ 0.
Proof. by rewrite box_enqueue_all_open. Qed.

(** ** The invariant of all mailboxes *)

(** The lines of registration [r] that are on the socket [w], in order. *)
Definition wire (f : FanoutState) (r : RegId) (w : WriterId) : list (list Z) :=
  snd <$> filter (λ p, p.1 = r) (log (socket f w)).

Definition box_ok (f : FanoutState) (r : RegId) (b : Mailbox) : Prop :=
  box_mem (budget f) (finished f) b ∧ box_wire (wire f r (writer_id b)) b ∧
  (finished f = false → r ∈ attached f ++ observers f → closed b = false →
   box_stream (broadcast f) b).

Definition data_inv (f : FanoutState) : Prop := ∀ r b, boxes f !! r = Some b → box_ok f r b.

Lemma wire_sockets f f' r w : sockets f' = sockets f → wire f' r w = wire f r w.
Proof. intros Hs. unfold wire, socket. by rewrite Hs. Qed.

Lemma wire_set_socket f w h extra r w' :
  wire (set_socket f w (mkSocket h (log (socket f w) ++ extra))) r w' =
  wire f r w' ++ (if decide (w = w') then snd <$> filter (λ p, p.1 = r) extra else []).
Proof.
  unfold wire. rewrite socket_set_socket. case_decide; [subst w'|by rewrite app_nil_r].
  cbn. by rewrite filter_app, fmap_app.
Qed.

Lemma filter_no_match (r : RegId) (l : list (RegId * list Z)) :
  (∀ line, (r, line) ∉ l) → filter (λ p, p.1 = r) l = [].
Proof.
  induction l as [|[r' line] l IH]; intros Hl; [done|]. rewrite filter_cons_False.
  - apply IH. intros line' Hin. apply (Hl line'). by right.
  - cbn. intros ->. apply (Hl line). by left.
Qed.

Lemma wire_unlogged f r w : ctrl_inv f → boxes f !! r = None → wire f r w = [].
Proof.
  intros Hinv Hb. unfold wire. rewrite filter_no_match; [done|]. intros line Hin.
  destruct (ci_log f Hinv w r line Hin) as (b & Hb' & _). congruence.
Qed.

(** Listed mailboxes after a removal or broadcast were listed before it. *)
Lemma listed_sub f f' r :
  (∀ k, sublist (list_of f' k) (list_of f k)) →
  r ∈ attached f' ++ observers f' → r ∈ attached f ++ observers f.
Proof.
  intros Hsub. rewrite !elem_of_app. intros [Hr|Hr]; [left|right].
  - by eapply elem_of_sublist; [|apply (Hsub Attached)].
  - by eapply elem_of_sublist; [|apply (Hsub Observer)].
Qed.

(** A conditional map over the store: what a registry operation does. *)
Lemma fmap_cond_inv (P : Prop) `{Decision P} (g : Mailbox → Mailbox) (o : option Mailbox) b' :
  (if decide P then g <$> o else o) = Some b' →
  ∃ b, o = Some b ∧ ((P ∧ b' = g b) ∨ (¬ P ∧ b' = b)).
Proof.
  case_decide; destruct o as [b|]; cbn; intros [= <-]; exists b; split; auto.
Qed.

Lemma data_inv_remove f k w : ctrl_inv f → data_inv f → data_inv (remove f k w).
Proof.
  intros Hc Hd r b' Hb'.
  pose proof (remove_spec f k w (ci_nodup f Hc)) as (S1 & S2 & S3 & S4 & E2 & E3 & E4 & E5 & E6).
  rewrite S1 in Hb'. apply fmap_cond_inv in Hb' as (b & Hb & Hcase).
  destruct (Hd r b Hb) as (Hm & Hw & Hs). unfold box_ok. rewrite E4, E5, E6, (wire_sockets f) by done.
  destruct Hcase as [[_ ->]|[_ ->]].
  - rewrite (bl_writer _ _ (cancelled_for_le w b)).
    split_and!; [by apply box_mem_cancelled_for|by apply box_wire_cancelled_for|].
    intros Hf Hin Hcl. apply box_stream_cancelled_for, Hs; [done|by eapply listed_sub|].
    unfold cancelled_for in Hcl. by case_bool_decide.
  - split_and!; [done|done|]. intros Hf Hin Hcl. apply Hs; [done|by eapply listed_sub|done].
Qed.

Lemma data_inv_enqueue f line now : ctrl_inv f → data_inv f → data_inv (enqueue f line now).1.
Proof.
  intros Hc Hd r b' Hb'.
  pose proof (enqueue_spec f line now (ci_nodup f Hc)) as (S1 & S2 & S3 & E2 & E3 & E4 & E5 & E6).
  rewrite S1 in Hb'. apply fmap_cond_inv in Hb' as (b & Hb & Hcase).
  destruct (Hd r b Hb) as (Hm & Hw & Hs). unfold box_ok. rewrite E4, E5, E6, (wire_sockets f) by done.
  destruct Hcase as [[Hin ->]|[Hin ->]].
  - rewrite (bl_writer _ _ (enqueued_le _ _ _ _)).
    split_and!; [by apply box_mem_enqueued|by apply box_wire_enqueued|].
    intros Hf Hin' Hcl. assert (closed b = false) as Hcl'.
    { destruct (closed b) eqn:Hx; [|done]. by rewrite (bl_closed _ _ (enqueued_le _ _ _ b) Hx) in Hcl. }
    apply box_stream_enqueued; [done|]. by apply Hs.
  - split_and!; [done|done|]. intros Hf Hin' Hcl. destruct Hin. by eapply listed_sub.
Qed.

Lemma data_inv_resync f lines :
  finished f = false → ctrl_inv f → data_inv f → data_inv (resync_drained f lines).
Proof.
  intros Hfin Hc Hd r b' Hb'.
  pose proof (resync_spec f lines (ci_nodup f Hc)) as (S1 & S2 & E2 & E3 & E4 & E5 & E6).
  rewrite S1 in Hb'. apply fmap_cond_inv in Hb' as (b & Hb & Hcase).
  destruct (Hd r b Hb) as (Hm & Hw & Hs). unfold box_ok. rewrite E4, E5, E6, (wire_sockets f) by done.
  assert (r ∈ attached (resync_drained f lines) ++ observers (resync_drained f lines) →
          r ∈ attached f ++ observers f) as Hlist
    by (apply listed_sub; intros k; by rewrite S2).
  destruct Hcase as [[[Hin Hne] ->]|[_ ->]].
  - rewrite (bl_writer _ _ (resync_one_le _ _ _)).
    split_and!; [by apply box_mem_resync|by apply box_wire_resync|].
    intros Hf Hin' Hcl. apply box_stream_resync; [done|]. apply Hs; auto.
    destruct (closed b) eqn:Hx; [|done]. by rewrite (bl_closed _ _ (resync_one_le _ _ b) Hx) in Hcl.
  - split_and!; auto.
Qed.

Lemma data_inv_final f line :
  finished f = false → ctrl_inv f → data_inv f → data_inv (deliver_final f line).
Proof.
  intros Hfin Hc Hd r b' Hb'. rewrite final_spec in Hb' by apply Hc.
  apply fmap_cond_inv in Hb' as (b & Hb & Hcase).
  destruct (Hd r b Hb) as (Hm & Hw & _). rewrite Hfin in Hm. unfold box_ok.
  rewrite (wire_sockets f) by done. cbn [budget finished deliver_final].
  destruct Hcase as [[_ ->]|[_ ->]].
  - rewrite (bl_writer _ _ (final_one_le _ _)).
    split_and!; [by apply box_mem_final|by apply box_wire_final|done].
  - split_and!; [|done|done]. destruct Hm; by constructor.
Qed.

Lemma data_inv_register f k w initial :
  finished f = false → ctrl_inv f → data_inv f → data_inv (register f k w initial).
Proof.
  intros Hfin Hc Hd. pose proof (ctrl_inv_remove f k w Hc) as Hc'.
  pose proof (data_inv_remove f k w Hc Hd) as Hd'.
  pose proof (register_fields f k w initial) as (Eb & El & En & Es & Ef & Ebu & Ebc).
  set (g := remove f k w) in *. intros r b Hb. rewrite Eb, registered_box in Hb.
  unfold box_ok. rewrite Ef, Ebu, Ebc, (wire_sockets g) by done.
  apply lookup_insert_Some in Hb as [[<- <-]|[Hne Hb]].
  - rewrite (wire_unlogged g); [|done|by apply (fresh_unused g)]. split_and!.
    + constructor; unfold box_bytes; box_cbn; [lia|done|lia|done].
    + by exists initial.
    + intros _ _ _. exists [], [], []. box_cbn. rewrite app_nil_r, drop_all. by split_and!.
  - destruct (Hd' r b Hb) as (Hm & Hw & Hs). split_and!; [done|done|].
    intros Hf Hin. apply Hs; [done|]. pose proof (El Attached) as Ea. pose proof (El Observer) as Eo.
    cbn [list_of] in Ea, Eo. rewrite Ea, Eo, !elem_of_app in Hin. apply elem_of_app.
    destruct Hin as [[?|Hx]|[?|Hx]]; auto; exfalso; apply Hne; destruct k; cbn in Hx;
      by first [apply not_elem_of_nil in Hx | apply list_elem_of_singleton in Hx].
Qed.

(** A change of sockets and of one mailbox by that mailbox's own task. *)
Lemma data_inv_task f f' r b b' :
  boxes f !! r = Some b → boxes f' = <[r := b']> (boxes f) →
  budget f' = budget f → finished f' = finished f → broadcast f' = broadcast f →
  attached f' = attached f → observers f' = observers f →
  (∀ r' w, r' ≠ r → wire f' r' w = wire f r' w) →
  box_ok f' r b' → data_inv f → data_inv f'.
Proof.
  intros Hb Eb E1 E2 E3 E4 E5 Hw Hok Hd r' c Hc. rewrite Eb in Hc.
  apply lookup_insert_Some in Hc as [[<- <-]|[Hne Hc]]; [done|].
  destruct (Hd r' c Hc) as (Hm & Hwc & Hs). unfold box_ok. by rewrite E1, E2, E3, E4, E5, Hw.
Qed.

Lemma box_stream_same bc b b' :
  sent b' = sent b → batch b' = batch b → synced_at b' = synced_at b →
  lagged_since b' = lagged_since b → box_stream bc b → box_stream bc b'.
Proof. unfold box_stream. by intros -> -> -> ->. Qed.

Lemma data_inv_recv f r f' : task_recv f r = Some f' → data_inv f → data_inv f'.
Proof.
  intros (b & line & rest & Hb & Hcl & Hfl & Hq & ->)%task_recv_inv Hd.
  destruct (Hd r b Hb) as ([M1 M2 M3 M4] & (rem & Hs & Hr) & Hst).
  eapply data_inv_task; [done|reflexivity|done..| |done]. specialize (M1 Hcl).
  unfold box_bytes in M1, M3. rewrite Hq, Hfl in M1, M3.
  change (sum_len (line :: rest)) with (length line + sum_len rest) in M1, M3.
  split_and!.
  - constructor; unfold box_bytes; box_cbn; [lia|congruence|lia|done].
  - exists rem. split; [done|]. intros _. box_cbn. rewrite (Hr Hcl), Hfl, Hq. done.
  - intros Hf Hin Hc. eapply box_stream_same; [..|apply Hst]; done.
Qed.

Lemma box_mem_ended limit fin b line :
  box_mem limit fin b → box_mem limit fin (task_done b line true).
Proof. intros [M1 M2 M3 M4]. constructor; unfold box_bytes; box_cbn; [done|done|change (sum_len []) with 0; lia|done]. Qed.

Lemma box_mem_written limit fin b line :
  flight b = Some line → closed b = false →
  box_mem limit fin b → box_mem limit fin (task_done b line false).
Proof.
  intros Hfl Hcl [M1 M2 M3 M4]. specialize (M1 Hcl). unfold box_bytes in M1, M3.
  rewrite Hfl in M1, M3. constructor; unfold box_bytes; box_cbn; [lia|done|lia|done].
Qed.

Lemma data_inv_begin f r f' : task_begin f r = Some f' → data_inv f → data_inv f'.
Proof.
  intros (b & line & Hb & Hcl & Hfl & Hh & [[Hca ->]|[Hca ->]])%task_begin_inv Hd.
  - destruct (Hd r b Hb) as (Hm & (rem & Hs & Hr) & Hst).
    eapply data_inv_task; [done|reflexivity|done..| |done].
    split_and!; [by apply box_mem_ended|by exists rem|done].
  - intros r' c Hc. destruct (Hd r' c Hc) as (Hm & Hw & Hs). split_and!; [done| |done].
    rewrite <- (app_nil_r (log _)), wire_set_socket. case_decide; by rewrite app_nil_r.
Qed.

Lemma data_inv_abandon f r f' : task_abandon f r = Some f' → data_inv f → data_inv f'.
Proof.
  intros (b & Hb & Hcl & Hh & ->)%task_abandon_inv Hd r' c Hc.
  destruct (Hd r' c Hc) as (Hm & Hw & Hs). split_and!; [done| |done].
  rewrite <- (app_nil_r (log _)), wire_set_socket. case_decide; by rewrite app_nil_r.
Qed.

Lemma data_inv_end f r ok f' : task_end f r ok = Some f' → data_inv f → data_inv f'.
Proof.
  intros (b & line & n & Hb & Hcl & Hfl & Hh & ->)%task_end_inv Hd.
  destruct (Hd r b Hb) as (Hm & (rem & Hs & Hr) & Hst).
  assert (∀ r' w, wire (end_socket f b r line ok) r' w =
            wire f r' w ++ (if decide (writer_id b = w ∧ r = r' ∧ ok = true) then [line] else [])) as Hwire.
  { intros r' w. unfold end_socket. rewrite wire_set_socket. f_equal.
    destruct ok; [|by case_decide; rewrite decide_False by naive_solver].
    destruct (decide (writer_id b = w)) as [?|?]; [|by rewrite decide_False by naive_solver].
    destruct (decide (r = r')) as [<-|Hne].
    - by rewrite filter_cons_True, decide_True.
    - by rewrite filter_cons_False, decide_False by naive_solver. }
  eapply data_inv_task; [done|reflexivity|done..| | |done].
  { intros r' w Hne. etransitivity; [apply Hwire|].
    rewrite decide_False by naive_solver. apply app_nil_r. }
  split_and!.
  - destruct ok; [by apply box_mem_written|by apply box_mem_ended].
  - change (box_wire (wire (end_socket f b r line ok) r (writer_id b)) (task_done b line (negb ok))).
    rewrite Hwire. destruct ok.
    + rewrite decide_True by done. exists (queue b). box_cbn.
      rewrite Hs, (Hr Hcl), Hfl, <- app_assoc. done.
    + rewrite decide_False by naive_solver. exists rem. by rewrite app_nil_r.
  - intros Hf Hin Hc. eapply box_stream_same; [..|apply Hst]; try done.
Qed.

Lemma data_inv_op f op f' : fanout_op f op = Some f' → ctrl_inv f → data_inv f → data_inv f'.
Proof.
  intros Hop Hc Hd. destruct op; cbn [fanout_op] in Hop;
    try (destruct (finished f) eqn:Hfin; [discriminate|]); try injection Hop as <-; try done.
  - by apply data_inv_register.
  - by apply data_inv_remove.
  - apply data_inv_remove; [by apply ctrl_inv_remove|by apply data_inv_remove].
  - by apply data_inv_enqueue.
  - by apply data_inv_resync.
  - by apply data_inv_final.
  - by eapply data_inv_recv.
  - by eapply data_inv_begin.
  - by eapply data_inv_end.
  - by eapply data_inv_abandon.
Qed.

Lemma remove_budget f k w : ctrl_inv f → budget (remove f k w) = budget f.
Proof.
  intros Hc. by destruct (remove_spec f k w (ci_nodup f Hc)) as (_ & _ & _ & _ & _ & _ & _ & -> & _).
Qed.

Lemma fanout_op_budget f op f' : fanout_op f op = Some f' → ctrl_inv f → budget f' = budget f.
Proof.
  intros Hop Hc. destruct op; cbn [fanout_op] in Hop;
    try (destruct (finished f) eqn:Hfin; [discriminate|]); try injection Hop as <-; try done.
  - destruct (register_fields f k w initial) as (_ & _ & _ & _ & _ & -> & _). by apply remove_budget.
  - by apply remove_budget.
  - unfold remove_writer_everywhere.
    rewrite remove_budget by (by apply ctrl_inv_remove). by apply remove_budget.
  - by destruct (enqueue_spec f line now (ci_nodup f Hc)) as (_ & _ & _ & _ & _ & _ & -> & _).
  - by destruct (resync_spec f lines (ci_nodup f Hc)) as (_ & _ & _ & _ & _ & -> & _).
  - by apply task_recv_inv in Hop as (? & ? & ? & _ & _ & _ & _ & ->).
  - by apply task_begin_inv in Hop as (? & ? & _ & _ & _ & _ & [[_ ->]|[_ ->]]).
  - by apply task_end_inv in Hop as (? & ? & ? & _ & _ & _ & _ & ->).
  - by apply task_abandon_inv in Hop as (? & _ & _ & _ & ->).
Qed.

Lemma fanout_inv_reachable limit f :
  reachable fanout_step (new_fanout limit) f → ctrl_inv f ∧ data_inv f ∧ budget f = limit.
Proof.
  apply (reachable_invariant fanout_step (λ f, ctrl_inv f ∧ data_inv f ∧ budget f = limit)).
  - split_and!; [apply ctrl_inv_new|intros r b Hb; discriminate Hb|done].
  - intros f0 f1 (Hc & Hd & Hb) [op Hop].
    pose proof (fanout_op_budget f0 op f1 Hop Hc).
    split_and!; [by eapply ctrl_inv_op|by eapply data_inv_op|congruence].
Qed.

(** ** The guarantees *)

Fixpoint run_fanout (ops : list FanoutOp) (f : FanoutState) : option FanoutState :=
  match ops with
  | [] => Some f
  | op :: ops => match fanout_op f op with Some f' => run_fanout ops f' | None => None end
  end.

Lemma run_fanout_reachable ops f0 f f' :
  reachable fanout_step f0 f → run_fanout ops f = Some f' → reachable fanout_step f0 f'.
Proof.
  revert f. induction ops as [|op ops IH]; intros f Hr; cbn [run_fanout]; [by intros [= <-]|].
  destruct (fanout_op f op) as [f1|] eqn:Hop; [|done]. apply IH.
  eapply reachable_step; [done|]. by exists op.
Qed.

(** C27: the cutover of a reattach.  However registry operations and writer
    tasks interleave, once a line of a later registration in the same role is
    on a connection's socket, no line of an earlier one follows it: a fresh
    snapshot is never followed by stale output. *)
Theorem replacement_cuts_over limit f w i j (r1 r2 : RegId) l1 l2 b1 b2 :
  reachable fanout_step (new_fanout limit) f →
  log (socket f w) !! i = Some (r1, l1) → log (socket f w) !! j = Some (r2, l2) →
  boxes f !! r1 = Some b1 → boxes f !! r2 = Some b2 → kind b1 = kind b2 →
  r1 < r2 → i < j.
Proof.
  intros Hr%ctrl_inv_reachable H1 H2 Hb1 Hb2 Hk Hlt.
  destruct (decide (i < j)) as [|Hij]; [done|].
  destruct (decide (i = j)) as [<-|Hne]; [rewrite H1 in H2; injection H2; lia|].
  pose proof (ci_sorted f Hr w j i r2 l2 r1 l1 b2 b1 ltac:(lia) H2 H1 Hb2 Hb1). exfalso. 
  assert (r2 ≤ r1) by auto. lia.
Qed.

(** A reattach with the old registration's line in flight, its next one
    queued. *)
Definition reattach_run : list FanoutOp :=
  [FRegister Attached 7 [[1%Z]]; FEnqueue [2%Z] 0; FEnqueue [3%Z] 0; FRecv 0; FBegin 0;
   FRegister Attached 7 [[9%Z]]; FEnqueue [4%Z] 0; FRecv 1; FEnd 0 true; FRecv 0; FBegin 1;
   FEnd 1 true; FBegin 0; FRecv 1; FBegin 1; FEnd 1 true].

Definition reattached : FanoutState :=
  default (new_fanout 100) (run_fanout reattach_run (new_fanout 100)).

Theorem replacement_cuts_over_witness :
  log (socket reattached 7) = [(0, [1%Z]); (1, [9%Z]); (1, [4%Z])] ∧ 0 < 2.
Proof.
  split; [vm_compute; reflexivity|].
  refine (replacement_cuts_over 100 reattached 7 0 2 0 1 [1%Z] [4%Z]
            (default (new_box 0 Attached) (boxes reattached !! 0))
            (default (new_box 0 Attached) (boxes reattached !! 1)) _ _ _ _ _ _ _).
  - apply (run_fanout_reachable reattach_run _ (new_fanout 100)); [constructor|vm_compute; reflexivity].
  - vm_compute; reflexivity.
  - vm_compute; reflexivity.
  - vm_compute; reflexivity.
  - vm_compute; reflexivity.
  - vm_compute; reflexivity.
  - lia.
Defined.

(** C30: snapshot-first, gap-free delivery.  What a registration's task has put
    on the socket is, in order, the front of what was queued for it, all of it
    but the line in flight and the queue while the task lives; and for a
    listed live subscriber what was queued ends with its last authoritative
    batch followed by the broadcasts made since, from the very next one,
    without a gap, and up to the latest unless it lags. *)
Theorem delivery_is_snapshot_then_live limit f r b :
  reachable fanout_step (new_fanout limit) f → boxes f !! r = Some b →
  (∃ rest, sent b = wire f r (writer_id b) ++ rest ∧
     (closed b = false → rest = option_list (flight b) ++ queue b)) ∧
  (finished f = false → r ∈ attached f ++ observers f → closed b = false →
   ∃ pre live missed, sent b = pre ++ batch b ++ live ∧
     drop (synced_at b) (broadcast f) = live ++ missed ∧
     (lagged_since b = None → missed = [])).
Proof.
  intros (_ & Hd & _)%fanout_inv_reachable Hb. destruct (Hd r b Hb) as (_ & Hw & Hs).
  split; [done|]. intros Hf Hin Hc.
  destruct (Hs Hf Hin Hc) as (pre & live & rest & ? & _ & ? & ?). by exists pre, live, rest.
Qed.

(** A slow subscriber with a two-byte budget: two lines pass, the third makes
    it lag, and draining brings a fresh batch. *)
Definition lag_run : list FanoutOp :=
  [FRegister Observer 5 []; FEnqueue [1%Z] 0; FEnqueue [2%Z] 1; FEnqueue [3%Z] 2; FRecv 0; FBegin 0;
   FEnd 0 true; FRecv 0; FBegin 0; FEnd 0 true; FTakeNotify; FResync [[8%Z; 8%Z; 8%Z]];
   FRecv 0; FBegin 0; FEnqueue [4%Z] 3].

Definition after_lag : FanoutState := default (new_fanout 2) (run_fanout lag_run (new_fanout 2)).

Theorem delivery_is_snapshot_then_live_witness :
  wire after_lag 0 5 = [[1%Z]; [2%Z]] ∧
  ∃ rest, sent (default (new_box 0 Observer) (boxes after_lag !! 0)) =
            wire after_lag 0 5 ++ rest.
Proof.
  split; [vm_compute; reflexivity|].
  edestruct (delivery_is_snapshot_then_live 2 after_lag 0
               (default (new_box 0 Observer) (boxes after_lag !! 0))) as [[rest [Hs _]] _].
  - apply (run_fanout_reachable lag_run _ (new_fanout 2)); [constructor|vm_compute; reflexivity].
  - vm_compute; reflexivity.
  - exists rest. exact Hs.
Defined.

(** C35: bounded memory.  Until the final event a mailbox holds at most the
    budget or its last authoritative batch, whichever is larger, however slow
    the socket is and however much is broadcast; the final event adds its own
    length once; and the shared counter is exactly the bytes held while the
    task lives. *)
Theorem mailbox_memory_bounded limit f r b :
  reachable fanout_step (new_fanout limit) f → boxes f !! r = Some b →
  box_bytes b ≤ max limit (sum_len (batch b)) + final_bytes b ∧
  (finished f = false → box_bytes b ≤ max limit (sum_len (batch b))) ∧
  (closed b = false → pending_bytes b = Z.of_nat (box_bytes b)).
Proof.
  intros (_ & Hd & Hlim)%fanout_inv_reachable Hb. destruct (Hd r b Hb) as ([M1 M2 M3 M4] & _ & _).
  rewrite Hlim in M3. split_and!; [done| |done]. intros Hf. rewrite (M4 Hf) in M3. lia.
Qed.

Theorem mailbox_memory_bounded_witness :
  box_bytes (default (new_box 0 Observer) (boxes after_lag !! 0)) = 3 ∧
  box_bytes (default (new_box 0 Observer) (boxes after_lag !! 0)) ≤ 3 + 0.
Proof.
  split; [vm_compute; reflexivity|].
  refine (proj1 (mailbox_memory_bounded 2 after_lag 0
                   (default (new_box 0 Observer) (boxes after_lag !! 0)) _ _)).
  - apply (run_fanout_reachable lag_run _ (new_fanout 2)); [constructor|vm_compute; reflexivity].
  - vm_compute; reflexivity.
Defined.

(** The final event is queued without a budget check, so the documented
    bound [max(budget, snapshot + status)] is exceeded by its length: here a
    two-byte budget, an empty first batch, two queued bytes and a three-byte
    final event. *)
Theorem final_event_exceeds_documented_bound :
  ∃ f b, run_fanout [FRegister Attached 1 []; FEnqueue [1%Z; 1%Z] 0; FFinal [2%Z; 2%Z; 2%Z]]
           (new_fanout 2) = Some f ∧
         boxes f !! 0 = Some b ∧ closed b = false ∧
         max 2 (sum_len (batch b)) < box_bytes b.
Proof. eexists _, _. split_and!; [vm_compute; reflexivity..|]. vm_compute. lia. Qed.
