(* ===== verification/TerminalSize.v ===== *)
(** * Who sizes a terminal ([SessionSizeState] of [crates/daemon/src/client.rs])

    Several clients view one PTY, which has one size.  Registered viewers elect
    a controller whose geometry the PTY takes; peers that never registered fall
    back to the smallest of their sizes.  Writer ids are numbers; [u16] columns
    and rows are integers. *)

From S2P Require Import Prelude RustStd.

Inductive TerminalViewerRole := Local_ | Remote.

#[export] Instance TerminalViewerRole_eq_dec : EqDecision TerminalViewerRole.
Proof. solve_decision. Defined.

Abbreviation WriterId := nat (only parsing).
Abbreviation Size := (Z * Z)%type (only parsing).

Record TerminalViewer := mkViewer {
  viewer_id : list Z;
  role : TerminalViewerRole;
  cols : Z;
  rows : Z;
  visible : bool;
  viewer_generation : Z
}.

Definition eligible (v : TerminalViewer) : bool :=
  visible v && bool_decide (0 < cols v)%Z && bool_decide (0 < rows v)%Z.

Record SessionSizeState := mkSizes {
  last_applied : Size;
  viewers : gmap WriterId TerminalViewer;
  legacy_sizes : gmap WriterId Size;
  controller : option WriterId;
  explicit_controller : option WriterId
}.

Definition new_sizes (spawn_size : Size) : SessionSizeState :=
  mkSizes spawn_size ∅ ∅ None None.

(** ** Election *)

Definition role_class (r : TerminalViewerRole) : nat :=
  match r with Local_ => 0 | Remote => 1 end.

Definition candidate_cmp (a b : WriterId * TerminalViewer) : comparison :=
  then_with (role_class (role a.2) ?= role_class (role b.2))%nat
    (then_with (str_cmp (viewer_id a.2) (viewer_id b.2)) (a.1 ?= b.1)%nat).

#[export] Instance candidate_cmp_laws : OrdLaws candidate_cmp.
Proof.
  apply (then_with_laws (λ a, role_class (role a.2)) id Nat.compare
           (λ a b : WriterId * TerminalViewer,
              then_with (str_cmp (viewer_id a.2) (viewer_id b.2)) (a.1 ?= b.1)%nat)).
Qed.

Definition candidates (s : SessionSizeState) : list (WriterId * TerminalViewer) :=
  List.filter (λ p, eligible p.2) (map_to_list (viewers s)).

Definition elected_candidate (s : SessionSizeState) : option WriterId :=
  fst <$> head (sort_by (cmp_le candidate_cmp) (candidates s)).

Definition has_eligible_local (s : SessionSizeState) : bool :=
  existsb (λ p, eligible p.2 && bool_decide (role p.2 = Local_)) (map_to_list (viewers s)).

(** [Option::is_some_and] on the viewer a writer id names. *)
Definition viewer_is (s : SessionSizeState) (w : WriterId) (p : TerminalViewer → bool) : bool :=
  from_option p false (viewers s !! w).

Definition set_controllers (s : SessionSizeState) (c e : option WriterId) : SessionSizeState :=
  mkSizes (last_applied s) (viewers s) (legacy_sizes s) c e.

(** The part of [elect] after an explicit controller has been ruled out. *)
Definition elect_current (s : SessionSizeState) : SessionSizeState :=
  let current_is_eligible := from_option (λ w, viewer_is s w eligible) false (controller s) in
  let current_is_remote :=
    from_option (λ w, viewer_is s w (λ v, bool_decide (role v = Remote))) false (controller s) in
  if current_is_eligible && negb (current_is_remote && has_eligible_local s) then s
  else set_controllers s (elected_candidate s) (explicit_controller s).

Definition elect (s : SessionSizeState) : SessionSizeState :=
  match explicit_controller s with
  | Some explicit =>
      if viewer_is s explicit eligible then set_controllers s (Some explicit) (Some explicit)
      else elect_current (set_controllers s (controller s) None)
  | None => elect_current s
  end.

(** ** Sizes *)

Definition min_of (l : list Z) (fallback : Z) : Z :=
  match l with [] => fallback | x :: l => foldr Z.min x l end.

Definition effective_terminal_size (sizes : gmap WriterId Size) (fallback : Size) : Size :=
  (min_of (map (λ p, p.2.1) (map_to_list sizes)) fallback.1,
   min_of (map (λ p, p.2.2) (map_to_list sizes)) fallback.2).

Definition proposed_size (s : SessionSizeState) : Size :=
  match controller s ≫= λ w, viewers s !! w with
  | Some v => (cols v, rows v)
  | None =>
      if bool_decide (viewers s = ∅)
      then effective_terminal_size (legacy_sizes s) (last_applied s)
      else last_applied s
  end.

Definition pending_resize (s : SessionSizeState) : option Size :=
  if bool_decide (proposed_size s = last_applied s) then None else Some (proposed_size s).

(** ** Operations: the new state and the resize to apply *)

Definition set_viewers (s : SessionSizeState) (vs : gmap WriterId TerminalViewer) : SessionSizeState :=
  mkSizes (last_applied s) vs (legacy_sizes s) (controller s) (explicit_controller s).

Definition set_legacy (s : SessionSizeState) (l : gmap WriterId Size) : SessionSizeState :=
  mkSizes (last_applied s) (viewers s) l (controller s) (explicit_controller s).

Definition register (s : SessionSizeState) (w : WriterId) (v : TerminalViewer)
    : SessionSizeState * option Size :=
  if viewer_is s w (λ old, bool_decide (viewer_generation v < viewer_generation old)%Z) then (s, None)
  else let s := elect (set_viewers s (<[w := v]> (viewers s))) in (s, pending_resize s).

Definition resized (v : TerminalViewer) (c r : Z) : TerminalViewer :=
  if visible v && bool_decide (0 < c)%Z && bool_decide (0 < r)%Z
  then mkViewer (viewer_id v) (role v) c r (visible v) (viewer_generation v) else v.

Definition resize (s : SessionSizeState) (w : WriterId) (c r : Z)
    : SessionSizeState * option Size :=
  match viewers s !! w with
  | Some v =>
      let s := elect (set_viewers s (<[w := resized v c r]> (viewers s))) in
      (s, if bool_decide (controller s = Some w) then pending_resize s else None)
  | None =>
      let s := set_legacy s (<[w := (c, r)]> (legacy_sizes s)) in (s, pending_resize s)
  end.

Definition takeover (s : SessionSizeState) (w : WriterId) : SessionSizeState * option Size :=
  if viewer_is s w eligible
  then let s := set_controllers s (Some w) (Some w) in (s, pending_resize s)
  else (s, None).

Definition release (s : SessionSizeState) (w : WriterId) : SessionSizeState * option Size :=
  if bool_decide (explicit_controller s = Some w)
  then let s := elect (set_controllers s None None) in (s, pending_resize s)
  else (s, None).

Definition remove (s : SessionSizeState) (w : WriterId) : SessionSizeState * option Size :=
  let removed_legacy := bool_decide (is_Some (legacy_sizes s !! w)) in
  let controlled :=
    bool_decide (controller s = Some w) || bool_decide (explicit_controller s = Some w) in
  let s := set_legacy (set_viewers s (delete w (viewers s))) (delete w (legacy_sizes s)) in
  if controlled
  then let s := elect (set_controllers s None None) in (s, pending_resize s)
  else (s, if removed_legacy && bool_decide (viewers s = ∅) then pending_resize s else None).

Definition mark_applied (s : SessionSizeState) (size : Size) : SessionSizeState :=
  mkSizes size (viewers s) (legacy_sizes s) (controller s) (explicit_controller s).

Inductive SizeOp :=
  | SRegister (w : WriterId) (v : TerminalViewer)
  | SResize (w : WriterId) (c r : Z)
  | STakeover (w : WriterId)
  | SRelease (w : WriterId)
  | SRemove (w : WriterId)
  | SApplied (size : Size).

Definition size_op (s : SessionSizeState) (op : SizeOp) : SessionSizeState * option Size :=
  match op with
  | SRegister w v => register s w v
  | SResize w c r => resize s w c r
  | STakeover w => takeover s w
  | SRelease w => release s w
  | SRemove w => remove s w
  | SApplied size => (mark_applied s size, None)
  end.

Definition size_step (s s' : SessionSizeState) : Prop := ∃ op, s' = (size_op s op).1.

(** ** The election *)

Definition eligible_at (s : SessionSizeState) (w : WriterId) (v : TerminalViewer) : Prop :=
  viewers s !! w = Some v ∧ eligible v = true.

Lemma viewer_is_true s w p : viewer_is s w p = true ↔ ∃ v, viewers s !! w = Some v ∧ p v = true.
Proof. unfold viewer_is. destruct (viewers s !! w); cbn; naive_solver. Qed.

Lemma viewer_is_false s w p : viewer_is s w p = false ↔ ∀ v, viewers s !! w = Some v → p v = false.
Proof. unfold viewer_is. destruct (viewers s !! w); cbn; naive_solver. Qed.

Lemma elem_of_candidates s w v : (w, v) ∈ candidates s ↔ eligible_at s w v.
Proof.
  unfold candidates, eligible_at. rewrite list_elem_of_In, filter_In, <-list_elem_of_In.
  by rewrite elem_of_map_to_list.
Qed.

(** Whom the election picks: an eligible viewer that no eligible one precedes,
    whatever order the map is iterated in. *)
Lemma elected_candidate_spec s :
  match elected_candidate s with
  | Some w => ∃ v, eligible_at s w v ∧
      ∀ w' v', eligible_at s w' v' → cmp_le candidate_cmp (w, v) (w', v') = true
  | None => ∀ w v, ¬ eligible_at s w v
  end.
Proof.
  unfold elected_candidate. destruct (head _) as [[w v]|] eqn:Hh; cbn.
  - apply sort_by_head in Hh as [Hin Hle]; [|apply _]. exists v.
    split; [by apply elem_of_candidates|]. intros w' v' H. by apply Hle, elem_of_candidates.
  - apply sort_by_head_None in Hh. intros w v H. apply elem_of_candidates in H. rewrite Hh in H.
    by apply not_elem_of_nil in H.
Qed.

Lemma has_eligible_local_spec s :
  has_eligible_local s = true ↔ ∃ w v, eligible_at s w v ∧ role v = Local_.
Proof.
  unfold has_eligible_local, eligible_at. rewrite existsb_exists. split.
  - intros ([w v] & Hin & H). apply list_elem_of_In, elem_of_map_to_list in Hin. bool_simpl.
    exists w, v. cbn in *. by split_and!.
  - intros (w & v & [Hv He] & Hr). exists (w, v).
    split; [by apply list_elem_of_In, elem_of_map_to_list|]. cbn. by rewrite He, Hr.
Qed.

(** Remote viewers yield to eligible local ones. *)
Definition no_local (s : SessionSizeState) : Prop := ∀ w v, eligible_at s w v → role v = Remote.

Definition election_ok (s : SessionSizeState) : Prop :=
  match explicit_controller s with
  | Some e => controller s = Some e ∧ ∃ v, eligible_at s e v
  | None =>
      match controller s with
      | Some c => ∃ v, eligible_at s c v ∧ (role v = Remote → no_local s)
      | None => ∀ w v, ¬ eligible_at s w v
      end
  end.

Lemma no_local_spec s : has_eligible_local s = false ↔ no_local s.
Proof.
  split.
  - intros H w v Hv. destruct (role v) eqn:Hr; [|done]. exfalso.
    assert (has_eligible_local s = true) by (apply has_eligible_local_spec; eauto). congruence.
  - intros H. apply not_true_iff_false. rewrite has_eligible_local_spec. intros (w & v & Hv & Hr).
    by rewrite (H w v Hv) in Hr.
Qed.

Lemma elect_current_ok s : explicit_controller s = None → election_ok (elect_current s).
Proof.
  intros Hex. unfold elect_current. destruct (_ && _) eqn:Hkeep.
  - unfold election_ok. rewrite Hex. destruct (controller s) as [c|]; cbn in Hkeep; [|done].
    apply andb_true_iff in Hkeep as [(v & Hv & He)%viewer_is_true Hr]. exists v. split; [done|].
    intros Hrem. apply no_local_spec. apply negb_true_iff, andb_false_iff in Hr as [Hr|Hr]; [|done].
    rewrite viewer_is_false in Hr. specialize (Hr v Hv). by rewrite Hrem in Hr.
  - unfold election_ok. cbn. rewrite Hex. pose proof (elected_candidate_spec s) as Hspec.
    destruct (elected_candidate s) as [w|]; [|done]. destruct Hspec as (v & Hv & Hmin).
    exists v. split; [done|]. intros Hrem w' v' Hv'. specialize (Hmin w' v' Hv').
    destruct (role v') eqn:Hr'; [|done]. exfalso. unfold cmp_le, candidate_cmp in Hmin.
    cbn in Hmin. by rewrite Hrem, Hr' in Hmin.
Qed.

Lemma elect_ok s : election_ok (elect s).
Proof.
  unfold elect. destruct (explicit_controller s) as [e|] eqn:Hex; [|by apply elect_current_ok].
  destruct (viewer_is s e eligible) eqn:He; [|by apply elect_current_ok].
  unfold election_ok. cbn. split; [done|]. apply viewer_is_true in He. naive_solver.
Qed.

Lemma election_ok_ext s s' :
  viewers s' = viewers s → controller s' = controller s →
  explicit_controller s' = explicit_controller s → election_ok s → election_ok s'.
Proof. unfold election_ok, no_local, eligible_at. by intros -> -> ->. Qed.

Lemma election_ok_op s op : election_ok s → election_ok (size_op s op).1.
Proof.
  intros Hok. destruct op; cbn [size_op].
  - unfold register. destruct (viewer_is _ _ _); [done|apply elect_ok].
  - unfold resize. destruct (viewers s !! w); [apply elect_ok|]. by eapply election_ok_ext, Hok.
  - unfold takeover. destruct (viewer_is _ _ _) eqn:He; [|done].
    unfold election_ok. cbn. split; [done|]. apply viewer_is_true in He. naive_solver.
  - unfold release. case_bool_decide; [apply elect_ok|done].
  - unfold remove. destruct (_ || _) eqn:Hc; [apply elect_ok|]. bool_simpl.
    unfold election_ok, no_local, eligible_at in *. cbn.
    destruct (explicit_controller s) as [e|].
    + destruct Hok as (Hce & v & Hv & Hel). split; [done|]. exists v.
      rewrite lookup_delete_ne by congruence. done.
    + destruct (controller s) as [c|].
      * destruct Hok as (v & [Hv Hel] & Hl). exists v. rewrite lookup_delete_ne by congruence.
        split; [done|]. intros Hr w' v' [Hv' ?]. apply lookup_delete_Some in Hv' as [_ ?]. eauto.
      * intros w' v' [Hv' ?]. apply lookup_delete_Some in Hv' as [_ ?]. by eapply Hok.
  - by eapply election_ok_ext, Hok.
Qed.

Lemma election_ok_reachable size s : reachable size_step (new_sizes size) s → election_ok s.
Proof.
  apply reachable_invariant; [intros w v [Hv _]; discriminate Hv|].
  intros s0 s1 Hok [op ->]. by apply election_ok_op.
Qed.

(** One controller, and the right one.  After any sequence of
    registrations, resizes, takeovers, releases and departures: a viewer that
    took over is the controller and is visible with a real size; otherwise
    there is a controller exactly when some viewer is visible with a real
    size, it is such a viewer, and it is a remote one only when no local one
    is. *)
Theorem controller_is_elected size s :
  reachable size_step (new_sizes size) s →
  match explicit_controller s with
  | Some e => controller s = Some e ∧ ∃ v, viewers s !! e = Some v ∧ eligible v = true
  | None =>
      match controller s with
      | Some c => ∃ v, viewers s !! c = Some v ∧ eligible v = true ∧
          (role v = Remote →
           ∀ w v', viewers s !! w = Some v' → eligible v' = true → role v' = Remote)
      | None => ∀ w v, viewers s !! w = Some v → eligible v = false
      end
  end.
Proof.
  intros Hok%election_ok_reachable. unfold election_ok, no_local, eligible_at in Hok.
  destruct (explicit_controller s); [done|]. destruct (controller s).
  - destruct Hok as (v & [? ?] & Hl). exists v. split_and!; [done|done|]. naive_solver.
  - intros w v Hv. destruct (eligible v) eqn:He; [|done]. by destruct (Hok w v).
Qed.

(** An election with an eligible controller in place changes nothing. *)
Lemma elect_keeps s : election_ok s → controller s ≠ None → elect s = s.
Proof.
  unfold election_ok, elect. destruct (explicit_controller s) as [e|] eqn:Hex.
  - intros (Hc & v & Hv & He) _.
    rewrite (proj2 (viewer_is_true s e eligible)) by eauto. unfold set_controllers.
    destruct s; cbn in *. by subst.
  - intros Hok Hne. destruct (controller s) as [c|] eqn:Hc; [|done].
    destruct Hok as (v & [Hv He] & Hl). unfold elect_current. rewrite Hc. cbn.
    rewrite (proj2 (viewer_is_true s c eligible)) by eauto. cbn [andb].
    unfold viewer_is. rewrite Hv. cbn. case_bool_decide as Hr; [|done]. cbn.
    by rewrite (proj2 (no_local_spec s) (Hl Hr)).
Qed.

Lemma resized_role v c r : role (resized v c r) = role v.
Proof. unfold resized. by case_match. Qed.

Lemma resized_eligible v c r : eligible v = true → eligible (resized v c r) = true.
Proof.
  unfold resized, eligible. intros H. destruct (_ && bool_decide (0 < r)%Z) eqn:Hc; [|done]. cbn.
  apply andb_true_iff in Hc as [[Hvis Hc0]%andb_true_iff Hr0]. by rewrite Hvis, Hc0, Hr0.
Qed.

Lemma set_viewers_resized_ok s w v c r :
  viewers s !! w = Some v → eligible v = true → election_ok s →
  election_ok (set_viewers s (<[w := resized v c r]> (viewers s))).
Proof.
  intros Hv He Hok.
  assert (∀ x u, viewers s !! x = Some u → eligible u = true →
            ∃ u', <[w := resized v c r]> (viewers s) !! x = Some u' ∧ eligible u' = true ∧ role u' = role u)
    as Hfwd.
  { intros x u Hu Heu. destruct (decide (w = x)) as [<-|Hne].
    - exists (resized v c r). rewrite lookup_insert_eq. assert (u = v) as -> by congruence.
      split_and!; [done|by apply resized_eligible|apply resized_role].
    - exists u. by rewrite lookup_insert_ne. }
  assert (∀ x u, <[w := resized v c r]> (viewers s) !! x = Some u → eligible u = true →
            ∃ u', viewers s !! x = Some u' ∧ eligible u' = true ∧ role u = role u') as Hback.
  { intros x u [[<- <-]|[Hne Hu]]%lookup_insert_Some Heu; [exists v|exists u]; split_and!; try done.
    apply resized_role. }
  unfold election_ok, no_local, eligible_at in *. cbn.
  destruct (explicit_controller s) as [e|].
  - destruct Hok as (? & u & Hu & Heu). split; [done|]. destruct (Hfwd e u Hu Heu) as (u' & ? & ? & _). eauto.
  - destruct (controller s) as [k|].
    + destruct Hok as (u & [Hu Heu] & Hl). destruct (Hfwd k u Hu Heu) as (u' & Hu' & Heu' & Hr).
      exists u'. split; [done|]. rewrite Hr. intros Hrem x y [Hx Hy].
      destruct (Hback x y Hx Hy) as (z & Hz & Hez & ->). by apply (Hl Hrem x z).
    + intros x u [Hx Hu]. destruct (Hback x u Hx Hu) as (z & Hz & Hez & _). by apply (Hok x z).
Qed.

(** Followers never size the terminal.  When a visible viewer that is not
    the controller reports a new size, no resize is issued, the controller
    stays, and the size the terminal should have stays what it was. *)
Theorem follower_resize_is_inert size s w v c r :
  reachable size_step (new_sizes size) s → viewers s !! w = Some v → eligible v = true →
  controller s ≠ Some w →
  (resize s w c r).2 = None ∧ controller (resize s w c r).1 = controller s ∧
  proposed_size (resize s w c r).1 = proposed_size s.
Proof.
  intros Hok%election_ok_reachable Hv He Hne.
  assert (controller s ≠ None) as Hsome.
  { intros Hn. unfold election_ok in Hok. rewrite Hn in Hok.
    destruct (explicit_controller s); [by destruct Hok|]. by apply (Hok w v). }
  unfold resize. rewrite Hv. cbn zeta.
  rewrite elect_keeps; [|by apply set_viewers_resized_ok|done].
  cbn [fst snd controller set_viewers]. rewrite bool_decide_eq_false_2 by done. split_and!; [done|done|].
  unfold proposed_size. cbn. destruct (controller s) as [k|] eqn:Hc; [|done]. cbn.
  rewrite lookup_insert_ne by congruence. destruct (viewers s !! k) eqn:Hk; [done|].
  exfalso. unfold election_ok, eligible_at in Hok. rewrite Hc in Hok.
  destruct (explicit_controller s); [destruct Hok as ([= <-] & u & Hu & _)|destruct Hok as (u & [Hu _] & _)];
    congruence.
Qed.

(** A desktop in control and a phone that follows. *)
Definition desktop : TerminalViewer := mkViewer (lit "desktop") Local_ 220 48 true 1.
Definition phone : TerminalViewer := mkViewer (lit "phone") Remote 40 20 true 1.

Fixpoint run_sizes (ops : list SizeOp) (s : SessionSizeState) : SessionSizeState :=
  match ops with [] => s | op :: ops => run_sizes ops (size_op s op).1 end.

Lemma run_sizes_reachable ops s0 s :
  reachable size_step s0 s → reachable size_step s0 (run_sizes ops s).
Proof.
  revert s. induction ops as [|op ops IH]; intros s Hr; cbn; [done|]. apply IH.
  eapply reachable_step; [done|]. by exists op.
Qed.

Definition shared_screen : SessionSizeState :=
  run_sizes [SRegister 1 phone; SRegister 2 desktop; SApplied (220, 48)%Z] (new_sizes (80, 24)%Z).

Lemma controller_is_elected_witness :
  controller shared_screen = Some 2 ∧ ∃ v, viewers shared_screen !! 2 = Some v ∧ eligible v = true.
Proof.
  split; [vm_compute; reflexivity|].
  pose proof (controller_is_elected (80, 24)%Z shared_screen
                (run_sizes_reachable _ _ _ (reachable_init _ _))) as H.
  change (explicit_controller shared_screen) with (@None nat) in H.
  change (controller shared_screen) with (Some 2) in H. cbv iota in H.
  destruct H as (v & Hv & He & _). by exists v.
Defined.

Lemma follower_resize_is_inert_witness :
  (resize shared_screen 1 50 10).2 = None ∧
  proposed_size (resize shared_screen 1 50 10).1 = (220, 48)%Z.
Proof.
  destruct (follower_resize_is_inert (80, 24)%Z shared_screen 1 phone 50 10) as (H1 & _ & H3).
  - apply run_sizes_reachable. constructor.
  - vm_compute; reflexivity.
  - vm_compute; reflexivity.
  - vm_compute. discriminate.
  - split; [exact H1|]. rewrite H3. vm_compute. reflexivity.
Defined.

(** Resizing converges: whatever operation asked for a resize, once that
    size is applied nothing is left pending, so a resize is issued once per
    change. *)
Theorem applied_resize_settles s op size :
  (size_op s op).2 = Some size → pending_resize (mark_applied (size_op s op).1 size) = None.
Proof.
  assert (∀ t, pending_resize t = Some size → pending_resize (mark_applied t size) = None) as Hset.
  { intros t. unfold pending_resize. case_bool_decide as Hp; [done|]. intros [= Hs].
    rewrite bool_decide_eq_true_2; [done|]. unfold proposed_size in *. cbn.
    destruct (controller t ≫= _); [done|]. destruct (bool_decide (viewers t = ∅)); [|by destruct Hp].
    unfold effective_terminal_size in *. rewrite <-Hs.
    destruct (map_to_list (legacy_sizes t)); cbn; [|done]. cbn in Hp. by destruct (last_applied t). }
  destruct op; cbn [size_op].
  - unfold register. case_match; [done|apply Hset].
  - unfold resize. case_match; cbn; [case_bool_decide; [apply Hset|done]|apply Hset].
  - unfold takeover. case_match; [apply Hset|done].
  - unfold release. case_match; [apply Hset|done].
  - unfold remove. case_match; [apply Hset|]. cbn. case_match; [apply Hset|done].
  - done.
Qed.

Lemma applied_resize_settles_witness :
  (size_op shared_screen (STakeover 1)).2 = Some (40, 20)%Z ∧
  pending_resize (mark_applied (size_op shared_screen (STakeover 1)).1 (40, 20)%Z) = None.
Proof.
  split; [vm_compute; reflexivity|].
  apply (applied_resize_settles shared_screen (STakeover 1)). vm_compute. reflexivity.
Defined.

(** A resize that is never issued.  When the last registered viewer leaves
    while unregistered peers remain, their size becomes the one the terminal
    should have; it is issued when that viewer was the controller, but not
    when it was hidden and so controlled nothing. *)
Theorem hidden_viewer_departure_misses_resize :
  let hidden := mkViewer (lit "desktop") Local_ 220 48 false 1 in
  let before := run_sizes [SRegister 1 hidden; SResize 2 100 30] (new_sizes (80, 24)%Z) in
  proposed_size before = (80, 24)%Z ∧ proposed_size (remove before 1).1 = (100, 30)%Z ∧
  (remove before 1).2 = None.
Proof. vm_compute. done. Qed.
