(* ===== verification/TerminalWindow.v ===== *)
(** * Bounding a terminal snapshot ([crates/kanna-server/src/terminal_window.rs])

    A serialized terminal is cut into the window that is sent, the older lines
    kept to be fetched chunk by chunk, and what is evicted; a ring records the
    output since the snapshot, so a client that reconnects is replayed what it
    missed.  A [&str] is its scalars and [len()] counts its UTF-8 bytes.  Sizes
    are [usize] and stay far below its bound, so they are [nat] and the
    saturating operations at that bound are plain ones; the [u32] casts of a
    chunk are written out. *)

From S2P Require Import Prelude RustStd Utf8.
Local Open Scope nat_scope.

Definition TERMINAL_WINDOW_SCROLLBACK_PAGES : nat := 2.
Definition TERMINAL_WINDOW_MAX_BYTES : Z := 262144.
Definition TERMINAL_HISTORY_RETENTION_BYTES : Z := 1048576.
Definition TERMINAL_SCROLLBACK_CHUNK_MAX_BYTES : Z := 65536.
Definition TERMINAL_SCROLLBACK_CHUNK_MAX_LINES : nat := 500.
Definition TERMINAL_RING_MAX_BYTES : Z := 524288.

Definition esc (s : string) : list Z := 27%Z :: lit s.
Definition CRLF : list Z := [13; 10]%Z.
Definition ALT_SCREEN_ENTER : list Z := esc "[?1049h".
Definition FRAGMENT_STYLE_RESET : list Z := esc "[0m".

(** [str::len] *)
Definition str_len (s : str) : Z := Z.of_nat (length (utf8 s)).

(** ** Cutting a snapshot *)

(** [split("\r\n")] *)
Fixpoint split_crlf (s : str) : list str :=
  match s with
  | [] => [[]]
  | c :: rest =>
      match rest with
      | d :: rest' =>
          if ((c =? 13) && (d =? 10))%Z then [] :: split_crlf rest'
          else match split_crlf rest with
               | [] => [[c]]
               | piece :: pieces => (c :: piece) :: pieces
               end
      | [] => [[c]]
      end
  end.

(** [rfind]: the start of the last occurrence, which is not in the tail of a
    later one. *)
Fixpoint rfind (needle s : str) : option nat :=
  match s with
  | [] => if str_starts_with [] needle then Some 0 else None
  | _ :: rest =>
      match rfind needle rest with
      | Some i => Some (S i)
      | None => if str_starts_with s needle then Some 0 else None
      end
  end.

Record TerminalWindow := mkWindow {
  window : str;
  history : list str;
  truncated : bool
}.

Definition sum_len (extra : Z) (l : list str) : Z :=
  foldr (λ piece acc, (str_len piece + extra + acc)%Z) 0%Z l.

Definition window_len (pieces : list str) (suffix : str) : Z :=
  (sum_len 0 pieces + Z.of_nat (length pieces - 1) * 2 + str_len suffix)%Z.

(** The loop over the byte ceiling: [n] lines may still be trimmed, down to the
    visible screen. *)
Fixpoint trim_window (n : nat) (pieces : list str) (max_window_bytes window_bytes : Z)
    (first_kept : nat) : nat :=
  match n with
  | O => first_kept
  | S n =>
      if (max_window_bytes <? window_bytes)%Z
      then trim_window n pieces max_window_bytes
             (window_bytes - (str_len (nth first_kept pieces []) + 2))%Z (S first_kept)
      else first_kept
  end.

Fixpoint drop_oldest (history : list str) (bytes retention_bytes : Z) : list str :=
  match history with
  | [] => []
  | line :: rest =>
      if (retention_bytes <? bytes)%Z
      then drop_oldest rest (bytes - (str_len line + 2))%Z retention_bytes
      else history
  end.

Definition retain_history (history : list str) (retention_bytes : Z) : list str * bool :=
  let bytes := sum_len 2 history in
  if (bytes <=? retention_bytes)%Z then (history, false)
  else (drop_oldest history bytes retention_bytes, true).

Definition window_snapshot_with_limits (vt : str) (rows scrollback_lines : nat)
    (max_window_bytes retention_bytes : Z) : TerminalWindow :=
  let boundary := default (length vt) (rfind ALT_SCREEN_ENTER vt) in
  let prefix := take boundary vt in
  let suffix := drop boundary vt in
  let pieces := split_crlf prefix in
  let visible := rows `max` 1 in
  let budget := visible + scrollback_lines in
  let first_kept := length pieces - budget in
  let floor := length pieces - visible in
  let first_kept :=
    trim_window (floor - first_kept) pieces max_window_bytes
      (window_len (drop first_kept pieces) suffix) first_kept in
  let '(history, evicted) := retain_history (take first_kept pieces) retention_bytes in
  mkWindow
    ((if bool_decide (0 < first_kept) then FRAGMENT_STYLE_RESET else []) ++
     join CRLF (drop first_kept pieces) ++ suffix)
    history (bool_decide (0 < first_kept) || evicted).

Definition window_snapshot (vt : str) (rows : nat) : TerminalWindow :=
  window_snapshot_with_limits vt rows (rows `max` 1 * TERMINAL_WINDOW_SCROLLBACK_PAGES)
    TERMINAL_WINDOW_MAX_BYTES TERMINAL_HISTORY_RETENTION_BYTES.

(** ** What carries over to a replacement session *)

Definition CARRYOVER_MODE_RESET : list Z :=
  esc "[0m" ++ esc "[?6l" ++ esc "[?1l" ++ esc "[?7h" ++ esc "[?45l" ++ esc "[?66l" ++
  esc "[?69l" ++ esc "[r" ++ esc "[4l" ++ esc "[?2004l" ++ esc "[?1004l" ++
  esc "[?1003l" ++ esc "[?1002l" ++ esc "[?1000l" ++ esc "[?1006l" ++ esc "[?25h".

(** [char::is_control]: the category [Cc]. *)
Definition is_control (c : Z) : bool := in_range 0 31 c || in_range 127 159 c.

(** Where the scan of [has_renderable_text] is. *)
Inductive RenderScan := SText | SEscape | SCsi | SOsc | SOscEscape.

(** One character; [None] is the early return of [true].  An escape inside an
    operating-system command ends it only before a backslash, and otherwise is
    read again as part of the body. *)
Definition render_step (st : RenderScan) (c : Z) : option RenderScan :=
  match st with
  | SText =>
      if (c =? 27)%Z then Some SEscape
      else if negb (is_whitespace c) && negb (is_control c) then None else Some SText
  | SEscape =>
      if (c =? 91)%Z then Some SCsi else if (c =? 93)%Z then Some SOsc else Some SText
  | SCsi => if in_range 64 126 c then Some SText else Some SCsi
  | SOsc => if (c =? 7)%Z then Some SText else if (c =? 27)%Z then Some SOscEscape else Some SOsc
  | SOscEscape =>
      if (c =? 92)%Z then Some SText
      else if (c =? 7)%Z then Some SText else if (c =? 27)%Z then Some SOscEscape else Some SOsc
  end.

Fixpoint render_scan (st : RenderScan) (s : str) : bool :=
  match s with
  | [] => false
  | c :: rest => match render_step st c with None => true | Some st => render_scan st rest end
  end.

Definition has_renderable_text (vt : str) : bool := render_scan SText vt.

Definition carryover_history_vt (vt : str) : option str :=
  let primary := match rfind ALT_SCREEN_ENTER vt with Some i => take i vt | None => vt end in
  if has_renderable_text primary then Some (primary ++ CARRYOVER_MODE_RESET) else None.

Record TerminalSnapshot := mkSnapshot {
  version : Z;
  snap_rows : nat;
  snap_cols : Z;
  cursor_row : nat;
  cursor_col : Z;
  cursor_visible : bool;
  saved_at : Z;
  sequence : Z;
  vt : str
}.

Definition carryover_seed_snapshot (s : TerminalSnapshot) : option TerminalSnapshot :=
  text ← carryover_history_vt (vt s);
  let dropped_alt_segment := str_contains (vt s) ALT_SCREEN_ENTER in
  let '(row, col) :=
    if dropped_alt_segment then (snap_rows s - 1, 0%Z) else (cursor_row s, cursor_col s) in
  Some (mkSnapshot 1 (snap_rows s) (snap_cols s) row col true (saved_at s) (sequence s) text).

(** ** Retained lines *)

Record HistoryChunk := mkChunk {
  start_line : Z;
  end_line : Z;
  data : str;
  remaining_lines : Z
}.

Definition as_u32 (n : nat) : Z := (Z.of_nat n mod 4294967296)%Z.

(** The loop down from [end]: [n] lines are above the line floor, [taken] lines
    are already in. *)
Fixpoint chunk_start (n : nat) (lines : list str) (max_bytes : Z) (start : nat) (taken : nat)
    (bytes : Z) : nat :=
  match n with
  | O => start
  | S n =>
      let candidate := (str_len (nth (start - 1) lines []) + 2)%Z in
      if bool_decide (0 < taken) && (max_bytes <? bytes + candidate)%Z then start
      else chunk_start n lines max_bytes (start - 1) (S taken) (bytes + candidate)%Z
  end.

Definition clamp (lo hi n : nat) : nat := (n `max` lo) `min` hi.

Definition lines_data (lines : list str) : str := mjoin (map (λ line, line ++ CRLF) lines).

Definition chunk_with_limits (lines : list str) (before_line max_lines : nat) (max_bytes : Z)
    (max_lines_ceiling : nat) : HistoryChunk :=
  let finish := before_line `min` length lines in
  let requested := clamp 1 (max_lines_ceiling `max` 1) max_lines in
  let line_floor := finish - requested in
  let start := chunk_start (finish - line_floor) lines max_bytes finish 0 0 in
  mkChunk (as_u32 start) (as_u32 finish)
    (if bool_decide (start < finish)
     then FRAGMENT_STYLE_RESET ++ lines_data (take (finish - start) (drop start lines)) else [])
    (as_u32 start).

Definition chunk (lines : list str) (before_line max_lines : nat) : HistoryChunk :=
  chunk_with_limits lines before_line max_lines TERMINAL_SCROLLBACK_CHUNK_MAX_BYTES
    TERMINAL_SCROLLBACK_CHUNK_MAX_LINES.

(** ** The output ring *)

Record OutputRing := mkRing {
  chunks : list (list Z);
  bytes : Z;
  capacity : Z;
  start_offset : Z;
  end_offset : Z
}.

Definition new_ring (capacity : Z) : OutputRing := mkRing [] 0 capacity 0 0.

Definition reset_to (r : OutputRing) (offset : Z) : OutputRing :=
  mkRing [] 0 (capacity r) offset offset.

Definition len (data : list Z) : Z := Z.of_nat (length data).

(** The eviction loop: chunks, their bytes, the start offset. *)
Fixpoint evict (cs : list (list Z)) (bytes capacity start : Z) : list (list Z) * Z * Z :=
  match cs with
  | [] => ([], bytes, start)
  | c :: rest =>
      if (capacity <? bytes)%Z then evict rest (bytes - len c)%Z capacity (start + len c)%Z
      else (cs, bytes, start)
  end.

Definition push (r : OutputRing) (data : list Z) : OutputRing :=
  match data with
  | [] => r
  | _ =>
      let '(cs, b, start) :=
        evict (chunks r ++ [data]) (bytes r + len data)%Z (capacity r) (start_offset r) in
      mkRing cs b (capacity r) start (end_offset r + len data)%Z
  end.

Fixpoint replay_at (cs : list (list Z)) (position offset : Z) : option (list (list Z)) :=
  match cs with
  | [] => None
  | c :: rest =>
      if (position =? offset)%Z then Some cs
      else if (offset <? position + len c)%Z then None
      else replay_at rest (position + len c)%Z offset
  end.

Definition replay_from (r : OutputRing) (offset : Z) : option (list (list Z)) :=
  if ((end_offset r <? offset) || (offset <? start_offset r))%Z then None
  else if (offset =? end_offset r)%Z then Some []
  else replay_at (chunks r) (start_offset r) offset.

(** ** Cutting loses nothing but what it evicts *)

Lemma split_crlf_nonempty s : split_crlf s ≠ [].
Proof. destruct s as [|c [|d s]]; cbn; [done..|]. repeat case_match; done. Qed.

Lemma join_cons_head c p l : join CRLF ((c :: p) :: l) = c :: join CRLF (p :: l).
Proof. by destruct l. Qed.

Lemma split_crlf_cons c d t :
  split_crlf (c :: d :: t) =
  if ((c =? 13) && (d =? 10))%Z then [] :: split_crlf t
  else match split_crlf (d :: t) with
       | [] => [[c]]
       | piece :: pieces => (c :: piece) :: pieces
       end.
Proof. done. Qed.

Lemma join_nil_head l : l ≠ [] → join CRLF ([] :: l) = CRLF ++ join CRLF l.
Proof. by destruct l. Qed.

Lemma join_split_crlf s : join CRLF (split_crlf s) = s.
Proof.
  assert (∀ n s, length s < n → join CRLF (split_crlf s) = s) as H; [|apply (H (S (length s))); lia].
  clear s. induction n as [|n IH]; [lia|]. intros [|c [|d t]] Hn; [reflexivity..|]. rewrite split_crlf_cons.
  cbn [length] in Hn. destruct ((c =? 13) && (d =? 10))%Z eqn:E.
  - apply andb_true_iff in E as [->%Z.eqb_eq ->%Z.eqb_eq].
    rewrite join_nil_head by apply split_crlf_nonempty. by rewrite IH by lia.
  - pose proof (split_crlf_nonempty (d :: t)) as Hne.
    assert (join CRLF (split_crlf (d :: t)) = d :: t) as Ht by (apply IH; cbn; lia).
    destruct (split_crlf (d :: t)); [done|]. by rewrite join_cons_head, Ht.
Qed.

Lemma str_len_app a b : str_len (a ++ b) = (str_len a + str_len b)%Z.
Proof. unfold str_len. rewrite utf8_app, length_app. lia. Qed.

Lemma str_len_nonneg s : (0 ≤ str_len s)%Z.
Proof. unfold str_len. lia. Qed.

Lemma sum_len_cons extra x l : sum_len extra (x :: l) = (str_len x + extra + sum_len extra l)%Z.
Proof. done. Qed.

Lemma str_len_join l : l ≠ [] → str_len (join CRLF l) = (sum_len 0 l + Z.of_nat (length l - 1) * 2)%Z.
Proof.
  induction l as [|x l IH]; [done|]. intros _. destruct l as [|y l].
  - cbn. lia.
  - change (join CRLF (x :: y :: l)) with (x ++ CRLF ++ join CRLF (y :: l)).
    rewrite !str_len_app, IH by done. rewrite (sum_len_cons 0 x).
    change (str_len CRLF) with 2%Z. cbn [length]. lia.
Qed.

Lemma window_len_drop pieces suffix k :
  S k < length pieces →
  (window_len (drop k pieces) suffix - (str_len (nth k pieces []) + 2))%Z =
  window_len (drop (S k) pieces) suffix.
Proof.
  intros Hk. unfold window_len. rewrite (drop_S pieces (nth k pieces []) k), sum_len_cons, !length_drop.
  - cbn [length]. rewrite length_drop. lia.
  - rewrite nth_lookup. destruct (lookup_lt_is_Some_2 pieces k) as [x ->]; [lia|done].
Qed.

Lemma trim_window_spec n pieces maxw suffix k :
  k + n < length pieces →
  let k' := trim_window n pieces maxw (window_len (drop k pieces) suffix) k in
  k ≤ k' ≤ k + n ∧ ((window_len (drop k' pieces) suffix ≤ maxw)%Z ∨ k' = k + n)
  ∧ (k < k' → (maxw < window_len (drop (k' - 1) pieces) suffix)%Z).
Proof.
  revert k. induction n as [|n IH]; intros k Hk; cbn [trim_window]; [lia|].
  destruct (Z.ltb_spec maxw (window_len (drop k pieces) suffix)); [|lia].
  rewrite window_len_drop by lia. specialize (IH (S k)). cbn zeta in *.
  set (k' := trim_window _ _ _ _ _) in *. destruct IH as (Hk' & Hb & Hmore); [lia|].
  split_and!; [lia..|]. intros _. destruct (decide (S k < k')) as [?|?]; [by apply Hmore|].
  by replace (k' - 1) with k by lia.
Qed.

Lemma pieces_len_app extra a b : sum_len extra (a ++ b) = (sum_len extra a + sum_len extra b)%Z.
Proof. induction a as [|x a IH]; cbn [app sum_len foldr]; [done|]. fold (sum_len extra (a ++ b)) (sum_len extra a). lia. Qed.

Lemma drop_oldest_spec h ret :
  let left := drop_oldest h (sum_len 2 h) ret in
  ∃ gone, h = gone ++ left ∧ (sum_len 2 left ≤ Z.max 0 ret)%Z
    ∧ ∀ before line, gone = before ++ [line] → (ret < sum_len 2 (line :: left))%Z.
Proof.
  cbn zeta. induction h as [|line h IH]; cbn [drop_oldest].
  - exists []. split_and!; [done|cbn; lia|by intros []].
  - destruct (Z.ltb_spec ret (sum_len 2 (line :: h))) as [Hlt|Hge].
    + rewrite sum_len_cons. replace (_ + _ - _)%Z with (sum_len 2 h) by lia.
      destruct IH as (gone & IH & ? & Hlast). exists (line :: gone). split_and!; [cbn; by rewrite <- IH|done|].
      intros [|x before] l Heq; [|injection Heq as -> ->; by eapply Hlast].
      injection Heq as -> ->. cbn [app] in IH. by rewrite <- IH.
    + exists []. split_and!; [done|lia|by intros []].
Qed.

Lemma retain_history_spec h ret :
  ∃ gone, h = gone ++ (retain_history h ret).1 ∧ (sum_len 2 (retain_history h ret).1 ≤ Z.max 0 ret)%Z
    ∧ (∀ before line, gone = before ++ [line] → (ret < sum_len 2 (line :: (retain_history h ret).1))%Z)
    ∧ ((retain_history h ret).2 = true → (ret < sum_len 2 h)%Z).
Proof.
  unfold retain_history. destruct (Z.leb_spec (sum_len 2 h) ret).
  - exists []. cbn [fst snd]. split_and!; [done|lia|by intros []|done].
  - destruct (drop_oldest_spec h ret) as (gone & ? & ? & ?). exists gone. done.
Qed.

Lemma str_starts_with_spec s pre : str_starts_with s pre = true ↔ ∃ t, s = pre ++ t.
Proof. apply starts_with_prefix. intros x y. apply Z.eqb_eq. Qed.

Lemma rfind_starts needle s i : rfind needle s = Some i → ∃ t, drop i s = needle ++ t.
Proof.
  revert i. induction s as [|c s IH]; intros i; cbn [rfind].
  - case_match eqn:E; [|done]. intros [= <-]. by apply str_starts_with_spec.
  - destruct (rfind needle s) as [j|]; [intros [= <-]; by apply IH|].
    case_match eqn:E; [|done]. intros [= <-]. by apply str_starts_with_spec.
Qed.

Lemma rfind_last needle a b : ∃ i, rfind needle (a ++ needle ++ b) = Some i ∧ length a ≤ i.
Proof.
  induction a as [|c a IH]; cbn [app length].
  - assert (str_starts_with (needle ++ b) needle = true) as Hs
      by (apply str_starts_with_spec; by exists b).
    destruct (needle ++ b) as [|c s]; cbn [rfind]; rewrite Hs; [exists 0; split; [done|lia]|].
    destruct (rfind needle s) as [i|]; eexists; split; [done|lia|done|lia].
  - destruct IH as (i & IH & ?). cbn [rfind]. rewrite IH. exists (S i). split; [done|lia].
Qed.

(** [before] and [rest] are a text cut at the last place where it has
    [needle], or at its end when it has none. *)
Definition last_cut (needle text before rest : str) : Prop :=
  text = before ++ rest ∧
  (rest = [] ∧ (∀ a b, text ≠ a ++ needle ++ b) ∨
   (∃ t, rest = needle ++ t) ∧ ∀ a b, text = a ++ needle ++ b → length a ≤ length before).

Lemma rfind_cut needle s :
  let i := default (length s) (rfind needle s) in last_cut needle s (take i s) (drop i s).
Proof.
  cbn zeta. split; [by rewrite take_drop|]. destruct (rfind needle s) as [i|] eqn:Hf; cbn [default].
  - right. split; [by apply rfind_starts|]. intros a b ->.
    destruct (rfind_last needle a b) as (j & Hj & ?). rewrite Hj in Hf. injection Hf as ->.
    rewrite length_take, !length_app. unfold id. lia.
  - left. split; [by apply drop_all|]. intros a b ->.
    destruct (rfind_last needle a b) as (j & Hj & _). congruence.
Qed.

Lemma str_len_window pieces suffix :
  0 < length pieces → str_len (join CRLF pieces ++ suffix) = window_len pieces suffix.
Proof. intros H. rewrite str_len_app, str_len_join by (by intros ->; cbn in H; lia). done. Qed.

(** A line has no line break in it. *)
Definition one_line (l : str) : Prop := ∀ a b, l ≠ a ++ CRLF ++ b.

Lemma split_crlf_head c s p ps : split_crlf (c :: s) = p :: ps → p = [] ∨ ∃ p', p = c :: p'.
Proof.
  destruct s as [|d s]; [intros [= <- _]; eauto|]. rewrite split_crlf_cons.
  destruct (_ && _); [intros [= <- _]; by left|].
  destruct (split_crlf (d :: s)); intros [= <- _]; eauto.
Qed.

Lemma split_crlf_lines s : Forall one_line (split_crlf s).
Proof.
  assert (one_line []) as Hnil by (by intros [] b).
  assert (∀ c, one_line [c]) as Hone by (by intros c [|? []] b).
  induction s as [s IH] using (induction_ltof1 _ length). unfold ltof in IH.
  destruct s as [|c [|d s]]; [by repeat constructor..|]. rewrite split_crlf_cons.
  destruct ((c =? 13) && (d =? 10))%Z eqn:Hcd.
  - constructor; [done|]. apply IH. cbn. lia.
  - destruct (split_crlf (d :: s)) as [|p ps] eqn:Hsplit; [by repeat constructor|].
    pose proof (IH (d :: s) ltac:(cbn; lia)) as Hp. rewrite Hsplit in Hp.
    apply Forall_cons in Hp as [Hp Hps]. constructor; [|done].
    intros [|x a] b Heq; [|cbn in Heq; injection Heq as _ Heq; exact (Hp _ _ Heq)].
    cbn in Heq. injection Heq as -> Heq.
    apply split_crlf_head in Hsplit as [->|[p' ->]]; [done|]. by injection Heq as -> _.
Qed.

(** C36: The window and what is kept back are the snapshot. Every snapshot is
    cut at its last switch to the alternate screen (or at its end), what
    precedes that is split into its lines, and those are, in order and byte for
    byte, the evicted lines, the retained history and the lines of the window,
    which the alternate-screen segment follows. The window never loses a line of
    the visible screen and has no more lines than the screen and the scrollback
    budget, nor more bytes than the ceiling unless only the screen is left; it
    has as many lines as that allows, one more being over one of the bounds. The
    history is within its retention, and as long as that allows. The window is
    told to be truncated, and begins with a style reset, exactly when lines
    precede it. *)
Theorem window_partitions_snapshot text rows scrollback maxw (retention : nat) :
  let ret := Z.of_nat retention in
  let w := window_snapshot_with_limits text rows scrollback maxw ret in
  let visible := rows `max` 1 in
  ∃ primary alt evicted kept,
    let lines := evicted ++ history w ++ kept in
    last_cut ALT_SCREEN_ENTER text primary alt
    ∧ primary = join CRLF lines ∧ Forall one_line lines
    ∧ window w = (if bool_decide (evicted ++ history w = []) then [] else FRAGMENT_STYLE_RESET)
                   ++ join CRLF kept ++ alt
    ∧ truncated w = negb (bool_decide (evicted ++ history w = []))
    ∧ visible `min` length lines ≤ length kept ≤ visible + scrollback
    ∧ ((str_len (join CRLF kept ++ alt) ≤ maxw)%Z ∨ length kept ≤ visible)
    ∧ (∀ before line, evicted ++ history w = before ++ [line] →
         length kept = visible + scrollback ∨ (maxw < str_len (join CRLF (line :: kept) ++ alt))%Z)
    ∧ (sum_len 2 (history w) ≤ ret)%Z
    ∧ (∀ before line, evicted = before ++ [line] → (ret < sum_len 2 (line :: history w))%Z).
Proof.
  cbn zeta. unfold window_snapshot_with_limits. remember (Z.of_nat retention) as ret eqn:Hr.
  pose proof (rfind_cut ALT_SCREEN_ENTER text) as Hcut. cbn zeta in Hcut.
  set (boundary := default _ _) in *. set (alt := drop boundary text) in *.
  pose proof (split_crlf_lines (take boundary text)) as Hlines.
  pose proof (join_split_crlf (take boundary text)) as Hjoin.
  pose proof (split_crlf_nonempty (take boundary text)) as Hne.
  set (pieces := split_crlf (take boundary text)) in *.
  assert (0 < length pieces) as Hlen by (destruct pieces; [done|cbn; lia]).
  set (vis := rows `max` 1). assert (1 ≤ vis) as Hvis by lia.
  remember (length pieces - (vis + scrollback)) as k0 eqn:Hk0.
  pose proof (trim_window_spec (length pieces - vis - k0) pieces maxw alt k0 ltac:(lia)) as Hk.
  cbn zeta in Hk. set (k := trim_window _ _ _ _ _) in *. destruct Hk as (Hk & Hbytes & Hmore).
  destruct (retain_history_spec (take k pieces) ret) as (gone & Hgone & Hret & Hevict & Hflag).
  destruct (retain_history (take k pieces) ret) as [kept_history evicted]. cbn [fst snd] in *.
  cbn [window history truncated]. exists (take boundary text), alt, gone, (drop k pieces).
  rewrite (app_assoc gone), <- Hgone, take_drop.
  assert (take k pieces = [] ↔ ¬ 0 < k) as Hnil.
  { rewrite <- length_zero_iff_nil, length_take. lia. }
  assert (evicted = true → 0 < k) as Hek.
  { intros He. specialize (Hflag He). destruct (decide (0 < k)) as [?|H0]; [done|].
    apply Hnil in H0. rewrite H0 in Hflag. cbn in Hflag. lia. }
  split_and!; try done; try lia.
  - f_equal. by repeat case_bool_decide; try tauto.
  - destruct evicted; repeat case_bool_decide; naive_solver.
  - rewrite length_drop. lia.
  - rewrite length_drop. lia.
  - rewrite length_drop. destruct Hbytes as [Hb|Hb]; [left|right; lia].
    rewrite str_len_window by (rewrite length_drop; lia). lia.
  - intros before line Hb. assert (k ≤ length pieces) as Hkl by lia.
    assert (0 < k) as Hk1.
    { destruct (decide (0 < k)) as [?|H0]; [done|]. apply Hnil in H0. rewrite H0 in Hb. by destruct before. }
    rewrite length_drop. destruct (decide (k0 < k)) as [Hlt|?]; [right|left; lia].
    assert (drop (k - 1) pieces = line :: drop k pieces) as Hline.
    { assert (length (take k pieces) = k) as Hl by (rewrite length_take; lia).
      rewrite Hb, length_app in Hl. cbn in Hl.
      rewrite <- (take_drop k pieces) at 1. rewrite Hb, <- app_assoc.
      replace (k - 1) with (length before) by lia. by rewrite drop_app_length. }
    rewrite str_len_window by (cbn; lia). rewrite <- Hline. by apply Hmore.
Qed.

(** ** Walking the retained lines *)

Definition slice (lines : list str) (start finish : nat) : list str :=
  take (finish - start) (drop start lines).

Lemma slice_S lines start finish :
  0 < start ≤ finish → finish ≤ length lines →
  slice lines (start - 1) finish = nth (start - 1) lines [] :: slice lines start finish.
Proof.
  intros Hs Hf. unfold slice. destruct (lookup_lt_is_Some_2 lines (start - 1)) as [x Hx]; [lia|].
  rewrite (drop_S lines x) by done. replace (S (start - 1)) with start by lia.
  replace (finish - (start - 1)) with (S (finish - start)) by lia. cbn [take].
  f_equal. by rewrite nth_lookup, Hx.
Qed.

Lemma chunk_start_spec n lines maxb finish start bytes :
  n ≤ start ≤ finish → finish ≤ length lines → bytes = sum_len 2 (slice lines start finish) →
  (bytes ≤ maxb)%Z ∨ finish - start ≤ 1 →
  let s := chunk_start n lines maxb start (finish - start) bytes in
  s ≤ start ∧ start - s ≤ n ∧ (start = finish → 0 < n → s < start)
  ∧ ((sum_len 2 (slice lines s finish) ≤ maxb)%Z ∨ finish - s ≤ 1).
Proof.
  revert start bytes. induction n as [|n IH]; intros start bytes Hn Hf Hb Hmax; cbn [chunk_start].
  - subst bytes. split_and!; [lia..|done].
  - destruct (bool_decide (0 < finish - start) && _) eqn:Hstop.
    + apply andb_true_iff in Hstop as [Ht%bool_decide_eq_true _]. subst bytes. split_and!; [lia..|done].
    + replace (S (finish - start)) with (finish - (start - 1)) by lia.
      destruct (IH (start - 1) (bytes + (str_len (nth (start - 1) lines []) + 2))%Z) as (? & ? & ? & ?).
      * lia.
      * done.
      * rewrite slice_S by lia. rewrite sum_len_cons. lia.
      * apply andb_false_iff in Hstop as [Ht%bool_decide_eq_false|Ht%Z.ltb_ge]; [right; lia|left; lia].
      * split_and!; [lia..|done].
Qed.

(** The text of a chunk after the style reset. *)
Definition body (c : HistoryChunk) : str := drop (length FRAGMENT_STYLE_RESET) (data c).

(** A client that asks for the lines above those it holds until none remain. *)
Fixpoint walk (fuel : nat) (lines : list str) (max_lines before : nat) : list HistoryChunk :=
  match fuel with
  | O => []
  | S fuel =>
      if bool_decide (before = 0) then []
      else let c := chunk lines before max_lines in
           c :: walk fuel lines max_lines (Z.to_nat (remaining_lines c))
  end.

Definition chunk_ok (c : HistoryChunk) : Prop :=
  data c = FRAGMENT_STYLE_RESET ++ body c
  ∧ (0 < end_line c - start_line c ≤ Z.of_nat TERMINAL_SCROLLBACK_CHUNK_MAX_LINES)%Z
  ∧ ((str_len (body c) ≤ TERMINAL_SCROLLBACK_CHUNK_MAX_BYTES)%Z ∨ (end_line c - start_line c = 1)%Z).

Lemma as_u32_small n : (Z.of_nat n < 4294967296)%Z → as_u32 n = Z.of_nat n.
Proof. intros H. unfold as_u32. apply Z.mod_small. lia. Qed.

Lemma lines_data_app a b : lines_data (a ++ b) = lines_data a ++ lines_data b.
Proof. unfold lines_data. by rewrite map_app, join_app. Qed.

Lemma lines_data_len lines : str_len (lines_data lines) = sum_len 2 lines.
Proof.
  induction lines as [|line lines IH]; [done|]. change (line :: lines) with ([line] ++ lines).
  rewrite lines_data_app, str_len_app, IH, pieces_len_app. unfold lines_data. cbn [map mjoin list_join].
  rewrite !app_nil_r, str_len_app. change (str_len CRLF) with 2%Z. cbn. lia.
Qed.

Lemma take_slice lines start finish :
  start ≤ finish → take finish lines = take start lines ++ slice lines start finish.
Proof.
  intros H. unfold slice. rewrite <- (take_drop start (take finish lines)) at 1.
  rewrite take_take, skipn_firstn_comm. f_equal. f_equal. lia.
Qed.

Lemma chunk_spec lines max_lines before :
  0 < before ≤ length lines → (Z.of_nat (length lines) < 4294967296)%Z →
  let c := chunk lines before max_lines in
  ∃ start, start < before ∧ remaining_lines c = Z.of_nat start
    ∧ body c = lines_data (slice lines start before) ∧ chunk_ok c.
Proof.
  intros Hb Hl. cbn zeta. unfold chunk, chunk_with_limits. rewrite Nat.min_l by lia.
  set (req := clamp 1 _ max_lines).
  assert (1 ≤ req ≤ TERMINAL_SCROLLBACK_CHUNK_MAX_LINES) as Hreq by (subst req; unfold clamp, TERMINAL_SCROLLBACK_CHUNK_MAX_LINES; lia).
  replace (before - (before - req)) with (before `min` req) by lia.
  destruct (chunk_start_spec (before `min` req) lines TERMINAL_SCROLLBACK_CHUNK_MAX_BYTES before before 0)
    as (Hs & Hn & Hlt & Hbytes); [lia|lia| |lia|].
  { unfold slice. by rewrite Nat.sub_diag. }
  rewrite Nat.sub_diag in *. set (start := chunk_start _ _ _ _ _ _) in *.
  assert (start < before) as Hstart by (apply Hlt; lia).
  exists start. unfold chunk_ok, body. cbn [start_line end_line data remaining_lines].
  rewrite bool_decide_true, !as_u32_small by lia.
  change (take _ _) with (slice lines start before). rewrite drop_app_length.
  rewrite lines_data_len. split_and!; try done; try lia.
Qed.

Lemma walk_spec lines max_lines fuel before :
  (Z.of_nat (length lines) < 4294967296)%Z → before ≤ length lines → before ≤ fuel →
  mjoin (map body (reverse (walk fuel lines max_lines before))) = lines_data (take before lines)
  ∧ Forall chunk_ok (walk fuel lines max_lines before)
  ∧ (0 < before → remaining_lines <$> last (walk fuel lines max_lines before) = Some 0%Z).
Proof.
  intros Hl. revert before. induction fuel as [|fuel IH]; intros before Hb Hf; cbn [walk].
  - replace before with 0 by lia. split_and!; try done. lia.
  - case_bool_decide as H0; [subst; split_and!; try done; lia|].
    destruct (chunk_spec lines max_lines before) as (start & Hlt & Hrem & Hbody & Hok); [lia|done|].
    rewrite Hrem, Nat2Z.id. destruct (IH start) as (Hjoin & Hall & Hlast); [lia..|]. split_and!.
    + rewrite reverse_cons, map_app, join_app, Hjoin. cbn [map mjoin list_join]. rewrite app_nil_r, Hbody.
      rewrite <- lines_data_app. by rewrite <- take_slice by lia.
    + by constructor.
    + intros _. rewrite last_cons. destruct (decide (0 < start)) as [Hp|Hp].
      * specialize (Hlast Hp). by destruct (last _).
      * replace start with 0 in * by lia.
        assert (walk fuel lines max_lines 0 = []) as -> by (by destruct fuel).
        cbn [last fmap option_fmap option_map]. by rewrite Hrem.
Qed.

Lemma sum_len_length lines : (2 * Z.of_nat (length lines) ≤ sum_len 2 lines)%Z.
Proof.
  induction lines as [|line lines IH]; [done|]. rewrite sum_len_cons. pose proof (str_len_nonneg line).
  cbn [length]. lia.
Qed.

Lemma history_retention text rows scrollback maxw ret :
  (sum_len 2 (history (window_snapshot_with_limits text rows scrollback maxw ret)) ≤ Z.max 0 ret)%Z.
Proof.
  unfold window_snapshot_with_limits. set (k := trim_window _ _ _ _ _). set (ps := split_crlf _).
  destruct (retain_history_spec (take k ps) ret) as (gone & _ & Hret & _).
  by destruct (retain_history (take k ps) ret).
Qed.

(** C37: The retained scrollback is reachable. A client that starts from the
    line count it is told and asks again above what it holds reaches the first
    retained line within as many requests as there are lines, each answer being
    within the byte bound (or one line) and the line bound and beginning with
    a style reset; what it has put together is every retained line, each ended
    by a line break, in order. *)
Theorem scrollback_walk_is_complete text rows max_lines :
  let lines := history (window_snapshot text rows) in
  let cs := walk (length lines) lines max_lines (Z.to_nat (as_u32 (length lines))) in
  mjoin (map body (reverse cs)) = lines_data lines
  ∧ Forall chunk_ok cs
  ∧ (lines ≠ [] → remaining_lines <$> last cs = Some 0%Z).
Proof.
  set (lines := history (window_snapshot text rows)). cbn zeta.
  assert (sum_len 2 lines ≤ TERMINAL_HISTORY_RETENTION_BYTES)%Z as Hret by apply history_retention.
  pose proof (sum_len_length lines) as Hlen. unfold TERMINAL_HISTORY_RETENTION_BYTES in Hret.
  rewrite as_u32_small, Nat2Z.id by lia.
  destruct (walk_spec lines max_lines (length lines) (length lines)) as (Hj & Ha & Hlast); [lia..|].
  rewrite firstn_all in Hj. split_and!; [done..|]. intros Hne. apply Hlast. by destruct lines; [|cbn; lia].
Qed.

(** ** What the ring replays *)

Definition flat (cs : list (list Z)) : list Z := mjoin cs.

Lemma len_app a b : len (a ++ b) = (len a + len b)%Z.
Proof. unfold len. rewrite length_app. lia. Qed.

Lemma len_nonneg a : (0 ≤ len a)%Z.
Proof. unfold len. lia. Qed.

Lemma len_pos a : a ≠ [] → (0 < len a)%Z.
Proof. destruct a; [done|]. unfold len. cbn. lia. Qed.

Lemma flat_app a b : flat (a ++ b) = flat a ++ flat b.
Proof. apply join_app. Qed.

Lemma len_flat_nil : len (flat []) = 0%Z.
Proof. done. Qed.

Lemma len_flat_cons c cs : len (flat (c :: cs)) = (len c + len (flat cs))%Z.
Proof. change (flat (c :: cs)) with (c ++ flat cs). apply len_app. Qed.

Lemma len_flat_snoc cs c : len (flat (cs ++ [c])) = (len (flat cs) + len c)%Z.
Proof. rewrite flat_app, len_app. unfold flat. cbn. by rewrite app_nil_r. Qed.

(** [sent] are the non-empty outputs since the ring was anchored at [origin]. *)
Record ring_inv (r : OutputRing) (origin : Z) (sent : list (list Z)) : Prop := mkRingInv {
  rg_evicted : ∃ gone, sent = gone ++ chunks r ∧ start_offset r = (origin + len (flat gone))%Z;
  rg_end : end_offset r = (origin + len (flat sent))%Z;
  rg_bytes : bytes r = len (flat (chunks r));
  rg_capacity : (bytes r ≤ Z.max 0 (capacity r))%Z;
  rg_nonempty : Forall (λ c, c ≠ []) sent
}.

Lemma ring_inv_reset r origin : ring_inv (reset_to r origin) origin [].
Proof.
  constructor; cbn [reset_to chunks bytes capacity start_offset end_offset]; rewrite ?len_flat_nil; try done; try lia.
  exists []. rewrite len_flat_nil. split; [done|lia].
Qed.

Lemma ring_inv_new cap : ring_inv (new_ring cap) 0 [].
Proof. apply (ring_inv_reset (new_ring cap) 0). Qed.

Lemma evict_spec cs cap start :
  ∃ gone, cs = gone ++ (evict cs (len (flat cs)) cap start).1.1
    ∧ (evict cs (len (flat cs)) cap start).1.2 = len (flat (evict cs (len (flat cs)) cap start).1.1)
    ∧ (evict cs (len (flat cs)) cap start).2 = (start + len (flat gone))%Z
    ∧ (len (flat (evict cs (len (flat cs)) cap start).1.1) ≤ Z.max 0 cap)%Z.
Proof.
  revert start. induction cs as [|c cs IH]; intros start; cbn [evict].
  - exists []. cbn [app fst snd]. rewrite len_flat_nil. split_and!; [done..|lia|lia].
  - destruct (Z.ltb_spec cap (len (flat (c :: cs)))).
    + rewrite len_flat_cons. replace (_ + _ - _)%Z with (len (flat cs)) by lia.
      destruct (IH (start + len c)%Z) as (gone & H1 & H2 & H3 & H4). exists (c :: gone).
      rewrite len_flat_cons. split_and!; [cbn; by rewrite <- H1|done|lia|done].
    + exists []. cbn [fst snd app]. rewrite len_flat_nil. split_and!; [done..|lia|lia].
Qed.

Lemma ring_inv_push r origin sent data :
  ring_inv r origin sent → data ≠ [] → ring_inv (push r data) origin (sent ++ [data]).
Proof.
  intros [(gone & Hsent & Hstart) Hend Hbytes Hcap Hne] Hd. destruct data as [|x data]; [done|].
  unfold push. set (d := x :: data) in *.
  assert (bytes r + len d = len (flat (chunks r ++ [d])))%Z as -> by (rewrite len_flat_snoc; lia).
  destruct (evict_spec (chunks r ++ [d]) (capacity r) (start_offset r)) as (gone' & H1 & H2 & H3 & H4).
  destruct (evict (chunks r ++ [d]) _ _ _) as [[cs b] start]. cbn [fst snd] in *. subst b.
  constructor; cbn [chunks bytes start_offset end_offset capacity].
  - exists (gone ++ gone'). rewrite Hsent, <- !app_assoc, H1. split; [done|].
    rewrite flat_app, len_app. lia.
  - rewrite len_flat_snoc. lia.
  - done.
  - done.
  - apply Forall_app. split; [done|]. by repeat constructor.
Qed.

Lemma capacity_push r data : capacity (push r data) = capacity r.
Proof. unfold push. destruct data; [done|]. by destruct (evict _ _ _ _) as [[? ?] ?]. Qed.

Lemma push_nil r : push r [] = r.
Proof. done. Qed.

Lemma replay_at_spec cs position offset k :
  Forall (λ c, c ≠ []) cs → (position ≤ offset)%Z →
  replay_at cs position offset = Some k ↔
  k ≠ [] ∧ ∃ before, cs = before ++ k ∧ offset = (position + len (flat before))%Z.
Proof.
  intros Hne. revert position. induction Hne as [|c cs Hc Hne IH]; intros position Hle; cbn [replay_at].
  - split; [done|]. intros (Hk & [|? ?] & H & _); [by subst|done].
  - pose proof (len_pos c Hc). destruct (Z.eqb_spec position offset) as [->|Hp].
    + split; [intros [= <-]; split; [done|]; exists []; split; [done|rewrite len_flat_nil; lia]|].
      intros (Hk & [|c' before] & H1 & H2); [cbn in H1; congruence|].
      rewrite len_flat_cons in H2. cbn in H1. injection H1 as <- _. pose proof (len_nonneg (flat before)). lia.
    + destruct (Z.ltb_spec offset (position + len c)).
      * split; [done|]. intros (Hk & [|c' before] & H1 & H2); [rewrite len_flat_nil in H2; lia|].
        rewrite len_flat_cons in H2. cbn in H1. injection H1 as <- _.
        pose proof (len_nonneg (flat before)). lia.
      * rewrite IH by lia. split.
        -- intros (Hk & before & -> & ->). split; [done|]. exists (c :: before). rewrite len_flat_cons.
           split; [done|lia].
        -- intros (Hk & [|c' before] & H1 & H2); [rewrite len_flat_nil in H2; lia|]. rewrite len_flat_cons in H2.
           cbn in H1. injection H1 as <- ->. split; [done|]. exists before. split; [done|lia].
Qed.

Lemma replay_from_spec r origin sent offset k :
  ring_inv r origin sent →
  replay_from r offset = Some k ↔
  (start_offset r ≤ offset)%Z ∧ ∃ before, sent = before ++ k ∧ offset = (origin + len (flat before))%Z.
Proof.
  intros [(gone & Hsent & Hstart) Hend _ _ Hne]. unfold replay_from.
  assert (Forall (λ c, c ≠ []) (chunks r)) as Hne' by (rewrite Hsent in Hne; by apply Forall_app in Hne as [_ ?]).
  destruct ((end_offset r <? offset) || (offset <? start_offset r))%Z eqn:Hout.
  - split; [done|]. intros (Hs & before & Hb & Ho).
    apply (f_equal flat) in Hb. rewrite flat_app in Hb. apply (f_equal len) in Hb. rewrite len_app in Hb.
    pose proof (len_nonneg (flat k)).
    apply orb_true_iff in Hout as [Hx%Z.ltb_lt|Hx%Z.ltb_lt]; lia.
  - apply orb_false_iff in Hout as [H1%Z.ltb_ge H2%Z.ltb_ge].
    destruct (Z.eqb_spec offset (end_offset r)) as [He|He].
    + split.
      * intros [= <-]. split; [done|]. exists sent. rewrite app_nil_r. split; [done|lia].
      * intros (_ & before & Hb & Ho). f_equal. destruct k as [|c k]; [done|exfalso].
        rewrite Hb in Hne. apply Forall_app in Hne as [_ Hk]. apply Forall_cons in Hk as [Hc _].
        pose proof (len_pos c Hc). pose proof (len_nonneg (flat k)).
        rewrite Hb, flat_app, len_app, len_flat_cons in Hend. lia.
    + rewrite replay_at_spec by done. split.
      * intros (Hk & before & Hb & Ho). split; [done|]. exists (gone ++ before).
        rewrite Hsent, Hb, <- app_assoc, flat_app, len_app. split; [done|lia].
      * intros (_ & before & Hb & Ho). split.
        { intros ->. rewrite app_nil_r in Hb. subst before. lia. }
        (* the cut is not among the evicted chunks *)
        destruct (app_eq_inv gone (chunks r) before k) as [(m & Hg & Hk)|(m & Hbf & Hc)]; [congruence|..].
        -- assert (m = []) as ->.
           { destruct m as [|c m]; [done|exfalso]. rewrite Hsent, Hg, <- !app_assoc in Hne.
             apply Forall_app in Hne as [_ Hm]. apply Forall_cons in Hm as [Hcc _].
             pose proof (len_pos c Hcc). pose proof (len_nonneg (flat m)).
             rewrite Hg, flat_app, len_app, len_flat_cons in Hstart. lia. }
           exists []. rewrite app_nil_r in Hg. subst gone. rewrite len_flat_nil in *. split; [done|lia].
        -- exists m. split; [done|]. rewrite Hbf, flat_app, len_app in Ho. lia.
Qed.

(** The ring replays exactly what was missed. After any outputs since it
    was anchored it holds a suffix of them within its capacity, and an offset
    is answered exactly when it is the end of one of the outputs (or the
    anchor) and the ring still reaches it; the answer is then every output
    after it, in order and whole. *)
Theorem ring_replays_what_was_missed cap origin outputs offset k :
  let sent := List.filter (λ data, negb (bool_decide (data = []))) outputs in
  let r := foldl push (reset_to (new_ring cap) origin) outputs in
  (replay_from r offset = Some k ↔
     (start_offset r ≤ offset)%Z ∧ ∃ before, sent = before ++ k ∧ offset = (origin + len (flat before))%Z)
  ∧ end_offset r = (origin + len (flat sent))%Z
  ∧ (end_offset r - start_offset r ≤ Z.max 0 cap)%Z.
Proof.
  cbn zeta. set (r := foldl _ _ _). set (sent := List.filter _ _).
  assert (ring_inv r origin sent ∧ capacity r = cap) as [Hr Hcap].
  { subst r sent. induction outputs as [|d outputs IH] using rev_ind; [split; [apply ring_inv_reset|done]|].
    rewrite foldl_app, List.filter_app. cbn [foldl List.filter]. destruct IH as [IH Hc].
    case_bool_decide as Hd; cbn [negb]; [subst d; by rewrite push_nil, app_nil_r|].
    split; [by apply ring_inv_push|]. by rewrite capacity_push. }
  split; [by apply replay_from_spec|]. destruct Hr as [(gone & Hs & Hst) He Hb Hc _].
  split; [done|]. rewrite He, Hst, Hs, flat_app, len_app, <- Hcap. rewrite Hb in Hc. lia.
Qed.
