(* ===== verification/TerminalTap.v ===== *)
(** * One terminal, many viewers ([TerminalTap] of [crates/kanna-server/src/ksp.rs])

    A tap holds one daemon connection for a session and offers a bounded
    snapshot plus the output since, under a stream id that changes whenever
    offsets lose their meaning; viewers attach, resume where they stopped, and
    follow the live events.  The state is behind a mutex, under which events
    are also broadcast, so every operation is one step.  The broadcast channel
    is the list of all events sent, a receiver its read position, and a
    receiver that falls more than the capacity behind has lagged.  The client
    is the one of [packages/stream-client/src/index.ts]; base64 is not
    modelled, and a frame's payload is the bytes it decodes to. *)

From S2P Require Import Prelude RustStd Utf8 Protocol TerminalWindow.
Local Open Scope Z_scope.

Definition TERMINAL_TAP_BROADCAST_CAPACITY : nat := 512.
Definition TERMINAL_FRESH_ATTACH_REPLAY_MAX_BYTES : Z := 16384.
Definition MAX_TERMINAL_TAP_IDS_PER_PROCESS : Z := 16777216.

(** The base is drawn by hashing the process id with random keys. *)
Definition terminal_tap_id_base (hash : Z) : Z := hash mod 2 ^ 51 + 2 ^ 51.

Definition next_terminal_tap_id (base offset : Z) : Z :=
  base + offset mod MAX_TERMINAL_TAP_IDS_PER_PROCESS.

Record TermResumePosition := mkPosition { p_stream : Z; p_offset : Z }.

Record TapBase := mkBase {
  history_id : Z;
  cols : Z;
  rows : nat;
  agent_provider : option AgentProvider;
  window : str;
  history : list str
}.

Inductive TapEvent :=
  | Output (data : list Z)
  | Snapshot
  | Status (status : SessionStatus)
  | Exit (code : Z)
  | Failed (code message : str).

(** [TapShared] with the sender of the broadcast channel. *)
Record Tap := mkTap {
  stream_id : Z;
  base : option TapBase;
  base_offset : Z;
  ring : OutputRing;
  status : option SessionStatus;
  sent : list TapEvent
}.

Inductive TapAttach :=
  | NotReady
  | NeedsRestart
  | Fresh (stream offset : Z) (b : TapBase) (replay : list (list Z)) (status : option SessionStatus)
  | Resumed (stream offset : Z) (b : TapBase) (replay : list (list Z)) (status : option SessionStatus).

Definition new_tap (id : Z) : Tap := mkTap id None 0 (new_ring TERMINAL_RING_MAX_BYTES) None [].

Definition replay_bytes (replay : list (list Z)) : Z := foldr (λ c acc, len c + acc) 0 replay.

(** [attach], after a resume position that cannot be answered. *)
Definition attach_fresh (t : Tap) (b : TapBase) : TapAttach :=
  match replay_from (ring t) (base_offset t) with
  | None => NeedsRestart
  | Some replay =>
      if TERMINAL_FRESH_ATTACH_REPLAY_MAX_BYTES <? replay_bytes replay then NeedsRestart
      else Fresh (stream_id t) (base_offset t) b replay (status t)
  end.

(** The receiver starts at the end of what has been sent. *)
Definition attach (t : Tap) (resume : option TermResumePosition) : nat * TapAttach :=
  (length (sent t),
   match base t with
   | None => NotReady
   | Some b =>
       match resume with
       | Some p =>
           if p_stream p =? stream_id t then
             match replay_from (ring t) (p_offset p) with
             | Some replay => Resumed (stream_id t) (p_offset p) b replay (status t)
             | None => attach_fresh t b
             end
           else attach_fresh t b
       | None => attach_fresh t b
       end
   end).

Definition send_event (t : Tap) (e : TapEvent) : Tap :=
  mkTap (stream_id t) (base t) (base_offset t) (ring t) (status t) (sent t ++ [e]).

(** [stream] and [hist] are the two ids it draws, in the order of its code. *)
Definition publish_snapshot (t : Tap) (snapshot : TerminalSnapshot) (provider : option AgentProvider)
    (hist stream : Z) : Tap :=
  let windowed := window_snapshot (vt snapshot) (snap_rows snapshot) in
  let b := mkBase hist (snap_cols snapshot) (snap_rows snapshot) provider
             (TerminalWindow.window windowed) (TerminalWindow.history windowed) in
  let offset := end_offset (ring t) in
  send_event (mkTap stream (Some b) offset (reset_to (ring t) offset) (status t) (sent t)) Snapshot.

Definition publish_output (t : Tap) (data : list Z) : Tap :=
  send_event (mkTap (stream_id t) (base t) (base_offset t) (push (ring t) data) (status t) (sent t))
    (Output data).

Definition publish_status (t : Tap) (s : SessionStatus) : Tap :=
  send_event (mkTap (stream_id t) (base t) (base_offset t) (ring t) (Some s) (sent t)) (Status s).

Definition invalidate_stream (t : Tap) (stream : Z) : Tap :=
  mkTap stream None 0 (reset_to (ring t) 0) None (sent t).

Definition scrollback_chunk (t : Tap) (hist : Z) (before_line max_lines : nat)
    : option (Z * HistoryChunk) :=
  b ← base t;
  if history_id b =? hist
  then Some (history_id b, chunk (history b) before_line max_lines)
  else Some (history_id b, mkChunk 0 0 [] (as_u32 (length (history b)))).

(** ** Viewers *)

Inductive ServerFrame :=
  | TermSnapshot (b : TapBase) (data : list Z) (stream offset : Z)
  | TermResumed (b : TapBase) (stream offset : Z)
  | TermOutput (data : list Z)
  | StatusChanged (status : SessionStatus)
  | SessionExit (code : Z)
  | TaskError (code message : str).

(** Where [stream_terminal_windowed] is; a receiver is the number of events it
    has read or passed over. *)
Inductive ViewerPc :=
  | VIdle
  | VAttach (resume : option TermResumePosition)
  | VWait (next : nat)
  | VStream (next : nat)
  | VOver.

(** The frames in front of the live stream, in the order they are sent. *)
Definition hydrate_frames (a : TapAttach) : list ServerFrame :=
  let rest replay st :=
    match st with Some s => [StatusChanged s] | None => [] end ++ map TermOutput replay in
  match a with
  | Fresh stream offset b replay st =>
      TermSnapshot b (utf8 (window b)) stream offset :: rest replay st
  | Resumed stream offset b replay st => TermResumed b stream offset :: rest replay st
  | NotReady | NeedsRestart => []
  end.

(** The ['attach] step: what it sends, whether it asks for a restart, where it
    goes on. *)
Definition viewer_attach (t : Tap) (resume : option TermResumePosition)
    : list ServerFrame * bool * ViewerPc :=
  let '(next, a) := attach t resume in
  match a with
  | NotReady => ([], false, VWait next)
  | NeedsRestart => ([], true, VWait next)
  | _ => (hydrate_frames a, false, VStream next)
  end.

(** [broadcast::Receiver::recv]: [None] while there is nothing to read. *)
Inductive Received := Lagged | Event (e : TapEvent).

Definition recv (t : Tap) (next : nat) : option Received :=
  if bool_decide (next + TERMINAL_TAP_BROADCAST_CAPACITY < length (sent t))%nat then Some Lagged
  else Event <$> sent t !! next.

(** [wait_for_tap_base] *)
Definition viewer_wait (next : nat) (r : Received) : list ServerFrame * ViewerPc :=
  match r with
  | Event Snapshot | Lagged => ([], VAttach None)
  | Event (Failed code message) => ([TaskError code message], VOver)
  | Event (Exit code) => ([SessionExit code], VOver)
  | Event _ => ([], VWait (S next))
  end.

(** The loop over live events. *)
Definition viewer_event (next : nat) (r : Received) : list ServerFrame * ViewerPc :=
  match r with
  | Event (Output data) => ([TermOutput data], VStream (S next))
  | Event (Status s) => ([StatusChanged s], VStream (S next))
  | Event Snapshot | Lagged => ([], VAttach None)
  | Event (Exit code) => ([SessionExit code], VOver)
  | Event (Failed code message) => ([TaskError code message], VOver)
  end.

(** The client: what its emulator has been fed since the last snapshot, and
    where that stops. *)
Record Client := mkClient { resume : option TermResumePosition; screen : list Z }.

Definition deliver (c : Client) (f : ServerFrame) : Client :=
  match f with
  | TermSnapshot b data stream offset => mkClient (Some (mkPosition stream offset)) data
  | TermResumed b stream offset => mkClient (Some (mkPosition stream offset)) (screen c)
  | TermOutput data =>
      mkClient ((λ p, mkPosition (p_stream p) (p_offset p + len data)) <$> resume c)
        (screen c ++ data)
  | _ => c
  end.

(** ** The system: the tap's task, one viewer, its client *)

Inductive RunnerPc := RDetached | RAttached | RDone.

(** [finished] is the tap's flag, which the end of its task or an eviction sets;
    [ids] counts the ids drawn in the process; [restart] is the permit of the
    tap's [Notify]; [streams] remembers, for the statements, what the tap
    published under each stream id: base, offset of the base, bytes since. *)
Record System := mkSystem {
  tap : Tap;
  runner : RunnerPc;
  finished : bool;
  restart : bool;
  ids : Z;
  viewer : ViewerPc;
  frames : list ServerFrame;
  client : Client;
  streams : gmap Z (TapBase * Z * list Z)
}.

Inductive Action :=
  | AAttached (snapshot : TerminalSnapshot) (provider : option AgentProvider)
  | ASnapshot (snapshot : TerminalSnapshot) (provider : option AgentProvider)
  | AOutput (data : list Z)
  | AStatus (s : SessionStatus)
  | AExit (code : Z)
  | AFailed (code message : str)
  | ALost
  | ADrain
  | ARestart
  | AIdle
  | AFinish
  | AOther (drawn : nat) (asks : bool)
  | AConnect
  | ADisconnect
  | AViewer
  | ADeliver.

Section system.
Context (id_base : Z).

Definition with_tap (y : System) (t : Tap) (r : RunnerPc) (permit : bool) (n : Z)
    (m : gmap Z (TapBase * Z * list Z)) : System :=
  mkSystem t r (finished y) permit n (viewer y) (frames y) (client y) m.

Definition with_viewer (y : System) (v : ViewerPc) (fs : list ServerFrame) (c : Client) : System :=
  mkSystem (tap y) (runner y) (finished y) (restart y) (ids y) v fs c (streams y).

(** [publish_snapshot] with its two fresh ids. *)
Definition snapshot_step (y : System) (s : TerminalSnapshot) (p : option AgentProvider) : System :=
  let t := publish_snapshot (tap y) s p (next_terminal_tap_id id_base (ids y))
             (next_terminal_tap_id id_base (ids y + 1)) in
  with_tap y t RAttached (restart y) (ids y + 2)
    (match base t with
     | Some b => <[stream_id t := (b, base_offset t, [])]> (streams y)
     | None => streams y
     end).

Definition invalidate_step (y : System) (notify permit : bool) : System :=
  let t := invalidate_stream (tap y) (next_terminal_tap_id id_base (ids y)) in
  with_tap y (if notify then send_event t Snapshot else t) RDetached permit (ids y + 1) (streams y).

(** One step of the viewer's task. *)
Definition viewer_step (y : System) : option System :=
  match viewer y with
  | VAttach resume =>
      if finished y then Some (with_viewer y VOver (frames y) (client y)) else
      let '(fs, asks, v) := viewer_attach (tap y) resume in
      Some (mkSystem (tap y) (runner y) (finished y) (restart y || asks) (ids y) v (frames y ++ fs) (client y)
              (streams y))
  | VWait next =>
      r ← recv (tap y) next;
      let '(fs, v) := viewer_wait next r in Some (with_viewer y v (frames y ++ fs) (client y))
  | VStream next =>
      r ← recv (tap y) next;
      let '(fs, v) := viewer_event next r in Some (with_viewer y v (frames y ++ fs) (client y))
  | VIdle | VOver => None
  end.

Definition next_system (y : System) (a : Action) : option System :=
  match a with
  | AAttached s p => if runner y is RDetached then Some (snapshot_step y s p) else None
  | ASnapshot s p => if runner y is RAttached then Some (snapshot_step y s p) else None
  | AOutput data =>
      if runner y is RAttached then
        let t := publish_output (tap y) data in
        Some (with_tap y t RAttached (restart y) (ids y)
                (alter (λ e, (e.1, e.2 ++ data)) (stream_id t) (streams y)))
      else None
  | AStatus s =>
      if runner y is RAttached
      then Some (with_tap y (publish_status (tap y) s) RAttached (restart y) (ids y) (streams y))
      else None
  | AExit code =>
      if runner y is RAttached
      then Some (with_tap y (send_event (tap y) (Exit code)) RDone (restart y) (ids y) (streams y))
      else None
  | AFailed code message =>
      if runner y is RDetached
      then Some (with_tap y (send_event (tap y) (Failed code message)) RDone (restart y) (ids y)
                   (streams y))
      else None
  | ALost => if runner y is RDone then None else Some (invalidate_step y true (restart y))
  | ADrain =>
      if runner y is RDetached
      then Some (with_tap y (tap y) RDetached false (ids y) (streams y)) else None
  | ARestart =>
      if runner y is RAttached then
        if restart y then Some (invalidate_step y false false) else None
      else None
  | AIdle => Some (with_tap y (tap y) RDone (restart y) (ids y) (streams y))
  | AFinish =>
      Some (mkSystem (tap y) (runner y) true (restart y) (ids y) (viewer y) (frames y) (client y)
              (streams y))
  | AOther drawn asks =>
      Some (with_tap y (tap y) (runner y) (restart y || asks) (ids y + Z.of_nat drawn) (streams y))
  | AConnect =>
      if viewer y is VIdle then Some (with_viewer y (VAttach (resume (client y))) [] (client y))
      else None
  | ADisconnect => Some (with_viewer y VIdle [] (client y))
  | AViewer => viewer_step y
  | ADeliver =>
      match frames y with
      | [] => None
      | f :: rest => Some (with_viewer y (viewer y) rest (deliver (client y) f))
      end
  end.

(** A fresh tap draws its first id. *)
Definition initial_system : System :=
  mkSystem (new_tap (next_terminal_tap_id id_base 0)) RDetached false false 1 VIdle [] (mkClient None []) ∅.

Definition system_step (y y' : System) : Prop := ∃ a, next_system y a = Some y'.
End system.

(** ** What a client has seen *)

(** The client's screen is the window of its stream and a prefix of the bytes
    since. *)
Definition consistent (m : gmap Z (TapBase * Z * list Z)) (c : Client) : Prop :=
  match resume c with
  | None => screen c = []
  | Some p =>
      ∃ b o bytes, m !! p_stream p = Some (b, o, bytes) ∧ o ≤ p_offset p ≤ o + len bytes
        ∧ screen c = utf8 (window b) ++ take (Z.to_nat (p_offset p - o)) bytes
  end.

(** The client is on stream [s], and what it has not seen of it is [data] and
    then [rest]. *)
Definition following (m : gmap Z (TapBase * Z * list Z)) (c : Client) (s : Z) (data rest : list Z)
    : Prop :=
  ∃ off b o bytes, resume c = Some (mkPosition s off) ∧ m !! s = Some (b, o, bytes)
    ∧ o ≤ off ≤ o + len bytes
    ∧ screen c = utf8 (window b) ++ take (Z.to_nat (off - o)) bytes
    ∧ drop (Z.to_nat (off - o)) bytes = data ++ rest.

Lemma following_consistent m c s data rest : following m c s data rest → consistent m c.
Proof. intros (off & b & o & bytes & Hr & Hm & Ho & Hs & _). unfold consistent. rewrite Hr. by exists b, o, bytes. Qed.

Lemma following_output m c s d data rest :
  following m c s (d ++ data) rest → following m (deliver c (TermOutput d)) s data rest.
Proof.
  intros (off & b & o & bytes & Hr & Hm & Ho & Hs & Hd). rewrite <- app_assoc in Hd.
  assert (Z.to_nat (off + len d - o) = Z.to_nat (off - o) + length d)%nat as Hn by (unfold len; lia).
  exists (off + len d), b, o, bytes. cbn. rewrite Hr, Hn. split_and!; try done.
  - unfold len in *. lia.
  - apply (f_equal length) in Hd. rewrite length_drop, !length_app in Hd. unfold len in *. lia.
  - rewrite Hs, <- app_assoc. f_equal. rewrite <- (take_drop (Z.to_nat (off - o)) bytes) at 2.
    rewrite Hd. assert (length (take (Z.to_nat (off - o)) bytes) = Z.to_nat (off - o)) as Hl
      by (rewrite length_take; unfold len in *; lia).
    rewrite <- Hl at 2. by rewrite take_app_add, take_app_length.
  - by rewrite <- drop_drop, Hd, drop_app_length.
Qed.

(** Frames that say nothing of the stream. *)
Definition is_quiet (f : ServerFrame) : bool :=
  match f with StatusChanged _ | SessionExit _ | TaskError _ _ => true | _ => false end.

Lemma deliver_quiet c f : is_quiet f = true → deliver c f = c.
Proof. by destruct f. Qed.

Lemma following_grow m m' c s data rest more :
  following m c s data rest →
  (∀ b o bytes, m !! s = Some (b, o, bytes) → m' !! s = Some (b, o, bytes ++ more)) →
  following m' c s data (rest ++ more).
Proof.
  intros (off & b & o & bytes & Hr & Hm & Ho & Hs & Hd) Hg.
  assert (Z.to_nat (off - o) ≤ length bytes)%nat by (unfold len in *; lia).
  exists off, b, o, (bytes ++ more). split_and!; auto.
  - lia.
  - rewrite len_app. pose proof (len_nonneg more). lia.
  - by rewrite take_app_le.
  - rewrite drop_app_le by done. rewrite Hd. by rewrite app_assoc.
Qed.

(** [m'] extends [m]: no stream is forgotten or rewritten, only continued. *)
Definition extends (m m' : gmap Z (TapBase * Z * list Z)) : Prop :=
  ∀ s b o bytes, m !! s = Some (b, o, bytes) → ∃ more, m' !! s = Some (b, o, bytes ++ more).

Lemma extends_refl m : extends m m.
Proof. intros s b o bytes H. exists []. by rewrite app_nil_r. Qed.

Lemma consistent_extends m m' c : extends m m' → consistent m c → consistent m' c.
Proof.
  unfold consistent. intros He. destruct (resume c) as [p|]; [|done].
  intros (b & o & bytes & Hm & Ho & Hs). destruct (He _ _ _ _ Hm) as [more Hm'].
  exists b, o, (bytes ++ more). split_and!; [done|lia|rewrite len_app; pose proof (len_nonneg more); lia|].
  rewrite take_app_le; [done|]. unfold len in *. lia.
Qed.

(** Every prefix of the frames on their way leaves the client consistent. *)
Definition frames_ok (m : gmap Z (TapBase * Z * list Z)) (c : Client) (fs : list ServerFrame) : Prop :=
  ∀ n, consistent m (foldl deliver c (take n fs)).

Lemma frames_ok_app m c fs gs :
  frames_ok m c fs → frames_ok m (foldl deliver c fs) gs → frames_ok m c (fs ++ gs).
Proof.
  intros Hf Hg n. destruct (decide (n ≤ length fs)%nat).
  - rewrite take_app_le by done. apply Hf.
  - rewrite take_app_ge by lia. rewrite foldl_app. apply Hg.
Qed.

Lemma frames_ok_extends m m' c fs : extends m m' → frames_ok m c fs → frames_ok m' c fs.
Proof. intros He Hf n. by eapply consistent_extends. Qed.

Lemma frames_ok_nil m c : consistent m c → frames_ok m c [].
Proof. intros H n. by rewrite take_nil. Qed.

Lemma frames_ok_cons m c f fs :
  consistent m c → frames_ok m (deliver c f) fs → frames_ok m c (f :: fs).
Proof. intros Hc Hf [|n]; [done|]. apply Hf. Qed.

Lemma frames_ok_end m c fs : frames_ok m c fs → consistent m (foldl deliver c fs).
Proof. intros H. specialize (H (length fs)). by rewrite firstn_all in H. Qed.

Lemma frames_ok_quiet m c fs f :
  frames_ok m c fs → is_quiet f = true → frames_ok m c (fs ++ [f]).
Proof.
  intros Hf Hq. apply frames_ok_app; [done|]. pose proof (frames_ok_end _ _ _ Hf).
  apply frames_ok_cons; [done|]. rewrite deliver_quiet by done. by apply frames_ok_nil.
Qed.

Lemma replayed m c s replay rest :
  following m c s (flat replay) rest →
  frames_ok m c (map TermOutput replay)
  ∧ following m (foldl deliver c (map TermOutput replay)) s [] rest.
Proof.
  revert c. induction replay as [|d replay IH]; intros c H.
  - split; [|done]. apply frames_ok_nil. by eapply following_consistent.
  - change (flat (d :: replay)) with (d ++ flat replay) in H. cbn [map foldl].
    destruct (IH _ (following_output _ _ _ _ _ _ H)) as [H1 H2]. split; [|done].
    apply frames_ok_cons; [|done]. by eapply following_consistent.
Qed.

(** ** The invariant *)

Definition event_bytes (e : TapEvent) : list Z := match e with Output d => d | _ => [] end.

Definition is_snapshot (e : TapEvent) : bool := match e with Snapshot => true | _ => false end.

(** The output a reader of these events gets before it must re-attach. *)
Fixpoint bytes_ahead (evs : list TapEvent) : list Z :=
  match evs with
  | [] => []
  | e :: evs => if is_snapshot e then [] else event_bytes e ++ bytes_ahead evs
  end.

Lemma bytes_ahead_snoc evs e :
  bytes_ahead (evs ++ [e]) =
  bytes_ahead evs ++ (if existsb is_snapshot evs then [] else event_bytes e).
Proof.
  induction evs as [|f evs IH]; cbn; [by destruct e; cbn; rewrite ?app_nil_r|].
  destruct (is_snapshot f); cbn; [by rewrite ?app_nil_r|]. by rewrite IH, app_assoc.
Qed.

(** The viewer's client, once it has its frames, is on a stream of which the
    events not yet read continue what it has; and they are all of the current
    stream unless a snapshot is among them or the tap has none. *)
Definition streaming (t : Tap) (m : gmap Z (TapBase * Z * list Z)) (c : Client) (evs : list TapEvent)
    : Prop :=
  ∃ s rest, following m c s (bytes_ahead evs) rest
    ∧ (existsb is_snapshot evs = false → base t ≠ None → s = stream_id t ∧ rest = []).

Section invariant.
Context (id_base : Z).
Notation next_id := (next_terminal_tap_id id_base).

Record sys_inv (y : System) : Prop := mkSysInv {
  si_ids : ∀ s, is_Some (streams y !! s) → ∃ k, 0 ≤ k < ids y ∧ s = next_id k;
  si_stream : ∃ k, 0 ≤ k < ids y ∧ stream_id (tap y) = next_id k;
  si_base : match base (tap y) with
            | None => streams y !! stream_id (tap y) = None ∧ runner y ≠ RAttached
            | Some b => ∃ chunks, streams y !! stream_id (tap y) =
                          Some (b, base_offset (tap y), flat chunks)
                        ∧ ring_inv (ring (tap y)) (base_offset (tap y)) chunks
            end;
  si_frames : frames_ok (streams y) (client y) (frames y);
  si_attach : ∀ p, viewer y = VAttach (Some p) → frames y = [] ∧ resume (client y) = Some p;
  si_viewer : ∀ next, viewer y = VStream next →
    (next ≤ length (sent (tap y)))%nat
    ∧ streaming (tap y) (streams y) (foldl deliver (client y) (frames y)) (drop next (sent (tap y)))
}.

Lemma next_id_inj j k :
  0 ≤ j < MAX_TERMINAL_TAP_IDS_PER_PROCESS → 0 ≤ k < MAX_TERMINAL_TAP_IDS_PER_PROCESS →
  next_id j = next_id k → j = k.
Proof. unfold next_terminal_tap_id. intros Hj Hk. rewrite !Z.mod_small by done. lia. Qed.

Lemma fresh_id y k :
  sys_inv y → ids y ≤ k < MAX_TERMINAL_TAP_IDS_PER_PROCESS →
  streams y !! next_id k = None ∧ next_id k ≠ stream_id (tap y).
Proof.
  intros Hi Hk. destruct (si_stream y Hi) as (j & Hj & Hs). split.
  - destruct (streams y !! next_id k) eqn:He; [|done].
    destruct (si_ids y Hi (next_id k)) as (i & Hi' & Hik); [done|]. apply next_id_inj in Hik; lia.
  - rewrite Hs. intros H%next_id_inj; lia.
Qed.

(** The events of the tap, other than an output, leave a reader where it is. *)
Lemma streaming_event t t' m c evs e :
  streaming t m c evs → event_bytes e = [] → stream_id t' = stream_id t → base t' = base t →
  streaming t' m c (evs ++ [e]).
Proof.
  intros (s & rest & Hf & Hc) He Hs Hb. exists s, rest. rewrite bytes_ahead_snoc, He, Hs, Hb, existsb_app.
  split; [by destruct (existsb is_snapshot evs); rewrite app_nil_r|]. intros [H _]%orb_false_iff. by apply Hc.
Qed.

(** ** Steps of the tap *)

Lemma inv_viewer_only y v fs c :
  sys_inv y → frames_ok (streams y) c fs →
  (∀ p, v = VAttach (Some p) → fs = [] ∧ resume c = Some p) →
  (∀ next, v = VStream next → (next ≤ length (sent (tap y)))%nat
     ∧ streaming (tap y) (streams y) (foldl deliver c fs) (drop next (sent (tap y)))) →
  sys_inv (with_viewer y v fs c).
Proof. intros [] Hf Ha Hv. by constructor. Qed.

(** A change of the tap that appends an event, and keeps streams and ring. *)
Lemma inv_event y t r permit n e :
  sys_inv y → t = send_event (mkTap (stream_id (tap y)) (base (tap y)) (base_offset (tap y))
                               (ring (tap y)) (status t) (sent (tap y))) e →
  event_bytes e = [] → ids y ≤ n → (r = RAttached → runner y = RAttached) →
  sys_inv (with_tap y t r permit n (streams y)).
Proof.
  intros [I1 I2 I3 I4 I5 I6] Ht He Hn Hr.
  assert (sent t = sent (tap y) ++ [e] ∧ stream_id t = stream_id (tap y) ∧ base t = base (tap y)
          ∧ base_offset t = base_offset (tap y) ∧ ring t = ring (tap y)) as (Hs & Hi & Hb & Ho & Hg)
    by (by rewrite Ht).
  constructor; cbn [tap runner ids viewer frames client streams with_tap].
  - intros s Hs'. destruct (I1 s Hs') as (k & ? & ?). exists k. split; [lia|done].
  - rewrite Hi. destruct I2 as (k & ? & ?). exists k. split; [lia|done].
  - rewrite Hb, Hi, Ho, Hg. destruct (base (tap y)); [done|]. destruct I3 as [? Hne].
    split; [done|]. intros Hra%Hr. done.
  - done.
  - done.
  - intros next Hv. destruct (I6 next Hv) as [Hle Hst]. rewrite Hs, length_app, drop_app_le by done.
    split; [lia|]. by eapply streaming_event.
Qed.

Lemma inv_quiet y r permit n :
  sys_inv y → ids y ≤ n → (r = RAttached → runner y = RAttached) →
  sys_inv (with_tap y (tap y) r permit n (streams y)).
Proof.
  intros [I1 I2 I3 I4 I5 I6] Hn Hr. constructor; cbn; try done.
  - intros s Hs'. destruct (I1 s Hs') as (k & ? & ?). exists k. split; [lia|done].
  - destruct I2 as (k & ? & ?). exists k. split; [lia|done].
  - destruct (base (tap y)); [done|]. destruct I3 as [? Hne]. split; [done|]. intros Hra%Hr. done.
Qed.

Lemma inv_snapshot y s p :
  sys_inv y → ids y + 2 ≤ MAX_TERMINAL_TAP_IDS_PER_PROCESS → sys_inv (snapshot_step id_base y s p).
Proof.
  intros Hi Hn. destruct (fresh_id y (ids y + 1) Hi) as [Hfresh _]; [destruct (si_stream y Hi); lia|].
  assert (0 ≤ ids y) by (destruct (si_stream y Hi); lia).
  unfold snapshot_step. set (t := publish_snapshot _ _ _ _ _). set (off := end_offset (ring (tap y))).
  assert (∃ b, base t = Some b) as [b Hb] by by eexists.
  assert (stream_id t = next_id (ids y + 1) ∧ base_offset t = off ∧ ring t = reset_to (ring (tap y)) off
          ∧ sent t = sent (tap y) ++ [Snapshot]) as (Hs & Ho & Hg & He) by done.
  clearbody t. rewrite Hb, Hs, Ho.
  assert (extends (streams y) (<[next_id (ids y + 1) := (b, off, [])]> (streams y))) as Hext.
  { intros k b' o bytes Hk. exists []. rewrite app_nil_r, lookup_insert_ne; [done|].
    intros Hk'. by rewrite <- Hk', Hfresh in Hk. }
  destruct Hi as [I1 I2 I3 I4 I5 I6].
  constructor; cbn [tap runner ids viewer frames client streams with_tap]; try done.
  - intros k [e [[<- _]|[_ Hk]]%lookup_insert_Some].
    + exists (ids y + 1). split; [lia|done].
    + destruct (I1 k) as (j & ? & ?); [done|]. exists j. split; [lia|done].
  - exists (ids y + 1). split; [lia|done].
  - rewrite Hb, Hs, Ho, Hg. exists []. rewrite lookup_insert_eq. split; [done|]. apply ring_inv_reset.
  - by eapply frames_ok_extends.
  - intros next Hv. destruct (I6 next Hv) as [Hle (k & rest & Hf & _)].
    rewrite He, length_app, drop_app_le by done. split; [lia|]. exists k, rest.
    rewrite bytes_ahead_snoc, existsb_app. cbn. split; [|by rewrite orb_true_r].
    destruct (existsb _ _); rewrite app_nil_r; rewrite <- (app_nil_r rest); (eapply following_grow; [exact Hf|]).
    all: intros b' o bytes Hk; rewrite app_nil_r, lookup_insert_ne; [done|];
      intros Hk'; by rewrite <- Hk', Hfresh in Hk.
Qed.

Lemma inv_invalidate y notify permit :
  sys_inv y → ids y + 1 ≤ MAX_TERMINAL_TAP_IDS_PER_PROCESS →
  sys_inv (invalidate_step id_base y notify permit).
Proof.
  intros Hi Hn. destruct (fresh_id y (ids y) Hi) as [Hfresh _]; [lia|].
  assert (0 ≤ ids y) by (destruct (si_stream y Hi); lia). destruct Hi as [I1 I2 I3 I4 I5 I6].
  unfold invalidate_step. set (t := if notify then _ else _).
  assert (stream_id t = next_id (ids y) ∧ base t = None ∧
          sent t = sent (tap y) ++ (if notify then [Snapshot] else [])) as (Hs & Hb & He)
    by (subst t; destruct notify; cbn; by rewrite ?app_nil_r).
  constructor; cbn [tap runner ids viewer frames client streams with_tap]; try done.
  - intros k Hk. destruct (I1 k Hk) as (j & ? & ?). exists j. split; [lia|done].
  - exists (ids y). split; [lia|done].
  - by rewrite Hb, Hs.
  - intros next Hv. destruct (I6 next Hv) as [Hle (k & rest & Hf & _)].
    rewrite He, length_app, drop_app_le by done. split; [lia|]. exists k, rest. split; [|by rewrite Hb].
    destruct notify; rewrite ?app_nil_r; [|done]. rewrite bytes_ahead_snoc.
    destruct (existsb _ _); by rewrite app_nil_r.
Qed.

Lemma inv_output y data b :
  sys_inv y → base (tap y) = Some b →
  sys_inv (with_tap y (publish_output (tap y) data) RAttached (restart y) (ids y)
             (alter (λ e, (e.1, e.2 ++ data)) (stream_id (tap y)) (streams y))).
Proof.
  intros [I1 I2 I3 I4 I5 I6] Hb. rewrite Hb in I3. destruct I3 as (chunks & Hs & Hr).
  set (m := alter _ _ _).
  assert (m !! stream_id (tap y) = Some (b, base_offset (tap y), flat chunks ++ data)) as Hm
    by (subst m; rewrite lookup_alter_eq, Hs; done).
  assert (∀ k, k ≠ stream_id (tap y) → m !! k = streams y !! k) as Hne
    by (intros k Hk; subst m; by rewrite lookup_alter_ne).
  assert (extends (streams y) m) as Hext.
  { intros k b' o bytes Hk. destruct (decide (k = stream_id (tap y))) as [->|Hkne].
    - rewrite Hs in Hk. simplify_eq. by exists data.
    - exists []. by rewrite Hne, app_nil_r. }
  constructor; cbn [tap runner ids viewer frames client streams with_tap publish_output send_event
                    stream_id base base_offset ring sent]; try done.
  - intros k Hk. apply I1. subst m. by rewrite lookup_alter_is_Some in Hk.
  - rewrite Hb. destruct data as [|x data]; [exists chunks; rewrite app_nil_r in Hm; done|].
    exists (chunks ++ [x :: data]). rewrite flat_app, Hm. split; [unfold flat at 3; cbn; by rewrite app_nil_r|].
    by apply ring_inv_push.
  - by eapply frames_ok_extends.
  - intros next Hv. destruct (I6 next Hv) as [Hle (k & rest & Hf & Hc)].
    rewrite length_app, drop_app_le by done. split; [lia|]. exists k. rewrite bytes_ahead_snoc, existsb_app.
    cbn [existsb is_snapshot event_bytes]. rewrite !orb_false_r. destruct (existsb _ _) eqn:Hsnap.
    + rewrite app_nil_r. destruct (decide (k = stream_id (tap y))) as [->|Hk].
      * exists (rest ++ data). split; [|done]. eapply following_grow; [exact Hf|].
        intros b' o bytes Hk. rewrite Hs in Hk. by simplify_eq.
      * exists (rest ++ []). split; [|done]. eapply following_grow; [exact Hf|].
        intros b' o bytes Hk'. by rewrite Hne, app_nil_r.
    + destruct (Hc eq_refl) as [-> ->]; [by rewrite Hb|]. exists []. split; [|done].
      assert (following m (foldl deliver (client y) (frames y)) (stream_id (tap y))
                (bytes_ahead (drop next (sent (tap y)))) ([] ++ data)) as (off & b' & o & bytes & H1 & H2 & H3 & H4 & H5).
      { eapply following_grow; [exact Hf|]. intros b' o bytes Hk. rewrite Hs in Hk. by simplify_eq. }
      exists off, b', o, bytes. split_and!; try done; try lia. by rewrite H5, app_nil_r.
Qed.

(** ** Steps of the viewer *)

Lemma inv_send y v f d :
  sys_inv y → frames_ok (streams y) (foldl deliver (client y) (frames y)) [f] →
  (∀ p, v ≠ VAttach (Some p)) →
  (∀ next, v = VStream next → (next ≤ length (sent (tap y)))%nat
     ∧ streaming (tap y) (streams y) (deliver (foldl deliver (client y) (frames y)) f)
         (drop next (sent (tap y)))) →
  d = frames y ++ [f] → sys_inv (with_viewer y v d (client y)).
Proof.
  intros Hi Hf Ha Hv ->. apply inv_viewer_only; [done| | |].
  - apply frames_ok_app; [apply Hi|done].
  - intros p Hp. by apply Ha in Hp.
  - intros next Hn. rewrite foldl_app. by apply Hv.
Qed.

Lemma quiet_frame y f :
  sys_inv y → is_quiet f = true → frames_ok (streams y) (foldl deliver (client y) (frames y)) [f].
Proof.
  intros Hi Hq. pose proof (frames_ok_end _ _ _ (si_frames y Hi)).
  apply frames_ok_cons; [done|]. rewrite deliver_quiet by done. by apply frames_ok_nil.
Qed.

Lemma inv_idle_viewer y v fs :
  sys_inv y → fs = frames y → (∀ p, v ≠ VAttach (Some p)) → (∀ next, v ≠ VStream next) →
  sys_inv (with_viewer y v fs (client y)).
Proof.
  intros Hi -> Ha Hs. apply inv_viewer_only; [done|apply Hi| |].
  - intros p Hp. by apply Ha in Hp.
  - intros next Hn. by apply Hs in Hn.
Qed.

Lemma inv_over y f : sys_inv y → is_quiet f = true → sys_inv (with_viewer y VOver (frames y ++ [f]) (client y)).
Proof. intros Hi Hq. apply (inv_send y _ f); [done|by apply quiet_frame|done..]. Qed.

Lemma inv_wait y next r fs v :
  sys_inv y → viewer_wait next r = (fs, v) → sys_inv (with_viewer y v (frames y ++ fs) (client y)).
Proof.
  intros Hi. destruct r as [|[]]; cbn; intros [= <- <-]; rewrite ?app_nil_r;
    first [by apply inv_over | by apply inv_idle_viewer].
Qed.

Lemma recv_event t next e :
  recv t next = Some (Event e) → drop next (sent t) = e :: drop (S next) (sent t) ∧ (S next ≤ length (sent t))%nat.
Proof.
  unfold recv. case_bool_decide; [done|]. intros Hx. destruct (sent t !! next) as [e'|] eqn:He; [|done].
  cbn in Hx. simplify_eq. split; [by apply drop_S|]. apply lookup_lt_Some in He. lia.
Qed.

Lemma inv_event_read y next r fs v :
  sys_inv y → viewer y = VStream next → recv (tap y) next = Some r → viewer_event next r = (fs, v) →
  sys_inv (with_viewer y v (frames y ++ fs) (client y)).
Proof.
  intros Hi Hv Hr. destruct (si_viewer y Hi next Hv) as [Hle (k & rest & Hf & Hc)].
  destruct r as [|e]; [|apply recv_event in Hr as [Hd Hn]; rewrite Hd in Hf, Hc];
    [|destruct e as [data| |st|code|code msg]]; cbn; intros [= <- <-]; rewrite ?app_nil_r;
    try (by apply inv_idle_viewer); try (by apply inv_over).
  - cbn [bytes_ahead is_snapshot event_bytes existsb orb] in *. pose proof (following_output _ _ _ _ _ _ Hf) as Hf'.
    apply (inv_send y _ (TermOutput data)); try done.
    + apply frames_ok_cons; [by eapply following_consistent|]. apply frames_ok_nil. by eapply following_consistent.
    + intros n [= <-]. split; [done|]. exists k, rest. done.
  - apply (inv_send y _ (StatusChanged st)); try done; [by apply quiet_frame|].
    intros n [= <-]. split; [done|]. exists k, rest. done.
Qed.

(** The frames in front of the live stream bring the client to the end of the
    current stream. *)
Lemma inv_hydrate y b replay st f :
  sys_inv y → base (tap y) = Some b →
  following (streams y) (deliver (foldl deliver (client y) (frames y)) f) (stream_id (tap y)) (flat replay) [] →
  sys_inv (with_viewer y (VStream (length (sent (tap y))))
             (frames y ++ f :: (match st with Some s => [StatusChanged s] | None => [] end
                                ++ map TermOutput replay)) (client y)).
Proof.
  intros Hi Hb Hf. set (c := foldl deliver (client y) (frames y)) in *.
  destruct (replayed _ _ _ _ _ Hf) as [Hok Hend].
  set (fs := match st with Some s => [StatusChanged s] | None => [] end).
  assert (∀ c', foldl deliver c' (fs ++ map TermOutput replay) = foldl deliver c' (map TermOutput replay)) as Hq
    by (intros c'; subst fs; by destruct st).
  apply inv_viewer_only; [done| |done|].
  - apply frames_ok_app; [apply Hi|]. fold c.
    apply frames_ok_cons; [apply frames_ok_end, Hi|]. subst fs. destruct st as [s|]; [|done].
    apply frames_ok_cons; [by eapply following_consistent|done].
  - intros next [= <-]. split; [done|]. rewrite foldl_app. fold c. cbn [foldl]. rewrite Hq, drop_all.
    exists (stream_id (tap y)), []. done.
Qed.

Lemma sent_all chunks before k :
  chunks = before ++ k → Forall (λ c, c ≠ []) chunks → len (flat before) = 0 → k = chunks.
Proof.
  intros -> Hne H. apply Forall_app in Hne as [Hne _]. destruct Hne as [|c before Hc _]; [done|].
  pose proof (len_pos c Hc). rewrite len_flat_cons in H. pose proof (len_nonneg (flat before)). lia.
Qed.

Lemma attach_fresh_spec y b :
  sys_inv y → base (tap y) = Some b →
  attach_fresh (tap y) b = NeedsRestart
  ∨ ∃ chunks, attach_fresh (tap y) b = Fresh (stream_id (tap y)) (base_offset (tap y)) b chunks (status (tap y))
      ∧ streams y !! stream_id (tap y) = Some (b, base_offset (tap y), flat chunks).
Proof.
  intros Hi Hb. pose proof (si_base y Hi) as H. rewrite Hb in H. destruct H as (chunks & Hs & Hr).
  unfold attach_fresh. destruct (replay_from _ _) as [replay|] eqn:Hrep; [|by left].
  destruct (_ <? _); [by left|right]. apply (replay_from_spec _ _ _ _ _ Hr) in Hrep as (_ & before & Hb' & Ho).
  exists chunks. rewrite (sent_all _ _ _ Hb' (rg_nonempty _ _ _ Hr)) by lia. done.
Qed.

Lemma inv_restart y permit : sys_inv y →
  sys_inv (mkSystem (tap y) (runner y) (finished y) permit (ids y) (viewer y) (frames y) (client y) (streams y)).
Proof. intros []. by constructor. Qed.

Lemma resumed_client y p b chunks before replay :
  sys_inv y → frames y = [] → resume (client y) = Some p → p_stream p = stream_id (tap y) →
  streams y !! stream_id (tap y) = Some (b, base_offset (tap y), flat chunks) →
  chunks = before ++ replay → p_offset p = base_offset (tap y) + len (flat before) →
  following (streams y) (deliver (client y) (TermResumed b (stream_id (tap y)) (p_offset p)))
    (stream_id (tap y)) (flat replay) [].
Proof.
  intros Hi Hf Hr Hp Hs Hc Ho. pose proof (si_frames y Hi 0%nat) as Hcons.
  change (consistent (streams y) (client y)) in Hcons. unfold consistent in Hcons.
  rewrite Hr in Hcons. destruct Hcons as (b' & o' & bytes & Hm & Hle & Hscreen).
  rewrite Hp, Hs in Hm. simplify_eq.
  exists (p_offset p), b', (base_offset (tap y)), (flat (before ++ replay)). split_and!; try done; try lia.
  rewrite Ho, flat_app, app_nil_r. replace (_ + _ - _) with (len (flat before)) by lia.
  unfold len. by rewrite Nat2Z.id, drop_app_length.
Qed.

Lemma inv_attach y r :
  sys_inv y → viewer y = VAttach r →
  let '(fs, asks, v) := viewer_attach (tap y) r in sys_inv (with_viewer y v (frames y ++ fs) (client y)).
Proof.
  intros Hi Hv. unfold viewer_attach, attach. destruct (base (tap y)) as [b|] eqn:Hb.
  2: { rewrite app_nil_r. by apply inv_idle_viewer. }
  assert (let '(fs, asks, v) :=
            match attach_fresh (tap y) b with
            | NotReady => ([], false, VWait (length (sent (tap y))))
            | NeedsRestart => ([], true, VWait (length (sent (tap y))))
            | _ => (hydrate_frames (attach_fresh (tap y) b), false, VStream (length (sent (tap y))))
            end in sys_inv (with_viewer y v (frames y ++ fs) (client y))) as Hfresh.
  { destruct (attach_fresh_spec y b Hi Hb) as [->|(chunks & -> & Hs)].
    - rewrite app_nil_r. by apply inv_idle_viewer.
    - apply (inv_hydrate y b chunks (status (tap y)) (TermSnapshot b _ _ _)); [done..|].
      exists (base_offset (tap y)), b, (base_offset (tap y)), (flat chunks).
      rewrite Z.sub_diag, app_nil_r. pose proof (len_nonneg (flat chunks)). split_and!; try done; try lia.
      cbn. by rewrite app_nil_r. }
  destruct r as [p|]; [|exact Hfresh]. destruct (Z.eqb_spec (p_stream p) (stream_id (tap y))) as [Hp|]; [|exact Hfresh].
  destruct (replay_from (ring (tap y)) (p_offset p)) as [replay|] eqn:Hrep; [|exact Hfresh]. clear Hfresh.
  destruct (si_attach y Hi p Hv) as [Hf Hr]. pose proof (si_base y Hi) as Hbase. rewrite Hb in Hbase.
  destruct Hbase as (chunks & Hs & Hring).
  apply (replay_from_spec _ _ _ _ _ Hring) in Hrep as (_ & before & Hc & Ho).
  apply (inv_hydrate y b replay (status (tap y)) (TermResumed b _ _)); [done..|].
  rewrite Hf. cbn [foldl]. by eapply resumed_client.
Qed.

Lemma inv_viewer_step y y' : sys_inv y → viewer_step y = Some y' → sys_inv y'.
Proof.
  intros Hi. unfold viewer_step. destruct (viewer y) as [|r|next|next|] eqn:Hv; [done| | | |done].
  - destruct (finished y) eqn:Hfin; [intros Hx; injection Hx as <-; by apply inv_idle_viewer|].
    pose proof (inv_attach y r Hi Hv) as Ha. revert Ha.
    destruct (viewer_attach (tap y) r) as [[fs asks] v]. intros Ha Hx. injection Hx as <-.
    apply (inv_restart _ (restart y || asks)) in Ha. cbn in Ha. by rewrite Hfin in Ha.
  - destruct (recv (tap y) next) as [r|] eqn:Hr; [|done]. cbn [mbind option_bind].
    destruct (viewer_wait next r) as [fs v] eqn:He. intros [= <-]. by eapply inv_wait.
  - destruct (recv (tap y) next) as [r|] eqn:Hr; [|done]. cbn [mbind option_bind].
    destruct (viewer_event next r) as [fs v] eqn:He. intros [= <-]. by eapply inv_event_read.
Qed.

Lemma inv_deliver y f rest :
  sys_inv y → frames y = f :: rest → sys_inv (with_viewer y (viewer y) rest (deliver (client y) f)).
Proof.
  intros Hi Hf. apply inv_viewer_only; [done| | |].
  - intros n. pose proof (si_frames y Hi (S n)) as H. by rewrite Hf in H.
  - intros p Hp. destruct (si_attach y Hi p Hp) as [H _]. by rewrite Hf in H.
  - intros next Hv. destruct (si_viewer y Hi next Hv) as [? H]. by rewrite Hf in H.
Qed.

Lemma inv_connection y v :
  sys_inv y → v = VIdle ∨ v = VAttach (resume (client y)) → sys_inv (with_viewer y v [] (client y)).
Proof.
  intros Hi Hv. apply inv_viewer_only; [done| | |].
  - apply frames_ok_nil. apply (si_frames y Hi 0%nat).
  - intros p ->. by destruct Hv as [|[= <-]].
  - intros next ->. by destruct Hv.
Qed.

Lemma ids_monotone y a y' : next_system id_base y a = Some y' → ids y ≤ ids y'.
Proof.
  destruct a; cbn [next_system]; unfold viewer_step, viewer_wait, viewer_event; intros H;
    repeat (case_match; try done; simplify_option_eq); simplify_option_eq; cbn; try lia.
Qed.

Lemma inv_step y a y' :
  next_system id_base y a = Some y' → ids y' ≤ MAX_TERMINAL_TAP_IDS_PER_PROCESS →
  sys_inv y → sys_inv y'.
Proof.
  intros H Hids Hi. destruct a as [s p|s p|data|st|code|code msg| | | | | |drawn asks| | | |];
    cbn [next_system] in H.
  - destruct (runner y); simplify_eq. by apply inv_snapshot.
  - destruct (runner y); simplify_eq. by apply inv_snapshot.
  - destruct (runner y) eqn:Hr; simplify_eq. pose proof (si_base y Hi) as Hb.
    destruct (base (tap y)) as [b|] eqn:He; [by eapply inv_output|]. by destruct Hb as [_ []].
  - destruct (runner y) eqn:Hr; simplify_eq. by eapply (inv_event _ _ _ _ _ (Status st)).
  - destruct (runner y); simplify_eq. by eapply (inv_event _ _ _ _ _ (Exit code)).
  - destruct (runner y); simplify_eq. by eapply (inv_event _ _ _ _ _ (Failed code msg)).
  - destruct (runner y); simplify_eq; by apply inv_invalidate.
  - destruct (runner y); simplify_eq. by apply inv_quiet.
  - destruct (runner y); simplify_eq. destruct (restart y); simplify_eq. by apply inv_invalidate.
  - simplify_eq. by apply inv_quiet.
  - simplify_eq. destruct Hi. by constructor.
  - simplify_eq. apply inv_quiet; [done|lia|done].
  - destruct (viewer y); simplify_eq. apply inv_connection; auto.
  - simplify_eq. apply inv_connection; auto.
  - by eapply inv_viewer_step.
  - destruct (frames y) as [|f rest] eqn:Hf; simplify_eq. by apply inv_deliver.
Qed.

Lemma sys_inv_initial : sys_inv (initial_system id_base).
Proof.
  constructor; cbn; try done.
  - intros s [e He]. by rewrite lookup_empty in He.
  - exists 0. split; [lia|done].
  - by apply frames_ok_nil.
Qed.

Lemma sys_inv_reachable y :
  reachable (system_step id_base) (initial_system id_base) y →
  ids y ≤ MAX_TERMINAL_TAP_IDS_PER_PROCESS → sys_inv y.
Proof.
  apply (reachable_invariant (system_step id_base)
           (λ y, ids y ≤ MAX_TERMINAL_TAP_IDS_PER_PROCESS → sys_inv y)).
  - intros _. apply sys_inv_initial.
  - intros y0 y1 IH [a Ha] Hids. eapply inv_step; [done..|]. apply IH.
    pose proof (ids_monotone _ _ _ Ha). lia.
Qed.
End invariant.

(** C2: What a terminal client shows is always the snapshot it was given and
    an unbroken prefix of the session's output since. Whatever the daemon
    connection, the tap and the viewer do and in whatever order the client
    disconnects, comes back with its resume position and reads its frames,
    its emulator has been fed the window of the stream it is on and exactly
    the bytes between that snapshot and its offset: none missing, none twice,
    none of another stream. *)
Theorem client_shows_one_unbroken_stream id_base y p :
  reachable (system_step id_base) (initial_system id_base) y →
  ids y ≤ MAX_TERMINAL_TAP_IDS_PER_PROCESS → resume (client y) = Some p →
  ∃ b o bytes, streams y !! p_stream p = Some (b, o, bytes)
    ∧ o ≤ p_offset p ≤ o + len bytes
    ∧ screen (client y) = utf8 (window b) ++ take (Z.to_nat (p_offset p - o)) bytes.
Proof.
  intros Hr Hids Hp. pose proof (si_frames _ _ (sys_inv_reachable _ _ Hr Hids) 0%nat) as H.
  change (consistent (streams y) (client y)) in H. unfold consistent in H. by rewrite Hp in H.
Qed.

(** C28: A viewer that has caught up is current. When the viewer has read every
    event and its frames have been delivered while the tap has a base, the
    client is on the tap's present stream at its end: its emulator holds the
    present snapshot and all the output since. *)
Theorem settled_client_is_current id_base y b :
  reachable (system_step id_base) (initial_system id_base) y →
  ids y ≤ MAX_TERMINAL_TAP_IDS_PER_PROCESS →
  viewer y = VStream (length (sent (tap y))) → frames y = [] → base (tap y) = Some b →
  ∃ bytes, streams y !! stream_id (tap y) = Some (b, base_offset (tap y), bytes)
    ∧ resume (client y) = Some (mkPosition (stream_id (tap y)) (end_offset (ring (tap y))))
    ∧ screen (client y) = utf8 (window b) ++ bytes.
Proof.
  intros Hr Hids Hv Hf Hb. pose proof (sys_inv_reachable _ _ Hr Hids) as Hi.
  destruct (si_viewer _ _ Hi _ Hv) as [_ (s & rest & Hfol & Hc)]. rewrite Hf, drop_all in *.
  destruct (Hc eq_refl) as [-> ->]; [by rewrite Hb|].
  pose proof (si_base _ _ Hi) as Hbase. rewrite Hb in Hbase. destruct Hbase as (chunks & Hs & Hring).
  destruct Hfol as (off & b' & o & bytes & H1 & H2 & H3 & H4 & H5). rewrite Hs in H2. simplify_eq.
  cbn in H1, H4, H5. exists (flat chunks). split; [done|].
  apply (f_equal length) in H5. rewrite length_drop in H5. cbn in H5. unfold len in H3.
  rewrite (rg_end _ _ _ Hring), H1. unfold len. split; [do 2 f_equal; lia|].
  rewrite H4, firstn_all2; [done|lia].
Qed.

(** ** Concrete runs *)

Definition some_snapshot : TerminalSnapshot := mkSnapshot 1 24 80 0 2 true 0 0 (lit "$ ").

(** The client reads a chunk, loses its connection, misses another chunk, and
    resumes. *)
Definition resume_run : list Action :=
  [AAttached some_snapshot None; AConnect; AViewer; ADeliver; AOutput (lit "ls"); AViewer; ADeliver;
   ADisconnect; AOutput [13; 10]; AConnect; AViewer; ADeliver; ADeliver].

Definition resumed_system : System :=
  default (initial_system 4503599627370000)
    (exec (next_system 4503599627370000) (initial_system 4503599627370000) resume_run).

Lemma resumed_reachable :
  reachable (system_step 4503599627370000) (initial_system 4503599627370000) resumed_system.
Proof. eapply (exec_reachable _ _ _ resume_run); [constructor|]. by vm_compute. Qed.

Lemma client_shows_one_unbroken_stream_witness :
  resume (client resumed_system) = Some (mkPosition 4503599627370002 4)
  ∧ ∃ b o bytes, streams resumed_system !! 4503599627370002 = Some (b, o, bytes)
    ∧ o ≤ 4 ≤ o + len bytes
    ∧ screen (client resumed_system) = utf8 (window b) ++ take (Z.to_nat (4 - o)) bytes.
Proof.
  split; [by vm_compute|].
  apply (client_shows_one_unbroken_stream 4503599627370000 resumed_system (mkPosition 4503599627370002 4)).
  - apply resumed_reachable.
  - by vm_compute.
  - by vm_compute.
Defined.

Lemma settled_client_is_current_witness :
  screen (client resumed_system) = lit "$ ls" ++ [13; 10]
  ∧ ∃ b, base (tap resumed_system) = Some b ∧
      ∃ bytes, screen (client resumed_system) = utf8 (window b) ++ bytes.
Proof.
  split; [by vm_compute|]. destruct (base (tap resumed_system)) as [b|] eqn:Hb; [|by vm_compute in Hb].
  exists b. split; [done|].
  destruct (settled_client_is_current 4503599627370000 resumed_system b) as (bytes & _ & _ & H).
  - apply resumed_reachable.
  - by vm_compute.
  - by vm_compute.
  - by vm_compute.
  - exact Hb.
  - by exists bytes.
Defined.

(** A viewer that attaches between the exit of the session and the tap's end is
    never told: its stream has no more events, and nothing it waits for comes. *)
Theorem viewer_can_miss_the_exit :
  ∃ y, reachable (system_step 4503599627370000) (initial_system 4503599627370000) y
    ∧ Exit 0 ∈ sent (tap y) ∧ runner y = RDone ∧ finished y = true
    ∧ viewer y = VStream (length (sent (tap y)))
    ∧ frames y = [] ∧ recv (tap y) (length (sent (tap y))) = None.
Proof.
  set (l := [AAttached some_snapshot None; AExit 0; AConnect; AViewer; AFinish; ADeliver]).
  destruct (exec (next_system 4503599627370000) (initial_system 4503599627370000) l) as [y|] eqn:Hy;
    [|by vm_compute in Hy].
  exists y. split; [by eapply exec_reachable; [constructor|exact Hy]|].
  vm_compute in Hy. injection Hy as <-. split_and!; try (by vm_compute).
  apply elem_of_list_In || apply list_elem_of_In. cbn. auto.
Qed.
