(* ===== verification/CompanionEvents.v ===== *)
(** * Two lanes of runtime events ([RuntimeEventSender] and
    [RuntimeEventReceiver] of [crates/task-transfer/src/runtime/state.rs])

    Ordinary events wait in a bounded channel, in order; of a companion's
    snapshots only the latest per peer and task waits, in a map with a queue of
    ready keys, fenced by the generation its observer registered.  The map is
    behind a mutex, so each critical section is a step; the channel that wakes
    the receiver holds one message and is written after the mutex is released.
    An event's payload is opaque text. *)

From S2P Require Import Prelude RustStd.
Local Open Scope nat_scope.

Definition MAX_COMPANION_OBSERVERS : nat := 64.
Definition MAX_RELIABLE_EVENTS_BEFORE_COMPANION : nat := 32.

Abbreviation Key := (list Z * list Z)%type (only parsing).
Abbreviation Generation := (Z * list Z)%type (only parsing).

(** The frames [send] tells apart. *)
Inductive FrameKind := CompanionSnapshot | CompanionUnavailable | CompanionError | OtherFrame.

Inductive RuntimeEvent :=
  | OtherEvent (payload : str)
  | CompanionEvent (key : Key) (generation : Generation) (frame : FrameKind) (payload : str).

Record CompanionEventState := mkState {
  pending : gmap Key RuntimeEvent;
  ready : list Key;
  current_generations : gmap Key Generation
}.

(** [current] fences out an event of [generation]: it is later, or is another
    of the same order. *)
Definition fences (current generation : Generation) : bool :=
  (generation.1 <? current.1)%Z
  || ((current.1 =? generation.1)%Z && negb (bool_decide (current.2 = generation.2))).

Definition fenced (s : CompanionEventState) (k : Key) (g : Generation) : bool :=
  match current_generations s !! k with Some c => fences c g | None => false end.

Definition event_generation (e : RuntimeEvent) : option Generation :=
  match e with CompanionEvent _ g _ _ => Some g | OtherEvent _ => None end.

(** [pending.remove] with [ready.retain]. *)
Definition discard (s : CompanionEventState) (k : Key) : CompanionEventState :=
  mkState (delete k (pending s)) (filter (λ x, x ≠ k) (ready s)) (current_generations s).

Definition register_companion_generation (s : CompanionEventState) (k : Key) (g : Generation)
    : CompanionEventState * bool :=
  if fenced s k g then (s, false)
  else
    let s' := mkState (pending s) (ready s) (<[k := g]> (current_generations s)) in
    match pending s !! k ≫= event_generation with
    | Some p => if fences g p then (discard s' k, true) else (s', true)
    | None => (s', true)
    end.

Definition unregister_companion_generation (s : CompanionEventState) (k : Key) (g : Generation)
    : CompanionEventState :=
  if bool_decide (current_generations s !! k = Some g)
  then discard (mkState (pending s) (ready s) (delete k (current_generations s))) k else s.

Definition invalidate_companion (s : CompanionEventState) (k : Key) (g : Generation)
    : CompanionEventState :=
  if bool_decide (pending s !! k ≫= event_generation = Some g) then discard s k else s.

(** The critical section of [send] for a snapshot: [None] is the event handed
    back because too many companions wait. *)
Definition put_companion (s : CompanionEventState) (k : Key) (g : Generation) (e : RuntimeEvent)
    : option (CompanionEventState * bool) :=
  if fenced s k g then Some (s, false)
  else
    let current :=
      match current_generations s !! k with
      | Some _ => current_generations s
      | None => <[k := g]> (current_generations s)
      end in
    let waiting := bool_decide (is_Some (pending s !! k)) in
    if negb waiting && bool_decide (MAX_COMPANION_OBSERVERS ≤ size (pending s)) then None
    else Some (mkState (<[k := e]> (pending s)) (if waiting then ready s else ready s ++ [k]) current, true).

(** [take_companion]: keys whose event is gone are passed over. *)
Fixpoint take_from (p : gmap Key RuntimeEvent) (keys : list Key)
    : option RuntimeEvent * gmap Key RuntimeEvent * list Key :=
  match keys with
  | [] => (None, p, [])
  | k :: rest =>
      match p !! k with
      | Some e => (Some e, delete k p, rest)
      | None => take_from p rest
      end
  end.

Definition take_companion (s : CompanionEventState) : option RuntimeEvent * CompanionEventState :=
  let '(e, p, r) := take_from (pending s) (ready s) in (e, mkState p r (current_generations s)).

(** ** The channel and its receiver *)

(** Where [recv] is: at the two [try_recv]s, at [take_companion], or in the
    [select!]. *)
Inductive RecvPc := PTop | PTake | PTry | PPark | PEnded.

(** [notifying] are the senders between the mutex and the notification;
    [delivered] is what [recv] has returned. *)
Record Channel := mkChannel {
  ordinary : list RuntimeEvent;
  companion_state : CompanionEventState;
  companion_notify : bool;
  notifying : list Key;
  senders : bool;
  receiver : bool;
  pc : RecvPc;
  ordinary_closed : bool;
  companion_closed : bool;
  reliable_burst : nat;
  delivered : list RuntimeEvent;
  panicked : bool
}.

Inductive ChannelAction :=
  | ARegister (k : Key) (g : Generation)
  | AUnregister (k : Key) (g : Generation)
  | AInvalidate (k : Key) (g : Generation)
  | ASendSnapshot (k : Key) (g : Generation) (unavailable : bool) (payload : str)
  | ASendNotify
  | ASendOrdinary (e : RuntimeEvent)
  | ADropSenders
  | ADropReceiver
  | AReceive.

Definition with_state (c : Channel) (s : CompanionEventState) : Channel :=
  mkChannel (ordinary c) s (companion_notify c) (notifying c) (senders c) (receiver c) (pc c)
    (ordinary_closed c) (companion_closed c) (reliable_burst c) (delivered c) (panicked c).

Definition at_pc (c : Channel) (p : RecvPc) : Channel :=
  mkChannel (ordinary c) (companion_state c) (companion_notify c) (notifying c) (senders c)
    (receiver c) p (ordinary_closed c) (companion_closed c) (reliable_burst c) (delivered c) (panicked c).

(** [recv] returns [e], taken from the ordinary channel, and is called again. *)
Definition return_ordinary (c : Channel) (e : RuntimeEvent) (rest : list RuntimeEvent) : Channel :=
  mkChannel rest (companion_state c) (companion_notify c) (notifying c) (senders c) (receiver c) PTop
    (ordinary_closed c) (companion_closed c) (S (reliable_burst c)) (delivered c ++ [e]) (panicked c).

Definition close_ordinary (c : Channel) (p : RecvPc) : Channel :=
  mkChannel (ordinary c) (companion_state c) (companion_notify c) (notifying c) (senders c) (receiver c)
    p true (companion_closed c) (reliable_burst c) (delivered c) (panicked c).

(** [try_recv], and where the receiver goes on without an event. *)
Definition try_ordinary (c : Channel) (p : RecvPc) : Channel :=
  match ordinary c with
  | e :: rest => return_ordinary c e rest
  | [] => if senders c then at_pc c p else close_ordinary c p
  end.

(** After the second [try_recv]: the end, or the [select!]. *)
Definition park_or_end (c : Channel) : Channel :=
  if ordinary_closed c && companion_closed c then at_pc c PEnded else at_pc c PPark.

(** One step of [recv]; [None] while the [select!] has nothing. *)
Definition receive_step (c : Channel) : option Channel :=
  match pc c with
  | PTop =>
      Some (if negb (ordinary_closed c) && bool_decide (reliable_burst c < MAX_RELIABLE_EVENTS_BEFORE_COMPANION)
            then try_ordinary c PTake else at_pc c PTake)
  | PTake =>
      let '(taken, s) := take_companion (companion_state c) in
      match taken with
      | Some e =>
          Some (mkChannel (ordinary c) s (companion_notify c) (notifying c) (senders c) (receiver c) PTop
                  (ordinary_closed c) (companion_closed c) 0 (delivered c ++ [e]) (panicked c))
      | None => Some (at_pc (with_state c s) PTry)
      end
  | PTry =>
      Some (if negb (ordinary_closed c)
            then match ordinary c with
                 | e :: rest => return_ordinary c e rest
                 | [] => park_or_end (if senders c then c else close_ordinary c PTry)
                 end
            else park_or_end c)
  | PPark =>
      if negb (ordinary_closed c) && bool_decide (ordinary c ≠ []) then Some (try_ordinary c PTop)
      else if negb (ordinary_closed c) && negb (senders c) then Some (close_ordinary c PTop)
      else if negb (companion_closed c) && companion_notify c then
        Some (mkChannel (ordinary c) (companion_state c) false (notifying c) (senders c) (receiver c) PTop
                (ordinary_closed c) (companion_closed c) (reliable_burst c) (delivered c) (panicked c))
      else if negb (companion_closed c) && negb (senders c) then
        Some (mkChannel (ordinary c) (companion_state c) (companion_notify c) (notifying c) (senders c)
                (receiver c) PTop (ordinary_closed c) true (reliable_burst c) (delivered c) (panicked c))
      else None
  | PEnded => None
  end.

Definition waiting_to_notify (c : Channel) (s : CompanionEventState) (k : Key) : Channel :=
  mkChannel (ordinary c) s (companion_notify c) (notifying c ++ [k]) (senders c) (receiver c)
    (pc c) (ordinary_closed c) (companion_closed c) (reliable_burst c) (delivered c) (panicked c).

(** The end of [send] for a snapshot.  A closed channel hands the event back,
    which it expects still to be there. *)
Definition send_notify (c : Channel) (k : Key) (rest : list Key) : Channel :=
  if receiver c then
    mkChannel (ordinary c) (companion_state c) true rest (senders c) (receiver c) (pc c)
      (ordinary_closed c) (companion_closed c) (reliable_burst c) (delivered c) (panicked c)
  else
    let s := companion_state c in
    mkChannel (ordinary c) (mkState (delete k (pending s)) (ready s) (current_generations s))
      (companion_notify c) rest (senders c) (receiver c) (pc c) (ordinary_closed c) (companion_closed c)
      (reliable_burst c) (delivered c)
      (panicked c || bool_decide (pending s !! k = None)).

Definition push_ordinary (c : Channel) (e : RuntimeEvent) : Channel :=
  mkChannel (ordinary c ++ [e]) (companion_state c) (companion_notify c) (notifying c) (senders c)
    (receiver c) (pc c) (ordinary_closed c) (companion_closed c) (reliable_burst c) (delivered c)
    (panicked c).

(** [send] of an event for the ordinary lane: a companion's is dropped when its
    generation is fenced out, and an error also discards the snapshot it is
    about. *)
Definition send_ordinary (c : Channel) (e : RuntimeEvent) : Channel :=
  let push c := if receiver c then push_ordinary c e else c in
  match e with
  | CompanionEvent k g frame _ =>
      if fenced (companion_state c) k g then c
      else match frame with
           | CompanionError => push (with_state c (invalidate_companion (companion_state c) k g))
           | _ => push c
           end
  | OtherEvent _ => push c
  end.

Definition is_snapshot_frame (e : RuntimeEvent) : bool :=
  match e with
  | CompanionEvent _ _ CompanionSnapshot _ | CompanionEvent _ _ CompanionUnavailable _ => true
  | _ => false
  end.

Section channel.
Context (capacity : nat).

Definition next_channel (c : Channel) (a : ChannelAction) : option Channel :=
  match a with
  | ARegister k g => Some (with_state c (register_companion_generation (companion_state c) k g).1)
  | AUnregister k g => Some (with_state c (unregister_companion_generation (companion_state c) k g))
  | AInvalidate k g => Some (with_state c (invalidate_companion (companion_state c) k g))
  | ASendSnapshot k g unavailable payload =>
      if senders c then
        if receiver c then
          match put_companion (companion_state c) k g
                  (CompanionEvent k g (if unavailable then CompanionUnavailable else CompanionSnapshot) payload) with
          | Some (s, true) =>
              Some (waiting_to_notify c s k)
          | _ => Some c
          end
        else Some c
      else None
  | ASendNotify =>
      match notifying c with [] => None | k :: rest => Some (send_notify c k rest) end
  | ASendOrdinary e =>
      if senders c && negb (is_snapshot_frame e) && bool_decide (length (ordinary c) < capacity)
      then Some (send_ordinary c e) else None
  | ADropSenders =>
      if bool_decide (notifying c = []) then
        Some (mkChannel (ordinary c) (companion_state c) (companion_notify c) [] false (receiver c) (pc c)
                (ordinary_closed c) (companion_closed c) (reliable_burst c) (delivered c) (panicked c))
      else None
  | ADropReceiver =>
      Some (mkChannel (ordinary c) (companion_state c) (companion_notify c) (notifying c) (senders c) false
              PEnded (ordinary_closed c) (companion_closed c) (reliable_burst c) (delivered c) (panicked c))
  | AReceive => if receiver c then receive_step c else None
  end.

Definition channel_step (c c' : Channel) : Prop := ∃ a, next_channel c a = Some c'.
End channel.

Definition new_channel : Channel :=
  mkChannel [] (mkState ∅ [] ∅) false [] true true PTop false false 0 [] false.

(** ** Invariants of the map *)

Definition is_companion_of (k : Key) (g : Generation) (e : RuntimeEvent) : Prop :=
  is_snapshot_frame e = true ∧ ∃ f p, e = CompanionEvent k g f p.

(** Every waiting snapshot is its key's, is not fenced out, and has its key in
    the queue; and they are at most as many as there may be observers. *)
Record state_inv (s : CompanionEventState) : Prop := mkStateInv {
  mi_ready : ∀ k, is_Some (pending s !! k) → k ∈ ready s;
  mi_event : ∀ k e, pending s !! k = Some e →
    ∃ g cur, is_companion_of k g e ∧ current_generations s !! k = Some cur ∧ fences cur g = false;
  mi_bound : size (pending s) ≤ MAX_COMPANION_OBSERVERS
}.

Lemma fences_irrefl g : fences g g = false.
Proof. unfold fences. rewrite Z.ltb_irrefl, Z.eqb_refl. by rewrite bool_decide_true. Qed.

Lemma size_delete_le {A} (m : gmap Key A) k : size (delete k m) ≤ size m.
Proof. rewrite map_size_delete. destruct (m !! k); cbn; lia. Qed.

Lemma state_inv_discard s k : state_inv s → state_inv (discard s k).
Proof.
  intros [H1 H2 H3]. constructor; cbn.
  - intros x [e [Hx He]%lookup_delete_Some]. apply list_elem_of_filter. split; [congruence|]. by apply H1.
  - intros x e [Hx He]%lookup_delete_Some. by apply H2.
  - pose proof (size_delete_le (pending s) k). lia.
Qed.

Lemma pending_generation s k g :
  state_inv s → pending s !! k ≫= event_generation = Some g →
  ∃ e, pending s !! k = Some e ∧ is_companion_of k g e.
Proof.
  intros Hs H. destruct (pending s !! k) as [e|] eqn:He; [|done]. exists e. split; [done|].
  destruct (mi_event s Hs k e He) as (g' & _ & (Hf & f & p & ->) & _). cbn in H. simplify_eq.
  split; [done|]. by exists f, p.
Qed.

Lemma state_inv_register s k g :
  state_inv s → state_inv (register_companion_generation s k g).1.
Proof.
  intros Hs. unfold register_companion_generation. destruct (fenced s k g) eqn:Hfen; [done|].
  set (s' := mkState _ _ _).
  assert (∀ x e, pending s !! x = Some e → x ≠ k ∨ (∀ p, event_generation e = Some p → fences g p = false) →
            ∃ g0 cur, is_companion_of x g0 e ∧ current_generations s' !! x = Some cur ∧ fences cur g0 = false) as Hev.
  { intros x e He Hx. destruct (mi_event s Hs x e He) as (g0 & cur & Hc & Hcur & Hfe). exists g0.
    destruct (decide (x = k)) as [->|Hne].
    - exists g. split; [done|]. split; [cbn; by rewrite lookup_insert_eq|]. destruct Hx as [?|Hx]; [done|].
      apply Hx. by destruct Hc as (_ & f & p & ->).
    - exists cur. split; [done|]. split; [|done]. cbn. by rewrite lookup_insert_ne. }
  destruct Hs as [H1 H2 H3].
  assert (∀ q, pending s !! k ≫= event_generation = q →
            (∀ p, q = Some p → fences g p = false) → state_inv s') as Hkeep.
  { intros q Hq Hp. constructor; cbn; try done. intros x e He. apply Hev; [done|].
    destruct (decide (x = k)) as [->|]; [right|by left]. intros p Hep. apply Hp. rewrite <- Hq, He. done. }
  destruct (pending s !! k ≫= event_generation) as [p|] eqn:Hp; [|by apply (Hkeep None)].
  destruct (fences g p) eqn:Hgp; [|apply (Hkeep (Some p)); [done|by intros ? [= <-]]].
  cbn [fst]. unfold discard. constructor; cbn.
  - intros x [e [Hx He]%lookup_delete_Some]. apply list_elem_of_filter. split; [congruence|]. by apply H1.
  - intros x e [Hx He]%lookup_delete_Some. apply Hev; [done|left; congruence].
  - pose proof (size_delete_le (pending s) k). lia.
Qed.

Lemma state_inv_unregister s k g : state_inv s → state_inv (unregister_companion_generation s k g).
Proof.
  intros [H1 H2 H3]. unfold unregister_companion_generation. case_bool_decide; [|done].
  unfold discard. constructor; cbn.
  - intros x [e [Hx He]%lookup_delete_Some]. apply list_elem_of_filter. split; [congruence|]. by apply H1.
  - intros x e [Hx He]%lookup_delete_Some. destruct (H2 x e He) as (g0 & cur & ? & ? & ?).
    exists g0, cur. by rewrite lookup_delete_ne.
  - pose proof (size_delete_le (pending s) k). lia.
Qed.

Lemma state_inv_put s k g e s' :
  state_inv s → is_companion_of k g e → put_companion s k g e = Some (s', true) → state_inv s'.
Proof.
  intros [H1 H2 H3] He. unfold put_companion. destruct (fenced s k g) eqn:Hfen; [done|].
  case_bool_decide as Hw; cbn [negb andb]; [|case_bool_decide as Hsz; [done|]]; intros [= <-];
    constructor; cbn.
  - intros x [y [[<- _]|[_ Hy]]%lookup_insert_Some]; by apply H1.
  - intros x y [[<- <-]|[Hne Hy]]%lookup_insert_Some.
    + destruct Hw as [e0 He0]. destruct (H2 k e0 He0) as (_ & cur & _ & Hcur & _). exists g, cur.
      rewrite Hcur. split; [done|]. split; [done|]. unfold fenced in Hfen. by rewrite Hcur in Hfen.
    + destruct (H2 x y Hy) as (g0 & cur & ? & Hcur & ?). exists g0, cur. split; [done|]. split; [|done].
      destruct (current_generations s !! k); [done|]. by rewrite lookup_insert_ne.
  - by rewrite map_size_insert_Some.
  - intros x [y [[<- _]|[_ Hy]]%lookup_insert_Some]; apply elem_of_app; [right; set_solver|left; by apply H1].
  - intros x y [[<- <-]|[Hne Hy]]%lookup_insert_Some.
    + unfold fenced in Hfen. destruct (current_generations s !! k) as [cur|] eqn:Hcur.
      * exists g, cur. by rewrite Hcur.
      * exists g, g. rewrite lookup_insert_eq. split; [done|]. split; [done|apply fences_irrefl].
    + destruct (H2 x y Hy) as (g0 & cur & ? & Hcur & ?). exists g0, cur. split; [done|]. split; [|done].
      destruct (current_generations s !! k); [done|]. by rewrite lookup_insert_ne.
  - apply eq_None_not_Some in Hw. rewrite map_size_insert_None by done. lia.
Qed.

Lemma take_from_spec p keys :
  (∀ k, is_Some (p !! k) → k ∈ keys) →
  match take_from p keys with
  | (None, p', keys') => p = ∅ ∧ p' = ∅ ∧ keys' = []
  | (Some e, p', keys') =>
      ∃ k, p !! k = Some e ∧ p' = delete k p ∧ ∀ x, is_Some (p' !! x) → x ∈ keys'
  end.
Proof.
  induction keys as [|k keys IH]; intros H; cbn [take_from].
  - assert (p = ∅) as ->; [|done]. apply map_empty. intros x. apply eq_None_not_Some. intros Hx%H.
    by apply not_elem_of_nil in Hx.
  - destruct (p !! k) as [e|] eqn:He.
    + exists k. split_and!; [done|done|]. intros x [y [Hx Hy]%lookup_delete_Some].
      assert (x ∈ k :: keys) as Hin by (apply H; by exists y).
      apply elem_of_cons in Hin as [?|?]; [congruence|done].
    + apply IH. intros x Hx. pose proof (H x Hx) as Hin. apply elem_of_cons in Hin as [->|?]; [|done].
      rewrite He in Hx. by destruct Hx.
Qed.

(** Either nothing waits, or a snapshot is taken that is not fenced out. *)
Lemma take_companion_spec s :
  state_inv s →
  match take_companion s with
  | (None, s') => pending s = ∅ ∧ pending s' = ∅ ∧ state_inv s'
  | (Some e, s') => ∃ k g, is_companion_of k g e ∧ pending s !! k = Some e ∧ fenced s k g = false
                      ∧ pending s' = delete k (pending s) ∧ state_inv s'
  end.
Proof.
  intros Hs. pose proof Hs as [H1 H2 H3]. unfold take_companion.
  pose proof (take_from_spec (pending s) (ready s) H1) as Ht.
  destruct (take_from (pending s) (ready s)) as [[[e|] p] r].
  - destruct Ht as (k & He & -> & Hr). destruct (H2 k e He) as (g & cur & Hc & Hcur & Hf).
    exists k, g. split_and!; try done; [by unfold fenced; rewrite Hcur|].
    constructor; cbn; [done| |pose proof (size_delete_le (pending s) k); lia].
    intros x y [_ Hy]%lookup_delete_Some. by apply H2.
  - destruct Ht as (Hp & -> & ->). split_and!; [done|done|]. constructor; cbn.
    + intros x [y Hy]. by rewrite lookup_empty in Hy.
    + intros x y Hy. by rewrite lookup_empty in Hy.
    + rewrite map_size_empty. lia.
Qed.

(** ** Invariants of the channel *)

Definition will_notify (c : Channel) : Prop :=
  pending (companion_state c) = ∅ ∨ companion_notify c = true ∨ notifying c ≠ [].

Record channel_inv (c : Channel) : Prop := mkChannelInv {
  ci_state : state_inv (companion_state c);
  ci_ordinary : Forall (λ e, is_snapshot_frame e = false) (ordinary c);
  ci_wake : receiver c = true → pc c = PTry ∨ pc c = PPark ∨ pc c = PEnded → will_notify c;
  ci_ended : receiver c = true → pc c = PEnded → companion_closed c = true;
  ci_ordinary_closed : ordinary_closed c = true → senders c = false ∧ ordinary c = [];
  ci_companion_closed : companion_closed c = true →
    senders c = false ∧ companion_notify c = false;
  ci_notifying : senders c = false → notifying c = []
}.

Lemma will_notify_discard c s :
  (∀ k, is_Some (pending s !! k) → is_Some (pending (companion_state c) !! k)) →
  will_notify c → will_notify (with_state c s).
Proof.
  intros Hs [He|Hn]; [left|by right]. cbn. apply map_empty. intros k. apply eq_None_not_Some.
  intros Hk%Hs. rewrite He in Hk. by destruct Hk.
Qed.

Lemma channel_inv_state c s :
  channel_inv c → state_inv s →
  (∀ k, is_Some (pending s !! k) → is_Some (pending (companion_state c) !! k)) →
  channel_inv (with_state c s).
Proof.
  intros [H1 H2 H3 H4 H5 H6 H7] Hs Hsub. constructor; cbn; try done.
  intros Hr Hpc. apply will_notify_discard; auto.
Qed.

Lemma discard_subset s k x : is_Some (pending (discard s k) !! x) → is_Some (pending s !! x).
Proof. cbn. intros [e [_ He]%lookup_delete_Some]. by exists e. Qed.

Lemma channel_inv_pc c p :
  channel_inv c → p = PTop ∨ p = PTake ∨ (pending (companion_state c) = ∅ ∧ p = PTry) →
  channel_inv (at_pc c p).
Proof.
  intros [H1 H2 H3 H4 H5 H6 H7] Hp. constructor; cbn; try done.
  - intros Hr Hpc. destruct Hp as [->|[->|[He ->]]]; [by destruct Hpc as [|[]]..|by left].
  - intros Hr ->. by destruct Hp as [|[|[]]].
Qed.

Lemma channel_inv_close_ordinary c p :
  channel_inv c → ordinary c = [] → senders c = false → p = PTop ∨ p = PTake ∨ p = pc c →
  channel_inv (close_ordinary c p).
Proof.
  intros [H1 H2 H3 H4 H5 H6 H7] Ho Hs Hp. constructor; cbn; try done.
  - intros Hr Hpc. change (will_notify c). destruct Hp as [->|[->| ->]]; [by destruct Hpc as [|[]]..|auto].
  - intros Hr ->. destruct Hp as [|[|Hp]]; try done. auto.
Qed.

Lemma channel_inv_return_ordinary c e rest :
  channel_inv c → ordinary c = e :: rest → channel_inv (return_ordinary c e rest).
Proof.
  intros [H1 H2 H3 H4 H5 H6 H7] Ho. rewrite Ho in *. constructor; cbn; try done.
  - by apply Forall_cons in H2 as [_ ?].
  - by intros _ [|[]].
  - intros Hc. by destruct (H5 Hc).
Qed.

Lemma channel_inv_try c p :
  channel_inv c → p = PTop ∨ p = PTake → channel_inv (try_ordinary c p).
Proof.
  intros Hi Hp. unfold try_ordinary. destruct (ordinary c) as [|e rest] eqn:Ho.
  - destruct (senders c) eqn:Hs; [apply channel_inv_pc; [done|tauto]|].
    apply channel_inv_close_ordinary; [done..|tauto].
  - by apply channel_inv_return_ordinary.
Qed.

Lemma channel_inv_park c : channel_inv c → pc c = PTry → channel_inv (park_or_end c).
Proof.
  intros [H1 H2 H3 H4 H5 H6 H7] Hpc. unfold park_or_end.
  assert (receiver c = true → will_notify c) as Hw by auto.
  destruct (ordinary_closed c && companion_closed c) eqn:Hc; constructor; cbn; try done;
    try (intros Hr _; exact (Hw Hr)).
  intros _ _. by apply andb_true_iff in Hc as [_ ?].
Qed.

Lemma channel_inv_unpark c c' :
  channel_inv c →
  (if negb (ordinary_closed c) && bool_decide (ordinary c ≠ []) then Some (try_ordinary c PTop)
   else if negb (ordinary_closed c) && negb (senders c) then Some (close_ordinary c PTop)
   else if negb (companion_closed c) && companion_notify c then
     Some (mkChannel (ordinary c) (companion_state c) false (notifying c) (senders c) (receiver c) PTop
             (ordinary_closed c) (companion_closed c) (reliable_burst c) (delivered c) (panicked c))
   else if negb (companion_closed c) && negb (senders c) then
     Some (mkChannel (ordinary c) (companion_state c) (companion_notify c) (notifying c) (senders c)
             (receiver c) PTop (ordinary_closed c) true (reliable_burst c) (delivered c) (panicked c))
   else None) = Some c' → channel_inv c'.
Proof.
  intros Hi. destruct (negb (ordinary_closed c) && bool_decide (ordinary c ≠ [])) eqn:Ho;
    [intros [= <-]; apply channel_inv_try; auto|].
  destruct (negb (ordinary_closed c) && negb (senders c)) eqn:Hs.
  { intros [= <-]. apply andb_true_iff in Hs as [Hoc Hs%negb_true_iff]. rewrite Hoc in Ho. cbn in Ho.
    apply bool_decide_eq_false in Ho. apply channel_inv_close_ordinary; [done| |done|auto].
    by destruct (ordinary c); [|destruct Ho]. }
  pose proof Hi as [H1 H2 H3 H4 H5 H6 H7].
  destruct (negb (companion_closed c) && companion_notify c) eqn:Hn.
  { intros [= <-]. constructor; cbn; try done; [by intros _ [|[]]|]. intros Hc. split; [by apply H6|done]. }
  destruct (negb (companion_closed c) && negb (senders c)) eqn:Hd; [|done].
  intros [= <-]. apply andb_true_iff in Hd as [Hcc Hs'%negb_true_iff]. rewrite Hcc in Hn. cbn in Hn.
  constructor; cbn; try done. by intros _ [|[]].
Qed.

Lemma channel_inv_receive c c' : channel_inv c → receive_step c = Some c' → channel_inv c'.
Proof.
  intros Hi. unfold receive_step. destruct (pc c) eqn:Hpc.
  - intros [= <-]. destruct (_ && _); [apply channel_inv_try; auto|apply channel_inv_pc; auto].
  - pose proof (take_companion_spec (companion_state c) (ci_state c Hi)) as Ht.
    destruct (take_companion (companion_state c)) as [[e|] s]; intros [= <-].
    + destruct Ht as (k & g & _ & _ & _ & Hp & Hs). destruct Hi as [H1 H2 H3 H4 H5 H6 H7].
      constructor; cbn; try done. by intros _ [|[]].
    + destruct Ht as (He & Hp & Hs). apply channel_inv_pc; [|right; right; done].
      apply channel_inv_state; [done|done|]. intros x Hx. rewrite Hp in Hx. by destruct Hx.
  - intros [= <-]. destruct (negb (ordinary_closed c)); [|by apply channel_inv_park].
    destruct (ordinary c) as [|e rest] eqn:Ho; [|by apply channel_inv_return_ordinary].
    destruct (senders c) eqn:Hs; [by apply channel_inv_park|].
    apply channel_inv_park; [|done]. apply channel_inv_close_ordinary; auto.
  - by apply channel_inv_unpark.
  - done.
Qed.

Lemma channel_inv_push c e :
  channel_inv c → is_snapshot_frame e = false → senders c = true →
  channel_inv (push_ordinary c e).
Proof.
  intros [H1 H2 H3 H4 H5 H6 H7] He Hs. constructor; cbn; try done.
  - apply Forall_app. split; [done|]. by repeat constructor.
  - intros Hc. destruct (H5 Hc). congruence.
Qed.

Lemma channel_inv_invalidate c k g :
  channel_inv c → channel_inv (with_state c (invalidate_companion (companion_state c) k g)).
Proof.
  intros Hi. apply channel_inv_state; [done| |]; unfold invalidate_companion; case_bool_decide; try done.
  - by apply state_inv_discard, Hi.
  - by apply Hi.
  - intros x. apply discard_subset.
Qed.

Lemma channel_inv_send_ordinary c e :
  channel_inv c → is_snapshot_frame e = false → senders c = true → channel_inv (send_ordinary c e).
Proof.
  intros Hi He Hs. unfold send_ordinary. destruct e as [p|k g f p].
  - destruct (receiver c); [by apply channel_inv_push|done].
  - destruct (fenced _ _ _); [done|].
    destruct f; try (destruct (receiver c); [by apply channel_inv_push|done]).
    pose proof (channel_inv_invalidate c k g Hi) as Hd. cbn.
    destruct (receiver c); [by apply channel_inv_push|done].
Qed.

Lemma channel_inv_notify c k rest :
  channel_inv c → notifying c = k :: rest → channel_inv (send_notify c k rest).
Proof.
  intros [H1 H2 H3 H4 H5 H6 H7] Hn. unfold send_notify.
  assert (senders c = true) as Hs.
  { destruct (senders c); [done|]. rewrite H7 in Hn by done. done. }
  destruct (receiver c) eqn:Hr; constructor; cbn; try done; try congruence.
  - intros _ _. right. by left.
  - intros Hc. destruct (H6 Hc). congruence.
  - destruct H1 as [M1 M2 M3]. constructor; cbn.
    + intros x [e [_ He]%lookup_delete_Some]. by apply M1.
    + intros x e [_ He]%lookup_delete_Some. by apply M2.
    + pose proof (size_delete_le (pending (companion_state c)) k). lia.
Qed.

Lemma channel_inv_snapshot c k g u p s :
  channel_inv c → senders c = true →
  put_companion (companion_state c) k g
    (CompanionEvent k g (if u : bool then CompanionUnavailable else CompanionSnapshot) p) = Some (s, true) →
  channel_inv (waiting_to_notify c s k).
Proof.
  intros [H1 H2 H3 H4 H5 H6 H7] Hs Hp. constructor; cbn; try done.
  - eapply state_inv_put; [done| |done]. split; [by destruct u|by eexists _, _].
  - intros _ _. right. right. cbn. by destruct (notifying c).
  - congruence.
Qed.

Lemma channel_inv_step capacity c a c' :
  next_channel capacity c a = Some c' → channel_inv c → channel_inv c'.
Proof.
  intros H Hi. destruct a as [k g|k g|k g|k g u p| |e| | |]; cbn [next_channel] in H.
  - simplify_eq. apply channel_inv_state; [done|by apply state_inv_register, Hi|].
    intros x. unfold register_companion_generation. destruct (fenced _ _ _); [done|].
    destruct (_ ≫= _) as [q|]; [|done]. destruct (fences g q); [|done]. cbn [fst].
    intros Hx%discard_subset. done.
  - simplify_eq. apply channel_inv_state; [done|by apply state_inv_unregister, Hi|].
    intros x. unfold unregister_companion_generation. case_bool_decide; [|done].
    intros Hx%discard_subset. done.
  - simplify_eq. by apply channel_inv_invalidate.
  - destruct (senders c) eqn:Hs; [|done]. destruct (receiver c) eqn:Hr; [|by simplify_eq].
    destruct (put_companion _ _ _ _) as [[s []]|] eqn:Hp; simplify_eq; try done.
    by eapply channel_inv_snapshot.
  - destruct (notifying c) as [|k rest] eqn:Hn; simplify_eq. by apply channel_inv_notify.
  - destruct (senders c) eqn:Hs; [|done]. destruct (is_snapshot_frame e) eqn:He; [done|].
    cbn in H. case_bool_decide; simplify_eq. by apply channel_inv_send_ordinary.
  - case_bool_decide as Hn; simplify_eq. destruct Hi as [H1 H2 H3 H4 H5 H6 H7].
    constructor; cbn; try done.
    + intros Hr Hpc. destruct (H3 Hr Hpc) as [|[|?]]; [by left|right; by left|done].
    + intros Hc. split; [done|]. by apply H5.
    + intros Hc. split; [done|]. by apply H6.
  - simplify_eq. destruct Hi. by constructor.
  - destruct (receiver c); [|done]. by eapply channel_inv_receive.
Qed.

Lemma channel_inv_reachable capacity c :
  reachable (channel_step capacity) new_channel c → channel_inv c.
Proof.
  apply reachable_invariant.
  - constructor; cbn; try done; [|by intros _ [|[]]]. constructor; cbn.
    + intros k [e He]. by rewrite lookup_empty in He.
    + intros k e He. by rewrite lookup_empty in He.
    + rewrite map_size_empty. lia.
  - intros c0 c1 Hi [a Ha]. by eapply channel_inv_step.
Qed.

(** A waiting snapshot is never stranded, stale or one too many. In every
    reachable state at most as many snapshots wait as there may be observers,
    each of the generation its observer has registered or a later one; and
    while any waits and the receiver exists, the receiver has a step to take
    or a sender is about to wake it. *)
Theorem waiting_snapshot_is_current_and_awaited capacity c :
  reachable (channel_step capacity) new_channel c →
  size (pending (companion_state c)) ≤ MAX_COMPANION_OBSERVERS
  ∧ (∀ k e, pending (companion_state c) !! k = Some e →
       ∃ g, is_companion_of k g e ∧ fenced (companion_state c) k g = false)
  ∧ (receiver c = true → pending (companion_state c) ≠ ∅ →
       is_Some (next_channel capacity c AReceive) ∨ notifying c ≠ []).
Proof.
  intros Hr. pose proof (channel_inv_reachable _ _ Hr) as [[M1 M2 M3] H2 H3 H4 H5 H6 H7]. split_and!; [done| |].
  - intros k e He. destruct (M2 k e He) as (g & cur & Hc & Hcur & Hf). exists g. split; [done|].
    unfold fenced. by rewrite Hcur.
  - intros Hrec Hp. cbn [next_channel]. rewrite Hrec.
    destruct (decide (notifying c = [])) as [Hn|]; [left|by right].
    destruct (pc c) eqn:Hpc; unfold receive_step; rewrite Hpc.
    + done.
    + by destruct (take_companion _) as [[|] ?].
    + done.
    + destruct (H3 Hrec) as [|[Hw|]]; [auto|done| |done].
      destruct (negb (ordinary_closed c) && bool_decide _); [done|].
      destruct (negb (ordinary_closed c) && negb _); [done|].
      destruct (companion_closed c) eqn:Hcc; [destruct (H6 eq_refl); congruence|]. by rewrite Hw.
    + destruct (H3 Hrec) as [|[Hw|]]; [auto|done| |done].
      destruct (H6 (H4 Hrec eq_refl)). congruence.
Qed.

(** ** Fairness *)

Lemma other_step capacity c a c' :
  next_channel capacity c a = Some c' → a ≠ AReceive →
  delivered c' = delivered c ∧ reliable_burst c' = reliable_burst c ∧ (receiver c' = true → pc c' = pc c).
Proof.
  intros H Ha. destruct a as [k g|k g|k g|k g u p| |e| | |]; cbn [next_channel] in H; try done; simplify_eq; try done.
  - destruct (senders c); [|done]. destruct (receiver c); [|by simplify_eq].
    destruct (put_companion _ _ _ _) as [[s []]|]; by simplify_eq.
  - destruct (notifying c); simplify_eq. unfold send_notify. by destruct (receiver c).
  - destruct (_ && _); simplify_eq. unfold send_ordinary.
    destruct e as [p|k g f p]; [by destruct (receiver c)|]. destruct (fenced _ _ _); [done|].
    cbn. destruct f; by destruct (receiver c).
  - case_bool_decide; by simplify_eq.
Qed.

(** What a step of the receiver delivers. *)
Lemma receive_delivers c c' :
  channel_inv c → receive_step c = Some c' →
  (delivered c' = delivered c ∧ reliable_burst c' = reliable_burst c
     ∧ (pc c = PTop → pc c' = PTake ∧ (ordinary c ≠ [] → MAX_RELIABLE_EVENTS_BEFORE_COMPANION ≤ reliable_burst c))
     ∧ (pc c = PTake → pending (companion_state c) = ∅))
  ∨ (∃ e, delivered c' = delivered c ++ [e] ∧ is_snapshot_frame e = false
       ∧ reliable_burst c' = S (reliable_burst c) ∧ pc c' = PTop ∧ pc c ≠ PTake
       ∧ (pc c = PTop → reliable_burst c < MAX_RELIABLE_EVENTS_BEFORE_COMPANION))
  ∨ (∃ e, delivered c' = delivered c ++ [e] ∧ is_snapshot_frame e = true
       ∧ reliable_burst c' = 0 ∧ pc c' = PTop ∧ pc c = PTake).
Proof.
  intros Hi H.
  assert (∀ e rest, ordinary c = e :: rest → is_snapshot_frame e = false) as Hord.
  { intros e rest Ho. pose proof (ci_ordinary c Hi) as Hf. rewrite Ho in Hf. by apply Forall_cons in Hf as [? _]. }
  unfold receive_step in H. destruct (pc c) eqn:Hpc.
  - injection H as <-. destruct (negb (ordinary_closed c) && _) eqn:Hb.
    + apply andb_true_iff in Hb as [_ Hb%bool_decide_eq_true]. unfold try_ordinary.
      destruct (ordinary c) as [|e rest] eqn:Ho; [left; destruct (senders c); split_and!; done|].
      right. left. exists e. cbn. split_and!; eauto.
    + left. split_and!; try done. intros _. split; [done|]. intros Hne.
      apply andb_false_iff in Hb as [Hb%negb_false_iff|Hb%bool_decide_eq_false]; [|lia].
      by destruct (ci_ordinary_closed c Hi Hb).
  - pose proof (take_companion_spec _ (ci_state c Hi)) as Ht.
    destruct (take_companion (companion_state c)) as [[e|] s]; injection H as <-.
    + destruct Ht as (k & g & [He _] & _). right. right. exists e. done.
    + destruct Ht as (He & _). left. done.
  - injection H as <-. destruct (negb (ordinary_closed c)); [destruct (ordinary c) as [|e rest] eqn:Ho|].
    + left. unfold park_or_end. destruct (senders c); destruct (_ && _); done.
    + right. left. exists e. cbn. split_and!; eauto; done.
    + left. unfold park_or_end. destruct (_ && _); done.
  - destruct (negb (ordinary_closed c) && bool_decide (ordinary c ≠ [])).
    { injection H as <-. unfold try_ordinary. destruct (ordinary c) as [|e rest] eqn:Ho; [left; by destruct (senders c)|].
      right. left. exists e. cbn. split_and!; eauto; done. }
    left. destruct (negb (ordinary_closed c) && negb _); [by simplify_eq|].
    destruct (negb (companion_closed c) && _); [by simplify_eq|].
    destruct (negb (companion_closed c) && _); by simplify_eq.
  - done.
Qed.

(** A run in which the receiver exists and [P] holds before every step. *)
Definition while (capacity : nat) (P : Channel → Prop) (c c' : Channel) : Prop :=
  channel_step capacity c c' ∧ receiver c = true ∧ P c.

Lemma while_inv capacity P c c' :
  channel_inv c → reachable (while capacity P) c c' → channel_inv c'.
Proof.
  intros Hi. apply (reachable_invariant (while capacity P) channel_inv); [done|].
  intros x y Hx [[a Ha] _]. by eapply channel_inv_step.
Qed.

Definition alternating (l : list RuntimeEvent) : Prop :=
  ∀ pre a b post, l = pre ++ a :: b :: post → ¬ (is_snapshot_frame a = true ∧ is_snapshot_frame b = true).

Lemma alternating_snoc l e :
  alternating l → (∀ a, last l = Some a → ¬ (is_snapshot_frame a = true ∧ is_snapshot_frame e = true)) →
  alternating (l ++ [e]).
Proof.
  intros Hl Hlast pre a b post. destruct post as [|x post _] using rev_ind; intros H.
  - change [a; b] with ([a] ++ [b]) in H. rewrite app_assoc in H. apply app_inj_tail in H as [-> ->].
    apply Hlast. by rewrite last_snoc.
  - rewrite !app_comm_cons, app_assoc in H. apply app_inj_tail in H as [-> _]. by eapply Hl.
Qed.

Lemma snapshots_get_their_turn capacity c c' :
  channel_inv c → pc c = PTop →
  reachable (while capacity (λ x, pending (companion_state x) ≠ ∅)) c c' →
  ∃ new, delivered c' = delivered c ++ new
    ∧ (Forall (λ e, is_snapshot_frame e = false) new →
       reliable_burst c' = reliable_burst c + length new
       ∧ (new = [] ∨ reliable_burst c' ≤ MAX_RELIABLE_EVENTS_BEFORE_COMPANION)
       ∧ (receiver c' = true → pc c' = PTop ∨ pc c' = PTake)).
Proof.
  intros Hi Hpc Hr. induction Hr as [|x y Hr (new & Hd & Hnew) [[a Ha] [Hrec Hp]]].
  - exists []. rewrite app_nil_r. split; [done|]. intros _. split_and!; [cbn; lia|by left|by left].
  - pose proof (while_inv _ _ _ _ Hi Hr) as Hx.
    assert (a = AReceive ∨ a ≠ AReceive) as [->|Hne] by (destruct a; auto; by right).
    2: { destruct (other_step _ _ _ _ Ha Hne) as (-> & Hb & Hp'). exists new. split; [done|].
         intros Hall. destruct (Hnew Hall) as (? & ? & Hpcs). rewrite Hb. split_and!; try done.
         intros Hy. rewrite Hp' by done. auto. }
    cbn in Ha. rewrite Hrec in Ha.
    destruct (receive_delivers x y Hx Ha) as [(-> & Hb & Htop & Htake)|[(e & -> & He & Hb & Hpy & Hpx & Hlt)|(e & -> & He & _)]].
    + exists new. split; [done|]. intros Hall. destruct (Hnew Hall) as (? & ? & Hpcs). rewrite Hb. split_and!; try done.
      intros _. destruct (Hpcs Hrec) as [Hx'|Hx']; [right; by apply Htop|by destruct Hp; auto].
    + exists (new ++ [e]). rewrite Hd, app_assoc. split; [done|]. intros [Hall _]%Forall_app.
      destruct (Hnew Hall) as (Hbx & _ & Hpcs). destruct (Hpcs Hrec) as [Hx'|Hx']; [|done].
      rewrite length_app. cbn. specialize (Hlt Hx'). split_and!; [lia|right; lia|by left].
    + exists (new ++ [e]). rewrite Hd, app_assoc. split; [done|]. intros [_ Hf]%Forall_app.
      rewrite Forall_singleton, He in Hf. done.
Qed.

Lemma ordinary_events_get_their_turn capacity c c' :
  channel_inv c → reachable (while capacity (λ x, ordinary x ≠ [])) c c' →
  ∃ new, delivered c' = delivered c ++ new ∧ alternating new
    ∧ ∀ e, last new = Some e → is_snapshot_frame e = true → receiver c' = true →
        pc c' = PTop ∧ reliable_burst c' = 0.
Proof.
  intros Hi Hr. induction Hr as [|x y Hr (new & Hd & Halt & Hlast) [[a Ha] [Hrec Ho]]].
  - exists []. rewrite app_nil_r. split_and!; [done| |done]. intros pre ? ? ?. by destruct pre.
  - pose proof (while_inv _ _ _ _ Hi Hr) as Hx.
    assert (a = AReceive ∨ a ≠ AReceive) as [->|Hne] by (destruct a; auto; by right).
    2: { destruct (other_step _ _ _ _ Ha Hne) as (-> & Hb & Hp'). exists new. split_and!; [done|done|].
         intros e He Hs Hy. destruct (Hlast e He Hs Hrec) as [? ?]. rewrite Hb, Hp' by done. done. }
    cbn in Ha. rewrite Hrec in Ha.
    destruct (receive_delivers x y Hx Ha) as [(-> & Hb & Htop & _)|[(e & -> & He & _)|(e & -> & He & Hb & Hpy & Hpx)]].
    + exists new. split_and!; [done|done|]. intros e He Hs _. destruct (Hlast e He Hs Hrec) as [Hpc Hz].
      destruct (Htop Hpc) as [_ Hle]. specialize (Hle Ho). rewrite Hz in Hle. cbv in Hle. lia.
    + exists (new ++ [e]). rewrite Hd, app_assoc. split_and!; [done| |].
      * apply alternating_snoc; [done|]. intros ? _ [_ ?]. congruence.
      * intros e'. rewrite last_snoc. intros [= <-] ?. congruence.
    + exists (new ++ [e]). rewrite Hd, app_assoc. split_and!; [done| |].
      * apply alternating_snoc; [done|]. intros b Hb' [Hs _]. destruct (Hlast b Hb' Hs Hrec). congruence.
      * intros e'. rewrite last_snoc. intros [= <-] _ _. done.
Qed.

(** C29: Neither lane starves the other. While snapshots keep waiting, the
    receiver, called again and again, returns at most the reliable burst of
    ordinary events before it returns a snapshot; and while ordinary events
    keep waiting, it never returns two snapshots in a row. *)
Theorem lanes_share_the_receiver capacity c c' :
  reachable (channel_step capacity) new_channel c →
  (pc c = PTop → reachable (while capacity (λ x, pending (companion_state x) ≠ ∅)) c c' →
     ∃ new, delivered c' = delivered c ++ new
       ∧ (Forall (λ e, is_snapshot_frame e = false) new →
          length new ≤ MAX_RELIABLE_EVENTS_BEFORE_COMPANION - reliable_burst c))
  ∧ (reachable (while capacity (λ x, ordinary x ≠ [])) c c' →
     ∃ new, delivered c' = delivered c ++ new ∧ alternating new).
Proof.
  intros Hr. pose proof (channel_inv_reachable _ _ Hr) as Hi. split.
  - intros Hpc Hrun. destruct (snapshots_get_their_turn _ _ _ Hi Hpc Hrun) as (new & Hd & Hnew).
    exists new. split; [done|]. intros Hall. destruct (Hnew Hall) as (Hb & [->|Hle] & _); [cbn [length]; lia|lia].
  - intros Hrun. destruct (ordinary_events_get_their_turn _ _ _ Hi Hrun) as (new & Hd & Halt & _).
    by exists new.
Qed.

(** ** Concrete runs *)

Definition some_key : Key := (lit "peer", lit "task").
Definition observer : Generation := (1%Z, lit "g1").

(** A registered companion's snapshot waits behind two ordinary events. *)
Definition mixed_run : list ChannelAction :=
  [ARegister some_key observer; ASendOrdinary (OtherEvent (lit "a")); ASendOrdinary (OtherEvent (lit "b"));
   ASendSnapshot some_key observer false (lit "s"); ASendNotify].

Definition mixed : Channel := default new_channel (exec (next_channel 8) new_channel mixed_run).

Lemma mixed_reachable : reachable (channel_step 8) new_channel mixed.
Proof. eapply (exec_reachable _ _ _ mixed_run); [constructor|]. by vm_compute. Qed.

Lemma waiting_snapshot_is_current_and_awaited_witness :
  size (pending (companion_state mixed)) = 1 ∧ size (pending (companion_state mixed)) ≤ MAX_COMPANION_OBSERVERS
  ∧ (is_Some (next_channel 8 mixed AReceive) ∨ notifying mixed ≠ []).
Proof.
  destruct (waiting_snapshot_is_current_and_awaited 8 mixed mixed_reachable) as (H1 & _ & H3).
  split_and!; [by vm_compute|done|]. apply H3; [by vm_compute|].
  intros He. apply (f_equal (λ m, size m)) in He. by vm_compute in He.
Defined.

Lemma lanes_share_the_receiver_witness :
  ∃ c', reachable (while 8 (λ x, pending (companion_state x) ≠ ∅)) mixed c' ∧ length (delivered c') = 2
    ∧ ∃ new, delivered c' = delivered mixed ++ new
        ∧ (Forall (λ e, is_snapshot_frame e = false) new → length new ≤ 32).
Proof.
  destruct (exec (next_channel 8) mixed [AReceive; AReceive]) as [c'|] eqn:Hc; [|by vm_compute in Hc].
  assert (reachable (while 8 (λ x, pending (companion_state x) ≠ ∅)) mixed c') as Hr.
  { cbn [exec] in Hc. destruct (next_channel 8 mixed AReceive) as [c1|] eqn:H1; [|by vm_compute in H1].
    cbn [mbind option_bind] in Hc.
    destruct (next_channel 8 c1 AReceive) as [c2|] eqn:H2; [|done]. injection Hc as <-.
    assert (pending (companion_state mixed) ≠ ∅ ∧ pending (companion_state c1) ≠ ∅ ∧ receiver c1 = true) as (Hp0 & Hp1 & Hr1).
    { vm_compute in H1. injection H1 as <-.
      split_and!; [intros He; apply (f_equal (λ m, size m)) in He; by vm_compute in He..|by vm_compute]. }
    eapply reachable_step; [eapply reachable_step; [constructor|]|].
    - split; [by exists AReceive|]. split; [by vm_compute|exact Hp0].
    - split; [by exists AReceive|]. by split. }
  exists c'. split; [exact Hr|]. split; [vm_compute in Hc; by injection Hc as <-|].
  destruct (lanes_share_the_receiver 8 mixed c' mixed_reachable) as [H _].
  destruct (H eq_refl Hr) as (new & Hd & Hn). exists new. split; [exact Hd|]. exact Hn.
Defined.

(** A sender whose snapshot is taken by the receiver that is then dropped finds
    the channel closed and its event gone, and panics. *)
Theorem dropped_receiver_panics_a_sender :
  ∃ c, exec (next_channel 8) new_channel
         [ASendSnapshot some_key observer false (lit "s"); AReceive; AReceive; ADropReceiver; ASendNotify] = Some c
    ∧ panicked c = true.
Proof. eexists. split; [by vm_compute|done]. Qed.
