(* ===== verification/PeerReplay.v ===== *)
(** * Each peer request once ([authenticate_peer_request] of
    [crates/task-transfer/src/runtime/listener.rs], the replay records of
    [replay_store.rs])

    A peer's request is sealed; after it is opened its payload must name the
    action, the request and the owner's epoch, and be fresh; its key is then
    recorded until the window ends, on disk too for requests with lasting
    effects.  Finding and trusting the peer and opening the seal are
    cryptography and discovery: the definitions start from the opened payload.
    Records on disk are keyed by the replay key, the SHA-256 of which is the
    file name.  The records in memory are behind a mutex.  The clock is read and
    the payload checked before the mutex is awaited, so a request waits with the
    time it read; saving and removing files run on other threads, each a step of
    its own. *)

From S2P Require Import Prelude RustStd.
Local Open Scope Z_scope.

(** What the listener reads of the opened JSON payload. *)
Record Payload := mkPayload {
  action : option str;
  request_id : option str;
  owner_epoch : option nat;
  issued_at_unix_ms : option Z
}.

Inductive PeerError :=
  | ActionMismatch
  | RequestIdMismatch
  | StaleEpoch
  | MissingIssuedAt
  | StaleRequest
  | IssuedInFuture
  | Replayed
  | ReplayWindowFull
  | NotPersisted.

Definition saturating_sub (a b : Z) : Z := Z.max 0 (a - b).

(** The checks of the payload, in order, up to its time of issue. *)
Definition check_payload (epoch : nat) (freshness_ms now_ms : Z) (expected_action expected_request_id : str)
    (p : Payload) : result Z PeerError :=
  if negb (bool_decide (action p = Some expected_action)) then Err ActionMismatch
  else if negb (bool_decide (request_id p = Some expected_request_id)) then Err RequestIdMismatch
  else if negb (bool_decide (owner_epoch p = Some epoch)) then Err StaleEpoch
  else
    match issued_at_unix_ms p with
    | None => Err MissingIssuedAt
    | Some issued =>
        if freshness_ms <? saturating_sub now_ms issued then Err StaleRequest
        else if freshness_ms <? saturating_sub issued now_ms then Err IssuedInFuture
        else Ok issued
    end.

Definition replay_key (peer action request : str) : str := peer ++ [10] ++ action ++ [10] ++ request.

Definition expires_at (freshness_ms now_ms issued : Z) : Z :=
  u64_saturating_add (Z.max now_ms issued) freshness_ms.

Definition durable_action (action : str) : bool :=
  bool_decide (action ∈ [lit "close_task"; lit "advance_task_stage"; lit "prepare_transfer";
                         lit "finalize_transfer"; lit "request_task_pull"]).

(** [AuthenticatedPeerRequestReplay]; [owner] names, for the statements, the
    request that made the record, which a record read from disk does not. *)
Abbreviation RequestId := (nat * str * Z)%type (only parsing).

Record Replay := mkReplay {
  expires_at_unix_ms : Z;
  durable : bool;
  owner : option RequestId
}.

(** The critical section: the records after it, the files to remove, or the
    refusal.  A refusal keeps the records it has purged out. *)
Definition admit_request (maximum : nat) (now_ms : Z) (requests : gmap str Replay) (key : str)
    (r : Replay) : gmap str Replay * result (list str) PeerError :=
  let live := filter (λ p, now_ms ≤ expires_at_unix_ms p.2) requests in
  let expired := filter (λ p, ¬ now_ms ≤ expires_at_unix_ms p.2) requests in
  if bool_decide (is_Some (live !! key)) then (live, Err Replayed)
  else if bool_decide (maximum ≤ size live)%nat then (live, Err ReplayWindowFull)
  else (<[key := r]> live,
        Ok (fst <$> List.filter (λ p, durable p.2) (map_to_list expired))).

(** [load_authenticated_peer_requests] *)
Definition load_authenticated_peer_requests (now_ms : Z) (disk : gmap str Z) : gmap str Replay :=
  (λ e, mkReplay e true None) <$> filter (λ p, now_ms ≤ p.2) disk.

(** ** The owner's process *)

(** A request past the critical section; [saved] once its record is on disk. *)
Record Request := mkRequest {
  q_id : RequestId;
  q_expires : Z;
  q_durable : bool;
  q_saved : bool
}.

Definition q_epoch (q : Request) : nat := (q_id q).1.1.
Definition q_key (q : Request) : str := (q_id q).1.2.
Definition q_issued (q : Request) : Z := (q_id q).2.

(** A request whose payload has been checked and which awaits the mutex, with the
    clock as it was read for the checks. *)
Record Waiting := mkWaiting {
  w_key : str;
  w_issued : Z;
  w_now : Z;
  w_durable : bool
}.

(** [removals] are the files the spawned threads have still to remove;
    [waiting] are the requests before the critical section, and [flights] those
    that wait for their record to be saved. *)
Record Owner := mkOwner {
  clock : Z;
  epoch : nat;
  requests : gmap str Replay;
  disk : gmap str Z;
  removals : list str;
  waiting : list Waiting;
  flights : list Request;
  accepted : list Request
}.

Inductive OwnerAction :=
  | ARequest (peer expected_action expected_request_id : str) (p : Payload)
  | AAdmit (w : Waiting)
  | ASave (q : Request)
  | ASaveFailed (q : Request) (wrote : bool)
  | AReturn (q : Request)
  | ARemove (key : str)
  | ATick (now_ms : Z)
  | ARestart.

Section owner.
Context (freshness_ms : Z) (maximum : nat).

(** [authenticate_peer_request] up to the wait for the mutex. *)
Definition check_request (o : Owner) (peer expected_action expected_request_id : str) (p : Payload) : result Waiting PeerError :=
  match check_payload (epoch o) freshness_ms (clock o) expected_action expected_request_id p with
  | Err e => Err e
  | Ok issued =>
      Ok (mkWaiting (replay_key peer expected_action expected_request_id) issued (clock o) (durable_action expected_action))
  end.

Definition request_step (o : Owner) (r : result Waiting PeerError) : Owner :=
  match r with
  | Ok w => mkOwner (clock o) (epoch o) (requests o) (disk o) (removals o) (w :: waiting o) (flights o) (accepted o)
  | Err _ => o
  end.

(** From the mutex to the wait for the disk, with the time read before. *)
Definition admit_step (o : Owner) (w : Waiting) (rest : list Waiting) : Owner * result Request PeerError :=
  let expires := expires_at freshness_ms (w_now w) (w_issued w) in
  let id := (epoch o, w_key w, w_issued w) in
  match admit_request maximum (w_now w) (requests o) (w_key w) (mkReplay expires (w_durable w) (Some id)) with
  | (m, Err e) =>
      (mkOwner (clock o) (epoch o) m (disk o) (removals o) rest (flights o) (accepted o), Err e)
  | (m, Ok expired_durable) =>
      let q := mkRequest id expires (w_durable w) false in
      (mkOwner (clock o) (epoch o) m (disk o) (expired_durable ++ removals o) rest
         (if w_durable w then q :: flights o else flights o)
         (if w_durable w then accepted o else q :: accepted o), Ok q)
  end.

(** Undisturbed, the two follow each other. *)
Definition authenticate_peer_request (o : Owner) (peer expected_action expected_request_id : str)
    (p : Payload) : Owner * result Request PeerError :=
  match check_request o peer expected_action expected_request_id p with
  | Err e => (o, Err e)
  | Ok w => admit_step o w (waiting o)
  end.

(** The thread that saves wrote the record. *)
Definition save_step (o : Owner) (q : Request) (rest : list Request) : Owner :=
  mkOwner (clock o) (epoch o) (requests o) (<[q_key q := q_expires q]> (disk o)) (removals o) (waiting o)
    (mkRequest (q_id q) (q_expires q) (q_durable q) true :: rest) (accepted o).

Definition save_failed_step (o : Owner) (q : Request) (wrote : bool) (rest : list Request) : Owner :=
  mkOwner (clock o) (epoch o) (delete (q_key q) (requests o))
    (if wrote then <[q_key q := q_expires q]> (disk o) else disk o) (removals o) (waiting o) rest (accepted o).

(** [q] and the others of a list. *)
Fixpoint remove_request (q : Request) (l : list Request) : list Request :=
  match l with
  | [] => []
  | x :: l => if bool_decide (q_id x = q_id q) then l else x :: remove_request q l
  end.

Definition restart_step (o : Owner) : Owner :=
  mkOwner (clock o) (S (epoch o)) (load_authenticated_peer_requests (clock o) (disk o))
    (filter (λ p, clock o ≤ p.2) (disk o)) [] [] [] (accepted o).

Inductive owner_step : Owner → OwnerAction → Owner → Prop :=
  | step_request o peer act req p :
      owner_step o (ARequest peer act req p) (request_step o (check_request o peer act req p))
  | step_admit o w l1 l2 :
      waiting o = l1 ++ w :: l2 → owner_step o (AAdmit w) (admit_step o w (l1 ++ l2)).1
  | step_save o q :
      q ∈ flights o → q_saved q = false →
      owner_step o (ASave q) (save_step o q (remove_request q (flights o)))
  | step_save_failed o q wrote :
      q ∈ flights o → q_saved q = false →
      owner_step o (ASaveFailed q wrote) (save_failed_step o q wrote (remove_request q (flights o)))
  | step_return o q :
      q ∈ flights o → q_saved q = true →
      owner_step o (AReturn q)
        (mkOwner (clock o) (epoch o) (requests o) (disk o) (removals o) (waiting o)
           (remove_request q (flights o)) (q :: accepted o))
  | step_remove o key l1 l2 :
      removals o = l1 ++ key :: l2 →
      owner_step o (ARemove key)
        (mkOwner (clock o) (epoch o) (requests o) (delete key (disk o)) (l1 ++ l2) (waiting o) (flights o) (accepted o))
  | step_tick o now :
      clock o ≤ now ≤ U64_MAX →
      owner_step o (ATick now)
        (mkOwner now (epoch o) (requests o) (disk o) (removals o) (waiting o) (flights o) (accepted o))
  | step_restart o : owner_step o ARestart (restart_step o).

(** The mutex is got while the request is fresh, and the disk reports a failure
    within the window of the record. *)
Definition timely (o : Owner) (a : OwnerAction) : Prop :=
  match a with
  | AAdmit w => clock o ≤ w_issued w + freshness_ms
  | ASaveFailed q _ => clock o ≤ q_expires q
  | _ => True
  end.

(** Nor is a record saved after its window, or while the removal of its file is
    outstanding. *)
Definition prompt (o : Owner) (a : OwnerAction) : Prop :=
  match a with
  | AAdmit w => clock o ≤ w_issued w + freshness_ms
  | ASave q | ASaveFailed q _ => clock o ≤ q_expires q ∧ q_key q ∉ removals o
  | _ => True
  end.

Definition step_of (P : Owner → OwnerAction → Prop) (o o' : Owner) : Prop :=
  ∃ a, P o a ∧ owner_step o a o'.
End owner.

Definition initial_owner (now_ms : Z) : Owner := mkOwner now_ms 0 ∅ ∅ [] [] [] [].

(** ** The records held for a set of requests *)

Lemma check_payload_ok epoch F now act req p issued :
  check_payload epoch F now act req p = Ok issued →
  now ≤ issued + F ∧ issued ≤ now + F ∧ owner_epoch p = Some epoch.
Proof.
  unfold check_payload, saturating_sub. intros H.
  case_bool_decide; [|done]. case_bool_decide; [|done]. cbn [negb] in H.
  case_bool_decide as He; [|done]. cbn [negb] in H. destruct (issued_at_unix_ms p) as [i|]; [|done].
  destruct (Z.ltb_spec F (Z.max 0 (now - i))); [done|].
  destruct (Z.ltb_spec F (Z.max 0 (i - now))); [done|]. injection H as ->. split_and!; [lia|lia|done].
Qed.

(** [l] lists requests with the end of their windows: their ids differ, each
    has a window of at least [F] from its issue, and those of this epoch whose
    window is open have their own record. *)
Record held (F now : Z) (epoch : nat) (m : gmap str Replay) (l : list (RequestId * Z)) : Prop := mkHeld {
  h_ids : NoDup (fst <$> l);
  h_epoch : ∀ id e, (id, e) ∈ l → (id.1.1 ≤ epoch)%nat;
  h_window : ∀ id e, (id, e) ∈ l → Z.min (id.2 + F) U64_MAX ≤ e;
  h_held : ∀ id e, (id, e) ∈ l → id.1.1 = epoch → now ≤ e →
    ∃ r, m !! id.1.2 = Some r ∧ expires_at_unix_ms r = e ∧ owner r = Some id;
  h_clock : now ≤ U64_MAX
}.

Section held.
Context {F now : Z} {n : nat} {m : gmap str Replay} {l : list (RequestId * Z)} (H : held F now n m l).

Lemma held_perm l' : l ≡ₚ l' → held F now n m l'.
Proof using H.
  intros Hp. destruct H as [H1 H2 H3 H4 H5]. constructor; [by rewrite <- Hp| | | |done].
  all: intros id e Hin; rewrite <- Hp in Hin; eauto.
Qed.

Lemma held_live now0 : now0 ≤ now → held F now n (filter (λ p, now0 ≤ expires_at_unix_ms p.2) m) l.
Proof using H.
  intros H0. destruct H as [H1 H2 H3 H4 H5]. constructor; try done. intros id e Hin He Hle.
  destruct (H4 id e Hin He Hle) as (r & Hr & <- & Ho). exists r. split; [|done].
  apply map_lookup_filter_Some. split; [done|]. cbn. lia.
Qed.

Lemma held_tick now' : now ≤ now' ≤ U64_MAX → held F now' n m l.
Proof using H. destruct H as [H1 H2 H3 H4 H5]. intros Hn. constructor; try done; [|lia]. intros id e Hin He Hle. apply H4; [done..|lia]. Qed.

Lemma held_restart m' : held F now (S n) m' l.
Proof using H.
  destruct H as [H1 H2 H3 H4 H5]. constructor; try done.
  - intros id e Hin. specialize (H2 id e Hin). lia.
  - intros id e Hin He. specialize (H2 id e Hin). lia.
Qed.

Lemma held_insert key issued now0 r :
  m !! key = None → now ≤ issued + F →
  expires_at_unix_ms r = expires_at F now0 issued → owner r = Some (n, key, issued) →
  held F now n (<[key := r]> m) (((n, key, issued), expires_at F now0 issued) :: l).
Proof using H.
  intros Hk Hfresh He Ho. destruct H as [H1 H2 H3 H4 H5].
  assert (∀ id e, (id, e) ∈ l → id.1.1 = n → id.1.2 = key → e < now) as Hold.
  { intros id e Hin Hn Hkey. destruct (decide (e < now)); [done|exfalso].
    destruct (H4 id e Hin Hn) as (r' & Hr' & _); [lia|]. congruence. }
  constructor; cbn [fmap list_fmap fst].
  - apply NoDup_cons. split; [|done]. intros ([id e] & Hid & Hin)%list_elem_of_fmap. cbn in Hid. subst id.
    pose proof (Hold _ _ Hin eq_refl eq_refl). specialize (H3 _ _ Hin). cbn in H3. lia.
  - intros id e [[= -> ->]|Hin]%elem_of_cons; [done|by eapply H2].
  - intros id e [[= -> ->]|Hin]%elem_of_cons; [|by apply H3]. cbn. unfold expires_at, u64_saturating_add. lia.
  - intros id e [[= -> ->]|Hin]%elem_of_cons Hn Hle.
    + exists r. cbn. by rewrite lookup_insert_eq.
    + destruct (H4 id e Hin Hn Hle) as (r' & Hr' & ?). exists r'. split; [|done].
      rewrite lookup_insert_ne; [done|]. intros Hkey. specialize (Hold id e Hin Hn (eq_sym Hkey)). lia.
  - done.
Qed.
End held.

(** A request that is given up with its window open removes its own record. *)
Lemma held_drop F now n m l id e :
  held F now n m ((id, e) :: l) → id.1.1 = n → now ≤ e → held F now n (delete id.1.2 m) l.
Proof.
  intros [H1 H2 H3 H4 H5] Hn Hle. apply NoDup_cons in H1 as [Hnot H1].
  destruct (H4 id e) as (r & Hr & _ & Ho); [by left|done|done|].
  constructor; [done| | | |done].
  - intros id' e' Hin. by apply (H2 id' e'); right.
  - intros id' e' Hin. by apply (H3 id' e'); right.
  - intros id' e' Hin Hn' Hle'. destruct (H4 id' e') as (r' & Hr' & He' & Ho'); [by right|done..|].
    exists r'. split; [|done]. rewrite lookup_delete_ne; [done|]. intros Hk. rewrite Hk in Hr.
    apply Hnot. apply list_elem_of_fmap. exists (id', e'). split; [|done]. cbn. congruence.
Qed.

(** ** Each request once *)

Definition pair (q : Request) : RequestId * Z := (q_id q, q_expires q).

Definition everything (o : Owner) : list (RequestId * Z) := pair <$> accepted o ++ flights o.

Lemma remove_request_perm q l :
  q ∈ l → NoDup (q_id <$> l) → l ≡ₚ q :: remove_request q l.
Proof.
  induction l as [|x l IH]; intros Hin Hnd; [by apply not_elem_of_nil in Hin|].
  cbn [remove_request]. apply NoDup_cons in Hnd as [Hx Hnd]. case_bool_decide as Hid.
  - apply elem_of_cons in Hin as [->|Hin]; [done|]. exfalso. apply Hx. rewrite Hid. by apply list_elem_of_fmap_2.
  - apply elem_of_cons in Hin as [->|Hin]; [done|]. rewrite (IH Hin Hnd) at 1. constructor.
Qed.

Record owner_inv (F : Z) (o : Owner) : Prop := mkOwnerInv {
  oi_held : held F (clock o) (epoch o) (requests o) (everything o);
  oi_flights : ∀ q, q ∈ flights o → q_epoch q = epoch o;
  oi_waiting : ∀ w, w ∈ waiting o → w_now w ≤ clock o
}.

Lemma flights_perm F o q :
  owner_inv F o → q ∈ flights o → flights o ≡ₚ q :: remove_request q (flights o).
Proof.
  intros [Hh _ _] Hin. apply remove_request_perm; [done|].
  pose proof (h_ids _ _ _ _ _ Hh) as Hnd. unfold everything in Hnd. rewrite <- list_fmap_compose, fmap_app in Hnd.
  by apply NoDup_app in Hnd as (_ & _ & Hnd).
Qed.

Lemma everything_flight F o q :
  owner_inv F o → q ∈ flights o →
  everything o ≡ₚ pair q :: (pair <$> accepted o ++ remove_request q (flights o)).
Proof.
  intros Hi Hin. unfold everything. rewrite (flights_perm F o q Hi Hin) at 1.
  by rewrite !fmap_app, fmap_cons, <- Permutation_middle.
Qed.

Lemma admit_request_spec maximum now m key r m' res :
  admit_request maximum now m key r = (m', res) →
  let live := filter (λ p, now ≤ expires_at_unix_ms p.2) m in
  (∃ e, res = Err e ∧ m' = live ∧ (e = Replayed ↔ is_Some (live !! key)))
  ∨ (live !! key = None ∧ (size live < maximum)%nat ∧ m' = <[key := r]> live
     ∧ res = Ok (fst <$> List.filter (λ p, durable p.2)
                   (map_to_list (filter (λ p, ¬ now ≤ expires_at_unix_ms p.2) m)))).
Proof.
  unfold admit_request. cbn zeta. set (live := filter _ m). intros H.
  case_bool_decide as Hk; [left; exists Replayed; by simplify_eq|].
  assert (live !! key = None) as Hn by (by apply eq_None_not_Some).
  case_bool_decide as Hs; simplify_eq; [left; exists ReplayWindowFull; done|right].
  split_and!; try done. lia.
Qed.

Lemma check_request_Ok F o peer act req p w :
  check_request F o peer act req p = Ok w → w_now w = clock o ∧ w_key w = replay_key peer act req.
Proof. unfold check_request. destruct (check_payload _ _ _ _ _ _); [|done]. by intros [= <-]. Qed.

Lemma owner_inv_request F o peer act req p :
  owner_inv F o → owner_inv F (request_step o (check_request F o peer act req p)).
Proof.
  intros Hi. destruct (check_request F o peer act req p) as [w|e] eqn:Hc; [|done]. apply check_request_Ok in Hc as [Hc _].
  destruct Hi as [H1 H2 H3]. constructor; [done|done|]. intros x [->|Hx]%elem_of_cons; [by rewrite Hc|by apply H3].
Qed.

Lemma owner_inv_admit F maximum o w rest :
  clock o ≤ w_issued w + F → w ∈ waiting o → (∀ x, x ∈ rest → x ∈ waiting o) → owner_inv F o → owner_inv F (admit_step F maximum o w rest).1.
Proof.
  intros Hfresh Hw Hrest [Hh Hf Hwt]. unfold admit_step. pose proof (Hwt w Hw) as Hnow.
  set (r := mkReplay _ _ _). destruct (admit_request _ _ _ _ _) as [m' res] eqn:Ha.
  apply admit_request_spec in Ha as [(e & -> & -> & _)|(Hn & _ & -> & ->)].
  - cbn. constructor; [by apply held_live|done|]. intros x Hx. by apply Hwt, Hrest.
  - pose proof (held_insert (held_live Hh (w_now w) Hnow) (w_key w) (w_issued w) (w_now w) r Hn Hfresh eq_refl eq_refl) as Hnew.
    cbn [fst]. constructor; cbn [clock epoch requests flights waiting]; [| |intros x Hx; by apply Hwt, Hrest].
    + eapply held_perm; [exact Hnew|]. unfold everything. cbn [accepted flights].
      destruct (w_durable w); cbn; [|done]. rewrite !fmap_app, fmap_cons, <- Permutation_middle. done.
    + intros q. destruct (w_durable w); [|apply Hf].
      intros [->|Hin]%elem_of_cons; [done|by apply Hf].
Qed.

Lemma remove_request_subset q l x : x ∈ remove_request q l → x ∈ l.
Proof.
  induction l as [|y l IH]; [done|]. cbn [remove_request]. case_bool_decide; [by right|].
  intros [->|Hin]%elem_of_cons; [by left|right; auto].
Qed.

Lemma rest_waiting o w l1 l2 : waiting o = l1 ++ w :: l2 → w ∈ waiting o ∧ ∀ x, x ∈ l1 ++ l2 → x ∈ waiting o.
Proof. intros ->. set_solver. Qed.

Lemma owner_inv_step F maximum o a o' :
  owner_step F maximum o a o' → timely F o a → owner_inv F o → owner_inv F o'.
Proof.
  intros Hs Ht Hi. destruct Hs as [o peer act req p|o w l1 l2 Hw|o q Hq Hsv|o q wrote Hq Hsv|o q Hq Hsv|o key l1 l2 Hr|o now Hn|o].
  - by apply owner_inv_request.
  - apply rest_waiting in Hw as [Hw Hrest]. by apply owner_inv_admit.
  - pose proof (everything_flight _ _ _ Hi Hq) as Hp. destruct Hi as [Hh Hf Hwt]. constructor; [| |done].
    + eapply held_perm; [exact Hh|]. rewrite Hp. unfold everything, save_step. cbn [accepted flights].
      rewrite !fmap_app, fmap_cons. by rewrite <- Permutation_middle.
    + intros x. cbn. intros [->|Hin]%elem_of_cons; [exact (Hf q Hq)|].
      by apply Hf, (remove_request_subset q).
  - pose proof (everything_flight _ _ _ Hi Hq) as Hp. destruct Hi as [Hh Hf Hwt]. constructor; [| |done].
    + cbn. unfold everything. cbn [accepted flights]. apply (held_drop _ _ _ _ _ (q_id q) (q_expires q)).
      * eapply held_perm; [exact Hh|done].
      * exact (Hf q Hq).
      * done.
    + intros x. cbn. intros Hin. by apply Hf, (remove_request_subset q).
  - pose proof (everything_flight _ _ _ Hi Hq) as Hp. destruct Hi as [Hh Hf Hwt]. constructor; [| |done].
    + eapply held_perm; [exact Hh|]. by rewrite Hp.
    + intros x. cbn. intros Hin. by apply Hf, (remove_request_subset q).
  - destruct Hi. by constructor.
  - destruct Hi as [Hh Hf Hwt]. constructor; [exact (held_tick Hh now Hn)|done|]. intros x Hx. cbn. specialize (Hwt x Hx). lia.
  - destruct Hi as [Hh Hf Hwt]. constructor; [|intros q Hq; by apply not_elem_of_nil in Hq|intros x Hx; by apply not_elem_of_nil in Hx]. cbn.
    assert (∃ l', everything o ≡ₚ l' ++ (pair <$> accepted o)) as [l' Hp].
    { exists (pair <$> flights o). unfold everything. rewrite fmap_app. apply Permutation_app_comm. }
    pose proof (held_restart (held_perm Hh _ Hp) (load_authenticated_peer_requests (clock o) (disk o))) as [H1 H2 H3 H4 H5].
    unfold everything. cbn [accepted flights]. rewrite app_nil_r. rewrite fmap_app in H1.
    apply NoDup_app in H1 as (_ & _ & H1).
    constructor; [done| | | |done]; intros id e Hin; [apply (H2 id e)|apply (H3 id e)|apply (H4 id e)];
      apply elem_of_app; by right.
Qed.

Lemma owner_inv_initial F now : now ≤ U64_MAX → owner_inv F (initial_owner now).
Proof.
  intros Hn. constructor; cbn; [|by intros q Hq%not_elem_of_nil..].
  constructor; cbn; [apply NoDup_nil_2| | | |done]; by intros id e Hin%not_elem_of_nil.
Qed.

Lemma owner_inv_reachable F maximum now o :
  now ≤ U64_MAX → reachable (step_of F maximum (timely F)) (initial_owner now) o → owner_inv F o.
Proof.
  intros Hn. apply reachable_invariant; [by apply owner_inv_initial|].
  intros o0 o1 Hi (a & Ht & Ha). by eapply owner_inv_step.
Qed.

(** C3: a sealed request is accepted at most once. However peers send and resend it,
    requests wait for the mutex, files are saved and removed, saving fails, time passes
    and the process restarts, no payload, identified by its owner's epoch, its key and
    its time of issue, is accepted twice, provided the clock does not go back, a request
    gets the mutex while it is still fresh, and a disk that fails reports it within the
    window of the record ([timely]). *)
Theorem peer_request_accepted_once F maximum now o :
  now ≤ U64_MAX → reachable (step_of F maximum (timely F)) (initial_owner now) o →
  NoDup (q_id <$> accepted o).
Proof.
  intros Hn Hr. pose proof (h_ids _ _ _ _ _ (oi_held _ _ (owner_inv_reachable _ _ _ _ Hn Hr))) as Hnd.
  unfold everything in Hnd. rewrite <- list_fmap_compose, fmap_app in Hnd. by apply NoDup_app in Hnd as [Hnd _].
Qed.

(** ** What the disk remembers *)

Definition on_disk (o : Owner) : list Request :=
  List.filter q_durable (accepted o) ++ List.filter q_saved (flights o).

Lemma elem_of_on_disk o q :
  q ∈ on_disk o ↔ (q ∈ accepted o ∧ q_durable q = true) ∨ (q ∈ flights o ∧ q_saved q = true).
Proof. unfold on_disk. rewrite elem_of_app, !list_elem_of_In, !List.filter_In, <- !list_elem_of_In. done. Qed.

Record disk_inv (o : Owner) : Prop := mkDiskInv {
  di_disk : ∀ q, q ∈ on_disk o → clock o ≤ q_expires q → disk o !! q_key q = Some (q_expires q);
  di_memory : ∀ q, q ∈ on_disk o → clock o ≤ q_expires q →
    ∃ r, requests o !! q_key q = Some r ∧ expires_at_unix_ms r = q_expires q
      ∧ (owner r = Some (q_id q) ∨ owner r = None);
  di_removals : ∀ q, q ∈ on_disk o → q_key q ∈ removals o → q_expires q < clock o;
  di_flights : ∀ q, q ∈ flights o → q_durable q = true
}.

(** A record on disk is not that of a request still to be saved, nor has it its
    key while both windows are open. *)
Lemma unsaved_key_is_its_own F o q x :
  owner_inv F o → disk_inv o → q ∈ flights o → q_saved q = false → clock o ≤ q_expires q →
  x ∈ on_disk o → clock o ≤ q_expires x → q_key x ≠ q_key q.
Proof.
  intros Hi Hd Hq Hsv Hle Hx Hlex Hk.
  destruct (di_memory o Hd x Hx Hlex) as (r & Hr & _ & Ho).
  pose proof (everything_flight F o q Hi Hq) as Hp.
  pose proof (held_perm (oi_held F o Hi) _ Hp) as Hh.
  destruct (h_held _ _ _ _ _ Hh (q_id q) (q_expires q)) as (r' & Hr' & _ & Ho');
    [by left|by apply (oi_flights F o Hi)|done|].
  assert (q_id x = q_id q) as Hid by (unfold q_key in *; destruct Ho; congruence).
  pose proof (h_ids _ _ _ _ _ Hh) as Hnd. cbn [fmap list_fmap fst pair] in Hnd.
  apply NoDup_cons in Hnd as [Hnot _]. apply Hnot. rewrite <- Hid.
  apply list_elem_of_fmap. exists (pair x). split; [done|]. apply list_elem_of_fmap_2.
  apply elem_of_app. apply elem_of_on_disk in Hx as [[Hx _]|[Hx Hxs]]; [by left|right].
  rewrite (flights_perm F o q Hi Hq) in Hx. apply elem_of_cons in Hx as [->|Hx]; [congruence|done].
Qed.

Lemma purged_expired (now : Z) (m : gmap str Replay) (key : str) :
  key ∈ (fst <$> List.filter (λ p, durable p.2)
          (map_to_list (filter (λ p, ¬ now ≤ expires_at_unix_ms p.2) m))) →
  ∃ r, m !! key = Some r ∧ expires_at_unix_ms r < now.
Proof.
  intros ([k r] & -> & Hin)%list_elem_of_fmap. rewrite list_elem_of_In, List.filter_In, <- list_elem_of_In in Hin.
  destruct Hin as [Hin _]. apply elem_of_map_to_list, map_lookup_filter_Some in Hin as [Hr Hlt].
  exists r. cbn in *. split; [done|lia].
Qed.

Lemma disk_inv_request F o peer act req p :
  disk_inv o → disk_inv (request_step o (check_request F o peer act req p)).
Proof. intros [H1 H2 H3 H4]. by destruct (check_request F o peer act req p). Qed.

Lemma disk_inv_admit F maximum o w rest :
  w_now w ≤ clock o → disk_inv o → disk_inv (admit_step F maximum o w rest).1.
Proof.
  intros Hnow [H1 H2 H3 H4]. unfold admit_step. set (r := mkReplay _ _ _).
  destruct (admit_request _ _ _ _ _) as [m' res] eqn:Ha.
  assert (∀ q, q ∈ on_disk o → clock o ≤ q_expires q → ∃ r,
            filter (λ p, w_now w ≤ expires_at_unix_ms p.2) (requests o) !! q_key q = Some r ∧
            expires_at_unix_ms r = q_expires q ∧ (owner r = Some (q_id q) ∨ owner r = None)) as Hlive.
  { intros q Hq Hle. destruct (H2 q Hq Hle) as (r' & Hr & He & Ho). exists r'. split; [|done].
    apply map_lookup_filter_Some. split; [done|]. cbn. lia. }
  apply admit_request_spec in Ha as [(e & -> & -> & _)|(Hn & _ & -> & ->)]; [by constructor|].
  set (q := mkRequest _ _ _ _). set (gone := fst <$> _).
  assert (∀ x, x ∈ on_disk (mkOwner (clock o) (epoch o) (<[w_key w:=r]>
            (filter (λ p, w_now w ≤ expires_at_unix_ms p.2) (requests o))) (disk o) (gone ++ removals o) rest
            (if w_durable w then q :: flights o else flights o)
            (if w_durable w then accepted o else q :: accepted o)) → x ∈ on_disk o) as Hsub.
  { intros x. rewrite !elem_of_on_disk. cbn [accepted flights]. unfold q.
    destruct (w_durable w); rewrite ?elem_of_cons; naive_solver. }
  constructor; cbn [fst clock epoch requests disk removals].
  - auto.
  - intros x Hx Hle. destruct (Hlive x (Hsub x Hx) Hle) as (r' & Hr & ?). exists r'. split; [|done].
    rewrite lookup_insert_ne; [done|]. intros Hk. rewrite <- Hk in Hr. congruence.
  - intros x Hx [Hg|Hrem]%elem_of_app; [|by apply H3; auto].
    destruct (decide (q_expires x < clock o)) as [|Hge]; [done|exfalso].
    apply purged_expired in Hg as (r' & Hr' & Hlt).
    destruct (H2 x (Hsub x Hx)) as (r2 & Hr2 & He & _); [lia|]. rewrite Hr2 in Hr'. simplify_eq. lia.
  - intros x. cbn [flights]. destruct (w_durable w) eqn:Hdur; [|apply H4].
    intros [->|Hin]%elem_of_cons; [done|by apply H4].
Qed.

(** What is on disk after a step of a flight is what was, and perhaps [q]. *)
Lemma flights_remove_cases F o q x :
  owner_inv F o → q ∈ flights o → x ∈ flights o ↔ x = q ∨ x ∈ remove_request q (flights o).
Proof. intros Hi Hq. rewrite (flights_perm F o q Hi Hq) at 1. by rewrite elem_of_cons. Qed.

Lemma disk_inv_save F o q :
  owner_inv F o → disk_inv o → q ∈ flights o → q_saved q = false → clock o ≤ q_expires q →
  q_key q ∉ removals o → disk_inv (save_step o q (remove_request q (flights o))).
Proof.
  intros Hi Hd Hq Hsv Hle Hrem. pose proof Hd as [H1 H2 H3 H4].
  assert (∀ x, x ∈ on_disk (save_step o q (remove_request q (flights o))) →
            x = mkRequest (q_id q) (q_expires q) (q_durable q) true ∨ x ∈ on_disk o) as Hsub.
  { intros x. rewrite !elem_of_on_disk. cbn [save_step accepted flights].
    rewrite elem_of_cons, (flights_remove_cases F o q x Hi Hq). naive_solver. }
  constructor; cbn [save_step clock disk requests removals].
  - intros x [->|Hx]%Hsub Hlex; cbn; [by rewrite lookup_insert_eq|].
    rewrite lookup_insert_ne; [auto|]. intros Hk. by eapply (unsaved_key_is_its_own F o q x).
  - intros x [->|Hx]%Hsub Hlex; [|auto].
    destruct (h_held _ _ _ _ _ (oi_held F o Hi) (q_id q) (q_expires q)) as (r & ? & ? & ?);
      [|by apply (oi_flights F o Hi)|done|exists r; auto].
    unfold everything. change (q_id q, q_expires q) with (pair q). apply list_elem_of_fmap_2, elem_of_app. by right.
  - intros x [->|Hx]%Hsub; [done|auto].
  - intros x [->|Hin]%elem_of_cons; [exact (H4 q Hq)|]. by apply H4, (remove_request_subset q).
Qed.

Lemma disk_inv_save_failed F o q wrote :
  owner_inv F o → disk_inv o → q ∈ flights o → q_saved q = false → clock o ≤ q_expires q →
  disk_inv (save_failed_step o q wrote (remove_request q (flights o))).
Proof.
  intros Hi Hd Hq Hsv Hle. pose proof Hd as [H1 H2 H3 H4].
  assert (∀ x, x ∈ on_disk (save_failed_step o q wrote (remove_request q (flights o))) → x ∈ on_disk o) as Hsub.
  { intros x. rewrite !elem_of_on_disk. cbn [save_failed_step accepted flights].
    rewrite (flights_remove_cases F o q x Hi Hq). naive_solver. }
  assert (∀ x, x ∈ on_disk o → clock o ≤ q_expires x → q_key q ≠ q_key x) as Hne.
  { intros x Hx Hlex Hk. by eapply (unsaved_key_is_its_own F o q x). }
  constructor; cbn [save_failed_step clock disk requests removals].
  - intros x Hx%Hsub Hlex. destruct wrote; [rewrite lookup_insert_ne by auto|]; auto.
  - intros x Hx%Hsub Hlex. rewrite lookup_delete_ne by auto. auto.
  - auto.
  - intros x Hin. by apply H4, (remove_request_subset q).
Qed.

Lemma disk_inv_step F maximum o a o' :
  owner_step F maximum o a o' → prompt F o a → owner_inv F o → disk_inv o → disk_inv o'.
Proof.
  intros Hs Hp Hi Hd. destruct Hs as [o peer act req p|o w l1 l2 Hw|o q Hq Hsv|o q wrote Hq Hsv|o q Hq Hsv|o key l1 l2 Hr|o now Hn|o].
  - by apply disk_inv_request.
  - apply rest_waiting in Hw as [Hw _]. apply disk_inv_admit; [by apply (oi_waiting F o Hi)|done].
  - destruct Hp. by eapply disk_inv_save.
  - destruct Hp. by eapply disk_inv_save_failed.
  - destruct Hd as [H1 H2 H3 H4].
    match goal with |- disk_inv ?o' => assert (∀ x, x ∈ on_disk o' → x ∈ on_disk o) as Hsub end.
    { intros x. rewrite !elem_of_on_disk. cbn [accepted flights].
      rewrite elem_of_cons, (flights_remove_cases F o q x Hi Hq). naive_solver. }
    constructor; cbn [clock disk requests removals]; auto.
    intros x Hin. by apply H4, (remove_request_subset q).
  - destruct Hd as [H1 H2 H3 H4]. constructor; cbn; auto.
    + intros x Hx Hle. rewrite lookup_delete_ne; [by apply H1|]. intros Hk.
      specialize (H3 x Hx). rewrite Hr, <- Hk in H3. specialize (H3 ltac:(set_solver)). lia.
    + intros x Hx Hin. apply H3; [done|]. rewrite Hr. set_solver.
  - destruct Hd as [H1 H2 H3 H4]. constructor; cbn; auto.
    + intros x Hx Hle. apply H1; [done|lia].
    + intros x Hx Hle. apply H2; [done|lia].
    + intros x Hx Hin. specialize (H3 x Hx Hin). lia.
  - destruct Hd as [H1 H2 H3 H4].
    assert (∀ x, x ∈ on_disk (restart_step o) → x ∈ on_disk o) as Hsub.
    { intros x. rewrite !elem_of_on_disk. cbn [restart_step accepted flights].
      intros [?|[Hx%not_elem_of_nil _]]; [by left|done]. }
    assert (∀ x, x ∈ on_disk o → clock o ≤ q_expires x →
              filter (λ p, clock o ≤ p.2) (disk o) !! q_key x = Some (q_expires x)) as Hkept.
    { intros x Hx Hle. apply map_lookup_filter_Some. split; [by apply H1|done]. }
    constructor; cbn [restart_step clock disk requests removals flights].
    + auto.
    + intros x Hx%Hsub Hle. exists (mkReplay (q_expires x) true None). cbn.
      unfold load_authenticated_peer_requests. rewrite lookup_fmap, Hkept by done. auto.
    + intros x _ Hin. by apply not_elem_of_nil in Hin.
    + intros x Hin. by apply not_elem_of_nil in Hin.
Qed.

Lemma prompt_timely F o a : prompt F o a → timely F o a.
Proof. destruct a; cbn; tauto. Qed.

Lemma disk_inv_reachable F maximum now o :
  now ≤ U64_MAX → reachable (step_of F maximum (prompt F)) (initial_owner now) o →
  owner_inv F o ∧ disk_inv o.
Proof.
  intros Hn. apply (reachable_invariant _ (λ o, owner_inv F o ∧ disk_inv o)).
  - split; [by apply owner_inv_initial|].
    constructor; cbn; intros x Hx; try by apply not_elem_of_nil in Hx.
  - intros o0 o1 [Hi Hd] (a & Hp & Ha).
    split; [eapply owner_inv_step; [done|by apply prompt_timely|done]|by eapply disk_inv_step].
Qed.

(** A request with lasting effects is refused again until its window ends,
    across restarts. Once such a request has been accepted, any request with the
    same peer, action and request id that has passed the checks and gets the mutex
    is refused as a replay, whatever epoch it was sealed for and however often the
    process has restarted since; this needs a disk that saves within the window and
    not while an earlier record's file is still to be removed. *)
Theorem lasting_request_refused_across_restarts F maximum now o q w rest :
  now ≤ U64_MAX → reachable (step_of F maximum (prompt F)) (initial_owner now) o →
  q ∈ accepted o → q_durable q = true → clock o ≤ q_expires q →
  w ∈ waiting o → w_key w = q_key q →
  (admit_step F maximum o w rest).2 = Err Replayed.
Proof.
  intros Hn Hr Hq Hdur Hle Hw Hk. destruct (disk_inv_reachable _ _ _ _ Hn Hr) as [Hi Hd].
  destruct (di_memory o Hd q) as (r & Hm & He & _); [apply elem_of_on_disk; by left|done|].
  pose proof (oi_waiting F o Hi w Hw) as Hnow. unfold admit_step. rewrite Hk. unfold admit_request.
  rewrite bool_decide_true; [done|]. exists r. apply map_lookup_filter_Some. split; [done|]. cbn. lia.
Qed.

(** ** Concrete runs *)

Definition close_payload (id : string) (epoch : nat) (issued : Z) : Payload :=
  mkPayload (Some (lit "close_task")) (Some (lit id)) (Some epoch) (Some issued).

Definition send (maximum : nat) (id : string) (issued : Z) (o : Owner) : Owner * result Request PeerError :=
  authenticate_peer_request 10 maximum o (lit "peer") (lit "close_task") (lit id)
    (close_payload id (epoch o) issued).

(** The oldest flight is saved and answered. *)
Definition finish_flight (o : Owner) : Owner :=
  match flights o with
  | q :: rest =>
      mkOwner (clock o) (epoch o) (requests o) (<[q_key q := q_expires q]> (disk o)) (removals o) (waiting o) rest
        (mkRequest (q_id q) (q_expires q) (q_durable q) true :: accepted o)
  | [] => o
  end.

Definition tick (now : Z) (o : Owner) : Owner :=
  mkOwner now (epoch o) (requests o) (disk o) (removals o) (waiting o) (flights o) (accepted o).

Lemma reach_check F maximum (P : Owner → OwnerAction → Prop) o0 o peer act req p :
  reachable (step_of F maximum P) o0 o → P o (ARequest peer act req p) →
  reachable (step_of F maximum P) o0 (request_step o (check_request F o peer act req p)).
Proof. intros Hr Hp. eapply reachable_step; [done|]. eexists. split; [exact Hp|apply step_request]. Qed.

Lemma reach_admit F maximum (P : Owner → OwnerAction → Prop) o0 o w rest :
  reachable (step_of F maximum P) o0 o → waiting o = w :: rest → P o (AAdmit w) →
  reachable (step_of F maximum P) o0 (admit_step F maximum o w rest).1.
Proof. intros Hr Hw Hp. eapply reachable_step; [done|]. eexists. split; [exact Hp|by apply (step_admit _ _ o w [] rest)]. Qed.

(** A request that finds the mutex free. *)
Lemma reach_send F maximum (P : Owner → OwnerAction → Prop) o0 o peer act req p :
  reachable (step_of F maximum P) o0 o → P o (ARequest peer act req p) →
  (∀ o w, clock o ≤ w_issued w + F → P o (AAdmit w)) →
  reachable (step_of F maximum P) o0 (authenticate_peer_request F maximum o peer act req p).1.
Proof.
  intros Hr Hp Hadm. unfold authenticate_peer_request. destruct (check_request F o peer act req p) as [w|e] eqn:Hc; [|done].
  pose proof (reach_check F maximum P o0 o peer act req p Hr Hp) as Hr1. rewrite Hc in Hr1. cbn in Hr1.
  assert (admit_step F maximum o w (waiting o) = admit_step F maximum (request_step o (Ok w)) w (waiting o)) as -> by done.
  eapply reach_admit; [exact Hr1|done|apply Hadm]. cbn. unfold check_request in Hc.
  destruct (check_payload _ _ _ _ _ _) eqn:Hck; [|done]. apply check_payload_ok in Hck. injection Hc as <-. apply Hck.
Qed.

Lemma reach_finish F maximum (P : Owner → OwnerAction → Prop) o0 o q rest :
  reachable (step_of F maximum P) o0 o → flights o = q :: rest → q_saved q = false →
  P o (ASave q) → (∀ o' x, P o' (AReturn x)) → reachable (step_of F maximum P) o0 (finish_flight o).
Proof.
  intros Hr Hf Hsv Hp Hret. unfold finish_flight. rewrite Hf.
  assert (remove_request q (q :: rest) = rest) as Hrm by (cbn; by rewrite bool_decide_true).
  assert (reachable (step_of F maximum P) o0 (save_step o q (remove_request q (flights o)))) as Hr1.
  { eapply reachable_step; [exact Hr|]. exists (ASave q). split; [done|]. apply step_save; [|done]. rewrite Hf. by left. }
  eapply reachable_step; [exact Hr1|].
  exists (AReturn (mkRequest (q_id q) (q_expires q) (q_durable q) true)). split; [apply Hret|].
  rewrite Hf, Hrm in *.
  pose proof (step_return F maximum (save_step o q rest)
                (mkRequest (q_id q) (q_expires q) (q_durable q) true)) as Hs.
  cbn [save_step flights remove_request clock epoch requests disk removals accepted] in Hs.
  rewrite bool_decide_true in Hs by done. apply Hs; [by left|done].
Qed.

Lemma reach_tick F maximum (P : Owner → OwnerAction → Prop) o0 o now :
  reachable (step_of F maximum P) o0 o → clock o ≤ now ≤ U64_MAX → P o (ATick now) →
  reachable (step_of F maximum P) o0 (tick now o).
Proof. intros Hr Hn Hp. eapply reachable_step; [done|]. eexists. split; [exact Hp|by apply step_tick]. Qed.

Lemma reach_restart F maximum (P : Owner → OwnerAction → Prop) o0 o :
  reachable (step_of F maximum P) o0 o → P o ARestart →
  reachable (step_of F maximum P) o0 (restart_step o).
Proof. intros Hr Hp. eapply reachable_step; [done|]. eexists. split; [exact Hp|apply step_restart]. Qed.

(** A close request sent twice. *)
Definition sent_once : Owner := (send 4 "r1" 0 (initial_owner 0)).1.
Definition closed_once : Owner := finish_flight sent_once.
Definition closed_twice : Owner := (send 4 "r1" 0 closed_once).1.

Lemma closed_once_reachable (P : Owner → OwnerAction → Prop) :
  (∀ o peer act req p, P o (ARequest peer act req p)) → (∀ o w, clock o ≤ w_issued w + 10 → P o (AAdmit w)) → (∀ q, P sent_once (ASave q) ∨ q_expires q ≠ 10) →
  (∀ o x, P o (AReturn x)) → reachable (step_of 10 4 P) (initial_owner 0) closed_once.
Proof.
  intros Hreq Hadm Hsave Hret.
  eapply (reach_finish _ _ _ _ sent_once); [apply reach_send; [constructor|apply Hreq|exact Hadm]| | | |done];
    [by vm_compute|done|].
  match goal with |- P _ (ASave ?q) => destruct (Hsave q) as [|[]]; [done|by vm_compute] end.
Qed.

Lemma peer_request_accepted_once_witness :
  (send 4 "r1" 0 closed_once).2 = Err Replayed ∧ length (accepted closed_twice) = 1%nat
  ∧ NoDup (q_id <$> accepted closed_twice).
Proof.
  split_and!; [by vm_compute|by vm_compute|].
  apply (peer_request_accepted_once 10 4 0).
  - unfold U64_MAX. lia.
  - apply reach_send; [|done|done]. apply closed_once_reachable; [done|done|by left|done].
Defined.

Definition sent_again : Waiting := mkWaiting (replay_key (lit "peer") (lit "close_task") (lit "r1")) 0 0 true.

Lemma lasting_request_refused_across_restarts_witness :
  (admit_step 10 4 (request_step (restart_step closed_once) (Ok sent_again)) sent_again []).2 = Err Replayed.
Proof.
  destruct (accepted (restart_step closed_once)) as [|q l] eqn:Hq; [by vm_compute in Hq|].
  assert (q_durable q = true ∧ q_expires q = 10 ∧ q_key q = replay_key (lit "peer") (lit "close_task") (lit "r1"))
    as (Hdur & Hexp & Hkey) by (vm_compute in Hq; injection Hq as <- _; by vm_compute).
  apply (lasting_request_refused_across_restarts 10 4 0 _ q).
  - unfold U64_MAX. lia.
  - assert (check_request 10 (restart_step closed_once) (lit "peer") (lit "close_task") (lit "r1") (close_payload "r1" 1 0) = Ok sent_again) as <-
      by by vm_compute.
    apply reach_check; [|done]. apply reach_restart; [|done]. apply closed_once_reachable; [done|done| |done].
    intros q'. destruct (decide (q_expires q' = 10)) as [He|]; [left|by right]. cbn. split; [rewrite He; by vm_compute|].
    replace (removals sent_once) with (@nil str) by (by vm_compute). by apply not_elem_of_nil.
  - cbn [request_step accepted]. rewrite Hq. by left.
  - done.
  - by rewrite Hexp.
  - by left.
  - done.
Defined.

(** A copy that reads the clock while it is fresh and gets the mutex only after a later
    request has purged the record of the first is accepted again. *)
Definition copy_waits : Owner := request_step closed_once (check_request 10 closed_once (lit "peer") (lit "close_task") (lit "r1") (close_payload "r1" 0 0)).
Definition purged : Owner := (send 4 "r2" 11 (tick 11 copy_waits)).1.

Theorem stale_clock_is_accepted_again :
  reachable (step_of 10 4 (λ o a, match a with AAdmit _ => True | _ => timely 10 o a end)) (initial_owner 0)
    (finish_flight (admit_step 10 4 purged sent_again []).1)
  ∧ ¬ NoDup (q_id <$> accepted (finish_flight (admit_step 10 4 purged sent_again []).1)).
Proof.
  split.
  - eapply reach_finish; [|by vm_compute|done|done|done]. eapply reach_admit; [|by vm_compute|done].
    apply reach_send; [|done|done]. apply reach_tick; [|vm_compute; split; discriminate|done]. apply reach_check; [|done].
    apply closed_once_reachable; [done|done|by left|done].
  - apply (bool_decide_unpack (¬ _)). by vm_compute.
Qed.

(** Without the wait for outstanding removals a lasting request can be
    forgotten: its new record is written, then removed by the thread that was
    to remove the old one, and after a restart the request is taken again. *)
Definition resent : Owner := finish_flight (send 4 "r1" 20 (tick 20 closed_once)).1.

Definition late_removal : Owner :=
  mkOwner (clock resent) (epoch resent) (requests resent)
    (delete (replay_key (lit "peer") (lit "close_task") (lit "r1")) (disk resent)) [] (waiting resent) (flights resent)
    (accepted resent).

Theorem late_removal_forgets_a_request :
  reachable (step_of 10 4 (timely 10)) (initial_owner 0) (restart_step late_removal)
  ∧ (∃ q, q ∈ accepted late_removal ∧ q_durable q = true ∧ q_issued q = 20
       ∧ clock late_removal ≤ q_expires q
       ∧ q_key q = replay_key (lit "peer") (lit "close_task") (lit "r1"))
  ∧ is_ok (send 4 "r1" 20 (restart_step late_removal)).2 = true.
Proof.
  split_and!.
  - apply reach_restart; [|done].
    assert (reachable (step_of 10 4 (timely 10)) (initial_owner 0) resent) as Hr.
    { eapply reach_finish; [apply reach_send; [|done|done]|by vm_compute|done|done|done].
      apply reach_tick; [|vm_compute; split; discriminate|done].
      apply closed_once_reachable; [done|done|by left|done]. }
    eapply reachable_step; [exact Hr|]. eexists. split; [|by eapply (step_remove _ _ resent _ [] [])]. done.
  - destruct (accepted late_removal) as [|q l] eqn:Hq; [by vm_compute in Hq|].
    exists q. split; [by left|]. vm_compute in Hq. injection Hq as <- _. by vm_compute.
  - by vm_compute.
Qed.

(** A refused request purges the records it finds expired from memory, but
    leaves their files: nothing is queued to remove them. *)
Theorem refusal_leaves_expired_files :
  let o := finish_flight (send 4 "r2" 8 (tick 8 closed_once)).1 in
  let '(o', res) := send 4 "r2" 8 (tick 15 o) in
  let key := replay_key (lit "peer") (lit "close_task") (lit "r1") in
  res = Err Replayed ∧ requests o' !! key = None ∧ is_Some (disk o' !! key) ∧ removals o' = [].
Proof. vm_compute. repeat split. by eexists. Qed.
