(* ===== verification/Reaper.v ===== *)
(** * Reaping children ([crates/daemon/src/reaper.rs])

    One worker owns every child that was handed over, up to a capacity, polls
    each on its own deadline with a doubling delay, and escalates a survivor.
    The state is behind a mutex; the worker releases it while it polls, so
    admissions interleave with a poll.  Times are in milliseconds, [alive]
    tells what [waitpid] or [try_wait] reports, and the heap is the list of
    its items with the smallest one popped. *)

From S2P Require Import Prelude RustStd.
Local Open Scope Z_scope.

Definition POLL_MIN : Z := 20.
Definition POLL_MAX : Z := 200.
Definition ESCALATE_AFTER : Z := 400.

(** Seconds and microseconds. *)
Definition StartTime : Type := Z * Z.

(** A process id with its start time, which tells a recycled id apart. *)
Record ReapIdentity := mkIdentity { pid : Z; start : option StartTime }.

#[export] Instance ReapIdentity_eq_dec : EqDecision ReapIdentity.
Proof. solve_decision. Defined.

#[export] Instance ReapIdentity_countable : Countable ReapIdentity.
Proof.
  apply (inj_countable' (λ i, (pid i, start i)) (λ p, mkIdentity p.1 p.2)). by intros [].
Defined.

(** A [Child] carries its process handle, whose id is what counts. *)
Inductive ReapOwnership :=
  | Child (child : Z) (identity : ReapIdentity)
  | Pid (identity : ReapIdentity).

Definition ownership_identity (o : ReapOwnership) : ReapIdentity :=
  match o with
  | Child child identity => mkIdentity child (start identity)
  | Pid identity => identity
  end.

Inductive AdmissionError :=
  | Duplicate (ownership : ReapOwnership)
  | Full (ownership : ReapOwnership).

Definition into_ownership (e : AdmissionError) : ReapOwnership :=
  match e with Duplicate o | Full o => o end.

Record Pending := mkPending {
  ownership : ReapOwnership;
  admitted_at : Z;
  next_check : Z;
  poll_delay : Z;
  escalated : bool;
  schedule_id : Z
}.

Definition Item : Type := Z * Z * ReapIdentity.

(** [working] is what the worker has taken out and is polling.  The counts are u64s,
    which a process that reaps a child a nanosecond fills in five centuries; they are
    integers here. *)
Record ReaperState := mkReaper {
  entries : gmap ReapIdentity Pending;
  schedule : list Item;
  tracked : gset ReapIdentity;
  accepted : Z;
  reaped : Z;
  in_flight : nat;
  next_schedule_id : Z;
  working : option Pending
}.

Definition new_reaper : ReaperState := mkReaper ∅ [] ∅ 0 0 0 0 None.

(** ** Admission *)

(** [try_lock] fails while another thread holds the state. *)
Definition try_reap (capacity : nat) (lock_free : bool) (now : Z) (s : ReaperState)
    (o : ReapOwnership) : ReaperState * result unit AdmissionError :=
  let identity := ownership_identity o in
  if bool_decide (pid identity ≤ 1) then (s, Err (Duplicate o))
  else if negb lock_free then (s, Err (Full o))
  else if bool_decide (identity ∈ tracked s) then (s, Err (Duplicate o))
  else if bool_decide (capacity ≤ size (tracked s))%nat then (s, Err (Full o))
  else
    let id := next_schedule_id s in
    (mkReaper (<[identity := mkPending o now now POLL_MIN false id]> (entries s))
       ((now, id, identity) :: schedule s) ({[identity]} ∪ tracked s) (accepted s + 1) (reaped s)
       (in_flight s) (u64_add id 1) (working s), Ok ()).

(** ** The worker *)

Definition start_cmp (a b : StartTime) : comparison := then_with (a.1 ?= b.1) (a.2 ?= b.2).

#[export] Instance start_cmp_laws : OrdLaws start_cmp.
Proof. apply (then_with_laws (λ a : StartTime, a.1) (λ a : StartTime, a.2)); apply _. Qed.

Definition option_cmp {A} (cmp : A → A → comparison) (a b : option A) : comparison :=
  match a, b with
  | None, None => Eq
  | None, Some _ => Lt
  | Some _, None => Gt
  | Some x, Some y => cmp x y
  end.

#[export] Instance option_cmp_laws {A} (cmp : A → A → comparison) `{!OrdLaws cmp} :
  OrdLaws (option_cmp cmp).
Proof.
  split.
  - intros [x|] [y|]; cbn; try done. apply ord_antisym.
  - intros [x|] [y|] [z|]; cbn; try done. apply ord_eq.
  - intros [x|] [y|] [z|]; cbn; try done. apply ord_lt_trans.
Qed.

(** The derived orders: field after field. *)
Definition identity_cmp (a b : ReapIdentity) : comparison :=
  then_with (pid a ?= pid b) (option_cmp start_cmp (start a) (start b)).

#[export] Instance identity_cmp_laws : OrdLaws identity_cmp.
Proof. apply (then_with_laws pid start); apply _. Qed.

Definition key_cmp (a b : Z * ReapIdentity) : comparison :=
  then_with (a.1 ?= b.1) (identity_cmp a.2 b.2).

#[export] Instance key_cmp_laws : OrdLaws key_cmp.
Proof. apply (then_with_laws (λ a : Z * ReapIdentity, a.1) (λ a : Z * ReapIdentity, a.2)); apply _. Qed.

Definition item_cmp (a b : Item) : comparison :=
  then_with (a.1.1 ?= b.1.1) (key_cmp (a.1.2, a.2) (b.1.2, b.2)).

#[export] Instance item_cmp_laws : OrdLaws item_cmp.
Proof. apply (then_with_laws (λ a : Item, a.1.1) (λ a : Item, (a.1.2, a.2))); apply _. Qed.

(** [BinaryHeap<Reverse<_>>]: the least item and the others. *)
Definition pop (l : list Item) : option (Item * list Item) :=
  match sort_by (cmp_le item_cmp) l with [] => None | x :: rest => Some (x, rest) end.

Definition set_schedule (s : ReaperState) (l : list Item) : ReaperState :=
  mkReaper (entries s) l (tracked s) (accepted s) (reaped s) (in_flight s) (next_schedule_id s)
    (working s).

(** One turn of the inner loop: [None] is a wait, for work or for the earliest
    deadline; a stale item is dropped. *)
Definition worker_take (now : Z) (s : ReaperState) : option ReaperState :=
  match working s, pop (schedule s) with
  | None, Some ((deadline, id, identity), rest) =>
      if bool_decide (now < deadline) then None
      else
        match entries s !! identity with
        | Some p =>
            if schedule_id p =? id then
              Some (mkReaper (delete identity (entries s)) rest (tracked s) (accepted s) (reaped s)
                      (S (in_flight s)) (next_schedule_id s) (Some p))
            else Some (set_schedule s rest)
        | None => Some (set_schedule s rest)
        end
  | _, _ => None
  end.

(** [poll_pending] of a process that is still there; [now] is read twice. *)
Definition survive (elapsed_at now : Z) (p : Pending) : Pending :=
  mkPending (ownership p) (admitted_at p) (now + poll_delay p) (Z.min (poll_delay p * 2) POLL_MAX)
    (match ownership p with
     | Child _ _ => escalated p || bool_decide (ESCALATE_AFTER ≤ elapsed_at - admitted_at p)
     | Pid _ => escalated p
     end) (schedule_id p).

Definition poll_pending (alive : bool) (elapsed_at now : Z) (p : Pending) : Pending * bool :=
  if alive then (survive elapsed_at now p, false) else (p, true).

(** The poll, and what the worker does with its outcome. *)
Definition worker_finish (alive : bool) (elapsed_at now : Z) (s : ReaperState) : option ReaperState :=
  match working s with
  | None => None
  | Some p =>
      let '(p, completed) := poll_pending alive elapsed_at now p in
      let identity := ownership_identity (ownership p) in
      if completed then
        Some (mkReaper (entries s) (schedule s) (tracked s ∖ {[identity]}) (accepted s) (reaped s + 1)
                (pred (in_flight s)) (next_schedule_id s) None)
      else
        let id := next_schedule_id s in
        let p := mkPending (ownership p) (admitted_at p) (next_check p) (poll_delay p) (escalated p) id in
        Some (mkReaper (<[identity := p]> (entries s)) ((next_check p, id, identity) :: schedule s)
                (tracked s) (accepted s) (reaped s) (pred (in_flight s)) (u64_add id 1) None)
  end.

(** ** Ownership *)

(** Every tracked identity is either waiting, with an item of the heap that is
    its own, or in the worker's hands. *)
Record reaper_inv (capacity : nat) (s : ReaperState) : Prop := mkReaperInv {
  ri_tracked : tracked s = dom (entries s) ∪
    (match working s with Some p => {[ownership_identity (ownership p)]} | None => ∅ end);
  ri_disjoint : ∀ p, working s = Some p → entries s !! ownership_identity (ownership p) = None;
  ri_identity : ∀ i p, entries s !! i = Some p → ownership_identity (ownership p) = i;
  ri_item : ∀ i p, entries s !! i = Some p → (next_check p, schedule_id p, i) ∈ schedule s;
  ri_capacity : (size (tracked s) ≤ capacity)%nat;
  ri_flight : in_flight s = match working s with Some _ => 1%nat | None => 0%nat end;
  ri_count : accepted s = reaped s + Z.of_nat (size (tracked s));
  ri_delay : ∀ p, (∃ i, entries s !! i = Some p) ∨ working s = Some p →
    POLL_MIN ≤ poll_delay p ≤ POLL_MAX
}.

Lemma pop_spec l x rest :
  pop l = Some (x, rest) → l ≡ₚ x :: rest ∧ ∀ y, y ∈ l → cmp_le item_cmp x y = true.
Proof.
  unfold pop. intros H. assert (head (sort_by (cmp_le item_cmp) l) = Some x) as Hh
    by (destruct (sort_by (cmp_le item_cmp) l); simplify_eq/=; done).
  apply sort_by_head in Hh as [_ Hle]; [|apply _]. split; [|done].
  pose proof (sort_by_perm (cmp_le item_cmp) l) as Hp.
  destruct (sort_by (cmp_le item_cmp) l); simplify_eq. by symmetry.
Qed.

Lemma pop_None l : pop l = None → l = [].
Proof.
  unfold pop. intros H. pose proof (sort_by_perm (cmp_le item_cmp) l) as Hp.
  destruct (sort_by (cmp_le item_cmp) l); [|done]. by apply Permutation_nil_l in Hp.
Qed.

Lemma reaper_inv_admit capacity lock_free now s o :
  reaper_inv capacity s → reaper_inv capacity (try_reap capacity lock_free now s o).1.
Proof.
  intros Hinv. unfold try_reap. case_bool_decide; [done|]. destruct lock_free; [|done]. cbn [negb].
  case_bool_decide as Hdup; [done|]. case_bool_decide as Hcap; [done|].
  destruct Hinv as [I1 I2 I3 I4 I5 I6 I7 I8]. cbn zeta.
  assert (entries s !! ownership_identity o = None) as Hnew.
  { apply not_elem_of_dom. intros Hin. apply Hdup. rewrite I1. set_solver. }
  assert (size ({[ownership_identity o]} ∪ tracked s) = S (size (tracked s))) as Hsize
    by (rewrite size_union by set_solver; by rewrite size_singleton).
  constructor; cbn.
  - rewrite dom_insert_L, I1. set_solver.
  - intros p Hp. rewrite lookup_insert_ne; [by apply I2|]. intros He. apply Hdup. rewrite I1, Hp, He.
    set_solver.
  - intros i p [[<- <-]|[_ Hp]]%lookup_insert_Some; [done|by apply I3].
  - intros i p [[<- <-]|[_ Hp]]%lookup_insert_Some; [by left|right; by apply I4].
  - rewrite Hsize. lia.
  - done.
  - rewrite Hsize, I7. lia.
  - intros p [[i [[_ <-]|[_ Hp]]%lookup_insert_Some]|Hp]; [cbn; unfold POLL_MIN, POLL_MAX; lia|..];
      apply I8; eauto.
Qed.

Lemma reaper_inv_take capacity now s s' :
  worker_take now s = Some s' → reaper_inv capacity s → reaper_inv capacity s'.
Proof.
  unfold worker_take. destruct (working s) eqn:Hw; [done|].
  destruct (pop (schedule s)) as [[[[deadline id] identity] rest]|] eqn:Hpop; [|done].
  case_bool_decide as Hdue; [done|]. apply pop_spec in Hpop as [Hperm _].
  intros H [I1 I2 I3 I4 I5 I6 I7 I8].
  assert (∀ i p, entries s !! i = Some p → (next_check p, schedule_id p, i) ≠ (deadline, id, identity) →
            (next_check p, schedule_id p, i) ∈ rest) as Hkeep.
  { intros i p Hp Hne. specialize (I4 i p Hp). rewrite Hperm in I4. by apply elem_of_cons in I4 as [|]. }
  destruct (entries s !! identity) as [q|] eqn:Hq; [destruct (schedule_id q =? id) eqn:Hid|];
    simplify_eq; constructor; cbn; rewrite ?Hw in *; try done.
  - rewrite I1, (I3 _ _ Hq), dom_delete_L. assert (identity ∈ dom (entries s)) by (by eapply elem_of_dom_2).
    rewrite union_empty_r_L. apply set_eq. intros x. destruct (decide (x = identity)); set_solver.
  - intros p [= <-]. rewrite (I3 _ _ Hq). apply lookup_delete_eq.
  - intros i p [_ Hp]%lookup_delete_Some. by apply I3.
  - intros i p [Hne Hp]%lookup_delete_Some. apply Hkeep; [done|]. congruence.
  - by rewrite I6.
  - intros p [[i [_ Hp]%lookup_delete_Some]|[= <-]]; apply I8; eauto.
  - intros i p Hp. apply Hkeep; [done|]. intros [= _ Hid' ->]. apply Z.eqb_neq in Hid. congruence.
  - intros i p Hp. apply Hkeep; [done|]. congruence.
Qed.

Lemma reaper_inv_finish capacity alive elapsed_at now s s' :
  worker_finish alive elapsed_at now s = Some s' → reaper_inv capacity s → reaper_inv capacity s'.
Proof.
  unfold worker_finish, poll_pending. destruct (working s) as [p|] eqn:Hw; [|done].
  intros H [I1 I2 I3 I4 I5 I6 I7 I8]. rewrite Hw in *. specialize (I2 p eq_refl).
  assert (ownership_identity (ownership p) ∉ dom (entries s)) as Hnot by (by apply not_elem_of_dom).
  assert (size (tracked s) = S (size (dom (entries s)))) as Hsize
    by (rewrite I1, size_union by set_solver; rewrite size_singleton; lia).
  destruct alive; simplify_eq; constructor; cbn; try done.
  - rewrite dom_insert_L, I1. set_solver.
  - intros i q [[<- <-]|[_ Hq]]%lookup_insert_Some; [done|by apply I3].
  - intros i q [[<- <-]|[_ Hq]]%lookup_insert_Some; [by left|right; by apply I4].
  - by rewrite I6.
  - pose proof (I8 p (or_intror eq_refl)) as Hp.
    intros q [[i [[_ <-]|[_ Hq]]%lookup_insert_Some]|[=]]; [cbn; unfold POLL_MIN, POLL_MAX in *; lia|].
    apply I8; eauto.
  - rewrite I1. set_solver.
  - rewrite size_difference by set_solver. lia.
  - by rewrite I6.
  - rewrite size_difference by set_solver. rewrite size_singleton. lia.
  - intros q [Hq|[=]]. apply I8; auto.
Qed.

(** ** Executions *)

(** What the threads do, in the order the mutex serialises it. *)
Inductive ReaperEvent :=
  | Admit (lock_free : bool) (now : Z) (o : ReapOwnership)
  | Take (now : Z)
  | Finish (alive : bool) (elapsed_at now : Z).

Definition event_time (e : ReaperEvent) : Z :=
  match e with Admit _ now _ | Take now | Finish _ _ now => now end.

Definition is_take (e : ReaperEvent) : bool := match e with Take _ => true | _ => false end.

Definition reaper_event (capacity : nat) (s : ReaperState) (e : ReaperEvent) : option ReaperState :=
  match e with
  | Admit lock_free now o => Some (try_reap capacity lock_free now s o).1
  | Take now => worker_take now s
  | Finish alive elapsed_at now => worker_finish alive elapsed_at now s
  end.

Fixpoint reaper_run (capacity : nat) (s : ReaperState) (es : list ReaperEvent) : option ReaperState :=
  match es with
  | [] => Some s
  | e :: es => s' ← reaper_event capacity s e; reaper_run capacity s' es
  end.

Lemma reaper_inv_event capacity s e s' :
  reaper_event capacity s e = Some s' → reaper_inv capacity s → reaper_inv capacity s'.
Proof.
  destruct e; cbn; intros H.
  - intros. simplify_eq. by apply reaper_inv_admit.
  - by eapply reaper_inv_take.
  - by eapply reaper_inv_finish.
Qed.

Lemma reaper_inv_new capacity : reaper_inv capacity new_reaper.
Proof.
  constructor; cbn; try done; try (set_solver || lia).
  rewrite size_empty. lia.
Qed.

Lemma reaper_inv_run capacity es : ∀ s s',
  reaper_run capacity s es = Some s' → reaper_inv capacity s → reaper_inv capacity s'.
Proof.
  induction es as [|e es IH]; intros s s'; cbn; [by intros [= ->]|].
  destruct (reaper_event capacity s e) as [s1|] eqn:He; [|done]. cbn. intros H Hi.
  eapply IH; [done|]. by eapply reaper_inv_event.
Qed.

(** [stats], and [ReaperStats::outstanding]. *)
Record ReaperStats := mkStats {
  st_accepted : Z;
  st_reaped : Z;
  st_queued : nat;
  st_in_flight : nat;
  st_capacity : nat
}.

Definition outstanding (t : ReaperStats) : nat := st_queued t + st_in_flight t.

Definition stats (capacity : nat) (s : ReaperState) : ReaperStats :=
  mkStats (accepted s) (reaped s) (size (entries s)) (in_flight s) capacity.

(** C33: Whatever the threads do, in any order: the number of processes the
    reaper owns, waiting or being polled, is exactly the number accepted
    minus the number reaped and never exceeds the capacity; and an identity
    counts as owned exactly when it is in the worker's hands or waits with an
    item of its own in the heap, so no accepted process is forgotten. *)
Theorem reaper_accounts_for_every_process capacity es s :
  reaper_run capacity new_reaper es = Some s →
  Z.of_nat (outstanding (stats capacity s)) = accepted s - reaped s
  ∧ (outstanding (stats capacity s) ≤ capacity)%nat
  ∧ ∀ i, i ∈ tracked s ↔
      (∃ p, working s = Some p ∧ ownership_identity (ownership p) = i)
      ∨ ∃ p, entries s !! i = Some p ∧ (next_check p, schedule_id p, i) ∈ schedule s.
Proof.
  intros H. pose proof (reaper_inv_run _ _ _ _ H (reaper_inv_new capacity)) as [I1 I2 I3 I4 I5 I6 I7 I8].
  assert (outstanding (stats capacity s) = size (tracked s)) as ->.
  { unfold outstanding, stats. cbn. rewrite I1, I6. destruct (working s) as [p|] eqn:Hw.
    - rewrite size_union, size_dom, size_singleton; [done|]. specialize (I2 p eq_refl).
      apply not_elem_of_dom in I2. set_solver.
    - rewrite union_empty_r_L, size_dom. lia. }
  split_and!; [lia|done|]. intros i. rewrite I1, elem_of_union, elem_of_dom. unfold is_Some. split.
  - intros [[p Hp]|Hi]; [right; eauto|]. left. destruct (working s) as [p|]; set_solver.
  - intros [(p & -> & <-)|(p & Hp & _)]; [right; set_solver|left; eauto].
Qed.

Lemma reaper_accounts_for_every_process_witness :
  ∃ s, reaper_run 2 new_reaper
         [Admit true 0 (Pid (mkIdentity 7 None)); Take 1; Admit true 1 (Pid (mkIdentity 8 None));
          Admit true 1 (Pid (mkIdentity 9 None)); Finish false 1 1; Take 2; Finish true 2 2] = Some s
    ∧ Z.of_nat (outstanding (stats 2 s)) = accepted s - reaped s ∧ accepted s = 2
    ∧ (outstanding (stats 2 s) ≤ 2)%nat.
Proof.
  destruct (reaper_run 2 new_reaper
         [Admit true 0 (Pid (mkIdentity 7 None)); Take 1; Admit true 1 (Pid (mkIdentity 8 None));
          Admit true 1 (Pid (mkIdentity 9 None)); Finish false 1 1; Take 2; Finish true 2 2]) as [s|] eqn:H;
    [|by vm_compute in H].
  exists s. destruct (reaper_accounts_for_every_process _ _ _ H) as (H1 & H2 & _).
  split_and!; [done|done| |done]. vm_compute in H. by injection H as <-.
Defined.

(** ** Deadlines *)

Lemma start_cmp_eq a b : start_cmp a b = Eq → a = b.
Proof.
  destruct a as [a1 a2], b as [b1 b2]. unfold start_cmp, then_with. cbn [fst snd].
  destruct (Z.compare_spec a1 b1); try done. intros ->%Z.compare_eq_iff. congruence.
Qed.

Lemma item_cmp_eq (a b : Item) : item_cmp a b = Eq → a = b.
Proof.
  destruct a as [[a1 a2] [p u]], b as [[b1 b2] [q v]].
  unfold item_cmp, key_cmp, identity_cmp, then_with. cbn [fst snd pid start].
  destruct (Z.compare_spec a1 b1); try done. destruct (Z.compare_spec a2 b2); try done.
  destruct (Z.compare_spec p q); try done. destruct u, v; cbn; try done; [|congruence].
  intros ->%start_cmp_eq. congruence.
Qed.

Definition is_before (y x : Item) : bool := match item_cmp x y with Lt => true | _ => false end.

Definition items_before (y : Item) (l : list Item) : nat := length (List.filter (is_before y) l).

(** The items that the worker takes before the one of [p]. *)
Definition ahead (i : ReapIdentity) (p : Pending) (s : ReaperState) : nat :=
  items_before (next_check p, schedule_id p, i) (schedule s).

Lemma items_before_perm y l k : l ≡ₚ k → items_before y l = items_before y k.
Proof. unfold items_before. induction 1; cbn; repeat case_match; cbn; congruence. Qed.

Lemma items_before_later (y x : Item) l : y.1.1 < x.1.1 → items_before y (x :: l) = items_before y l.
Proof.
  intros H. unfold items_before, is_before, item_cmp. cbn.
  assert (x.1.1 ?= y.1.1 = Gt) as -> by (by apply Z.compare_gt_iff). done.
Qed.

Lemma items_before_popped (y x : Item) l k :
  l ≡ₚ x :: k → item_cmp x y = Lt → (items_before y k + 1 ≤ items_before y l)%nat.
Proof.
  intros Hp H. rewrite (items_before_perm _ _ _ Hp). unfold items_before, is_before. cbn. rewrite H. cbn. lia.
Qed.

Arguments items_before : simpl never.

Section ahead.
Context (capacity : nat) (i : ReapIdentity) (p : Pending) (s : ReaperState).
Hypothesis (Hinv : reaper_inv capacity s) (Hp : entries s !! i = Some p).

Lemma ahead_admit lock_free now o (s' := (try_reap capacity lock_free now s o).1) :
  next_check p < now → entries s' !! i = Some p ∧ ahead i p s' = ahead i p s.
Proof using Hinv Hp.
  intros Ht. unfold s', try_reap, ahead. case_bool_decide; [done|]. destruct lock_free; [|done]. cbn [negb].
  case_bool_decide as Hdup; [done|]. case_bool_decide; [done|]. cbn [fst entries schedule]. split.
  - rewrite lookup_insert_ne; [done|]. intros <-. apply Hdup. rewrite (ri_tracked _ _ Hinv).
    apply elem_of_union_l. by eapply elem_of_dom_2.
  - by rewrite items_before_later.
Qed.

Lemma ahead_take now s' :
  worker_take now s = Some s' →
  working s' = Some p ∨ entries s' !! i = Some p ∧ (ahead i p s' + 1 ≤ ahead i p s)%nat.
Proof using Hinv Hp.
  unfold worker_take, ahead. destruct (working s); [done|].
  destruct (pop (schedule s)) as [[[[deadline id] identity] rest]|] eqn:Hpop; [|done].
  apply pop_spec in Hpop as [Hperm Hle]. pose proof (Hle _ (ri_item _ _ Hinv _ _ Hp)) as Hx.
  case_bool_decide; [done|]. unfold cmp_le in Hx.
  destruct (item_cmp (deadline, id, identity) (next_check p, schedule_id p, i)) eqn:Hcmp; [|..]; [| |done].
  - apply item_cmp_eq in Hcmp. injection Hcmp as -> -> ->. rewrite Hp, Z.eqb_refl. intros [= <-]. by left.
  - pose proof (items_before_popped _ _ _ _ Hperm Hcmp) as Hr. destruct (decide (identity = i)) as [->|Hi].
    + rewrite Hp. destruct (schedule_id p =? id); intros [= <-]; [by left|by right].
    + destruct (entries s !! identity) as [q|]; [destruct (schedule_id q =? id)|]; intros [= <-]; right;
        cbn [set_schedule entries schedule]; rewrite ?lookup_delete_ne by done; done.
Qed.

Lemma ahead_finish alive elapsed_at now s' :
  worker_finish alive elapsed_at now s = Some s' → next_check p < now →
  entries s' !! i = Some p ∧ ahead i p s' = ahead i p s.
Proof using Hinv Hp.
  unfold worker_finish, poll_pending, ahead. destruct (working s) as [q|] eqn:Hw; [|done].
  destruct alive; intros [= <-] Ht; [|done]. cbn [entries schedule]. split.
  - rewrite lookup_insert_ne; [done|]. intros <-. pose proof (ri_disjoint _ _ Hinv q Hw) as Hq.
    cbn [survive ownership] in Hp. by rewrite Hq in Hp.
  - rewrite items_before_later; [done|]. cbn. pose proof (ri_delay _ _ Hinv q (or_intror Hw)).
    unfold POLL_MIN in *. lia.
Qed.
End ahead.

Lemma ahead_step capacity i p e s s' :
  reaper_inv capacity s → entries s !! i = Some p → next_check p < event_time e →
  reaper_event capacity s e = Some s' →
  working s' = Some p
  ∨ entries s' !! i = Some p ∧ (ahead i p s' + (if is_take e then 1 else 0) ≤ ahead i p s)%nat.
Proof.
  intros Hinv Hp Ht H. destruct e as [lock_free now o|now|alive elapsed_at now];
    cbn [event_time reaper_event is_take] in *.
  - simplify_eq. right. destruct (ahead_admit _ _ _ _ Hinv Hp lock_free now o Ht) as [? ->].
    split; [done|lia].
  - by eapply ahead_take.
  - right. destruct (ahead_finish _ _ _ _ Hinv Hp _ _ _ _ H Ht) as [? ->]. split; [done|lia].
Qed.

(** A due process keeps the worker from waiting. *)
Lemma due_process_is_work capacity i p now s :
  reaper_inv capacity s → entries s !! i = Some p → next_check p ≤ now → working s = None →
  is_Some (worker_take now s).
Proof.
  intros Hinv Hp Ht Hw. unfold worker_take. rewrite Hw. pose proof (ri_item _ _ Hinv _ _ Hp) as Hin.
  destruct (pop (schedule s)) as [[[[deadline id] identity] rest]|] eqn:Hpop.
  - apply pop_spec in Hpop as [_ Hle]. specialize (Hle _ Hin). rewrite bool_decide_false.
    + destruct (entries s !! identity) as [q|]; [destruct (schedule_id q =? id)|]; done.
    + intros Hlt. unfold cmp_le, item_cmp in Hle. cbn [fst snd] in Hle.
      assert (deadline ?= next_check p = Gt) as Hgt by (apply Z.compare_gt_iff; lia).
      by rewrite Hgt in Hle.
  - apply pop_None in Hpop. rewrite Hpop in Hin. by apply not_elem_of_nil in Hin.
Qed.

Lemma ahead_run capacity i p es : ∀ s s',
  reaper_inv capacity s → entries s !! i = Some p → Forall (λ e, next_check p < event_time e) es →
  reaper_run capacity s es = Some s' →
  (∃ es1 es2 s1, es = es1 ++ es2 ∧ reaper_run capacity s es1 = Some s1 ∧ working s1 = Some p)
  ∨ entries s' !! i = Some p ∧ (ahead i p s' + length (List.filter is_take es) ≤ ahead i p s)%nat.
Proof.
  induction es as [|e es IH]; intros s s' Hinv Hp Ht; cbn [reaper_run].
  - intros [= <-]. right. cbn. by split; [|lia].
  - apply Forall_cons in Ht as [Hte Ht]. destruct (reaper_event capacity s e) as [s1|] eqn:He; [|done].
    cbn [mbind option_bind]. intros Hrun.
    destruct (ahead_step _ _ _ _ _ _ Hinv Hp Hte He) as [Hw|[Hp1 Ha]].
    + left. exists [e], es, s1. by rewrite <- He; cbn; destruct (reaper_event capacity s e).
    + destruct (IH s1 s' (reaper_inv_event _ _ _ _ He Hinv) Hp1 Ht Hrun) as [(es1 & es2 & s2 & -> & Hr & Hw)|[Hp2 Ha2]].
      * left. exists (e :: es1), es2, s2. cbn. by rewrite He.
      * right. split; [done|]. cbn [List.filter]. destruct (is_take e); cbn [length]; lia.
Qed.

Definition identity_at (pid : Z) : ReapIdentity := mkIdentity pid (Some (pid, 0)).

(** New work cannot postpone the check of an older process. Take a
    process that waits and is due, with [n] items before it in the heap:
    whatever is admitted and polled meanwhile, in any order, the worker has
    taken it by its [n + 1]st turn; and while it waits the worker never goes
    to sleep. *)
Theorem new_work_cannot_postpone capacity i p es s s' :
  reaper_inv capacity s → entries s !! i = Some p →
  Forall (λ e, next_check p < event_time e) es → reaper_run capacity s es = Some s' →
  ((ahead i p s < length (List.filter is_take es))%nat →
     ∃ es1 es2 s1, es = es1 ++ es2 ∧ reaper_run capacity s es1 = Some s1 ∧ working s1 = Some p)
  ∧ (entries s' !! i = Some p → working s' = None →
     ∀ now, next_check p ≤ now → is_Some (worker_take now s')).
Proof.
  intros Hinv Hp Ht Hrun. split.
  - intros Hn. destruct (ahead_run _ _ _ _ _ _ Hinv Hp Ht Hrun) as [?|[_ Ha]]; [done|lia].
  - intros Hp' Hw now Hnow. eapply due_process_is_work; [|done..]. by eapply reaper_inv_run.
Qed.

Lemma new_work_cannot_postpone_witness :
  ∃ es s s',
    reaper_run 3 new_reaper [Admit true 0 (Pid (identity_at 7)); Admit true 0 (Pid (identity_at 8))] = Some s
    ∧ es = [Admit true 5 (Pid (identity_at 9)); Take 5; Finish true 5 5; Take 6]
    ∧ reaper_run 3 s es = Some s' ∧ ownership <$> working s' = Some (Pid (identity_at 8))
    ∧ ∃ es1 es2 s1, es = es1 ++ es2 ∧ reaper_run 3 s es1 = Some s1
        ∧ working s1 = Some (mkPending (Pid (identity_at 8)) 0 0 POLL_MIN false 1).
Proof.
  pose (s0 := reaper_run 3 new_reaper
                [Admit true 0 (Pid (identity_at 7)); Admit true 0 (Pid (identity_at 8))]).
  destruct s0 as [s|] eqn:Hs; [|by vm_compute in Hs].
  pose (s1 := reaper_run 3 s [Admit true 5 (Pid (identity_at 9)); Take 5; Finish true 5 5; Take 6]).
  destruct s1 as [s'|] eqn:Hs'.
  2: { vm_compute in Hs. injection Hs as <-. by vm_compute in Hs'. }
  exists [Admit true 5 (Pid (identity_at 9)); Take 5; Finish true 5 5; Take 6], s, s'.
  split_and!; [done|done|done| |].
  - vm_compute in Hs. injection Hs as <-. vm_compute in Hs'. by injection Hs' as <-.
  - refine (proj1 (new_work_cannot_postpone 3 (identity_at 8) _ _ s s' _ _ _ Hs') _).
    + by eapply reaper_inv_run; [exact Hs|apply reaper_inv_new].
    + vm_compute in Hs. by injection Hs as <-.
    + cbn. repeat constructor.
    + vm_compute in Hs. injection Hs as <-. vm_compute. lia.
Defined.
