(* ===== verification/EventLog.v ===== *)
(** * The event log of a visual companion ([crates/visual-companion/src/event.rs])

    A click in a companion page is appended to a log, one JSON object a line.
    A marker file, named by a digest of the event's id, is written before the
    line with the offset it goes to, and renamed when the line is on disk; a
    process that takes over finishes what a marker says was begun.  The state is
    the directory of one session: the log with its inode, and the marker files.
    Every call to the operating system may fail, and a write may leave a part of
    its bytes: [IO] takes what happens from a list of faults.  A process that
    dies leaves what a failure at that point leaves, so a call that a fault ends
    is also one that a crash cuts short.  Calls exclude each other by the lock on
    the log.  Serialization, the digest and the rest of the session's directory
    come from outside; a new log has an inode no earlier one had; links, ownership
    and loss of power are not modelled. *)

From S2P Require Import Prelude RustStd Utf8.
Local Open Scope Z_scope.

Record CompanionEvent := mkEvent {
  session_id : str;
  revision : str;
  event_id : str;
  event_type : str;
  choice : str;
  text : str;
  element_id : option str;
  timestamp : Z
}.

#[export] Instance CompanionEvent_eq_dec : EqDecision CompanionEvent.
Proof. solve_decision. Defined.

Inductive CompanionError :=
  TaskNotFound | WorkspaceUnavailable | TooLarge | UnsupportedContent | StaleRevision | InvalidEvent | Internal.

Definition MAX_COMPANION_EVENT_BYTES : Z := 8192.
Definition MAX_CHOICE_BYTES : Z := 256.
Definition MAX_ELEMENT_ID_BYTES : Z := 256.
Definition MAX_TEXT_BYTES : Z := 4096.
Definition MAX_EVENT_ID_BYTES : Z := 128.
Definition MAX_EVENT_MARKER_BYTES : Z := MAX_COMPANION_EVENT_BYTES + 32.
Definition MAX_EVENT_IDENTITIES_PER_SESSION : Z := 2048.

Definition MAX_COMPANION_DIRECTORY_ENTRIES : Z := 4096.
Definition MAX_COMPANION_DIRECTORY_NAME_BYTES : Z := 256 * 1024.

(** The largest file: offsets are signed. *)
Definition MAX_FILE : Z := 9223372036854775807.

Definition size {A} (l : list A) : Z := Z.of_nat (length l).

(** ** What comes from outside *)

Class CompanionJson := {
  to_vec : CompanionEvent → list byte;
  from_slice : list byte → option CompanionEvent
}.

(** A value of the Rust type: its strings are strings, its integer fits. *)
Definition rust_event (e : CompanionEvent) : Prop :=
  valid_str (session_id e) ∧ valid_str (revision e) ∧ valid_str (event_id e) ∧ valid_str (event_type e)
  ∧ valid_str (choice e) ∧ valid_str (text e) ∧ is_u64 (timestamp e)
  ∧ match element_id e with Some s => valid_str s | None => True end.

Class CompanionJsonLaws `{!CompanionJson} := {
  json_event (e : CompanionEvent) : rust_event e → from_slice (to_vec e) = Some e;
  json_one_line (e : CompanionEvent) : rust_event e → 10 ∉ to_vec e
}.

Class Sha256 := {
  digest : list byte → list byte;
  digest_bytes (l : list byte) : Forall is_u8 (digest l);
  digest_length (l : list byte) : length (digest l) = 32%nat
}.

(** ** The directory *)

(** [events]: the inode of the log and its bytes. *)
Record Disk := mkDisk {
  events : option (nat * list byte);
  markers : option (gmap str (list byte));
  next_inode : nat
}.

Definition log (d : Disk) : list byte := match events d with Some (_, l) => l | None => [] end.
Definition inode (d : Disk) : nat := match events d with Some (i, _) => i | None => 0%nat end.
Definition dir (d : Disk) : gmap str (list byte) := default ∅ (markers d).

Definition set_log (d : Disk) (l : list byte) : Disk :=
  mkDisk (match events d with Some (i, _) => Some (i, l) | None => None end) (markers d) (next_inode d).

Definition set_dir (d : Disk) (m : gmap str (list byte)) : Disk := mkDisk (events d) (Some m) (next_inode d).

(** ** Fallible calls *)

(** [Fails n] is a failure, in a write after [n] bytes; past the end of the list
    nothing fails. *)
Inductive Fault := Done | Fails (written : nat).

Definition IO (A : Type) : Type := Disk → list Fault → Disk * list Fault * result A CompanionError.

#[export] Instance io_ret : MRet IO := λ A a d fs, (d, fs, Ok a).
#[export] Instance io_bind : MBind IO := λ A B k m d fs,
  match m d fs with
  | (d1, fs1, Ok a) => k a d1 fs1
  | (d1, fs1, Err e) => (d1, fs1, Err e)
  end.

Definition throw {A} (e : CompanionError) : IO A := λ d fs, (d, fs, Err e).
Definition lift {A} (r : result A CompanionError) : IO A := λ d fs, (d, fs, r).
Definition look : IO Disk := λ d fs, (d, fs, Ok d).

Definition attempt (e : CompanionError) (f : Disk → Disk) (torn : nat → Disk → Disk) : IO unit :=
  λ d fs, match fs with
          | Fails n :: fs => (torn n d, fs, Err e)
          | Done :: fs => (f d, fs, Ok tt)
          | [] => (f d, [], Ok tt)
          end.

(** A call that changes nothing we follow, one that changes the directory or not
    at all, and a write. *)
Definition call : IO unit := attempt Internal id (λ _, id).
Definition update (f : Disk → Disk) : IO unit := attempt Internal f (λ _, id).
Definition write (f : list byte → Disk → Disk) (bytes : list byte) : IO unit :=
  attempt Internal (f bytes) (λ n, f (take (n `min` (length bytes - 1)) bytes)).

(** Looking again whether the workspace, the session and the revision are the
    ones the caller names. *)
Definition revalidate : IO unit := attempt StaleRevision id (λ _, id).

Definition append_log (bytes : list byte) : IO unit :=
  d ← look;
  if MAX_FILE <? size (log d) + size bytes then throw Internal
  else write (λ b d, set_log d (log d ++ b)) bytes.

Definition lookup_marker (name : str) : IO (option (list byte)) :=
  call;; d ← look; mret (dir d !! name).

Definition remove_marker_file (name : str) : IO unit :=
  update (λ d, set_dir d (delete name (dir d)));; call.

Definition rename_marker_file (from to : str) : IO unit :=
  update (λ d, match dir d !! from with
               | Some b => set_dir d (<[to := b]> (delete from (dir d)))
               | None => d
               end);; call.

(** Whether the file was not there. *)
Definition create_marker_file (name : str) : IO bool :=
  d ← look;
  if bool_decide (is_Some (dir d !! name)) then call;; mret false
  else update (λ d, set_dir d (<[name := []]> (dir d)));; mret true.

Definition names_of (m : gmap str (list byte)) : list str :=
  sort_by (cmp_le str_cmp) (map fst (map_to_list m)).

(** The names are counted as they are read, in whatever order they come. *)
Record DirectoryBudget := mkBudget { entries : Z; name_bytes : Z }.

Definition charge (b : DirectoryBudget) (bytes : Z) : option DirectoryBudget :=
  let b := mkBudget (u64_saturating_add (entries b) 1) (u64_saturating_add (name_bytes b) bytes) in
  if (MAX_COMPANION_DIRECTORY_ENTRIES <? entries b) || (MAX_COMPANION_DIRECTORY_NAME_BYTES <? name_bytes b)
  then None else Some b.

Definition charge_names (names : list str) : option DirectoryBudget :=
  foldl (λ b name, b ← b; charge b (size (utf8 name))) (Some (mkBudget 0 0)) names.

Definition marker_directory_names : IO (list str) :=
  call;; d ← look;
  match charge_names (map fst (map_to_list (dir d))) with
  | Some _ => mret (names_of (dir d))
  | None => throw TooLarge
  end.

Definition open_append_regular_file : IO bool :=
  call;; d ← look;
  match events d with
  | Some _ => call;; mret false
  | None =>
      update (λ d, mkDisk (Some (next_inode d, [])) (markers d) (S (next_inode d)));; call;; mret true
  end.

Definition open_or_create_directory : IO unit :=
  d ← look;
  match markers d with
  | Some _ => call;; call
  | None => update (λ d, set_dir d ∅);; call;; call
  end.

(** ** Names *)

Definition PENDING : str := lit ".pending".
Definition COMMITTED : str := lit ".committed".
Definition EVENT_GENERATION_MARKER_PREFIX : str := lit "events-generation-".

Definition str_ends_with (s suf : str) : bool := str_starts_with (reverse s) (reverse suf).

Definition is_pending (name : str) : bool := str_ends_with name PENDING.
Definition is_committed (name : str) : bool := str_ends_with name COMMITTED.
Definition is_generation (name : str) : bool := str_starts_with name EVENT_GENERATION_MARKER_PREFIX.
Definition is_event_identity_marker (name : str) : bool := is_pending name || is_committed name.

(** [Path::components] has one component, which is a name. *)
Definition is_normal_component (value : str) : bool :=
  negb (bool_decide (value = [])) && negb (bool_decide (0 ∈ value))
  && negb (str_starts_with value [47])
  && match split_on 47 value with
     | first :: rest =>
         match (if bool_decide (first = lit ".") then [first] else [])
               ++ filter (λ c, c ≠ [] ∧ c ≠ lit ".") (first :: rest) with
         | [c] => negb (bool_decide (c = lit ".")) && negb (bool_decide (c = lit ".."))
         | _ => false
         end
     | [] => false
     end.

Section journal.
Context `{!CompanionJson, !Sha256} (dev : Z).

Definition marker_names (id : str) : str * str :=
  let hex := hex_bytes (digest (utf8 id)) in (hex ++ PENDING, hex ++ COMMITTED).

Definition event_generation_marker_name (ino : nat) : str :=
  EVENT_GENERATION_MARKER_PREFIX ++ hex dev ++ lit "-" ++ hex (Z.of_nat ino).

(** ** Events and markers *)

Definition validate_event (e : CompanionEvent) : result (list byte) CompanionError :=
  if negb (bool_decide (event_type e = lit "click")) || bool_decide (choice e = [])
     || (MAX_CHOICE_BYTES <? size (utf8 (choice e)))
     || match element_id e with Some s => MAX_ELEMENT_ID_BYTES <? size (utf8 s) | None => false end
     || (MAX_TEXT_BYTES <? size (utf8 (text e)))
     || bool_decide (event_id e = []) || (MAX_EVENT_ID_BYTES <? size (utf8 (event_id e)))
  then Err InvalidEvent
  else
    let serialized := to_vec e in
    if MAX_COMPANION_EVENT_BYTES <? size serialized then Err InvalidEvent else Ok serialized.

(** What a record read back must satisfy. *)
Definition acceptable (e : CompanionEvent) : bool :=
  negb (bool_decide (session_id e = [])) && negb (bool_decide (revision e = [])) && is_ok (validate_event e).

Definition marker_line (offset : nat) (serialized : list byte) : list byte :=
  decimal (Z.of_nat offset) ++ 10 :: serialized ++ [10].

Definition read_marker (bytes : list byte) : option (nat * CompanionEvent) :=
  if bool_decide (bytes = []) then None
  else if MAX_EVENT_MARKER_BYTES <? size bytes then None
  else if bool_decide (last bytes ≠ Some 10) then None
  else
    let body := take (length bytes - 1) bytes in
    separator ← position (Z.eqb 10) body;
    offset_text ← from_utf8 (take separator body);
    offset ← parse_u64 offset_text;
    event ← from_slice (drop (S separator) body);
    if acceptable event then Some (Z.to_nat offset, event) else None.

Definition write_marker (name : str) (offset : nat) (serialized : list byte) : IO unit :=
  call;;
  update (λ d, set_dir d (<[name := []]> (dir d)));;
  write (λ b d, set_dir d (<[name := default [] (dir d !! name) ++ b]> (dir d))) (marker_line offset serialized);;
  call.

(** The record at the start of [rest], read byte by byte; [room] more bytes may
    come before the line is too long. *)
Fixpoint read_record (room : Z) (rest : list byte) : option (list byte) :=
  match rest with
  | [] => None
  | b :: rest =>
      if b =? 10 then Some []
      else if room <=? 0 then None
      else line ← read_record (room - 1) rest; Some (b :: line)
  end.

Definition event_at_offset (events : list byte) (offset : nat) (candidate : CompanionEvent)
    : result bool CompanionError :=
  if (length events <=? offset)%nat then Ok false
  else
    match read_record MAX_COMPANION_EVENT_BYTES (drop offset events) with
    | None => Err Internal
    | Some line =>
        match from_slice line with
        | None => Err Internal
        | Some existing =>
            if negb (acceptable existing) then Err Internal
            else if bool_decide (event_id existing = event_id candidate) then
              if bool_decide (existing = candidate) then Ok true else Err InvalidEvent
            else Ok false
        end
    end.

(** ** The tail of a log without markers *)

Inductive LegacyTailRepair := Intact | Truncate (len : nat) | Oversized.

Definition inspect_legacy_event_log_tail (events : list byte) : LegacyTailRepair :=
  if bool_decide (events = []) then Intact
  else
    let inspection_len := (length events `min` S (Z.to_nat MAX_COMPANION_EVENT_BYTES))%nat in
    let inspection_start := (length events - inspection_len)%nat in
    let buffer := drop inspection_start events in
    if bool_decide (last buffer = Some 10) then Intact
    else
      match rposition (Z.eqb 10) buffer with
      | Some index => Truncate (inspection_start + index + 1)
      | None => if size events <=? MAX_COMPANION_EVENT_BYTES then Truncate 0 else Oversized
      end.

Definition repair_partial_legacy_event_log_tail : IO unit :=
  call;; d ← look;
  match inspect_legacy_event_log_tail (log d) with
  | Intact => mret tt
  | Oversized => throw Internal
  | Truncate complete_len => update (λ d, set_log d (take complete_len (log d)));; call
  end.

(** ** Finishing what was begun *)

Definition complete_pending_event (offset : nat) (event : CompanionEvent) (serialized : list byte) : IO unit :=
  let line := serialized ++ [10] in
  call;; d ← look;
  let file_len := length (log d) in
  if (file_len <? offset)%nat then throw Internal
  else
    let available := ((file_len - offset) `min` length line)%nat in
    let existing := take available (drop offset (log d)) in
    if bool_decide (existing ≠ take available line) then
      call;; found ← lift (event_at_offset (log d) offset event);
      if (found : bool) then mret tt else throw Internal
    else
      (if (available <? length line)%nat then
         if bool_decide (file_len ≠ offset + available)%nat then throw Internal
         else append_log (drop available line)
       else mret tt);;
      call.

Definition recover_pending_markers : IO (list str) :=
  names ← marker_directory_names;
  match filter (λ n, is_pending n = true) names with
  | [] => mret names
  | [pending_name] =>
      marker ← lookup_marker pending_name;
      match marker with
      | None => throw Internal
      | Some bytes =>
          let others := filter (λ n, n ≠ pending_name) names in
          call;;
          match read_marker bytes with
          | None => remove_marker_file pending_name;; mret others
          | Some (offset, event) =>
              let '(expected_pending, committed_name) := marker_names (event_id event) in
              if bool_decide (pending_name ≠ expected_pending) then throw Internal
              else
                serialized ← lift (validate_event event);
                complete_pending_event offset event serialized;;
                committed ← lookup_marker committed_name;
                match committed with
                | Some bytes =>
                    call;;
                    match read_marker bytes with
                    | None => throw Internal
                    | Some p =>
                        if bool_decide (p ≠ (offset, event)) then throw Internal
                        else remove_marker_file pending_name;; mret others
                    end
                | None => rename_marker_file pending_name committed_name;; mret (others ++ [committed_name])
                end
          end
      end
  | _ => throw Internal
  end.

(** ** Generations of the log *)

Fixpoint clear_event_journal (names : list str) : IO unit :=
  match names with
  | [] => mret tt
  | name :: names =>
      marker ← lookup_marker name;
      match marker with
      | None => throw Internal
      | Some _ => remove_marker_file name;; clear_event_journal names
      end
  end.

Definition create_event_generation_marker (name : str) : IO unit :=
  created ← create_marker_file name;
  if (created : bool) then call;; call else throw Internal.

Fixpoint legacy_journal_matches_current_log (names : list str) (current : CompanionEvent) : IO bool :=
  match names with
  | [] => mret true
  | name :: names =>
      if negb (is_event_identity_marker name) then legacy_journal_matches_current_log names current
      else
        marker ← lookup_marker name;
        match marker with
        | None => throw Internal
        | Some bytes =>
            call;;
            match read_marker bytes with
            | None => if is_pending name then legacy_journal_matches_current_log names current else throw Internal
            | Some (offset, event) =>
                if bool_decide (session_id event ≠ session_id current)
                   || bool_decide (revision event ≠ revision current) then mret false
                else if is_committed name then
                  call;; d ← look;
                  match event_at_offset (log d) offset event with
                  | Ok true => legacy_journal_matches_current_log names current
                  | Ok false | Err InvalidEvent => mret false
                  | Err e => throw e
                  end
                else legacy_journal_matches_current_log names current
            end
        end
  end.

Definition reconcile_event_journal_generation (events_created : bool) (current : CompanionEvent) : IO unit :=
  names ← marker_directory_names;
  call;; d ← look;
  let expected_generation := event_generation_marker_name (inode d) in
  let generations := filter (λ n, is_generation n = true) names in
  let generation_changed :=
    match generations with
    | [] => false
    | [name] => bool_decide (name ≠ expected_generation)
    | _ => true
    end in
  legacy_mismatch ←
    (if bool_decide (generations = []) && negb events_created then
       matches ← legacy_journal_matches_current_log names current; mret (negb matches)
     else mret false);
  names ← (if (events_created && bool_decide (generations = [])) || generation_changed || legacy_mismatch
           then clear_event_journal names;; mret ([] : list str)
           else mret names);
  if bool_decide (expected_generation ∈ names) then mret tt
  else create_event_generation_marker expected_generation.

(** ** The operation *)

Definition append_new_event (marker_entries : list str) (e : CompanionEvent) (serialized : list byte) : IO unit :=
  let '(pending_name, committed_name) := marker_names (event_id e) in
  if MAX_EVENT_IDENTITIES_PER_SESSION <=? size (filter (λ n, is_event_identity_marker n = true) marker_entries)
  then throw Internal
  else
    created ← create_marker_file pending_name;
    if negb (created : bool) then throw Internal
    else
      call;; d ← look;
      write_marker pending_name (length (log d)) serialized;;
      call;;
      revalidate;;
      append_log (serialized ++ [10]);;
      call;;
      rename_marker_file pending_name committed_name.

Definition confirm_committed_event (bytes : list byte) (e : CompanionEvent) : IO unit :=
  call;;
  match read_marker bytes with
  | None => throw Internal
  | Some (offset, existing) =>
      if bool_decide (event_id existing ≠ event_id e) then throw Internal
      else if bool_decide (existing ≠ e) then throw InvalidEvent
      else
        call;; d ← look;
        found ← lift (event_at_offset (log d) offset e);
        if (found : bool) then mret tt else throw Internal
  end.

Definition append_event (session revision_ : str) (e : CompanionEvent) : IO unit :=
  serialized ← lift (validate_event e);
  if negb (is_normal_component session) then throw StaleRevision
  else
    revalidate;;
    if bool_decide (session_id e ≠ session) || bool_decide (revision e ≠ revision_) then throw InvalidEvent
    else
      revalidate;;
      created ← open_append_regular_file;
      call;;
      open_or_create_directory;;
      reconcile_event_journal_generation created e;;
      marker_entries ← recover_pending_markers;
      repair_partial_legacy_event_log_tail;;
      committed ← lookup_marker (marker_names (event_id e)).2;
      match committed with
      | Some bytes => confirm_committed_event bytes e
      | None => append_new_event marker_entries e serialized
      end;;
      call;;
      revalidate.
End journal.
