(* ===== verification/EventLogProofs.v ===== *)
(** * The journal of a companion's events

    About [EventLog].  A triple calculus over [IO] ([wp]) says what every prefix
    of an operation may leave; [holds] says which directories a journal in use may
    have (a base that was there before, the lines of the events whose markers are
    renamed, and what an interrupted call left), [dead] which a removed or new log
    may have.  Every call goes from one to another of them, so that no event is
    logged twice, none that was acknowledged is lost, and no failure blocks later
    calls.  The last part shows what happens when a log is removed although an
    event was begun. *)

From S2P Require Import Prelude RustStd Utf8 EventLog.
Local Open Scope Z_scope.

(** ** Reasoning about calls *)

(** From [d] the operation ends well with [Q] or badly with [E], whatever fails;
    where nothing fails it ends badly only for the reason [X]. *)
Definition wp {A} (X : Prop) (m : IO A) (d : Disk) (Q : A → Disk → Prop) (E : Disk → Prop) : Prop :=
  ∀ fs, match m d fs with
        | (d', fs', Ok a) => Q a d' ∧ (fs = [] → fs' = [])
        | (d', fs', Err _) => E d' ∧ (fs = [] → X)
        end.

Section rules.
Context (X : Prop).

Lemma wp_ret {A} (a : A) d Q E : Q a d → wp X (mret a) d Q E.
Proof. intros H fs. by split. Qed.

Lemma wp_throw {A} e d (Q : A → Disk → Prop) (E : Disk → Prop) : E d → X → wp X (throw e) d Q E.
Proof. intros H Hx fs. by split. Qed.

Lemma wp_lift {A} (r : result A CompanionError) d (Q : A → Disk → Prop) (E : Disk → Prop) :
  match r with Ok a => Q a d | Err _ => E d ∧ X end → wp X (lift r) d Q E.
Proof. intros H fs. destruct r; [by split|]. by destruct H. Qed.

Lemma wp_look d Q E : Q d d → wp X look d Q E.
Proof. intros H fs. by split. Qed.

Lemma wp_bind {A B} (m : IO A) (k : A → IO B) d Q E :
  wp X m d (λ a d', wp X (k a) d' Q E) E → wp X (m ≫= k) d Q E.
Proof.
  intros H fs. specialize (H fs). unfold mbind, io_bind. destruct (m d fs) as [[d1 fs1] [a|e]]; [|done].
  destruct H as [H Hfs]. specialize (H fs1). destruct (k a d1 fs1) as [[d2 fs2] [b|e]]; destruct H as [H Hf]; split; auto.
Qed.

Lemma wp_mono {A} (m : IO A) d (Q Q' : A → Disk → Prop) (E E' : Disk → Prop) :
  wp X m d Q E → (∀ a d', Q a d' → Q' a d') → (∀ d', E d' → E' d') → wp X m d Q' E'.
Proof. intros H HQ HE fs. specialize (H fs). destruct (m d fs) as [[d1 fs1] [a|e]]; destruct H; split; auto. Qed.

Lemma wp_attempt e f torn d (Q : unit → Disk → Prop) (E : Disk → Prop) :
  Q tt (f d) → (∀ n, E (torn n d)) → wp X (attempt e f torn) d Q E.
Proof. intros HQ HE fs. unfold attempt. destruct fs as [|[|n] fs]; split; done. Qed.

Lemma wp_call d (Q : unit → Disk → Prop) (E : Disk → Prop) : E d → Q tt d → wp X call d Q E.
Proof. intros HE HQ. by apply wp_attempt. Qed.

Lemma wp_revalidate d (Q : unit → Disk → Prop) (E : Disk → Prop) : E d → Q tt d → wp X revalidate d Q E.
Proof. intros HE HQ. by apply wp_attempt. Qed.

Lemma wp_update f d (Q : unit → Disk → Prop) (E : Disk → Prop) : E d → Q tt (f d) → wp X (update f) d Q E.
Proof. intros HE HQ. by apply wp_attempt. Qed.

Lemma wp_write f bytes d (Q : unit → Disk → Prop) (E : Disk → Prop) :
  bytes ≠ [] → (∀ n, (n < length bytes)%nat → E (f (take n bytes) d)) → Q tt (f bytes d) → wp X (write f bytes) d Q E.
Proof.
  intros Hb HE HQ. apply wp_attempt; [done|]. intros n. apply HE. destruct bytes; [done|]. cbn. lia.
Qed.

Lemma wp_append_log bytes d (Q : unit → Disk → Prop) (E : Disk → Prop) :
  bytes ≠ [] → E d → (MAX_FILE < size (log d) + size bytes → X) →
  (size (log d) + size bytes ≤ MAX_FILE →
     (∀ n, (n < length bytes)%nat → E (set_log d (log d ++ take n bytes))) ∧ Q tt (set_log d (log d ++ bytes))) →
  wp X (append_log bytes) d Q E.
Proof.
  intros Hb Hd Hx HQ. apply wp_bind, wp_look. destruct (Z.ltb_spec MAX_FILE (size (log d) + size bytes)) as [Hs|Hs].
  - apply wp_throw; auto.
  - apply HQ in Hs as [HE Hq]. by apply wp_write.
Qed.

Lemma wp_lookup_marker name d (Q : option (list byte) → Disk → Prop) (E : Disk → Prop) :
  E d → Q (dir d !! name) d → wp X (lookup_marker name) d Q E.
Proof. intros HE HQ. apply wp_bind, wp_call; [done|]. apply wp_bind, wp_look. by apply wp_ret. Qed.

Lemma wp_names d (Q : list str → Disk → Prop) (E : Disk → Prop) :
  E d → (charge_names (map fst (map_to_list (dir d))) = None → X) → Q (names_of (dir d)) d → wp X marker_directory_names d Q E.
Proof.
  intros HE Hx HQ. apply wp_bind, wp_call; [done|]. apply wp_bind, wp_look.
  destruct (charge_names _); [by apply wp_ret|apply wp_throw; auto].
Qed.

Lemma wp_remove name d (Q : unit → Disk → Prop) (E : Disk → Prop) :
  E d → E (set_dir d (delete name (dir d))) → Q tt (set_dir d (delete name (dir d))) →
  wp X (remove_marker_file name) d Q E.
Proof. intros H1 H2 HQ. apply wp_bind, wp_update; [done|]. by apply wp_call. Qed.

Lemma wp_rename from to b d (Q : unit → Disk → Prop) (E : Disk → Prop) :
  dir d !! from = Some b → E d → E (set_dir d (<[to := b]> (delete from (dir d)))) →
  Q tt (set_dir d (<[to := b]> (delete from (dir d)))) → wp X (rename_marker_file from to) d Q E.
Proof. intros Hb H1 H2 HQ. apply wp_bind, wp_update; [done|]. rewrite Hb. by apply wp_call. Qed.

Lemma wp_create name d (Q : bool → Disk → Prop) (E : Disk → Prop) :
  dir d !! name = None → E d → Q true (set_dir d (<[name := []]> (dir d))) → wp X (create_marker_file name) d Q E.
Proof.
  intros Hn H1 HQ. apply wp_bind, wp_look. rewrite bool_decide_false by (rewrite Hn; by intros [? ?]).
  apply wp_bind, wp_update; [done|]. by apply wp_ret.
Qed.
End rules.

(** ** Names *)

Lemma starts_with_true (pre l : list Z) : str_starts_with l pre = true ↔ ∃ r, l = pre ++ r.
Proof. unfold str_starts_with. rewrite starts_with_prefix; [|intros; apply Z.eqb_eq]. done. Qed.

Lemma ends_with_true (s suf : str) : str_ends_with s suf = true ↔ ∃ p, s = p ++ suf.
Proof.
  unfold str_ends_with. rewrite starts_with_true. split; intros [r Hr].
  - exists (reverse r). rewrite <- (reverse_involutive s), Hr, reverse_app, reverse_involutive. done.
  - exists (reverse r). by rewrite Hr, reverse_app.
Qed.

Lemma in_names (m : gmap str (list byte)) n : n ∈ names_of m ↔ is_Some (m !! n).
Proof.
  unfold names_of. rewrite sort_by_perm. split.
  - intros ([k b] & -> & Hk)%list_elem_of_fmap. apply elem_of_map_to_list in Hk. by exists b.
  - intros [b Hb]. apply list_elem_of_fmap. exists (n, b). split; [done|]. by apply elem_of_map_to_list.
Qed.

Lemma NoDup_names (m : gmap str (list byte)) : NoDup (names_of m).
Proof. unfold names_of. rewrite sort_by_perm. apply NoDup_fst_map_to_list. Qed.

(** Filters of the names of a directory. *)
Lemma filter_none {A} (P : A → Prop) `{∀ x, Decision (P x)} l : (∀ x, x ∈ l → ¬ P x) → filter P l = [].
Proof.
  intros H1. destruct (filter P l) as [|x k] eqn:Hf; [done|].
  assert (x ∈ filter P l) as [? ?]%list_elem_of_filter by (rewrite Hf; by left). by destruct (H1 x).
Qed.

Lemma filter_one {A} (P : A → Prop) `{∀ x, Decision (P x)} l x :
  NoDup l → x ∈ l → P x → (∀ y, y ∈ l → P y → y = x) → filter P l = [x].
Proof.
  intros Hn Hx Hp Hu. apply Permutation_singleton_r, NoDup_Permutation; [by apply NoDup_filter|apply NoDup_singleton|].
  intros y. rewrite list_elem_of_filter, list_elem_of_singleton. split; [intros [? ?]; by apply Hu|intros ->; done].
Qed.

(** A directory of few and short names is within the budget. *)
Lemma charge_small e b n :
  0 ≤ e → 0 ≤ b → 0 ≤ n → e + 1 ≤ MAX_COMPANION_DIRECTORY_ENTRIES → b + n ≤ MAX_COMPANION_DIRECTORY_NAME_BYTES →
  charge (mkBudget e b) n = Some (mkBudget (e + 1) (b + n)).
Proof.
  intros. unfold charge, u64_saturating_add. cbn [entries name_bytes].
  rewrite !Z.min_l by (unfold MAX_COMPANION_DIRECTORY_ENTRIES, MAX_COMPANION_DIRECTORY_NAME_BYTES, U64_MAX in *; lia).
  by rewrite (proj2 (Z.ltb_ge _ _)), (proj2 (Z.ltb_ge _ _)) by done.
Qed.

Lemma charge_names_small names :
  Forall (λ n, size (utf8 n) ≤ 80) names → size names ≤ 3000 → charge_names names ≠ None.
Proof.
  intros Hb Hs. unfold charge_names.
  assert (∀ e b, 0 ≤ e → 0 ≤ b → e + size names ≤ MAX_COMPANION_DIRECTORY_ENTRIES →
            b + 80 * size names ≤ MAX_COMPANION_DIRECTORY_NAME_BYTES →
            foldl (λ b name, b ← b; charge b (size (utf8 name))) (Some (mkBudget e b)) names ≠ None) as H.
  2:{ unfold MAX_COMPANION_DIRECTORY_ENTRIES, MAX_COMPANION_DIRECTORY_NAME_BYTES in H. apply H; lia. }
  clear Hs. induction Hb as [|n names Hn Hns IH]; intros e b H1 H2 H3 H4; [done|]. cbn [foldl mbind option_bind].
  unfold size in *. cbn [length] in *. rewrite charge_small by lia. apply IH; lia.
Qed.

(** ** The log's own names and records *)

Definition line `{!CompanionJson} (e : CompanionEvent) : list byte := to_vec e ++ [10].
Definition render `{!CompanionJson} (es : list CompanionEvent) : list byte := mjoin (map line es).

Section names.
Context {CJ : CompanionJson} {SH : Sha256} (dev : Z).

Definition pend (e : CompanionEvent) : str := (marker_names (event_id e)).1.
Definition key (e : CompanionEvent) : str := (marker_names (event_id e)).2.
Definition gen (ino : nat) : str := event_generation_marker_name dev ino.

Lemma hex_of_id id : Forall (λ c, is_ascii_hexdigit c = true) (hex_bytes (digest (utf8 id))).
Proof. apply hex_bytes_digits, digest_bytes. Qed.

Lemma pend_key e f : pend e = pend f ↔ key e = key f.
Proof. unfold pend, key, marker_names. cbn. split; by intros ->%app_inv_tail. Qed.

Lemma key_event_id e f : event_id e = event_id f → key e = key f.
Proof. unfold key. by intros ->. Qed.

Lemma is_pending_pend id : is_pending (marker_names id).1 = true.
Proof. apply ends_with_true. by eexists. Qed.
Lemma is_committed_key id : is_committed (marker_names id).2 = true.
Proof. apply ends_with_true. by eexists. Qed.
Lemma is_pending_key id : is_pending (marker_names id).2 = false.
Proof. unfold is_pending, str_ends_with, marker_names. cbn [snd]. by rewrite reverse_app. Qed.
Lemma is_committed_pend id : is_committed (marker_names id).1 = false.
Proof. unfold is_committed, str_ends_with, marker_names. cbn [fst]. by rewrite reverse_app. Qed.

Lemma not_generation id suf : (118 ∉ suf) → suf ≠ [] → head suf = Some 46 →
  is_generation (hex_bytes (digest (utf8 id)) ++ suf) = false.
Proof.
  intros Hs Hne Hh. apply not_true_iff_false. intros [r Hr]%starts_with_true.
  assert (118 ∈ hex_bytes (digest (utf8 id)) ++ suf) as [Hin|Hin]%elem_of_app.
  { rewrite Hr. apply elem_of_app. left. vm_compute. right. left. }
  - pose proof (hex_of_id id) as Hd. rewrite Forall_forall in Hd. by apply Hd in Hin.
  - done.
Qed.

Lemma is_generation_pend id : is_generation (marker_names id).1 = false.
Proof. apply not_generation; [by apply (bool_decide_unpack _)|done|done]. Qed.
Lemma is_generation_key id : is_generation (marker_names id).2 = false.
Proof. apply not_generation; [by apply (bool_decide_unpack _)|done|done]. Qed.

Lemma is_generation_gen ino : is_generation (gen ino) = true.
Proof. apply starts_with_true. by eexists. Qed.

Lemma gen_no_dot ino : 0 ≤ dev → 46 ∉ gen ino.
Proof.
  intros Hdev Hin. unfold gen, event_generation_marker_name in Hin. rewrite !elem_of_app in Hin.
  destruct Hin as [Hin|[Hin|[Hin|Hin]]].
  - revert Hin. by apply (bool_decide_unpack (46 ∉ _)).
  - pose proof (hex_digits dev Hdev) as Hd. rewrite Forall_forall in Hd. by apply Hd in Hin.
  - revert Hin. by apply (bool_decide_unpack (46 ∉ _)).
  - pose proof (hex_digits (Z.of_nat ino) ltac:(lia)) as Hd. rewrite Forall_forall in Hd. by apply Hd in Hin.
Qed.

Lemma gen_not_identity ino : 0 ≤ dev → is_pending (gen ino) = false ∧ is_committed (gen ino) = false.
Proof.
  intros Hdev. pose proof (gen_no_dot ino Hdev) as Hn.
  split; apply not_true_iff_false; intros [p Hp]%ends_with_true; apply Hn; rewrite Hp; apply elem_of_app; right; left.
Qed.

Lemma gen_inj i j : gen i = gen j → i = j.
Proof.
  unfold gen, event_generation_marker_name. intros Hx%app_inv_head%app_inv_head%app_inv_head.
  apply Nat2Z.inj, hex_inj; [lia..|done].
Qed.

Lemma pend_ne_key id id' : (marker_names id).1 ≠ (marker_names id').2.
Proof. intros Hx. pose proof (is_pending_pend id) as H1. rewrite Hx, is_pending_key in H1. done. Qed.
Lemma gen_ne_pend ino id : gen ino ≠ (marker_names id).1.
Proof. intros Hx. pose proof (is_generation_gen ino) as H1. rewrite Hx, is_generation_pend in H1. done. Qed.
Lemma gen_ne_key ino id : gen ino ≠ (marker_names id).2.
Proof. intros Hx. pose proof (is_generation_gen ino) as H1. rewrite Hx, is_generation_key in H1. done. Qed.
End names.

(** ** Records and markers are read back *)

Section records.
Context {CJ : CompanionJson} {CJL : CompanionJsonLaws}.

(** A value that a record may hold. *)
Definition good_event (e : CompanionEvent) : Prop := rust_event e ∧ acceptable e = true.

Lemma acceptable_serialized e : acceptable e = true → validate_event e = Ok (to_vec e) ∧ size (to_vec e) ≤ MAX_COMPANION_EVENT_BYTES.
Proof.
  unfold acceptable. rewrite !andb_true_iff. intros [_ H]. unfold validate_event in *.
  destruct (negb _ || _ || _ || _ || _ || _ || _); [done|].
  destruct (Z.ltb_spec MAX_COMPANION_EVENT_BYTES (size (to_vec e))); [done|]. by split.
Qed.

Lemma utf8_ascii (s : str) : Forall (λ c, 0 ≤ c < 128) s → utf8 s = s.
Proof.
  induction 1 as [|c s Hc Hs IH]; [done|]. rewrite utf8_cons, IH. unfold encode_utf8.
  by rewrite (proj2 (Z.ltb_lt _ _)) by lia.
Qed.

Lemma from_utf8_decimal n : 0 ≤ n → from_utf8 (decimal n) = Some (decimal n).
Proof.
  intros Hn. pose proof (decimal_digits n Hn) as Hd. rewrite <- (utf8_ascii (decimal n)) at 1.
  - apply from_utf8_utf8. eapply Forall_impl; [exact Hd|]. intros c Hc. cbn in Hc. unfold is_char. lia.
  - eapply Forall_impl; [exact Hd|]. cbn. lia.
Qed.

Lemma decimal_no_newline n : 0 ≤ n → forallb (λ c, negb (10 =? c)) (decimal n) = true.
Proof.
  intros Hn. apply forallb_forall. intros c Hc. pose proof (decimal_digits n Hn) as Hd.
  rewrite Forall_forall in Hd. apply list_elem_of_In, Hd in Hc. cbn in Hc. lia.
Qed.

Lemma position_newline (a b : list byte) : 10 ∉ a → position (Z.eqb 10) (a ++ 10 :: b) = Some (length a).
Proof.
  induction a as [|c a IH]; intros Ha; [done|]. cbn [app position length]. apply not_elem_of_cons in Ha as [Hc Ha].
  rewrite (proj2 (Z.eqb_neq 10 c)) by done. by rewrite IH.
Qed.

Lemma position_no_newline (a : list byte) : 10 ∉ a → position (Z.eqb 10) a = None.
Proof.
  induction a as [|c a IH]; intros Ha; [done|]. cbn [app position length]. apply not_elem_of_cons in Ha as [Hc Ha].
  rewrite (proj2 (Z.eqb_neq 10 c)) by done. by rewrite IH.
Qed.

Lemma decimal_not_in n : 0 ≤ n → 10 ∉ decimal n.
Proof. intros Hn Hin. pose proof (decimal_digits n Hn) as Hd. rewrite Forall_forall in Hd. apply Hd in Hin. cbn in Hin. lia. Qed.

Lemma removelast_snoc {A} (l : list A) x : take (length (l ++ [x]) - 1) (l ++ [x]) = l.
Proof. rewrite length_app. cbn. replace (length l + 1 - 1)%nat with (length l) by lia. by rewrite take_app_length. Qed.

Lemma length_marker_line o (s : list byte) :
  length (marker_line o s) = (length (decimal (Z.of_nat o)) + length s + 2)%nat.
Proof. unfold marker_line. rewrite !length_app. cbn [length]. rewrite length_app. cbn [length]. lia. Qed.

Lemma read_marker_line (o : nat) e :
  good_event e → is_u64 (Z.of_nat o) → read_marker (marker_line o (to_vec e)) = Some (o, e).
Proof.
  intros [Hr Ha] Ho. pose proof (acceptable_serialized e Ha) as [_ Hs]. pose proof (decimal_length (Z.of_nat o) Ho) as Hd.
  unfold read_marker. rewrite (proj2 (Z.ltb_ge _ _)).
  2:{ unfold size in *. rewrite length_marker_line. unfold MAX_EVENT_MARKER_BYTES. lia. }
  unfold marker_line. set (D := decimal (Z.of_nat o)) in *.
  rewrite bool_decide_false by (intros Hx; symmetry in Hx; by apply app_cons_not_nil in Hx).
  change (D ++ 10 :: to_vec e ++ [10]) with (D ++ [10] ++ to_vec e ++ [10]). rewrite (assoc_L (++) [10]), (assoc_L (++) D).
  rewrite bool_decide_false by (rewrite last_snoc; auto). rewrite removelast_snoc. cbn [app].
  rewrite position_newline by (apply decimal_not_in; lia). cbn [mbind option_bind]. rewrite take_app_length.
  unfold D. rewrite from_utf8_decimal by lia. cbn [mbind option_bind]. rewrite parse_u64_decimal by done. cbn [mbind option_bind].
  rewrite drop_app_ge, Nat.sub_succ_l, Nat.sub_diag by lia. cbn [skipn]; rewrite drop_0, json_event by done. cbn [mbind option_bind]. by rewrite Ha, Nat2Z.id.
Qed.

(** A marker that was not written to its end is not read. *)
Lemma read_marker_torn (o : nat) e n :
  good_event e → (n < length (marker_line o (to_vec e)))%nat → read_marker (take n (marker_line o (to_vec e))) = None.
Proof.
  intros [Hr Ha] Hn. unfold marker_line in *. set (D := decimal (Z.of_nat o)) in *.
  assert (10 ∉ D) as HD by (apply decimal_not_in; lia). pose proof (json_one_line e Hr) as He. clearbody D.
  unfold read_marker. case_bool_decide as H0; [done|]. destruct (_ <? _); [done|].
  case_bool_decide as Hl; [done|].
  assert (take n (D ++ 10 :: to_vec e ++ [10]) = D ++ [10]) as ->.
  { destruct (decide (n ≤ length D)%nat) as [Hd|Hd].
    - rewrite take_app_le in Hl by done. exfalso. apply HD. apply last_Some_elem_of in Hl.
      rewrite <- (take_drop n D). apply elem_of_app. by left.
    - rewrite take_app_ge in * by lia. f_equal. destruct (n - length D)%nat as [|[|m]] eqn:Hm; [lia|done|exfalso].
      rewrite !length_app in Hn. cbn [length] in Hn. rewrite length_app in Hn. cbn [length] in Hn.
      change (take (S (S m)) (10 :: to_vec e ++ [10])) with (10 :: take (S m) (to_vec e ++ [10])) in Hl.
      rewrite take_app_le in Hl by lia. apply He.
      destruct (take (S m) (to_vec e)) as [|c l] eqn:Ht; [destruct (to_vec e); [cbn in Hn; lia|done]|].
      rewrite last_app_cons in Hl. change (last (c :: l) = Some 10) in Hl. rewrite <- Ht in Hl.
      apply last_Some_elem_of in Hl. rewrite <- (take_drop (S m) (to_vec e)). apply elem_of_app. by left. }
  rewrite removelast_snoc, position_no_newline by done. done.
Qed.

Lemma read_record_line (room : Z) (l rest : list byte) :
  10 ∉ l → size l ≤ room → read_record room (l ++ 10 :: rest) = Some l.
Proof.
  revert room. induction l as [|b l IH]; intros room Hl Hs; [done|]. apply not_elem_of_cons in Hl as [Hb Hl].
  unfold size in Hs. cbn [length] in Hs. cbn [app read_record]. rewrite (proj2 (Z.eqb_neq b 10)) by done.
  rewrite (proj2 (Z.leb_gt _ _)) by lia. rewrite IH; [done|done|unfold size; lia].
Qed.

Lemma line_ne e : line e ≠ [].
Proof. unfold line. by destruct (to_vec e). Qed.

Lemma length_line e : length (line e) = S (length (to_vec e)).
Proof. unfold line. rewrite length_app. cbn. lia. Qed.

(** The record where a marker says it is. *)
Lemma event_at_line (a rest : list byte) e :
  good_event e → event_at_offset (a ++ line e ++ rest) (length a) e = Ok true.
Proof.
  intros [Hr Ha]. pose proof (acceptable_serialized e Ha) as [_ Hs]. unfold event_at_offset.
  rewrite (proj2 (Nat.leb_gt _ _)) by (rewrite !length_app, length_line; lia).
  rewrite drop_app_length. unfold line. rewrite <- (assoc_L (++)). cbn [app].
  rewrite read_record_line by (try apply json_one_line; done). rewrite json_event, Ha by done. cbn [negb].
  by rewrite !bool_decide_true.
Qed.

Lemma event_at_end (l : list byte) e : event_at_offset l (length l) e = Ok false.
Proof. unfold event_at_offset. by rewrite Nat.leb_refl. Qed.
End records.

(** ** Whole lines *)

Definition ends_line (l : list byte) : Prop := l = [] ∨ last l = Some 10.

(** What is left of a log when a line cut short at its end is dropped. *)
Definition whole_lines (l : list byte) : list byte :=
  match rposition (Z.eqb 10) l with Some i => take (S i) l | None => [] end.

Lemma last_take_lookup {A} (l : list A) i x : l !! i = Some x → last (take (S i) l) = Some x.
Proof. intros Hl. rewrite (take_S_r _ _ _ Hl). apply last_snoc. Qed.

Lemma whole_lines_end l : ends_line (whole_lines l).
Proof.
  unfold whole_lines. destruct (rposition (Z.eqb 10) l) as [i|] eqn:Hp; [right|by left].
  apply rposition_Some in Hp as [(x & Hx & Hb) _]. apply Z.eqb_eq in Hb as <-. by apply last_take_lookup.
Qed.

Lemma last_drop {A} (l : list A) k : (k < length l)%nat → last (drop k l) = last l.
Proof.
  intros Hk. rewrite <- (take_drop k l) at 2. destruct (drop k l) as [|x r] eqn:Hd.
  - apply (f_equal length) in Hd. rewrite length_drop in Hd. cbn in Hd. lia.
  - by rewrite last_app_cons.
Qed.

(** Only the end of the log is inspected, but the answer is about the whole. *)
Lemma inspect_tail l :
  match inspect_legacy_event_log_tail l with
  | Intact => ends_line l
  | Truncate n => ¬ ends_line l ∧ take n l = whole_lines l
  | Oversized => ¬ ends_line l
  end.
Proof.
  unfold inspect_legacy_event_log_tail. case_bool_decide as H0; [by left|].
  set (k := (length l - _)%nat). set (w := S (Z.to_nat MAX_COMPANION_EVENT_BYTES)) in *.
  assert (k < length l)%nat as Hk by (destruct l; [done|]; subst k w; cbn [length]; lia).
  case_bool_decide as Hl; [right; by rewrite last_drop in Hl|].
  destruct (rposition (Z.eqb 10) (drop k l)) as [i|] eqn:Hp.
  - split; [rewrite last_drop in Hl by done; by intros [?|?]|].
    unfold whole_lines. rewrite <- (take_drop k l) at 2. rewrite rposition_app, Hp.
    rewrite length_take, Nat.min_l by lia. f_equal. lia.
  - rewrite last_drop in Hl by done. assert (¬ ends_line l) as Hne by (by intros [?|?]).
    destruct (Z.leb_spec (size l) MAX_COMPANION_EVENT_BYTES) as [Hs|Hs]; [|done]. split; [done|].
    assert (k = 0%nat) as Hk0 by (subst k w; unfold size in Hs; lia). rewrite Hk0, drop_0 in Hp.
    unfold whole_lines. by rewrite Hp.
Qed.

(** ** What the directory of a session holds *)

(** A marker that is not complete yet, or an event with a marker and the first
    [n] bytes of its line. *)
Inductive Unfinished := Nothing | Torn (name : str) (bytes : list byte) | Begun (e : CompanionEvent) (n : nat).

Definition begun (u : Unfinished) (e : CompanionEvent) : Prop := ∃ n, u = Begun e n.
Definition finished (u : Unfinished) : list CompanionEvent := match u with Begun e _ => [e] | _ => [] end.

Section state.
Context {CJ : CompanionJson} {CJL : CompanionJsonLaws} {SH : Sha256}.
Context (dev : Z) (Hdev : 0 ≤ dev) (Hdev64 : dev ≤ U64_MAX) (legacy : list byte).

Fixpoint committed_files (o : nat) (es : list CompanionEvent) : gmap str (list byte) :=
  match es with
  | [] => ∅
  | e :: es => <[key e := marker_line o (to_vec e)]> (committed_files (o + length (line e)) es)
  end.

Definition content (base : list byte) (es : list CompanionEvent) (u : Unfinished) : list byte :=
  base ++ render es ++ match u with Begun e n => take n (line e) | _ => [] end.

Definition files (ino : nat) (base : list byte) (es : list CompanionEvent) (u : Unfinished) : gmap str (list byte) :=
  let m := <[gen dev ino := []]> (committed_files (length base) es) in
  match u with
  | Nothing => m
  | Torn name b => <[name := b]> m
  | Begun e _ => <[pend e := marker_line (length base + length (render es)) (to_vec e)]> m
  end.

Record holds (d : Disk) (ino : nat) (base : list byte) (es : list CompanionEvent) (u : Unfinished) : Prop := mkHolds {
  h_events : events d = Some (ino, content base es u);
  h_dir : dir d = files ino base es u;
  h_inode : (ino < next_inode d)%nat;
  h_keys : NoDup (key <$> es);
  h_good : Forall good_event es;
  h_base : base = [] ∨ base = legacy ∨ base = whole_lines legacy;
  h_ends : ends_line base ∨ es = [] ∧ ∀ e, ¬ begun u e;
  h_unfinished :
    match u with
    | Nothing => True
    | Torn name b => read_marker b = None ∧ ∃ id, name = (marker_names id).1
    | Begun e n => good_event e ∧ key e ∉ key <$> es ∧ (n ≤ length (line e))%nat
    end;
  h_size : size (content base es u) ≤ MAX_FILE;
  h_count : size es + match u with Nothing => 0 | _ => 1 end ≤ MAX_EVENT_IDENTITIES_PER_SESSION
}.

(** A log without markers of its own: those there are are of earlier logs. *)
Definition left_over (d : Disk) (k : str) (b : list byte) : Prop :=
  (∃ i, k = gen dev i ∧ (i < next_inode d)%nat ∧ ∀ j l, events d = Some (j, l) → i ≠ j)
  ∨ (∃ o f, good_event f ∧ is_u64 (Z.of_nat o) ∧ k = key f ∧ b = marker_line o (to_vec f))
  ∨ (∃ id, k = (marker_names id).1 ∧ read_marker b = None).

Record dead (d : Disk) : Prop := mkDead {
  d_names k b : dir d !! k = Some b → left_over d k b;
  d_torn k k' : is_Some (dir d !! k) → is_Some (dir d !! k') → is_pending k = true → is_pending k' = true → k = k';
  d_log j l : events d = Some (j, l) →
    (j < next_inode d)%nat ∧ size l ≤ MAX_FILE
    ∧ (l = [] ∨ l = legacy ∧ ∀ k, is_Some (dir d !! k) → is_event_identity_marker k = false);
  d_count : (base.size (dir d) ≤ 2050)%nat
}.

(** ** The marker directory as a map *)

Lemma render_events_app es es' : render (es ++ es') = render es ++ render es'.
Proof using Type. unfold render. by rewrite map_app, join_app. Qed.
Lemma render_one e : render [e] = line e.
Proof using Type. apply app_nil_r. Qed.
Lemma render_cons e es : render (e :: es) = line e ++ render es.
Proof using Type. done. Qed.

Lemma committed_lookup_ne o es k : k ∉ key <$> es → committed_files o es !! k = None.
Proof using Type.
  revert o. induction es as [|e es IH]; intros o Hk; [done|]. cbn [committed_files].
  rewrite fmap_cons, not_elem_of_cons in Hk. destruct Hk as [Hk Hes]. rewrite lookup_insert_ne by done. by apply IH.
Qed.

Lemma committed_lookup o es k b :
  NoDup (key <$> es) →
  committed_files o es !! k = Some b ↔
  ∃ i e, es !! i = Some e ∧ k = key e ∧ b = marker_line (o + length (render (take i es))) (to_vec e).
Proof using Type.
  revert o. induction es as [|e es IH]; intros o Hn; cbn [committed_files].
  - split; [done|by intros (i & f & Hi & _)].
  - rewrite fmap_cons, NoDup_cons in Hn. destruct Hn as [He Hn]. rewrite lookup_insert_Some, IH by done. split.
    + intros [[<- <-]|[_ (i & f & Hi & -> & ->)]].
      * exists 0%nat, e. split_and!; [done|done|]. cbn. by rewrite Nat.add_0_r.
      * exists (S i), f. split_and!; [done|done|]. rewrite firstn_cons, render_cons, length_app. f_equal. lia.
    + intros (i & f & Hi & -> & ->). destruct i as [|i].
      * injection Hi as ->. left. split; [done|]. cbn. by rewrite Nat.add_0_r.
      * right. split; [|exists i, f; split_and!; [done|done|]; rewrite firstn_cons, render_cons, length_app; f_equal; lia].
        intros Heq. apply He. rewrite Heq. apply list_elem_of_fmap. exists f. split; [done|]. by eapply list_elem_of_lookup_2.
Qed.

Lemma committed_files_app o es e :
  key e ∉ key <$> es →
  committed_files o (es ++ [e]) = <[key e := marker_line (o + length (render es)) (to_vec e)]> (committed_files o es).
Proof using Type.
  revert o. induction es as [|f es IH]; intros o He; cbn [app committed_files].
  - cbn. by rewrite Nat.add_0_r.
  - rewrite fmap_cons, not_elem_of_cons in He. destruct He as [Hf He]. rewrite IH by done.
    rewrite insert_insert_ne, render_cons, length_app by done. by rewrite (assoc_L Nat.add).
Qed.


(** Which names there are. *)
Lemma files_names d ino base es u k :
  holds d ino base es u →
  is_Some (files ino base es u !! k) ↔
  k = gen dev ino ∨ (k ∈ key <$> es) ∨ match u with Nothing => False | Torn name _ => k = name | Begun e _ => k = pend e end.
Proof using Type.
  intros Hh. assert (is_Some (<[gen dev ino := []]> (committed_files (length base) es) !! k) ↔ k = gen dev ino ∨ k ∈ key <$> es) as Hm.
  { rewrite lookup_insert_is_Some'. split.
    - intros [->|[b Hb]]; [by left|]. right. apply committed_lookup in Hb as (i & e & Hi & -> & _); [|apply Hh].
      apply list_elem_of_fmap. exists e. split; [done|]. by eapply list_elem_of_lookup_2.
    - intros [->|Hin]; [by left|]. right.
      apply list_elem_of_fmap in Hin as (e & -> & [i Hi]%list_elem_of_lookup).
      exists (marker_line (length base + length (render (take i es))) (to_vec e)).
      apply committed_lookup; [apply Hh|eauto]. }
  unfold files; cbv zeta. destruct u as [|name b|e n]; [|rewrite lookup_insert_is_Some'..]; rewrite Hm; naive_solver.
Qed.

(** The name of what is unfinished. *)
Definition pending_of (u : Unfinished) : list str :=
  match u with Nothing => [] | Torn name _ => [name] | Begun e _ => [pend e] end.

Lemma holds_pending d ino base es u :
  holds d ino base es u → filter (λ n, is_pending n = true) (names_of (dir d)) = pending_of u.
Proof using Hdev.
  intros Hh. rewrite (h_dir _ _ _ _ _ Hh).
  assert (∀ y, is_Some (files ino base es u !! y) → is_pending y = true → y ∈ pending_of u) as Hy.
  { intros y [->|[Hy|Hy]]%(files_names _ _ _ _ _ _ Hh) Hp.
    - by rewrite (proj1 (gen_not_identity dev ino Hdev)) in Hp.
    - apply list_elem_of_fmap in Hy as (f & -> & _). unfold key in Hp. by rewrite is_pending_key in Hp.
    - destruct u; [done|subst; by left..]. }
  pose proof (h_unfinished _ _ _ _ _ Hh) as Hu. destruct u as [|name b|e n]; cbn [pending_of] in *.
  - apply filter_none. intros y Hin%in_names Hp. by apply Hy, not_elem_of_nil in Hp.
  - destruct Hu as [_ [id ->]]. apply filter_one; [apply NoDup_names| |apply is_pending_pend|].
    + apply in_names, (files_names _ _ _ _ _ _ Hh). auto.
    + intros y Hin%in_names Hp. by apply list_elem_of_singleton, Hy.
  - apply filter_one; [apply NoDup_names| |apply is_pending_pend|].
    + apply in_names, (files_names _ _ _ _ _ _ Hh). auto.
    + intros y Hin%in_names Hp. by apply list_elem_of_singleton, Hy.
Qed.

Lemma holds_generation d ino base es u :
  holds d ino base es u → filter (λ n, is_generation n = true) (names_of (dir d)) = [gen dev ino].
Proof using Type.
  intros Hh. rewrite (h_dir _ _ _ _ _ Hh). apply filter_one; [apply NoDup_names| |apply is_generation_gen|].
  - apply in_names, (files_names _ _ _ _ _ _ Hh). auto.
  - intros y [->|[Hy|Hy]]%in_names%(files_names _ _ _ _ _ _ Hh) Hp; [done|..].
    + apply list_elem_of_fmap in Hy as (f & -> & _). unfold key in Hp. by rewrite is_generation_key in Hp.
    + pose proof (h_unfinished _ _ _ _ _ Hh) as Hu. destruct u as [|name b|e n]; [done|..].
      * destruct Hu as [_ [id ->]]. subst y. by rewrite is_generation_pend in Hp.
      * subst y. unfold pend in Hp. by rewrite is_generation_pend in Hp.
Qed.

(** The names fit the budget of a directory as long as inodes are numbers of 64
    bits. *)
Definition inodes_spent (d : Disk) : Prop := U64_MAX + 1 < Z.of_nat (next_inode d).

Lemma size_ascii (s : str) : Forall (λ c, 0 ≤ c < 128) s → size (utf8 s) = size s.
Proof using Type. intros H. by rewrite utf8_ascii. Qed.

Lemma hexdigits_ascii (s : str) : Forall (λ c, is_ascii_hexdigit c = true) s → Forall (λ c, 0 ≤ c < 128) s.
Proof using Type. intros H. eapply Forall_impl; [exact H|]. cbn. unfold is_ascii_hexdigit, in_range. intros c. lia. Qed.

Lemma ascii_lit (s : str) : forallb (λ c, (0 <=? c) && (c <? 128)) s = true → Forall (λ c, 0 ≤ c < 128) s.
Proof using Type. intros H. apply Forall_forall. intros c Hc%list_elem_of_In. rewrite forallb_forall in H. apply H in Hc. lia. Qed.

Lemma marker_name_short id suf : (suf = PENDING ∨ suf = COMMITTED) → size (utf8 (hex_bytes (digest (utf8 id)) ++ suf)) ≤ 80.
Proof using Type.
  intros Hs. rewrite size_ascii.
  - unfold size. rewrite length_app, hex_bytes_length, digest_length. destruct Hs as [->| ->]; cbn; lia.
  - apply Forall_app. split; [apply hexdigits_ascii, hex_of_id|]. destruct Hs as [->| ->]; by apply ascii_lit.
Qed.

Lemma gen_short i : Z.of_nat i ≤ U64_MAX → size (utf8 (gen dev i)) ≤ 80.
Proof using Hdev Hdev64.
  intros Hi. unfold gen, event_generation_marker_name. rewrite size_ascii.
  - pose proof (hex_length dev ltac:(lia)). pose proof (hex_length (Z.of_nat i) ltac:(lia)).
    unfold size. rewrite !length_app. change (length EVENT_GENERATION_MARKER_PREFIX) with 18%nat. change (length (lit "-")) with 1%nat. lia.
  - repeat (apply Forall_app; split); first [by apply ascii_lit|apply hexdigits_ascii, hex_digits; lia].
Qed.

Lemma overfull d (P : Prop) :
  (base.size (dir d) ≤ 2050)%nat →
  (∀ k, is_Some (dir d !! k) → size (utf8 k) ≤ 80 ∨ P) → charge_names (map fst (map_to_list (dir d))) = None → (¬ ¬ P).
Proof using Type.
  intros Hc Hk Ho HP. revert Ho. apply charge_names_small.
  - apply Forall_forall. intros k ([k' b] & -> & Hb%elem_of_map_to_list)%list_elem_of_fmap.
    destruct (Hk k') as [|]; [by exists b|done|done].
  - unfold size. rewrite length_map, length_map_to_list. lia.
Qed.

Lemma committed_files_size o es : (base.size (committed_files o es) ≤ length es)%nat.
Proof using Type.
  revert o. induction es as [|e es IH]; intros o; cbn [committed_files length]; [done|].
  rewrite map_size_insert. destruct (_ !! _); specialize (IH (o + length (line e))%nat); cbn; lia.
Qed.

Lemma holds_size d ino base es u : holds d ino base es u → (base.size (dir d) ≤ 2050)%nat.
Proof using Type.
  intros Hh. pose proof (h_count _ _ _ _ _ Hh) as Hc. rewrite (h_dir _ _ _ _ _ Hh).
  assert (base.size (<[gen dev ino := []]> (committed_files (length base) es)) ≤ S (length es))%nat as Hm.
  { rewrite map_size_insert. pose proof (committed_files_size (length base) es). destruct (_ !! _); cbn; lia. }
  unfold files, size, MAX_EVENT_IDENTITIES_PER_SESSION in *; cbv zeta.
  destruct u; [lia|rewrite map_size_insert; destruct (_ !! _); cbn in *; lia..].
Qed.

Lemma holds_overfull d ino base es u :
  holds d ino base es u → charge_names (map fst (map_to_list (dir d))) = None → inodes_spent d.
Proof using Hdev Hdev64.
  intros Hh Ho. destruct (decide (inodes_spent d)) as [|Hn]; [done|exfalso]. revert Hn. apply (overfull d); [by eapply holds_size| |done].
  intros k Hk. rewrite (h_dir _ _ _ _ _ Hh) in Hk. apply (files_names _ _ _ _ _ _ Hh) in Hk as [->|[Hk|Hk]].
  - destruct (decide (inodes_spent d)) as [|Hn]; [by right|left]. apply gen_short.
    unfold inodes_spent in Hn. pose proof (h_inode _ _ _ _ _ Hh). lia.
  - left. apply list_elem_of_fmap in Hk as (f & -> & _). apply marker_name_short. by right.
  - left. pose proof (h_unfinished _ _ _ _ _ Hh) as Hu. destruct u as [|name b|e n]; [done|..].
    + destruct Hu as [_ [id ->]]. subst k. apply marker_name_short. by left.
    + subst k. apply marker_name_short. by left.
Qed.

Lemma dead_overfull d : dead d → charge_names (map fst (map_to_list (dir d))) = None → inodes_spent d.
Proof using Hdev Hdev64.
  intros Hd Ho. destruct (decide (inodes_spent d)) as [|Hn]; [done|exfalso]. revert Hn. apply (overfull d); [apply Hd| |done].
  intros k [b Hb]. destruct (d_names _ Hd _ _ Hb) as [(i & -> & Hi & _)|[(o & f & _ & _ & -> & _)|(id & -> & _)]].
  - destruct (decide (inodes_spent d)) as [|Hn]; [by right|left]. apply gen_short. unfold inodes_spent in Hn. lia.
  - left. apply marker_name_short. by right.
  - left. apply marker_name_short. by left.
Qed.

(** The recorded events are the identities. *)
Lemma holds_identities d ino base es :
  holds d ino base es Nothing →
  length (filter (λ n, is_event_identity_marker n = true) (names_of (dir d))) = length es.
Proof using Hdev.
  intros Hh. rewrite <- (length_fmap key es). apply Permutation_length, NoDup_Permutation.
  - apply NoDup_filter, NoDup_names.
  - apply Hh.
  - intros y. rewrite list_elem_of_filter, in_names, (h_dir _ _ _ _ _ Hh), (files_names _ _ _ _ _ _ Hh). split.
    + intros [Hi [->|[Hy|[]]]]; [|done]. unfold is_event_identity_marker in Hi.
      destruct (gen_not_identity dev ino Hdev) as [H1 H2]. by rewrite H1, H2 in Hi.
    + intros Hy. split; [|by right; left]. apply list_elem_of_fmap in Hy as (f & -> & _).
      unfold is_event_identity_marker, key. by rewrite is_committed_key, orb_true_r.
Qed.

Lemma committed_no_pend o es id : committed_files o es !! (marker_names id).1 = None.
Proof using Type.
  apply committed_lookup_ne. intros (f & Hf & _)%list_elem_of_fmap. by apply pend_ne_key in Hf.
Qed.

Lemma base_no_pend ino (base : list byte) es id :
  <[gen dev ino := []]> (committed_files (length base) es) !! (marker_names id).1 = None.
Proof using Type. rewrite lookup_insert_ne by (apply gen_ne_pend). apply committed_no_pend. Qed.

(** What a marker says of the log. *)
Lemma holds_key d ino base es u e :
  holds d ino base es u →
  match dir d !! key e with
  | None => key e ∉ key <$> es
  | Some b => ∃ i f, es !! i = Some f ∧ key f = key e
                ∧ b = marker_line (length base + length (render (take i es))) (to_vec f)
  end.
Proof using Type.
  intros Hh. rewrite (h_dir _ _ _ _ _ Hh).
  assert (files ino base es u !! key e = committed_files (length base) es !! key e) as ->.
  { unfold files; cbv zeta. pose proof (h_unfinished _ _ _ _ _ Hh) as Hu. destruct u as [|name b|f n].
    - by rewrite lookup_insert_ne by (apply gen_ne_key).
    - destruct Hu as [_ [id ->]]. by rewrite !lookup_insert_ne by (first [apply gen_ne_key|apply pend_ne_key]).
    - by rewrite !lookup_insert_ne by (first [apply gen_ne_key|apply pend_ne_key]). }
  destruct (committed_files (length base) es !! key e) as [b|] eqn:Hb.
  - apply committed_lookup in Hb as (i & f & Hi & Hk & ->); [eauto 6|apply Hh].
  - intros (f & Hf & [i Hi]%list_elem_of_lookup)%list_elem_of_fmap.
    assert (committed_files (length base) es !! key e = Some (marker_line (length base + length (render (take i es))) (to_vec f))); [|congruence].
    apply committed_lookup; [apply Hh|eauto].
Qed.

Lemma content_nothing base es : content base es Nothing = base ++ render es.
Proof using Type. unfold content. by rewrite app_nil_r. Qed.

Lemma render_events_end es : es ≠ [] → last (render es) = Some 10.
Proof using Type.
  destruct es as [|e es _] using rev_ind; [done|]. intros _. rewrite render_events_app, render_one. unfold line.
  by rewrite (assoc_L (++)), last_snoc.
Qed.

Lemma content_ends base es : ends_line base → ends_line (content base es Nothing).
Proof using Type.
  intros Hb. rewrite content_nothing. destruct es as [|e es]; [by rewrite app_nil_r|]. right.
  pose proof (render_events_end (e :: es) ltac:(done)) as H. destruct (render (e :: es)) as [|c r]; [done|].
  by rewrite last_app_cons.
Qed.

(** A committed event is where its marker says. *)
Lemma committed_in_log base es i f :
  es !! i = Some f → good_event f →
  event_at_offset (content base es Nothing) (length base + length (render (take i es))) f = Ok true.
Proof using CJL.
  intros Hi Hf. rewrite content_nothing. rewrite <- (take_drop_middle es i f Hi) at 1.
  rewrite render_events_app, render_cons, !(assoc_L (++)), <- (assoc_L (++) _ (line f)), <- length_app.
  by apply event_at_line.
Qed.

Lemma offset_fits d ino base es u i : holds d ino base es u → is_u64 (Z.of_nat (length base + length (render (take i es)))).
Proof using Type.
  intros Hh. pose proof (h_size _ _ _ _ _ Hh) as Hs. unfold content, size in Hs. rewrite !length_app in Hs.
  rewrite <- (take_drop i es), render_events_app, length_app in Hs. unfold is_u64, U64_MAX, MAX_FILE in *. lia.
Qed.

(** ** Steps between such directories *)

Lemma dir_set_dir d m : dir (set_dir d m) = m.
Proof using Type. done. Qed.
Lemma events_set_dir d m : events (set_dir d m) = events d.
Proof using Type. done. Qed.
Lemma dir_set_log d l : dir (set_log d l) = dir d.
Proof using Type. done. Qed.

Lemma holds_log d ino base es u : holds d ino base es u → log d = content base es u.
Proof using Type. intros Hh. unfold log. by rewrite (h_events _ _ _ _ _ Hh). Qed.

Lemma holds_set_log d ino base es u base' es' u' l :
  holds d ino base es u → l = content base' es' u' → files ino base' es' u' = files ino base es u →
  NoDup (key <$> es') → Forall good_event es' → (base' = [] ∨ base' = legacy ∨ base' = whole_lines legacy) →
  (ends_line base' ∨ es' = [] ∧ ∀ e, ¬ begun u' e) →
  match u' with
  | Nothing => True
  | Torn name b => read_marker b = None ∧ ∃ id, name = (marker_names id).1
  | Begun e n => good_event e ∧ key e ∉ key <$> es' ∧ (n ≤ length (line e))%nat
  end → size l ≤ MAX_FILE →
  size es' + match u' with Nothing => 0 | _ => 1 end ≤ MAX_EVENT_IDENTITIES_PER_SESSION →
  holds (set_log d l) ino base' es' u'.
Proof using Type.
  intros Hh -> Hf H1 H2 H3 H4 H5 H6 H7. constructor; try done.
  - unfold set_log. cbn. by rewrite (h_events _ _ _ _ _ Hh).
  - rewrite dir_set_log, Hf. apply Hh.
  - apply Hh.
Qed.

(** A torn marker is removed or written again, and a whole one begins an event. *)
Lemma holds_removed d ino base es name b :
  holds d ino base es (Torn name b) → holds (set_dir d (delete name (dir d))) ino base es Nothing.
Proof using Type.
  intros Hh. destruct Hh as [H1 H2 H3 H4 H5 H6 H7 [H8 [id ->]] H9 H10]. constructor; try done; [| |lia].
  - rewrite dir_set_dir, H2. unfold files; cbv zeta. rewrite delete_insert_eq, delete_id by apply base_no_pend. done.
  - destruct H7 as [|[? _]]; [by left|right; split; [done|by intros e [n Hn]]].
Qed.

Lemma holds_torn d ino base es id b :
  holds d ino base es Nothing → read_marker b = None → size es < MAX_EVENT_IDENTITIES_PER_SESSION →
  holds (set_dir d (<[(marker_names id).1 := b]> (dir d))) ino base es (Torn (marker_names id).1 b).
Proof using Type.
  intros Hh Hb Hs. destruct Hh as [H1 H2 H3 H4 H5 H6 H7 H8 H9 H10]. constructor; try done; [| | |lia].
  - by rewrite dir_set_dir, H2.
  - destruct H7 as [|[? _]]; [by left|right; split; [done|by intros e [n Hn]]].
  - split; [done|by eexists].
Qed.

Lemma holds_rewritten d ino base es name b b' :
  holds d ino base es (Torn name b) → read_marker b' = None →
  holds (set_dir d (<[name := b']> (dir d))) ino base es (Torn name b').
Proof using Type.
  intros Hh Hb. destruct Hh as [H1 H2 H3 H4 H5 H6 H7 [H8 H8'] H9 H10]. constructor; try done.
  - rewrite dir_set_dir, H2. unfold files; cbv zeta. by rewrite insert_insert_eq.
  - destruct H7 as [|[? _]]; [by left|right; split; [done|by intros e [n Hn]]].
Qed.

Lemma holds_begun d ino base es e b :
  holds d ino base es (Torn (pend e) b) → ends_line base → good_event e → key e ∉ key <$> es →
  holds (set_dir d (<[pend e := marker_line (length (log d)) (to_vec e)]> (dir d))) ino base es (Begun e 0).
Proof using Type.
  intros Hh Hb He Hk. rewrite (holds_log _ _ _ _ _ Hh).
  destruct Hh as [H1 H2 H3 H4 H5 H6 H7 [H8 H8'] H9 H10]. constructor; try done.
  - rewrite dir_set_dir, H2. unfold files; cbv zeta. rewrite insert_insert_eq. unfold content.
    by rewrite app_nil_r, length_app.
  - by left.
  - split_and!; [done|done|lia].
Qed.

Lemma holds_more d ino base es e n k :
  holds d ino base es (Begun e n) → (n + k ≤ length (line e))%nat →
  size (log d) + Z.of_nat k ≤ MAX_FILE →
  holds (set_log d (log d ++ take k (drop n (line e)))) ino base es (Begun e (n + k)).
Proof using Type.
  intros Hh Hk Hs. rewrite (holds_log _ _ _ _ _ Hh) in *.
  assert (content base es (Begun e n) ++ take k (drop n (line e)) = content base es (Begun e (n + k))) as Hc.
  { unfold content. by rewrite <- !(assoc_L (++)), take_take_drop. }
  pose proof Hh as [H1 H2 H3 H4 H5 H6 H7 [H8 [H8' H8'']] H9 H10]. rewrite Hc.
  eapply holds_set_log; [exact Hh|done|done|done|done|done| |done| |done].
  - destruct H7 as [|[_ H7]]; [by left|]. exfalso. by apply (H7 e), (ex_intro _ n).
  - rewrite <- Hc. unfold size in *. rewrite length_app, length_take. lia.
Qed.

Lemma content_finished base es e : content base es (Begun e (length (line e))) = content base (es ++ [e]) Nothing.
Proof using Type. unfold content. by rewrite firstn_all, render_events_app, render_one, app_nil_r. Qed.

Lemma holds_committed d ino base es e :
  holds d ino base es (Begun e (length (line e))) →
  holds (set_dir d (<[key e := marker_line (length base + length (render es)) (to_vec e)]> (delete (pend e) (dir d))))
    ino base (es ++ [e]) Nothing.
Proof using Type.
  intros Hh. destruct Hh as [H1 H2 H3 H4 H5 H6 H7 [H8 [H8' _]] H9 H10]. rewrite content_finished in *.
  constructor; try done; [..|unfold size in *; rewrite length_app; cbn [length]; lia].
  - rewrite dir_set_dir, H2. unfold files; cbv zeta. unfold pend at 1 2.
    rewrite delete_insert_eq, delete_id by apply base_no_pend.
    rewrite committed_files_app by done. apply insert_insert_ne. intros Heq. symmetry in Heq. by apply gen_ne_key in Heq.
  - rewrite fmap_app. cbn. apply NoDup_app. split_and!; [done| |apply NoDup_singleton].
    intros k Hk Hke%list_elem_of_singleton. by subst.
  - apply Forall_app. split; [done|]. by constructor.
  - destruct H7 as [|[_ H7]]; [by left|]. exfalso. by apply (H7 e), (ex_intro _ (length (line e))).
Qed.

(** ** The phases of a call *)

Lemma wp_complete X d ino base es e n (Q : unit → Disk → Prop) (E : Disk → Prop) :
  holds d ino base es (Begun e n) →
  (∀ d' k, holds d' ino base es (Begun e k) → E d') →
  (MAX_FILE < size base + size (render es) + size (line e) → X) →
  (∀ d', holds d' ino base es (Begun e (length (line e))) → Q tt d') →
  wp X (complete_pending_event (length base + length (render es)) e (to_vec e)) d Q E.
Proof using Type.
  intros Hh HE Hx HQ. pose proof (h_unfinished _ _ _ _ _ Hh) as (He & Hk & Hn).
  apply wp_bind, wp_call; [by eapply HE|]. apply wp_bind, wp_look. cbv zeta. rewrite (holds_log _ _ _ _ _ Hh).
  assert (length (content base es (Begun e n)) = (length base + length (render es) + n)%nat) as Hl.
  { unfold content. rewrite !length_app, length_take. lia. }
  rewrite Hl. rewrite (proj2 (Nat.ltb_ge _ _)) by lia.
  change (to_vec e ++ [10]) with (line e).
  replace ((length base + length (render es) + n - (length base + length (render es))) `min` length (line e))%nat with n by lia.
  assert (drop (length base + length (render es)) (content base es (Begun e n)) = take n (line e)) as ->.
  { unfold content. rewrite (assoc_L (++)), <- length_app. apply drop_app_length. }
  rewrite bool_decide_false by (intros Hne; apply Hne; rewrite take_take; f_equal; lia).
  apply wp_bind. destruct (Nat.ltb_spec n (length (line e))) as [Hlt|Hge].
  - rewrite bool_decide_false by lia. apply wp_append_log.
    + intros Hd. apply (f_equal length) in Hd. rewrite length_drop in Hd. cbn in Hd. lia.
    + by eapply HE.
    + intros Hs. apply Hx. rewrite (holds_log _ _ _ _ _ Hh) in Hs. unfold size in *. rewrite Hl, length_drop in Hs. lia.
    + intros Hs. unfold size in Hs. rewrite length_drop in Hs. split.
      * intros k Hlk. rewrite length_drop in Hlk. eapply HE, (holds_more _ _ _ _ _ _ k Hh); [lia|unfold size; lia].
      * apply wp_call; [|apply HQ]; rewrite <- (firstn_all (drop n (line e))), length_drop.
        -- eapply HE, (holds_more _ _ _ _ _ _ (length (line e) - n) Hh); [lia|unfold size; lia].
        -- replace (length (line e)) with (n + (length (line e) - n))%nat at 2 by lia.
           apply (holds_more _ _ _ _ _ _ (length (line e) - n) Hh); [lia|unfold size; lia].
  - apply wp_ret. replace n with (length (line e)) in Hh by lia. apply wp_call; [by eapply HE|by apply HQ].
Qed.

Lemma unfinished_lookup ino base es name b : files ino base es (Torn name b) !! name = Some b.
Proof using Type. apply lookup_insert_eq. Qed.

Lemma others_names d ino base es u d' names es' :
  holds d ino base es u → names = names_of (dir d) → holds d' ino base es' Nothing →
  key <$> es' = (key <$> es) ++ match u with Begun e _ => [key e] | _ => [] end →
  ∀ name, pending_of u = [name] →
  length (filter (λ n, is_event_identity_marker n = true)
            (filter (λ n, n ≠ name) names ++ match u with Begun e _ => [key e] | _ => [] end)) = length es'.
Proof using Hdev.
  intros Hh -> Hh' Hk name Hp.
  assert (∃ id, name = (marker_names id).1) as [id ->].
  { pose proof (h_unfinished _ _ _ _ _ Hh) as Hu. destruct u as [|nm b|e n]; [done|..]; injection Hp as <-; [apply Hu|by eexists]. }
  rewrite <- (length_fmap key es'), Hk. rewrite filter_app, !length_app. f_equal.
  - apply Permutation_length, NoDup_Permutation; [repeat apply NoDup_filter; apply NoDup_names|apply Hh|].
    intros y. rewrite !list_elem_of_filter, in_names, (h_dir _ _ _ _ _ Hh), (files_names _ _ _ _ _ _ Hh). split.
    + intros (Hi & Hne & [->|[Hy|Hy]]); [|done|].
      * unfold is_event_identity_marker in Hi. destruct (gen_not_identity dev ino Hdev) as [H1 H2]. by rewrite H1, H2 in Hi.
      * destruct u as [|nm b|e n]; [done|..]; injection Hp as Hp; subst; by destruct Hne.
    + intros Hy. split_and!; [| |by right; left]; apply list_elem_of_fmap in Hy as (f & -> & _).
      * unfold is_event_identity_marker, key. by rewrite is_committed_key, orb_true_r.
      * intros Heq. symmetry in Heq. by apply pend_ne_key in Heq.
  - destruct u as [|nm b|e n]; [done|done|].
    by rewrite filter_cons_True by (unfold is_event_identity_marker, key; by rewrite is_committed_key, orb_true_r).
Qed.

Lemma wp_recover X d ino base es u (Q : list str → Disk → Prop) (E : Disk → Prop) :
  holds d ino base es u →
  (∀ d' u', holds d' ino base es u' → (∀ f, begun u' f → begun u f) → E d') →
  (match u with Begun e _ => MAX_FILE < size base + size (render es) + size (line e) | _ => False end ∨ inodes_spent d → X) →
  (∀ d', holds d' ino base (es ++ finished u) Nothing → E d' ∧
     ∀ names, length (filter (λ n, is_event_identity_marker n = true) names) = length (es ++ finished u) → Q names d') →
  wp X recover_pending_markers d Q E.
Proof using Hdev Hdev64 CJL.
  intros Hh HE Hx HQ. pose proof (HE _ _ Hh (λ _ H, H)) as Hd.
  apply wp_bind, wp_names; [done|intros Ho; apply Hx; right; by eapply holds_overfull|]. rewrite (holds_pending _ _ _ _ _ Hh).
  pose proof (others_names d ino base es u) as Hnames.
  destruct u as [|name b|e n]; cbn [pending_of].
  - cbn [finished] in HQ. rewrite app_nil_r in HQ. apply wp_ret, HQ; [done|]. by eapply holds_identities.
  - cbn [finished] in HQ. rewrite app_nil_r in HQ.
    apply wp_bind, wp_lookup_marker; [done|]. rewrite (h_dir _ _ _ _ _ Hh), unfinished_lookup.
    apply wp_bind, wp_call; [done|]. destruct (h_unfinished _ _ _ _ _ Hh) as [-> Hid].
    pose proof (holds_removed _ _ _ _ _ _ Hh) as Hr. apply wp_bind, wp_remove; [done|by apply HQ|]. apply wp_ret.
    apply (HQ _ Hr). rewrite <- (Hnames _ _ _ Hh eq_refl Hr) with (name := name); rewrite ?app_nil_r; try done.
    by rewrite (h_dir _ _ _ _ _ Hh).
  - cbn [finished] in HQ. pose proof (h_unfinished _ _ _ _ _ Hh) as (He & Hk & Hn).
    apply wp_bind, wp_lookup_marker; [done|]. rewrite (h_dir _ _ _ _ _ Hh). unfold files at 1; cbv zeta. rewrite lookup_insert_eq.
    apply wp_bind, wp_call; [done|].
    pose proof (offset_fits _ _ _ _ _ (length es) Hh) as Hf. rewrite firstn_all in Hf. rewrite read_marker_line by done.
    change (marker_names (event_id e)) with (pend e, key e). cbv iota beta zeta. rewrite bool_decide_false by auto.
    destruct (acceptable_serialized e (proj2 He)) as [Hv _]. apply wp_bind, wp_lift. rewrite Hv.
    apply wp_bind. eapply wp_complete; [exact Hh| |by intros Hs; apply Hx; left|].
    { intros d' k Hd'. apply (HE _ _ Hd'). intros f [m [= <- <-]]. by exists n. }
    intros d1 Hh1. pose proof (HE _ _ Hh1) as Hd1. specialize (Hd1 ltac:(intros f [m [= <- <-]]; by exists n)).
    apply wp_bind, wp_lookup_marker; [done|].
    pose proof (holds_key _ _ _ _ _ e Hh1) as Hl. destruct (dir d1 !! key e) as [b|].
    { exfalso. destruct Hl as (i & f & Hi & Hfk & _). apply Hk. rewrite <- Hfk. apply list_elem_of_fmap. exists f.
      split; [done|]. by eapply list_elem_of_lookup_2. }
    pose proof (holds_committed _ _ _ _ _ Hh1) as Hc. destruct (HQ _ Hc) as [HEc HQc].
    apply wp_bind. eapply wp_rename; [rewrite (h_dir _ _ _ _ _ Hh1); apply lookup_insert_eq|done|done|].
    apply wp_ret, HQc.
    rewrite <- (Hnames _ _ _ Hh eq_refl Hc) with (name := pend e); [by rewrite (h_dir _ _ _ _ _ Hh)| |done].
    by rewrite fmap_app.
Qed.

Lemma wp_repair X d ino base es (Q : unit → Disk → Prop) (E : Disk → Prop) :
  holds d ino base es Nothing → E d →
  (inspect_legacy_event_log_tail (content base es Nothing) = Oversized → X) →
  (∀ d' base', holds d' ino base' es Nothing → ends_line base' → (length base' ≤ length base)%nat →
     (base' = base ∨ es = [] ∧ base' = whole_lines base) → E d' ∧ Q tt d') →
  wp X repair_partial_legacy_event_log_tail d Q E.
Proof using Type.
  intros Hh HE Hx HQ. apply wp_bind, wp_call; [done|]. apply wp_bind, wp_look. rewrite (holds_log _ _ _ _ _ Hh).
  pose proof (inspect_tail (content base es Nothing)) as Ht.
  assert (ends_line (content base es Nothing) → ends_line base) as Hb.
  { destruct (h_ends _ _ _ _ _ Hh) as [|[-> _]]; [done|]. by rewrite content_nothing, app_nil_r. }
  destruct (inspect_legacy_event_log_tail (content base es Nothing)) as [|n|].
  - apply wp_ret, (HQ d base); auto.
  - destruct Ht as [Hn Ht]. destruct (h_ends _ _ _ _ _ Hh) as [He|[-> _]]; [by destruct Hn; apply content_ends|].
    rewrite content_nothing, app_nil_r in *.
    assert (base = legacy) as -> by (destruct (h_base _ _ _ _ _ Hh) as [->|[->| ->]]; [by destruct Hn; left|done|by destruct Hn; apply whole_lines_end]).
    assert (holds (set_log d (take n legacy)) ino (whole_lines legacy) [] Nothing) as Hh'.
    { eapply holds_set_log; [exact Hh|by rewrite content_nothing, app_nil_r|done|apply NoDup_nil_2|constructor|by auto|left; apply whole_lines_end|done| |done].
      pose proof (h_size _ _ _ _ _ Hh) as Hs. rewrite content_nothing, app_nil_r in Hs. unfold size in *. rewrite length_take. lia. }
    destruct (HQ _ _ Hh' (whole_lines_end _)) as [HE' HQ']; [rewrite <- Ht, length_take; lia|by right|].
    apply wp_bind, wp_update; [done|]. rewrite (holds_log _ _ _ _ _ Hh), content_nothing, app_nil_r. by apply wp_call.
  - apply wp_throw; auto.
Qed.

Lemma wp_append_new X d ino base es e names (Q : unit → Disk → Prop) (E : Disk → Prop) :
  holds d ino base es Nothing → ends_line base → good_event e → key e ∉ key <$> es →
  length (filter (λ n, is_event_identity_marker n = true) names) = length es →
  (∀ d' u', holds d' ino base es u' → (∀ f, begun u' f → f = e) → E d') →
  (∀ d', holds d' ino base (es ++ [e]) Nothing → E d' ∧ Q tt d') →
  (MAX_EVENT_IDENTITIES_PER_SESSION ≤ size es → X) →
  (MAX_FILE < size (content base es Nothing) + size (line e) → X) →
  wp X (append_new_event names e (to_vec e)) d Q E.
Proof using CJL.
  intros Hh Hb He Hk Hlen HE HQ Hx1 Hx2.
  assert (E d) as Hd by (eapply HE; [exact Hh|by intros f [n Hn]]).
  unfold append_new_event. change (marker_names (event_id e)) with (pend e, key e). cbv iota beta zeta.
  unfold size at 1. rewrite Hlen. change (Z.of_nat (length es)) with (size es).
  destruct (Z.leb_spec MAX_EVENT_IDENTITIES_PER_SESSION (size es)) as [|Hcount]; [apply wp_throw; auto|].
  apply wp_bind. apply wp_create; [rewrite (h_dir _ _ _ _ _ Hh); apply base_no_pend|done|]. cbn [negb].
  pose proof (holds_torn _ _ _ _ (event_id e) [] Hh eq_refl Hcount) as H1. fold (pend e) in H1.
  set (d1 := set_dir d _) in *.
  assert (∀ b, holds (set_dir d1 (<[pend e := b]> (dir d1))) ino base es (Torn (pend e) b) →
               E (set_dir d1 (<[pend e := b]> (dir d1)))) as HEt.
  { intros b Hb'. eapply HE; [exact Hb'|by intros f [n Hn]]. }
  assert (E d1) as Hd1 by (eapply HE; [exact H1|by intros f [n Hn]]).
  apply wp_bind, wp_call; [done|]. apply wp_bind, wp_look.
  assert (set_dir d1 (<[pend e := []]> (dir d1)) = d1) as Hsame.
  { unfold d1. unfold set_dir, dir. cbn. by rewrite insert_insert_eq. }
  apply wp_bind. apply wp_bind, wp_call; [done|]. apply wp_bind, wp_update; [done|]. rewrite Hsame.
  assert (dir d1 !! pend e = Some []) as Hl by (apply lookup_insert_eq).
  pose proof (holds_begun _ _ _ _ _ _ H1 Hb He Hk) as H3.
  set (ml := marker_line (length (log d1)) (to_vec e)) in *.
  apply wp_bind, wp_write.
  { unfold ml, marker_line. intros Hx. symmetry in Hx. by apply app_cons_not_nil in Hx. }
  { intros n Hn. rewrite Hl. cbn [default app]. apply HEt. eapply holds_rewritten; [exact H1|]. by apply read_marker_torn. }
  rewrite Hl. change (default [] (Some []) ++ ml) with ml. set (d2 := set_dir d1 (<[pend e := ml]> (dir d1))) in *.
  assert (E d2) as Hd2 by (eapply HE; [exact H3|intros f [m Hm]; by injection Hm]).
  apply wp_call; [done|]. apply wp_bind, wp_call; [done|]. apply wp_bind, wp_revalidate; [done|].
  apply wp_bind, wp_append_log; [apply line_ne|done| |].
  { intros Hs. apply Hx2. rewrite (holds_log _ _ _ _ _ H3) in Hs. done. }
  change (to_vec e ++ [10]) with (line e). intros Hs. split.
  - intros n Hn. apply (HE _ (Begun e n)); [|intros f [m Hm]; by injection Hm].
    apply (holds_more _ _ _ _ _ 0 n H3); [lia|]. unfold size in *. lia.
  - pose proof (holds_more _ _ _ _ _ 0 (length (line e)) H3 ltac:(lia) ltac:(unfold size in *; lia)) as H4.
    rewrite drop_0, firstn_all in H4. cbn [Nat.add] in H4. set (d3 := set_log d2 _) in *.
    assert (E d3) as Hd3 by (eapply HE; [exact H4|intros f [m Hm]; by injection Hm]).
    pose proof (holds_committed _ _ _ _ _ H4) as H5. destruct (HQ _ H5) as [HE5 HQ5].
    apply wp_bind, wp_call; [done|].
    eapply wp_rename; [rewrite (h_dir _ _ _ _ _ H4); apply lookup_insert_eq|done|done|done].
Qed.

Lemma wp_confirm X d ino base es e b i f (Q : unit → Disk → Prop) (E : Disk → Prop) :
  holds d ino base es Nothing → es !! i = Some f → b = marker_line (length base + length (render (take i es))) (to_vec f) →
  E d → (f ≠ e → X) → (f = e → Q tt d) → wp X (confirm_committed_event b e) d Q E.
Proof using CJL.
  intros Hh Hi -> Hd Hx HQ. apply wp_bind, wp_call; [done|].
  pose proof (h_good _ _ _ _ _ Hh) as Hg. rewrite Forall_lookup in Hg. pose proof (Hg _ _ Hi) as Hf.
  rewrite read_marker_line; [|done|by eapply offset_fits].
  case_bool_decide as H1; [apply wp_throw; [done|apply Hx; intros ->; done]|].
  case_bool_decide as H2; [apply wp_throw; auto|subst f].
  apply wp_bind, wp_call; [done|]. apply wp_bind, wp_look. rewrite (holds_log _ _ _ _ _ Hh).
  rewrite (committed_in_log _ _ _ _ Hi Hf). apply wp_bind, wp_lift. by apply wp_ret, HQ.
Qed.

(** The journal of the present log is left alone. *)
Lemma wp_reconcile_live X d ino base es u e (Q : unit → Disk → Prop) (E : Disk → Prop) :
  holds d ino base es u → E d → (inodes_spent d → X) → Q tt d → wp X (reconcile_event_journal_generation dev false e) d Q E.
Proof using Hdev64 Hdev.
  intros Hh HE Hx HQ. apply wp_bind, wp_names; [done|intros Ho; apply Hx; by eapply holds_overfull|].
  apply wp_bind, wp_call; [done|]. apply wp_bind, wp_look.
  assert (inode d = ino) as -> by (unfold inode; by rewrite (h_events _ _ _ _ _ Hh)).
  rewrite (holds_generation _ _ _ _ _ Hh). fold (gen dev ino). cbv zeta. cbn [andb negb].
  rewrite (bool_decide_false (gen dev ino ≠ gen dev ino)) by auto. rewrite bool_decide_false by done. cbn [andb orb].
  apply wp_bind, wp_ret. cbn [orb]. apply wp_bind, wp_ret.
  rewrite bool_decide_true; [by apply wp_ret|]. apply in_names. rewrite (h_dir _ _ _ _ _ Hh).
  apply (files_names _ _ _ _ _ _ Hh). by left.
Qed.

(** ** The markers of an earlier log *)

Lemma dead_shrink d d' :
  dead d → events d' = events d → next_inode d' = next_inode d → dir d' ⊆ dir d → dead d'.
Proof using Type.
  intros [H1 H2 H3 H4] He Hn Hs.
  assert (∀ k, is_Some (dir d' !! k) → is_Some (dir d !! k)) as Hm.
  { intros k [b Hb]. exists b. by eapply lookup_weaken. }
  constructor.
  - intros k b Hk. unfold left_over. rewrite He, Hn. apply H1. by eapply lookup_weaken.
  - intros k k' Hk Hk'. apply H2; by apply Hm.
  - intros j l Hl. rewrite He in Hl. destruct (H3 j l Hl) as (Hj & Hsz & Hor). rewrite Hn.
    split_and!; [done|done|]. destruct Hor as [|[Hb Hor]]; [by left|right]. split; [done|]. intros k Hk. by apply Hor, Hm.
  - etrans; [by apply map_subseteq_size|done].
Qed.

Lemma holds_same d d' ino base es u :
  holds d ino base es u → events d' = events d → next_inode d' = next_inode d → dir d' = dir d → holds d' ino base es u.
Proof using Type. intros [H1 H2 H3 H4 H5 H6 H7 H8 H9 H10] He Hn Hd. constructor; congruence || done. Qed.

Lemma wp_clear X d names (Q : unit → Disk → Prop) (E : Disk → Prop) :
  (∀ n, n ∈ names → is_Some (dir d !! n)) → NoDup names →
  (∀ d', events d' = events d → next_inode d' = next_inode d → dir d' ⊆ dir d → E d') →
  (∀ d', events d' = events d → next_inode d' = next_inode d → (∀ k, k ∉ names → dir d' !! k = dir d !! k) →
     (∀ k, k ∈ names → dir d' !! k = None) → Q tt d') →
  wp X (clear_event_journal names) d Q E.
Proof using Type.
  revert d. induction names as [|n names IH]; intros d Hp Hn HE HQ; cbn [clear_event_journal].
  - apply wp_ret. apply HQ; try done. by intros k ?%not_elem_of_nil.
  - apply wp_bind, wp_lookup_marker; [by apply HE|]. destruct (Hp n ltac:(by left)) as [b Hb]. rewrite Hb.
    apply NoDup_cons in Hn as [Hnn Hn].
    assert (E (set_dir d (delete n (dir d)))) as Hd by (apply HE; [done|done|apply delete_subseteq]).
    apply wp_bind, wp_remove; [by apply HE|done|]. apply IH; [|done|..].
    + intros m Hm. rewrite dir_set_dir, lookup_delete_ne by (by intros ->). apply Hp. by right.
    + intros d' He Hne Hs. apply HE; [done|done|]. etrans; [exact Hs|apply delete_subseteq].
    + intros d' He Hne H1 H2. apply HQ; [done|done|..].
      * intros k [Hk1 Hk2]%not_elem_of_cons. rewrite H1 by done. by rewrite dir_set_dir, lookup_delete_ne.
      * intros k [->|Hk]%elem_of_cons; [|by apply H2]. rewrite H1 by done. by rewrite dir_set_dir, lookup_delete_eq.
Qed.

(** No marker of an earlier log is taken for one of this. *)
Lemma wp_legacy X d ino l names e (Q : bool → Disk → Prop) (E : Disk → Prop) :
  dead d → events d = Some (ino, l) → (∀ n, n ∈ names → is_Some (dir d !! n)) → E d →
  (∀ b, (b = true → ∀ n, n ∈ names → is_committed n = false) → Q b d) →
  wp X (legacy_journal_matches_current_log names e) d Q E.
Proof using Hdev Hdev64 CJL.
  intros Hdead He Hp HE. revert Q. induction names as [|n names IH]; intros Q HQ; cbn [legacy_journal_matches_current_log].
  - apply wp_ret, HQ. by intros _ n ?%not_elem_of_nil.
  - specialize (IH ltac:(intros m Hm; apply Hp; by right)).
    destruct (is_event_identity_marker n) eqn:Hi; cbn [negb].
    2:{ apply IH. intros b Hb. apply HQ. intros Ht m [->|Hm]%elem_of_cons; [|by apply Hb].
        unfold is_event_identity_marker in Hi. by apply orb_false_iff in Hi as [_ ?]. }
    apply wp_bind, wp_lookup_marker; [done|]. destruct (Hp n ltac:(by left)) as [b Hb]. rewrite Hb.
    apply wp_bind, wp_call; [done|].
    destruct (d_names _ Hdead _ _ Hb) as [(i & -> & _)|[(o & f & Hf & Ho & -> & ->)|(id & -> & Hr)]].
    + exfalso. destruct (gen_not_identity dev i Hdev) as [H1 H2]. unfold is_event_identity_marker in Hi.
      by rewrite H1, H2 in Hi.
    + rewrite read_marker_line by done. destruct (_ || _); [by apply wp_ret, HQ|].
      assert (is_committed (key f) = true) as -> by apply is_committed_key.
      apply wp_bind, wp_call; [done|]. apply wp_bind, wp_look.
      destruct (d_log _ Hdead _ _ He) as (_ & _ & [->|[_ Hno]]); [|by rewrite Hno in Hi by (by eexists)].
      unfold log. rewrite He. by apply wp_ret, HQ.
    + rewrite Hr, is_pending_pend. apply IH. intros b' Hb'. apply HQ. intros Ht m [->|Hm]%elem_of_cons; [|by apply Hb'].
      apply is_committed_pend.
Qed.

(** What is left when neither generations nor committed markers are. *)
Lemma dead_torn_only d :
  dead d → (∀ n, is_Some (dir d !! n) → is_generation n = false ∧ is_committed n = false) →
  dir d = ∅ ∨ ∃ id b, dir d = {[(marker_names id).1 := b]} ∧ read_marker b = None.
Proof using Type.
  intros Hd Hn.
  assert (∀ k b, dir d !! k = Some b → ∃ id, k = (marker_names id).1 ∧ read_marker b = None) as Hk.
  { intros k b Hb. destruct (Hn k ltac:(by eexists)) as [Hg Hc].
    destruct (d_names _ Hd _ _ Hb) as [(i & -> & _)|[(o & f & _ & _ & -> & _)|?]]; [|exfalso|done].
    - by rewrite is_generation_gen in Hg.
    - unfold key in Hc. by rewrite is_committed_key in Hc. }
  destruct (decide (dir d = ∅)) as [|Hne]; [by left|right].
  apply map_choose in Hne as (k & b & Hb). destruct (Hk _ _ Hb) as (id & -> & Hr). exists id, b. split; [|done].
  apply map_eq. intros k. destruct (decide (k = (marker_names id).1)) as [->|Hne]; [by rewrite lookup_singleton_eq|].
  rewrite lookup_singleton_ne by done. destruct (dir d !! k) as [b'|] eqn:Hb'; [|done]. exfalso. apply Hne.
  destruct (Hk _ _ Hb') as (id' & -> & _). apply (d_torn _ Hd); try (by eexists); apply is_pending_pend.
Qed.

Lemma wp_new_generation X d ino l (Q : unit → Disk → Prop) (E : Disk → Prop) :
  dead d → events d = Some (ino, l) → (∀ n, is_Some (dir d !! n) → is_generation n = false ∧ is_committed n = false) →
  E d → (∀ d' u', next_inode d' = next_inode d → holds d' ino l [] u' → (∀ f, ¬ begun u' f) → E d' ∧ Q tt d') →
  wp X (create_event_generation_marker (gen dev ino)) d Q E.
Proof using Type.
  intros Hd He Hn HE HQ. destruct (d_log _ Hd _ _ He) as (Hino & Hsz & Hl).
  apply wp_bind. apply wp_create; [|done|].
  - destruct (dir d !! gen dev ino) as [b|] eqn:Hb; [|done]. destruct (Hn (gen dev ino) ltac:(by eexists)) as [Hg _].
    by rewrite is_generation_gen in Hg.
  - assert (∃ u', holds (set_dir d (<[gen dev ino := []]> (dir d))) ino l [] u' ∧ ∀ f, ¬ begun u' f) as (u' & Hh & Hu).
    { assert (∀ u', dir (set_dir d (<[gen dev ino := []]> (dir d))) = files ino l [] u' → content l [] u' = l →
        (match u' with Nothing => True | Torn name b => read_marker b = None ∧ ∃ id, name = (marker_names id).1 | Begun _ _ => False end) →
        holds (set_dir d (<[gen dev ino := []]> (dir d))) ino l [] u') as Hmk.
      { intros u' Hf Hc Hu. constructor; rewrite ?Hc; try done; [apply NoDup_nil_2| |right; split; [done|]|by destruct u'|by destruct u'].
        - destruct Hl as [->|[-> _]]; auto.
        - intros f [n ->]. done. }
      destruct (dead_torn_only d Hd Hn) as [Hm|(id & b & Hm & Hr)].
      - exists Nothing. split; [|by intros f [n Hf]]. apply Hmk; [by rewrite dir_set_dir, Hm|by rewrite content_nothing, app_nil_r|done].
      - exists (Torn (marker_names id).1 b). split; [|by intros f [n Hf]]. apply Hmk; [|by unfold content; rewrite app_nil_r|eauto].
        rewrite dir_set_dir, Hm. unfold files; cbv zeta. cbn [committed_files].
        rewrite <- insert_empty. apply insert_insert_ne, gen_ne_pend. }
    destruct (HQ (set_dir d (<[gen dev ino := []]> (dir d))) _ eq_refl Hh Hu) as [HE' HQ']. apply wp_bind, wp_call; [done|]. by apply wp_call.
Qed.

Lemma wp_reconcile_dead X d ino l created e (Q : unit → Disk → Prop) (E : Disk → Prop) :
  dead d → events d = Some (ino, l) →
  (∀ d', dead d' → events d' = events d → E d') → (inodes_spent d → X) →
  (∀ d' u', next_inode d' = next_inode d → holds d' ino l [] u' → (∀ f, ¬ begun u' f) → E d' ∧ Q tt d') →
  wp X (reconcile_event_journal_generation dev created e) d Q E.
Proof using Hdev Hdev64 CJL.
  intros Hd He HE Hsp HQ. pose proof (HE _ Hd eq_refl) as Hd0.
  apply wp_bind, wp_names; [done|intros Ho; apply Hsp; by apply dead_overfull|]. apply wp_bind, wp_call; [done|]. apply wp_bind, wp_look.
  assert (inode d = ino) as -> by (unfold inode; by rewrite He). fold (gen dev ino). cbv zeta.
  set (names := names_of (dir d)).
  assert (∀ n, n ∈ names → is_Some (dir d !! n)) as Hnames by (intros n; apply in_names).
  assert (gen dev ino ∉ names) as Hnew.
  { intros [b Hb]%Hnames. destruct (d_names _ Hd _ _ Hb) as [(i & Hi & _ & Hne)|[(o & f & _ & _ & Hk & _)|(id & Hk & _)]].
    - apply gen_inj in Hi as <-. by apply (Hne _ _ He).
    - by apply gen_ne_key in Hk.
    - by apply gen_ne_pend in Hk. }
  (** Clearing leads to an empty directory. *)
  assert (wp X (clear_event_journal names ≫= λ _, mret ([] : list str)) d
            (λ ns d', wp X (if bool_decide (gen dev ino ∈ ns) then mret tt else create_event_generation_marker (gen dev ino)) d' Q E) E) as Hclear.
  { apply wp_bind, wp_clear; [done|apply NoDup_names|intros d' H1 H2 H3; apply HE; [by eapply dead_shrink|done]|].
    intros d' H1 H2 H3 H4. apply wp_ret. rewrite bool_decide_false by apply not_elem_of_nil.
    assert (∀ k, dir d' !! k = None) as Hempty.
    { intros k. destruct (decide (k ∈ names)) as [|Hk]; [by apply H4|]. rewrite H3 by done.
      apply eq_None_not_Some. intros Hs. by apply Hk, in_names. }
    assert (dead d') as Hd'.
    { apply (dead_shrink d); [done|done|done|]. apply map_subseteq_spec. intros k b. by rewrite Hempty. }
    apply (wp_new_generation _ _ ino l); [done|by rewrite H1|by intros n [b Hb]; rewrite Hempty in Hb|by apply HE|by rewrite H2]. }
  set (generations := filter (λ n, is_generation n = true) names).
  assert (∀ n, n ∈ generations → n ∈ names ∧ is_generation n = true) as Hgen.
  { intros n [Hp Hin]%list_elem_of_filter. done. }
  destruct generations as [|g gs] eqn:Hgs.
  - cbn [andb orb]. rewrite bool_decide_true by done. cbn [andb]. apply wp_bind. destruct created; cbn [negb].
    + apply wp_ret. cbn [andb orb]. by apply wp_bind.
    + apply wp_bind. apply (wp_legacy _ _ ino l); [done|done|done|done|]. intros b Hb. apply wp_ret. cbn [andb orb].
      destruct b; cbn [negb]; [|by apply wp_bind]. apply wp_bind, wp_ret. rewrite bool_decide_false by done.
      apply (wp_new_generation _ _ ino l); [done|done| |done|done].
      intros n Hn. assert (n ∈ names) as Hin by (by apply in_names). split; [|by apply Hb].
      apply not_true_iff_false. intros Hg. assert (n ∈ generations) as Hx by (by apply list_elem_of_filter).
      subst generations. rewrite Hgs in Hx. by apply not_elem_of_nil in Hx.
  - rewrite (bool_decide_false (g :: gs = [])) by done. rewrite andb_false_r, andb_false_l.
    assert ((match gs with [] => bool_decide (g ≠ gen dev ino) | _ => true end) = true) as Hch.
    { destruct gs; [|done]. apply bool_decide_true. intros ->. apply Hnew. apply Hgen. by left. }
    rewrite Hch. apply wp_bind, wp_ret. cbn [orb]. by apply wp_bind.
Qed.

(** ** A whole call *)

Lemma wp_open_present X d (Q : bool → Disk → Prop) (E : Disk → Prop) :
  is_Some (events d) → E d → Q false d → wp X open_append_regular_file d Q E.
Proof using Type.
  intros [x Hx] HE HQ. apply wp_bind, wp_call; [done|]. apply wp_bind, wp_look. rewrite Hx.
  apply wp_bind, wp_call; [done|]. by apply wp_ret.
Qed.

Lemma wp_open_absent X d (Q : bool → Disk → Prop) (E : Disk → Prop) :
  let d' := mkDisk (Some (next_inode d, [])) (markers d) (S (next_inode d)) in
  events d = None → E d → E d' → Q true d' → wp X open_append_regular_file d Q E.
Proof using Type.
  intros d' Hx HE HE' HQ. apply wp_bind, wp_call; [done|]. apply wp_bind, wp_look. rewrite Hx.
  apply wp_bind, wp_update; [done|]. apply wp_bind, wp_call; [done|]. by apply wp_ret.
Qed.

Lemma wp_open_directory X d (Q : unit → Disk → Prop) (E : Disk → Prop) :
  (∀ d', events d' = events d → next_inode d' = next_inode d → dir d' = dir d → E d' ∧ Q tt d') →
  wp X open_or_create_directory d Q E.
Proof using Type.
  intros H. destruct (H d) as [HE HQ]; [done..|]. apply wp_bind, wp_look. destruct (markers d) eqn:Hm.
  - apply wp_bind, wp_call; [done|]. by apply wp_call.
  - destruct (H (set_dir d ∅)) as [HE' HQ']; [done|done|by unfold dir; rewrite Hm|].
    apply wp_bind, wp_update; [done|]. apply wp_bind, wp_call; [done|]. by apply wp_call.
Qed.

(** What a call for [e] may do to the journal. *)
Definition progress (base : list byte) (es : list CompanionEvent) (u : Unfinished) (e : CompanionEvent)
    (base' : list byte) (es' : list CompanionEvent) (u' : Unfinished) : Prop :=
  (base' = base ∨ es ++ finished u = [] ∧ base' = whole_lines base)
  ∧ (∃ added, es' = es ++ added ∧ added ⊆ finished u ++ [e])
  ∧ es' ++ finished u' `sublist_of` es ++ finished u ++ [e].

Lemma progress_none base es u u' e : (∀ f, begun u' f → begun u f) → progress base es u e base es u'.
Proof using Type.
  intros Hb. split_and!; [by left|exists []; split; [by rewrite app_nil_r|apply list_subseteq_nil]|].
  apply sublist_app; [done|]. destruct u' as [| |f n]; [apply sublist_nil_l..|].
  destruct (Hb f) as [m ->]; [by exists n|]. cbn. by apply sublist_skip, sublist_nil_l.
Qed.

Lemma progress_some base es u e base' add u' :
  (base' = base ∨ es ++ finished u = [] ∧ base' = whole_lines base) → add ++ finished u' `sublist_of` [e] →
  progress base es u e base' (es ++ finished u ++ add) u'.
Proof using Type.
  intros Hb Ha. split_and!; [done| |].
  - exists (finished u ++ add). split; [done|]. intros f [Hf|Hf]%elem_of_app; apply elem_of_app; [by left|right].
    eapply elem_of_sublist; [|exact Ha]. apply elem_of_app. by left.
  - rewrite <- !(assoc_L (++)). by repeat apply sublist_app.
Qed.

Lemma progress_begun base es u e base' es' u' f : progress base es u e base' es' u' → begun u' f → f ∈ es ++ finished u ++ [e].
Proof using Type.
  intros (_ & _ & Hs) [n ->]. eapply elem_of_sublist; [|exact Hs]. apply elem_of_app. right. by left.
Qed.

(** Why a call for [e] may fail although nothing fails under it. *)
Definition blamed (base : list byte) (es : list CompanionEvent) (e : CompanionEvent) : Prop :=
  inspect_legacy_event_log_tail (content base es Nothing) = Oversized
  ∨ (∃ f, f ∈ es ∧ key f = key e ∧ f ≠ e)
  ∨ MAX_EVENT_IDENTITIES_PER_SESSION ≤ size es
  ∨ MAX_FILE < size (content base es Nothing) + size (line e).

(** The part of a call after the generation is settled. *)
Definition record_event (e : CompanionEvent) : IO unit :=
  marker_entries ← recover_pending_markers;
  repair_partial_legacy_event_log_tail;;
  committed ← lookup_marker (key e);
  match committed with
  | Some bytes => confirm_committed_event bytes e
  | None => append_new_event marker_entries e (to_vec e)
  end;;
  call;;
  revalidate.

Lemma wp_record X d ino base es u e (Q : unit → Disk → Prop) (E : Disk → Prop) :
  holds d ino base es u → good_event e → (blamed base (es ++ finished u) e ∨ inodes_spent d → X) →
  (∀ d' base' es' u', holds d' ino base' es' u' → progress base es u e base' es' u' → E d') →
  (∀ d' base' es', holds d' ino base' es' Nothing → progress base es u e base' es' Nothing → e ∈ es' → Q tt d') →
  wp X (record_event e) d Q E.
Proof using Hdev Hdev64 CJL.
  intros Hh He Hx HE HQ.
  assert (∀ d' u', holds d' ino base es u' → (∀ f, begun u' f → begun u f) → E d') as HE0.
  { intros d' u' Hd' Hb. apply (HE _ _ _ _ Hd'). by apply progress_none. }
  apply wp_bind, (wp_recover _ _ _ _ _ _ _ _ Hh HE0).
  { intros [Hs|Hs]; apply Hx; [left|by right]. unfold blamed, content. do 3 right. destruct u as [| |f n]; [done..|]. cbn [finished].
    rewrite render_events_app, render_one. unfold size in *. rewrite !length_app. cbn [length]. lia. }
  intros d1 Hh1.
  assert (∀ d' base' add u', holds d' ino base' (es ++ finished u ++ add) u' →
            (base' = base ∨ es ++ finished u = [] ∧ base' = whole_lines base) →
            add ++ finished u' `sublist_of` [e] → E d') as HE1.
  { intros d' base' add u' Hd' Hb Ha. apply (HE _ _ _ _ Hd'). by apply progress_some. }
  assert (∀ d' base', holds d' ino base' (es ++ finished u) Nothing →
            (base' = base ∨ es ++ finished u = [] ∧ base' = whole_lines base) → E d') as HE2.
  { intros d' base' Hd' Hb. apply (HE1 d' base' [] Nothing); [by rewrite app_nil_r|done|apply sublist_nil_l]. }
  split; [apply (HE2 _ base); auto|]. intros names Hnames.
  apply wp_bind, (wp_repair _ _ _ _ _ _ _ Hh1); [apply (HE2 _ base); auto|intros Ho; apply Hx; left; by left|].
  intros d2 base' Hh2 Hends Hlen Hbase. assert (E d2) as Hd2 by (by apply (HE2 _ base')). split; [done|].
  apply wp_bind, wp_lookup_marker; [done|]. pose proof (holds_key _ _ _ _ _ e Hh2) as Hk.
  apply wp_bind. destruct (dir d2 !! key e) as [b|].
  - destruct Hk as (i & f & Hi & Hf & Hb). eapply wp_confirm; [exact Hh2|exact Hi|exact Hb|done|..].
    + intros Hne. apply Hx. left; right; left. exists f. split; [by eapply list_elem_of_lookup_2|done].
    + intros ->. apply wp_bind, wp_call; [done|]. apply wp_revalidate; [done|]. apply (HQ _ _ _ Hh2).
      * rewrite <- (app_nil_r (finished u)). apply progress_some; [done|apply sublist_nil_l].
      * by eapply list_elem_of_lookup_2.
  - apply (wp_append_new _ _ _ _ _ _ _ _ _ Hh2 Hends He Hk Hnames).
    + intros d' u' Hd' Hu. apply (HE1 d' base' [] u'); [by rewrite app_nil_r|done|].
      destruct u' as [| |f n]; [apply sublist_nil_l..|]. by rewrite (Hu f) by (by exists n).
    + intros d' Hd'. rewrite <- (assoc_L (++)) in Hd'. assert (E d') as HE' by (by apply (HE1 _ _ _ _ Hd')).
      split; [done|]. apply wp_bind, wp_call; [done|]. apply wp_revalidate; [done|]. apply (HQ _ _ _ Hd').
      * by apply progress_some.
      * set_solver.
    + intros Hs. apply Hx. left; right; right; by left.
    + intros Hs. apply Hx. left. do 3 right. rewrite content_nothing in *. unfold size in *. rewrite length_app in *. lia.
Qed.

(** What the caller answers for. *)
Definition proper (session revision_ : str) (e : CompanionEvent) : bool :=
  is_ok (validate_event e) && is_normal_component session
  && bool_decide (session_id e = session) && bool_decide (revision e = revision_).

Lemma validate_ok e s : validate_event e = Ok s → s = to_vec e.
Proof using Type. unfold validate_event. destruct (_ || _); [done|]. destruct (_ <? _); [done|]. by intros [= <-]. Qed.

Lemma proper_acceptable session revision_ e : proper session revision_ e = true → revision_ ≠ [] → acceptable e = true.
Proof using Type.
  unfold proper, acceptable. intros [[[Hv Hn]%andb_true_iff Hs]%andb_true_iff Hr]%andb_true_iff Hne.
  apply bool_decide_eq_true in Hs, Hr. rewrite Hv, Hr, (bool_decide_false (revision_ = [])), andb_true_r by done.
  rewrite bool_decide_false; [done|]. intros H0. rewrite <- Hs, H0 in Hn. done.
Qed.

(** The checks of the caller's arguments change nothing. *)
Lemma wp_checked X d session revision_ e (Q : unit → Disk → Prop) (E : Disk → Prop) :
  revision_ ≠ [] → E d → (proper session revision_ e = false → X) →
  (acceptable e = true →
   wp X (created ← open_append_regular_file;
         call;; open_or_create_directory;; reconcile_event_journal_generation dev created e;; record_event e) d Q E) →
  wp X (append_event dev session revision_ e) d Q E.
Proof using Type.
  intros Hne HE Hx Hw. unfold append_event. pose proof (proper_acceptable session revision_ e) as Ha. unfold proper in *.
  apply wp_bind, wp_lift. destruct (validate_event e) as [s|] eqn:Hv; [|by split; [|apply Hx]].
  apply validate_ok in Hv as ->. cbn [is_ok andb] in *. destruct (is_normal_component session); cbn [negb andb] in *; [|by apply wp_throw; auto].
  apply wp_bind, wp_revalidate; [done|].
  destruct (decide (session_id e = session)) as [Hs|Hs].
  2:{ rewrite (bool_decide_true (session_id e ≠ session)) by done. apply wp_throw; [done|apply Hx]. by rewrite bool_decide_false. }
  rewrite (bool_decide_true (session_id e = session)) in Hx, Ha by done. rewrite (bool_decide_false (session_id e ≠ session)) by auto.
  destruct (decide (revision e = revision_)) as [Hr|Hr].
  2:{ rewrite (bool_decide_true (revision e ≠ revision_)) by done. apply wp_throw; [done|apply Hx]. by rewrite (bool_decide_false (revision e = revision_)). }
  rewrite (bool_decide_true (revision e = revision_)) in Ha by done. rewrite (bool_decide_false (revision e ≠ revision_)) by auto.
  apply wp_bind, wp_revalidate; [done|]. by apply Hw, Ha.
Qed.

Lemma wp_append_live X d ino base es u session revision_ e (Q : unit → Disk → Prop) (E : Disk → Prop) :
  holds d ino base es u → rust_event e → revision_ ≠ [] →
  (proper session revision_ e = false ∨ blamed base (es ++ finished u) e ∨ inodes_spent d → X) →
  (∀ d' base' es' u', holds d' ino base' es' u' → progress base es u e base' es' u' → E d') →
  (∀ d' base' es', holds d' ino base' es' Nothing → progress base es u e base' es' Nothing → e ∈ es' → Q tt d') →
  wp X (append_event dev session revision_ e) d Q E.
Proof using Hdev Hdev64 CJL.
  intros Hh He Hne Hx HE HQ.
  assert (∀ d', holds d' ino base es u → E d') as HE0.
  { intros d' Hd'. apply (HE _ _ _ _ Hd'). by apply progress_none. }
  apply wp_checked; [done|by apply HE0|auto|]. intros Ha.
  apply wp_bind, wp_open_present; [by rewrite (h_events _ _ _ _ _ Hh)|by apply HE0|].
  apply wp_bind, wp_call; [by apply HE0|].
  apply wp_bind, wp_open_directory. intros d1 H1 H2 H3. pose proof (holds_same _ _ _ _ _ _ Hh H1 H2 H3) as Hh1.
  split; [by apply HE0|].
  assert (inodes_spent d1 → X) as Hsp by (unfold inodes_spent; rewrite H2; auto).
  apply wp_bind. eapply wp_reconcile_live; [exact Hh1|by apply HE0|done|].
  apply (wp_record _ _ _ _ _ _ _ _ _ Hh1); [done|by intros [Hb|Hb]; [apply Hx; auto|apply Hsp]|done|done].
Qed.

Lemma dead_created d :
  dead d → events d = None → dead (mkDisk (Some (next_inode d, [])) (markers d) (S (next_inode d))).
Proof using Type.
  intros [H1 H2 H3 H4] He. constructor.
  - intros k b Hk. destruct (H1 k b Hk) as [(i & -> & Hi & _)|?]; [left|by right].
    exists i. split_and!; [done|cbn; lia|]. intros j l [= <- <-]. lia.
  - done.
  - intros j l [= <- <-]. split_and!; [cbn; lia|unfold size, MAX_FILE; cbn; lia|by left].
  - done.
Qed.

Lemma wp_append_dead X d session revision_ e (Q : unit → Disk → Prop) (E : Disk → Prop) :
  dead d → rust_event e → revision_ ≠ [] →
  (proper session revision_ e = false ∨ blamed (log d) [] e ∨ U64_MAX < Z.of_nat (next_inode d) → X) →
  (∀ d', dead d' → log d' = log d → E d') →
  (∀ d' ino base' es' u', holds d' ino base' es' u' → progress (log d) [] Nothing e base' es' u' → E d') →
  (∀ d' ino base' es', holds d' ino base' es' Nothing → progress (log d) [] Nothing e base' es' Nothing → e ∈ es' → Q tt d') →
  wp X (append_event dev session revision_ e) d Q E.
Proof using Hdev Hdev64 CJL.
  intros Hd He Hne Hx HE HEh HQ. apply wp_checked; [done|by apply HE|auto|]. intros Ha.
  assert (∀ d1 ino created, dead d1 → events d1 = Some (ino, log d) → (next_inode d1 ≤ S (next_inode d))%nat →
    wp X (call;; open_or_create_directory;; reconcile_event_journal_generation dev created e;; record_event e) d1 Q E) as Hrest.
  { intros d1 ino created Hd1 He1 Hni. assert (∀ d', dead d' → events d' = events d1 → E d') as HE1.
    { intros d' Hd' Hl. apply HE; [done|]. unfold log at 1. by rewrite Hl, He1. }
    apply wp_bind, wp_call; [by apply HE1|]. apply wp_bind, wp_open_directory. intros d2 H1 H2 H3.
    assert (dead d2) as Hd2 by (apply (dead_shrink d1); [done|done|done|by rewrite H3]). split; [by apply HE1|].
    apply wp_bind. eapply wp_reconcile_dead; [exact Hd2|by rewrite H1|by intros d' Hd' Hl; apply HE1; [|rewrite Hl]| |].
    { intros Hs. apply Hx. unfold inodes_spent in Hs. rewrite H2 in Hs. right; right. lia. }
    intros d3 u' H4 Hh Hu. assert (finished u' = []) as Hf by (destruct u' as [| |f n]; [done..|destruct (Hu f); by exists n]).
    assert (∀ base' es' v, progress (log d) [] u' e base' es' v → progress (log d) [] Nothing e base' es' v) as Hp.
    { intros base' es' v. unfold progress. rewrite Hf. done. }
    split.
    - apply (HEh _ _ _ _ _ Hh). apply progress_none. by intros f Hb%Hu.
    - apply (wp_record _ _ _ _ _ _ _ _ _ Hh); [done| |eauto|eauto]. rewrite Hf.
      intros [Hs|Hs]; apply Hx; [auto|]. unfold inodes_spent in Hs. rewrite H4, H2 in Hs. right; right. lia. }
  apply wp_bind. destruct (events d) as [[ino l]|] eqn:Hev.
  - apply wp_open_present; [by rewrite Hev|by apply HE|]. apply (Hrest d ino); [done| |lia]. unfold log. by rewrite Hev.
  - pose proof (dead_created d Hd Hev) as Hd1. assert (log d = []) as Hl by (unfold log; by rewrite Hev).
    apply wp_open_absent; [done|by apply HE|by apply HE|]. apply (Hrest _ (next_inode d)); [done|by rewrite Hl|done].
Qed.

(** ** Every history of calls *)

(** A call that takes the faults [fs], and the removal of the log by whoever
    starts the companion anew. *)
Inductive Act := ACall (session revision_ : str) (e : CompanionEvent) (fs : list Fault) | ARemoveLog.

Definition act (d : Disk) (a : Act) : Disk :=
  match a with
  | ACall session revision_ e fs => (append_event dev session revision_ e d fs).1.1
  | ARemoveLog => mkDisk None (markers d) (next_inode d)
  end.

(** No event was begun and not finished.  The journal does not look after this
    itself: whoever removes a log while it does not hold finds what
    [half_cleared_blocks] and [half_cleared_revives] show. *)
Definition settled (d : Disk) : Prop := map_Forall (λ k b, is_pending k = true → read_marker b = None) (dir d).

Definition allowed_call (a : Act) : Prop :=
  match a with ACall _ revision_ e _ => rust_event e ∧ revision_ ≠ [] | ARemoveLog => False end.

Definition allowed (d : Disk) (a : Act) : Prop := match a with ARemoveLog => settled d | _ => allowed_call a end.

Definition initial (d : Disk) : Prop :=
  markers d = None
  ∧ match events d with Some (i, l) => l = legacy ∧ (i < next_inode d)%nat ∧ size l ≤ MAX_FILE | None => True end.

Inductive reachable : Disk → Prop :=
  | reach_initial d : initial d → reachable d
  | reach_act d a : reachable d → allowed d a → reachable (act d a).

Lemma dead_removed d : dead d → dead (mkDisk None (markers d) (next_inode d)).
Proof using Type.
  intros [H1 H2 H3 H4]. constructor; [|done|done|done]. intros k b Hk.
  destruct (H1 k b Hk) as [(i & -> & Hi & _)|?]; [left|by right]. by exists i.
Qed.

Lemma dead_initial d : initial d → dead d.
Proof using Type.
  intros [Hm Hl]. assert (dir d = ∅) as Hd by (unfold dir; by rewrite Hm). constructor; rewrite ?Hd.
  - done.
  - by intros k k' [b Hb].
  - intros j l He. rewrite He in Hl. destruct Hl as (-> & Hj & Hs). split_and!; [done|done|right]. split; [done|].
    by intros k [b Hb].
  - rewrite map_size_empty. lia.
Qed.

Lemma holds_dead d ino base es u :
  holds d ino base es u → (∀ f, ¬ begun u f) → dead (mkDisk None (markers d) (next_inode d)).
Proof using Hdev.
  intros Hh Hu. pose proof (h_dir _ _ _ _ _ Hh) as Hdir. constructor; [|clear Hdir|done|exact (holds_size _ _ _ _ _ Hh)].
  - change (dir (mkDisk None (markers d) (next_inode d))) with (dir d). intros k b Hb. rewrite Hdir in Hb.
    assert (∀ k b, <[gen dev ino := []]> (committed_files (length base) es) !! k = Some b →
              left_over (mkDisk None (markers d) (next_inode d)) k b) as Hc.
    { clear k b Hb. intros k b [[<- <-]|[_ Hb]]%lookup_insert_Some.
      - left. exists ino. split_and!; [done|apply Hh|done].
      - apply committed_lookup in Hb as (i & e & Hi & -> & ->); [|apply Hh]. right; left.
        pose proof (h_good _ _ _ _ _ Hh) as Hg. rewrite Forall_lookup in Hg.
        exists (length base + length (render (take i es)))%nat, e. split_and!; [by eapply Hg|by eapply offset_fits|done|done]. }
    pose proof (h_unfinished _ _ _ _ _ Hh) as Hun. unfold files in Hb; cbv zeta in Hb.
    destruct u as [|name b'|f n]; [by apply Hc| |by destruct (Hu f); exists n].
    apply lookup_insert_Some in Hb as [[<- <-]|[_ Hb]]; [|by apply Hc]. destruct Hun as [Hr [id ->]]. right; right. by exists id.
  - intros k k' Hk%in_names Hk'%in_names Hp Hp'. pose proof (holds_pending _ _ _ _ _ Hh) as Hf.
    assert (k ∈ pending_of u ∧ k' ∈ pending_of u) as [H1 H2] by (rewrite <- Hf, !list_elem_of_filter; auto).
    destruct u; cbn in *; [by apply not_elem_of_nil in H1|..]; apply list_elem_of_singleton in H1, H2; congruence.
Qed.

Lemma settled_not_begun d ino base es u f : holds d ino base es u → settled d → ¬ begun u f.
Proof using CJL.
  intros Hh Hs [n ->]. pose proof (h_unfinished _ _ _ _ _ Hh) as (Hf & _). pose proof (offset_fits _ _ _ _ _ (length es) Hh) as Ho.
  rewrite firstn_all in Ho. assert (dir d !! pend f = Some (marker_line (length base + length (render es)) (to_vec f))) as Hl.
  { rewrite (h_dir _ _ _ _ _ Hh). apply lookup_insert_eq. }
  specialize (Hs _ _ Hl (is_pending_pend _)). by rewrite read_marker_line in Hs.
Qed.

Lemma run_live d ino base es u session revision_ e fs :
  holds d ino base es u → rust_event e → revision_ ≠ [] →
  ∃ base' es' u', holds (act d (ACall session revision_ e fs)) ino base' es' u' ∧ progress base es u e base' es' u'
    ∧ ((append_event dev session revision_ e d fs).2 = Ok tt → u' = Nothing ∧ e ∈ es').
Proof using Hdev Hdev64 CJL.
  intros Hh He Hr.
  assert (wp True (append_event dev session revision_ e) d
    (λ _ d', ∃ base' es', holds d' ino base' es' Nothing ∧ progress base es u e base' es' Nothing ∧ e ∈ es')
    (λ d', ∃ base' es' u', holds d' ino base' es' u' ∧ progress base es u e base' es' u')) as Hw.
  { eapply wp_append_live; [exact Hh|done|done|done|eauto 6|eauto 6]. }
  specialize (Hw fs). unfold act. destruct (append_event dev session revision_ e d fs) as [[d' fs'] [[]|]]; cbn [fst snd].
  - destruct Hw as [(base' & es' & H1 & H2 & H3) _]. eauto 8.
  - destruct Hw as [(base' & es' & u' & H1 & H2) _]. exists base', es', u'. split_and!; done.
Qed.

Lemma run_dead d session revision_ e fs :
  dead d → rust_event e → revision_ ≠ [] →
  (dead (act d (ACall session revision_ e fs)) ∧ log (act d (ACall session revision_ e fs)) = log d
     ∧ (append_event dev session revision_ e d fs).2 ≠ Ok tt)
  ∨ ∃ ino base' es' u', holds (act d (ACall session revision_ e fs)) ino base' es' u' ∧ progress (log d) [] Nothing e base' es' u'
    ∧ ((append_event dev session revision_ e d fs).2 = Ok tt → u' = Nothing ∧ e ∈ es').
Proof using Hdev Hdev64 CJL.
  intros Hd He Hr.
  assert (wp True (append_event dev session revision_ e) d
    (λ _ d', ∃ ino base' es', holds d' ino base' es' Nothing ∧ progress (log d) [] Nothing e base' es' Nothing ∧ e ∈ es')
    (λ d', (dead d' ∧ log d' = log d) ∨
           ∃ ino base' es' u', holds d' ino base' es' u' ∧ progress (log d) [] Nothing e base' es' u')) as Hw.
  { eapply wp_append_dead; [exact Hd|done|done|done|by left|right; eauto 7|eauto 7]. }
  specialize (Hw fs). unfold act. destruct (append_event dev session revision_ e d fs) as [[d' fs'] [[]|]]; cbn [fst snd].
  - destruct Hw as [(ino & base' & es' & H1 & H2 & H3) _]. right. eauto 9.
  - destruct Hw as [[[H1 H2]|(ino & base' & es' & u' & H1 & H2)] _]; [by left|right]. exists ino, base', es', u'. split_and!; done.
Qed.

Lemma reachable_shows d : reachable d → dead d ∨ ∃ ino base es u, holds d ino base es u.
Proof using Hdev Hdev64 CJL.
  induction 1 as [d Hi|d a Hr IH Ha].
  - left. by apply dead_initial.
  - destruct a as [session revision_ e fs|]; cbn [allowed allowed_call] in Ha.
    + destruct Ha as [He Hne]. destruct IH as [Hd|(ino & base & es & u & Hh)].
      * destruct (run_dead d session revision_ e fs Hd He Hne) as [[? _]|(ino & base' & es' & u' & Hh & _)]; [by left|right; eauto].
      * destruct (run_live _ _ _ _ _ session revision_ e fs Hh He Hne) as (base' & es' & u' & Hh' & _). right; eauto.
    + left. destruct IH as [Hd|(ino & base & es & u & Hh)].
      * by apply dead_removed.
      * eapply holds_dead; [exact Hh|]. intros f. by eapply settled_not_begun.
Qed.

(** ** What the log holds *)

(** The log is what was there before the first marker, the lines of [es], and
    the first bytes of one more. *)
Record recorded (d : Disk) (base : list byte) (es : list CompanionEvent) (torn : list byte) : Prop := mkRecorded {
  r_log : log d = base ++ render es ++ torn;
  r_base : base = [] ∨ base = legacy ∨ base = whole_lines legacy;
  r_once : NoDup (event_id <$> es);
  r_good : Forall good_event es;
  r_torn : torn = [] ∨ ∃ e, good_event e ∧ event_id e ∉ event_id <$> es ∧ torn `prefix_of` line e
}.

Lemma NoDup_ids (es : list CompanionEvent) : NoDup (key <$> es) → NoDup (event_id <$> es).
Proof using Type.
  intros Hn. apply (NoDup_fmap_1 (λ id, (marker_names id).2)). rewrite <- list_fmap_compose. exact Hn.
Qed.

Lemma id_not_in e (es : list CompanionEvent) : key e ∉ key <$> es → event_id e ∉ event_id <$> es.
Proof using Type.
  intros Hk (f & Hf & Hin)%list_elem_of_fmap. apply Hk, list_elem_of_fmap. exists f. split; [by apply key_event_id|done].
Qed.

Definition torn_of (u : Unfinished) : list byte := match u with Begun e n => take n (line e) | _ => [] end.

Lemma holds_recorded d ino base es u : holds d ino base es u → recorded d base es (torn_of u).
Proof using Type.
  intros Hh. constructor; [by apply (holds_log _ _ _ _ _ Hh)|apply Hh|apply NoDup_ids, Hh|apply Hh|].
  pose proof (h_unfinished _ _ _ _ _ Hh) as Hu. destruct u as [|name b|e n]; [by left..|right]. destruct Hu as (He & Hk & _).
  exists e. split_and!; [done|by apply id_not_in|]. apply prefix_take.
Qed.

Lemma dead_recorded d : dead d → recorded d (log d) [] [].
Proof using Type.
  intros Hd. constructor; [by rewrite app_nil_r| |apply NoDup_nil_2|constructor|by left].
  unfold log. destruct (events d) as [[i l]|] eqn:He; [|by left]. destruct (d_log _ Hd _ _ He) as (_ & _ & [->|[-> _]]); auto.
Qed.

(** A run of calls from a live journal keeps what is recorded. *)
Lemma calls_keep cs : Forall allowed_call cs →
  ∀ d ino base es u, holds d ino base es u → ∃ base' added u', holds (foldl act d cs) ino base' (es ++ added) u'.
Proof using Hdev Hdev64 CJL.
  induction 1 as [|a cs Ha Hcs IH]; intros d ino base es u Hh.
  - exists base, [], u. by rewrite app_nil_r.
  - destruct a as [session revision_ e fs|]; [|done]. destruct Ha as [He Hne]. cbn [foldl].
    destruct (run_live _ _ _ _ _ session revision_ e fs Hh He Hne) as (b1 & es1 & u1 & H1 & (_ & (add1 & -> & _) & _) & _).
    destruct (IH _ _ _ _ _ H1) as (b2 & add2 & u2 & H2). exists b2, (add1 ++ add2), u2. by rewrite (assoc_L (++)).
Qed.

Lemma run_ok d session revision_ e fs d' fs' :
  reachable d → rust_event e → revision_ ≠ [] → append_event dev session revision_ e d fs = (d', fs', Ok tt) →
  ∃ ino base es, holds d' ino base es Nothing ∧ e ∈ es.
Proof using Hdev Hdev64 CJL.
  intros Hr He Hne Hrun. destruct (reachable_shows d Hr) as [Hd|(ino & base & es & u & Hh)].
  - destruct (run_dead d session revision_ e fs Hd He Hne) as [(_ & _ & Hx)|(ino & base & es & u & Hh & _ & Hok)];
      unfold act in *; rewrite Hrun in *; [by destruct Hx|].
    destruct (Hok eq_refl) as [-> Hin]. eauto.
  - destruct (run_live _ _ _ _ _ session revision_ e fs Hh He Hne) as (base' & es' & u' & Hh' & _ & Hok);
      unfold act in *; rewrite Hrun in *. destruct (Hok eq_refl) as [-> Hin]. eauto.
Qed.

(** The marker names of what is recorded or begun are among the identities. *)
Lemma holds_count d ino base es u :
  holds d ino base es u → (length (es ++ finished u) ≤ length (filter (λ n, is_event_identity_marker n = true) (names_of (dir d))))%nat.
Proof using Type.
  intros Hh. rewrite length_app. pose proof (h_keys _ _ _ _ _ Hh) as Hn.
  rewrite <- (length_fmap key es), <- (length_fmap pend (finished u)), <- length_app.
  apply submseteq_length, NoDup_submseteq.
  - apply NoDup_app. split_and!; [done| |by destruct u; [apply NoDup_nil_2..|apply NoDup_singleton]].
    intros k (f & -> & _)%list_elem_of_fmap (g & Hg & _)%list_elem_of_fmap. symmetry in Hg. by apply pend_ne_key in Hg.
  - intros k [Hk|Hk]%elem_of_app; apply list_elem_of_filter; rewrite in_names, (h_dir _ _ _ _ _ Hh), (files_names _ _ _ _ _ _ Hh);
      unfold is_event_identity_marker.
    + split; [|by right; left]. apply list_elem_of_fmap in Hk as (f & -> & _). unfold key. by rewrite is_committed_key, orb_true_r.
    + destruct u as [| |f n]; [by apply not_elem_of_nil in Hk..|]. apply list_elem_of_singleton in Hk as ->.
      split; [|by right; right]. unfold pend. by rewrite is_pending_pend.
Qed.

(** A readable marker for each of them. *)
Lemma holds_marker d ino base es u f :
  holds d ino base es u → f ∈ es ++ finished u → ∃ k b o, dir d !! k = Some b ∧ read_marker b = Some (o, f).
Proof using CJL.
  intros Hh. pose proof (h_good _ _ _ _ _ Hh) as Hg. rewrite Forall_lookup in Hg. intros [[i Hi]%list_elem_of_lookup|Hf]%elem_of_app.
  - pose proof (holds_key _ _ _ _ _ f Hh) as Hk. destruct (dir d !! key f) as [b|] eqn:Hb.
    + destruct Hk as (j & g & Hj & Hgf & ->). exists (key f), (marker_line (length base + length (render (take j es))) (to_vec g)).
      assert (g = f) as ->; [|eexists; split; [done|]; apply read_marker_line; [by eapply Hg|by eapply offset_fits]].
      assert (i = j) as <-; [|congruence]. eapply (NoDup_lookup (key <$> es)); [apply Hh|by rewrite list_lookup_fmap, Hi|].
      rewrite list_lookup_fmap, Hj. cbn. by f_equal.
    + destruct Hk. apply list_elem_of_fmap. exists f. split; [done|]. by eapply list_elem_of_lookup_2.
  - destruct u as [| |g n]; [by apply not_elem_of_nil in Hf..|]. apply list_elem_of_singleton in Hf as ->.
    pose proof (offset_fits _ _ _ _ _ (length es) Hh) as Ho. rewrite firstn_all in Ho. pose proof (h_unfinished _ _ _ _ _ Hh) as (Hf & _).
    exists (pend g), (marker_line (length base + length (render es)) (to_vec g)), (length base + length (render es))%nat.
    split; [rewrite (h_dir _ _ _ _ _ Hh); apply lookup_insert_eq|by apply read_marker_line].
Qed.

Lemma size_line e : good_event e → size (line e) ≤ MAX_COMPANION_EVENT_BYTES + 1.
Proof using Type. intros [_ Ha]. destruct (acceptable_serialized e Ha) as [_ Hs]. unfold size in *. rewrite length_line. lia. Qed.

(** A marker of the name of [e] is of [e] itself. *)
Definition own_name (e : CompanionEvent) (b : list byte) : Prop :=
  match read_marker b with Some (_, f) => key f = key e → f = e | None => True end.

#[export] Instance own_name_decision e b : Decision (own_name e b).
Proof using Type. unfold own_name. destruct (read_marker b) as [[o f]|]; apply _. Defined.

(** Room for the event and for one that was begun, in the log and in the
    directory, and no other event of the same name. *)
Definition room (d : Disk) (e : CompanionEvent) : Prop :=
  inspect_legacy_event_log_tail (log d) ≠ Oversized ∧ Z.of_nat (next_inode d) ≤ U64_MAX
  ∧ size (log d) + 2 * (MAX_COMPANION_EVENT_BYTES + 1) ≤ MAX_FILE
  ∧ size (filter (λ n, is_event_identity_marker n = true) (names_of (dir d))) < MAX_EVENT_IDENTITIES_PER_SESSION
  ∧ map_Forall (λ _ b, own_name e b) (dir d).

Lemma room_not_blamed d ino base es u e :
  holds d ino base es u → good_event e → room d e → ¬ blamed base (es ++ finished u) e.
Proof using CJL.
  intros Hh He (H1 & _ & H2 & H3 & H4). pose proof (size_line e He) as Hs. rewrite (holds_log _ _ _ _ _ Hh) in *. intros [Hb|[Hb|[Hb|Hb]]].
  - destruct (decide (es ++ finished u = [])) as [Hnil|Hne].
    + rewrite Hnil in Hb. apply app_eq_nil in Hnil as [-> Hf]. apply H1. rewrite content_nothing, app_nil_r in Hb.
      destruct u; [..|done]; unfold content; cbn; by rewrite app_nil_r.
    + pose proof (inspect_tail (content base (es ++ finished u) Nothing)) as Ht. rewrite Hb in Ht. apply Ht, content_ends.
      destruct (h_ends _ _ _ _ _ Hh) as [|[-> Hn]]; [done|]. destruct u as [| |f n]; [done..|]. destruct (Hn f). by exists n.
  - destruct Hb as (f & Hf & Hk & Hne). destruct (holds_marker _ _ _ _ _ _ Hh Hf) as (k & b & o & Hl & Hr).
    specialize (H4 _ _ Hl). unfold own_name in H4. rewrite Hr in H4. by apply Hne, H4.
  - pose proof (holds_count _ _ _ _ _ Hh). unfold size in *. lia.
  - assert (size (content base (es ++ finished u) Nothing) ≤ size (content base es u) + MAX_COMPANION_EVENT_BYTES + 1); [|lia].
    pose proof (h_unfinished _ _ _ _ _ Hh) as Hu. unfold content. destruct u as [| |f n]; cbn [finished].
    1,2: rewrite !app_nil_r; unfold MAX_COMPANION_EVENT_BYTES; lia.
    destruct Hu as [Hf _]. apply size_line in Hf. rewrite render_events_app, render_one. unfold size in *. rewrite !length_app. cbn [length]. lia.
Qed.

(** *** The history of a log *)

(** A log is removed only while no event is begun in it, calls give events of
    the program's types. *)
Fixpoint admitted (d : Disk) (acts : list Act) : Prop :=
  match acts with [] => True | a :: acts => allowed d a ∧ admitted (act d a) acts end.

Definition is_removal (a : Act) : bool := match a with ARemoveLog => true | _ => false end.

(** What the log held before the calls on it: nothing, once it was removed. *)
Definition earlier (d : Disk) (acts : list Act) : list byte := if existsb is_removal acts then [] else log d.

(** The events of the calls since the log was last removed, the latest last. *)
Definition given (acts : list Act) : list CompanionEvent :=
  foldl (λ l a, match a with ACall _ _ e _ => l ++ [e] | ARemoveLog => [] end) [] acts.

(** ... and of those among them that ended well, in a run from [d]. *)
Fixpoint acknowledged_from (l : list CompanionEvent) (d : Disk) (acts : list Act) : list CompanionEvent :=
  match acts with
  | [] => l
  | a :: acts =>
      acknowledged_from
        match a with
        | ACall session revision_ e fs => if is_ok (append_event dev session revision_ e d fs).2 then l ++ [e] else l
        | ARemoveLog => []
        end (act d a) acts
  end.

Definition acknowledged (d : Disk) (acts : list Act) : list CompanionEvent := acknowledged_from [] d acts.

Lemma admitted_snoc d acts a : admitted d (acts ++ [a]) ↔ admitted d acts ∧ allowed (foldl act d acts) a.
Proof using Type. revert d. induction acts as [|b acts IH]; intros d; cbn; [tauto|]. rewrite IH. tauto. Qed.

Lemma acknowledged_snoc d acts a :
  acknowledged d (acts ++ [a]) =
    match a with
    | ACall session revision_ e fs =>
        acknowledged d acts ++ (if is_ok (append_event dev session revision_ e (foldl act d acts) fs).2 then [e] else [])
    | ARemoveLog => []
    end.
Proof using Type.
  unfold acknowledged.
  enough (∀ l, acknowledged_from l d (acts ++ [a]) =
    match a with
    | ACall session revision_ e fs =>
        acknowledged_from l d acts ++
          (if is_ok (append_event dev session revision_ e (foldl act d acts) fs).2 then [e] else [])
    | ARemoveLog => []
    end) by done.
  revert d. induction acts as [|b acts IH]; intros d l; cbn [app acknowledged_from foldl]; [|apply IH].
  destruct a; [|done]. case_match; [done|by rewrite app_nil_r].
Qed.

Lemma earlier_snoc d acts a : earlier d (acts ++ [a]) = if is_removal a then [] else earlier d acts.
Proof using Type. unfold earlier. rewrite existsb_app. cbn. destruct (is_removal a), (existsb is_removal acts); done. Qed.

Lemma given_snoc acts a :
  given (acts ++ [a]) = match a with ACall _ _ e _ => given acts ++ [e] | ARemoveLog => [] end.
Proof using Type. unfold given. by rewrite foldl_app. Qed.

Lemma whole_lines_idemp l : whole_lines (whole_lines l) = whole_lines l.
Proof using Type.
  destruct (whole_lines_end l) as [->|Hl]; [done|]. generalize dependent (whole_lines l). clear. intros l Hl.
  destruct l as [|b l _] using rev_ind; [done|]. rewrite last_snoc in Hl. injection Hl as ->.
  unfold whole_lines. rewrite rposition_app. cbn.
  rewrite take_ge by (rewrite length_app; cbn; lia). done.
Qed.

(** The journal stands where the history left it. *)
Definition stands (d : Disk) (before : list byte) (gave acked : list CompanionEvent) : Prop :=
  (dead d ∧ log d = before ∧ acked = [])
  ∨ ∃ ino base es u, holds d ino base es u ∧ (base = before ∨ base = whole_lines before)
      ∧ es ++ finished u `sublist_of` gave ∧ acked ⊆ es.

Lemma progress_base base es u e base' es' u' before :
  progress base es u e base' es' u' → (base = before ∨ base = whole_lines before) →
  base' = before ∨ base' = whole_lines before.
Proof using Type. intros ([->|[_ ->]] & _) [->| ->]; rewrite ?whole_lines_idemp; auto. Qed.

Lemma stands_call d before gave acked session revision_ e fs :
  stands d before gave acked → rust_event e → revision_ ≠ [] →
  stands (act d (ACall session revision_ e fs)) before (gave ++ [e])
    (acked ++ if is_ok (append_event dev session revision_ e d fs).2 then [e] else []).
Proof using Hdev Hdev64 CJL.
  assert (∀ es', ((append_event dev session revision_ e d fs).2 = Ok tt → e ∈ es') →
            (if is_ok (append_event dev session revision_ e d fs).2 then [e] else []) ⊆ es') as Hacked.
  { intros es' Hin. destruct (append_event dev session revision_ e d fs) as [? [[]|?]]; cbn in *; [|apply list_subseteq_nil].
    intros f ->%list_elem_of_singleton. by apply Hin. }
  intros [(Hd & Hl & ->)|(ino & base & es & u & Hh & Hb & Hs & Ha)] He Hne.
  - destruct (run_dead d session revision_ e fs Hd He Hne) as [(Hd' & Hl' & Hr)|(ino & base' & es' & u' & Hh' & Hp & Hr)].
    + left. split_and!; [done|by rewrite Hl'|]. by destruct (append_event dev session revision_ e d fs) as [? [[]|?]].
    + right. exists ino, base', es', u'. split_and!; [done| | |].
      * eapply progress_base; [exact Hp|by left].
      * destruct Hp as (_ & _ & Hp). etrans; [exact Hp|]. by apply sublist_inserts_l.
      * apply Hacked. by intros [_ Hin]%Hr.
  - destruct (run_live _ _ _ _ _ session revision_ e fs Hh He Hne) as (base' & es' & u' & Hh' & Hp & Hr).
    right. exists ino, base', es', u'. split_and!; [done|by eapply progress_base| |].
    + destruct Hp as (_ & _ & Hp). etrans; [exact Hp|]. rewrite (assoc_L (++)). by apply sublist_app.
    + destruct Hp as (_ & (added & -> & _) & _). intros f [Hf|Hf]%elem_of_app.
      * apply elem_of_app. left. by apply Ha.
      * revert Hf. apply Hacked. by intros [_ Hin]%Hr.
Qed.

Lemma history_stands d acts :
  initial d → admitted d acts → stands (foldl act d acts) (earlier d acts) (given acts) (acknowledged d acts).
Proof using Hdev Hdev64 CJL.
  intros Hi. induction acts as [|a acts IH] using rev_ind.
  - intros _. left. split_and!; [by apply dead_initial|done|done].
  - rewrite admitted_snoc. intros [Had Ha]. specialize (IH Had).
    rewrite foldl_app, earlier_snoc, given_snoc, acknowledged_snoc. cbn [foldl].
    destruct a as [session revision_ e fs|]; cbn [allowed allowed_call is_removal] in *.
    + destruct Ha as [He Hne]. by apply stands_call.
    + left. split_and!; [|done|done]. destruct IH as [(Hd & _)|(ino & base & es & u & Hh & _)].
      * by apply dead_removed.
      * eapply holds_dead; [exact Hh|]. intros f. by eapply settled_not_begun.
Qed.

(** C8: whatever fails and wherever a process dies, the log is what it held before
    (or the whole lines of that), then lines of events that were given to calls, in
    the order in which they were given and none of them twice, among them the line
    of each event whose call ended well, and at the end at most the beginning of
    the line of one more event that was given. A log that is removed starts anew,
    and is only removed while no event is begun in it. *)
Theorem log_holds_each_event_once d acts :
  initial d → admitted d acts →
  ∃ base es torn,
    recorded (foldl act d acts) base es torn
    ∧ (base = earlier d acts ∨ base = whole_lines (earlier d acts))
    ∧ acknowledged d acts ⊆ es
    ∧ (torn = [] ∧ es `sublist_of` given acts
       ∨ ∃ e, es ++ [e] `sublist_of` given acts ∧ torn `prefix_of` line e).
Proof using Hdev Hdev64 CJL.
  intros Hi Had. destruct (history_stands d acts Hi Had) as [(Hd & Hl & Ha)|(ino & base & es & u & Hh & Hb & Hs & Ha)].
  - exists (log (foldl act d acts)), [], []. split_and!; [by apply dead_recorded|by left|by rewrite Ha|left].
    split; [done|apply sublist_nil_l].
  - exists base, es, (torn_of u). split_and!; [by eapply holds_recorded|done|done|].
    destruct u as [| |e n]; cbn [finished torn_of] in *; [left; by rewrite app_nil_r in Hs..|right].
    exists e. split; [done|apply prefix_take].
Qed.

(** C18: a call that ends well has its event in the log, and there it stays,
    whatever later calls do and whatever fails under them, until the log is
    removed. *)
Theorem acknowledged_event_stays d session revision_ e fs d' fs' cs :
  reachable d → rust_event e → revision_ ≠ [] →
  append_event dev session revision_ e d fs = (d', fs', Ok tt) → Forall allowed_call cs →
  ∃ base es torn, recorded (foldl act d' cs) base es torn ∧ e ∈ es.
Proof using Hdev Hdev64 CJL.
  intros Hr He Hne Hrun Hcs. destruct (run_ok _ _ _ _ _ _ _ Hr He Hne Hrun) as (ino & base & es & Hh & Hin).
  destruct (calls_keep cs Hcs _ _ _ _ _ Hh) as (base' & added & u' & Hh').
  exists base', (es ++ added), (torn_of u'). split; [by eapply holds_recorded|]. apply elem_of_app. by left.
Qed.

(** Giving an acknowledged event again leaves the log as it is, also when
    the second call fails half way. *)
Theorem repeated_event_leaves_log d session revision_ e fs d' fs' session' revision' gs :
  reachable d → rust_event e → revision_ ≠ [] → revision' ≠ [] →
  append_event dev session revision_ e d fs = (d', fs', Ok tt) →
  log (act d' (ACall session' revision' e gs)) = log d'.
Proof using Hdev Hdev64 CJL.
  intros Hr He Hne Hne' Hrun. destruct (run_ok _ _ _ _ _ _ _ Hr He Hne Hrun) as (ino & base & es & Hh & Hin).
  destruct (run_live _ _ _ _ _ session' revision' e gs Hh He Hne') as (base' & es' & u' & Hh' & Hp & _).
  assert (∀ f, begun u' f → f ∈ es ++ [e]) as Hu by (intros f; by apply (progress_begun _ _ _ _ _ _ _ f Hp)).
  destruct Hp as (Hb & (added & -> & Ha) & _).
  rewrite (holds_log _ _ _ _ _ Hh), (holds_log _ _ _ _ _ Hh'). cbn [finished] in *. rewrite app_nil_r in Hb.
  destruct Hb as [->|[-> _]]; [|by apply not_elem_of_nil in Hin].
  assert (key e ∈ key <$> es) as Hk by (apply list_elem_of_fmap; eauto).
  assert (added = []) as ->.
  { destruct added as [|f added]; [done|]. assert (f = e) as -> by (apply list_elem_of_singleton, Ha; by left).
    pose proof (h_keys _ _ _ _ _ Hh') as Hn. rewrite fmap_app, NoDup_app in Hn. destruct Hn as (_ & Hn & _).
    destruct (Hn _ Hk). by left. }
  rewrite app_nil_r in *. pose proof (h_unfinished _ _ _ _ _ Hh') as Hun. destruct u' as [| |f n]; [done|done|].
  destruct Hun as (_ & Hf & _). pose proof (Hu f ltac:(by exists n)) as Hfe. apply elem_of_app in Hfe as [Hin'| ->%list_elem_of_singleton]; [|done].
  destruct Hf. apply list_elem_of_fmap. by exists f.
Qed.

(** A call keeps the lines of the log and adds none but its own event's and
    that of an event whose marker an earlier call left. *)
Theorem call_adds_only_its_event d session revision_ e fs :
  reachable d → rust_event e → revision_ ≠ [] →
  ∃ base es torn base' added torn',
    recorded d base es torn ∧ recorded (act d (ACall session revision_ e fs)) base' (es ++ added) torn'
    ∧ ∀ f, f ∈ added → f = e ∨ ∃ k b o, is_pending k = true ∧ dir d !! k = Some b ∧ read_marker b = Some (o, f).
Proof using Hdev Hdev64 CJL.
  intros Hr He Hne. destruct (reachable_shows d Hr) as [Hd|(ino & base & es & u & Hh)].
  - destruct (run_dead d session revision_ e fs Hd He Hne) as [(Hd' & Hl & _)|(ino & base' & es' & u' & Hh' & (_ & (added & -> & Ha) & _) & _)].
    + exists (log d), [], [], (log d), [], []. split_and!; [by apply dead_recorded|rewrite <- Hl; by apply dead_recorded|].
      by intros f Hf%not_elem_of_nil.
    + exists (log d), [], [], base', added, (torn_of u'). split_and!; [by apply dead_recorded|by eapply holds_recorded|].
      intros f Hf%Ha. left. by apply list_elem_of_singleton.
  - destruct (run_live _ _ _ _ _ session revision_ e fs Hh He Hne) as (base' & es' & u' & Hh' & (_ & (added & -> & Ha) & _) & _).
    exists base, es, (torn_of u), base', added, (torn_of u'). split_and!; [by eapply holds_recorded|by eapply holds_recorded|].
    intros f [Hf|Hf%list_elem_of_singleton]%Ha%elem_of_app; [right|by left].
    destruct u as [| |g n]; [by apply not_elem_of_nil in Hf..|]. apply list_elem_of_singleton in Hf as ->.
    pose proof (offset_fits _ _ _ _ _ (length es) Hh) as Ho. rewrite firstn_all in Ho. pose proof (h_unfinished _ _ _ _ _ Hh) as (Hf & _).
    exists (pend g), (marker_line (length base + length (render es)) (to_vec g)), (length base + length (render es))%nat.
    split_and!; [apply is_pending_pend|rewrite (h_dir _ _ _ _ _ Hh); apply lookup_insert_eq|by apply read_marker_line].
Qed.

(** C19: no history of failures blocks the journal, as long as its log is removed
    only while no event is begun in it: a call under which nothing fails ends well,
    if its arguments are proper and there is room for its event and for one that
    was begun. (A log removed while an event is begun can leave the journal
    blocked: [half_cleared_blocks].) *)
Theorem no_failure_blocks_the_journal d session revision_ e :
  reachable d → rust_event e → revision_ ≠ [] → proper session revision_ e = true → room d e →
  ∃ d', append_event dev session revision_ e d [] = (d', [], Ok tt).
Proof using Hdev Hdev64 CJL.
  intros Hr He Hne Hp Hroom. assert (good_event e) as Hg by (split; [done|by eapply proper_acceptable]).
  assert (wp False (append_event dev session revision_ e) d (λ _ _, True) (λ _, True)) as Hw.
  { destruct (reachable_shows d Hr) as [Hd|(ino & base & es & u & Hh)].
    - apply wp_append_dead; try done. intros [Hf|Hb]; [congruence|]. destruct Hroom as (H1 & H0 & H2 & _). destruct Hb as [Hb|Hb]; [|lia].
      pose proof (size_line e Hg) as Hs. unfold blamed in Hb. rewrite content_nothing, app_nil_r in Hb.
      destruct Hb as [Hb|[(f & Hf%not_elem_of_nil & _)|[Hb|Hb]]]; [done|done|by cbn in Hb|].
      unfold MAX_COMPANION_EVENT_BYTES in *. lia.
    - eapply wp_append_live; [exact Hh|done|done| |done|done]. intros [Hf|[Hb|Hb]]; [congruence|by eapply room_not_blamed|].
      destruct Hroom as (_ & H0 & _). unfold inodes_spent in Hb. lia. }
  specialize (Hw []). destruct (append_event dev session revision_ e d []) as [[d' fs'] [[]|err]].
  - destruct Hw as [_ ->]; [|done]. by exists d'.
  - by destruct Hw as [_ []].
Qed.
End state.

(** ** An instance *)

(** Events as lists of their fields, the optional one with a mark, printed as
    the bits of stdpp's encoding. *)
Definition event_fields (e : CompanionEvent) : list (list Z) :=
  [session_id e; revision e; event_id e; event_type e; choice e; text e;
   match element_id e with Some s => 1 :: s | None => [] end; [timestamp e]].

Definition event_of_fields (l : list (list Z)) : option CompanionEvent :=
  match l with
  | [a; b; c; d; e; f; g; [t]] =>
      Some (mkEvent a b c d e f (match g with _ :: s => Some s | [] => None end) t)
  | _ => None
  end.

Fixpoint bits (p : positive) : list byte :=
  match p with xH => [] | xO p => 48 :: bits p | xI p => 49 :: bits p end.

Fixpoint of_bits (l : list byte) : positive :=
  match l with [] => xH | b :: l => if b =? 49 then xI (of_bits l) else xO (of_bits l) end.

#[local] Instance bits_json : CompanionJson := {|
  to_vec e := bits (encode (event_fields e));
  from_slice l := decode (of_bits l) ≫= event_of_fields
|}.

Lemma of_bits_bits p : of_bits (bits p) = p.
Proof. induction p as [p IH|p IH|]; cbn; by rewrite ?IH. Qed.

Lemma bits_range p : Forall (λ b, b = 48 ∨ b = 49) (bits p).
Proof. induction p; cbn; constructor; auto. Qed.

#[local] Instance bits_json_laws : CompanionJsonLaws.
Proof.
  split.
  - intros e _. cbn. rewrite of_bits_bits, decode_encode. cbn. by destruct e as [? ? ? ? ? ? [?|] ?].
  - intros e _ Hin. pose proof (bits_range (encode (event_fields e))) as H.
    rewrite Forall_forall in H. apply H in Hin. lia.
Qed.

Lemma sum_digest_bytes l : Forall is_u8 ((foldr Z.add 0 l mod 256) :: replicate 31 0).
Proof. constructor; [unfold is_u8; pose proof (Z.mod_pos_bound (foldr Z.add 0 l) 256); lia|]. by apply (bool_decide_unpack _). Qed.

Definition sum_digest : Sha256 :=
  {| digest l := (foldr Z.add 0 l mod 256) :: replicate 31 0; digest_bytes := sum_digest_bytes; digest_length _ := eq_refl |}.
#[local] Existing Instance sum_digest.

Definition click (id : string) (choice : string) : CompanionEvent :=
  mkEvent (lit "s") (lit "r") (lit id) (lit "click") (lit choice) [] None 5.

(** The log of an earlier program, its last line torn; then a call that dies
    after two bytes of its line. *)
Definition old_log : list byte := lit "old" ++ [10] ++ lit "to".
Definition first_disk : Disk := mkDisk (Some (3%nat, old_log)) None 7.
Definition dying_call : Act := ACall (lit "s") (lit "r") (click "a" "yes") (replicate 26 Done ++ [Fails 2]).
Definition torn_disk : Disk := act 9 first_disk dying_call.

#[local] Instance valid_str_decision s : Decision (valid_str s).
Proof. unfold valid_str, is_char. apply _. Defined.
#[local] Instance rust_event_decision e : Decision (rust_event e).
Proof. unfold rust_event, is_u64. destruct (element_id e); apply _. Defined.

Lemma torn_reachable : reachable 9 old_log torn_disk.
Proof.
  apply (reach_act 9 old_log first_disk dying_call).
  - apply reach_initial. split; [done|]. split_and!; [done|cbn; lia|by vm_compute].
  - split; [|done]. by apply (bool_decide_unpack _).
Qed.

Lemma click_rust : rust_event (click "a" "yes") ∧ rust_event (click "b" "no").
Proof. split; by apply (bool_decide_unpack _). Qed.

Definition next_disk : Disk := act 9 torn_disk (ACall (lit "s") (lit "r") (click "b" "no") []).

(** A call that dies, and one that ends well. *)
Definition two_calls : list Act := [dying_call; ACall (lit "s") (lit "r") (click "b" "no") []].

Lemma log_holds_each_event_once_witness :
  ∃ base es torn,
    recorded old_log (foldl (act 9) first_disk two_calls) base es torn
    ∧ (base = earlier first_disk two_calls ∨ base = whole_lines (earlier first_disk two_calls))
    ∧ acknowledged 9 first_disk two_calls ⊆ es
    ∧ (torn = [] ∧ es `sublist_of` given two_calls
       ∨ ∃ e, es ++ [e] `sublist_of` given two_calls ∧ torn `prefix_of` line e).
Proof.
  refine (log_holds_each_event_once 9 ltac:(done) ltac:(done) old_log first_disk two_calls _ _).
  - split; [done|]. split_and!; [done|cbn; lia|by vm_compute].
  - split; [split; [by apply (bool_decide_unpack _)|done]|].
    split; [split; [by apply (bool_decide_unpack _)|done]|done].
Defined.

(** The call that ended well is among those acknowledged. *)
Example two_calls_acknowledged : acknowledged 9 first_disk two_calls = [click "b" "no"].
Proof. vm_compute. reflexivity. Qed.

Lemma acknowledged_event_stays_witness :
  ∃ base es torn,
    recorded old_log (foldl (act 9) next_disk [ACall (lit "s") (lit "r") (click "a" "no") [Done; Fails 0]]) base es torn
    ∧ click "b" "no" ∈ es.
Proof.
  refine (acknowledged_event_stays 9 _ _ old_log torn_disk (lit "s") (lit "r") (click "b" "no") [] next_disk [] _
            torn_reachable (proj2 click_rust) _ _ _); [done|done|done|by vm_compute|].
  constructor; [|constructor]. split; [|done]. by apply (bool_decide_unpack _).
Defined.

Lemma repeated_event_leaves_log_witness :
  log (act 9 next_disk (ACall (lit "s") (lit "r") (click "b" "no") (replicate 9 Done ++ [Fails 0]))) = log next_disk.
Proof.
  refine (repeated_event_leaves_log 9 _ _ old_log torn_disk (lit "s") (lit "r") (click "b" "no") [] next_disk []
            (lit "s") (lit "r") _ torn_reachable (proj2 click_rust) _ _ _); [done|done|done|done|by vm_compute].
Defined.

Lemma call_adds_only_its_event_witness :
  ∃ base es torn base' added torn',
    recorded old_log torn_disk base es torn
    ∧ recorded old_log (act 9 torn_disk (ACall (lit "s") (lit "r") (click "b" "no") [])) base' (es ++ added) torn'
    ∧ ∀ f, f ∈ added → f = click "b" "no" ∨ ∃ k b o, is_pending k = true ∧ dir torn_disk !! k = Some b ∧ read_marker b = Some (o, f).
Proof.
  refine (call_adds_only_its_event 9 _ _ old_log torn_disk (lit "s") (lit "r") (click "b" "no") [] torn_reachable (proj2 click_rust) _); done.
Defined.

Lemma no_failure_blocks_the_journal_witness :
  ∃ d', append_event 9 (lit "s") (lit "r") (click "b" "no") torn_disk [] = (d', [], Ok tt).
Proof.
  refine (no_failure_blocks_the_journal 9 _ _ old_log torn_disk (lit "s") (lit "r") (click "b" "no") torn_reachable (proj2 click_rust) _ _ _);
    [done|done|done|by vm_compute|]. split_and!; [by vm_compute|by vm_compute|by vm_compute|by vm_compute|apply (bool_decide_unpack _); by vm_compute].
Defined.

(** ** A log that is removed while an event is begun

    The markers of the earlier log are removed in the order of their names, that
    of the generation before one whose digest starts with [f].  A process that
    dies in between leaves the marker of the event that was begun without the
    generation it belonged to. *)

Definition begun_disk (d : Disk) : Disk := act 9 d (ACall (lit "s") (lit "r") (click "xx" "yes") (replicate 26 Done ++ [Fails 2])).
Definition half_cleared (d : Disk) : Disk :=
  act 9 (act 9 (begun_disk d) ARemoveLog) (ACall (lit "s") (lit "r") (click "b" "no") (replicate 13 Done ++ [Fails 0])).

(** Every later call fails when the event was not the first of its log ... *)
Lemma half_cleared_blocks :
  let d := act 9 (half_cleared first_disk) (ACall (lit "s") (lit "r") (click "b" "no") []) in
  append_event 9 (lit "s") (lit "r") (click "b" "no") d [] = (d, [], Err Internal).
Proof. vm_compute. reflexivity. Qed.

(** ... and when it was, the new log begins with it. *)
Lemma half_cleared_revives :
  log (act 9 (half_cleared (mkDisk None None 7)) (ACall (lit "s") (lit "r") (click "b" "no") []))
  = line (click "xx" "yes") ++ line (click "b" "no").
Proof. vm_compute. reflexivity. Qed.

(** ** A log made anew in the inode of the one removed

    The markers of the earlier log are then taken for its own, and an event they
    name is refused though the log is empty. *)

Definition reused_inode : Disk := mkDisk None (markers next_disk) 3.

Lemma reused_inode_refuses :
  let r := append_event 9 (lit "s") (lit "r") (click "b" "no") reused_inode [] in
  r.2 = Err Internal ∧ log r.1.1 = [].
Proof. vm_compute. auto. Qed.
