(* ===== verification/TransferWork.v ===== *)
(** * The transfer engine's durable queue
      ([crates/kanna-server/src/db/transfer_work.rs], [transfer_engine.rs],
      [transfer_engine/queue.rs])

    Every step of moving a task between machines is a row of [transfer_work];
    the steps that must not happen twice claim a row of [transfer_work_phase].
    The engine drains the table: at most eight items at a time, at most one for
    each transfer, retries with a back-off, and takes up after a restart what the
    last process left running.  One step of [engine_next] is one SQL statement,
    one access to the set of busy transfers, or one wake-up; a restart may come
    between any two.  What an item does besides its phases and its outcome
    (sessions, git, the peer) is the environment's, so [AEffect] says how a
    guarded effect went.  Times are SQLite's seconds; a statement may fail. *)

From S2P Require Import Prelude RustStd.
Local Open Scope Z_scope.

Definition RETRY_BACKOFF_SECONDS : list Z := [1; 5; 30; 120; 600].
Definition MAX_TRANSFER_WORK_ATTEMPTS : Z := 8.
Definition MAX_CONCURRENT_WORK : nat := 8.
Definition IDLE_POLL : Z := 30.

(** ** The tables *)

Inductive WorkStatus := Pending | Running | Done | Failed.
#[export] Instance WorkStatus_eq_dec : EqDecision WorkStatus.
Proof. solve_decision. Defined.

Record WorkRow := mkRow {
  kind : str;
  transfer_id : option str;
  payload_json : str;
  status : WorkStatus;
  attempts : Z;
  error : option str;
  created_at : Z;
  updated_at : Z;
  run_after : Z
}.

Record TransferWorkItem := mkItem {
  item_id : str;
  item_kind : str;
  item_transfer : option str;
  item_payload : str;
  item_attempts : Z
}.

Record Db := mkDb { work : gmap str WorkRow; phases : gmap (str * str) (option str) }.

Definition set_work (db : Db) (m : gmap str WorkRow) : Db := mkDb m (phases db).
Definition set_phases (db : Db) (m : gmap (str * str) (option str)) : Db := mkDb (work db) m.

Definition enqueue_transfer_work (now : Z) (id kind : str) (transfer : option str) (payload : str) (db : Db) : Db * bool :=
  match work db !! id with
  | Some _ => (db, false)
  | None => (set_work db (<[id := mkRow kind transfer payload Pending 0 None now now now]> (work db)), true)
  end.

(** [transfer_id IS NULL OR transfer_id NOT IN (...)]. *)
Definition passed_over (busy : list str) (r : WorkRow) : bool :=
  match transfer_id r with Some t => bool_decide (t ∈ busy) | None => false end.

Definition claimable (busy : list str) (now : Z) (r : WorkRow) : bool :=
  bool_decide (status r = Pending) && (run_after r <=? now) && negb (passed_over busy r).

(** [ORDER BY run_after, created_at, id]. *)
Definition claim_order (x y : str * WorkRow) : comparison :=
  then_with (run_after x.2 ?= run_after y.2)
    (then_with (created_at x.2 ?= created_at y.2) (str_cmp x.1 y.1)).

Definition read_work_item (id : str) (r : WorkRow) : TransferWorkItem :=
  mkItem id (kind r) (transfer_id r) (payload_json r) (attempts r).

Definition claimed_row (now : Z) (r : WorkRow) : WorkRow :=
  mkRow (kind r) (transfer_id r) (payload_json r) Running (attempts r + 1) (error r) (created_at r) now (run_after r).

Definition claim_next_transfer_work (busy : list str) (now : Z) (db : Db) : Db * option TransferWorkItem :=
  match head (sort_by (cmp_le claim_order) (filter (λ p, claimable busy now p.2 = true) (map_to_list (work db)))) with
  | Some (id, r) =>
      let r' := claimed_row now r in
      (set_work db (<[id := r']> (work db)), Some (read_work_item id r'))
  | None => (db, None)
  end.

Fixpoint minimum (l : list Z) : option Z :=
  match l with
  | [] => None
  | x :: l => Some (match minimum l with Some y => Z.min x y | None => x end)
  end.

Definition next_transfer_work_delay_seconds (busy : list str) (now : Z) (db : Db) : option Z :=
  let waiting := filter (λ p, bool_decide (status p.2 = Pending) && negb (passed_over busy p.2) = true)
                   (map_to_list (work db)) in
  soonest ← minimum (map (λ p, run_after p.2) waiting);
  Some (Z.max 0 (soonest - now)).

Definition complete_transfer_work (now : Z) (id : str) (db : Db) : Db :=
  set_work db (alter (λ r, mkRow (kind r) (transfer_id r) (payload_json r) Done (attempts r) None (created_at r) now (run_after r))
                 id (work db)).

Definition backoff (attempts : Z) : Z :=
  nth (Nat.min (Z.to_nat (Z.max attempts 1) - 1) (length RETRY_BACKOFF_SECONDS - 1)) RETRY_BACKOFF_SECONDS 0.

(** Whether the item may be tried again. *)
Definition fail_transfer_work_attempt (now : Z) (id : str) (attempts_ : Z) (reason : str) (db : Db) : Db * bool :=
  if MAX_TRANSFER_WORK_ATTEMPTS <=? attempts_ then
    (set_work db (alter (λ r, mkRow (kind r) (transfer_id r) (payload_json r) Failed (attempts r) (Some reason) (created_at r) now (run_after r))
                    id (work db)), false)
  else
    (set_work db (alter (λ r, mkRow (kind r) (transfer_id r) (payload_json r) Pending (attempts r) (Some reason) (created_at r) now
                                (now + backoff attempts_))
                    id (work db)), true).

Definition requeued_row (now : Z) (r : WorkRow) : WorkRow :=
  if bool_decide (status r = Running)
  then mkRow (kind r) (transfer_id r) (payload_json r) Pending (attempts r) (error r) (created_at r) now now
  else r.

Definition requeue_interrupted_transfer_work (now : Z) (db : Db) : Db := set_work db (requeued_row now <$> work db).

Definition claim_transfer_work_phase (work_id phase : str) (db : Db) : Db * bool :=
  match phases db !! (work_id, phase) with
  | Some _ => (db, false)
  | None => (set_phases db (<[(work_id, phase) := None]> (phases db)), true)
  end.

Definition release_transfer_work_phase (work_id phase : str) (db : Db) : Db :=
  set_phases db (delete (work_id, phase) (phases db)).

Definition read_transfer_work_observation (work_id phase : str) (db : Db) : option (option str) :=
  phases db !! (work_id, phase).

Definition record_transfer_work_observation (work_id phase : str) (value : option str) (db : Db) : Db * option str :=
  let db := match phases db !! (work_id, phase) with
            | Some _ => db
            | None => set_phases db (<[(work_id, phase) := value]> (phases db))
            end in
  (db, default None (read_transfer_work_observation work_id phase db)).

(** ** What schedules work *)

Definition KIND_INCOMING_REQUEST : str := lit "incoming-request".
Definition KIND_PUSH : str := lit "push".
Definition KIND_FINALIZE : str := lit "finalize".
Definition KIND_OUTGOING_COMMITTED : str := lit "outgoing-committed".

(** A value that no other process and no other call draws: [next] counts the
    calls of the process. *)
Definition unique_work_nonce (pid nanos next : Z) : str :=
  decimal pid ++ lit "-" ++ decimal nanos ++ lit "-" ++ decimal next.

Record DurableEventWork := mkWork { work_id : str; work_kind : str; work_transfer : option str }.

(** An event is read through its string fields. *)
Definition durable_event_work (string_field : str → option str) (incarnation : str) : option DurableEventWork :=
  event_type ← string_field (lit "type");
  if bool_decide (event_type = lit "incoming_transfer_request") then
    transfer_id ← string_field (lit "transfer_id");
    Some (mkWork (lit "incoming:" ++ transfer_id) KIND_INCOMING_REQUEST (Some transfer_id))
  else if bool_decide (event_type = lit "task_pull_requested") then
    request_id ← string_field (lit "request_id");
    Some (mkWork (lit "pull:" ++ incarnation ++ lit ":" ++ request_id) KIND_PUSH None)
  else if bool_decide (event_type = lit "outgoing_transfer_committed") then
    transfer_id ← string_field (lit "transfer_id");
    Some (mkWork (lit "committed:" ++ transfer_id) KIND_OUTGOING_COMMITTED (Some transfer_id))
  else if bool_decide (event_type = lit "outgoing_transfer_finalization_requested") then
    transfer_id ← string_field (lit "transfer_id");
    Some (mkWork (lit "finalize:" ++ transfer_id) KIND_FINALIZE (Some transfer_id))
  else None.

Definition is_durable_transfer_event (event_type : str) : bool :=
  bool_decide (event_type ∈ [lit "incoming_transfer_request"; lit "task_pull_requested";
                             lit "outgoing_transfer_committed"; lit "outgoing_transfer_finalization_requested"]).

(** ** What the items do with the phases *)

Definition WRAP_UP_PHASE : str := lit "finalization-wrap-up".
Definition QUIT_PHASE : str := lit "finalization-quit".
Definition SOURCE_TASK_CLOSE : str := lit "source-task-close".
Definition ACKNOWLEDGE_IMPORT : str := lit "acknowledge-import".
Definition OUTCOME_PHASE : str := lit "finalization-outcome".
Definition SESSION_BEFORE_FINALIZATION_PHASE : str := lit "session-before-signal".
Definition MATERIALIZE_PHASE : str := lit "materialize-resume-state".

Definition guard_phases : list str := [WRAP_UP_PHASE; QUIT_PHASE; SOURCE_TASK_CLOSE; ACKNOWLEDGE_IMPORT].
Definition observation_phases : list str := [OUTCOME_PHASE; SESSION_BEFORE_FINALIZATION_PHASE; MATERIALIZE_PHASE].

(** How a guarded effect went: it happened, or may have, and the claim is kept;
    there was nothing left to do it to; it did not happen and the claim is to be
    given back; or it happened, its answer was an error and the claim is to be
    given back all the same. *)
Inductive Effect := Landed | Moot | Refused | AnswerLost.

(** [inject] gives a claim back only when nothing was written, and closing the
    source task only when the task is still open; acknowledging an import gives
    it back on every error, the one of a response that did not arrive included. *)
Definition effect_possible (phase : str) (e : Effect) : bool :=
  match e with AnswerLost => bool_decide (phase = ACKNOWLEDGE_IMPORT) | _ => true end.

(** Where a task stands: inside [execute], after winning a claim, before giving
    one back, with the outcome to be settled, with the slot to be dropped, and
    finished but not joined. *)
Inductive Stage :=
  | Executing
  | Holding (phase : str)
  | Undoing (phase : str)
  | Settling (failure : option str)
  | Leaving
  | Finished.

Record Task := mkTask { item : TransferWorkItem; stage : Stage }.

Definition set_stage (t : Task) (s : Stage) : Task := mkTask (item t) s.

(** ** The drain *)

(** Where the loop stands: at its head, with the busy transfers read, with an
    item claimed, with nothing to claim, with a delay read, and waiting to be
    notified for at most that long. *)
Inductive Drain :=
  | Top
  | Claiming (busy : list str)
  | Claimed (i : TransferWorkItem)
  | Measuring
  | Parking (delay : Z)
  | Waiting (delay : Z) (notified : bool).

#[export] Instance TransferWorkItem_eq_dec : EqDecision TransferWorkItem.
Proof. solve_decision. Defined.
#[export] Instance Drain_eq_dec : EqDecision Drain.
Proof. solve_decision. Defined.

Record Engine := mkEngine {
  db : Db;
  busy : gset str;
  tasks : gmap nat Task;
  next_task : nat;
  drain : Drain;
  restarts : nat;
  claims : list str;             (** ids of the items handed out, the latest last *)
  landed : list (str * str * bool)  (** the guarded effects that happened, and whether the claim was kept *)
}.

Definition set_db (y : Engine) (d : Db) : Engine :=
  mkEngine d (busy y) (tasks y) (next_task y) (drain y) (restarts y) (claims y) (landed y).
Definition set_drain (y : Engine) (s : Drain) : Engine :=
  mkEngine (db y) (busy y) (tasks y) (next_task y) s (restarts y) (claims y) (landed y).
Definition set_busy (y : Engine) (b : gset str) : Engine :=
  mkEngine (db y) b (tasks y) (next_task y) (drain y) (restarts y) (claims y) (landed y).
Definition set_tasks (y : Engine) (ts : gmap nat Task) : Engine :=
  mkEngine (db y) (busy y) ts (next_task y) (drain y) (restarts y) (claims y) (landed y).
Definition set_task (y : Engine) (k : nat) (t : Task) : Engine := set_tasks y (<[k := t]> (tasks y)).

Definition slot_set (transfer : option str) : gset str := match transfer with Some t => {[t]} | None => ∅ end.

(** [ok] is whether the statement went through. *)
Inductive TaskAct :=
  | AGuard (phase : str) (ok : bool)
  | AEffect (e : Effect)
  | ARelease (ok : bool)
  | AObserve (phase : str) (value : option str)
  | AReturn (failure : option str)
  | ASettle (now : Z) (ok : bool)
  | ADropSlot
  | APanic.

Inductive EngineAct :=
  | AEnqueue (now : Z) (id kind : str) (transfer : option str) (payload : str)
  | ANotify
  | AReadBusy
  | AClaim (now : Z) (ok : bool)
  | ASpawn
  | AMeasure (now : Z) (ok : bool)
  | APark
  | AWake
  | AJoin (k : nat)
  | ATask (k : nat) (a : TaskAct)
  | ARestart (now : Z) (ok : bool).

Definition land (y : Engine) (id phase : str) (kept : bool) : Engine :=
  mkEngine (db y) (busy y) (tasks y) (next_task y) (drain y) (restarts y) (claims y) (landed y ++ [(id, phase, kept)]).

Definition settle_item (now : Z) (i : TransferWorkItem) (failure : option str) (d : Db) : Db :=
  match failure with
  | None => complete_transfer_work now (item_id i) d
  | Some reason => (fail_transfer_work_attempt now (item_id i) (item_attempts i) reason d).1
  end.

(** An effect behind a claim: typing into the source's agent, closing the source
    task, acknowledging an import. *)
Definition guard_next (y : Engine) (k : nat) (t : Task) (a : TaskAct) : option Engine :=
  let id := item_id (item t) in
  match stage t, a with
  | Executing, AGuard phase ok =>
      if bool_decide (phase ∉ guard_phases) then None
      else if negb ok then Some y
      else
        let '(d, won) := claim_transfer_work_phase id phase (db y) in
        Some (if (won : bool) then set_task (set_db y d) k (set_stage t (Holding phase)) else y)
  | Holding phase, AEffect e =>
      if negb (effect_possible phase e) then None
      else
        Some (match e with
              | Landed => set_task (land y id phase true) k (set_stage t Executing)
              | Moot => set_task y k (set_stage t Executing)
              | Refused => set_task y k (set_stage t (Undoing phase))
              | AnswerLost => set_task (land y id phase false) k (set_stage t (Undoing phase))
              end)
  | Undoing phase, ARelease ok =>
      let y := if (ok : bool) then set_db y (release_transfer_work_phase id phase (db y)) else y in
      Some (set_task y k (set_stage t Executing))
  | _, _ => None
  end.

Definition task_next (y : Engine) (k : nat) (t : Task) (a : TaskAct) : option Engine :=
  match stage t, a with
  | Executing, AObserve phase value =>
      if bool_decide (phase ∉ observation_phases) then None
      else Some (set_db y (record_transfer_work_observation (item_id (item t)) phase value (db y)).1)
  | Executing, AReturn failure => Some (set_task y k (set_stage t (Settling failure)))
  | Settling failure, ASettle now ok =>
      let y := if (ok : bool) then set_db y (settle_item now (item t) failure (db y)) else y in
      Some (set_task y k (set_stage t Leaving))
  | Leaving, ADropSlot =>
      Some (set_task (set_busy y (busy y ∖ slot_set (item_transfer (item t)))) k (set_stage t Finished))
  | (Executing | Holding _ | Undoing _), APanic => Some (set_task y k (set_stage t Leaving))
  | _, _ => guard_next y k t a
  end.

(** [TransferSlot::claim] and [running.spawn]. *)
Definition spawn_item (y : Engine) (i : TransferWorkItem) : Engine :=
  mkEngine (db y) (slot_set (item_transfer i) ∪ busy y) (<[next_task y := mkTask i Executing]> (tasks y)) (S (next_task y))
    Top (restarts y) (claims y) (landed y).

Definition record_claim (y : Engine) (d : Db) (i : TransferWorkItem) : Engine :=
  mkEngine d (busy y) (tasks y) (next_task y) (Claimed i) (restarts y) (claims y ++ [item_id i]) (landed y).

Definition joined (y : Engine) (k : nat) : Engine :=
  mkEngine (db y) (busy y) (delete k (tasks y)) (next_task y) Top (restarts y) (claims y) (landed y).

Definition engine_next (y : Engine) (a : EngineAct) : option Engine :=
  match a, drain y with
  | AEnqueue now id kind transfer payload, _ =>
      Some (set_db y (enqueue_transfer_work now id kind transfer payload (db y)).1)
  | ANotify, Waiting delay _ => Some (set_drain y (Waiting delay true))
  | ANotify, _ => Some y
  | AReadBusy, Top =>
      if bool_decide (size (tasks y) < MAX_CONCURRENT_WORK)%nat
      then Some (set_drain y (Claiming (elements (busy y)))) else None
  | AClaim now ok, Claiming b =>
      if negb ok then Some (set_drain y (Parking IDLE_POLL))
      else match claim_next_transfer_work b now (db y) with
           | (d, Some i) => Some (record_claim y d i)
           | (d, None) => Some (set_drain y Measuring)
           end
  | ASpawn, Claimed i => Some (spawn_item y i)
  | AMeasure now ok, Measuring =>
      let delay := if (ok : bool) then next_transfer_work_delay_seconds (elements (busy y)) now (db y) else None in
      Some (set_drain y (Parking (Z.min (default IDLE_POLL delay) IDLE_POLL)))
  | APark, Parking delay => Some (set_drain y (Waiting delay false))
  | AWake, Waiting _ _ => Some (set_drain y Top)
  | AJoin k, (Top | Waiting _ _) =>
      if bool_decide (drain y = Top) && bool_decide (size (tasks y) < MAX_CONCURRENT_WORK)%nat then None
      else match tasks y !! k with
           | Some (mkTask _ Finished) => Some (joined y k)
           | _ => None
           end
  | ATask k t, _ => task ← tasks y !! k; task_next y k task t
  | ARestart now ok, _ =>
      let d := if (ok : bool) then requeue_interrupted_transfer_work now (db y) else db y in
      Some (mkEngine d ∅ ∅ (next_task y) Top (S (restarts y)) (claims y) (landed y))
  | _, _ => None
  end.

Definition engine_step (y y' : Engine) : Prop := ∃ a, engine_next y a = Some y'.

Definition first_engine : Engine := mkEngine (mkDb ∅ ∅) ∅ ∅ 0 Top 0 [] [].
