(* ===== verification/TransferWorkProofs.v ===== *)
(** * The transfer engine's queue, proved

    About [TransferWork]: the rows of what is under way ([rows_inv]), the slots of
    busy transfers ([slots_inv]), the phases ([phases_inv]) and the attempts
    ([attempts_inv]) hold in every state; the order in which items are handed out
    and how long the drain sleeps; what identifies an event's row; and runs that
    show what the queue does not promise. *)

From S2P Require Import Prelude RustStd TransferWork.
Local Open Scope Z_scope.

(** ** The rows of what is under way *)

(** The item's outcome is still to be settled. *)
Definition active (t : Task) : Prop :=
  match stage t with Leaving | Finished => False | _ => True end.

(** Its transfer is still busy. *)
Definition in_flight (t : Task) : Prop := stage t ≠ Finished.

Definition claimed_by (d : Db) (i : TransferWorkItem) : Prop :=
  ∃ r, work d !! item_id i = Some r ∧ status r = Running ∧ attempts r = item_attempts i ∧ transfer_id r = item_transfer i.

Record rows_inv (y : Engine) : Prop := mkRowsInv {
  rows_active k t : tasks y !! k = Some t → active t → claimed_by (db y) (item t);
  rows_once k k' t t' : tasks y !! k = Some t → tasks y !! k' = Some t' → active t → active t' →
    item_id (item t) = item_id (item t') → k = k';
  rows_claimed i : drain y = Claimed i →
    claimed_by (db y) i ∧ ∀ k t, tasks y !! k = Some t → active t → item_id (item t) ≠ item_id i;
  rows_fresh k t : tasks y !! k = Some t → (k < next_task y)%nat
}.

(** A step that leaves the rows alone and makes no task active. *)
Lemma rows_inv_mono y y' :
  rows_inv y → work (db y') = work (db y) → (next_task y ≤ next_task y')%nat →
  (∀ k t', tasks y' !! k = Some t' → ∃ t, tasks y !! k = Some t ∧ item t = item t' ∧ (active t' → active t)) →
  (∀ i, drain y' = Claimed i → drain y = Claimed i) → rows_inv y'.
Proof.
  intros [H1 H2 H3 H4] Hw Hn Ht Hd. constructor.
  - intros k t' Hk Ha. destruct (Ht _ _ Hk) as (t & Hkt & Hi & Hat). rewrite <- Hi. unfold claimed_by. rewrite Hw. by apply (H1 k); auto.
  - intros k k' t t' Hk Hk' Ha Ha' Heq. destruct (Ht _ _ Hk) as (u & Hku & Hi & Hau), (Ht _ _ Hk') as (u' & Hku' & Hi' & Hau').
    apply (H2 k k' u u'); auto. congruence.
  - intros i Hi. destruct (H3 i (Hd i Hi)) as [Hc Hno]. split; [unfold claimed_by; by rewrite Hw|].
    intros k t' Hk Ha. destruct (Ht _ _ Hk) as (t & Hkt & Hti & Hat). rewrite <- Hti. by apply (Hno k); auto.
  - intros k t' Hk. destruct (Ht _ _ Hk) as (t & Hkt & _). apply H4 in Hkt. lia.
Qed.

Lemma set_task_lookup y k t t' s k1 t1 :
  tasks y !! k = Some t → <[k := set_stage t s]> (tasks y) !! k1 = Some t1 → t' = set_stage t s →
  ∃ u, tasks y !! k1 = Some u ∧ item u = item t1 ∧ (k1 = k ∧ u = t ∧ t1 = t' ∨ k1 ≠ k ∧ u = t1).
Proof.
  intros Hk [[<- <-]|[Hne H1]]%lookup_insert_Some ->; [exists t; split_and!; auto|exists t1; split_and!; auto].
Qed.

(** Rows that a settling task changes are its own. *)
Lemma rows_inv_settle y k t d :
  rows_inv y → tasks y !! k = Some t → active t →
  (∀ id, id ≠ item_id (item t) → work d !! id = work (db y) !! id) →
  rows_inv (set_task (set_db y d) k (set_stage t Leaving)).
Proof.
  intros [H1 H2 H3 H4] Hk Ha Hd.
  assert (∀ i, claimed_by (db y) i → item_id i ≠ item_id (item t) → claimed_by d i) as Hc.
  { intros i (r & Hr & Hs) Hne. exists r. by rewrite Hd. }
  constructor; cbn.
  - intros k1 t1 [[<- <-]|[Hne Hk1]]%lookup_insert_Some Ha1; [done|]. apply Hc; [by apply (H1 k1)|].
    intros Heq. apply Hne. symmetry. by apply (H2 k1 k t1 t).
  - intros k1 k2 t1 t2 [[<- <-]|[Hne Hk1]]%lookup_insert_Some [[<- <-]|[Hne2 Hk2]]%lookup_insert_Some; try done. by apply H2.
  - intros i Hi. destruct (H3 i Hi) as [Hci Hno]. split; [apply Hc; [done|]; intros Heq; by apply (Hno k t)|].
    intros k1 t1 [[<- <-]|[Hne Hk1]]%lookup_insert_Some; [done|]. by apply (Hno k1).
  - intros k1 t1 [[<- <-]|[Hne Hk1]]%lookup_insert_Some; [by apply (H4 k t)|by apply (H4 k1 t1)].
Qed.

Lemma settle_other now i failure d id :
  id ≠ item_id i → work (settle_item now i failure d) !! id = work d !! id.
Proof.
  intros Hne. unfold settle_item. destruct failure as [reason|]; [|by cbn; rewrite lookup_alter_ne].
  unfold fail_transfer_work_attempt. destruct (_ <=? _); by cbn; rewrite lookup_alter_ne.
Qed.

#[export] Instance claim_order_laws : OrdLaws claim_order.
Proof.
  exact (then_with_laws (λ p : str * WorkRow, run_after p.2) (λ p, p) Z.compare _
           (Hc := then_with_laws (λ p : str * WorkRow, created_at p.2) fst Z.compare str_cmp)).
Qed.

Lemma claim_inv b now d d' i :
  claim_next_transfer_work b now d = (d', Some i) →
  ∃ r, work d !! item_id i = Some r ∧ claimable b now r = true ∧ i = read_work_item (item_id i) (claimed_row now r)
    ∧ d' = set_work d (<[item_id i := claimed_row now r]> (work d))
    ∧ ∀ id' r', work d !! id' = Some r' → claimable b now r' = true →
        cmp_le claim_order (item_id i, r) (id', r') = true.
Proof.
  unfold claim_next_transfer_work. destruct (head _) as [[id r]|] eqn:Hh; [|done]. intros [= <- <-].
  apply sort_by_head in Hh as [Hin Hle]; [|apply _]. cbn [item_id read_work_item].
  apply list_elem_of_filter in Hin as [Hc Hin%elem_of_map_to_list]. exists r. split_and!; try done.
  intros id' r' Hr' Hc'. apply Hle, list_elem_of_filter. split; [done|]. by apply elem_of_map_to_list.
Qed.

Lemma claim_none b now d d' :
  claim_next_transfer_work b now d = (d', None) → ∀ id r, work d !! id = Some r → claimable b now r = false.
Proof.
  unfold claim_next_transfer_work. destruct (head _) as [[id r]|] eqn:Hh; [done|]. intros _ id r Hr.
  apply sort_by_head_None in Hh. destruct (claimable b now r) eqn:Hc; [|done]. exfalso.
  assert ((id, r) ∈ filter (λ p, claimable b now p.2 = true) (map_to_list (work d))) as Hin.
  { apply list_elem_of_filter. split; [done|]. by apply elem_of_map_to_list. }
  rewrite Hh in Hin. by apply not_elem_of_nil in Hin.
Qed.

Lemma claimable_pending b now r : claimable b now r = true → status r = Pending.
Proof. unfold claimable. rewrite !andb_true_iff. intros [[H _] _]. by apply bool_decide_eq_true in H. Qed.

(** Only a finished task is joined. *)
Lemma join_inv y k y' : engine_next y (AJoin k) = Some y' → y' = joined y k ∧ ∃ i, tasks y !! k = Some (mkTask i Finished).
Proof.
  cbn. destruct (drain y); try done; (destruct (_ && _); [done|]);
    destruct (tasks y !! k) as [[i []]|]; try done; injection 1; eauto.
Qed.

Lemma rows_inv_step y y' : rows_inv y → engine_step y y' → rows_inv y'.
Proof.
  intros Hi [a Ha]. pose proof Hi as [H1 H2 H3 H4].
  destruct a as [now id kd tr pl| | |now ok| |now ok| | |k|k a|now ok]; cbn [engine_next] in Ha.
  - injection Ha as <-. unfold enqueue_transfer_work. destruct (work (db y) !! id) as [r0|] eqn:Hr; [by destruct y|].
    assert (∀ i, claimed_by (db y) i → claimed_by (set_work (db y) (<[id := mkRow kd tr pl Pending 0 None now now now]> (work (db y)))) i) as Hc.
    { intros i (r & Hri & Hs). exists r. split; [|done]. cbn. rewrite lookup_insert_ne by congruence. done. }
    constructor; cbn; [intros k t Hk Ha; by apply Hc, (H1 k)|done| |done].
    intros i Hdi. destruct (H3 i Hdi) as [Hci Hno]. by split; [apply Hc|].
  - assert (work (db y') = work (db y) ∧ tasks y' = tasks y ∧ next_task y' = next_task y ∧ ∀ i, drain y' = Claimed i → drain y = Claimed i) as (Hw & Ht & Hn & Hd).
    { destruct (drain y) eqn:Hdr; injection Ha as <-; cbn; rewrite ?Hdr; by split_and!. }
    apply (rows_inv_mono y); [done|done|lia| |done]. rewrite Ht. eauto.
  - destruct (drain y); try done. case_bool_decide; [|done]. injection Ha as <-. apply (rows_inv_mono y); [done|done|done|cbn; eauto|done].
  - destruct (drain y) as [|b| | | |]; try done. destruct ok; cbn [negb] in Ha.
    2:{ injection Ha as <-. apply (rows_inv_mono y); [done|done|done|cbn; eauto|done]. }
    destruct (claim_next_transfer_work b now (db y)) as [d [i|]] eqn:Hc; injection Ha as <-.
    2:{ apply (rows_inv_mono y); [done|done|done|cbn; eauto|done]. }
    apply claim_inv in Hc as (r & Hr & Hcl & Hit & -> & _). pose proof (claimable_pending _ _ _ Hcl) as Hp.
    assert (∀ j, claimed_by (db y) j → item_id j ≠ item_id i) as Hne.
    { intros j (rj & Hrj & Hs & _) Heq. rewrite Heq in Hrj. congruence. }
    constructor; cbn.
    + intros k t Hk Ha. pose proof (H1 k t Hk Ha) as Hct. pose proof (Hne _ Hct) as Hn. destruct Hct as (rt & Hrt & Hs).
      exists rt. cbn. by rewrite lookup_insert_ne by done.
    + done.
    + intros j [= <-]. split.
      * exists (claimed_row now r). cbn. rewrite lookup_insert_eq. rewrite Hit. by split_and!.
      * intros k t Hk Ha. by apply Hne, (H1 k).
    + done.
  - destruct (drain y) as [| |i| | |] eqn:Hdr; try done. injection Ha as <-. destruct (H3 i eq_refl) as [Hci Hno].
    constructor; cbn.
    + intros k t [[<- <-]|[Hne Hk]]%lookup_insert_Some Ha; [done|by apply (H1 k)].
    + intros k k' t t' [[<- <-]|[Hne Hk]]%lookup_insert_Some [[<- <-]|[Hne' Hk']]%lookup_insert_Some Ha Ha' Heq; try done.
      * exfalso. by apply (Hno k' t').
      * exfalso. by apply (Hno k t).
      * by apply (H2 k k' t t').
    + done.
    + intros k t [[<- <-]|[Hne Hk]]%lookup_insert_Some; [lia|]. apply H4 in Hk. lia.
  - destruct (drain y); try done. injection Ha as <-. apply (rows_inv_mono y); [done|done|done|cbn; eauto|done].
  - destruct (drain y); try done. injection Ha as <-. apply (rows_inv_mono y); [done|done|done|cbn; eauto|done].
  - destruct (drain y); try done. injection Ha as <-. apply (rows_inv_mono y); [done|done|done|cbn; eauto|done].
  - apply (join_inv y k y') in Ha as [-> _].
    apply (rows_inv_mono y); [done|done|done| |done].
    cbn. intros k1 t1 [Hne Hk1]%lookup_delete_Some. eauto.
  - destruct (tasks y !! k) as [t|] eqn:Hk; [|done]. cbn [mbind option_bind] in Ha.
    assert (∀ y1 s, work (db y1) = work (db y) → tasks y1 = tasks y → next_task y1 = next_task y → drain y1 = drain y →
              (active (set_stage t s) → active t) → rows_inv (set_task y1 k (set_stage t s))) as Hset.
    { intros y1 s Hw Ht Hn Hd Hact. apply (rows_inv_mono y); [done|done|cbn; lia| |intros i; cbn; by rewrite Hd].
      cbn. rewrite Ht. intros k1 t1 [[<- <-]|[Hne Hk1]]%lookup_insert_Some; [exists t; by split_and!|eauto]. }
    unfold task_next, guard_next in Ha. destruct (stage t) as [|ph|ph|f| |] eqn:Hs, a as [ph' ok|e|ok|ph' v|f'|now ok| |]; try done.
    all: try (injection Ha as <-; apply Hset; [by destruct_and?|done..|unfold active; by rewrite Hs]).
    + case_bool_decide; [done|]. destruct ok; cbn [negb] in Ha; [|by injection Ha as <-].
      unfold claim_transfer_work_phase in Ha. destruct (phases (db y) !! _); injection Ha as <-; [done|].
      apply Hset; try done. unfold active. by rewrite Hs.
    + case_bool_decide; [done|]. injection Ha as <-. unfold record_transfer_work_observation.
      destruct (phases (db y) !! _); (apply (rows_inv_mono y); [done|done|done|cbn; eauto|done]).
    + destruct (effect_possible _ _) eqn:Hpos; cbn [negb] in Ha; [|done]. destruct e; injection Ha as <-; apply Hset; try done; unfold active; by rewrite Hs.
    + destruct ok; injection Ha as <-; apply Hset; try done; unfold active; by rewrite Hs.
    + destruct ok; injection Ha as <-.
      * apply rows_inv_settle; [done|done|unfold active; by rewrite Hs|]. intros id. apply settle_other.
      * apply Hset; try done.
  - injection Ha as <-. by constructor; cbn.
Qed.

(** ** The slots *)

Record slots_inv (y : Engine) : Prop := mkSlotsInv {
  slots_busy t : t ∈ busy y ↔ ∃ k task, tasks y !! k = Some task ∧ in_flight task ∧ item_transfer (item task) = Some t;
  slots_once k k' task task' t : tasks y !! k = Some task → tasks y !! k' = Some task' → in_flight task → in_flight task' →
    item_transfer (item task) = Some t → item_transfer (item task') = Some t → k = k';
  slots_claiming b : drain y = Claiming b → ∀ t, t ∈ busy y → t ∈ b;
  slots_claimed i t : drain y = Claimed i → item_transfer i = Some t → t ∉ busy y;
  slots_fresh k task : tasks y !! k = Some task → (k < next_task y)%nat;
  slots_pool : (size (tasks y) ≤ MAX_CONCURRENT_WORK)%nat;
  slots_room : match drain y with Claiming _ | Claimed _ => (size (tasks y) < MAX_CONCURRENT_WORK)%nat | _ => True end
}.

(** A step that frees no slot and takes none. *)
Lemma slots_inv_stage y k t s d l :
  slots_inv y → tasks y !! k = Some t → stage t ≠ Finished → s ≠ Finished →
  slots_inv (set_task (mkEngine d (busy y) (tasks y) (next_task y) (drain y) (restarts y) (claims y) l) k (set_stage t s)).
Proof.
  intros [H1 H2 H3 H4 H5 H6 H7] Hk Hs Hs'.
  assert (∀ k1 t1, <[k := set_stage t s]> (tasks y) !! k1 = Some t1 → in_flight t1 →
            ∃ u, tasks y !! k1 = Some u ∧ in_flight u ∧ item u = item t1) as Hback.
  { intros k1 t1 [[<- <-]|[Hne Hk1]]%lookup_insert_Some Hf; [by exists t|by exists t1]. }
  constructor; cbn.
  - intros x. rewrite H1. split.
    + intros (k1 & t1 & Hk1 & Hf & Hx). destruct (decide (k1 = k)) as [->|Hne].
      * exists k, (set_stage t s). rewrite lookup_insert_eq. split_and!; [done|done|]. assert (t1 = t) as <- by congruence. done.
      * exists k1, t1. by rewrite lookup_insert_ne.
    + intros (k1 & t1 & Hk1 & Hf & Hx). destruct (Hback _ _ Hk1 Hf) as (u & Hu & Hfu & Hi). exists k1, u. rewrite Hi. done.
  - intros k1 k2 t1 t2 x Hk1 Hk2 Hf1 Hf2 Hx1 Hx2.
    destruct (Hback _ _ Hk1 Hf1) as (u1 & Hu1 & Hfu1 & Hi1), (Hback _ _ Hk2 Hf2) as (u2 & Hu2 & Hfu2 & Hi2).
    apply (H2 k1 k2 u1 u2 x); rewrite ?Hi1, ?Hi2; done.
  - done.
  - done.
  - intros k1 t1 [[<- <-]|[Hne Hk1]]%lookup_insert_Some; [by apply (H5 k t)|by apply (H5 k1 t1)].
  - rewrite map_size_insert_Some by (by eexists). done.
  - rewrite map_size_insert_Some by (by eexists). done.
Qed.

Lemma slots_inv_drain y y' :
  slots_inv y → busy y' = busy y → tasks y' = tasks y → next_task y' = next_task y →
  match drain y' with Claiming _ | Claimed _ => drain y' = drain y | _ => True end → slots_inv y'.
Proof.
  intros [H1 H2 H3 H4 H5 H6 H7] Hb Ht Hn Hd. constructor; rewrite ?Hb, ?Ht, ?Hn; try done.
  - intros b Hc. rewrite Hc in Hd. by apply H3.
  - intros i t Hc. rewrite Hc in Hd. by apply H4.
  - destruct (drain y'); try done; by rewrite <- Hd in H7.
Qed.

Lemma slots_inv_task y k t a y' :
  slots_inv y → tasks y !! k = Some t → task_next y k t a = Some y' → slots_inv y'.
Proof.
  intros Hi Hk Ha.
  assert (∀ d l s, stage t ≠ Finished → s ≠ Finished →
            slots_inv (set_task (mkEngine d (busy y) (tasks y) (next_task y) (drain y) (restarts y) (claims y) l) k (set_stage t s))) as Hset.
  { intros d l s Hs Hs'. by apply slots_inv_stage. }
  unfold task_next, guard_next in Ha. destruct (stage t) as [|ph|ph|f| |] eqn:Hs, a as [ph' ok|e|ok|ph' v|f'|now ok| |]; try done.
  all: try (injection Ha as <-; by apply (Hset (db y) (landed y))).
  - case_bool_decide; [done|]. destruct ok; cbn [negb] in Ha; [|by injection Ha as <-].
    unfold claim_transfer_work_phase in Ha. destruct (phases (db y) !! _); injection Ha as <-; [done|].
    by apply (Hset _ (landed y)).
  - case_bool_decide; [done|]. injection Ha as <-. by apply (slots_inv_drain y); [..|cbn; destruct (drain y)].
  - destruct (effect_possible _ _) eqn:Hpos; cbn [negb] in Ha; [|done]. destruct e; injection Ha as <-; by apply (Hset (db y)).
  - destruct ok; injection Ha as <-; by apply (Hset _ (landed y)).
  - destruct ok; injection Ha as <-; by apply (Hset _ (landed y)).
  - injection Ha as <-. destruct Hi as [H1 H2 H3 H4 H5 H6 H7]. assert (in_flight t) as Hf by (unfold in_flight; by rewrite Hs).
    assert (∀ x, x ∈ slot_set (item_transfer (item t)) ↔ item_transfer (item t) = Some x) as Hslot.
    { intros x. unfold slot_set. destruct (item_transfer (item t)); set_solver. }
    constructor; cbn.
    + intros x. rewrite elem_of_difference, Hslot, H1. split.
      * intros [(k1 & t1 & Hk1 & Hf1 & Hx) Hne]. exists k1, t1. rewrite lookup_insert_ne; [done|].
        intros ->. assert (t1 = t) as -> by congruence. done.
      * intros (k1 & t1 & [[<- <-]|[Hne Hk1]]%lookup_insert_Some & Hf1 & Hx); [done|]. split; [eauto|].
        intros Hxt. apply Hne. symmetry. by apply (H2 k1 k t1 t x).
    + intros k1 k2 t1 t2 x [[<- <-]|[Hne Hk1]]%lookup_insert_Some [[<- <-]|[Hne2 Hk2]]%lookup_insert_Some Hf1 Hf2; try done.
      by apply H2.
    + intros b Hb x [Hx _]%elem_of_difference. by apply H3.
    + intros i x Hi Hx [Hx' _]%elem_of_difference. by apply (H4 i x).
    + intros k1 t1 [[<- <-]|[Hne Hk1]]%lookup_insert_Some; [by apply (H5 k t)|by apply (H5 k1 t1)].
    + rewrite map_size_insert_Some by (by eexists). done.
    + rewrite map_size_insert_Some by (by eexists). done.
Qed.

Lemma slots_inv_step y y' : slots_inv y → engine_step y y' → slots_inv y'.
Proof.
  intros Hi [a Ha]. pose proof Hi as [H1 H2 H3 H4 H5 H6 H7].
  destruct a as [now id kd tr pl| | |now ok| |now ok| | |k|k a|now ok]; cbn [engine_next] in Ha.
  - injection Ha as <-. by apply (slots_inv_drain y); [..|cbn; destruct (drain y)].
  - destruct (drain y) eqn:Hd; injection Ha as <-; first [done|by apply (slots_inv_drain y)].
  - destruct (drain y); try done. case_bool_decide; [|done]. injection Ha as <-. constructor; cbn; try done.
    intros b [= <-] t Ht. by apply elem_of_elements.
  - destruct (drain y) as [|b| | | |] eqn:Hd; try done. destruct ok; cbn [negb] in Ha; [|injection Ha as <-; by apply (slots_inv_drain y)].
    destruct (claim_next_transfer_work b now (db y)) as [d [i|]] eqn:Hc; injection Ha as <-; [|by apply (slots_inv_drain y)].
    apply claim_inv in Hc as (r & Hr & Hcl & Hit & -> & _). constructor; cbn; try done.
    intros j t [= <-] Hj Hb. specialize (H3 b eq_refl t Hb). rewrite Hit in Hj. cbn in Hj.
    unfold claimable, passed_over in Hcl. rewrite Hj, (bool_decide_true (t ∈ b)), andb_false_r in Hcl by done. done.
  - destruct (drain y) as [| |i| | |] eqn:Hd; try done. injection Ha as <-.
    assert (∀ x, x ∈ slot_set (item_transfer i) ↔ item_transfer i = Some x) as Hslot.
    { intros x. unfold slot_set. destruct (item_transfer i); set_solver. }
    assert (tasks y !! next_task y = None) as Hnew.
    { destruct (tasks y !! next_task y) as [t|] eqn:Hn; [|done]. apply H5 in Hn. lia. }
    constructor; cbn; try done.
    + intros x. rewrite elem_of_union, Hslot, H1. split.
      * intros [Hx|(k & t & Hk & Hf & Hx)]; [exists (next_task y), (mkTask i Executing); by rewrite lookup_insert_eq|].
        exists k, t. rewrite lookup_insert_ne by congruence. done.
      * intros (k & t & [[<- <-]|[Hne Hk]]%lookup_insert_Some & Hf & Hx); [by left|right; eauto].
    + intros k k' t t' x [[<- <-]|[Hne Hk]]%lookup_insert_Some [[<- <-]|[Hne' Hk']]%lookup_insert_Some Hf Hf' Hx Hx'; try done.
      * exfalso. apply (H4 i x eq_refl Hx), H1. eauto.
      * exfalso. apply (H4 i x eq_refl Hx'), H1. eauto.
      * by apply (H2 k k' t t' x).
    + intros k t [[<- <-]|[Hne Hk]]%lookup_insert_Some; [lia|]. apply H5 in Hk. lia.
    + rewrite map_size_insert_None by done. lia.
  - destruct (drain y); try done. injection Ha as <-. by apply (slots_inv_drain y).
  - destruct (drain y); try done. injection Ha as <-. by apply (slots_inv_drain y).
  - destruct (drain y); try done. injection Ha as <-. by apply (slots_inv_drain y).
  - apply (join_inv y k y') in Ha as [-> [i Hk]].
    constructor; cbn; try done.
    + intros x. rewrite H1. split; intros (k1 & t1 & Hk1 & Hf & Hx); exists k1, t1.
      * rewrite lookup_delete_ne; [done|]. intros <-. rewrite Hk in Hk1. injection Hk1 as <-. by destruct Hf.
      * apply lookup_delete_Some in Hk1 as [_ Hk1]. done.
    + intros k1 k2 t1 t2 x [_ Hk1]%lookup_delete_Some [_ Hk2]%lookup_delete_Some. by apply H2.
    + intros k1 t1 [_ Hk1]%lookup_delete_Some. by apply (H5 k1 t1).
    + rewrite map_size_delete_Some by (by eexists). lia.
  - destruct (tasks y !! k) as [t|] eqn:Hk; [|done]. by apply (slots_inv_task y k t a).
  - injection Ha as <-. constructor; cbn; try done; [|rewrite map_size_empty; lia].
    intros x. split; [set_solver|]. by intros (k & t & Hk & _).
Qed.

(** ** The phases *)

(** The effects that happened and whose claim was kept. *)
Definition kept_effects (l : list (str * str * bool)) : list (str * str) :=
  map fst (filter (λ e, e.2 = true) l).

Arguments kept_effects : simpl never.

Lemma kept_effects_all (l : list (str * str * bool)) :
  (∀ e, e ∈ l → e.2 = false → e.1.2 = ACKNOWLEDGE_IMPORT) →
  map fst (filter (λ e, e.2 = true ∨ e.1.2 ≠ ACKNOWLEDGE_IMPORT) l) = kept_effects l.
Proof.
  intros Hl. unfold kept_effects. f_equal. induction l as [|e l IH]; [done|].
  rewrite !filter_cons, IH by (intros e' He'; apply Hl; by right).
  pose proof (Hl e ltac:(by left)) as He. repeat case_decide; [by f_equal|exfalso|exfalso|done].
  - destruct (e.2); tauto.
  - tauto.
Qed.

Lemma kept_effects_snoc l p b : kept_effects (l ++ [(p, b)]) = kept_effects l ++ (if b then [p] else []).
Proof. unfold kept_effects. rewrite filter_app, map_app. by destruct b. Qed.

Record phases_inv (y : Engine) : Prop := mkPhasesInv {
  ph_once : NoDup (kept_effects (landed y));
  ph_kept p : p ∈ kept_effects (landed y) → is_Some (phases (db y) !! p);
  ph_held k t ph : tasks y !! k = Some t → stage t = Holding ph ∨ stage t = Undoing ph →
    is_Some (phases (db y) !! (item_id (item t), ph)) ∧ (item_id (item t), ph) ∉ kept_effects (landed y) ∧ ph ∈ guard_phases;
  ph_lost e : e ∈ landed y → e.2 = false → e.1.2 = ACKNOWLEDGE_IMPORT
}.

(** No claim is given back and no effect happens. *)
Lemma phases_inv_mono y y' :
  phases_inv y → landed y' = landed y → phases (db y) ⊆ phases (db y') →
  (∀ k t', tasks y' !! k = Some t' → ∃ t, tasks y !! k = Some t ∧ item t = item t' ∧
     ∀ ph, (stage t' = Holding ph ∨ stage t' = Undoing ph) → (stage t = Holding ph ∨ stage t = Undoing ph)) →
  phases_inv y'.
Proof.
  intros [H1 H2 H3 H4] Hl Hp Ht.
  assert (∀ p, is_Some (phases (db y) !! p) → is_Some (phases (db y') !! p)) as Hm.
  { intros p [v Hv]. exists v. by eapply lookup_weaken. }
  constructor; rewrite Hl; [done|auto| |done].
  intros k t' ph Hk Hs. destruct (Ht _ _ Hk) as (t & Hkt & <- & Hst). destruct (H3 k t ph Hkt (Hst _ Hs)) as (? & ? & ?).
  split_and!; auto.
Qed.

Lemma settle_phases now i f d : phases (settle_item now i f d) = phases d.
Proof. unfold settle_item, fail_transfer_work_attempt. destruct f; [|done]. by destruct (_ <=? _). Qed.

Lemma phases_inv_task y k t a y' :
  rows_inv y → phases_inv y → tasks y !! k = Some t → task_next y k t a = Some y' → phases_inv y'.
Proof.
  intros Hrows Hi Hk Ha. pose proof Hi as [H1 H2 H3 H4].
  assert (∀ d s, phases (db y) ⊆ phases d → (∀ ph, s = Holding ph ∨ s = Undoing ph → stage t = Holding ph ∨ stage t = Undoing ph) →
            phases_inv (set_task (set_db y d) k (set_stage t s))) as Hset.
  { intros d s Hd Hs. apply (phases_inv_mono y); [done|done|done|].
    cbn. intros k1 t1 [[<- <-]|[Hne Hk1]]%lookup_insert_Some; [by exists t|by exists t1]. }
  assert (∀ k' t' ph, active t → tasks y !! k' = Some t' → k' ≠ k → stage t' = Holding ph ∨ stage t' = Undoing ph →
            item_id (item t') ≠ item_id (item t)) as Hother.
  { intros k' t' ph Hat Hk' Hne Hs Heq. apply Hne. apply (rows_once y Hrows k' k t' t); try done.
    unfold active. by destruct Hs as [->| ->]. }
  unfold task_next, guard_next in Ha. destruct (stage t) as [|ph|ph|f| |] eqn:Hs, a as [ph' ok|e|ok|ph' v|f'|now ok| |]; try done.
  all: try (injection Ha as <-; by apply (Hset (db y)); [|intros ? [?|?]]).
  - case_bool_decide as Hg; [done|]. destruct ok; cbn [negb] in Ha; [|by injection Ha as <-].
    unfold claim_transfer_work_phase in Ha. destruct (phases (db y) !! _) eqn:Hph; injection Ha as <-; [done|].
    constructor; cbn; [done| | |done].
    + intros p Hp. destruct (decide (p = (item_id (item t), ph'))) as [->|Hne]; [by rewrite lookup_insert_eq|].
      rewrite lookup_insert_ne by done. by apply H2.
    + intros k1 t1 ph1 [[<- <-]|[Hne Hk1]]%lookup_insert_Some Hs1.
      * destruct Hs1 as [[= ->]|Hs1]; [|done]. cbn. rewrite lookup_insert_eq. split_and!; [done| |by destruct (decide (ph1 ∈ guard_phases))].
        intros Hl. apply H2 in Hl as [v Hv]. congruence.
      * destruct (H3 _ _ _ Hk1 Hs1) as (Hp & Hl & Hg1). split_and!; [|done|done].
        destruct (decide ((item_id (item t1), ph1) = (item_id (item t), ph'))) as [->|Hne1]; [by rewrite lookup_insert_eq|].
        by rewrite lookup_insert_ne.
  - case_bool_decide; [done|]. injection Ha as <-. unfold record_transfer_work_observation.
    destruct (phases (db y) !! (item_id (item t), ph')) eqn:Hph; (apply (phases_inv_mono y); [done|done| |cbn; eauto]); [done|].
    cbn. by apply insert_subseteq.
  - destruct (H3 _ _ _ Hk (or_introl Hs)) as (Hp & Hl & Hg).
    destruct (effect_possible _ _) eqn:Hpos; cbn [negb] in Ha; [|done]. destruct e; injection Ha as <-.
    + constructor; cbn; rewrite ?kept_effects_snoc.
      * apply NoDup_app. split_and!; [done| |apply NoDup_singleton]. intros p Hin ->%list_elem_of_singleton. done.
      * intros p [Hin| ->%list_elem_of_singleton]%elem_of_app; [by apply H2|done].
      * intros k1 t1 ph1 [[<- <-]|[Hne Hk1]]%lookup_insert_Some Hs1; [by destruct Hs1|].
        destruct (H3 _ _ _ Hk1 Hs1) as (Hp1 & Hl1 & Hg1). split_and!; [done| |done].
        intros [Hin|[= Heq _]%list_elem_of_singleton]%elem_of_app; [done|].
        apply (Hother k1 t1 ph1); [unfold active; by rewrite Hs|done|done|done|done].
      * intros x [Hin| ->%list_elem_of_singleton]%elem_of_app; [by apply H4|done].
    + apply (Hset (db y)); [done|]. by intros ? [?|?].
    + apply (Hset (db y)); [done|]. intros ? [?|[= ->]]; [done|auto].
    + constructor; cbn; rewrite ?kept_effects_snoc, ?app_nil_r; [done|done| |].
      * intros k1 t1 ph1 [[<- <-]|[Hne Hk1]]%lookup_insert_Some Hs1; rewrite ?kept_effects_snoc, ?app_nil_r.
        -- destruct Hs1 as [?|[= <-]]; done.
        -- by apply (H3 k1).
      * intros x [Hin| ->%list_elem_of_singleton]%elem_of_app; [by apply H4|].
        intros _. by apply bool_decide_eq_true in Hpos.
  - destruct (H3 _ _ _ Hk (or_intror Hs)) as (Hp & Hl & Hg).
    destruct ok; injection Ha as <-; [|apply (Hset (db y)); [done|]; by intros ? [?|?]].
    constructor; cbn; [done| | |done].
    + intros p Hin. rewrite lookup_delete_ne by (by intros <-). by apply H2.
    + intros k1 t1 ph1 [[<- <-]|[Hne Hk1]]%lookup_insert_Some Hs1; [by destruct Hs1|].
      destruct (H3 _ _ _ Hk1 Hs1) as (Hp1 & Hl1 & Hg1). split_and!; [|done|done].
      rewrite lookup_delete_ne; [done|]. intros [= Heq _].
      apply (Hother k1 t1 ph1); [unfold active; by rewrite Hs|done|done|done|done].
  - destruct ok; injection Ha as <-; [|apply (Hset (db y)); [done|]; by intros ? [?|?]].
    apply Hset; [by rewrite settle_phases|]. by intros ? [?|?].
  - injection Ha as <-. apply (phases_inv_mono y); [done|done|done|].
    cbn. intros k1 t1 [[<- <-]|[Hne Hk1]]%lookup_insert_Some; [exists t; split_and!; [done|done|by intros ? [?|?]]|by exists t1].
Qed.

Lemma claim_phases b now d : phases (claim_next_transfer_work b now d).1 = phases d.
Proof. unfold claim_next_transfer_work. by destruct (head _) as [[??]|]. Qed.

Lemma phases_inv_step y y' : rows_inv y → phases_inv y → engine_step y y' → phases_inv y'.
Proof.
  intros Hrows Hi [a Ha].
  assert (∀ y', landed y' = landed y → phases (db y') = phases (db y) → tasks y' = tasks y → phases_inv y') as Hsame.
  { intros y1 Hl Hp Ht. apply (phases_inv_mono y); [done|done|by rewrite Hp|]. rewrite Ht. eauto. }
  destruct a as [now id kd tr pl| | |now ok| |now ok| | |k|k a|now ok]; cbn [engine_next] in Ha.
  - injection Ha as <-. apply Hsame; [done| |done]. unfold enqueue_transfer_work. cbn. by destruct (work (db y) !! id).
  - destruct (drain y); injection Ha as <-; by apply Hsame.
  - destruct (drain y); try done. case_bool_decide; [|done]. injection Ha as <-. by apply Hsame.
  - destruct (drain y) as [|b| | | |]; try done. destruct ok; cbn [negb] in Ha; [|injection Ha as <-; by apply Hsame].
    pose proof (claim_phases b now (db y)) as Hp.
    destruct (claim_next_transfer_work b now (db y)) as [d [i|]]; injection Ha as <-; by apply Hsame.
  - destruct (drain y) as [| |i| | |]; try done. injection Ha as <-. destruct Hi as [H1 H2 H3 H4]. constructor; cbn; [done|done| |done].
    intros k t ph [[<- <-]|[Hne Hk]]%lookup_insert_Some Hs; [by destruct Hs|by apply (H3 k)].
  - destruct (drain y); try done. injection Ha as <-. by apply Hsame.
  - destruct (drain y); try done. injection Ha as <-. by apply Hsame.
  - destruct (drain y); try done. injection Ha as <-. by apply Hsame.
  - apply (join_inv y k y') in Ha as [-> _].
    apply (phases_inv_mono y); [done|done|done|]. cbn. intros k1 t1 [_ Hk1]%lookup_delete_Some. eauto.
  - destruct (tasks y !! k) as [t|] eqn:Hk; [|done]. by apply (phases_inv_task y k t a).
  - injection Ha as <-. apply (phases_inv_mono y); [done|done|by destruct ok|done].
Qed.

(** ** The attempts *)

Definition times (id : str) (l : list str) : nat := length (filter (λ x, x = id) l).

Arguments times : simpl never.

Lemma times_snoc_eq id l : times id (l ++ [id]) = S (times id l).
Proof. unfold times. rewrite filter_app, length_app, filter_cons_True by done. cbn. lia. Qed.

Lemma times_snoc_ne id id' l : id' ≠ id → times id (l ++ [id']) = times id l.
Proof. intros Hne. unfold times. rewrite filter_app, length_app, filter_cons_False by done. cbn. lia. Qed.

Definition attempts_within (r : WorkRow) (n : nat) : Prop :=
  attempts r ≤ MAX_TRANSFER_WORK_ATTEMPTS + Z.of_nat n - match status r with Pending => 1 | _ => 0 end.

Record attempts_inv (y : Engine) : Prop := mkAttemptsInv {
  at_count id r : work (db y) !! id = Some r → attempts r = Z.of_nat (times id (claims y)) ∧ attempts_within r (restarts y);
  at_none id : work (db y) !! id = None → times id (claims y) = 0%nat
}.

Lemma attempts_inv_same y y' :
  attempts_inv y → work (db y') = work (db y) → claims y' = claims y → restarts y' = restarts y → attempts_inv y'.
Proof. intros [H1 H2] Hw Hc Hr. constructor; rewrite ?Hw, ?Hc, ?Hr; done. Qed.

Lemma settle_own now i f d r :
  work d !! item_id i = Some r → attempts r = item_attempts i → attempts_within r 0 ∨ MAX_TRANSFER_WORK_ATTEMPTS ≤ attempts r →
  ∃ r', work (settle_item now i f d) !! item_id i = Some r' ∧ attempts r' = attempts r
    ∧ (status r' = Pending → attempts r' < MAX_TRANSFER_WORK_ATTEMPTS) ∧ transfer_id r' = transfer_id r.
Proof.
  intros Hr Ha _. unfold settle_item. destruct f as [reason|].
  - unfold fail_transfer_work_attempt. destruct (Z.leb_spec MAX_TRANSFER_WORK_ATTEMPTS (item_attempts i));
      cbn; rewrite lookup_alter_eq, Hr; eexists; split_and!; try done. cbn. lia.
  - cbn. rewrite lookup_alter_eq, Hr. by eexists.
Qed.

Lemma attempts_inv_task y k t a y' :
  rows_inv y → attempts_inv y → tasks y !! k = Some t → task_next y k t a = Some y' → attempts_inv y'.
Proof.
  intros Hrows Hi Hk Ha. unfold task_next, guard_next in Ha.
  destruct (stage t) as [|ph|ph|f| |] eqn:Hs, a as [ph' ok|e|ok|ph' v|f'|now ok| |]; try done.
  all: try (injection Ha as <-; by apply (attempts_inv_same y)).
  - case_bool_decide; [done|]. destruct ok; cbn [negb] in Ha; [|by injection Ha as <-].
    unfold claim_transfer_work_phase in Ha. destruct (phases (db y) !! _); injection Ha as <-; by apply (attempts_inv_same y).
  - case_bool_decide; [done|]. injection Ha as <-. apply (attempts_inv_same y); [done| |done|done].
    unfold record_transfer_work_observation. cbn. by destruct (phases (db y) !! _).
  - destruct (effect_possible _ _) eqn:Hpos; cbn [negb] in Ha; [|done]. destruct e; injection Ha as <-; by apply (attempts_inv_same y).
  - destruct ok; injection Ha as <-; by apply (attempts_inv_same y).
  - destruct ok; injection Ha as <-; [|by apply (attempts_inv_same y)].
    destruct (rows_active y Hrows k t Hk) as (r & Hr & Hst & Hat & _); [unfold active; by rewrite Hs|].
    destruct Hi as [H1 H2]. destruct (H1 _ _ Hr) as [Hc Hw].
    destruct (settle_own now (item t) f (db y) r Hr Hat) as (r' & Hr' & Ha' & Hp' & _).
    { unfold attempts_within. rewrite Hst. lia. }
    constructor; cbn.
    + intros id r1 Hr1. destruct (decide (id = item_id (item t))) as [->|Hne].
      * rewrite Hr' in Hr1. injection Hr1 as <-. split; [by rewrite Ha'|]. unfold attempts_within in *. rewrite Hst in Hw.
        rewrite Ha' in *. destruct (status r'); try lia. specialize (Hp' eq_refl). lia.
      * rewrite settle_other in Hr1 by done. by apply H1.
    + intros id Hn. destruct (decide (id = item_id (item t))) as [->|Hne]; [congruence|]. rewrite settle_other in Hn by done. by apply H2.
Qed.

Lemma attempts_inv_step y y' : rows_inv y → attempts_inv y → engine_step y y' → attempts_inv y'.
Proof.
  intros Hrows Hi [a Ha]. pose proof Hi as [H1 H2].
  destruct a as [now id kd tr pl| | |now ok| |now ok| | |k|k a|now ok]; cbn [engine_next] in Ha.
  - injection Ha as <-. unfold enqueue_transfer_work. destruct (work (db y) !! id) as [r0|] eqn:Hr; [by destruct y|].
    constructor; cbn.
    + intros id' r' [[<- <-]|[Hne Hr']]%lookup_insert_Some; [|by apply H1].
      cbn. rewrite (H2 id Hr). split; [done|]. unfold attempts_within, MAX_TRANSFER_WORK_ATTEMPTS. cbn. lia.
    + intros id' [Hr' _]%lookup_insert_None. by apply H2.
  - destruct (drain y); injection Ha as <-; by apply (attempts_inv_same y).
  - destruct (drain y); try done. case_bool_decide; [|done]. injection Ha as <-. by apply (attempts_inv_same y).
  - destruct (drain y) as [|b| | | |]; try done. destruct ok; cbn [negb] in Ha; [|injection Ha as <-; by apply (attempts_inv_same y)].
    destruct (claim_next_transfer_work b now (db y)) as [d [i|]] eqn:Hc; injection Ha as <-; [|by apply (attempts_inv_same y)].
    apply claim_inv in Hc as (r & Hr & Hcl & Hit & -> & _). destruct (H1 _ _ Hr) as [Hcount Hw].
    unfold attempts_within in Hw. rewrite (claimable_pending _ _ _ Hcl) in Hw. constructor; cbn.
    + intros id' r' [[<- <-]|[Hne Hr']]%lookup_insert_Some.
      * rewrite times_snoc_eq. unfold attempts_within; cbn. lia.
      * rewrite times_snoc_ne by done. by apply H1.
    + intros id' [Hr' Hne]%lookup_insert_None. rewrite times_snoc_ne by done. by apply H2.
  - destruct (drain y) as [| |i| | |]; try done. injection Ha as <-. by apply (attempts_inv_same y).
  - destruct (drain y); try done. injection Ha as <-. by apply (attempts_inv_same y).
  - destruct (drain y); try done. injection Ha as <-. by apply (attempts_inv_same y).
  - destruct (drain y); try done. injection Ha as <-. by apply (attempts_inv_same y).
  - apply (join_inv y k y') in Ha as [-> _].
    by apply (attempts_inv_same y).
  - destruct (tasks y !! k) as [t|] eqn:Hk; [|done]. by apply (attempts_inv_task y k t a).
  - injection Ha as <-. constructor; cbn.
    + intros id r Hr. assert (∃ r0, work (db y) !! id = Some r0 ∧ attempts r = attempts r0 ∧
                                (status r = status r0 ∨ status r0 = Running)) as (r0 & Hr0 & Ha & Hs).
      { destruct ok; [|by exists r; auto]. cbn in Hr. rewrite lookup_fmap in Hr. destruct (work (db y) !! id) as [r0|]; [|done].
        injection Hr as <-. exists r0. unfold requeued_row. case_bool_decide; cbn; auto. }
      destruct (H1 _ _ Hr0) as [Hc Hw]. rewrite Ha. split; [done|]. unfold attempts_within in *. rewrite Ha.
      destruct Hs as [Hs|Hs]; rewrite Hs in *; [destruct (status r0); lia|destruct (status r); lia].
    + intros id Hn. apply H2. destruct ok; [|done]. cbn in Hn. rewrite lookup_fmap in Hn. by destruct (work (db y) !! id).
Qed.

(** ** What every run keeps *)

Lemma engine_invariants y :
  reachable engine_step first_engine y → rows_inv y ∧ slots_inv y ∧ phases_inv y ∧ attempts_inv y.
Proof.
  apply (reachable_invariant engine_step (λ y, rows_inv y ∧ slots_inv y ∧ phases_inv y ∧ attempts_inv y)).
  - split_and!; constructor; cbn; try done; try lia.
    + intros t. split; [set_solver|by intros (? & ? & ? & _)].
    + rewrite map_size_empty. unfold MAX_CONCURRENT_WORK. lia.
    + apply NoDup_nil_2.
    + by intros p ?%not_elem_of_nil.
    + by intros p ?%not_elem_of_nil.
  - intros y1 y2 (H1 & H2 & H3 & H4) Hs. split_and!.
    + by eapply rows_inv_step.
    + by eapply slots_inv_step.
    + by eapply phases_inv_step.
    + by eapply attempts_inv_step.
Qed.

(** C20: at most eight items are under way, at most one of each transfer, and no
    item twice, however claims, ends, panics and restarts interleave. *)
Theorem engine_runs_one_item_per_transfer y :
  reachable engine_step first_engine y →
  (size (tasks y) ≤ MAX_CONCURRENT_WORK)%nat
  ∧ ∀ k k' t t', tasks y !! k = Some t → tasks y !! k' = Some t' →
      (in_flight t ∧ in_flight t' ∧ item_transfer (item t) = item_transfer (item t') ∧ item_transfer (item t) ≠ None)
      ∨ (active t ∧ active t' ∧ item_id (item t) = item_id (item t')) → k = k'.
Proof.
  intros (H1 & H2 & _)%engine_invariants. split; [by apply slots_pool|].
  intros k k' t t' Hk Hk' [(Hf & Hf' & Heq & Hn)|(Ha & Ha' & Heq)]; [|by apply (rows_once y H1 k k' t t')].
  destruct (item_transfer (item t)) as [x|] eqn:Hx; [|done]. by apply (slots_once y H2 k k' t t' x).
Qed.

(** C21: an effect that an item guards by a phase happens at most once for that
    item, across retries, panics and restarts: each time it happens the claim is
    kept for good, and a kept claim is never won again. The one exception is an
    acknowledged import whose answer was lost: its claim is given back, so it may
    happen again. *)
Theorem guarded_effect_lands_once y :
  reachable engine_step first_engine y →
  NoDup (map fst (filter (λ e, e.2 = true ∨ e.1.2 ≠ ACKNOWLEDGE_IMPORT) (landed y)))
  ∧ ∀ e, e ∈ landed y → e.2 = false → e.1.2 = ACKNOWLEDGE_IMPORT.
Proof.
  intros (_ & _ & [H _ _ Hlost] & _)%engine_invariants. split; [|done]. by rewrite kept_effects_all.
Qed.

(** C23: an item is handed out at most eight times and once more for each restart. *)
Theorem work_attempts_are_bounded y id :
  reachable engine_step first_engine y →
  Z.of_nat (times id (claims y)) ≤ MAX_TRANSFER_WORK_ATTEMPTS + Z.of_nat (restarts y).
Proof.
  intros (_ & _ & _ & H)%engine_invariants. destruct (work (db y) !! id) as [r|] eqn:Hr.
  - destruct (at_count y H id r Hr) as [<- Hw]. unfold attempts_within in Hw. destruct (status r); lia.
  - rewrite (at_none y H id Hr). unfold MAX_TRANSFER_WORK_ATTEMPTS. lia.
Qed.

(** A row that no task is settling and that is not running stays as it is unless it
    is claimed. *)
Lemma row_stays y y' a id r :
  rows_inv y → engine_next y a = Some y' → work (db y) !! id = Some r → status r ≠ Running →
  (work (db y') !! id = Some r ∧ times id (claims y') = times id (claims y))
  ∨ (status r = Pending ∧ times id (claims y') = S (times id (claims y))).
Proof.
  intros Hrows Ha Hr Hs.
  destruct a as [now id' kd tr pl| | |now ok| |now ok| | |k|k a|now ok]; cbn [engine_next] in Ha.
  - injection Ha as <-. left. unfold enqueue_transfer_work. destruct (work (db y) !! id') as [r0|] eqn:Hr'; [done|]. cbn.
    rewrite lookup_insert_ne by congruence. done.
  - left. destruct (drain y); by injection Ha as <-.
  - left. destruct (drain y); try done. case_bool_decide; [|done]. by injection Ha as <-.
  - destruct (drain y) as [|b| | | |]; try done. destruct ok; cbn [negb] in Ha; [|injection Ha as <-; by left].
    destruct (claim_next_transfer_work b now (db y)) as [d [i|]] eqn:Hc; injection Ha as <-; [|by left].
    apply claim_inv in Hc as (ri & Hri & Hcl & Hit & -> & _). cbn.
    destruct (decide (item_id i = id)) as [<-|Hne].
    + right. assert (ri = r) as -> by congruence. rewrite times_snoc_eq.
      split; [by eapply claimable_pending|done].
    + left. by rewrite lookup_insert_ne, times_snoc_ne by done.
  - left. destruct (drain y); try done. by injection Ha as <-.
  - left. destruct (drain y); try done. by injection Ha as <-.
  - left. destruct (drain y); try done. by injection Ha as <-.
  - left. destruct (drain y); try done. by injection Ha as <-.
  - left. apply (join_inv y k y') in Ha as [-> _]. done.
  - left. destruct (tasks y !! k) as [t|] eqn:Hk; [|done]. cbn [mbind option_bind] in Ha. unfold task_next, guard_next in Ha.
    destruct (stage t) as [|ph|ph|f| |] eqn:Hst, a as [ph' ok|e|ok|ph' v|f'|now ok| |]; try done; try by injection Ha as <-.
    + case_bool_decide; [done|]. destruct ok; cbn [negb] in Ha; [|by injection Ha as <-].
      unfold claim_transfer_work_phase in Ha. by destruct (phases (db y) !! _); injection Ha as <-.
    + case_bool_decide; [done|]. injection Ha as <-. unfold record_transfer_work_observation. cbn. by destruct (phases (db y) !! _).
    + destruct (effect_possible _ _); cbn [negb] in Ha; [|done]. by destruct e; injection Ha as <-.
    + by destruct ok; injection Ha as <-.
    + destruct ok; injection Ha as <-; [|done].
      destruct (rows_active y Hrows k t Hk) as (ri & Hri & Hsi & _); [unfold active; by rewrite Hst|].
      change (work (settle_item now (item t) f (db y)) !! id = Some r ∧ times id (claims y) = times id (claims y)).
      rewrite settle_other; [done|]. intros ->. congruence.
  - injection Ha as <-. left. destruct ok; [|done]. cbn. rewrite lookup_fmap, Hr. cbn. unfold requeued_row.
    by rewrite bool_decide_false.
Qed.

(** An item that is done, or given up, is never handed out again. *)
Theorem settled_work_never_runs_again y y' id r :
  reachable engine_step first_engine y → work (db y) !! id = Some r → status r = Done ∨ status r = Failed →
  reachable engine_step y y' → work (db y') !! id = Some r ∧ times id (claims y') = times id (claims y).
Proof.
  intros Hy Hr Hs Hy'. assert (reachable engine_step first_engine y' ∧ work (db y') !! id = Some r ∧ times id (claims y') = times id (claims y)) as [_ ?]; [|done].
  induction Hy' as [|y1 y2 Hy1 IH Hst]; [done|]. destruct IH as (Hr1 & Hw & Ht). split; [by eapply reachable_step|].
  destruct Hst as [a Ha]. destruct (engine_invariants y1 Hr1) as (Hrows & _).
  destruct (row_stays y1 y2 a id r Hrows Ha Hw) as [[H1 H2]|[H1 _]]; [by destruct Hs as [->| ->]|..]; [split; congruence|].
  destruct Hs; congruence.
Qed.

(** ** Sleeping *)

Lemma minimum_spec l :
  match minimum l with Some m => m ∈ l ∧ ∀ x, x ∈ l → m ≤ x | None => l = [] end.
Proof.
  induction l as [|x l IH]; cbn; [done|]. destruct (minimum l) as [m|].
  - destruct IH as [Hin Hle]. split.
    + destruct (Z.min_spec x m) as [[_ ->]|[_ ->]]; [left|by right].
    + intros z [->|Hz]%elem_of_cons; [lia|]. apply Hle in Hz. lia.
  - subst l. split; [left|]. intros z [->|Hz%not_elem_of_nil]%elem_of_cons; [lia|done].
Qed.

Definition eligible (b : list str) (r : WorkRow) : bool := bool_decide (status r = Pending) && negb (passed_over b r).

Lemma claimable_eligible b now r : claimable b now r = eligible b r && (run_after r <=? now).
Proof. unfold claimable, eligible. destruct (bool_decide _), (_ <=? _), (passed_over b r); done. Qed.

Lemma claim_some b now d id r :
  work d !! id = Some r → claimable b now r = true → (claim_next_transfer_work b now d).2 ≠ None.
Proof.
  intros Hr Hc. destruct (claim_next_transfer_work b now d) as [d' [i|]] eqn:Hcl; [done|].
  pose proof (claim_none b now d d' Hcl id r Hr). congruence.
Qed.

Lemma claim_not b now d :
  (∀ id r, work d !! id = Some r → claimable b now r = false) → (claim_next_transfer_work b now d).2 = None.
Proof.
  intros Hn. destruct (claim_next_transfer_work b now d) as [d' [i|]] eqn:Hcl; [|done].
  apply claim_inv in Hcl as (r & Hr & Hc & _). specialize (Hn _ _ Hr). congruence.
Qed.

(** With nothing to claim now, the delay is exactly the time until something
    is: no claim before it succeeds, and one at its end does; without a delay
    none ever does. *)
Theorem drain_sleeps_until_work_is_due b now d :
  (claim_next_transfer_work b now d).2 = None →
  match next_transfer_work_delay_seconds b now d with
  | Some s => 0 < s ∧ (claim_next_transfer_work b (now + s) d).2 ≠ None
              ∧ ∀ t, t < now + s → (claim_next_transfer_work b t d).2 = None
  | None => ∀ t, (claim_next_transfer_work b t d).2 = None
  end.
Proof.
  intros Hn. unfold next_transfer_work_delay_seconds.
  set (l := filter _ _). assert (∀ p, p ∈ l ↔ work d !! p.1 = Some p.2 ∧ eligible b p.2 = true) as Hl.
  { intros [id r]. unfold l. rewrite list_elem_of_filter, elem_of_map_to_list. unfold eligible. cbn. tauto. }
  pose proof (minimum_spec (map (λ p, run_after p.2) l)) as Hm. destruct (minimum _) as [m|]; cbn [mbind option_bind].
  - destruct Hm as [([id r] & -> & [Hr He]%Hl)%list_elem_of_fmap Hle]. cbn [fst snd] in *.
    assert (now < run_after r) as Hlt.
    { destruct (Z.ltb_spec now (run_after r)); [done|]. exfalso. apply (claim_some b now d id r); [done| |done].
      rewrite claimable_eligible, He. cbn. lia. }
    rewrite Z.max_r by lia. replace (now + (run_after r - now)) with (run_after r) by lia. split_and!; [lia| |].
    + apply (claim_some _ _ _ id r); [done|]. rewrite claimable_eligible, He. cbn. lia.
    + intros t Ht. apply claim_not. intros id' r' Hr'. rewrite claimable_eligible. destruct (eligible b r') eqn:He'; [|done].
      cbn. apply Z.leb_gt. eapply Z.lt_le_trans; [exact Ht|]. apply Hle, list_elem_of_fmap. exists (id', r'). split; [done|].
      by apply Hl.
  - apply map_eq_nil in Hm. intros t. apply claim_not. intros id r Hr. rewrite claimable_eligible.
    destruct (eligible b r) eqn:He; [|done]. exfalso. assert ((id, r) ∈ l) as Hin by (by apply Hl).
    rewrite Hm in Hin. by apply not_elem_of_nil in Hin.
Qed.

(** What an item observed before it acted is what every later attempt reads. *)
Theorem observation_never_changes y y' id ph v :
  reachable engine_step first_engine y → ph ∈ observation_phases →
  read_transfer_work_observation id ph (db y) = Some v → reachable engine_step y y' →
  read_transfer_work_observation id ph (db y') = Some v.
Proof.
  intros Hy Hph Hv Hy'. unfold read_transfer_work_observation in *.
  assert (reachable engine_step first_engine y' ∧ phases (db y') !! (id, ph) = Some v) as [_ ?]; [|done].
  induction Hy' as [|y1 y2 Hy1 IH Hst]; [done|]. destruct IH as (Hr1 & Hw). split; [by eapply reachable_step|].
  destruct (engine_invariants y1 Hr1) as (_ & _ & Hphases & _). destruct Hst as [a Ha].
  destruct a as [now id' kd tr pl| | |now ok| |now ok| | |k|k a|now ok]; cbn [engine_next] in Ha.
  - injection Ha as <-. unfold enqueue_transfer_work. by destruct (work (db y1) !! id').
  - destruct (drain y1); by injection Ha as <-.
  - destruct (drain y1); try done. case_bool_decide; [|done]. by injection Ha as <-.
  - destruct (drain y1) as [|b| | | |]; try done. destruct ok; cbn [negb] in Ha; [|by injection Ha as <-].
    pose proof (claim_phases b now (db y1)) as Hp.
    destruct (claim_next_transfer_work b now (db y1)) as [d [i|]]; injection Ha as <-; [|done]. cbn in *. by rewrite Hp.
  - destruct (drain y1); try done. by injection Ha as <-.
  - destruct (drain y1); try done. by injection Ha as <-.
  - destruct (drain y1); try done. by injection Ha as <-.
  - destruct (drain y1); try done. by injection Ha as <-.
  - by apply (join_inv y1 k y2) in Ha as [-> _].
  - destruct (tasks y1 !! k) as [t|] eqn:Hk; [|done]. cbn [mbind option_bind] in Ha. unfold task_next, guard_next in Ha.
    destruct (stage t) as [|ph1|ph1|f| |] eqn:Hst, a as [ph' ok|e|ok|ph' v'|f'|now ok| |]; try done; try by injection Ha as <-.
    + case_bool_decide; [done|]. destruct ok; cbn [negb] in Ha; [|by injection Ha as <-].
      unfold claim_transfer_work_phase in Ha. destruct (phases (db y1) !! (_, ph')) eqn:Hp; injection Ha as <-; [done|].
      cbn. rewrite lookup_insert_ne by congruence. done.
    + case_bool_decide; [done|]. injection Ha as <-. unfold record_transfer_work_observation. cbn.
      destruct (phases (db y1) !! (item_id (item t), ph')) eqn:Hp; [done|]. cbn. rewrite lookup_insert_ne by congruence. done.
    + destruct (effect_possible _ _); cbn [negb] in Ha; [|done]. by destruct e; injection Ha as <-.
    + destruct ok; injection Ha as <-; [|done]. cbn. rewrite lookup_delete_ne; [done|]. intros [= _ ->].
      destruct (ph_held y1 Hphases k t ph Hk (or_intror Hst)) as (_ & _ & Hg).
      revert Hph Hg. cbn. clear. intros H1 H2. assert (ph ∉ guard_phases) as Hno; [|done].
      revert ph H1 H2. cut (Forall (λ ph, ph ∉ guard_phases) observation_phases); [|by apply (bool_decide_unpack _)].
      intros HF ph H1 _. rewrite Forall_forall in HF. by apply HF.
    + destruct ok; injection Ha as <-; [|done]. change (phases (settle_item now (item t) f (db y1)) !! (id, ph) = Some v).
      by rewrite settle_phases.
  - injection Ha as <-. by destruct ok.
Qed.

(** ** Order *)

Definition before (id : str) (r : WorkRow) (p : str * WorkRow) : Prop :=
  status p.2 = Pending ∧ claim_order p (id, r) = Lt.

#[export] Instance before_decision id r p : Decision (before id r p).
Proof. unfold before. apply _. Defined.

(** The rows that are handed out before this one. *)
Definition ahead (d : Db) (id : str) (r : WorkRow) : gmap str WorkRow := filter (before id r) (work d).

Lemma later_not_before id r id' r' : run_after r < run_after r' → ¬ before id r (id', r').
Proof.
  intros Hlt [_ H]. unfold claim_order in H. cbn [fst snd] in H. by rewrite (proj2 (Z.compare_gt_iff _ _)) in H.
Qed.

(** The clock an action reads. *)
Definition clock (a : EngineAct) : option Z :=
  match a with
  | AEnqueue now _ _ _ _ | AClaim now _ | AMeasure now _ | ATask _ (ASettle now _) | ARestart now _ => Some now
  | _ => None
  end.

Definition after (t : Z) (a : EngineAct) : Prop := match clock a with Some now => t < now | None => True end.

(** A claim at which the row could have been taken. *)
Definition passes (y : Engine) (r : WorkRow) (a : EngineAct) : nat :=
  match a, drain y with
  | AClaim now true, Claiming b => if claimable b now r then 1 else 0
  | _, _ => 0
  end.

Fixpoint passes_in (y : Engine) (r : WorkRow) (acts : list EngineAct) : nat :=
  match acts with
  | [] => 0
  | a :: acts => passes y r a + match engine_next y a with Some y' => passes_in y' r acts | None => 0 end
  end.

Lemma ahead_same d d' id r :
  (∀ id' r', work d' !! id' = Some r' → status r' = Pending → work d !! id' = Some r' ∨ run_after r < run_after r') →
  ahead d' id r ⊆ ahead d id r.
Proof.
  intros H. apply map_subseteq_spec. intros id' r'. unfold ahead. rewrite !map_lookup_filter_Some. intros [Hr' Hb].
  split; [|done]. destruct (H id' r' Hr') as [|Hl]; [by destruct Hb|done|]. by apply later_not_before in Hb.
Qed.

Lemma backoff_positive n : 0 < backoff n.
Proof.
  unfold backoff. set (k := Nat.min _ _). assert (k < 5)%nat as Hk by (subst k; cbn; lia). clearbody k.
  unfold RETRY_BACKOFF_SECONDS. do 5 (destruct k as [|k]; [done|]). lia.
Qed.

Arguments backoff : simpl never.

Lemma row_ahead_step y y' a id r :
  rows_inv y → engine_next y a = Some y' → work (db y) !! id = Some r → status r = Pending → after (run_after r) a →
  times id (claims y') = times id (claims y) →
  (passes y r a + base.size (ahead (db y') id r) ≤ base.size (ahead (db y) id r))%nat.
Proof.
  intros Hrows Ha Hr Hs Hclock Htimes.
  assert (∀ d', (∀ id' r', work d' !! id' = Some r' → status r' = Pending → work (db y) !! id' = Some r' ∨ run_after r < run_after r') →
            (base.size (ahead d' id r) ≤ base.size (ahead (db y) id r))%nat) as Hsame.
  { intros d' H. apply map_subseteq_size. by apply ahead_same. }
  destruct a as [now id' kd tr pl| | |now ok| |now ok| | |k|k a|now ok]; cbn [engine_next passes] in *; unfold after in Hclock; cbn in Hclock.
  - injection Ha as <-. apply Hsame. unfold enqueue_transfer_work. destruct (work (db y) !! id') as [r0|] eqn:Hr0; [auto|].
    cbn. intros id1 r1 [[<- <-]|[Hne H1]]%lookup_insert_Some _; [by right|by left].
  - apply Hsame. destruct (drain y); injection Ha as <-; auto.
  - apply Hsame. destruct (drain y); try done. case_bool_decide; [|done]. injection Ha as <-. auto.
  - destruct (drain y) as [|b| | | |] eqn:Hd; try done. destruct ok; cbn [negb] in Ha; [|injection Ha as <-; by apply Hsame; auto].
    destruct (claim_next_transfer_work b now (db y)) as [d [i|]] eqn:Hc; injection Ha as <-.
    2:{ pose proof (claim_none _ _ _ _ Hc id r Hr) as ->. assert (d = db y) as Hdb.
        { unfold claim_next_transfer_work in Hc. destruct (head _) as [[??]|]; [done|]. by injection Hc. }
        apply Hsame. auto. }
    apply claim_inv in Hc as (ri & Hri & Hcl & Hit & -> & Hmin). cbn in *.
    assert (item_id i ≠ id) as Hne. { intros Heq. rewrite Heq, times_snoc_eq in Htimes. lia. }
    assert (ahead (set_work (db y) (<[item_id i:=claimed_row now ri]> (work (db y)))) id r ⊆ ahead (db y) id r) as Hsub.
    { apply ahead_same. cbn. intros id1 r1 [[<- <-]|[Hne1 H1]]%lookup_insert_Some Hp; [done|by left]. }
    destruct (claimable b now r) eqn:Hcr; [|by apply map_subseteq_size].
    apply map_subset_size. split; [done|]. intros Hsup.
    assert (ahead (db y) id r !! item_id i = Some ri) as Hin.
    { apply map_lookup_filter_Some. split; [done|]. split; [by eapply claimable_pending|].
      specialize (Hmin id r Hr Hcr). unfold cmp_le in Hmin. destruct (claim_order (item_id i, ri) (id, r)) eqn:Ho; try done.
      exfalso. apply Hne. unfold claim_order in Ho. cbn [fst snd] in Ho. unfold then_with in Ho.
      destruct (run_after ri ?= run_after r), (created_at ri ?= created_at r); try done. by apply str_cmp_eq in Ho. }
    apply (lookup_weaken _ _ _ _ Hin) in Hsup. apply map_lookup_filter_Some in Hsup as [Hl _]. cbn in Hl.
    rewrite lookup_insert_eq in Hl. injection Hl as Hl. apply (f_equal status) in Hl.
    pose proof (claimable_pending _ _ _ Hcl). cbn in Hl. congruence.
  - apply Hsame. destruct (drain y); try done. injection Ha as <-. auto.
  - apply Hsame. destruct (drain y); try done. injection Ha as <-. auto.
  - apply Hsame. destruct (drain y); try done. injection Ha as <-. auto.
  - apply Hsame. destruct (drain y); try done. injection Ha as <-. auto.
  - apply Hsame. apply (join_inv y k y') in Ha as [-> _]. auto.
  - apply Hsame. destruct (tasks y !! k) as [t|] eqn:Hk; [|done]. cbn [mbind option_bind] in Ha. unfold task_next, guard_next in Ha.
    destruct (stage t) as [|ph|ph|f| |] eqn:Hst, a as [ph' ok|e|ok|ph' v|f'|now ok| |]; try done; try (injection Ha as <-; by auto).
    + case_bool_decide; [done|]. destruct ok; cbn [negb] in Ha; [|injection Ha as <-; by auto].
      unfold claim_transfer_work_phase in Ha. by destruct (phases (db y) !! _); injection Ha as <-; auto.
    + case_bool_decide; [done|]. injection Ha as <-. unfold record_transfer_work_observation. cbn.
      destruct (phases (db y) !! _); auto.
    + destruct (effect_possible _ _) eqn:Hpos; cbn [negb] in Ha; [|done]. destruct e; injection Ha as <-; auto.
    + destruct ok; injection Ha as <-; auto.
    + cbn in Hclock. destruct ok; injection Ha as <-; [|auto]. intros id1 r1 H1 Hp.
      change (work (settle_item now (item t) f (db y)) !! id1 = Some r1) in H1.
      destruct (decide (id1 = item_id (item t))) as [->|Hne]; [right|left; by rewrite settle_other in H1].
      unfold settle_item in H1. destruct f as [reason|].
      * unfold fail_transfer_work_attempt in H1. destruct (_ <=? _); cbn in H1; rewrite lookup_alter_eq in H1;
          destruct (work (db y) !! item_id (item t)) as [r0|]; try done; injection H1 as <-; [done|]. cbn.
        pose proof (backoff_positive (item_attempts (item t))). lia.
      * cbn in H1. rewrite lookup_alter_eq in H1. destruct (work (db y) !! item_id (item t)); [|done]. cbn in H1. by injection H1 as <-.
  - apply Hsame. injection Ha as <-. destruct ok; [|auto]. cbn. intros id1 r1. rewrite lookup_fmap.
    destruct (work (db y) !! id1) as [r0|]; [|done]. cbn. intros [= <-] Hp. unfold requeued_row in *.
    case_bool_decide; [by right|by left].
Qed.

(** Nothing is taken out of the record of claims. *)
Lemma claims_grow acts y y' id : exec engine_next y acts = Some y' → (times id (claims y) ≤ times id (claims y'))%nat.
Proof.
  revert y. induction acts as [|a l IH]; intros z He; cbn in He; [by injection He as <-|].
  destruct (engine_next z a) as [z1|] eqn:Ha; [|done]. cbn in He. etrans; [|by apply IH]. clear IH He.
  assert (claims z1 = claims z ∨ ∃ i, claims z1 = claims z ++ [i]) as [->|[i ->]]; [|done|].
  - destruct a as [now id' kd tr pl| | |now ok| |now ok| | |k|k a|now ok]; cbn [engine_next] in Ha.
    all: try (destruct (drain z); try done; injection Ha as <-; by left).
    all: try (injection Ha as <-; by left).
    + destruct (drain z); try done. case_bool_decide; [|done]. injection Ha as <-. by left.
    + destruct (drain z) as [|b| | | |]; try done. destruct ok; cbn [negb] in Ha; [|injection Ha as <-; by left].
      destruct (claim_next_transfer_work b now (db z)) as [d [i|]]; injection Ha as <-; [right; by exists (item_id i)|by left].
    + left. by apply (join_inv z k z1) in Ha as [-> _].
    + left. destruct (tasks z !! k) as [t|]; [|done]. cbn [mbind option_bind] in Ha. unfold task_next, guard_next in Ha.
      destruct (stage t) as [|ph|ph|f| |], a as [ph' ok|e|ok|ph' v|f'|now ok| |]; try done; try by injection Ha as <-.
      * case_bool_decide; [done|]. destruct ok; cbn [negb] in Ha; [|by injection Ha as <-].
        unfold claim_transfer_work_phase in Ha. by destruct (phases (db z) !! _); injection Ha as <-.
      * case_bool_decide; [done|]. by injection Ha as <-.
      * destruct (effect_possible _ _); cbn [negb] in Ha; [|done]. by destruct e; injection Ha as <-.
      * by destruct ok; injection Ha as <-.
      * by destruct ok; injection Ha as <-.
  - unfold times. rewrite filter_app, length_app. lia.
Qed.

(** C22: once the second an item is due in is over (every clock read from then on
    shows a later one), the drain passes it over at most as many times as there
    are items before it then, however many are added and fail. *)
Theorem due_work_is_not_overtaken y acts y' id r :
  reachable engine_step first_engine y → work (db y) !! id = Some r → status r = Pending →
  Forall (after (run_after r)) acts → exec engine_next y acts = Some y' →
  times id (claims y') = times id (claims y) →
  (passes_in y r acts ≤ base.size (ahead (db y) id r))%nat.
Proof.
  intros Hy Hr Hs. revert y Hy Hr. induction acts as [|a acts IH]; intros y Hy Hr Hc He Ht; cbn; [lia|].
  apply Forall_cons in Hc as [Hca Hc]. cbn in He. destruct (engine_next y a) as [y1|] eqn:Ha; [|done]. cbn in He.
  assert (reachable engine_step first_engine y1) as Hy1 by (eapply reachable_step; [done|by exists a]).
  destruct (engine_invariants y Hy) as (Hrows & _).
  pose proof (claims_grow _ _ _ id He) as Hm1. pose proof (claims_grow [a] y y1 id ltac:(cbn; by rewrite Ha)) as Hm0.
  assert (times id (claims y1) = times id (claims y)) as Ht1 by lia.
  pose proof (row_ahead_step y y1 a id r Hrows Ha Hr Hs Hca Ht1) as Hstep.
  destruct (row_stays y y1 a id r Hrows Ha Hr) as [[Hr1 _]|[_ Hx]]; [by rewrite Hs| |lia].
  specialize (IH y1 Hy1 Hr1 Hc He ltac:(lia)). lia.
Qed.

(** ** Names of work *)

Lemma separator_inj (a b x y : str) : 58 ∉ a → 58 ∉ b → a ++ 58 :: x = b ++ 58 :: y → a = b ∧ x = y.
Proof.
  revert b. induction a as [|c a IH]; intros [|c' b] Ha Hb H; cbn in H; injection H; intros; subst; try done.
  - by destruct Hb; left.
  - by destruct Ha; left.
  - apply not_elem_of_cons in Ha as [_ Ha], Hb as [_ Hb]. by destruct (IH b Ha Hb) as [-> ->].
Qed.

Lemma nonce_no_colon p n c : 0 ≤ p → 0 ≤ n → 0 ≤ c → 58 ∉ unique_work_nonce p n c.
Proof.
  intros Hp Hn Hc. unfold unique_work_nonce.
  assert (∀ k, 0 ≤ k → 58 ∉ decimal k) as Hd.
  { intros k Hk Hin. pose proof (decimal_digits k Hk) as H. rewrite Forall_forall in H. apply H in Hin. cbn in Hin. lia. }
  assert (58 ∉ lit "-") as Hdash by (by apply (bool_decide_unpack _)).
  rewrite !not_elem_of_app. split_and!; auto.
Qed.

(** The word before the first colon, and the key after it. *)
Lemma durable_event_key fields inc w :
  durable_event_work fields inc = Some w →
  ∃ type word key, fields (lit "type") = Some type ∧ work_id w = word ++ 58 :: key ∧ is_durable_transfer_event type = true ∧
    ((type = lit "incoming_transfer_request" ∧ word = lit "incoming" ∧ fields (lit "transfer_id") = Some key)
     ∨ (type = lit "outgoing_transfer_committed" ∧ word = lit "committed" ∧ fields (lit "transfer_id") = Some key)
     ∨ (type = lit "outgoing_transfer_finalization_requested" ∧ word = lit "finalize" ∧ fields (lit "transfer_id") = Some key)
     ∨ (type = lit "task_pull_requested" ∧ word = lit "pull" ∧ ∃ q, fields (lit "request_id") = Some q ∧ key = inc ++ 58 :: q)).
Proof.
  unfold durable_event_work. destruct (fields (lit "type")) as [type|]; [|done]. cbn [mbind option_bind].
  case_bool_decide as H1; [subst|case_bool_decide as H2; [subst|case_bool_decide as H3; [subst|case_bool_decide as H4; [subst|done]]]].
  - destruct (fields (lit "transfer_id")) as [key|]; [|done]. intros [= <-].
    exists (lit "incoming_transfer_request"), (lit "incoming"), key. split_and!; try done. by left.
  - destruct (fields (lit "request_id")) as [q|]; [|done]. intros [= <-].
    exists (lit "task_pull_requested"), (lit "pull"), (inc ++ 58 :: q). split_and!; try done. do 3 right. eauto.
  - destruct (fields (lit "transfer_id")) as [key|]; [|done]. intros [= <-].
    exists (lit "outgoing_transfer_committed"), (lit "committed"), key. split_and!; try done. by right; left.
  - destruct (fields (lit "transfer_id")) as [key|]; [|done]. intros [= <-].
    exists (lit "outgoing_transfer_finalization_requested"), (lit "finalize"), key. split_and!; try done. by right; right; left.
Qed.

(** Two deliveries fall on one row only if they are the same event, and pulls
    only if the same process reported them. *)
Theorem work_ids_identify_events fields fields' p n c p' n' c' w w' :
  0 ≤ p → 0 ≤ n → 0 ≤ c → 0 ≤ p' → 0 ≤ n' → 0 ≤ c' →
  durable_event_work fields (unique_work_nonce p n c) = Some w →
  durable_event_work fields' (unique_work_nonce p' n' c') = Some w' →
  work_id w = work_id w' →
  fields (lit "type") = fields' (lit "type")
  ∧ (if bool_decide (fields (lit "type") = Some (lit "task_pull_requested"))
     then unique_work_nonce p n c = unique_work_nonce p' n' c' ∧ fields (lit "request_id") = fields' (lit "request_id")
     else fields (lit "transfer_id") = fields' (lit "transfer_id")).
Proof.
  intros Hp Hn Hc Hp' Hn' Hc' Hw Hw' Heq.
  pose proof (nonce_no_colon p n c Hp Hn Hc) as Hno. pose proof (nonce_no_colon p' n' c' Hp' Hn' Hc') as Hno'.
  apply durable_event_key in Hw as (ty & wd & key & Ht & Hi & _ & Hcase). apply durable_event_key in Hw' as (ty' & wd' & key' & Ht' & Hi' & _ & Hcase').
  rewrite Hi, Hi' in Heq.
  assert (wd = wd' ∧ key = key') as [-> ->].
  { apply separator_inj; [| |done].
    - destruct Hcase as [(_ & -> & _)|[(_ & -> & _)|[(_ & -> & _)|(_ & -> & _)]]]; by apply (bool_decide_unpack _).
    - destruct Hcase' as [(_ & -> & _)|[(_ & -> & _)|[(_ & -> & _)|(_ & -> & _)]]]; by apply (bool_decide_unpack _). }
  destruct Hcase as [(-> & -> & Hk)|[(-> & -> & Hk)|[(-> & -> & Hk)|(-> & -> & q & Hk & ->)]]];
    destruct Hcase' as [(-> & Hwd & Hk')|[(-> & Hwd & Hk')|[(-> & Hwd & Hk')|(-> & Hwd & q' & Hk' & Hq)]]];
    try discriminate Hwd; rewrite Ht, Ht', Hk, Hk'; (split; [done|]).
  1-3: by rewrite bool_decide_false.
  rewrite bool_decide_true by done. by apply separator_inj in Hq as [-> ->].
Qed.

(** ** Runs *)

Definition run_engine (acts : list EngineAct) : Engine := default first_engine (exec engine_next first_engine acts).

Lemma runs_engine acts :
  is_Some (exec engine_next first_engine acts) → reachable engine_step first_engine (run_engine acts).
Proof.
  intros [y Hy]. unfold run_engine. rewrite Hy. eapply (exec_reachable engine_next); [constructor|exact Hy].
Qed.

(** A finalization and the commit of the same transfer, and an import of another. *)
Definition queued : list EngineAct :=
  [AEnqueue 100 (lit "finalize:t") KIND_FINALIZE (Some (lit "t")) [];
   AEnqueue 101 (lit "committed:t") KIND_OUTGOING_COMMITTED (Some (lit "t")) [];
   AEnqueue 101 (lit "import:u") (lit "import") (Some (lit "u")) []].

Definition claim_at (now : Z) : list EngineAct := [AReadBusy; AClaim now true; ASpawn].

(** The finalization types its wrap-up and fails; meanwhile the import runs; a restart. *)
Definition busy_run : list EngineAct :=
  queued ++ claim_at 102 ++ [ATask 0 (AObserve OUTCOME_PHASE (Some (lit "hung"))); ATask 0 (AGuard WRAP_UP_PHASE true)]
  ++ claim_at 102 ++ [ATask 0 (AEffect Landed); ATask 0 (AReturn (Some (lit "peer"))); ATask 0 (ASettle 103 true);
                      ATask 0 ADropSlot; ATask 1 (AReturn None); ATask 1 (ASettle 104 true); ATask 1 ADropSlot;
                      ARestart 110 true].

Lemma busy_run_ok : is_Some (exec engine_next first_engine busy_run).
Proof. vm_compute. eauto. Qed.

Lemma engine_runs_one_item_per_transfer_witness :
  (size (tasks (run_engine (take 11 busy_run))) ≤ MAX_CONCURRENT_WORK)%nat
  ∧ ∀ k k' t t', tasks (run_engine (take 11 busy_run)) !! k = Some t → tasks (run_engine (take 11 busy_run)) !! k' = Some t' →
      (in_flight t ∧ in_flight t' ∧ item_transfer (item t) = item_transfer (item t') ∧ item_transfer (item t) ≠ None)
      ∨ (active t ∧ active t' ∧ item_id (item t) = item_id (item t')) → k = k'.
Proof. refine (engine_runs_one_item_per_transfer _ _). apply runs_engine. vm_compute. eauto. Defined.

Lemma guarded_effect_lands_once_witness :
  let l := landed (run_engine busy_run) in
  NoDup (map fst (filter (λ e, e.2 = true ∨ e.1.2 ≠ ACKNOWLEDGE_IMPORT) l))
  ∧ ∀ e, e ∈ l → e.2 = false → e.1.2 = ACKNOWLEDGE_IMPORT.
Proof. refine (guarded_effect_lands_once _ _). apply runs_engine, busy_run_ok. Defined.

(** The source learns of the import, the answer does not come back, and the retry
    tells it again. *)
Definition acknowledged_twice_run : list EngineAct :=
  [AEnqueue 101 (lit "import:u") (lit "import") (Some (lit "u")) []] ++ claim_at 102
  ++ [ATask 0 (AGuard ACKNOWLEDGE_IMPORT true); ATask 0 (AEffect AnswerLost); ATask 0 (ARelease true);
      ATask 0 (AReturn (Some (lit "lost"))); ATask 0 (ASettle 103 true); ATask 0 ADropSlot]
  ++ claim_at 110 ++ [ATask 1 (AGuard ACKNOWLEDGE_IMPORT true); ATask 1 (AEffect Landed)].

(** Acknowledging an import is not at most once, though its comment says so: a
    lost answer gives the claim back. *)
Lemma import_is_acknowledged_twice :
  is_Some (exec engine_next first_engine acknowledged_twice_run) ∧
  map fst (landed (run_engine acknowledged_twice_run)) =
    [(lit "import:u", ACKNOWLEDGE_IMPORT); (lit "import:u", ACKNOWLEDGE_IMPORT)].
Proof. vm_compute. split; [eauto|reflexivity]. Qed.

Lemma work_attempts_are_bounded_witness :
  Z.of_nat (times (lit "finalize:t") (claims (run_engine busy_run)))
  ≤ MAX_TRANSFER_WORK_ATTEMPTS + Z.of_nat (restarts (run_engine busy_run)).
Proof. refine (work_attempts_are_bounded _ _ _). apply runs_engine, busy_run_ok. Defined.

Definition import_done : WorkRow := mkRow (lit "import") (Some (lit "u")) [] Done 1 None 101 104 101.

Lemma settled_work_never_runs_again_witness :
  let y := run_engine busy_run in let y' := run_engine (busy_run ++ claim_at 120) in
  work (db y') !! lit "import:u" = Some import_done ∧ times (lit "import:u") (claims y') = times (lit "import:u") (claims y).
Proof.
  refine (settled_work_never_runs_again (run_engine busy_run) (run_engine (busy_run ++ claim_at 120)) (lit "import:u") import_done _ _ _ _).
  - apply runs_engine, busy_run_ok.
  - by vm_compute.
  - by left.
  - eapply (exec_reachable engine_next _ _ (claim_at 120)); [constructor|]. by vm_compute.
Defined.

Lemma drain_sleeps_until_work_is_due_witness :
  let d := db (run_engine queued) in
  match next_transfer_work_delay_seconds [lit "t"] 90 d with
  | Some s => 0 < s ∧ (claim_next_transfer_work [lit "t"] (90 + s) d).2 ≠ None
              ∧ ∀ t, t < 90 + s → (claim_next_transfer_work [lit "t"] t d).2 = None
  | None => ∀ t, (claim_next_transfer_work [lit "t"] t d).2 = None
  end.
Proof. refine (drain_sleeps_until_work_is_due [lit "t"] 90 (db (run_engine queued)) _). by vm_compute. Defined.

Lemma observation_never_changes_witness :
  read_transfer_work_observation (lit "finalize:t") OUTCOME_PHASE
    (db (run_engine (busy_run ++ claim_at 120 ++ [ATask 2 (AObserve OUTCOME_PHASE None)]))) = Some (Some (lit "hung")).
Proof.
  refine (observation_never_changes (run_engine busy_run)
            (run_engine (busy_run ++ claim_at 120 ++ [ATask 2 (AObserve OUTCOME_PHASE None)]))
            (lit "finalize:t") OUTCOME_PHASE (Some (lit "hung")) _ _ _ _).
  - apply runs_engine, busy_run_ok.
  - by apply (bool_decide_unpack _).
  - by vm_compute.
  - eapply (exec_reachable engine_next _ _ (claim_at 120 ++ [ATask 2 (AObserve OUTCOME_PHASE None)])); [constructor|]. by vm_compute.
Defined.

Definition import_due : WorkRow := mkRow (lit "import") (Some (lit "u")) [] Pending 0 None 101 101 101.

Lemma due_work_is_not_overtaken_witness :
  (passes_in (run_engine queued) import_due (claim_at 102) ≤ base.size (ahead (db (run_engine queued)) (lit "import:u") import_due))%nat.
Proof.
  refine (due_work_is_not_overtaken (run_engine queued) (claim_at 102) (run_engine (queued ++ claim_at 102)) (lit "import:u") import_due
            _ _ _ _ _ _).
  - apply runs_engine. vm_compute. eauto.
  - by vm_compute.
  - done.
  - by repeat constructor.
  - by vm_compute.
  - by vm_compute.
Defined.

Definition pull_event (type request : string) (k : str) : option str :=
  if bool_decide (k = lit "type") then Some (lit type)
  else if bool_decide (k = lit "request_id") then Some (lit request) else None.

Lemma work_ids_identify_events_witness :
  let f := pull_event "task_pull_requested" "pull-7" in
  f (lit "type") = f (lit "type")
  ∧ (if bool_decide (f (lit "type") = Some (lit "task_pull_requested"))
     then unique_work_nonce 4 5 6 = unique_work_nonce 4 5 6 ∧ f (lit "request_id") = f (lit "request_id")
     else f (lit "transfer_id") = f (lit "transfer_id")).
Proof.
  refine (work_ids_identify_events (pull_event "task_pull_requested" "pull-7") (pull_event "task_pull_requested" "pull-7")
            4 5 6 4 5 6 (mkWork (lit "pull:4-5-6:pull-7") KIND_PUSH None) (mkWork (lit "pull:4-5-6:pull-7") KIND_PUSH None)
            _ _ _ _ _ _ _ _ _); by vm_compute.
Defined.

(** ** What the queue does not keep

    Two items queued within a second are handed out in the order of their ids, and
    one that failed lets a later one of the same transfer go first, so the commit
    of a transfer can run before its finalization. *)
Lemma commit_before_finalization :
  claims (run_engine ([AEnqueue 100 (lit "finalize:t") KIND_FINALIZE (Some (lit "t")) [];
                       AEnqueue 100 (lit "committed:t") KIND_OUTGOING_COMMITTED (Some (lit "t")) []] ++ claim_at 100))
  = [lit "committed:t"].
Proof. by vm_compute. Qed.

Lemma retry_lets_the_commit_pass :
  claims (run_engine (queued ++ claim_at 102 ++ [ATask 0 (AReturn (Some [])); ATask 0 (ASettle 102 true); ATask 0 ADropSlot]
                      ++ claim_at 102))
  = [lit "finalize:t"; lit "committed:t"].
Proof. by vm_compute. Qed.

(** An item that ends its process each time is tried again for ever. *)
Lemma crashing_item_is_not_given_up :
  times (lit "finalize:t")
    (claims (run_engine (take 1 queued ++ mjoin (replicate 20 (claim_at 200 ++ [ARestart 200 true]))))) = 20%nat.
Proof. by vm_compute. Qed.

(** An append between the reading of the delay and the wait wakes nobody: the
    drain waits its thirty seconds with an item due. *)
Lemma append_is_not_noticed :
  let y := run_engine ([AReadBusy; AClaim 100 true; AMeasure 100 true] ++ take 1 queued ++ [ANotify; APark]) in
  drain y = Waiting 30 false ∧ (claim_next_transfer_work [] 100 (db y)).2 ≠ None.
Proof. by vm_compute. Qed.
