(* ===== verification/CloudTasks.v ===== *)
(** * The cloud's view of a desktop's tasks
      ([crates/kanna-server/src/cloud_task_publisher.rs])

    Every half second the server turns its database snapshot into the envelope it
    publishes: bounded strings, tasks sorted by their ids, and for each task the
    output preview of its last boundary, which a cache remembers so that output
    alone does not publish anything.  The records hold the fields the mapping
    reads; the identity of the desktop is decoded outside. *)

From S2P Require Import Prelude RustStd Protocol.
Local Open Scope Z_scope.

(** ** What the database gives ([db/mod.rs]) *)

Record SnapshotRepo := mkRepo {
  r_id : str;
  r_name : str;
  r_default_branch : option str;
  r_remote_url : option str;
  r_remote_url_hash : option str
}.

Record SnapshotPipelineItem := mkPipelineItem {
  i_id : str;
  i_cloud_task_id : str;
  i_transfer_id : option str;
  i_transfer_direction : option str;
  i_transfer_status : option str;
  i_transfer_source_desktop_id : option str;
  i_transfer_target_desktop_id : option str;
  i_prompt : option str;
  i_pipeline : str;
  i_stage : str;
  i_pr_number : option Z;
  i_pr_url : option str;
  i_branch : option str;
  i_closed_at : option str;
  i_agent_type : option str;
  i_agent_provider : str;
  i_activity : str;
  i_activity_revision : Z;
  i_blocker_revision : Z;
  i_transition_revision : option str;
  i_display_name : option str;
  i_last_output_preview : option str;
  i_pinned : Z;
  i_pin_order : option Z;
  i_base_ref : option str;
  i_parent_task_id : option str;
  i_created_at : option str;
  i_updated_at : option str;
  i_has_running_post : Z;
  i_runtime_state : option str;
  i_read_state : str
}.

Record SnapshotBlockerTaskState := mkBlockerState {
  b_closed_at : option str;
  b_stage : option str;
  b_pr_url : option str
}.

Definition is_resolved (s : SnapshotBlockerTaskState) : bool :=
  bool_decide (is_Some (b_closed_at s))
  || bool_decide (b_stage s = Some (lit "pr")) && bool_decide (is_Some (b_pr_url s)).

Record CloudTransferIdentity := mkIdentity {
  peer_id : str;
  public_key : str;
  protocol_version : Z;
  accepting_transfers : bool
}.

(** [task_blockers] are pairs of a blocked task and its blocker; [identity] is the
    setting of that name, decoded. *)
Record UiSnapshot := mkUi {
  entries : list (SnapshotRepo * list SnapshotPipelineItem);
  task_blockers : list (str * str);
  blocker_task_states : gmap str SnapshotBlockerTaskState;
  identity : option CloudTransferIdentity
}.

(** ** What is published *)

Record CloudRepoSnapshot := mkCloudRepo {
  cloud_repo_id : str;
  repo_name : str;
  remote_url : option str;
  remote_url_hash : option str;
  default_branch : option str
}.

Record CloudTransferSnapshot := mkTransfer {
  transfer_state : str;
  transfer_id : option str;
  source_desktop_id : option str;
  destination_desktop_id : option str
}.

Definition no_transfer : CloudTransferSnapshot := mkTransfer (lit "none") None None None.

Record CloudTaskSnapshot := mkCloudTask {
  cloud_task_id : str;
  local_repo_id : str;
  owner_desktop_id : str;
  owner_local_task_id : str;
  singleton_agent : option str;
  title : str;
  prompt_snippet : option str;
  waiting_prompt_snippet : option str;
  display_name : option str;
  stage : str;
  activity : str;
  activity_revision : Z;
  runtime_state : option str;
  read_state : option str;
  blocker_revision : Z;
  transition_revision : option str;
  status : str;
  has_running_post : bool;
  repo : CloudRepoSnapshot;
  branch : option str;
  base_ref : option str;
  pr_number : option Z;
  pr_url : option str;
  agent_provider : str;
  execution_type : str;
  transfer : CloudTransferSnapshot;
  blocked_by_task_ids : list str;
  parent_task_id : option str;
  pinned : bool;
  pin_order : option Z;
  created_at : str;
  updated_at : str;
  closed_at : option str
}.

Record CloudTaskSnapshotEnvelope := mkEnvelope {
  schema_version : Z;
  singleton_directory_version : Z;
  singleton_reservation_fence : option str;
  desktop_name : str;
  agent_providers : option (list AgentProvider);
  desktop_transfer : option CloudTransferIdentity;
  tasks : list CloudTaskSnapshot
}.

Definition CLOUD_TASK_SCHEMA_V1 : Z := 1.
Definition CLOUD_TASK_SCHEMA_V2 : Z := 2.

Definition set_transfer (t : CloudTaskSnapshot) (x : CloudTransferSnapshot) : CloudTaskSnapshot :=
  mkCloudTask (cloud_task_id t) (local_repo_id t) (owner_desktop_id t) (owner_local_task_id t) (singleton_agent t) (title t)
    (prompt_snippet t) (waiting_prompt_snippet t) (display_name t) (stage t) (activity t) (activity_revision t) (runtime_state t)
    (read_state t) (blocker_revision t) (transition_revision t) (status t) (has_running_post t) (repo t) (branch t) (base_ref t)
    (pr_number t) (pr_url t) (agent_provider t) (execution_type t) x (blocked_by_task_ids t) (parent_task_id t) (pinned t)
    (pin_order t) (created_at t) (updated_at t) (closed_at t).

Definition for_publication_version (version : Z) (e : CloudTaskSnapshotEnvelope) : CloudTaskSnapshotEnvelope :=
  if version =? CLOUD_TASK_SCHEMA_V2 then
    mkEnvelope CLOUD_TASK_SCHEMA_V2 (singleton_directory_version e) (singleton_reservation_fence e) (desktop_name e)
      (agent_providers e) (desktop_transfer e) (tasks e)
  else
    mkEnvelope CLOUD_TASK_SCHEMA_V1 (singleton_directory_version e) (singleton_reservation_fence e) (desktop_name e)
      (agent_providers e) (desktop_transfer e) (map (λ t, set_transfer t no_transfer) (tasks e)).

Definition with_singleton_reservation_fence (fence : str) (e : CloudTaskSnapshotEnvelope) : CloudTaskSnapshotEnvelope :=
  mkEnvelope (schema_version e) (singleton_directory_version e) (Some fence) (desktop_name e) (agent_providers e)
    (desktop_transfer e) (tasks e).

(** ** Strings *)

Definition truncate (value : str) (max_chars : nat) : str := take max_chars value.
Definition truncate_option (value : option str) (max_chars : nat) : option str := value ← value; Some (truncate value max_chars).
Definition nonblank (value : option str) : option str :=
  value ← value; if bool_decide (trim value = []) then None else Some value.

(** ** The snippet of the last boundary *)

Record RestingSnippet := mkSnippet {
  value : option str;
  s_activity : str;
  s_transition_revision : option str;
  s_closed : bool
}.

Abbreviation RestingSnippetCache := (gmap str RestingSnippet).

(** What the cache says of the task has been passed: it closed, its work came to
    rest, or it moved on. *)
Definition boundary (previous : option RestingSnippet) (item : SnapshotPipelineItem) : bool :=
  let closed := bool_decide (is_Some (i_closed_at item)) in
  match previous with
  | None => true
  | Some p =>
      negb (s_closed p) && closed
      || bool_decide (s_activity p = lit "working")
         && (bool_decide (i_activity item = lit "idle") || bool_decide (i_activity item = lit "unread"))
      || negb (bool_decide (s_transition_revision p = i_transition_revision item))
  end.

Definition retain_boundary_value (cache : RestingSnippetCache) (item : SnapshotPipelineItem)
    : RestingSnippetCache * option str :=
  let live := truncate_option (i_last_output_preview item) 240 in
  let previous := cache !! i_id item in
  let v := if boundary previous item then live else p ← previous; value p in
  (<[i_id item := mkSnippet v (i_activity item) (i_transition_revision item) (bool_decide (is_Some (i_closed_at item)))]> cache, v).

(** ** The mapping *)

Definition valid_cloud_transfer_identity (i : CloudTransferIdentity) : bool :=
  negb (bool_decide (trim (peer_id i) = [])) && (length (peer_id i) <=? 256)%nat
  && negb (bool_decide (trim (public_key i) = [])) && (length (public_key i) <=? 4096)%nat && (0 <? protocol_version i).

Definition map_transfer (item : SnapshotPipelineItem) : CloudTransferSnapshot :=
  match nonblank (i_transfer_id item), nonblank (i_transfer_source_desktop_id item), nonblank (i_transfer_target_desktop_id item) with
  | Some id, Some source, Some destination =>
      let outgoing := bool_decide (i_transfer_direction item = Some (lit "outgoing")) in
      let incoming := bool_decide (i_transfer_direction item = Some (lit "incoming")) in
      let in_state (l : list str) := match i_transfer_status item with Some s => bool_decide (s ∈ l) | None => false end in
      let found (state : str) := mkTransfer state (Some id) (Some source) (Some destination) in
      if outgoing && in_state [lit "pending"; lit "streaming"] then found (lit "outgoing")
      else if incoming && in_state [lit "pending"; lit "claimed"; lit "streaming"; lit "importing"] then found (lit "incoming")
      else if incoming && in_state [lit "awaiting_acknowledgment"] && bool_decide (i_closed_at item = None)
      then found (lit "finalization_pending")
      else no_transfer
  | _, _, _ => no_transfer
  end.

Definition SINGLETON_WORKFLOW_PREFIX : str := lit "singleton-".
Definition directory_singleton_agent (workflow_name : str) : option str :=
  agent ← strip_prefix SINGLETON_WORKFLOW_PREFIX workflow_name; if bool_decide (agent = []) then None else Some agent.

Definition task_title (item : SnapshotPipelineItem) (prompt : str) : str :=
  match nonblank (i_display_name item) with
  | Some name => name
  | None =>
      match head (lines prompt) with
      | Some line => if bool_decide (trim line = []) then i_id item else trim line
      | None => i_id item
      end
  end.

Definition task_status (item : SnapshotPipelineItem) (blocked_by : list str) : str :=
  if bool_decide (is_Some (i_closed_at item)) then lit "done"
  else if negb (bool_decide (blocked_by = [])) then lit "blocked"
  else if bool_decide (i_stage item = lit "pr") then lit "pr"
  else lit "active".

(** [resting] is [None] where no cache is used. *)
Definition map_task (desktop_id : str) (r : SnapshotRepo) (item : SnapshotPipelineItem) (blocked_by : list str)
    (resting : option (option str)) : CloudTaskSnapshot :=
  let prompt := default [] (i_prompt item) in
  let updated := default (default (lit "1970-01-01T00:00:00Z") (i_created_at item)) (i_updated_at item) in
  mkCloudTask (i_cloud_task_id item) (r_id r) desktop_id (i_id item)
    (truncate_option (directory_singleton_agent (i_pipeline item)) 64)
    (truncate (task_title item prompt) 512)
    (if bool_decide (prompt = []) then None else Some (truncate prompt 500))
    (default (truncate_option (i_last_output_preview item) 240) resting)
    (truncate_option (i_display_name item) 512)
    (truncate (i_stage item) 64)
    (truncate (i_activity item) 32)
    (i_activity_revision item)
    (i_runtime_state item)
    (Some (i_read_state item))
    (i_blocker_revision item)
    (i_transition_revision item)
    (task_status item blocked_by)
    (negb (i_has_running_post item =? 0))
    (mkCloudRepo (r_id r) (truncate (r_name r) 256) (truncate_option (r_remote_url r) 2048)
       (truncate_option (r_remote_url_hash r) 128) (truncate_option (r_default_branch r) 512))
    (truncate_option (i_branch item) 512)
    (truncate_option (i_base_ref item) 512)
    (i_pr_number item)
    (truncate_option (i_pr_url item) 2048)
    (truncate (i_agent_provider item) 64)
    (truncate (default (lit "pty") (i_agent_type item)) 32)
    (map_transfer item)
    (take 100 blocked_by)
    (truncate_option (i_parent_task_id item) 128)
    (negb (i_pinned item =? 0))
    (i_pin_order item)
    (default updated (i_created_at item))
    updated
    (i_closed_at item).

Definition blockers_by_task (s : UiSnapshot) : gmap str (list str) :=
  foldl (λ by_task '(blocked, blocker),
    match blocker_task_states s !! blocker with
    | Some state => if is_resolved state then by_task else <[blocked := default [] (by_task !! blocked) ++ [blocker]]> by_task
    | None => <[blocked := default [] (by_task !! blocked) ++ [blocker]]> by_task
    end) ∅ (task_blockers s).

Definition task_order (x y : CloudTaskSnapshot) : comparison :=
  then_with (str_cmp (local_repo_id x) (local_repo_id y)) (str_cmp (owner_local_task_id x) (owner_local_task_id y)).

(** One task of the loop, with the cache threaded through. *)
Definition map_one (desktop_id : str) (blockers : gmap str (list str)) (c : RestingSnippetCache)
    (x : SnapshotRepo * SnapshotPipelineItem) : RestingSnippetCache * CloudTaskSnapshot :=
  let '(c', snippet) := retain_boundary_value c x.2 in
  (c', map_task desktop_id x.1 x.2 (default [] (blockers !! i_id x.2)) (Some snippet)).

Fixpoint map_tasks (desktop_id : str) (blockers : gmap str (list str)) (c : RestingSnippetCache)
    (l : list (SnapshotRepo * SnapshotPipelineItem)) : RestingSnippetCache * list CloudTaskSnapshot :=
  match l with
  | [] => (c, [])
  | x :: l =>
      let '(c, t) := map_one desktop_id blockers c x in
      let '(c, ts) := map_tasks desktop_id blockers c l in
      (c, t :: ts)
  end.

Definition flat_entries (s : UiSnapshot) : list (SnapshotRepo * SnapshotPipelineItem) :=
  mjoin (map (λ e, map (pair e.1) e.2) (entries s)).

Definition map_ui_snapshot_for_publication (desktop_id name : str) (providers : list AgentProvider) (s : UiSnapshot)
    (c : RestingSnippetCache) : RestingSnippetCache * CloudTaskSnapshotEnvelope :=
  let '(c, ts) := map_tasks desktop_id (blockers_by_task s) c (flat_entries s) in
  (c, mkEnvelope CLOUD_TASK_SCHEMA_V2 1 None (truncate name 256) (Some providers)
        (i ← identity s; if valid_cloud_transfer_identity i then Some i else None)
        (sort_by (cmp_le task_order) ts)).

(** ** The order of the rows does not matter *)

#[export] Instance task_order_laws : OrdLaws task_order.
Proof.
  exact (then_with_laws local_repo_id owner_local_task_id str_cmp str_cmp).
Qed.

Lemma map_one_task d b c x : (map_one d b c x).2 = map_task d x.1 x.2 (default [] (b !! i_id x.2)) (Some (retain_boundary_value c x.2).2).
Proof. unfold map_one. by destruct (retain_boundary_value c x.2). Qed.

Definition resting (item : SnapshotPipelineItem) (v : option str) : RestingSnippet :=
  mkSnippet v (i_activity item) (i_transition_revision item) (bool_decide (is_Some (i_closed_at item))).

Lemma map_one_cache d b c x : (map_one d b c x).1 = <[i_id x.2 := resting x.2 (retain_boundary_value c x.2).2]> c.
Proof. done. Qed.

Lemma retain_other (c : gmap str RestingSnippet) item id v : id ≠ i_id item → (retain_boundary_value (<[id := v]> c) item).2 = (retain_boundary_value c item).2.
Proof. intros Hne. unfold retain_boundary_value. by rewrite lookup_insert_ne. Qed.

(** With distinct ids each task is mapped by the cache as it was before. *)
Lemma map_tasks_spec d b c l :
  NoDup (map (λ x, i_id x.2) l) →
  (map_tasks d b c l).2 = map (λ x, (map_one d b c x).2) l
  ∧ (∀ x, x ∈ l → (map_tasks d b c l).1 !! i_id x.2 = Some (resting x.2 (retain_boundary_value c x.2).2))
  ∧ ∀ k, k ∉ map (λ x, i_id x.2) l → (map_tasks d b c l).1 !! k = c !! k.
Proof.
  revert c. induction l as [|x l IH]; intros c Hn; cbn [map_tasks map].
  - split_and!; [done|by intros x ?%not_elem_of_nil|done].
  - cbn [map] in Hn. apply NoDup_cons in Hn as [Hx Hn].
    destruct (map_one d b c x) as [c1 t] eqn:Ht. assert (c1 = (map_one d b c x).1) as -> by (by rewrite Ht).
    rewrite map_one_cache in *. specialize (IH (<[i_id x.2 := resting x.2 (retain_boundary_value c x.2).2]> c) Hn).
    destruct (map_tasks d b (<[i_id x.2 := _]> c) l) as [c2 ts] eqn:Hts. cbn [fst snd] in *. destruct IH as (-> & H2 & H3).
    assert (∀ y, y ∈ l → i_id x.2 ≠ i_id y.2) as Hne.
    { intros y Hy Heq. apply Hx. rewrite Heq. apply list_elem_of_fmap. by exists y. }
    split_and!.
    + cbn [snd]. f_equal. apply map_ext_in. intros y Hy%list_elem_of_In. rewrite !map_one_task. do 2 f_equal.
      by apply retain_other, Hne.
    + intros y [->|Hy]%elem_of_cons.
      * rewrite H3 by done. by rewrite lookup_insert_eq.
      * rewrite H2 by done. do 2 f_equal. by apply retain_other, Hne.
    + intros k Hk. apply not_elem_of_cons in Hk as [Hk1 Hk2]. rewrite H3 by done. by rewrite lookup_insert_ne.
Qed.

Lemma map_tasks_permuted d b c l l' :
  l ≡ₚ l' → NoDup (map (λ x, i_id x.2) l) →
  (map_tasks d b c l).2 ≡ₚ (map_tasks d b c l').2 ∧ (map_tasks d b c l).1 = (map_tasks d b c l').1.
Proof.
  intros Hp Hn. assert (NoDup (map (λ x, i_id x.2) l')) as Hn' by (by rewrite <- Hp).
  destruct (map_tasks_spec d b c l Hn) as (-> & H2 & H3). destruct (map_tasks_spec d b c l' Hn') as (-> & H2' & H3').
  split; [by rewrite Hp|]. apply map_eq. intros k. destruct (decide (k ∈ map (λ x, i_id x.2) l)) as [Hin|Hin].
  - pose proof Hin as (x & -> & Hx)%list_elem_of_fmap. rewrite H2, H2'; [done| |done]. by rewrite <- Hp.
  - rewrite H3, H3'; [done| |done]. by rewrite <- Hp.
Qed.

(** What is published, and what the cache remembers, do not depend on the order
    in which the database gives repositories and tasks. *)
Theorem publication_order_is_canonical d name ps s s' c :
  flat_entries s ≡ₚ flat_entries s' → NoDup (map (λ x, i_id x.2) (flat_entries s)) →
  task_blockers s = task_blockers s' → blocker_task_states s = blocker_task_states s' → identity s = identity s' →
  map_ui_snapshot_for_publication d name ps s c = map_ui_snapshot_for_publication d name ps s' c.
Proof.
  intros Hp Hn Hb Hst Hi. assert (blockers_by_task s = blockers_by_task s') as Hbs by (unfold blockers_by_task; by rewrite Hb, Hst).
  unfold map_ui_snapshot_for_publication. rewrite <- Hbs, <- Hi.
  destruct (map_tasks_permuted d (blockers_by_task s) c _ _ Hp Hn) as [H1 H2].
  assert (∀ x y, x ∈ (map_tasks d (blockers_by_task s) c (flat_entries s)).2 → y ∈ (map_tasks d (blockers_by_task s) c (flat_entries s)).2 →
            task_order x y = Eq → x = y) as Hd.
  { destruct (map_tasks_spec d (blockers_by_task s) c _ Hn) as (-> & _).
    intros x y (x0 & -> & Hx)%list_elem_of_fmap (y0 & -> & Hy)%list_elem_of_fmap Ho. assert (x0 = y0) as ->; [|done].
    rewrite !map_one_task in Ho. unfold task_order in Ho. cbn [local_repo_id owner_local_task_id map_task] in Ho.
    unfold then_with in Ho. destruct (str_cmp (r_id x0.1) (r_id y0.1)); try done. apply str_cmp_eq in Ho.
    apply list_elem_of_lookup in Hx as [i Hi0], Hy as [j Hj].
    assert (i = j) as <-; [|congruence]. eapply (NoDup_lookup _ i j (i_id x0.2)); [exact Hn|..]; rewrite list_lookup_fmap.
    - by rewrite Hi0.
    - by rewrite Hj, Ho. }
  destruct (map_tasks d (blockers_by_task s) c (flat_entries s)) as [c1 ts1], (map_tasks d (blockers_by_task s) c (flat_entries s')) as [c2 ts2].
  cbn [fst snd] in *. subst c2. do 2 f_equal. apply (sort_by_unique task_order); [exact Hd|exact H1].
Qed.

(** ** Output alone publishes nothing *)

(** The same item but for its output. *)
Definition same_but_output (x y : SnapshotRepo * SnapshotPipelineItem) : Prop :=
  x.1 = y.1 ∧ ∃ p, y.2 =
    let i := x.2 in
    mkPipelineItem (i_id i) (i_cloud_task_id i) (i_transfer_id i) (i_transfer_direction i) (i_transfer_status i)
      (i_transfer_source_desktop_id i) (i_transfer_target_desktop_id i) (i_prompt i) (i_pipeline i) (i_stage i) (i_pr_number i)
      (i_pr_url i) (i_branch i) (i_closed_at i) (i_agent_type i) (i_agent_provider i) (i_activity i) (i_activity_revision i)
      (i_blocker_revision i) (i_transition_revision i) (i_display_name i) p (i_pinned i) (i_pin_order i) (i_base_ref i)
      (i_parent_task_id i) (i_created_at i) (i_updated_at i) (i_has_running_post i) (i_runtime_state i) (i_read_state i).

(** What the cache remembers of an item is not passed by the same item. *)
Lemma same_no_boundary v x y : same_but_output x y → boundary (Some (resting x.2 v)) y.2 = false.
Proof.
  intros [_ [p ->]]. unfold boundary, resting; cbn. rewrite (bool_decide_true (i_transition_revision x.2 = _)) by done.
  rewrite orb_false_r. destruct (bool_decide (is_Some (i_closed_at x.2))); cbn.
  all: case_bool_decide as H; cbn; [rewrite H|done]; done.
Qed.

Lemma map_task_same d x y bl v : same_but_output x y → map_task d y.1 y.2 bl (Some v) = map_task d x.1 x.2 bl (Some v).
Proof. destruct x as [r i], y as [r' i']. intros [Hr [p Hi]]. cbn in *. subst. done. Qed.

(** A snapshot in which only output is new is mapped to the same envelope, and
    leaves the cache as it is. *)
Lemma output_alone_changes_nothing d name ps s s' c c1 e :
  Forall2 same_but_output (flat_entries s) (flat_entries s') → NoDup (map (λ x, i_id x.2) (flat_entries s)) →
  task_blockers s = task_blockers s' → blocker_task_states s = blocker_task_states s' → identity s = identity s' →
  map_ui_snapshot_for_publication d name ps s c = (c1, e) →
  map_ui_snapshot_for_publication d name ps s' c1 = (c1, e).
Proof.
  intros Hs Hn Hb Hst Hi Hm. assert (blockers_by_task s = blockers_by_task s') as Hbs by (unfold blockers_by_task; by rewrite Hb, Hst).
  unfold map_ui_snapshot_for_publication in *. rewrite <- Hbs, <- Hi.
  assert (∀ x y, same_but_output x y → i_id y.2 = i_id x.2) as Hid by (intros x y [_ [p ->]]; done).
  assert (map (λ x, i_id x.2) (flat_entries s') = map (λ x, i_id x.2) (flat_entries s)) as Hids.
  { clear -Hs Hid. induction Hs as [|x y l k Hxy Hs IH]; [done|]. cbn. by rewrite IH, (Hid _ _ Hxy). }
  assert (NoDup (map (λ x, i_id x.2) (flat_entries s'))) as Hn' by (by rewrite Hids).
  destruct (map_tasks_spec d (blockers_by_task s) c _ Hn) as (H1 & H2 & H3).
  destruct (map_tasks d (blockers_by_task s) c (flat_entries s)) as [c2 ts]. cbn [fst snd] in *. injection Hm as -> <-.
  destruct (map_tasks_spec d (blockers_by_task s) c1 _ Hn') as (H1' & H2' & H3').
  destruct (map_tasks d (blockers_by_task s) c1 (flat_entries s')) as [c3 ts']. cbn [fst snd] in *.
  assert (∀ x y, x ∈ flat_entries s → same_but_output x y →
            (retain_boundary_value c1 y.2).2 = (retain_boundary_value c x.2).2) as Hv.
  { intros x y Hx Hxy. unfold retain_boundary_value at 1. cbn [snd]. rewrite (Hid _ _ Hxy), (H2 x Hx).
    by rewrite (same_no_boundary _ x y Hxy). }
  assert (∀ y, y ∈ flat_entries s' → ∃ x, x ∈ flat_entries s ∧ same_but_output x y) as Hback.
  { intros y [i Hy]%list_elem_of_lookup. apply (Forall2_lookup_r _ _ _ _ _ Hs) in Hy as (x & Hx & Hxy).
    exists x. split; [by eapply list_elem_of_lookup_2|done]. }
  assert (c3 = c1) as ->.
  { apply map_eq. intros k. destruct (decide (k ∈ map (λ x, i_id x.2) (flat_entries s'))) as [Hin|Hin]; [|by apply H3'].
    pose proof Hin as (y & -> & Hy)%list_elem_of_fmap. destruct (Hback y Hy) as (x & Hx & Hxy).
    rewrite (H2' y Hy), (Hv x y Hx Hxy). rewrite (Hid _ _ Hxy), (H2 x Hx). f_equal. destruct Hxy as [_ [p ->]]. done. }
  assert (ts' = ts) as ->; [|done]. rewrite H1, H1'. clear H1 H1' H2 H3 H2' H3' Hn Hn' Hids Hback.
  induction Hs as [|x y l k Hxy Hs IH]; [done|]. cbn [map]. f_equal; [|apply IH; intros; apply Hv; [by right|done]].
  rewrite !map_one_task, (Hv x y ltac:(left) Hxy), (Hid _ _ Hxy). by apply map_task_same.
Qed.

(** ** Witness *)

Definition plain_item (id : string) (preview : option str) : SnapshotPipelineItem :=
  mkPipelineItem (lit id) (lit id) None None None None None (Some (lit "prompt")) (lit "default") (lit "work") None None None None None
    (lit "claude") (lit "working") 1 0 None None preview 0 None None None None None 0 None (lit "read").

Definition plain_repo (id : string) : SnapshotRepo := mkRepo (lit id) (lit id) None None None.

Lemma publication_order_is_canonical_witness :
  let s l := mkUi [(plain_repo "r", l)] [] ∅ None in
  map_ui_snapshot_for_publication (lit "d") (lit "Desk") [] (s [plain_item "a" None; plain_item "b" None]) ∅
  = map_ui_snapshot_for_publication (lit "d") (lit "Desk") [] (s [plain_item "b" None; plain_item "a" None]) ∅.
Proof.
  intros s. refine (publication_order_is_canonical (lit "d") (lit "Desk") [] (s [plain_item "a" None; plain_item "b" None])
    (s [plain_item "b" None; plain_item "a" None]) ∅ _ _ _ _ _); try reflexivity.
  - cbn. apply perm_swap.
  - apply (bool_decide_unpack _). by vm_compute.
Defined.
