(* ===== verification/CloudPublisher.v ===== *)
(** * Publishing the task snapshot to the cloud
      ([crates/kanna-server/src/cloud_task_publisher.rs], [relay.rs])

    The publisher is a state machine the relay loop polls twice a second: one
    request at a time, retries that back off, a reconnect after the third attempt
    nobody answered, and silence while what the relay last settled is what the
    database still says.  The second half puts it between a socket and a relay, with
    the other publication the same socket carries, that of a singleton's creation,
    and the relay's handlers, which end in any order. *)

From S2P Require Import Prelude RustStd Protocol CloudTasks.
Local Open Scope Z_scope.

Definition MAX_PUBLISH_ATTEMPTS : Z := 3.
Definition ACK_TIMEOUT : Z := 15000.

Record PublishRequest := mkRequest {
  request_id : str;
  snapshot : CloudTaskSnapshotEnvelope
}.

Record InFlight := mkInFlight {
  request : PublishRequest;
  attempt : Z;
  sent_at : Z
}.

Inductive PublisherStep := Publish (r : PublishRequest) | Reconnect | Wait.

Record PublisherState := mkPublisher {
  authenticated : bool;
  publication_version : Z;
  force_reconcile : bool;
  latest : option CloudTaskSnapshotEnvelope;
  last_acked_fingerprint : option str;
  in_flight : option InFlight;
  retry_at : option (Z * Z);
  reconnect : bool;
  next_id : Z
}.

Definition publisher_id (n : Z) : str := lit "task-snapshot-" ++ decimal n.

(** ** The publisher *)

Definition new : PublisherState := mkPublisher false CLOUD_TASK_SCHEMA_V1 false None None None None false 1.

Definition on_authenticated (advertised_version : option Z) (p : PublisherState) : PublisherState :=
  mkPublisher true (match advertised_version with Some v => if v =? 2 then CLOUD_TASK_SCHEMA_V2 else CLOUD_TASK_SCHEMA_V1 | None => CLOUD_TASK_SCHEMA_V1 end)
    true (latest p) (last_acked_fingerprint p) (in_flight p) (retry_at p) false (next_id p).

Definition on_disconnected (p : PublisherState) : PublisherState :=
  mkPublisher false (publication_version p) true (latest p) (last_acked_fingerprint p) None None false (next_id p).

Definition observe (s : CloudTaskSnapshotEnvelope) (p : PublisherState) : PublisherState :=
  mkPublisher (authenticated p) (publication_version p) (force_reconcile p) (Some s) (last_acked_fingerprint p) (in_flight p)
    (retry_at p) (reconnect p) (next_id p).

Definition set_in_flight (f : option InFlight) (p : PublisherState) : PublisherState :=
  mkPublisher (authenticated p) (publication_version p) (force_reconcile p) (latest p) (last_acked_fingerprint p) f
    (retry_at p) (reconnect p) (next_id p).

Definition set_retry_at (r : option (Z * Z)) (p : PublisherState) : PublisherState :=
  mkPublisher (authenticated p) (publication_version p) (force_reconcile p) (latest p) (last_acked_fingerprint p) (in_flight p)
    r (reconnect p) (next_id p).

Definition set_reconnect (b : bool) (p : PublisherState) : PublisherState :=
  mkPublisher (authenticated p) (publication_version p) (force_reconcile p) (latest p) (last_acked_fingerprint p) (in_flight p)
    (retry_at p) b (next_id p).

Definition set_last_acked (f : str) (p : PublisherState) : PublisherState :=
  mkPublisher (authenticated p) (publication_version p) (force_reconcile p) (latest p) (Some f) (in_flight p)
    (retry_at p) (reconnect p) (next_id p).

(** [1 << (attempt - 1)] seconds. *)
Definition backoff (attempt : Z) : Z := 1000 * Z.shiftl 1 (attempt - 1).

Definition schedule_retryable_failure (attempt now : Z) (p : PublisherState) : PublisherState :=
  set_retry_at (Some (now + backoff (Z.min attempt MAX_PUBLISH_ATTEMPTS), Z.min (attempt + 1) MAX_PUBLISH_ATTEMPTS)) p.

Definition schedule_failure (attempt now : Z) (p : PublisherState) : PublisherState :=
  if MAX_PUBLISH_ATTEMPTS <=? attempt then set_reconnect true p
  else set_retry_at (Some (now + backoff attempt, attempt + 1)) p.

Section Publisher.

(** The envelope's JSON ([serde_json]). *)
Context (fingerprint : CloudTaskSnapshotEnvelope → str).

(** The state once an unanswered request is dealt with, or [None] while it is still
    young. *)
Definition expire (now : Z) (p : PublisherState) : option PublisherState :=
  match in_flight p with
  | Some f =>
      if now - sent_at f <? ACK_TIMEOUT then None else Some (schedule_failure (attempt f) now (set_in_flight None p))
  | None => Some p
  end.

(** The second half of [next_step]: what is due is sent. *)
Definition publish_due (now : Z) (p : PublisherState) : PublisherState * PublisherStep :=
  let send (attempt : Z) :=
    match for_publication_version (publication_version p) <$> latest p with
    | None => (p, Wait)
    | Some s =>
        if bool_decide (retry_at p = None) && negb (force_reconcile p)
           && bool_decide (last_acked_fingerprint p = Some (fingerprint s))
        then (p, Wait)
        else
          let r := mkRequest (publisher_id (next_id p)) s in
          (mkPublisher (authenticated p) (publication_version p) false (latest p) (last_acked_fingerprint p)
             (Some (mkInFlight r attempt now)) None (reconnect p) (next_id p + 1), Publish r)
    end in
  match retry_at p with
  | Some (ready_at, attempt) => if now <? ready_at then (p, Wait) else send attempt
  | None => send 1
  end.

Definition next_step (now : Z) (p : PublisherState) : PublisherState * PublisherStep :=
  if reconnect p then (p, Reconnect)
  else if negb (authenticated p) then (p, Wait)
  else
    match expire now p with
    | None => (p, Wait)
    | Some p => if reconnect p then (p, Reconnect) else publish_due now p
    end.

(** The flag is the [Ok] of the result: the acknowledgement was the one expected. *)
Definition on_ack (id : str) (ok retryable : bool) (now : Z) (p : PublisherState) : PublisherState * bool :=
  match in_flight p with
  | None => (p, false)
  | Some f =>
      if negb (bool_decide (request_id (request f) = id)) then (p, false)
      else
        let p := set_in_flight None p in
        let settled := set_last_acked (fingerprint (snapshot (request f))) p in
        if ok then (settled, true)
        else if retryable then (schedule_retryable_failure (attempt f) now p, true)
        else (settled, true)
  end.

(** One publication tick of the relay loop: the database is read, mapped and
    observed if it could be, and the publisher takes its step. *)
Definition publication_tick (desktop_id name : str) (providers : list AgentProvider) (fence : str) (now : Z)
    (ui : option UiSnapshot) (cp : RestingSnippetCache * PublisherState) : (RestingSnippetCache * PublisherState) * PublisherStep :=
  let '(c, p) :=
    match ui with
    | Some s =>
        let '(c, e) := map_ui_snapshot_for_publication desktop_id name providers s cp.1 in
        (c, observe (with_singleton_reservation_fence fence e) cp.2)
    | None => cp
    end in
  let '(p, st) := next_step now p in
  ((c, p), st).

(** ** Between the publisher and the relay
       ([services/relay/src/index.ts], [cloudTaskPublication.ts],
        [webSocketMessageLifecycle.ts])

    The relay takes the messages of a socket up in order and handles them side by side,
    so a handler may end long after one that was begun later.  Each publication has the
    session of its socket and a number in it; a handler stores by a transaction that
    claims the desktop for its publication, which fails where a later one has claimed
    it, and by others that fail where the claim is not its own any more. *)

Record Ack := mkAck { ack_id : str; ack_ok : bool; ack_retryable : bool }.

Inductive HandlerStage := Reading | Claimed | Stored.

#[export] Instance HandlerStage_eq_dec : EqDecision HandlerStage.
Proof. solve_decision. Defined.

Record Handler := mkHandler {
  h_session : Z;
  h_sequence : Z;
  h_request : PublishRequest;
  h_stage : HandlerStage
}.

(** [requests] and [answers] are the two directions of the socket, [handlers] the
    relay's handlers of publications, of this socket and of those before it, in the
    order they were begun.  [session] and [claimed] are the generation the relay keeps
    of the desktop, [held] the snapshot it has stored, or [None] while one is being
    written; [foreign] says that the last to write was a singleton's publication, and
    [told] is how the relay settled the last of the publisher's requests that it
    answered in time. *)
Record World := mkWorld {
  publisher : PublisherState;
  pending_desktop_requests : list str;
  next_desktop_request_id : Z;
  requests : list PublishRequest;
  answers : list Ack;
  handlers : list Handler;
  session : Z;
  next_sequence : Z;
  claimed : Z;
  held : option CloudTaskSnapshotEnvelope;
  foreign : bool;
  told : option (CloudTaskSnapshotEnvelope * bool)
}.

(** What a handler does next: it claims the desktop, has written all, says so; it
    fails, for good or for now; it is lost. *)
Inductive Action := Claim | Store | Answer | Refuse (retryable : bool) | Lose.

Inductive Event :=
  | EvAuthenticated (v : option Z)
  | EvTick (now : Z) (seen : option CloudTaskSnapshotEnvelope) (sent : bool)
  | EvSingleton (desktop_id : str) (s : CloudTaskSnapshotEnvelope)
  | EvRead
  | EvHandler (i : nat) (a : Action)
  | EvAck (now : Z)
  | EvDisconnected.

Definition initial : World := mkWorld new [] 1 [] [] [] 0 1 0 None false None.

Definition with_publisher (p : PublisherState) (w : World) : World :=
  mkWorld p (pending_desktop_requests w) (next_desktop_request_id w) (requests w) (answers w) (handlers w)
    (session w) (next_sequence w) (claimed w) (held w) (foreign w) (told w).

Definition with_requests (rs : list PublishRequest) (w : World) : World :=
  mkWorld (publisher w) (pending_desktop_requests w) (next_desktop_request_id w) rs (answers w) (handlers w)
    (session w) (next_sequence w) (claimed w) (held w) (foreign w) (told w).

Definition with_answers (l : list Ack) (w : World) : World :=
  mkWorld (publisher w) (pending_desktop_requests w) (next_desktop_request_id w) (requests w) l (handlers w)
    (session w) (next_sequence w) (claimed w) (held w) (foreign w) (told w).

Definition with_pending (ids : list str) (next : Z) (w : World) : World :=
  mkWorld (publisher w) ids next (requests w) (answers w) (handlers w)
    (session w) (next_sequence w) (claimed w) (held w) (foreign w) (told w).

Definition with_told (t : option (CloudTaskSnapshotEnvelope * bool)) (w : World) : World :=
  mkWorld (publisher w) (pending_desktop_requests w) (next_desktop_request_id w) (requests w) (answers w) (handlers w)
    (session w) (next_sequence w) (claimed w) (held w) (foreign w) t.

Definition with_handlers (hs : list Handler) (next : Z) (w : World) : World :=
  mkWorld (publisher w) (pending_desktop_requests w) (next_desktop_request_id w) (requests w) (answers w) hs
    (session w) next (claimed w) (held w) (foreign w) (told w).

(** The relay writes: the claim, what is held, and whose it is. *)
Definition with_held (n : Z) (s : option CloudTaskSnapshotEnvelope) (f : bool) (w : World) : World :=
  mkWorld (publisher w) (pending_desktop_requests w) (next_desktop_request_id w) (requests w) (answers w) (handlers w)
    (session w) (next_sequence w) n s f (told w).

(** The socket and what waits in it are gone; the handlers go on. *)
Definition disconnect (w : World) : World :=
  with_publisher (on_disconnected (publisher w)) (with_requests [] (with_answers [] (with_pending [] (next_desktop_request_id w) w))).

(** The relay leases a new session to a socket before it says that it is
    authenticated; nothing is in the socket then. *)
Definition authenticate (v : option Z) (w : World) : World :=
  let p := on_authenticated v (publisher w) in
  if authenticated (publisher w) then with_publisher p w
  else
    mkWorld p (pending_desktop_requests w) (next_desktop_request_id w) [] [] (handlers w)
      (session w + 1) 1 0 (held w) (foreign w) (told w).

Definition is_publisher_id (id : str) : bool := str_starts_with id (lit "task-snapshot-").

Definition desktop_request_id (desktop_id : str) (n : Z) : str :=
  lit "desktop-request:" ++ desktop_id ++ lit ":" ++ decimal n.

(** What a tick of the loop does with the publisher's step; a send that fails ends
    the connection. *)
Definition tick_world (now : Z) (seen : option CloudTaskSnapshotEnvelope) (sent : bool) (w : World) : World :=
  let p := match seen with Some s => observe s (publisher w) | None => publisher w end in
  match next_step now p with
  | (p, Wait) => with_publisher p w
  | (p, Publish r) => if sent then with_publisher p (with_requests (requests w ++ [r]) w) else disconnect (with_publisher p w)
  | (p, Reconnect) => disconnect (with_publisher p w)
  end.

(** A singleton's publication goes straight to the socket. *)
Definition singleton_world (desktop_id : str) (s : CloudTaskSnapshotEnvelope) (w : World) : World :=
  if authenticated (publisher w) then
    let id := desktop_request_id desktop_id (next_desktop_request_id w) in
    with_pending (id :: pending_desktop_requests w) (Z.max 1 ((next_desktop_request_id w + 1) mod 2 ^ 64))
      (with_requests (requests w ++ [mkRequest id s]) w)
  else w.

(** The relay takes the next message up: its number is given before anything is
    waited for. *)
Definition relay_read (w : World) : World :=
  match requests w with
  | [] => w
  | r :: rs =>
      with_requests rs (with_handlers (handlers w ++ [mkHandler (session w) (next_sequence w) r Reading]) (next_sequence w + 1) w)
  end.

Definition h_id (h : Handler) : str := request_id (h_request h).
Definition ours (h : Handler) : bool := is_publisher_id (h_id h).
Definition of_session (w : World) (h : Handler) : bool := h_session h =? session w.

(** A handler ends, with or without an answer, which goes to its own socket. *)
Definition handler_ends (i : nat) (h : Handler) (a : option Ack) (w : World) : World :=
  let w := with_handlers (delete i (handlers w)) (next_sequence w) w in
  match a with
  | Some a => if of_session w h && authenticated (publisher w) then with_answers (answers w ++ [a]) w else w
  | None => w
  end.

Definition set_stage (st : HandlerStage) (h : Handler) : Handler := mkHandler (h_session h) (h_sequence h) (h_request h) st.

Definition refusal (h : Handler) (retryable : bool) : option Ack := Some (mkAck (h_id h) false retryable).

Definition relay_handler (i : nat) (a : Action) (w : World) : World :=
  match handlers w !! i with
  | None => w
  | Some h =>
      match a, h_stage h with
      | Claim, Reading =>
          if of_session w h && (claimed w <=? h_sequence h) then
            with_held (h_sequence h) None (negb (ours h)) (with_handlers (<[i := set_stage Claimed h]> (handlers w)) (next_sequence w) w)
          else handler_ends i h (refusal h true) w
      | Store, Claimed =>
          if of_session w h && (claimed w =? h_sequence h) then
            with_held (claimed w) (Some (snapshot (h_request h))) (negb (ours h)) (with_handlers (<[i := set_stage Stored h]> (handlers w)) (next_sequence w) w)
          else handler_ends i h (refusal h true) w
      | Answer, Stored => handler_ends i h (Some (mkAck (h_id h) true false)) w
      | Refuse retryable, _ => handler_ends i h (refusal h retryable) w
      | Lose, _ => handler_ends i h None w
      | _, _ => w
      end
  end.

(** How the publisher was told, where the answer settled the request in flight. *)
Definition settling (a : Ack) (p : PublisherState) : option (CloudTaskSnapshotEnvelope * bool) :=
  match in_flight p with
  | Some f => if bool_decide (request_id (request f) = ack_id a) && (ack_ok a || negb (ack_retryable a)) then Some (snapshot (request f), ack_ok a) else None
  | None => None
  end.

Definition ack_world (now : Z) (w : World) : World :=
  match answers w with
  | [] => w
  | a :: l =>
      let w := with_answers l w in
      if bool_decide (ack_id a ∈ pending_desktop_requests w) then
        with_pending (list_difference (pending_desktop_requests w) [ack_id a]) (next_desktop_request_id w) w
      else
        with_told (match settling a (publisher w) with Some t => Some t | None => told w end)
          (with_publisher (on_ack (ack_id a) (ack_ok a) (ack_retryable a) now (publisher w)).1 w)
  end.

Definition step (w : World) (e : Event) : World :=
  match e with
  | EvAuthenticated v => authenticate v w
  | EvTick now seen sent => tick_world now seen sent w
  | EvSingleton d s => singleton_world d s w
  | EvRead => relay_read w
  | EvHandler i a => relay_handler i a w
  | EvAck now => ack_world now w
  | EvDisconnected => disconnect w
  end.

Definition run_from (w : World) (es : list Event) : World := foldl step w es.

Definition run (es : list Event) : World := run_from initial es.

End Publisher.
