(* ===== verification/CloudPublisherProofs.v ===== *)
(** * Publishing to the cloud: proofs

    An invariant of the publisher, the socket and the relay's handlers, by which a
    publisher at rest is right about the relay; the deadline by which a relay that says nothing
    is left; and the whole tick, for which output alone is no news. *)

From S2P Require Import Prelude RustStd Protocol CloudTasks CloudPublisher.
Local Open Scope Z_scope.

(** ** Request ids *)












(** ** The publisher on its own *)

Section Publisher.
Context (fingerprint : CloudTaskSnapshotEnvelope → str).

(** An attempt is the first, second or third: the shift of [backoff] and the
    counting stay within [u8]. *)
Definition attempts_in_range (p : PublisherState) : Prop :=
  (∀ f, in_flight p = Some f → 1 ≤ attempt f ≤ MAX_PUBLISH_ATTEMPTS)
  ∧ ∀ at_ a, retry_at p = Some (at_, a) → 1 ≤ a ≤ MAX_PUBLISH_ATTEMPTS.

Inductive StepSpec (now : Z) (p : PublisherState) : PublisherState → PublisherStep → Prop :=
  | SLeaves : reconnect p = true → StepSpec now p p Reconnect
  | SOffline : reconnect p = false → authenticated p = false → StepSpec now p p Wait
  | SYoung f : reconnect p = false → authenticated p = true → in_flight p = Some f → now - sent_at f < ACK_TIMEOUT → StepSpec now p p Wait
  | SExhausted f : reconnect p = false → authenticated p = true → in_flight p = Some f → ACK_TIMEOUT ≤ now - sent_at f →
      MAX_PUBLISH_ATTEMPTS ≤ attempt f → StepSpec now p (set_reconnect true (set_in_flight None p)) Reconnect
  | SRetryLater f : reconnect p = false → authenticated p = true → in_flight p = Some f → ACK_TIMEOUT ≤ now - sent_at f →
      1 ≤ attempt f < MAX_PUBLISH_ATTEMPTS →
      StepSpec now p (set_retry_at (Some (now + backoff (attempt f), attempt f + 1)) (set_in_flight None p)) Wait
  | SNotReady at_ a : reconnect p = false → authenticated p = true → in_flight p = None → retry_at p = Some (at_, a) → now < at_ → StepSpec now p p Wait
  | SNothing : reconnect p = false → authenticated p = true → in_flight p = None → latest p = None → StepSpec now p p Wait
  | SSettled s : reconnect p = false → authenticated p = true → in_flight p = None → retry_at p = None → latest p = Some s →
      force_reconcile p = false → last_acked_fingerprint p = Some (fingerprint (for_publication_version (publication_version p) s)) →
      StepSpec now p p Wait
  | SPublish s a : reconnect p = false → authenticated p = true → in_flight p = None → latest p = Some s → 
      (retry_at p = None ∧ a = 1 ∨ ∃ at_, retry_at p = Some (at_, a) ∧ at_ ≤ now) →
      let r := mkRequest (publisher_id (next_id p)) (for_publication_version (publication_version p) s) in
      StepSpec now p (mkPublisher true (publication_version p) false (Some s) (last_acked_fingerprint p)
                        (Some (mkInFlight r a now)) None false (next_id p + 1)) (Publish r).

Lemma backoff_pos a : 1 ≤ a ≤ MAX_PUBLISH_ATTEMPTS → 1000 ≤ backoff a.
Proof.
  intros Ha. unfold backoff, MAX_PUBLISH_ATTEMPTS in *. rewrite Z.shiftl_mul_pow2 by lia.
  pose proof (Z.pow_pos_nonneg 2 (a - 1) ltac:(lia) ltac:(lia)). lia.
Qed.

Lemma publish_due_spec now p :
  reconnect p = false → authenticated p = true → in_flight p = None →
  StepSpec now p (publish_due fingerprint now p).1 (publish_due fingerprint now p).2.
Proof.
  intros Hr Ha Hf. unfold publish_due. destruct (retry_at p) as [[at_ a]|] eqn:Hra.
  - destruct (Z.ltb_spec now at_); [by eapply SNotReady|].
    destruct (latest p) as [s|] eqn:Hl; [|by apply SNothing]. rewrite bool_decide_false by done. cbn [andb fmap option_fmap option_map fst snd].
    rewrite Hr, Ha, <- Hl. rewrite Hl. apply SPublish; try done. right. by exists at_.
  - destruct (latest p) as [s|] eqn:Hl; [|by apply SNothing]. rewrite bool_decide_true by done. cbn [andb fmap option_fmap option_map].
    destruct (force_reconcile p) eqn:Hfo; cbn [negb andb fst snd].
    + rewrite Hr, Ha. apply SPublish; try done. by left.
    + case_bool_decide; cbn [fst snd]; [by eapply SSettled|]. rewrite Hr, Ha. apply SPublish; try done. by left.
Qed.

Lemma next_step_spec now p :
  attempts_in_range p → StepSpec now p (next_step fingerprint now p).1 (next_step fingerprint now p).2.
Proof.
  intros [Hat _]. unfold next_step, expire. destruct (reconnect p) eqn:Hr; [by apply SLeaves|].
  destruct (authenticated p) eqn:Ha; cbn [negb]; [|by apply SOffline].
  destruct (in_flight p) as [f|] eqn:Hf; [|rewrite Hr; by apply publish_due_spec].
  destruct (Z.ltb_spec (now - sent_at f) ACK_TIMEOUT); [by eapply SYoung|].
  unfold schedule_failure. destruct (Z.leb_spec MAX_PUBLISH_ATTEMPTS (attempt f)); [by eapply SExhausted|].
  cbn [reconnect set_retry_at set_in_flight]. rewrite Hr. unfold publish_due. cbn [retry_at set_retry_at].
  pose proof (Hat f eq_refl) as Hrange. pose proof (backoff_pos (attempt f) Hrange).
  rewrite (proj2 (Z.ltb_lt _ _)) by lia. by eapply SRetryLater; [..|lia].
Qed.

Lemma next_step_attempts now p : attempts_in_range p → attempts_in_range (next_step fingerprint now p).1.
Proof.
  intros Hp. pose proof Hp as [Hf Hr]. destruct (next_step_spec now p Hp); try done.
  - split; [done|]. intros at_ a [= <- <-]. lia.
  - split; [|done]. intros f [= <-]. cbn. destruct H3 as [[_ ->]|(at_ & Hra & _)]; [unfold MAX_PUBLISH_ATTEMPTS; lia|by eapply Hr].
Qed.

Lemma on_ack_attempts id ok rt now p : attempts_in_range p → attempts_in_range (on_ack fingerprint id ok rt now p).1.
Proof.
  intros Hp. pose proof Hp as [Hf Hr]. unfold on_ack. destruct (in_flight p) as [f|] eqn:Hif; [|done].
  destruct (negb _); [done|]. specialize (Hf f eq_refl). unfold MAX_PUBLISH_ATTEMPTS in *.
  destruct ok, rt; (split; [done|]); try exact Hr. intros at_ a [= <- <-]. unfold MAX_PUBLISH_ATTEMPTS. lia.
Qed.

(** ** A relay that says nothing *)

(** The loop's polls while nothing is heard: when, and what the database said. *)
Fixpoint silence (p : PublisherState) (polls : list (Z * option CloudTaskSnapshotEnvelope)) : list PublisherStep :=
  match polls with
  | [] => []
  | (now, seen) :: polls =>
      let '(p, s) := next_step fingerprint now (match seen with Some s => observe s p | None => p end) in
      s :: silence p polls
  end.

(** Polls no further apart than [gap]. *)
Fixpoint spaced (gap t : Z) (polls : list (Z * option CloudTaskSnapshotEnvelope)) : Prop :=
  match polls with [] => True | (now, _) :: polls => t ≤ now ≤ t + gap ∧ spaced gap now polls end.

Definition end_of (t : Z) (polls : list (Z * option CloudTaskSnapshotEnvelope)) : Z := default t (last (map fst polls)).

(** How long after its time-out an attempt is still followed by others. *)
Definition aftermath (gap a : Z) : Z := if a =? 1 then 33000 + 4 * gap else if a =? 2 then 17000 + 2 * gap else 0.

Inductive WillLeave (gap t deadline : Z) (p : PublisherState) : Prop :=
  | LFlight f : in_flight p = Some f → t < sent_at f + ACK_TIMEOUT → sent_at f + ACK_TIMEOUT + gap + aftermath gap (attempt f) ≤ deadline →
      WillLeave gap t deadline p
  | LRetry at_ a : in_flight p = None → retry_at p = Some (at_, a) → t < at_ → at_ + gap + ACK_TIMEOUT + gap + aftermath gap a ≤ deadline →
      WillLeave gap t deadline p.

Lemma aftermath_nonneg gap a : 0 ≤ gap → 0 ≤ aftermath gap a.
Proof. unfold aftermath. intros Hg. destruct (a =? 1), (a =? 2); lia. Qed.

Lemma aftermath_next gap a :
  0 ≤ gap → 1 ≤ a < MAX_PUBLISH_ATTEMPTS → aftermath gap a = backoff a + gap + ACK_TIMEOUT + gap + aftermath gap (a + 1).
Proof.
  intros Hg Ha. unfold MAX_PUBLISH_ATTEMPTS in Ha. pose proof (eq_refl : backoff 1 = 1000). pose proof (eq_refl : backoff 2 = 2000).
  unfold aftermath, ACK_TIMEOUT. assert (a = 1 ∨ a = 2) as [-> | ->] by lia; cbn [Z.eqb Pos.eqb].
  - change (1 + 1) with 2. cbn [Z.eqb Pos.eqb]. lia.
  - change (2 + 1) with 3. cbn [Z.eqb Pos.eqb]. lia.
Qed.

Lemma will_leave_later gap t deadline p : 0 ≤ gap → WillLeave gap t deadline p → t < deadline.
Proof.
  intros Hg [f _ Ht Hd|at_ a _ _ Ht Hd].
  - pose proof (aftermath_nonneg gap (attempt f) Hg). unfold ACK_TIMEOUT in *. lia.
  - pose proof (aftermath_nonneg gap a Hg). unfold ACK_TIMEOUT in *. lia.
Qed.

(** Every poll leaves or comes closer. *)
Lemma poll_leaves gap t now deadline p :
  0 ≤ gap → attempts_in_range p → authenticated p = true → is_Some (latest p) → t ≤ now ≤ t + gap → WillLeave gap t deadline p →
  let st := next_step fingerprint now p in
  st.2 = Reconnect ∨ WillLeave gap now deadline st.1 ∧ authenticated st.1 = true ∧ is_Some (latest st.1).
Proof.
  intros Hg Hp Ha Hl Hn Hw st. pose proof (next_step_attempts now p Hp) as Hp'. subst st.
  destruct (next_step_spec now p Hp) as [| |g Hr _ Hif Hy| |g Hr _ Hif Ht Hat|at_ a Hr _ Hif Hra Hlt|Hr _ Hif Hnone|s Hr _ Hif Hra|s a Hr _ Hif Hs Hra r];
    cbn [fst snd]; try (by left).
  - congruence.
  - right. split_and!; [|done|done]. destruct Hw as [f Hf Htf Hd|? ? Hf]; [|congruence]. rewrite Hf in Hif. injection Hif as ->.
    eapply LFlight; [done| |done]. unfold ACK_TIMEOUT in *. lia.
  - right. split_and!; [|done|done]. destruct Hw as [f Hf Htf Hd|? ? Hf]; [|congruence]. rewrite Hf in Hif. injection Hif as ->.
    rewrite (aftermath_next gap (attempt g)) in Hd by done. pose proof (backoff_pos (attempt g) ltac:(lia)).
    eapply LRetry; [done|done|lia|]. lia.
  - right. split_and!; [|done|done]. destruct Hw as [f Hf|at' a' _ Hra' Ht' Hd]; [congruence|]. rewrite Hra' in Hra. injection Hra as -> ->.
    by eapply LRetry.
  - rewrite Hnone in Hl. by destruct Hl.
  - exfalso. destruct Hw; congruence.
  - right. split_and!; [|done|done]. destruct Hw as [f Hf|at' a' _ Hra' Ht' Hd]; [congruence|].
    destruct Hra as [[? _]|(at2 & Hra2 & _)]; [congruence|]. rewrite Hra' in Hra2. injection Hra2 as -> ->.
    eapply LFlight; [done|cbn; unfold ACK_TIMEOUT; lia|cbn; lia].
Qed.

Lemma silence_leaves gap t deadline polls p :
  0 ≤ gap → attempts_in_range p → authenticated p = true → is_Some (latest p) → WillLeave gap t deadline p →
  spaced gap t polls → deadline ≤ end_of t polls → Reconnect ∈ silence p polls.
Proof.
  intros Hg. revert t p. induction polls as [|[now seen] polls IH]; intros t p Hp Ha Hl Hw Hs He.
  { pose proof (will_leave_later _ _ _ _ Hg Hw). unfold end_of in He. cbn in He. lia. }
  destruct Hs as [Hn Hs]. cbn [silence]. set (q := match seen with Some s => observe s p | None => p end).
  assert (attempts_in_range q ∧ authenticated q = true ∧ is_Some (latest q) ∧ WillLeave gap t deadline q) as (Hp' & Ha' & Hl' & Hw').
  { subst q. destruct seen as [s|]; [|done]. split_and!; [exact Hp|done|by eexists|]. destruct Hw; [by eapply LFlight|by eapply LRetry]. }
  pose proof (next_step_attempts now q Hp') as Hq.
  pose proof (poll_leaves gap t now deadline q Hg Hp' Ha' Hl' Hn Hw') as Hst.
  destruct (next_step fingerprint now q) as [q' st]. cbn [fst snd] in *. destruct Hst as [->|(Hw2 & Ha2 & Hl2)]; [by left|].
  right. eapply IH; [done|done|done|exact Hw2|done|]. unfold end_of in *. cbn [map fst] in He. rewrite last_cons in He. by destruct (last _).
Qed.

(** C25: a published request nobody answers is followed by a reconnect: three attempts
    and their pauses, with polls no further apart than [gap], take at most
    48 seconds and five gaps, whatever the database does meanwhile. *)
Theorem silent_relay_is_left gap now p p' r polls :
  0 ≤ gap → attempts_in_range p → next_step fingerprint now p = (p', Publish r) →
  spaced gap now polls → now + 48000 + 5 * gap ≤ end_of now polls → Reconnect ∈ silence p' polls.
Proof.
  intros Hg Hp Hst Hs He. pose proof (next_step_attempts now p Hp) as Hp'. pose proof (next_step_spec now p Hp) as Hspec.
  rewrite Hst in Hp', Hspec. cbn [fst snd] in *. inversion Hspec as [| | | | | | | |s a Hr Ha Hif Hl Hra]; subst.
  eapply (silence_leaves gap now (now + 48000 + 5 * gap)); [done|done|done|by eexists| |done|done].
  eapply LFlight; [done|cbn; unfold ACK_TIMEOUT; lia|]. cbn. unfold aftermath, ACK_TIMEOUT. destruct (a =? 1), (a =? 2); lia.
Qed.

(** ** The publisher between the socket and the relay *)


Definition idle (p : PublisherState) : Prop :=
  authenticated p = true ∧ in_flight p = None ∧ retry_at p = None ∧ force_reconcile p = false ∧ reconnect p = false.






(** *** The relay's steps *)






#[local] Arguments ours : simpl never.
#[local] Arguments of_session : simpl never.
#[local] Arguments is_publisher_id : simpl never.











(** *** The publisher's steps *)














(** ** The whole tick *)

Lemma settled_tick_waits now p e :
  idle p → latest p = Some e → last_acked_fingerprint p = Some (fingerprint (for_publication_version (publication_version p) e)) →
  next_step fingerprint now p = (p, Wait).
Proof.
  intros (Ha & Hf & Hr & Hfo & Hre) Hl Hla. unfold next_step, expire. rewrite Hre, Ha, Hf, Hre. cbn [negb].
  unfold publish_due. rewrite Hr, Hl, Hfo. cbn [fmap option_fmap option_map]. by rewrite Hla, !bool_decide_true.
Qed.

Lemma idle_wait now p p' :
  attempts_in_range p → next_step fingerprint now p = (p', Wait) → idle p' →
  p' = p ∧ (latest p = None ∨ ∃ e, latest p = Some e ∧ last_acked_fingerprint p = Some (fingerprint (for_publication_version (publication_version p) e))).
Proof.
  intros Hat Hst (Ha & Hf & Hr & Hfo & Hre). pose proof (next_step_spec now p Hat) as Hspec. rewrite Hst in Hspec. cbn [fst snd] in Hspec.
  inversion Hspec; subst; try congruence; try done; (split; [done|]); [by left|right; by eexists].
Qed.

(** C26: when a tick leaves nothing to do, a later one that finds only new output in
    the database leaves nothing to do either, and neither the publisher nor the cache
    changes. *)
Theorem output_alone_publishes_nothing d name ps fence now now' s s' c p c1 p1 :
  attempts_in_range p → publication_tick fingerprint d name ps fence now (Some s) (c, p) = ((c1, p1), Wait) → idle p1 →
  Forall2 same_but_output (flat_entries s) (flat_entries s') → NoDup (map (λ x, i_id x.2) (flat_entries s)) →
  task_blockers s = task_blockers s' → blocker_task_states s = blocker_task_states s' → identity s = identity s' →
  publication_tick fingerprint d name ps fence now' (Some s') (c1, p1) = ((c1, p1), Wait).
Proof.
  intros Hat Ht Hidle Hs Hn Hb Hst Hi. unfold publication_tick in *. cbn [fst snd] in *.
  destruct (map_ui_snapshot_for_publication d name ps s c) as [c' e] eqn:Hm.
  destruct (next_step fingerprint now (observe (with_singleton_reservation_fence fence e) p)) as [q st] eqn:Hnext.
  injection Ht as -> -> ->. rewrite (output_alone_changes_nothing d name ps s s' c c1 e) by done.
  destruct (idle_wait now (observe (with_singleton_reservation_fence fence e) p) _ Hat Hnext Hidle) as [-> Hl].
  assert (∀ x y, observe x (observe y p) = observe x p) as Hoo by done. rewrite Hoo.
  destruct Hl as [Hl|(e' & Hl & Hla)]; [done|]. by rewrite (settled_tick_waits now' _ e' Hidle Hl Hla).
Qed.

End Publisher.

(** ** What the relay loop does besides *)

Definition empty_envelope (name : string) : CloudTaskSnapshotEnvelope := mkEnvelope 2 1 None (lit name) None None [].

(** The relay takes a publication up and deals with it at once. *)
Definition stored_at (i : nat) : list Event := [EvRead; EvHandler i Claim; EvHandler i Store; EvHandler i Answer].

(** A request that timed out, and whose handler comes back after the next one's, is
    refused as stale: the relay keeps the later snapshot. *)
Example late_request_is_refused :
  let old := empty_envelope "old" in
  let new := empty_envelope "new" in
  let w := run desktop_name ([EvAuthenticated (Some 2); EvTick 0 (Some old) true; EvRead; EvTick 15000 (Some new) true; EvTick 16000 (Some new) true]
                             ++ stored_at 1 ++ [EvAck 16001; EvHandler 0 Claim; EvAck 16002]) in
  held w = Some new ∧ told w = Some (new, true) ∧ handlers w = [] ∧ idle (publisher w).
Proof. by vm_compute. Qed.

(** The relay's word that a snapshot is refused for good says nothing of the one
    before, whose request timed out: it may be stored afterwards. *)
Example refused_snapshot_leaves_the_old_one :
  let old := empty_envelope "old" in
  let new := empty_envelope "new" in
  let w := run desktop_name [EvAuthenticated (Some 2); EvTick 0 (Some old) true; EvRead; EvTick 15000 (Some new) true; EvTick 16000 (Some new) true; EvRead;
                             EvHandler 1 (Refuse false); EvAck 16001; EvHandler 0 Claim; EvHandler 0 Store] in
  held w = Some old ∧ told w = Some (new, false) ∧ idle (publisher w).
Proof. by vm_compute. Qed.

(** A singleton's publication is not the publisher's: when its change is undone before
    the next tick, the publisher finds what it published last and leaves the relay
    with the other. *)
Lemma undone_singleton_stays_in_the_cloud :
  let home := empty_envelope "home" in
  let singleton := empty_envelope "singleton" in
  let w := run desktop_name ([EvAuthenticated (Some 2); EvTick 0 (Some home) true] ++ stored_at 0 ++ [EvAck 1;
                             EvSingleton (lit "d") singleton] ++ stored_at 0 ++ [EvAck 2]) in
  (next_step desktop_name 500 (observe home (publisher w))).2 = Wait ∧ held w = Some singleton ∧ idle (publisher w).
Proof. by vm_compute. Qed.

(** A relay that keeps refusing for now is asked again every four seconds: only
    silence leads to a reconnect. *)
Lemma refusals_never_reconnect fp id now p :
  (on_ack fp id false true now p).1 = p ∨ reconnect (on_ack fp id false true now p).1 = reconnect p.
Proof. unfold on_ack. destruct (in_flight p); [|by left]. destruct (negb _); [by left|by right]. Qed.

(** ** Witnesses *)

Lemma silent_relay_is_left_witness :
  let p := observe (empty_envelope "home") (on_authenticated (Some 2) new) in
  Reconnect ∈ silence desktop_name (next_step desktop_name 0 p).1 (map (λ n, (500 * Z.of_nat n, None)) (seq 1 101)).
Proof.
  intros p. refine (silent_relay_is_left desktop_name 500 0 p (next_step desktop_name 0 p).1
    (mkRequest (publisher_id 1) (empty_envelope "home")) (map (λ n, (500 * Z.of_nat n, None)) (seq 1 101)) _ _ _ _ _).
  - lia.
  - by split.
  - by vm_compute.
  - cbn [map seq spaced]. lia.
  - apply Z.leb_le. by vm_compute.
Defined.


Lemma output_alone_publishes_nothing_witness :
  let s p := mkUi [(plain_repo "r", [plain_item "a" p])] [] ∅ None in
  let p := mkPublisher true 2 false None (Some (lit "Desk")) None None false 2 in
  let t := publication_tick desktop_name (lit "d") (lit "Desk") [] (lit "f") 500 (Some (s (Some (lit "one")))) (∅, p) in
  publication_tick desktop_name (lit "d") (lit "Desk") [] (lit "f") 1000 (Some (s (Some (lit "two")))) t.1 = t.
Proof.
  intros s p t. assert (t = ((t.1.1, t.1.2), Wait)) as Ht by (by vm_compute). rewrite Ht.
  refine (output_alone_publishes_nothing desktop_name (lit "d") (lit "Desk") [] (lit "f") 500 1000 (s (Some (lit "one"))) (s (Some (lit "two")))
    ∅ p t.1.1 t.1.2 _ Ht _ _ _ eq_refl eq_refl eq_refl).
  - by split.
  - by vm_compute.
  - cbn. constructor; [|constructor]. split; [done|]. by exists (Some (lit "two")).
  - apply (bool_decide_unpack _). by vm_compute.
Defined.
