(* ===== verification/StageRuns.v ===== *)
(** * The stage runs of a task ([crates/kanna-server/src/db/stage_runs.rs],
      [db/pipeline_items.rs], [db/lifecycle_operations.rs])

    What the database keeps of one task for the moves between its stages: its row,
    the worktree it is in, its runs in the order of their row ids, the one lifecycle
    operation that may be open for it, and the events its watchers read.  A run's id
    is the instant it was made from.  The queries select by the task, so the tables
    are those of one task; a statement that changes no row gives [None] where the
    code refuses it. *)

From S2P Require Import Prelude RustStd.
Local Open Scope Z_scope.

(** ** Rows *)

Inductive RunKind := Main | Post.
Inductive RunStatus := Pending | Running | Succeeded | Failed | Cancelled.
Inductive StageTrigger := Auto | Operator | Manager | Unspecified.

#[export] Instance RunKind_eq_dec : EqDecision RunKind.
Proof. solve_decision. Defined.
#[export] Instance RunStatus_eq_dec : EqDecision RunStatus.
Proof. solve_decision. Defined.
#[export] Instance StageTrigger_eq_dec : EqDecision StageTrigger.
Proof. solve_decision. Defined.

Record StageRun := mkRun {
  id : Z;
  stage : str;
  kind : RunKind;
  agent : option str;
  agent_provider : option str;
  model : option str;
  effort : option str;
  status : RunStatus;
  result : option str;
  feedback : option str;
  session_id : option str;
  provider_session_id : option str;
  cwd : option str;
  completion_transition : option str;
  completion_bound : bool;
  trigger : option StageTrigger
}.

(** The intent of a lifecycle operation; its payload is JSON that the lifecycle
    owner decodes. *)
Inductive OperationKind := OpPost | OpStageSpawn.
Inductive Phase := Prepared | SpawnReady | Submitted | Committed.

#[export] Instance Phase_eq_dec : EqDecision Phase.
Proof. solve_decision. Defined.

Inductive TaskEvent :=
  | RunStarted (run : Z) (stage : str) (kind : RunKind)
  | RunFinished (run : Z) (status : RunStatus)
  | StageChanged (from_stage to_stage : str) (branch : option str) (trigger : StageTrigger)
  | LifecycleOperationRetired (operation : Z) (retained_branch : option str)
  | RevisionRequested (target_stage summary : str) (by_agent : bool) (rounds limit : Z) (exhausted : bool).

Section Db.

(** What a lifecycle operation's payload decodes to. *)
Context {Payload : Type}.

Record Intent := mkIntent {
  intent_id : Z;
  intent_kind : OperationKind;
  phase : Phase;
  payload : Payload
}.

Record TaskDb := mkTaskDb {
  closed : bool;
  task_stage : str;
  task_branch : option str;
  activity : str;
  agent_session_id : option str;
  worktree : option (str * str);
  runs : list StageRun;
  intent : option Intent;
  events : list TaskEvent
}.

Definition set_runs (l : list StageRun) (d : TaskDb) : TaskDb :=
  mkTaskDb (closed d) (task_stage d) (task_branch d) (activity d) (agent_session_id d) (worktree d) l (intent d) (events d).
Definition set_intent (i : option Intent) (d : TaskDb) : TaskDb :=
  mkTaskDb (closed d) (task_stage d) (task_branch d) (activity d) (agent_session_id d) (worktree d) (runs d) i (events d).
Definition append_task_event (e : TaskEvent) (d : TaskDb) : TaskDb :=
  mkTaskDb (closed d) (task_stage d) (task_branch d) (activity d) (agent_session_id d) (worktree d) (runs d) (intent d) (events d ++ [e]).
Definition set_closed (d : TaskDb) : TaskDb :=
  mkTaskDb true (task_stage d) (task_branch d) (activity d) (agent_session_id d) (worktree d) (runs d) (intent d) (events d).

(** ** Runs *)

Definition stage_run (d : TaskDb) (i : Z) : option StageRun := find (λ r, id r =? i) (runs d).
Definition latest_stage_run (d : TaskDb) : option StageRun := last (runs d).

Definition latest_stage_run_for_stage (d : TaskDb) (s : str) (k : RunKind) : option StageRun :=
  last (filter (λ r, stage r = s ∧ kind r = k) (runs d)).

Definition running_stage_runs (d : TaskDb) : list StageRun := filter (λ r, status r = Running) (runs d).

Definition latest_main_stage_run_id_for_session (d : TaskDb) (session : str) : option Z :=
  id <$> last (filter (λ r, session_id r = Some session ∧ kind r = Main) (runs d)).

Definition latest_finished_stage_run_result_of_kind (d : TaskDb) (k : option RunKind) : option str :=
  r ← last (filter (λ r, (status r = Succeeded ∨ status r = Failed) ∧ result r ≠ None ∧ (k = None ∨ k = Some (kind r))) (runs d));
  result r.

(** A run that starts running is announced. *)
Definition insert_stage_run (r : StageRun) (d : TaskDb) : TaskDb :=
  let d := set_runs (runs d ++ [r]) d in
  if bool_decide (status r = Running) then append_task_event (RunStarted (id r) (stage r) (kind r)) d else d.

Definition with_outcome (s : RunStatus) (res fb : option str) (r : StageRun) : StageRun :=
  mkRun (id r) (stage r) (kind r) (agent r) (agent_provider r) (model r) (effort r) s res fb (session_id r) (provider_session_id r)
    (cwd r) (completion_transition r) (completion_bound r) (trigger r).

Definition update_run (i : Z) (f : StageRun → StageRun) (l : list StageRun) : list StageRun :=
  map (λ r, if id r =? i then f r else r) l.

Definition finish_stage_run (i : Z) (s : RunStatus) (res fb : option str) (d : TaskDb) : option TaskDb :=
  match stage_run d i with
  | None => None
  | Some _ => Some (append_task_event (RunFinished i s) (set_runs (update_run i (with_outcome s res fb) (runs d)) d))
  end.

Definition finish_latest_running_stage_run (s : RunStatus) (res fb : option str) (d : TaskDb) : option (TaskDb * option StageRun) :=
  match last (running_stage_runs d) with
  | None => Some (d, None)
  | Some r => d ← finish_stage_run (id r) s res fb d; Some (d, Some r)
  end.

Definition cancel_running_stage_runs (d : TaskDb) : TaskDb :=
  set_runs (map (λ r, if bool_decide (status r = Pending ∨ status r = Running) then with_outcome Cancelled (result r) (feedback r) r else r) (runs d)) d.

(** The latest run, where it was interrupted without a verdict. *)
Definition interrupted (interruption_feedback : str) (r : StageRun) : bool :=
  bool_decide (status r = Cancelled ∨ status r = Failed)
  && (bool_decide (feedback r = Some interruption_feedback)
      || bool_decide (status r = Cancelled ∧ result r = None ∧ feedback r = None)).

Definition restore_latest_interrupted_stage_run (interruption_feedback : str) (d : TaskDb) : TaskDb * bool :=
  match latest_stage_run d with
  | Some r =>
      if negb (closed d) && interrupted interruption_feedback r
      then (set_runs (update_run (id r) (with_outcome Running None None) (runs d)) d, true)
      else (d, false)
  | None => (d, false)
  end.

(** ** The task's row *)

Definition update_pipeline_item_activity (a : str) (d : TaskDb) : TaskDb :=
  if closed d then d
  else mkTaskDb (closed d) (task_stage d) (task_branch d) a (agent_session_id d) (worktree d) (runs d) (intent d) (events d).

Definition update_pipeline_item_agent_session_id (s : option str) (d : TaskDb) : TaskDb :=
  if closed d then d
  else mkTaskDb (closed d) (task_stage d) (task_branch d) (activity d) s (worktree d) (runs d) (intent d) (events d).

Definition append_stage_changed_event (from_stage to_stage : str) (branch : option str) (t : StageTrigger) (d : TaskDb) : TaskDb :=
  if bool_decide (from_stage = to_stage) then d else append_task_event (StageChanged from_stage to_stage branch t) d.

Definition update_pipeline_item_stage_with_trigger (s : str) (t : StageTrigger) (d : TaskDb) : option TaskDb :=
  if closed d then None
  else Some (append_stage_changed_event (task_stage d) s None t
               (mkTaskDb (closed d) s (task_branch d) (activity d) (agent_session_id d) (worktree d) (runs d) (intent d) (events d))).

Definition update_pipeline_item_stage_and_branch_with_trigger (s b : str) (t : StageTrigger) (d : TaskDb) : option TaskDb :=
  if closed d then None
  else Some (append_stage_changed_event (task_stage d) s (Some b) t
               (mkTaskDb (closed d) s (Some b) (activity d) (agent_session_id d) (worktree d) (runs d) (intent d) (events d))).

Definition upsert_worktree (path branch : str) (d : TaskDb) : TaskDb :=
  mkTaskDb (closed d) (task_stage d) (task_branch d) (activity d) (agent_session_id d) (Some (path, branch)) (runs d) (intent d) (events d).

(** ** The open operation *)

(** One operation a task, which a unique index sees to. *)
Definition insert_lifecycle_operation_intent (i : Intent) (d : TaskDb) : option TaskDb :=
  match intent d with Some _ => None | None => Some (set_intent (Some i) d) end.

Definition has_lifecycle_operation (i : Z) (d : TaskDb) : bool :=
  match intent d with Some o => intent_id o =? i | None => false end.

Definition has_lifecycle_operation_for_task (d : TaskDb) : bool := bool_decide (is_Some (intent d)).

Definition update_lifecycle_operation_phase (i : Z) (p : Phase) (d : TaskDb) : TaskDb * bool :=
  match intent d with
  | Some o => if intent_id o =? i then (set_intent (Some (mkIntent (intent_id o) (intent_kind o) p (payload o))) d, true) else (d, false)
  | None => (d, false)
  end.

Definition delete_lifecycle_operation_intent (i : Z) (d : TaskDb) : TaskDb :=
  if has_lifecycle_operation i d then set_intent None d else d.

End Db.
Arguments Intent : clear implicits.
Arguments TaskDb : clear implicits.
