(* ===== verification/StageOps.v ===== *)
(** * Stage operations and their recovery
      ([crates/kanna-server/src/task_creator/lifecycle.rs],
       [crates/kanna-server/src/daemon_client.rs])

    A stage move or a post is an operation with a durable intent: what it is about to
    do is written before the outgoing agent is killed, its phase advances at the
    daemon's socket, and a server that starts again finishes or refuses what an
    earlier one left.  The system holds one task: its rows, the forks on disk, the
    daemon's session, and the operation that is under way, a call at a time; the
    server may end, the session may exit and the task may be closed between any two
    calls. *)

From S2P Require Import Prelude RustStd StageRuns.
Local Open Scope Z_scope.

(** ** What is prepared and what is stored of it *)

Record ForkedWorkspace := mkWorkspace { branch : str; worktree_path : str }.

Inductive PreparedRunWorkspace := Current | Forked (w : ForkedWorkspace) | Resumed (w : ForkedWorkspace).

Record PreparedStageRunSpawn := mkSpawn {
  next_stage : str;
  run_stage : str;
  run_kind : RunKind;
  workspace : PreparedRunWorkspace;
  stage_agent : option str;
  sp_agent_provider : str;
  sp_model : option str;
  sp_effort : option str;
  sp_completion_transition : str;
  sp_trigger : StageTrigger;
  sp_feedback : option str;
  sp_provider_session_id : option str;
  sp_cwd : str;
  headless : bool
}.

Record PreparedPostDispatch := mkPostDispatch {
  message : str;
  post_stage : str;
  fallback : PreparedStageRunSpawn
}.

Record StageOperationPayload := mkStagePayload {
  p_task_id : str;
  p_session_id : str;
  p_run_id : Z;
  p_next_stage : str;
  p_branch : option str;
  p_worktree_path : option str;
  p_cwd : str;
  p_provider_session_id : option str;
  p_trigger : str;
  rollback_on_failure : bool
}.

Record PostOperationPayload := mkPostPayload {
  q_task_id : str;
  q_session_id : str;
  q_run_id : Z;
  q_inherited_run_id : option Z;
  q_run_stage : str;
  q_completion_transition : str;
  q_trigger : str;
  q_agent : option str;
  q_agent_provider : option str;
  q_model : option str;
  q_effort : option str;
  q_provider_session_id : option str;
  q_cwd : option str
}.

(** What the JSON of an intent decodes to, read as its kind says. *)
Inductive Payload := PStage (p : StageOperationPayload) | PPost (p : PostOperationPayload) | PUnreadable.

Abbreviation Db := (TaskDb Payload).

Definition as_str (t : StageTrigger) : str :=
  match t with Auto => lit "auto" | Operator => lit "operator" | Manager => lit "manager" | Unspecified => lit "unspecified" end.

Definition parse_stage_trigger (value : str) : option StageTrigger :=
  if bool_decide (value = lit "auto") then Some Auto
  else if bool_decide (value = lit "operator") then Some Operator
  else if bool_decide (value = lit "manager") then Some Manager
  else if bool_decide (value = lit "unspecified") then Some Unspecified
  else None.

(** ** The world around the operation *)

(** What may go wrong that no row says. *)
Inductive Lapse :=
  | SpawnUnmarked (* the daemon started the agent, and the intent could not say so *)
  | StaleRollback (* a fork was rolled back after its agent was started, the task being closed *)
  | RunUnrecorded (* a run that failed to start could not be closed *)
  | PostUnsent    (* a post's intent stands, and the post was not given to the session *)
  | SubmittedUnsent. (* an intent says submitted, and no byte of the spawn was written *)

#[export] Instance Lapse_eq_dec : EqDecision Lapse.
Proof. solve_decision. Defined.

(** [ran] are the forks an agent was started in since they were made; [lost] those of
    them that were removed.  [submitted] are the runs whose spawn was declared
    submitted or has begun to cross the socket, [crossed] those of whose spawn a byte
    crossed, [delivered] the posts given to the session, [landed] the moves made, with
    the stages they went to. *)
Record World := mkWorld {
  db : Db;
  forks : gset str;
  live : option str;
  ran : gset str;
  lost : list str;
  submitted : list Z;
  crossed : list Z;
  delivered : list Z;
  landed : list (Z * str);
  lapses : list Lapse
}.

Definition set_db (d : Db) (w : World) : World :=
  mkWorld d (forks w) (live w) (ran w) (lost w) (submitted w) (crossed w) (delivered w) (landed w) (lapses w).
Definition set_live (l : option str) (w : World) : World :=
  mkWorld (db w) (forks w) l (ran w) (lost w) (submitted w) (crossed w) (delivered w) (landed w) (lapses w).
Definition note_submitted (r : Z) (w : World) : World :=
  mkWorld (db w) (forks w) (live w) (ran w) (lost w) (r :: submitted w) (crossed w) (delivered w) (landed w) (lapses w).
Definition note_crossed (r : Z) (w : World) : World :=
  mkWorld (db w) (forks w) (live w) (ran w) (lost w) (submitted w) (r :: crossed w) (delivered w) (landed w) (lapses w).
Definition note_delivered (r : Z) (w : World) : World :=
  mkWorld (db w) (forks w) (live w) (ran w) (lost w) (submitted w) (crossed w) (r :: delivered w) (landed w) (lapses w).
Definition note_landed (r : Z) (s : str) (w : World) : World :=
  mkWorld (db w) (forks w) (live w) (ran w) (lost w) (submitted w) (crossed w) (delivered w) ((r, s) :: landed w) (lapses w).
Definition note_lapse (l : Lapse) (w : World) : World :=
  mkWorld (db w) (forks w) (live w) (ran w) (lost w) (submitted w) (crossed w) (delivered w) (landed w) (l :: lapses w).

(** A fork is made on a branch nothing has run in. *)
Definition make_fork (b : str) (w : World) : World :=
  mkWorld (db w) ({[b]} ∪ forks w) (live w) (ran w ∖ {[b]}) (lost w) (submitted w) (crossed w) (delivered w) (landed w) (lapses w).

Definition workspace_branch (ws : PreparedRunWorkspace) : option str :=
  match ws with Current => None | Forked f | Resumed f => Some (branch f) end.

(** The daemon starts the agent in the workspace of the spawn. *)
Definition start_agent (p : PreparedStageRunSpawn) (w : World) : World :=
  mkWorld (db w) (forks w) (Some (sp_cwd p))
    (match workspace_branch (workspace p) with Some b => {[b]} ∪ ran w | None => ran w end)
    (lost w) (submitted w) (crossed w) (delivered w) (landed w) (lapses w).

(** The worktree and its branch are removed, and with them what was committed there. *)
Definition remove_prepared_worktree (f : ForkedWorkspace) (w : World) : World :=
  mkWorld (db w) (forks w ∖ {[branch f]}) (live w) (ran w)
    (if bool_decide (branch f ∈ ran w) then lost w ++ [branch f] else lost w)
    (submitted w) (crossed w) (delivered w) (landed w) (lapses w).

Definition rollback_prepared_stage_fork (p : PreparedStageRunSpawn) (w : World) : World :=
  match workspace p with Forked f => remove_prepared_worktree f w | _ => w end.

(** The task, and the name of its session with the daemon. *)
Class Task := mkTask { task_id : str; session_id_of_task : str }.

Section Server.

(** The task, and the daemon session all its runs use. *)
Context {T : Task}.

(** ** Intents *)

Definition stage_operation_payload (p : PreparedStageRunSpawn) (r : Z) : StageOperationPayload :=
  let '(branch, worktree_path, rollback_on_failure) :=
    match workspace p with
    | Forked f => (Some (branch f), Some (worktree_path f), true)
    | Resumed f => (Some (branch f), Some (worktree_path f), false)
    | Current => (None, None, false)
    end in
  mkStagePayload task_id session_id_of_task r (next_stage p) branch worktree_path (sp_cwd p) (sp_provider_session_id p)
    (as_str (sp_trigger p)) rollback_on_failure.

Definition persist_stage_operation_intent (p : PreparedStageRunSpawn) (r : Z) (ph : Phase) (d : Db) : option Db :=
  insert_lifecycle_operation_intent (mkIntent r OpStageSpawn ph (PStage (stage_operation_payload p r))) d.

(** A post inherits the identity of the run whose session it is given to. *)
Definition post_operation_payload (p : PreparedPostDispatch) (r : Z) (inherited : option StageRun) : PostOperationPayload :=
  let '(ag, provider, md, ef, psid, c) :=
    match inherited with
    | Some run => (agent run, agent_provider run, model run, effort run, provider_session_id run, cwd run)
    | None => (stage_agent (fallback p), Some (sp_agent_provider (fallback p)), sp_model (fallback p), sp_effort (fallback p),
               None, Some (sp_cwd (fallback p)))
    end in
  mkPostPayload task_id session_id_of_task r (id <$> inherited) (post_stage p) (sp_completion_transition (fallback p))
    (as_str (sp_trigger (fallback p))) ag provider md ef psid c.

Definition persist_post_operation_intent (p : PreparedPostDispatch) (r : Z) (inherited : option StageRun) (d : Db) : option Db :=
  insert_lifecycle_operation_intent (mkIntent r OpPost Submitted (PPost (post_operation_payload p r inherited))) d.

(** ** Landing and failing *)

(** The move of the stage, in one transaction. *)
Definition project_stage (next : str) (ws : option (str * str)) (t : StageTrigger) (psid : option str) (d : Db) : option Db :=
  d ← match ws with
      | Some (b, path) =>
          d ← update_pipeline_item_stage_and_branch_with_trigger next b t d;
          Some (upsert_worktree path b d)
      | None => update_pipeline_item_stage_with_trigger next t d
      end;
  Some (update_pipeline_item_agent_session_id psid (update_pipeline_item_activity (lit "working") d)).

Definition payload_workspace (p : StageOperationPayload) : option (option (str * str)) :=
  match p_branch p, p_worktree_path p with
  | Some b, Some path => Some (Some (b, path))
  | None, None => Some None
  | _, _ => None
  end.

Definition reconcile_stage_operation_payload (i : Z) (p : StageOperationPayload) (d : Db) : option Db :=
  if closed d then None
  else
    ws ← payload_workspace p;
    d ← project_stage (p_next_stage p) ws (default Unspecified (parse_stage_trigger (p_trigger p))) (p_provider_session_id p) d;
    Some (delete_lifecycle_operation_intent i d).

Definition prepared_workspace (p : PreparedStageRunSpawn) : option (str * str) :=
  match workspace p with Forked f | Resumed f => Some (branch f, worktree_path f) | Current => None end.

Definition reconcile_stage_operation_db (p : PreparedStageRunSpawn) (r : Z) (d : Db) : option Db :=
  if closed d then None
  else
    d ← project_stage (next_stage p) (prepared_workspace p) (sp_trigger p) (sp_provider_session_id p) d;
    Some (delete_lifecycle_operation_intent r d).

Definition spawn_failed : option str := Some (lit "stage spawn failed").

(** The transaction of [fail_lifecycle_operation]; the removal of the fork follows. *)
Definition fail_lifecycle_operation_db (i : Intent Payload) (p : StageOperationPayload) (d : Db) : Db :=
  let d := match stage_run d (p_run_id p) with
           | Some run => if bool_decide (status run = Running)
                         then default d (finish_stage_run (p_run_id p) Failed (Some (lit "failed to start stage run after server restart")) spawn_failed d)
                         else d
           | None => d
           end in
  let d := update_pipeline_item_activity (lit "unread") d in
  let d := if bool_decide (phase i = Prepared) then d else update_pipeline_item_agent_session_id None d in
  delete_lifecycle_operation_intent (intent_id i) d.

Inductive FailedStageWorkspace := RollBackFreshFork | Keep.

Definition fail_lifecycle_operation (i : Intent Payload) (p : StageOperationPayload) (ws : FailedStageWorkspace) (removes : bool) (w : World) : World :=
  let w := set_db (fail_lifecycle_operation_db i p (db w)) w in
  match ws, p_worktree_path p, p_branch p with
  | RollBackFreshFork, Some path, Some b =>
      if rollback_on_failure p && removes then remove_prepared_worktree (mkWorkspace b path) w else w
  | _, _, _ => w
  end.

(** How the database takes a reconciliation: it answers; it fails after the
    transaction that settles the operation; it cannot be opened or read, or that
    transaction fails. *)
Inductive Database := DbAnswers | DbFailsAfter | DbFails.

#[export] Instance Database_eq_dec : EqDecision Database.
Proof. solve_decision. Defined.

(** What follows the settling transaction. *)
Definition afterwards (q : Database) (f : Db → Db) (d : Db) : Db := match q with DbAnswers => f d | _ => d end.

Definition retire_unreconcilable_lifecycle_operation (q : Database) (i : Intent Payload) (d : Db) : Db :=
  afterwards q (append_task_event (LifecycleOperationRetired (intent_id i) None)) (delete_lifecycle_operation_intent (intent_id i) d).

(** ** Reconciling *)

(** The transaction that binds an accepted post: its run is recorded once, the run it
    inherits is closed. *)
Definition bind_post (p : PostOperationPayload) (d : Db) : Db :=
  match stage_run d (q_run_id p) with
  | Some _ => d
  | None =>
      let d := match q_inherited_run_id p with
               | Some i =>
                   match stage_run d i with
                   | Some run => if bool_decide (status run = Running) then default d (finish_stage_run i Succeeded None None d) else d
                   | None => d
                   end
               | None => d
               end in
      insert_stage_run
        (mkRun (q_run_id p) (q_run_stage p) Post (q_agent p) (q_agent_provider p) (q_model p) (q_effort p) Running None None
           (Some (q_session_id p)) (q_provider_session_id p) (q_cwd p)
           (if bool_decide (q_completion_transition p ∈ [lit "manual"; lit "auto"]) then Some (q_completion_transition p) else None)
           true (parse_stage_trigger (q_trigger p))) d
  end.

Definition commit_post (i : Z) (p : PostOperationPayload) (d : Db) : option Db :=
  let '(d, found) := update_lifecycle_operation_phase i Committed (bind_post p d) in
  if found then Some d else None.

Definition finalize_post_operation (q : Database) (i : Z) (p : PostOperationPayload) (d : Db) : Db :=
  match commit_post i p d with Some d => afterwards q (delete_lifecycle_operation_intent i) d | None => d end.

(** [sessions] is what the daemon listed, the directory of the task's session if it
    is live; [q] is how the database takes it, and [removes] says whether git removes
    what it is told to. *)
Definition reconcile_lifecycle_operation (sessions : option (option str)) (q : Database) (removes : bool) (i : Intent Payload) (w : World) : World :=
  if bool_decide (q = DbFails) then w
  else
  match intent_kind i, payload i with
  | OpPost, PPost p =>
      if bool_decide (q_task_id p = task_id) then set_db (finalize_post_operation q (intent_id i) p (db w)) w
      else set_db (retire_unreconcilable_lifecycle_operation q i (db w)) w
  | OpStageSpawn, PStage p =>
      if negb (bool_decide (p_task_id p = task_id)) then set_db (retire_unreconcilable_lifecycle_operation q i (db w)) w
      else
        match payload_workspace p, sessions with
        | None, _ => set_db (retire_unreconcilable_lifecycle_operation q i (db w)) w
        | Some _, None => w
        | Some _, Some listed =>
            let session_matches := bool_decide (p_session_id p = session_id_of_task ∧ listed = Some (p_cwd p)) in
            if closed (db w) then
              if bool_decide (phase i = Submitted) then
                let w := fail_lifecycle_operation i p Keep removes w in
                set_db (afterwards q (append_task_event (LifecycleOperationRetired (intent_id i) (p_branch p))) (db w)) w
              else fail_lifecycle_operation i p RollBackFreshFork removes w
            else if bool_decide (phase i = Submitted) || bool_decide (phase i = SpawnReady) && session_matches then
              match reconcile_stage_operation_payload (intent_id i) p (db w) with
              | Some d => note_landed (p_run_id p) (p_next_stage p) (set_db d w)
              | None => w
              end
            else fail_lifecycle_operation i p RollBackFreshFork removes w
        end
  | _, _ => set_db (retire_unreconcilable_lifecycle_operation q i (db w)) w
  end.

(** Startup reconciles every intent, and the guard of an operation the one of its
    task. *)
Definition reconcile_lifecycle_operations (sessions : option (option str)) (q : Database) (removes : bool) (w : World) : World :=
  match intent (db w) with Some i => reconcile_lifecycle_operation sessions q removes i w | None => w end.

(** The guard of an operation; [last] is whether the query at its end goes through.
    An error and a refusal are one to its caller. *)
Definition release_lifecycle_operation_for_task (daemon_answers : bool) (q : Database) (last removes : bool) (w : World) : World * bool :=
  if bool_decide (q = DbFails) then (w, false)
  else if negb (has_lifecycle_operation_for_task (db w)) then (w, true)
  else if negb daemon_answers then (w, false)
  else
    let w := reconcile_lifecycle_operations (Some (live w)) q removes w in
    (w, last && negb (has_lifecycle_operation_for_task (db w))).

(** ** An operation under way *)

(** What the daemon makes of a spawn it reads. *)
Inductive Outcome := Created | Refused | Redirected.

#[export] Instance Outcome_eq_dec : EqDecision Outcome.
Proof. solve_decision. Defined.

(** The next call of a stage move; [SDeclare] notes the submission of a headless spawn
    before it is sent, and a flag of [SSend] says that a successor daemon is asked,
    after the first has withdrawn. *)
Inductive StagePc :=
  | SRelease | SSetup | SRollbackSetup | SRecordSetupFailure | SPersist | SOutgoing | SKill | SShell | SReady | SRecord
  | SDeclare | SSend (again : bool) | SMark (o : Outcome) | SReply (o : Outcome) | SWithdraw
  | SCommit | SFailRun | SAbort | SRollback | SKillStale | SFailStale | SRollbackStale.

#[export] Instance StagePc_eq_dec : EqDecision StagePc.
Proof. solve_decision. Defined.

Inductive PostPc := PRelease | PInherit | PPersist | PSend | PAbort (falls_back : bool) | PBind | PDelete.

Inductive Process :=
  | StageOp (p : PreparedStageRunSpawn) (r : Z) (pc : StagePc)
  | PostOp (p : PreparedPostDispatch) (r : Z) (inherited : option StageRun) (pc : PostPc).

(** [clock] is the instant the next run is named after. *)
Record System := mkSystem { world : World; process : option Process; clock : Z }.

(** How a call ends: whether the database and the daemon do what they are asked,
    what the daemon makes of a spawn, whether it was written whole, whether the answer
    arrives, whether git removes a fork, whether anything crosses the socket at all,
    and how the database takes a reconciliation. *)
Record Choice := mkChoice {
  ok : bool; outcome : Outcome; written : bool; answered : bool; removes : bool; crosses : bool; database : Database
}.

Definition finish_running (w : World) : World :=
  match finish_latest_running_stage_run Succeeded None None (db w) with
  | Some (d, _) => set_db d w
  | None => w
  end.

Definition spawn_run (p : PreparedStageRunSpawn) (r : Z) (s : RunStatus) (res fb : option str) (c : option str) (bound : bool) : StageRun :=
  mkRun r (run_stage p) (run_kind p) (stage_agent p) (Some (sp_agent_provider p)) (sp_model p) (sp_effort p) s res fb
    (Some session_id_of_task) (sp_provider_session_id p) c (Some (sp_completion_transition p)) bound (Some (sp_trigger p)).

(** [fail_bound_stage_run]: best effort, statement by statement. *)
Definition fail_bound_stage_run (r : Z) (d : Db) : Db :=
  match finish_stage_run r Failed (Some (lit "failed to start stage run")) spawn_failed d with
  | Some d => update_pipeline_item_agent_session_id None (update_pipeline_item_activity (lit "unread") d)
  | None => d
  end.

Definition mark_phase (r : Z) (ph : Phase) (w : World) : World :=
  set_db (update_lifecycle_operation_phase r ph (db w)).1 w.

(** The open intent is the run's, and says submitted. *)
Definition declared (r : Z) (d : Db) : bool :=
  match intent d with Some o => bool_decide (intent_id o = r ∧ phase o = Submitted) | None => false end.

(** The daemon reads the spawn. *)
Definition daemon_reads (p : PreparedStageRunSpawn) (o : Outcome) (w : World) : World :=
  match o with Created => start_agent p w | _ => w end.

(** A call of [spawn_prepared_stage_run_for_api]; [None] is its return. *)
Definition stage_step (c : Choice) (p : PreparedStageRunSpawn) (r : Z) (pc : StagePc) (w : World) : World * option StagePc :=
  match pc with
  | SRelease =>
      let '(w, released) := release_lifecycle_operation_for_task (answered c) (database c) (ok c) (removes c) w in
      if released then (w, Some SSetup) else (rollback_prepared_stage_fork p w, None)
  | SSetup => if ok c then (w, Some SPersist) else (w, Some SRollbackSetup)
  | SRollbackSetup => (rollback_prepared_stage_fork p w, Some SRecordSetupFailure)
  | SRecordSetupFailure =>
      if ok c then
        (set_db (insert_stage_run (spawn_run p r Failed (Some (lit "failed to start stage")) (sp_feedback p) None false)
                   (update_pipeline_item_activity (lit "unread") (db w))) w, None)
      else (w, None)
  | SPersist =>
      if ok c then
        match persist_stage_operation_intent p r Prepared (db w) with Some d => (set_db d w, Some SOutgoing) | None => (w, None) end
      else (w, None)
  | SOutgoing => if ok c then (finish_running w, Some SKill) else (w, None)
  | SKill => if ok c then (set_live None w, Some SShell) else (w, Some SAbort)
  | SShell =>
      match workspace p with
      | Current => (w, Some SReady)
      | _ => if ok c then (w, Some SReady) else (w, Some SAbort)
      end
  | SReady =>
      if ok c then
        let '(d, found) := update_lifecycle_operation_phase r SpawnReady (db w) in
        if found then (set_db d w, Some SRecord) else (w, None)
      else (w, None)
  | SRecord =>
      if ok c && has_lifecycle_operation r (db w) then
        (set_db (insert_stage_run (spawn_run p r Running None (sp_feedback p) (Some (sp_cwd p)) true) (db w)) w, Some (if headless p then SDeclare else SSend false))
      else (w, None)
  | SDeclare =>
      (* the phase of a headless spawn is noted before the command is written; a phase
         that could not be noted is logged *)
      (if ok c then mark_phase r Submitted (note_submitted r w) else w, Some (SSend false))
  | SSend again =>
      let o := if again && bool_decide (outcome c = Redirected) then Refused else outcome c in
      if headless p then
        if negb (crosses c) then (if negb again && declared r (db w) then note_lapse SubmittedUnsent w else w, None)
        else
          let w := if bool_decide (o = Created) && negb (declared r (db w)) then note_lapse SpawnUnmarked w else w in
          let w := daemon_reads p o (note_crossed r (note_submitted r w)) in
          (w, if written c then Some (SReply o) else None)
      else if negb (ok c) then (w, Some SFailRun)
      else if negb (crosses c) then (w, None)
      else
        let w := daemon_reads p o (note_crossed r (note_submitted r w)) in
        if written c then (w, Some (SMark o))
        else (if bool_decide (o = Created) then note_lapse SpawnUnmarked w else w, None)
  | SMark o =>
      if ok c then (mark_phase r Submitted w, Some (SReply o))
      else (if bool_decide (o = Created) then note_lapse SpawnUnmarked w else w, Some (SReply o))
  | SReply o =>
      if negb (answered c) then (w, None)
      else match o with Created => (w, Some SCommit) | Refused => (w, Some SFailRun) | Redirected => (w, Some SWithdraw) end
  | SWithdraw =>
      if headless p then (w, Some (SSend true))
      else (if ok c then mark_phase r SpawnReady w else w, Some (SSend true))
  | SCommit =>
      if negb (ok c) then (w, None)
      else match reconcile_stage_operation_db p r (db w) with
           | Some d => (note_landed r (next_stage p) (set_db d w), None)
           | None => (w, Some SKillStale)
           end
  | SFailRun => if ok c then (set_db (fail_bound_stage_run r (db w)) w, Some SAbort) else (note_lapse RunUnrecorded w, Some SAbort)
  | SAbort => (if ok c then set_db (delete_lifecycle_operation_intent r (db w)) w else w, Some SRollback)
  | SRollback => (if removes c then rollback_prepared_stage_fork p w else w, None)
  | SKillStale => (if ok c then set_live None w else w, Some SFailStale)
  | SFailStale => if ok c then (set_db (fail_bound_stage_run r (db w)) w, Some SRollbackStale) else (note_lapse RunUnrecorded w, Some SRollbackStale)
  | SRollbackStale => (if removes c then note_lapse StaleRollback (rollback_prepared_stage_fork p w) else w, None)
  end.

(** What follows a call of [dispatch_prepared_post_for_api]. *)
Inductive PostNext := Returns | Goes (inherited : option StageRun) (pc : PostPc) | FallsBack.

(** How the daemon takes the message: a round trip that was lost is uncertain, whether
    the message was written or not. *)
Inductive Delivery := Delivered | SessionNotFound | NotDelivered | Uncertain.

Definition post_step (c : Choice) (d : Delivery) (p : PreparedPostDispatch) (r : Z) (inherited : option StageRun) (pc : PostPc) (w : World)
    : World * PostNext :=
  match pc with
  | PRelease =>
      let '(w, released) := release_lifecycle_operation_for_task (answered c) (database c) (ok c) (removes c) w in
      (w, if released then Goes None PInherit else Returns)
  | PInherit =>
      if negb (ok c) then (w, Returns)
      else
        let inherited := latest_stage_run (db w) in
        match inherited with
        | Some run =>
            if bool_decide (kind run = Post ∧ status run = Running ∧ stage run = post_stage p) then (w, Returns)
            else (w, Goes inherited PPersist)
        | None => (w, Goes inherited PPersist)
        end
  | PPersist =>
      if ok c then
        match persist_post_operation_intent p r inherited (db w) with Some d => (set_db d w, Goes inherited PSend) | None => (w, Returns) end
      else (w, Returns)
  | PSend =>
      match d with
      | Delivered => (note_delivered r w, Goes inherited PBind)
      | SessionNotFound => (w, Goes inherited (PAbort true))
      | NotDelivered => (w, Goes inherited (PAbort false))
      | Uncertain => (if crosses c then note_delivered r w else note_lapse PostUnsent w, Returns)
      end
  | PAbort falls_back =>
      if ok c then (set_db (delete_lifecycle_operation_intent r (db w)) w, if falls_back then FallsBack else Returns)
      else (note_lapse PostUnsent w, Returns)
  | PBind =>
      if ok c then
        match commit_post r (post_operation_payload p r inherited) (db w) with
        | Some d => (set_db d w, Goes inherited PDelete)
        | None => (w, Returns)
        end
      else (w, Returns)
  | PDelete => (if ok c then set_db (delete_lifecycle_operation_intent r (db w)) w else w, Returns)
  end.

(** ** The system *)

Inductive Event :=
  | BeginStage (p : PreparedStageRunSpawn)
  | BeginPost (p : PreparedPostDispatch)
  | Call (c : Choice) (d : Delivery)
  | ServerEnds
  | Startup (daemon_answers : bool) (q : Database) (removes : bool)
  | SessionExits
  | TaskCloses
  | Verdict (s : RunStatus)
  | Overlaps (removes : bool).

(** A workspace that is not a fresh fork is one that is there. *)
Definition fork_is_fresh (p : PreparedStageRunSpawn) (w : World) : bool :=
  match workspace p with Forked f => bool_decide (branch f ∉ forks w) | _ => true end.

Definition prepare_fork (p : PreparedStageRunSpawn) (w : World) : World :=
  match workspace p with Forked f => make_fork (branch f) w | _ => w end.

(** An operation ended by its server: what it did is what the rows say, but for an
    agent just started, a headless spawn declared and not yet written, or a post not
    yet given to the session. *)
Definition abandon (o : Process) (w : World) : World :=
  match o with
  | StageOp _ _ (SMark Created) => note_lapse SpawnUnmarked w
  | StageOp _ r (SSend false) => if declared r (db w) then note_lapse SubmittedUnsent w else w
  | PostOp _ _ _ (PSend | PAbort _) => note_lapse PostUnsent w
  | _ => w
  end.

Definition step (s : System) (e : Event) : System :=
  match e with
  | BeginStage p =>
      match process s with
      | None => if fork_is_fresh p (world s) then mkSystem (prepare_fork p (world s)) (Some (StageOp p (clock s) SRelease)) (clock s + 1) else s
      | Some _ => s
      end
  | BeginPost p =>
      match process s, workspace (fallback p) with
      | None, Current => mkSystem (world s) (Some (PostOp p (clock s) None PRelease)) (clock s + 1)
      | _, _ => s
      end
  | Call c d =>
      match process s with
      | Some (StageOp p r pc) =>
          let '(w, next) := stage_step c p r pc (world s) in
          mkSystem w ((λ pc, StageOp p r pc) <$> next) (clock s)
      | Some (PostOp p r inherited pc) =>
          match post_step c d p r inherited pc (world s) with
          | (w, Returns) => mkSystem w None (clock s)
          | (w, Goes inherited pc) => mkSystem w (Some (PostOp p r inherited pc)) (clock s)
          | (w, FallsBack) => mkSystem w (Some (StageOp (fallback p) (clock s) SRelease)) (clock s + 1)
          end
      | None => s
      end
  | ServerEnds => match process s with Some o => mkSystem (abandon o (world s)) None (clock s) | None => s end
  | Startup daemon_answers q removes =>
      match process s with
      | None => mkSystem (reconcile_lifecycle_operations (if daemon_answers then Some (live (world s)) else None) q removes (world s)) None (clock s)
      | Some _ => s
      end
  | SessionExits => mkSystem (set_live None (world s)) (process s) (clock s)
  | TaskCloses => mkSystem (set_db (set_closed (db (world s))) (world s)) (process s) (clock s)
  | Verdict st =>
      match process s, finish_latest_running_stage_run st None None (db (world s)) with
      | None, Some (d, _) => mkSystem (set_db d (world s)) None (clock s)
      | _, _ => s
      end
  | Overlaps removes =>
      (* the guard of a second operation that does not wait for the first *)
      mkSystem (release_lifecycle_operation_for_task true DbAnswers true removes (world s)).1 (process s) (clock s)
  end.

Definition run_from (s : System) (es : list Event) : System := foldl step s es.

(** A task in its first stage, its agent not started through an operation. *)
Definition initial (s : str) (b : option str) (l : option str) : System :=
  mkSystem (mkWorld (mkTaskDb false s b [] None None [] None []) ∅ l ∅ [] [] [] [] [] []) None 1.

End Server.
