(* ===== verification/StageOpsSpec.v ===== *)
(** * Stage operations: what the statements and a reconciliation change

    The rows and fields each statement leaves alone, as rewriting rules, and the five
    ways a reconciliation goes. *)

From S2P Require Import Prelude RustStd StageRuns StageOps.
Local Open Scope Z_scope.

(** ** What the statements leave alone *)

Section Frame.
Context {P : Type}.
Implicit Types d : TaskDb P.

Lemma intent_insert_stage_run x d : intent (insert_stage_run x d) = intent d.
Proof. unfold insert_stage_run. by case_bool_decide. Qed.

Lemma runs_insert_stage_run x d : runs (insert_stage_run x d) = runs d ++ [x].
Proof. unfold insert_stage_run. by case_bool_decide. Qed.

Lemma closed_insert_stage_run x d : closed (insert_stage_run x d) = closed d.
Proof. unfold insert_stage_run. by case_bool_decide. Qed.

Lemma stage_insert_stage_run x d : task_stage (insert_stage_run x d) = task_stage d.
Proof. unfold insert_stage_run. by case_bool_decide. Qed.

Lemma intent_update_activity a d : intent (update_pipeline_item_activity a d) = intent d.
Proof. unfold update_pipeline_item_activity. by destruct (closed d). Qed.

Lemma runs_update_activity a d : runs (update_pipeline_item_activity a d) = runs d.
Proof. unfold update_pipeline_item_activity. by destruct (closed d). Qed.

Lemma closed_update_activity a d : closed (update_pipeline_item_activity a d) = closed d.
Proof. unfold update_pipeline_item_activity. by destruct (closed d) eqn:?. Qed.

Lemma stage_update_activity a d : task_stage (update_pipeline_item_activity a d) = task_stage d.
Proof. unfold update_pipeline_item_activity. by destruct (closed d). Qed.

Lemma intent_update_session s d : intent (update_pipeline_item_agent_session_id s d) = intent d.
Proof. unfold update_pipeline_item_agent_session_id. by destruct (closed d). Qed.

Lemma runs_update_session s d : runs (update_pipeline_item_agent_session_id s d) = runs d.
Proof. unfold update_pipeline_item_agent_session_id. by destruct (closed d). Qed.

Lemma closed_update_session s d : closed (update_pipeline_item_agent_session_id s d) = closed d.
Proof. unfold update_pipeline_item_agent_session_id. by destruct (closed d) eqn:?. Qed.

Lemma stage_update_session s d : task_stage (update_pipeline_item_agent_session_id s d) = task_stage d.
Proof. unfold update_pipeline_item_agent_session_id. by destruct (closed d). Qed.

Lemma runs_delete_intent i d : runs (delete_lifecycle_operation_intent i d) = runs d.
Proof. unfold delete_lifecycle_operation_intent. by destruct (has_lifecycle_operation i d). Qed.

Lemma stage_delete_intent i d : task_stage (delete_lifecycle_operation_intent i d) = task_stage d.
Proof. unfold delete_lifecycle_operation_intent. by destruct (has_lifecycle_operation i d). Qed.

Lemma closed_delete_intent i d : closed (delete_lifecycle_operation_intent i d) = closed d.
Proof. unfold delete_lifecycle_operation_intent. by destruct (has_lifecycle_operation i d). Qed.

Lemma intent_delete_intent i d : intent (delete_lifecycle_operation_intent i d) = None ∨ intent (delete_lifecycle_operation_intent i d) = intent d.
Proof. unfold delete_lifecycle_operation_intent. destruct (has_lifecycle_operation i d); [by left|by right]. Qed.

Lemma intent_delete_own i d o : intent d = Some o → intent_id o = i → intent (delete_lifecycle_operation_intent i d) = None.
Proof. intros Ho <-. unfold delete_lifecycle_operation_intent, has_lifecycle_operation. by rewrite Ho, Z.eqb_refl. Qed.

Lemma finish_stage_run_Some i s res fb d d' :
  finish_stage_run i s res fb d = Some d' →
  d' = append_task_event (RunFinished i s) (set_runs (update_run i (with_outcome s res fb) (runs d)) d).
Proof. unfold finish_stage_run. destruct (stage_run d i); [by intros [= <-]|done]. Qed.

Lemma finish_latest_Some s res fb d d' o :
  finish_latest_running_stage_run s res fb d = Some (d', o) →
  d' = d ∨ ∃ i, d' = append_task_event (RunFinished i s) (set_runs (update_run i (with_outcome s res fb) (runs d)) d).
Proof.
  unfold finish_latest_running_stage_run. destruct (last (running_stage_runs d)) as [r|]; [|intros [= <- _]; by left].
  destruct (finish_stage_run (id r) s res fb d) as [d1|] eqn:Hf; [|done]. intros [= <- _]. right. exists (id r). by apply finish_stage_run_Some in Hf.
Qed.

Lemma update_phase_own i ph d o :
  intent d = Some o → intent_id o = i →
  update_lifecycle_operation_phase i ph d = (set_intent (Some (mkIntent i (intent_kind o) ph (payload o))) d, true).
Proof. intros Ho <-. unfold update_lifecycle_operation_phase. by rewrite Ho, Z.eqb_refl. Qed.

End Frame.

#[export] Hint Rewrite @intent_insert_stage_run @runs_insert_stage_run @closed_insert_stage_run @stage_insert_stage_run
  @intent_update_activity @runs_update_activity @closed_update_activity @stage_update_activity
  @intent_update_session @runs_update_session @closed_update_session @stage_update_session
  @runs_delete_intent @stage_delete_intent @closed_delete_intent : stage_db.

Section Server.
Context {T : Task}.

Lemma fail_db_runs i p d :
  runs (fail_lifecycle_operation_db i p d) = runs d
  ∨ runs (fail_lifecycle_operation_db i p d) = update_run (p_run_id p) (with_outcome Failed (Some (lit "failed to start stage run after server restart")) spawn_failed) (runs d).
Proof.
  unfold fail_lifecycle_operation_db. destruct (stage_run d (p_run_id p)) as [x|] eqn:Hx.
  - destruct (decide (status x = Running)) as [Hr|Hr].
    + right. rewrite (bool_decide_true (status x = Running)) by done. unfold finish_stage_run. rewrite Hx. cbn [from_option]. cbv zeta.
      case_bool_decide; by autorewrite with stage_db.
    + left. rewrite (bool_decide_false (status x = Running)) by done. cbv zeta. case_bool_decide; by autorewrite with stage_db.
  - left. cbv zeta. case_bool_decide; by autorewrite with stage_db.
Qed.

Lemma fail_db_frame i p d :
  intent d = Some i →
  intent (fail_lifecycle_operation_db i p d) = None
  ∧ task_stage (fail_lifecycle_operation_db i p d) = task_stage d ∧ closed (fail_lifecycle_operation_db i p d) = closed d.
Proof.
  intros Hi. unfold fail_lifecycle_operation_db.
  set (d1 := match stage_run d (p_run_id p) with Some _ => _ | None => d end).
  assert (intent d1 = Some i ∧ task_stage d1 = task_stage d ∧ closed d1 = closed d) as (H1 & H2 & H3).
  { subst d1. destruct (stage_run d (p_run_id p)) as [x|] eqn:Hx; [|done]. case_bool_decide; [|done].
    unfold finish_stage_run. by rewrite Hx. }
  cbv zeta. split; [|case_bool_decide; autorewrite with stage_db; by rewrite ?H2, ?H3].
  eapply intent_delete_own; [|done]. case_bool_decide; by autorewrite with stage_db.
Qed.

(** A fork is removed or it is not; nothing else of the world changes but the rows. *)
Lemma fail_operation_world i p ws rm w :
  fail_lifecycle_operation i p ws rm w = set_db (fail_lifecycle_operation_db i p (db w)) w
  ∨ ∃ b path, ws = RollBackFreshFork ∧ p_branch p = Some b ∧ rollback_on_failure p = true
      ∧ fail_lifecycle_operation i p ws rm w = remove_prepared_worktree (mkWorkspace b path) (set_db (fail_lifecycle_operation_db i p (db w)) w).
Proof.
  unfold fail_lifecycle_operation. destruct ws; [|by left]. destruct (p_worktree_path p) as [path|]; [|by left].
  destruct (p_branch p) as [b|]; [|by left]. destruct (rollback_on_failure p); cbn [andb]; [|by left]. destruct rm; [|by left].
  right. by exists b, path.
Qed.

Lemma project_stage_Some next ws t psid d :
  closed d = false →
  ∃ d', project_stage next ws t psid d = Some d' ∧ intent d' = intent d ∧ runs d' = runs d ∧ closed d' = false ∧ task_stage d' = next
        ∧ task_branch d' = (match ws with Some (b, _) => Some b | None => task_branch d end)
        ∧ worktree d' = (match ws with Some (b, path) => Some (path, b) | None => worktree d end)
        ∧ agent_session_id d' = psid.
Proof.
  intros Hc. destruct d as [c st br ac se wt rs it ev]. cbn in Hc. subst c.
  destruct ws as [[b path]|]; eexists; (split; [reflexivity|]); unfold append_stage_changed_event; case_bool_decide; by cbn.
Qed.

Lemma project_stage_closed next ws t psid d : closed d = true → project_stage next ws t psid d = None.
Proof.
  intros Hc. unfold project_stage, update_pipeline_item_stage_and_branch_with_trigger, update_pipeline_item_stage_with_trigger.
  by destruct ws as [[b path]|]; rewrite Hc.
Qed.

(** ** Reconciliation *)

Lemma commit_post_spec i p d o :
  intent d = Some o → intent_id o = i →
  ∃ d', commit_post i p d = Some d' ∧ intent d' = Some (mkIntent i (intent_kind o) Committed (payload o)) ∧ runs d' = runs (bind_post p d)
        ∧ task_stage d' = task_stage d ∧ closed d' = closed d.
Proof.
  intros Ho Hi. unfold commit_post.
  assert (intent (bind_post p d) = intent d ∧ task_stage (bind_post p d) = task_stage d ∧ closed (bind_post p d) = closed d) as (H1 & H2 & H3).
  { unfold bind_post. destruct (stage_run d (q_run_id p)); [done|]. rewrite intent_insert_stage_run, stage_insert_stage_run, closed_insert_stage_run.
    destruct (q_inherited_run_id p) as [j|]; [|done]. destruct (stage_run d j) as [x|] eqn:Hx; [|done]. case_bool_decide; [|done].
    unfold finish_stage_run. by rewrite Hx. }
  rewrite (update_phase_own i Committed _ o) by (by rewrite ?H1). cbn. eexists. by split_and!.
Qed.

Lemma afterwards_keeps {A} (g : Db → A) q f d : g (f d) = g d → g (afterwards q f d) = g d.
Proof. by destruct q. Qed.

(** What is left of an operation that was not settled to the end: itself, a post at
    most in a later phase. *)
Definition still_open (i i' : Intent Payload) : Prop :=
  intent_id i' = intent_id i ∧ intent_kind i' = intent_kind i ∧ payload i' = payload i
  ∧ (phase i' = phase i ∨ ∃ p, payload i = PPost p).

Lemma still_open_refl i : still_open i i.
Proof. split_and!; auto. Qed.

Lemma finalize_post_spec q i p d :
  intent d = Some i →
  let d' := finalize_post_operation q (intent_id i) p d in
  (intent d' = None ∨ q ≠ DbAnswers ∧ ∃ i', intent d' = Some i' ∧ intent_id i' = intent_id i ∧ intent_kind i' = intent_kind i ∧ payload i' = payload i)
  ∧ runs d' = runs (bind_post p d) ∧ task_stage d' = task_stage d ∧ closed d' = closed d.
Proof.
  intros Hi d'. subst d'. unfold finalize_post_operation.
  destruct (commit_post_spec (intent_id i) p d i Hi eq_refl) as (d' & -> & H1 & H2 & H3 & H4).
  destruct q; cbn [afterwards]; autorewrite with stage_db; (split; [|by split_and!]); [left; by eapply intent_delete_own|right; split; [done|]; by eexists..].
Qed.

Lemma retire_intent q i d : intent d = Some i → intent (retire_unreconcilable_lifecycle_operation q i d) = None.
Proof.
  intros Hi. unfold retire_unreconcilable_lifecycle_operation. rewrite (afterwards_keeps intent) by done. by eapply intent_delete_own.
Qed.

Lemma retire_stage q i d : task_stage (retire_unreconcilable_lifecycle_operation q i d) = task_stage d.
Proof. unfold retire_unreconcilable_lifecycle_operation. rewrite (afterwards_keeps task_stage) by done. apply stage_delete_intent. Qed.

Lemma reconcile_stage_payload_Some i p ws d :
  closed d = false → payload_workspace p = Some ws →
  ∃ d', reconcile_stage_operation_payload (intent_id i) p d = Some d' ∧ (intent d = Some i → intent d' = None) ∧ (intent d' = None ∨ intent d' = intent d)
        ∧ runs d' = runs d ∧ closed d' = false
        ∧ task_stage d' = p_next_stage p
        ∧ task_branch d' = (match ws with Some (b, _) => Some b | None => task_branch d end)
        ∧ worktree d' = (match ws with Some (b, path) => Some (path, b) | None => worktree d end)
        ∧ agent_session_id d' = p_provider_session_id p.
Proof.
  intros Hc Hws. unfold reconcile_stage_operation_payload. rewrite Hc, Hws. cbn [mbind option_bind].
  destruct (project_stage_Some (p_next_stage p) ws (default Unspecified (parse_stage_trigger (p_trigger p))) (p_provider_session_id p) d Hc)
    as (d1 & -> & H1 & H2 & H3 & H4 & H5 & H6 & H7).
  cbn [mbind option_bind]. eexists. split; [reflexivity|]. autorewrite with stage_db. split_and!; try done.
  - intros Hi. eapply intent_delete_own; [by rewrite H1|done].
  - destruct (intent_delete_intent (intent_id i) d1) as [?|He]; [by left|right]. by rewrite He.
  - unfold delete_lifecycle_operation_intent. by destruct (has_lifecycle_operation (intent_id i) d1).
  - unfold delete_lifecycle_operation_intent. by destruct (has_lifecycle_operation (intent_id i) d1).
  - unfold delete_lifecycle_operation_intent. by destruct (has_lifecycle_operation (intent_id i) d1).
Qed.

(** The operation is taken for submitted: its intent says so, or the session that was
    to be is live. *)
Definition taken_for_submitted (w : World) (i : Intent Payload) (p : StageOperationPayload) : Prop :=
  phase i = Submitted ∨ phase i = SpawnReady ∧ p_session_id p = session_id_of_task ∧ live w = Some (p_cwd p).

(** What an intent must decode to for its operation to be reconciled. *)
Definition well_formed (i : Intent Payload) : Prop :=
  match intent_kind i, payload i with
  | OpPost, PPost p => q_task_id p = task_id
  | OpStageSpawn, PStage p => p_task_id p = task_id ∧ is_Some (payload_workspace p)
  | _, _ => False
  end.

(** The ways a reconciliation goes. *)
Inductive ReconcileSpec (q : Database) (removes : bool) (w : World) (i : Intent Payload) : World → Prop :=
  | RNothing : q = DbFails → ReconcileSpec q removes w i w
  | RPost p : payload i = PPost p → ReconcileSpec q removes w i (set_db (finalize_post_operation q (intent_id i) p (db w)) w)
  | RRetired : ¬ well_formed i → ReconcileSpec q removes w i (set_db (retire_unreconcilable_lifecycle_operation q i (db w)) w)
  | RLanded p ws d : payload i = PStage p → payload_workspace p = Some ws → closed (db w) = false → taken_for_submitted w i p →
      reconcile_stage_operation_payload (intent_id i) p (db w) = Some d →
      ReconcileSpec q removes w i (note_landed (p_run_id p) (p_next_stage p) (set_db d w))
  | RKept p : payload i = PStage p → closed (db w) = true → phase i = Submitted →
      ReconcileSpec q removes w i (set_db (afterwards q (append_task_event (LifecycleOperationRetired (intent_id i) (p_branch p)))
                                             (fail_lifecycle_operation_db i p (db w))) w)
  | RFailed p : payload i = PStage p → phase i ≠ Submitted → (closed (db w) = true ∨ ¬ taken_for_submitted w i p) →
      ReconcileSpec q removes w i (fail_lifecycle_operation i p RollBackFreshFork removes w).

Lemma reconcile_spec q removes w i :
  ReconcileSpec q removes w i (reconcile_lifecycle_operation (Some (live w)) q removes i w).
Proof.
  unfold reconcile_lifecycle_operation. case_bool_decide as Hq; [by apply RNothing|].
  destruct (intent_kind i) eqn:Hk, (payload i) as [p|p|] eqn:Hp;
    try (apply RRetired; unfold well_formed; rewrite Hk, Hp; by auto).
  - case_bool_decide; [by apply RPost|]. apply RRetired. unfold well_formed. by rewrite Hk, Hp.
  - case_bool_decide as Ht; cbn [negb]; [|apply RRetired; unfold well_formed; rewrite Hk, Hp; by intros []].
    destruct (payload_workspace p) as [ws|] eqn:Hws; [|apply RRetired; unfold well_formed; rewrite Hk, Hp, Hws; by intros [? []]].
    destruct (closed (db w)) eqn:Hc.
    + case_bool_decide as Hs; [|apply RFailed; by auto]. destruct (fail_operation_world i p Keep removes w) as [-> |(b & path & ? & _)]; [|done].
      exact (RKept q removes w i p Hp Hc Hs).
    + destruct (bool_decide (phase i = Submitted) || bool_decide (phase i = SpawnReady) && bool_decide (p_session_id p = session_id_of_task ∧ live w = Some (p_cwd p))) eqn:Hb.
      * assert (taken_for_submitted w i p) as Hts.
        { apply orb_prop in Hb as [?%bool_decide_eq_true|[?%bool_decide_eq_true [? ?]%bool_decide_eq_true]%andb_prop]; [by left|by right]. }
        destruct (reconcile_stage_payload_Some i p ws (db w) Hc Hws) as (d & Hd & _). rewrite Hd. by eapply RLanded.
      * apply orb_false_iff in Hb as [Hb1%bool_decide_eq_false Hb2]. apply RFailed; [done|done|]. right. intros [?|(? & ? & ?)]; [done|].
        rewrite !bool_decide_true in Hb2 by done. done.
Qed.

(** With the daemon silent a stage move is left for later, as when the database fails;
    the rest does not depend on the daemon. *)
Lemma reconcile_silent q removes w i :
  ∃ q', reconcile_lifecycle_operation None q removes i w = reconcile_lifecycle_operation (Some (live w)) q' removes i w.
Proof.
  destruct (decide (q = DbFails)) as [->|Hq]; [by exists DbFails|].
  unfold reconcile_lifecycle_operation. rewrite (bool_decide_false (q = DbFails)) by done.
  destruct (intent_kind i), (payload i) as [p|p|]; try (exists q; by rewrite (bool_decide_false (q = DbFails))).
  destruct (payload_workspace p); [|exists q; by rewrite (bool_decide_false (q = DbFails))].
  case_bool_decide as Ht; cbn [negb]; [exists DbFails|exists q; rewrite (bool_decide_false (q = DbFails)) by done].
  - done.
  - by cbn [negb].
Qed.

(** A row fails where its status is turned; no other status is touched. *)
Lemma update_run_failed x l r res fb : r ∈ update_run x (with_outcome Failed res fb) l → id r = x → status r = Failed.
Proof.
  unfold update_run. intros (y & -> & Hy)%list_elem_of_fmap. destruct (Z.eqb_spec (id y) x); [done|]. by intros ?.
Qed.

Lemma fail_db_run_closed i p d r : r ∈ runs (fail_lifecycle_operation_db i p d) → id r = p_run_id p → NoDup (map id (runs d)) → status r ≠ Running.
Proof.
  intros Hr Hid Hn. unfold fail_lifecycle_operation_db in Hr. destruct (stage_run d (p_run_id p)) as [x|] eqn:Hx.
  - destruct (decide (status x = Running)) as [Hs|Hs].
    + rewrite (bool_decide_true (status x = Running)) in Hr by done. unfold finish_stage_run in Hr. rewrite Hx in Hr. cbn [from_option] in Hr.
      cbv zeta in Hr. assert (r ∈ update_run (p_run_id p) (with_outcome Failed (Some (lit "failed to start stage run after server restart")) spawn_failed) (runs d)) as Hr'.
      { revert Hr. case_bool_decide; by autorewrite with stage_db. }
      by rewrite (update_run_failed _ _ _ _ _ Hr' Hid).
    + rewrite (bool_decide_false (status x = Running)) in Hr by done. cbv zeta in Hr.
      assert (r ∈ runs d) as Hr' by (revert Hr; case_bool_decide; by autorewrite with stage_db).
      apply find_some in Hx as [Hx Hxi%Z.eqb_eq]. apply list_elem_of_In in Hx. apply list_elem_of_lookup in Hx as [a Ha], Hr' as [b Hb].
      assert (a = b) as <- by (eapply (NoDup_lookup _ a b (id r) Hn); rewrite list_lookup_fmap; [by rewrite Ha, <- Hxi in *; cbn; congruence|by rewrite Hb]).
      congruence.
  - cbv zeta in Hr. assert (r ∈ runs d) as Hr' by (revert Hr; case_bool_decide; by autorewrite with stage_db).
    apply list_elem_of_In in Hr'. pose proof (find_none _ _ Hx _ Hr') as Hf. cbn in Hf. lia.
Qed.

End Server.
