(* ===== verification/StageWork.v ===== *)
(** * Stage operations: the forks

    By induction on the history: a fork an agent was started in is removed only in
    two named circumstances. *)

From S2P Require Import Prelude RustStd StageRuns StageOps StageOpsSpec.
Local Open Scope Z_scope.

Section Server.
Context {T : Task}.

(** ** What a fork holds *)

(** No agent has been started in the fork of the spawn. *)
Definition untouched (p : PreparedStageRunSpawn) (w : World) : Prop :=
  ∀ f, workspace p = Forked f → branch f ∉ ran w.

Definition own_intent (p : PreparedStageRunSpawn) (r : Z) (ph : Phase) : Intent Payload :=
  mkIntent r OpStageSpawn ph (PStage (stage_operation_payload p r)).

(** Where the operation is, what is open, and whether its agent has been started. *)
Definition op_holds (w : World) (o : Process) : Prop :=
  match o with
  | StageOp p r SRelease => untouched p w
  | StageOp p r (SSetup | SRollbackSetup | SPersist) => intent (db w) = None ∧ untouched p w
  | StageOp p r SRecordSetupFailure => intent (db w) = None
  | StageOp p r (SOutgoing | SKill | SShell | SReady) => intent (db w) = Some (own_intent p r Prepared) ∧ untouched p w
  | StageOp p r SRecord => intent (db w) = Some (own_intent p r SpawnReady) ∧ untouched p w
  | StageOp p r SDeclare => intent (db w) = Some (own_intent p r SpawnReady) ∧ untouched p w ∧ headless p = true
  | StageOp p r (SSend _ | SMark (Refused | Redirected) | SReply (Refused | Redirected) | SWithdraw | SFailRun | SAbort) =>
      (∃ ph, intent (db w) = Some (own_intent p r ph)) ∧ untouched p w
  | StageOp p r (SMark Created) => ∃ ph, intent (db w) = Some (own_intent p r ph)
  | StageOp p r (SReply Created | SCommit | SKillStale | SFailStale | SRollbackStale) =>
      ∃ ph, intent (db w) = Some (own_intent p r ph) ∧ (ph = Submitted ∨ SpawnUnmarked ∈ lapses w)
  | StageOp p r SRollback => (intent (db w) = None ∨ ∃ ph, intent (db w) = Some (own_intent p r ph)) ∧ untouched p w
  | PostOp p r _ pc =>
      workspace (fallback p) = Current
      ∧ match pc with
        | PRelease => True
        | PInherit | PPersist => intent (db w) = None
        | _ => ∃ ph q, intent (db w) = Some (mkIntent r OpPost ph (PPost q))
        end
  end.

(** The agent of a fork whose removal an open intent may order has not been started,
    or its start is about to be noted. *)
Definition intent_safe (w : World) (o : option Process) : Prop :=
  ∀ i p b, intent (db w) = Some i → payload i = PStage p → phase i ≠ Submitted → rollback_on_failure p = true → p_branch p = Some b → b ∈ ran w →
    SpawnUnmarked ∈ lapses w ∨ ∃ q r, o = Some (StageOp q r (SMark Created)).

Definition work_kept (w : World) : Prop := lost w = [] ∨ SpawnUnmarked ∈ lapses w ∨ StaleRollback ∈ lapses w.

Record WorkInv (s : System) : Prop := mkWorkInv {
  wi_op o : process s = Some o → op_holds (world s) o;
  wi_intent : intent_safe (world s) (process s);
  wi_kept : work_kept (world s)
}.

(** A removal of what no agent was started in loses nothing. *)
Lemma remove_untouched f w : branch f ∉ ran w → remove_prepared_worktree f w = mkWorld (db w) (forks w ∖ {[branch f]}) (live w) (ran w) (lost w) (submitted w) (crossed w) (delivered w) (landed w) (lapses w).
Proof. intros H. unfold remove_prepared_worktree. by rewrite bool_decide_false. Qed.

Lemma rollback_untouched p w :
  untouched p w →
  ∃ f, rollback_prepared_stage_fork p w = mkWorld (db w) f (live w) (ran w) (lost w) (submitted w) (crossed w) (delivered w) (landed w) (lapses w).
Proof.
  intros H. unfold rollback_prepared_stage_fork. destruct (workspace p) as [|f|f] eqn:Hw; [by exists (forks w); destruct w| |by exists (forks w); destruct w].
  rewrite remove_untouched by by apply H. by eexists.
Qed.

(** The fields a removal and a reconciliation may touch beside the rows. *)
Lemma fail_operation_frame i p ws rm w :
  let w' := fail_lifecycle_operation i p ws rm w in
  db w' = fail_lifecycle_operation_db i p (db w) ∧ live w' = live w ∧ ran w' = ran w ∧ submitted w' = submitted w ∧ crossed w' = crossed w ∧ delivered w' = delivered w
  ∧ landed w' = landed w ∧ lapses w' = lapses w
  ∧ (lost w' = lost w ∨ ∃ b, ws = RollBackFreshFork ∧ p_branch p = Some b ∧ rollback_on_failure p = true ∧ b ∈ ran w).
Proof.
  intros w'. subst w'. destruct (fail_operation_world i p ws rm w) as [-> |(b & path & H1 & H2 & H3 & ->)]; [by split_and!; try left|].
  cbn. split_and!; try done. case_bool_decide; [right; by exists b|by left].
Qed.

Lemma reconcile_frame q removes w i :
  intent (db w) = Some i →
  let w' := reconcile_lifecycle_operation (Some (live w)) q removes i w in
  (intent (db w') = None ∨ q ≠ DbAnswers ∧ ∃ i', intent (db w') = Some i' ∧ still_open i i')
  ∧ live w' = live w ∧ ran w' = ran w ∧ submitted w' = submitted w ∧ crossed w' = crossed w ∧ delivered w' = delivered w ∧ lapses w' = lapses w
  ∧ (lost w' = lost w ∨ ∃ p b, payload i = PStage p ∧ phase i ≠ Submitted ∧ rollback_on_failure p = true ∧ p_branch p = Some b ∧ b ∈ ran w).
Proof.
  intros Hi w'. subst w'. destruct (reconcile_spec q removes w i) as [Hq|p Hp|_|p ws d Hp Hws Hc Hts Hd|p Hp Hc Hs|p Hp Hs Hn].
  - split_and!; try done; [|by left]. right. split; [by rewrite Hq|]. exists i. split; [done|apply still_open_refl].
  - destruct (finalize_post_spec q i p (db w) Hi) as ([?|(? & i' & ? & ? & ? & ?)] & _); cbn; split_and!; try done; try (by left).
    right. split; [done|]. exists i'. unfold still_open. split_and!; try done. right. by exists p.
  - cbn [db set_db live ran submitted crossed delivered lapses lost]. split_and!; try done; left; [by apply retire_intent|done].
  - cbn. destruct (reconcile_stage_payload_Some i p ws (db w) Hc Hws) as (d' & Hd' & Hno & _). rewrite Hd in Hd'. injection Hd' as <-.
    split_and!; try done; left; [by apply Hno|done].
  - destruct (fail_db_frame i p (db w) Hi) as (H1 & _). cbn. rewrite (afterwards_keeps intent) by done. split_and!; try done; by left.
  - destruct (fail_operation_frame i p RollBackFreshFork removes w) as (-> & -> & -> & -> & -> & -> & _ & -> & Hlost).
    destruct (fail_db_frame i p (db w) Hi) as (H1 & _). split_and!; try done; [by left|]. destruct Hlost as [?|(b & _ & ? & ? & ?)]; [by left|right]. by exists p, b.
Qed.

(** The guard leaves nothing open where it lets the operation go on. *)
Lemma release_frame answers q last removes w :
  let w' := (release_lifecycle_operation_for_task answers q last removes w).1 in
  let released := (release_lifecycle_operation_for_task answers q last removes w).2 in
  (released = true → intent (db w') = None)
  ∧ (intent (db w') = None ∨ ∃ i i', intent (db w) = Some i ∧ intent (db w') = Some i' ∧ still_open i i')
  ∧ live w' = live w ∧ ran w' = ran w ∧ submitted w' = submitted w ∧ crossed w' = crossed w ∧ delivered w' = delivered w ∧ lapses w' = lapses w
  ∧ (lost w' = lost w ∨ ∃ i p b, intent (db w) = Some i ∧ payload i = PStage p ∧ phase i ≠ Submitted ∧ rollback_on_failure p = true ∧ p_branch p = Some b ∧ b ∈ ran w).
Proof.
  unfold release_lifecycle_operation_for_task, has_lifecycle_operation_for_task.
  assert (intent (db w) = None ∨ ∃ i i', intent (db w) = Some i ∧ intent (db w) = Some i' ∧ still_open i i') as Hsame.
  { destruct (intent (db w)) as [i|]; [right|by left]. exists i, i. split_and!; [done|done|apply still_open_refl]. }
  case_bool_decide; [cbn; split_and!; try done; by left|].
  destruct (intent (db w)) as [i|] eqn:Hi; cbn [negb].
  - rewrite bool_decide_true by by eexists. cbn [negb]. destruct answers; cbn [negb fst snd].
    + unfold reconcile_lifecycle_operations. rewrite Hi. destruct (reconcile_frame q removes w i Hi) as (Hint & -> & -> & -> & -> & -> & -> & Hlost).
      split_and!; try done.
      * intros [_ Hb%negb_true_iff%bool_decide_eq_false]%andb_true_iff. by apply eq_None_not_Some.
      * destruct Hint as [?|(_ & i' & ? & ?)]; [by left|right]. by exists i, i'.
      * destruct Hlost as [?|(p & b & ?)]; [by left|right]. by exists i, p, b.
    + rewrite Hi. split_and!; try done; by left.
  - rewrite bool_decide_false by by intros []. cbn. rewrite Hi. split_and!; try done; by left.
Qed.

(** ** The calls keep the forks *)

Lemma safe_none w o : intent (db w) = None → intent_safe w o.
Proof. intros H i p b Hi. congruence. Qed.

Lemma own_rollback p r b :
  rollback_on_failure (stage_operation_payload p r) = true → p_branch (stage_operation_payload p r) = Some b →
  ∃ f, workspace p = Forked f ∧ branch f = b.
Proof. unfold stage_operation_payload. destruct (workspace p) as [|f|f]; [done| |done]. intros _ [= <-]. by exists f. Qed.

Lemma safe_untouched p r ph w o : intent (db w) = Some (own_intent p r ph) → untouched p w → intent_safe w o.
Proof.
  intros Hi Hu i q b Hi' Hq _ Hr Hb Hin. rewrite Hi in Hi'. injection Hi' as <-. injection Hq as <-.
  destruct (own_rollback p r b Hr Hb) as (f & Hf & <-). by destruct (Hu f Hf).
Qed.

Lemma safe_started p r ph w o :
  intent (db w) = Some (own_intent p r ph) → ph = Submitted ∨ SpawnUnmarked ∈ lapses w → intent_safe w o.
Proof.
  intros Hi [-> |Hl] i q b Hi' Hq Hph _ _ _; [|by left]. rewrite Hi in Hi'. injection Hi' as <-. done.
Qed.

(** An operation that is still open is as safe as it was. *)
Lemma safe_still i i' w w' :
  intent (db w) = Some i → intent (db w') = Some i' → still_open i i' → ran w' = ran w → lapses w' = lapses w →
  intent_safe w None → intent_safe w' None.
Proof.
  intros Hi Hi' (H1 & H2 & H3 & H4) Hr Hl Hs j p b Hj Hp Hph Hrb Hb Hin. rewrite Hi' in Hj. injection Hj as <-.
  rewrite H3 in Hp. destruct H4 as [H4|(p' & H4)]; [|congruence]. rewrite H4 in Hph. rewrite Hr in Hin. rewrite Hl.
  by apply (Hs i p b).
Qed.

Lemma own_declared p r ph (d : Db) : intent d = Some (own_intent p r ph) → declared r d = bool_decide (ph = Submitted).
Proof. intros Hi. unfold declared. rewrite Hi. cbn. apply bool_decide_ext. tauto. Qed.

Lemma safe_post r ph q w o : intent (db w) = Some (mkIntent r OpPost ph (PPost q)) → intent_safe w o.
Proof. intros Hi i p b Hi' Hp. rewrite Hi in Hi'. injection Hi' as <-. done. Qed.

Lemma mark_own p r ph ph' w :
  intent (db w) = Some (own_intent p r ph) → intent (db (mark_phase r ph' w)) = Some (own_intent p r ph').
Proof. intros Hi. unfold mark_phase. cbn [db set_db]. rewrite (update_phase_own r ph' _ _ Hi) by done. done. Qed.

Lemma fail_bound_intent r (d : Db) : intent (fail_bound_stage_run r d) = intent d.
Proof.
  unfold fail_bound_stage_run. destruct (finish_stage_run r Failed _ spawn_failed d) as [d'|] eqn:Hf; [|done].
  rewrite intent_update_session, intent_update_activity. apply finish_stage_run_Some in Hf as ->. done.
Qed.

Lemma finish_running_frame w :
  intent (db (finish_running w)) = intent (db w) ∧ live (finish_running w) = live w ∧ ran (finish_running w) = ran w ∧ lost (finish_running w) = lost w
  ∧ lapses (finish_running w) = lapses w ∧ submitted (finish_running w) = submitted w ∧ crossed (finish_running w) = crossed w ∧ delivered (finish_running w) = delivered w
  ∧ landed (finish_running w) = landed w ∧ task_stage (db (finish_running w)) = task_stage (db w).
Proof.
  unfold finish_running. destruct (finish_latest_running_stage_run Succeeded None None (db w)) as [[d o]|] eqn:Hf; [|done].
  apply finish_latest_Some in Hf as [-> |(i & ->)]; done.
Qed.

(** What holds after a call: of the next one, of the intent, and of what was kept. *)
Definition step_ok (p : PreparedStageRunSpawn) (r : Z) (x : World * option StagePc) : Prop :=
  (∀ pc, x.2 = Some pc → op_holds x.1 (StageOp p r pc)) ∧ intent_safe x.1 ((λ pc, StageOp p r pc) <$> x.2) ∧ work_kept x.1.

Lemma ok_return p r w : intent_safe w None → work_kept w → step_ok p r (w, None).
Proof. done. Qed.

Lemma ok_next p r w pc : op_holds w (StageOp p r pc) → intent_safe w (Some (StageOp p r pc)) → work_kept w → step_ok p r (w, Some pc).
Proof. intros. split_and!; [by intros ? [= <-]|done|done]. Qed.

Ltac next_ok Hi Hu := apply ok_next; [by split|by eapply safe_untouched|done].

Lemma release_ok c p r w :
  untouched p w → intent_safe w (Some (StageOp p r SRelease)) → work_kept w →
  step_ok p r (stage_step c p r SRelease w).
Proof.
  intros Hu Hs Hk. cbn [stage_step].
  destruct (release_frame (answered c) (database c) (ok c) (removes c) w) as (Hrel & Hint & Hl & Hran & _ & _ & _ & Hlap & Hlost).
  destruct (release_lifecycle_operation_for_task (answered c) (database c) (ok c) (removes c) w) as [w' b]. cbn [fst snd] in *.
  assert (untouched p w') as Hu' by (intros f Hf; rewrite Hran; by apply Hu).
  assert (intent_safe w None) as Hs0.
  { intros i q b' Hi Hq Hph Hrb Hb Hin. destruct (Hs i q b' Hi Hq Hph Hrb Hb Hin) as [?|(? & ? & ?)]; [by left|done]. }
  assert (work_kept w') as Hk'.
  { unfold work_kept in *. rewrite Hlap. destruct Hlost as [-> |(i & q & b' & Hi & Hq & Hph & Hrb & Hb & Hin)]; [done|].
    destruct (Hs0 i q b' Hi Hq Hph Hrb Hb Hin) as [?|(? & ? & ?)]; [by right; left|done]. }
  destruct b.
  - apply ok_next; [by split; [apply Hrel|]|by apply safe_none, Hrel|done].
  - destruct (rollback_untouched p w' Hu') as [f Hf]. rewrite Hf. apply ok_return; [|done].
    destruct Hint as [Hint|(i & i' & Hi & Hi' & Ho)]; [by apply safe_none|]. by eapply (safe_still i i' w).
Qed.

Lemma send_ok c p r again w :
  op_holds w (StageOp p r (SSend again)) → work_kept w → step_ok p r (stage_step c p r (SSend again) w).
Proof.
  intros [(ph & Hi) Hu] Hk. cbn [stage_step]. set (o := if again && _ then Refused else outcome c).
  assert (∀ l, work_kept (note_lapse l w)) as Hl by (intros l; unfold work_kept in *; cbn; rewrite !elem_of_cons; tauto).
  destruct (headless p).
  - rewrite (own_declared p r ph (db w) Hi). destruct (crosses c); cbn [negb].
    2:{ destruct (negb again && bool_decide (ph = Submitted)); (apply ok_return; [eapply (safe_untouched p r ph); [exact Hi|exact Hu]|]); [exact (Hl _)|exact Hk]. }
    destruct o; cbn [daemon_reads].
    + rewrite (bool_decide_true (Created = Created)) by done. cbn [andb]. case_bool_decide as Hph; cbn [negb].
      * destruct (written c); [apply ok_next|apply ok_return]; try done; try (eapply (safe_started p r ph); [exact Hi|by left]).
        exists ph. split; [done|by left].
      * destruct (written c); [apply ok_next|apply ok_return]; try exact (Hl _); try (eapply (safe_started p r ph); [exact Hi|right; by left]).
        exists ph. split; [done|right; by left].
    + rewrite (bool_decide_false (Refused = Created)) by done. destruct (written c); [apply ok_next|apply ok_return]; try done; try (eapply (safe_untouched p r ph); [exact Hi|exact Hu]).
      split; [by exists ph|done].
    + rewrite (bool_decide_false (Redirected = Created)) by done. destruct (written c); [apply ok_next|apply ok_return]; try done; try (eapply (safe_untouched p r ph); [exact Hi|exact Hu]).
      split; [by exists ph|done].
  - destruct (negb (ok c)); [apply ok_next; [by split; [by exists ph|]|by eapply safe_untouched|done]|].
    destruct (negb (crosses c)); [apply ok_return; [by eapply safe_untouched|done]|].
    destruct o eqn:Ho; cbn [daemon_reads].
    + destruct (written c).
      * apply ok_next; [by exists ph| |done]. intros ? ? ? ? ? ? ? ? ?. right. by eexists _, _.
      * rewrite bool_decide_true by done. apply ok_return.
        { intros ? ? ? ? ? ? ? ? ?. left. cbn. by left. }
        unfold work_kept in *. cbn. rewrite !elem_of_cons. tauto.
    + destruct (written c); [apply ok_next; [by split; [by exists ph|]|by eapply safe_untouched|done]|].
      rewrite bool_decide_false by done. apply ok_return; [by eapply safe_untouched|done].
    + destruct (written c); [apply ok_next; [by split; [by exists ph|]|by eapply safe_untouched|done]|].
      rewrite bool_decide_false by done. apply ok_return; [by eapply safe_untouched|done].
Qed.

(** The calls before the spawn. *)
Lemma early_ok c p r pc w :
  pc ∈ [SSetup; SRollbackSetup; SRecordSetupFailure; SPersist; SOutgoing; SKill; SShell; SReady; SRecord; SDeclare] →
  op_holds w (StageOp p r pc) → work_kept w → step_ok p r (stage_step c p r pc w).
Proof.
  intros Hpc Hh Hk. repeat (apply elem_of_cons in Hpc as [-> |Hpc]; cbn [op_holds] in Hh); [..|by apply not_elem_of_nil in Hpc]; cbn [stage_step].
  - destruct Hh as [Hi Hu]. destruct (ok c); (apply ok_next; [by split|by apply safe_none|done]).
  - destruct Hh as [Hi Hu]. destruct (rollback_untouched p w Hu) as [f ->]. apply ok_next; [done|by apply safe_none|done].
  - destruct (ok c); (apply ok_return; [apply safe_none|done]); [|done]. cbn [db set_db].
    by rewrite intent_insert_stage_run, intent_update_activity.
  - destruct Hh as [Hi Hu]. destruct (ok c); [|apply ok_return; [by apply safe_none|done]].
    unfold persist_stage_operation_intent, insert_lifecycle_operation_intent. rewrite Hi. next_ok Hi Hu.
  - destruct Hh as [Hi Hu]. destruct (ok c); [|apply ok_return; [by eapply safe_untouched|done]].
    destruct (finish_running_frame w) as (H1 & _ & H3 & H4 & H5 & _). rewrite <- H1 in Hi.
    assert (untouched p (finish_running w)) as Hu' by (intros f Hf; rewrite H3; by apply Hu).
    apply ok_next; [by split|by eapply safe_untouched|]. unfold work_kept in *. by rewrite H4, H5.
  - destruct Hh as [Hi Hu]. destruct (ok c); (apply ok_next; [|by eapply safe_untouched|done]); (split; [done|done] || by split; [by eexists|]).
  - destruct Hh as [Hi Hu]. assert (op_holds w (StageOp p r SReady) ∧ op_holds w (StageOp p r SAbort)) as [H1 H2] by (split; (split; [|done]); [done|by eexists]).
    destruct (workspace p); [|destruct (ok c)..]; (apply ok_next; [done|by eapply safe_untouched|done]).
  - destruct Hh as [Hi Hu]. destruct (ok c); [|apply ok_return; [by eapply safe_untouched|done]].
    rewrite (update_phase_own r SpawnReady (db w) _ Hi) by done. next_ok Hi Hu.
  - destruct Hh as [Hi Hu]. destruct (ok c && _); [|apply ok_return; [by eapply safe_untouched|done]].
    assert (intent (db (set_db (insert_stage_run (spawn_run p r Running None (sp_feedback p) (Some (sp_cwd p)) true) (db w)) w)) = Some (own_intent p r SpawnReady)) as Hi'
      by (cbn [db set_db]; by rewrite intent_insert_stage_run).
    apply ok_next; [|by eapply safe_untouched|done]. destruct (headless p) eqn:Hhead; [done|]. split; [by exists SpawnReady|done].
  - destruct Hh as (Hi & Hu & _). destruct (ok c); [|apply ok_next; [by split; [by exists SpawnReady|]|by eapply safe_untouched|done]].
    assert (intent (db (mark_phase r Submitted (note_submitted r w))) = Some (own_intent p r Submitted)) as Hi' by (by eapply (mark_own p r SpawnReady)).
    apply ok_next; [by split; [by exists Submitted|]|by eapply safe_untouched|done].
Qed.

(** The calls after it. *)
Lemma late_ok c p r pc w :
  pc ∉ [SRelease; SSetup; SRollbackSetup; SRecordSetupFailure; SPersist; SOutgoing; SKill; SShell; SReady; SRecord; SDeclare; SSend true; SSend false] →
  op_holds w (StageOp p r pc) → work_kept w → step_ok p r (stage_step c p r pc w).
Proof.
  intros Hpc Hh Hk. destruct pc as [| | | | | | | | | | |[]|o|o| | | | | | | |]; try (exfalso; apply Hpc; clear; set_solver); cbn [stage_step].
  - destruct o; cbn [op_holds] in Hh.
    1: { destruct Hh as [ph Hi]. destruct (ok c).
         - apply ok_next; [exists Submitted; split; [by eapply mark_own|by left]|eapply safe_started; [by eapply mark_own|by left]|done].
         - rewrite bool_decide_true by done. apply ok_next; [exists ph; split; [done|right; by left]|eapply safe_started; [done|right; by left]|].
           right; left; by left. }
    all: destruct Hh as [(ph & Hi) Hu]; destruct (ok c).
    all: try (apply ok_next; [split; [exists Submitted; by eapply mark_own|done]|eapply safe_started; [by eapply mark_own|by left]|done]).
    all: rewrite bool_decide_false by done; apply ok_next; [|by eapply safe_untouched|done].
    all: split; [by exists ph|done].
  - destruct o; cbn [op_holds] in Hh.
    1: { destruct Hh as (ph & Hi & Hs). destruct (answered c); cbn [negb].
         - apply ok_next; [by exists ph|by eapply safe_started|done].
         - apply ok_return; [by eapply safe_started|done]. }
    all: destruct Hh as [(ph & Hi) Hu]; destruct (answered c); cbn [negb]; [|apply ok_return; [by eapply safe_untouched|done]].
    + apply ok_next; [by split; [by exists ph|]|by eapply safe_untouched|done].
    + apply ok_next; [by split; [by exists ph|]|by eapply safe_untouched|done].
  - cbn [op_holds] in Hh. destruct Hh as [(ph & Hi) Hu]. destruct (headless p); [|destruct (ok c)].
    + apply ok_next; [by split; [exists ph|]|by eapply safe_untouched|done].
    + apply ok_next; [split; [exists SpawnReady; by eapply mark_own|done]|eapply safe_untouched; [by eapply mark_own|done]|done].
    + apply ok_next; [by split; [exists ph|]|by eapply safe_untouched|done].
  - cbn [op_holds] in Hh. destruct Hh as (ph & Hi & Hs). destruct (ok c); cbn [negb]; [|apply ok_return; [by eapply safe_started|done]].
    destruct (reconcile_stage_operation_db p r (db w)) as [d|] eqn:Hd; [|apply ok_next; [by exists ph|by eapply safe_started|done]].
    apply ok_return; [|done]. apply safe_none. cbn. unfold reconcile_stage_operation_db in Hd. destruct (closed (db w)) eqn:Hc; [done|].
    destruct (project_stage_Some (next_stage p) (prepared_workspace p) (sp_trigger p) (sp_provider_session_id p) (db w) Hc) as (d' & Hd' & H1 & _).
    rewrite Hd' in Hd. cbn [mbind option_bind] in Hd. injection Hd as <-. eapply intent_delete_own; [by rewrite H1, Hi|done].
  - destruct Hh as [(ph & Hi) Hu]. destruct (ok c).
    + assert (intent (db (set_db (fail_bound_stage_run r (db w)) w)) = Some (own_intent p r ph)) as Hi' by (cbn [db set_db]; by rewrite fail_bound_intent).
      apply ok_next; [split; [by exists ph|done]|by eapply safe_untouched|done].
    + apply ok_next; [split; [by exists ph|done]|by eapply safe_untouched|].
      unfold work_kept in *. cbn. rewrite !elem_of_cons. tauto.
  - destruct Hh as [(ph & Hi) Hu]. destruct (ok c).
    + assert (intent (db (set_db (delete_lifecycle_operation_intent r (db w)) w)) = None) as Hi' by (cbn [db set_db]; by eapply intent_delete_own).
      apply ok_next; [split; [by left|done]|by apply safe_none|done].
    + apply ok_next; [split; [right; by exists ph|done]|by eapply safe_untouched|done].
  - destruct Hh as [Hi Hu]. assert (intent_safe w None) as Hs.
    { destruct Hi as [Hi|(ph & Hi)]; [by apply safe_none|by eapply safe_untouched]. }
    destruct (removes c); [|by apply ok_return]. destruct (rollback_untouched p w Hu) as [f ->]. by apply ok_return.
  - destruct Hh as (ph & Hi & Hs). apply ok_next; [exists ph; by destruct (ok c)|eapply (safe_started p r ph); by destruct (ok c)|by destruct (ok c)].
  - destruct Hh as (ph & Hi & Hs). destruct (ok c).
    + assert (intent (db (set_db (fail_bound_stage_run r (db w)) w)) = Some (own_intent p r ph)) as Hi' by (cbn [db set_db]; by rewrite fail_bound_intent).
      apply ok_next; [by exists ph|by eapply safe_started|done].
    + assert (ph = Submitted ∨ SpawnUnmarked ∈ lapses (note_lapse RunUnrecorded w)) as Hs' by (destruct Hs; [by left|right; by right]).
      apply ok_next; [by exists ph|by eapply safe_started|]. unfold work_kept in *. cbn. rewrite !elem_of_cons. tauto.
  - destruct Hh as (ph & Hi & Hs). destruct (removes c); [|apply ok_return; [by eapply safe_started|done]].
    unfold rollback_prepared_stage_fork. apply ok_return; [|right; right; by left].
    eapply (safe_started p r ph); [by destruct (workspace p)|]. destruct Hs as [?|?]; [by left|right]. destruct (workspace p); by right.
Qed.

(** ** The system keeps the forks *)

Definition post_ok (p : PreparedPostDispatch) (r : Z) (x : World * PostNext) : Prop :=
  (∀ inh pc, x.2 = Goes inh pc → op_holds x.1 (PostOp p r inh pc)) ∧ intent_safe x.1 None ∧ work_kept x.1.

Lemma safe_any w o : intent_safe w None → intent_safe w o.
Proof. intros H i p b Hi Hp Hph Hr Hb Hin. destruct (H i p b Hi Hp Hph Hr Hb Hin) as [?|(? & ? & ?)]; [by left|done]. Qed.

Lemma post_step_ok c d p r inh pc w :
  op_holds w (PostOp p r inh pc) → intent_safe w (Some (PostOp p r inh pc)) → work_kept w →
  post_ok p r (post_step c d p r inh pc w).
Proof.
  intros [Hws Hh] Hs Hk. unfold post_ok. assert (intent_safe w None) as Hs'.
  { intros i q b Hi Hp Hph Hrb Hb Hin. destruct (Hs i q b Hi Hp Hph Hrb Hb Hin) as [?|(? & ? & ?)]; [by left|done]. }
  destruct pc as [| | | |fb| |]; cbn [post_step].
  - destruct (release_frame (answered c) (database c) (ok c) (removes c) w) as (Hrel & Hint & Hl & Hran & _ & _ & _ & Hlap & Hlost).
    destruct (release_lifecycle_operation_for_task (answered c) (database c) (ok c) (removes c) w) as [w' b]. cbn [fst snd] in *.
    split_and!.
    + destruct b; [|done]. intros ? ? [= <- <-]. split; [done|by apply Hrel].
    + destruct Hint as [Hint|(i & i' & Hi & Hi' & Ho)]; [by apply safe_none|by eapply (safe_still i i' w)].
    + unfold work_kept in *. rewrite Hlap. destruct Hlost as [-> |(i & q & b' & Hi & Hq & Hph & Hrb & Hb & Hin)]; [done|].
      destruct (Hs' i q b' Hi Hq Hph Hrb Hb Hin) as [?|(? & ? & ?)]; [by right; left|done].
  - assert (∀ x, (x = (w, Returns) ∨ ∃ i, x = (w, Goes i PPersist)) → post_ok p r x) as Hx.
    { intros x [-> |(i & ->)]; split_and!; try done. by intros ? ? [= <- <-]. }
    destruct (negb (ok c)); [by apply Hx; left|]. destruct (latest_stage_run (db w)) as [x|]; [|by apply Hx; right; eexists].
    case_bool_decide; [by apply Hx; left|by apply Hx; right; eexists].
  - destruct (ok c); [|done]. unfold persist_post_operation_intent, insert_lifecycle_operation_intent. rewrite Hh.
    cbn [fst snd]. split_and!; [|by eapply safe_post|done]. intros ? ? [= <- <-]. split; [done|]. by eexists _, _.
  - destruct Hh as (ph & q & Hi). destruct d; cbn [fst snd].
    1-3: split_and!; [intros ? ? [=]; subst; split; [done|by exists ph, q]|by eapply (safe_post r ph q)|done].
    destruct (crosses c); (split_and!; [done|by eapply (safe_post r ph q)|]); [done|].
    unfold work_kept in *. cbn. rewrite !elem_of_cons. tauto.
  - destruct Hh as (ph & q & Hi). destruct (ok c); cbn [fst snd];
      [|split_and!; [done|by eapply safe_post|unfold work_kept in *; cbn; rewrite !elem_of_cons; tauto]].
    split_and!; [by destruct fb| |done]. apply safe_none. cbn [db set_db]. by eapply intent_delete_own.
  - destruct Hh as (ph & q & Hi). destruct (ok c); cbn [fst snd]; [|done].
    destruct (commit_post_spec r (post_operation_payload p r inh) (db w) _ Hi eq_refl) as (d' & -> & Hd & _).
    cbn [fst snd]. split_and!; [|by eapply safe_post|done]. intros ? ? [= <- <-]. split; [done|]. by eexists _, _.
  - destruct Hh as (ph & q & Hi). destruct (ok c); cbn [fst snd]; [|done].
    split_and!; [done| |done]. apply safe_none. cbn [db set_db]. by eapply intent_delete_own.
Qed.

(** An event that leaves the intent, what has run and what was lost. *)
Lemma work_frame w w' o c c' :
  intent (db w') = intent (db w) → ran w' = ran w → lost w' = lost w → lapses w' = lapses w →
  WorkInv (mkSystem w o c) → WorkInv (mkSystem w' o c').
Proof.
  intros H1 H2 H3 H4 [Ha Hb Hc]. cbn in *. split; cbn.
  - intros x Hx. specialize (Ha x Hx). destruct x as [p r pc|p r i pc].
    + destruct pc as [| | | | | | | | | | |[]|[]|[]| | | | | | | |]; cbn [op_holds] in *; unfold untouched in *; rewrite ?H1, ?H2, ?H4; exact Ha.
    + cbn [op_holds] in *. rewrite H1. exact Ha.
  - intros i p b. rewrite H1, H2, H4. apply Hb.
  - unfold work_kept in *. by rewrite H3, H4.
Qed.

Definition guarded (e : Event) : Prop := match e with Overlaps _ => False | _ => True end.

Lemma abandon_frame o w :
  abandon o w = w ∨ ∃ l, abandon o w = note_lapse l w ∧ ((∃ p r, o = StageOp p r (SMark Created)) → l = SpawnUnmarked).
Proof.
  destruct o as [p r pc|p r i pc]; [destruct pc as [| | | | | | | | | | |[]|[]|[]| | | | | | | |]|destruct pc]; cbn [abandon];
    try (by left); try (right; eexists; split; [done|by intros (? & ? & [=])]); try (right; by eexists).
  destruct (declared r (db w)); [right|by left]. eexists. split; [done|]. by intros (? & ? & [=]).
Qed.

Lemma abandon_work o w c c' : WorkInv (mkSystem w (Some o) c) → WorkInv (mkSystem (abandon o w) None c').
Proof.
  intros [Ha Hb Hc]. cbn in *.
  assert ((¬ ∃ p r, o = StageOp p r (SMark Created)) → intent_safe w None) as Hsafe.
  { intros Hne i p b Hi Hp Hph Hr Hb' Hin. destruct (Hb i p b Hi Hp Hph Hr Hb' Hin) as [?|(q & r & [= Hq])]; [by left|].
    destruct Hne. by exists q, r. }
  assert (∀ l, work_kept (note_lapse l w)) as Hl by (intros l; unfold work_kept in *; cbn; rewrite !elem_of_cons; tauto).
  assert ((∃ p r, o = StageOp p r (SMark Created)) ∨ ¬ ∃ p r, o = StageOp p r (SMark Created)) as [Hm|Hm].
  { destruct o as [p r pc|]; [|right; by intros (? & ? & ?)]. destruct (decide (pc = SMark Created)) as [->|Hne]; [left; eauto|right].
    by intros (? & ? & [= _ _ ?]). }
  - destruct Hm as (p & r & ->). split; cbn [world process abandon]; [done| |exact (Hl _)]. intros ? ? ? ? ? ? ? ? ?. left. by left.
  - specialize (Hsafe Hm). destruct (abandon_frame o w) as [->|(l & -> & _)]; (split; cbn [world process]; [done| |]).
    + exact Hsafe.
    + exact Hc.
    + intros i p b Hi Hp Hph Hr Hb' Hin. destruct (Hsafe i p b Hi Hp Hph Hr Hb' Hin) as [?|(? & ? & ?)]; [left; by right|done].
    + exact (Hl l).
Qed.

Lemma step_work s e : guarded e → WorkInv s → WorkInv (step s e).
Proof.
  intros Hg Hi. destruct s as [w o k]. pose proof Hi as [Ha Hb Hc]. cbn in Ha, Hb, Hc.
  destruct e as [p|p|c d| |da q rm| | |st|rm]; cbn [step world process clock].
  - destruct o as [o|]; [exact Hi|]. unfold fork_is_fresh. destruct (workspace p) as [|f|f] eqn:Hw.
    + split; cbn; [|by apply safe_any; unfold prepare_fork; rewrite Hw|unfold prepare_fork; by rewrite Hw].
      intros ? [= <-]. intros f Hf. congruence.
    + case_bool_decide; [|exact Hi]. unfold prepare_fork. rewrite Hw. split; cbn.
      * intros ? [= <-]. intros f' Hf'. rewrite Hw in Hf'. injection Hf' as <-. cbn. set_solver.
      * apply safe_any. intros i q b Hi' Hp Hph Hr Hb' Hin. apply (Hb i q b Hi' Hp Hph Hr Hb'). cbn in Hin. set_solver.
      * exact Hc.
    + split; cbn; [|by apply safe_any; unfold prepare_fork; rewrite Hw|unfold prepare_fork; by rewrite Hw].
      intros ? [= <-]. intros f' Hf'. congruence.
  - destruct o as [o|]; [exact Hi|]. destruct (workspace (fallback p)) eqn:Hw; [|exact Hi..].
    split; cbn; [by intros ? [= <-]|by apply safe_any|exact Hc].
  - destruct o as [[p r pc|p r i pc]|]; [..|exact Hi].
    + specialize (Ha _ eq_refl). assert (step_ok p r (stage_step c p r pc w)) as (H1 & H2 & H3).
      { destruct (decide (pc = SRelease)) as [-> |Hn1]; [by apply release_ok|].
        destruct (decide (pc = SSend true ∨ pc = SSend false)) as [[-> | ->]|Hn2]; [by apply send_ok..|].
        destruct (decide (pc ∈ [SSetup; SRollbackSetup; SRecordSetupFailure; SPersist; SOutgoing; SKill; SShell; SReady; SRecord; SDeclare])) as [He|He];
          [by apply early_ok|apply late_ok; [|done..]]. clear -Hn1 Hn2 He. set_solver. }
      destruct (stage_step c p r pc w) as [w' next]. cbn [fst snd] in *.
      split; cbn; [|done..]. intros o Ho. destruct next as [pc'|]; [|done]. cbn in Ho. injection Ho as <-. by apply H1.
    + specialize (Ha _ eq_refl). destruct (post_step_ok c d p r i pc w Ha Hb Hc) as (H1 & H2 & H3).
      destruct (post_step c d p r i pc w) as [w' [|i' pc'|]]; cbn [fst snd] in *.
      * by split.
      * split; cbn; [|by apply safe_any|done]. intros ? [= <-]. by apply H1.
      * split; cbn; [|by apply safe_any|done]. intros ? [= <-]. cbn [op_holds]. intros f Hf. destruct Ha as [Ha _]. congruence.
  - destruct o as [o|]; [|exact Hi]. by eapply abandon_work.
  - destruct o as [o|]; [exact Hi|]. unfold reconcile_lifecycle_operations. destruct (intent (db w)) as [i|] eqn:Hint; [|exact Hi].
    assert (∀ q, WorkInv (mkSystem (reconcile_lifecycle_operation (Some (live w)) q rm i w) None k)) as Hrec.
    { intros q0. destruct (reconcile_frame q0 rm w i Hint) as (H1 & _ & H3 & _ & _ & _ & H6 & H7). split; cbn; [done| |].
      - destruct H1 as [?|(_ & i' & Hi' & Ho)]; [by apply safe_none|by eapply (safe_still i i' w)].
      - unfold work_kept in *. rewrite H6. destruct H7 as [-> |(x & b & Hq & Hph & Hr & Hb' & Hin)]; [done|].
        destruct (Hb i x b Hint Hq Hph Hr Hb' Hin) as [?|(? & ? & ?)]; [by right; left|done]. }
    destruct da; [apply Hrec|]. destruct (reconcile_silent q rm w i) as [q' ->]. apply Hrec.
  - by eapply (work_frame w); [..|exact Hi].
  - by eapply (work_frame w); [..|exact Hi].
  - destruct o as [o|]; [exact Hi|]. destruct (finish_latest_running_stage_run st None None (db w)) as [[d' x]|] eqn:Hf; [|exact Hi].
    apply finish_latest_Some in Hf as [-> |(i & ->)]; by eapply (work_frame w); [..|exact Hi].
  - done.
Qed.

End Server.
