(* ===== verification/StageMoves.v ===== *)
(** * Stage operations: the moves

    By induction on the history: a task's stage changes exactly when an operation
    lands, which it does once, after its spawn began to cross the socket. *)

From S2P Require Import Prelude RustStd StageRuns StageOps StageOpsSpec StageWork.
Local Open Scope Z_scope.

Section Server.
Context {T : Task}.

(** ** Moves land once, and after their spawn *)

Definition landed_ids (w : World) : list Z := map fst (landed w).

Definition before_spawn (pc : StagePc) : bool :=
  match pc with SShell | SReady | SRecord | SDeclare | SSend false => true | _ => false end.
Definition after_spawn (pc : StagePc) : bool :=
  match pc with SSend true | SMark _ | SReply _ | SWithdraw | SCommit => true | _ => false end.

(** An open operation has not landed, and one that would be taken for submitted has
    been. *)
Record IntentInv (w : World) (clock : Z) (i : Intent Payload) : Prop := mkIntentInv {
  ii_formed : well_formed i;
  ii_run p : payload i = PStage p → p_run_id p = intent_id i;
  ii_post p : payload i = PPost p → q_run_id p = intent_id i;
  ii_old : intent_id i < clock;
  ii_open : intent_id i ∉ landed_ids w;
  ii_submitted p : payload i = PStage p → phase i = Submitted → intent_id i ∈ submitted w;
  ii_ready p : payload i = PStage p → phase i = SpawnReady → is_Some (live w) → intent_id i ∈ submitted w
}.

Definition op_lands (w : World) (clock : Z) (o : Process) : Prop :=
  match o with
  | StageOp p r pc =>
      r < clock ∧ r ∉ landed_ids w
      ∧ (pc = SRelease → ∀ i, intent (db w) = Some i → intent_id i ≠ r)
      ∧ (before_spawn pc = true → live w = None)
      ∧ (after_spawn pc = true → r ∈ submitted w)
  | PostOp p r _ pc => r < clock ∧ r ∉ landed_ids w ∧ (pc = PRelease → ∀ i, intent (db w) = Some i → intent_id i ≠ r)
  end.

Record LandInv (s0 : str) (s : System) : Prop := mkLandInv {
  li_submitted r x : (r, x) ∈ landed (world s) → r ∈ submitted (world s);
  li_stage : task_stage (db (world s)) = match landed (world s) with (_, x) :: _ => x | [] => s0 end;
  li_once : NoDup (landed_ids (world s));
  li_old r : r ∈ landed_ids (world s) → r < clock s;
  li_intent i : intent (db (world s)) = Some i → IntentInv (world s) (clock s) i;
  li_op o : process s = Some o → op_lands (world s) (clock s) o
}.

(** A change that leaves the moves and the intent, and forgets no submission. *)
Lemma intent_inv_frame w w' k k' i :
  landed w' = landed w → k ≤ k' → (∀ r, r ∈ submitted w → r ∈ submitted w') → (is_Some (live w') → is_Some (live w)) →
  IntentInv w k i → IntentInv w' k' i.
Proof.
  intros Hl Hk Hs Hlive [H1 H2 H3 H4 H5 H6 H7]. split; [done|done|done|lia|by unfold landed_ids; rewrite Hl|by eauto|by eauto].
Qed.

Lemma stage_payload_formed p r ph : well_formed (own_intent p r ph).
Proof. unfold well_formed, own_intent, stage_operation_payload. cbn. destruct (workspace p); cbn; split; (done || by eexists). Qed.

Lemma own_intent_inv w k p r ph :
  r < k → r ∉ landed_ids w → (ph = Submitted → r ∈ submitted w) → (ph = SpawnReady → is_Some (live w) → r ∈ submitted w) →
  IntentInv w k (own_intent p r ph).
Proof.
  intros Hr Hl Hs Hrd. split; cbn [own_intent payload phase intent_id]; try done.
  - apply stage_payload_formed.
  - intros q Hq. injection Hq as <-. unfold stage_operation_payload. by destruct (workspace p).
Qed.

(** What an operation's call does to the moves. *)
Definition lands_ok (s0 : str) (k : Z) (p : PreparedStageRunSpawn) (r : Z) (x : World * option StagePc) : Prop :=
  LandInv s0 (mkSystem x.1 ((λ pc, StageOp p r pc) <$> x.2) k).

(** The parts that do not change in most calls. *)
Lemma land_frame s0 w o k w' o' :
  LandInv s0 (mkSystem w o k) →
  landed w' = landed w → task_stage (db w') = task_stage (db w) → (∀ r, r ∈ submitted w → r ∈ submitted w') →
  (∀ i, intent (db w') = Some i → IntentInv w' k i) →
  (∀ x, o' = Some x → op_lands w' k x) →
  LandInv s0 (mkSystem w' o' k).
Proof.
  intros [H1 H2 H3 H4 H5 H6] Hl Hst Hs Hi Ho. cbn in *. split; cbn; unfold landed_ids; rewrite ?Hl, ?Hst; try done.
  intros r x Hr. by eapply Hs, H1.
Qed.

Lemma op_lands_next w k p r pc pc' :
  op_lands w k (StageOp p r pc) → pc' ≠ SRelease → (before_spawn pc' = true → live w = None) → (after_spawn pc' = true → r ∈ submitted w) →
  op_lands w k (StageOp p r pc').
Proof. intros (H1 & H2 & _) Hne Hb Ha. by split_and!. Qed.

(** What is still open is what it was. *)
Lemma intent_inv_still w w' k i i' :
  still_open i i' → landed w' = landed w → submitted w' = submitted w → live w' = live w → IntentInv w k i → IntentInv w' k i'.
Proof.
  intros (S1 & S2 & S3 & S4) Hl Hs Hlive [H1 H2 H3 H4 H5 H6 H7]. unfold landed_ids in *.
  assert (∀ p, payload i = PStage p → phase i' = phase i) as Hph by (intros p Hp; destruct S4 as [?|(? & ?)]; [done|congruence]).
  split; rewrite ?S1, ?S3; unfold landed_ids; rewrite ?Hl, ?Hs; try done.
  - unfold well_formed in *. by rewrite S2, S3.
  - intros p Hp. rewrite (Hph p Hp). by apply (H6 p).
  - intros p Hp. rewrite (Hph p Hp), Hlive. by apply (H7 p).
Qed.

(** Reconciling lands the open operation or none. *)
Lemma reconcile_lands s0 q removes w k o i :
  LandInv s0 (mkSystem w o k) → intent (db w) = Some i →
  let w' := reconcile_lifecycle_operation (Some (live w)) q removes i w in
  LandInv s0 (mkSystem w' None k) ∧ (landed w' = landed w ∨ ∃ x, landed w' = (intent_id i, x) :: landed w).
Proof.
  intros HI Hi w'. pose proof HI as [H1 H2 H3 H4 H5 H6]. cbn in *. pose proof (H5 i Hi) as HII. pose proof HII as [F1 F2 F3 F4 F5 F6 F7].
  destruct (reconcile_frame q removes w i Hi) as (Hopen & Hlive & _ & Hsub & _). fold w' in Hopen, Hlive, Hsub.
  assert (landed w' = landed w → task_stage (db w') = task_stage (db w) →
            LandInv s0 (mkSystem w' None k) ∧ (landed w' = landed w ∨ ∃ x, landed w' = (intent_id i, x) :: landed w)) as Hsame.
  { intros Hl Hst. split; [|by left]. eapply (land_frame s0 w o); [exact HI|done|done|by rewrite Hsub| |done].
    intros i' Hi'. destruct Hopen as [Hn|(_ & j & Hj & Ho)]; [congruence|]. rewrite Hj in Hi'. injection Hi' as <-.
    by eapply (intent_inv_still w w' k i). }
  revert Hopen Hlive Hsub Hsame. subst w'.
  destruct (reconcile_spec q removes w i) as [Hq|p Hp|_|p ws d Hp Hws Hc Hts Hd|p Hp Hc Hs|p Hp Hs Hn]; intros Hopen Hlive Hsub Hsame.
  - by apply Hsame.
  - apply Hsame; [done|]. cbn. destruct (finalize_post_spec q i p (db w) Hi) as (_ & _ & ? & _). done.
  - apply Hsame; [done|]. cbn. by rewrite retire_stage.
  - clear Hsame. destruct (reconcile_stage_payload_Some i p ws (db w) Hc Hws) as (d' & Hd' & Hno & _ & _ & _ & Hst & _). rewrite Hd in Hd'. injection Hd' as <-.
    specialize (Hno Hi). cbn in *. assert (intent_id i ∈ submitted w) as Hsubm.
    { destruct Hts as [Hph|(Hph & _ & Hl)]; [by eapply F6|]. eapply F7; [done|done|by eexists]. }
    rewrite (F2 p Hp) in *. split; [|right; by eexists]. split; cbn.
    + intros r x [[= -> ->]|Hin]%elem_of_cons; [done|by eapply H1].
    + exact Hst.
    + unfold landed_ids. cbn. by constructor.
    + unfold landed_ids. cbn. intros r [-> |Hr]%elem_of_cons; [done|by apply H4].
    + congruence.
    + done.
  - destruct (fail_db_frame i p (db w) Hi) as (_ & Hst & _). apply Hsame; [done|]. cbn. by rewrite (afterwards_keeps task_stage).
  - destruct (fail_operation_frame i p RollBackFreshFork removes w) as (Hdb & _ & _ & _ & _ & _ & Hl & _).
    destruct (fail_db_frame i p (db w) Hi) as (_ & Hst & _). apply Hsame; [done|by rewrite Hdb].
Qed.

Lemma land_drop s0 w o k : LandInv s0 (mkSystem w o k) → LandInv s0 (mkSystem w None k).
Proof. intros HI. pose proof HI as [_ _ _ _ H5 _]. by eapply land_frame. Qed.

Lemma land_with s0 w k o : LandInv s0 (mkSystem w None k) → (∀ x, o = Some x → op_lands w k x) → LandInv s0 (mkSystem w o k).
Proof. intros HI Ho. pose proof HI as [_ _ _ _ H5 _]. by eapply land_frame. Qed.

Lemma lands_next s0 k p r w pc :
  LandInv s0 (mkSystem w None k) → op_lands w k (StageOp p r pc) → lands_ok s0 k p r (w, Some pc).
Proof. intros HI Ho. apply land_with; [done|]. by intros ? [= <-]. Qed.

Lemma lands_return s0 k p r w : LandInv s0 (mkSystem w None k) → lands_ok s0 k p r (w, None).
Proof. done. Qed.

(** The world has changed in what the moves do not look at. *)
Lemma land_same s0 w w' k :
  LandInv s0 (mkSystem w None k) → landed w' = landed w → task_stage (db w') = task_stage (db w) → submitted w' = submitted w →
  (live w' = live w ∨ live w' = None) → (intent (db w') = intent (db w) ∨ intent (db w') = None) → LandInv s0 (mkSystem w' None k).
Proof.
  intros HI Hl Hst Hs Hlive Hint. eapply land_frame; [exact HI|done|done|by rewrite Hs| |done].
  intros i Hi. destruct Hint as [Hint|Hint]; [|congruence]. rewrite Hint in Hi.
  eapply intent_inv_frame; [done|done|by rewrite Hs| |by eapply (li_intent _ _ HI)].
  destruct Hlive as [-> | ->]; [done|]. by intros [].
Qed.

(** The operation's own intent is in a phase its progress allows. *)
Lemma land_own s0 w w' k p r ph :
  LandInv s0 (mkSystem w None k) → landed w' = landed w → task_stage (db w') = task_stage (db w) → (∀ x, x ∈ submitted w → x ∈ submitted w') →
  r < k → r ∉ landed_ids w → intent (db w') = Some (own_intent p r ph) →
  (ph = Submitted → r ∈ submitted w') → (ph = SpawnReady → is_Some (live w') → r ∈ submitted w') → LandInv s0 (mkSystem w' None k).
Proof.
  intros HI Hl Hst Hs Hr Hn Hi H1 H2. eapply land_frame; [exact HI|done|done|done| |done].
  intros i Hi'. rewrite Hi in Hi'. injection Hi' as <-. apply own_intent_inv; [done|by unfold landed_ids; rewrite Hl|done|done].
Qed.

Lemma rollback_frame p w :
  let w' := rollback_prepared_stage_fork p w in
  db w' = db w ∧ live w' = live w ∧ landed w' = landed w ∧ submitted w' = submitted w ∧ delivered w' = delivered w ∧ lapses w' = lapses w.
Proof. unfold rollback_prepared_stage_fork. by destruct (workspace p). Qed.

Lemma stage_project_frame next ws t psid (d d' : Db) : project_stage next ws t psid d = Some d' → closed d = false.
Proof. destruct (closed d) eqn:Hc; [|done]. by rewrite project_stage_closed. Qed.

Lemma fail_bound_frame r (d : Db) : task_stage (fail_bound_stage_run r d) = task_stage d.
Proof.
  unfold fail_bound_stage_run. destruct (finish_stage_run r Failed _ spawn_failed d) as [d'|] eqn:Hf; [|done].
  rewrite stage_update_session, stage_update_activity. apply finish_stage_run_Some in Hf as ->. done.
Qed.

Lemma release_lands s0 answers q last removes w o k :
  LandInv s0 (mkSystem w o k) →
  let x := release_lifecycle_operation_for_task answers q last removes w in
  LandInv s0 (mkSystem x.1 None k)
  ∧ (landed x.1 = landed w ∨ ∃ i y, intent (db w) = Some i ∧ landed x.1 = (intent_id i, y) :: landed w).
Proof.
  intros HI. unfold release_lifecycle_operation_for_task, has_lifecycle_operation_for_task.
  case_bool_decide; [cbn; split; [by eapply land_drop|by left]|]. destruct (intent (db w)) as [i|] eqn:Hi.
  - rewrite bool_decide_true by by eexists. cbn [negb]. destruct answers; cbn [negb fst]; [|split; [by eapply land_drop|by left]].
    unfold reconcile_lifecycle_operations. rewrite Hi. destruct (reconcile_lands s0 q removes w k o i HI Hi) as [H1 [H2|(x & H2)]];
      (split; [exact H1|]); [by left|right]. by exists i, x.
  - rewrite bool_decide_false by by intros []. cbn. split; [by eapply land_drop|by left].
Qed.

Lemma early_lands s0 c p r pc w k :
  pc ∈ [SSetup; SRollbackSetup; SRecordSetupFailure; SPersist; SOutgoing; SKill; SShell; SReady; SRecord; SDeclare] →
  op_holds w (StageOp p r pc) → LandInv s0 (mkSystem w None k) → op_lands w k (StageOp p r pc) →
  lands_ok s0 k p r (stage_step c p r pc w).
Proof.
  intros Hpc Hh HI (Hr & Hn & _ & Hlive & _). 
  assert (∀ w', landed w' = landed w → ∀ pc', pc' ≠ SRelease → (before_spawn pc' = true → live w' = None) → after_spawn pc' = false → op_lands w' k (StageOp p r pc')) as Hop.
  { intros w' Hl pc' Hne Hb Ha. split_and!; [done|by unfold landed_ids; rewrite Hl|done|done|congruence]. }
  repeat (apply elem_of_cons in Hpc as [-> |Hpc]; cbn [op_holds] in Hh); [..|by apply not_elem_of_nil in Hpc]; cbn [stage_step].
  - destruct (ok c); (apply lands_next; [done|by apply Hop]).
  - destruct (rollback_frame p w) as (H1 & H2 & H3 & H4 & _). apply lands_next; [|by apply Hop].
    eapply land_same; [exact HI|done|by rewrite H1|done|by left|left; by rewrite H1].
  - destruct (ok c); [|by apply lands_return]. apply lands_return. eapply land_same; [exact HI|done| |done|by left|left]; cbn [db set_db].
    + by rewrite stage_insert_stage_run, stage_update_activity.
    + by rewrite intent_insert_stage_run, intent_update_activity.
  - destruct Hh as [Hi _]. destruct (ok c); [|by apply lands_return].
    unfold persist_stage_operation_intent, insert_lifecycle_operation_intent. rewrite Hi. apply lands_next; [|by apply Hop].
    by eapply (land_own s0 w _ k p r Prepared).
  - destruct (finish_running_frame w) as (H1 & H2 & _ & _ & _ & H6 & _ & _ & H8 & H9).
    destruct (ok c); [|by apply lands_return]. apply lands_next; [|by apply Hop].
    eapply land_same; [exact HI|done|done|done|by left|by left].
  - destruct (ok c); (apply lands_next; [|by apply Hop]); [|done]. eapply land_same; [exact HI|done|done|done|by right|by left].
  - specialize (Hlive eq_refl). destruct (workspace p); [|destruct (ok c)..]; (apply lands_next; [done|by apply Hop]).
  - destruct Hh as [Hi _]. specialize (Hlive eq_refl). destruct (ok c); [|by apply lands_return].
    rewrite (update_phase_own r SpawnReady (db w) _ Hi) by done. apply lands_next; [|by apply Hop].
    eapply (land_own s0 w _ k p r SpawnReady); try done. cbn. rewrite Hlive. by intros _ [].
  - destruct Hh as [Hi _]. specialize (Hlive eq_refl). destruct (ok c && _); [|by apply lands_return].
    apply lands_next; [|destruct (headless p); by apply Hop].
    eapply land_same; [exact HI|done| |done|by left|left]; cbn [db set_db].
    + by rewrite stage_insert_stage_run.
    + by rewrite intent_insert_stage_run.
  - destruct Hh as [Hi _]. specialize (Hlive eq_refl). destruct (ok c); (apply lands_next; [|by apply Hop]); [|done].
    eapply (land_own s0 w _ k p r Submitted); [exact HI|done| |by right|done|done|by eapply (mark_own p r SpawnReady)|by left|done].
    unfold mark_phase. cbn [db set_db note_submitted]. by rewrite (update_phase_own r Submitted (db w) _ Hi).
Qed.

Lemma send_lands s0 c p r again w k :
  op_holds w (StageOp p r (SSend again)) → LandInv s0 (mkSystem w None k) → op_lands w k (StageOp p r (SSend again)) →
  lands_ok s0 k p r (stage_step c p r (SSend again) w).
Proof.
  intros [(ph & Hi) _] HI (Hr & Hn & _ & _ & Hsub).
  (* whatever is sent, the run counts among the submitted *)
  assert (∀ o l w' next, landed w' = landed w → db w' = db w → submitted w' = submitted w → (∀ pc, next = Some pc → pc ≠ SRelease ∧ before_spawn pc = false) →
            w' = w ∨ w' = note_lapse l w → lands_ok s0 k p r (daemon_reads p o (note_crossed r (note_submitted r w')), next)) as Hgo.
  { intros o l w' next Hl Hd Hs Hnext Hw. set (w2 := daemon_reads _ _ _).
    assert (landed w2 = landed w ∧ db w2 = db w ∧ submitted w2 = r :: submitted w) as (G1 & G2 & G3) by (subst w2; destruct o; cbn; by rewrite ?Hl, ?Hd, ?Hs).
    assert (LandInv s0 (mkSystem w2 None k)) as HI'.
    { eapply (land_own s0 w w2 k p r ph); [exact HI|done|by rewrite G2|rewrite G3; by right|done|done|by rewrite G2|rewrite G3; by left|rewrite G3; by left]. }
    destruct next as [pc'|]; [|by apply lands_return]. destruct (Hnext _ eq_refl) as [Hne Hb]. apply lands_next; [exact HI'|].
    split_and!; [done|by unfold landed_ids; rewrite G1|done|congruence|rewrite G3; by left]. }
  assert (∀ l, lands_ok s0 k p r (note_lapse l w, None)) as Hlapse.
  { intros l. apply lands_return. eapply land_same; [exact HI|done|done|done|by left|by left]. }
  cbn [stage_step]. set (o := if again && _ then Refused else outcome c). destruct (headless p).
  - destruct (negb (crosses c)); [destruct (negb again && declared r (db w)); [apply Hlapse|by apply lands_return]|].
    destruct (bool_decide (o = Created) && negb (declared r (db w))); apply (Hgo o SpawnUnmarked); try done; try (by left); try (by right);
      destruct (written c); by intros ? [= <-].
  - destruct (negb (ok c)); [apply lands_next; [done|by split_and!]|]. destruct (negb (crosses c)); [by apply lands_return|].
    destruct (written c); [apply (Hgo o SpawnUnmarked); try done; [by intros ? [= <-]|by left]|].
    pose proof (Hgo o SpawnUnmarked w None eq_refl eq_refl eq_refl ltac:(done) ltac:(by left)) as Hw.
    destruct (bool_decide (o = Created)); [|done]. apply lands_return.
    eapply land_same; [exact Hw|done|done|done|by left|by left].
Qed.

Lemma late_lands s0 c p r pc w k :
  pc ∉ [SRelease; SSetup; SRollbackSetup; SRecordSetupFailure; SPersist; SOutgoing; SKill; SShell; SReady; SRecord; SDeclare; SSend true; SSend false] →
  op_holds w (StageOp p r pc) → LandInv s0 (mkSystem w None k) → op_lands w k (StageOp p r pc) →
  lands_ok s0 k p r (stage_step c p r pc w).
Proof.
  intros Hpc Hh HI (Hr & Hn & _ & _ & Hsub).
  assert (∀ w', landed w' = landed w → ∀ pc', pc' ≠ SRelease → before_spawn pc' = false → (after_spawn pc' = true → r ∈ submitted w') → op_lands w' k (StageOp p r pc')) as Hop.
  { intros w' Hl pc' Hne Hb Ha. split_and!; [done|by unfold landed_ids; rewrite Hl|done|congruence|done]. }
  assert (∀ ph w', db w' = db w → (∃ ph, intent (db w) = Some (own_intent p r ph)) → landed w' = landed w → submitted w' = submitted w → live w' = live w →
            r ∈ submitted w → LandInv s0 (mkSystem (mark_phase r ph w') None k)) as Hmark.
  { intros ph w' Hdb (ph0 & Hi) Hl Hs Hlv Hin. rewrite <- Hdb in Hi. eapply (land_own s0 w _ k p r ph); try done.
    - unfold mark_phase. cbn [db set_db]. rewrite (update_phase_own r ph (db w') _ Hi) by done. cbn. by rewrite Hdb.
    - cbn. by rewrite Hs.
    - by eapply mark_own.
    - cbn. by rewrite Hs.
    - cbn. by rewrite Hs. }
  destruct pc as [| | | | | | | | | | |[]|o|o| | | | | | | |]; try (exfalso; apply Hpc; clear; set_solver); cbn [stage_step].
  - specialize (Hsub eq_refl). assert (∃ ph, intent (db w) = Some (own_intent p r ph)) as Hi.
    { destruct o; cbn [op_holds] in Hh; [exact Hh|exact (proj1 Hh)..]. }
    destruct (ok c); [apply lands_next; [by apply Hmark|by apply Hop]|].
    destruct (bool_decide (o = Created)); (apply lands_next; [|by apply Hop]); [|done].
    eapply land_same; [exact HI|done|done|done|by left|by left].
  - specialize (Hsub eq_refl). destruct (answered c); cbn [negb]; [|by apply lands_return].
    destruct o; (apply lands_next; [done|by apply Hop]).
  - specialize (Hsub eq_refl). cbn [op_holds] in Hh. destruct Hh as [(ph & Hi) _]. destruct (headless p); [|destruct (ok c)].
    + apply lands_next; [done|by apply Hop].
    + apply lands_next; [apply Hmark; try done; by exists ph|by apply Hop].
    + apply lands_next; [done|by apply Hop].
  - specialize (Hsub eq_refl). cbn [op_holds] in Hh. destruct Hh as (ph & Hi & _). destruct (ok c); cbn [negb]; [|by apply lands_return].
    destruct (reconcile_stage_operation_db p r (db w)) as [d|] eqn:Hd; [|apply lands_next; [done|by apply Hop]].
    apply lands_return. unfold reconcile_stage_operation_db in Hd. destruct (closed (db w)) eqn:Hc; [done|].
    destruct (project_stage_Some (next_stage p) (prepared_workspace p) (sp_trigger p) (sp_provider_session_id p) (db w) Hc) as (d' & Hd' & H1 & _ & _ & Hst & _).
    rewrite Hd' in Hd. cbn [mbind option_bind] in Hd. injection Hd as <-. pose proof HI as [G1 G2 G3 G4 G5 _]. cbn in *.
    split; cbn.
    + intros x y [[= -> ->]|Hin]%elem_of_cons; [done|by eapply G1].
    + by rewrite stage_delete_intent.
    + unfold landed_ids. cbn. by constructor.
    + unfold landed_ids. cbn. intros x [-> |Hx]%elem_of_cons; [done|by apply G4].
    + intros i Hi'. rewrite (intent_delete_own r d' (own_intent p r ph)) in Hi'; [done|by rewrite H1|done].
    + done.
  - destruct (ok c); (apply lands_next; [|by apply Hop]); (eapply land_same; [exact HI|done| |done|by left|left]); cbn [db set_db note_lapse]; try done.
    + apply fail_bound_frame.
    + apply fail_bound_intent.
  - destruct (ok c); (apply lands_next; [|by apply Hop]); [|done]. eapply land_same; [exact HI|done| |done|by left|]; cbn [db set_db].
    + by rewrite stage_delete_intent.
    + destruct (intent_delete_intent r (db w)) as [?|?]; [by right|by left].
  - destruct (removes c); [|by apply lands_return]. destruct (rollback_frame p w) as (H1 & H2 & H3 & H4 & _). apply lands_return.
    eapply land_same; [exact HI|done|by rewrite H1|done|by left|left; by rewrite H1].
  - destruct (ok c); (apply lands_next; [|by apply Hop]); [|done]. eapply land_same; [exact HI|done|done|done|by right|by left].
  - destruct (ok c); (apply lands_next; [|by apply Hop]); (eapply land_same; [exact HI|done| |done|by left|left]); cbn [db set_db note_lapse]; try done.
    + apply fail_bound_frame.
    + apply fail_bound_intent.
  - destruct (removes c); [|by apply lands_return]. destruct (rollback_frame p w) as (H1 & H2 & H3 & H4 & _). apply lands_return.
    eapply land_same; [exact HI|done|cbn; by rewrite H1|done|by left|left; cbn; by rewrite H1].
Qed.

Lemma stage_step_lands s0 c p r pc w k :
  op_holds w (StageOp p r pc) → LandInv s0 (mkSystem w (Some (StageOp p r pc)) k) → lands_ok s0 k p r (stage_step c p r pc w).
Proof.
  intros Hh HI. pose proof (li_op _ _ HI _ eq_refl) as Ho. cbn in Ho. pose proof (land_drop _ _ _ _ HI) as HI'.
  destruct (decide (pc = SRelease)) as [-> |Hn1].
  - cbn [stage_step]. destruct (release_lands s0 (answered c) (database c) (ok c) (removes c) w _ k HI) as [HI2 Hl].
    destruct (release_lifecycle_operation_for_task (answered c) (database c) (ok c) (removes c) w) as [w' b]. cbn [fst] in *.
    destruct Ho as (Hr & Hn & Hne & _). destruct b.
    + apply lands_next; [exact HI2|]. split_and!; [done| |done|done|done]. unfold landed_ids. destruct Hl as [-> |(i & y & Hi & ->)]; [done|].
      cbn. intros [Heq|Hin]%elem_of_cons; [by eapply Hne|done].
    + destruct (rollback_frame p w') as (H1 & H2 & H3 & H4 & _). apply lands_return.
      eapply land_same; [exact HI2|done|by rewrite H1|done|by left|left; by rewrite H1].
  - destruct (decide (pc = SSend true ∨ pc = SSend false)) as [[-> | ->]|Hn2]; [by apply send_lands..|].
    destruct (decide (pc ∈ [SSetup; SRollbackSetup; SRecordSetupFailure; SPersist; SOutgoing; SKill; SShell; SReady; SRecord; SDeclare])) as [He|He];
      [by apply early_lands|apply late_lands; [|done..]]. clear -Hn1 Hn2 He. set_solver.
Qed.

Definition post_lands (s0 : str) (k : Z) (p : PreparedPostDispatch) (r : Z) (x : World * PostNext) : Prop :=
  LandInv s0 (mkSystem x.1 None k) ∧ (∀ inh pc, x.2 = Goes inh pc → op_lands x.1 k (PostOp p r inh pc))
  ∧ (x.2 = FallsBack → intent (db x.1) = None).

Lemma bind_post_stage p (d : Db) : task_stage (bind_post p d) = task_stage d.
Proof.
  unfold bind_post. destruct (stage_run d (q_run_id p)); [done|]. rewrite stage_insert_stage_run.
  destruct (q_inherited_run_id p) as [j|]; [|done]. destruct (stage_run d j) as [x|] eqn:Hx; [|done]. case_bool_decide; [|done].
  unfold finish_stage_run. by rewrite Hx.
Qed.

Lemma post_step_lands s0 c d p r inh pc w k :
  op_holds w (PostOp p r inh pc) → LandInv s0 (mkSystem w (Some (PostOp p r inh pc)) k) →
  post_lands s0 k p r (post_step c d p r inh pc w).
Proof.
  intros [Hws Hh] HI. pose proof (li_op _ _ HI _ eq_refl) as (Hr & Hn & Hne). cbn in Hr, Hn, Hne. pose proof (land_drop _ _ _ _ HI) as HI'.
  assert (∀ w', landed w' = landed w → ∀ inh pc', pc' ≠ PRelease → op_lands w' k (PostOp p r inh pc')) as Hop.
  { intros w' Hl inh' pc' Hpc. split_and!; [done|by unfold landed_ids; rewrite Hl|done]. }
  assert (∀ x, x = (w, Returns) ∨ (∃ i pc', pc' ≠ PRelease ∧ x = (w, Goes i pc')) → post_lands s0 k p r x) as Hstay.
  { intros x [-> |(i & pc' & Hpc & ->)]; unfold post_lands; split_and!; try done. intros ? ? [= <- <-]. by apply Hop. }
  destruct pc as [| | | |fb| |]; cbn [post_step].
  - destruct (release_lands s0 (answered c) (database c) (ok c) (removes c) w _ k HI) as [HI2 Hl].
    destruct (release_lifecycle_operation_for_task (answered c) (database c) (ok c) (removes c) w) as [w' b]. cbn [fst snd] in *.
    unfold post_lands; split_and!; [done| |by destruct b]. intros i pc' Heq. destruct b; [|done]. injection Heq as <- <-. split_and!; [done| |done].
    cbn [fst]. unfold landed_ids. destruct Hl as [-> |(i & y & Hi & ->)]; [done|]. cbn. intros [Heq|Hin]%elem_of_cons; [by eapply Hne|done].
  - destruct (negb (ok c)); [apply Hstay; by left|].
    destruct (latest_stage_run (db w)) as [x|]; [|apply Hstay; right; by exists None, PPersist].
    case_bool_decide; [apply Hstay; by left|apply Hstay; right; by exists (Some x), PPersist].
  - destruct (ok c); [|apply Hstay; by left]. unfold persist_post_operation_intent, insert_lifecycle_operation_intent. rewrite Hh. cbn [fst snd].
    unfold post_lands; split_and!; [|intros ? ? [= <- <-]; by apply Hop|done].
    eapply land_frame; [exact HI'|done|done|done| |done]. cbn. intros i [= <-]. split; cbn; try done.
    + unfold post_operation_payload. by destruct inh.
    + intros q [= <-]. unfold post_operation_payload. by destruct inh.
  - destruct d; [| | |].
    + cbn [fst snd]. unfold post_lands; split_and!; [|intros ? ? [= <- <-]; by apply Hop|done]. eapply land_same; [exact HI'|done|done|done|by left|by left].
    + apply Hstay. right. by exists inh, (PAbort true).
    + apply Hstay. right. by exists inh, (PAbort false).
    + cbn [fst snd]. unfold post_lands; split_and!; [|done|done].
      destruct (crosses c); (eapply land_same; [exact HI'|done|done|done|by left|by left]).
  - destruct Hh as (ph & q & Hi). destruct (ok c); cbn [fst snd].
    + assert (intent (delete_lifecycle_operation_intent r (db w)) = None) as Hno by by eapply intent_delete_own.
      unfold post_lands; split_and!; [|by destruct fb|done]. eapply land_same; [exact HI'|done|cbn; by rewrite stage_delete_intent|done|by left|by right].
    + unfold post_lands; split_and!; [|done|done]. eapply land_same; [exact HI'|done|done|done|by left|by left].
  - destruct Hh as (ph & q & Hi). destruct (ok c); cbn [fst snd]; [|apply Hstay; by left].
    destruct (commit_post_spec r (post_operation_payload p r inh) (db w) _ Hi eq_refl) as (d' & -> & Hd & _ & Hst & _).
    cbn [fst snd]. unfold post_lands; split_and!; [|intros ? ? [= <- <-]; by apply Hop|done].
    eapply land_frame; [exact HI'|done|done|done| |done]. cbn. intros i Hi'. rewrite Hd in Hi'. injection Hi' as <-.
    destruct (li_intent _ _ HI _ Hi) as [F1 F2 F3 F4 F5 F6 F7]. split; cbn; try done.
  - destruct Hh as (ph & q & Hi). destruct (ok c); cbn [fst snd]; [|apply Hstay; by left].
    assert (intent (delete_lifecycle_operation_intent r (db w)) = None) as Hno by by eapply intent_delete_own.
    unfold post_lands; split_and!; [|done|done]. eapply land_same; [exact HI'|done|cbn; by rewrite stage_delete_intent|done|by left|by right].
Qed.

Lemma land_clock s0 w k k' : k ≤ k' → LandInv s0 (mkSystem w None k) → LandInv s0 (mkSystem w None k').
Proof.
  intros Hk [H1 H2 H3 H4 H5 H6]. cbn in *. split; cbn; try done.
  - intros r Hr. specialize (H4 r Hr). lia.
  - intros i Hi. by eapply (intent_inv_frame w w k k'); [..|by apply H5].
Qed.

(** A new operation is named after the present instant. *)
Lemma begin_lands s0 w k o :
  LandInv s0 (mkSystem w None k) → (∃ p, o = StageOp p k SRelease) ∨ (∃ p i, o = PostOp p k i PRelease) → LandInv s0 (mkSystem w (Some o) (k + 1)).
Proof.
  intros HI Ho. apply land_with; [by apply (land_clock s0 w k); [lia|]|]. intros ? [= <-]. pose proof HI as [_ _ _ H4 H5 _]. cbn in H4, H5.
  assert (k ∉ landed_ids w) as Hn by (intros Hin%H4; lia).
  assert (∀ i, intent (db w) = Some i → intent_id i ≠ k) as Hne by (intros i Hi; specialize (H5 i Hi); destruct H5; lia).
  destruct Ho as [(p & ->)|(p & i & ->)]; split_and!; (done || lia || (intros _; exact Hne)).
Qed.

Lemma step_lands s0 s e : guarded e → WorkInv s → LandInv s0 s → LandInv s0 (step s e).
Proof.
  intros Hg HW HI. destruct s as [w o k]. pose proof HW as [Ha _ _]. cbn in Ha. pose proof (land_drop _ _ _ _ HI) as HI'.
  destruct e as [p|p|c d| |da q rm| | |st|rm]; cbn [step world process clock].
  - destruct o as [o|]; [exact HI|]. destruct (fork_is_fresh p w); [|exact HI]. apply begin_lands; [|left; by eexists].
    unfold prepare_fork. destruct (workspace p); [exact HI| |exact HI]. eapply land_same; [exact HI|done|done|done|by left|by left].
  - destruct o as [o|]; [exact HI|]. destruct (workspace (fallback p)); [|exact HI..]. apply begin_lands; [exact HI|right; by eexists _, _].
  - destruct o as [[p r pc|p r i pc]|]; [..|exact HI].
    + specialize (Ha _ eq_refl). pose proof (stage_step_lands s0 c p r pc w k Ha HI) as H.
      by destruct (stage_step c p r pc w) as [w' next].
    + specialize (Ha _ eq_refl). destruct (post_step_lands s0 c d p r i pc w k Ha HI) as (H1 & H2 & H3).
      destruct (post_step c d p r i pc w) as [w' [|i' pc'|]]; cbn [fst snd] in *.
      * exact H1.
      * apply land_with; [exact H1|]. intros ? [= <-]. by apply H2.
      * apply begin_lands; [exact H1|left; by eexists].
  - destruct o as [o|]; [|exact HI].
    assert (landed (abandon o w) = landed w ∧ db (abandon o w) = db w ∧ submitted (abandon o w) = submitted w ∧ live (abandon o w) = live w) as (H1 & H2 & H3 & H4).
    { destruct (abandon_frame o w) as [->|(l & -> & _)]; done. }
    eapply land_same; [exact HI'|done|by rewrite H2|done|by left|left; by rewrite H2].
  - destruct o as [o|]; [exact HI|]. unfold reconcile_lifecycle_operations. destruct (intent (db w)) as [i|] eqn:Hi; [|exact HI].
    destruct da; [by eapply reconcile_lands|]. destruct (reconcile_silent q rm w i) as [q' ->]. by eapply reconcile_lands.
  - eapply land_with; [eapply land_same; [exact HI'|done|done|done|by right|by left]|].
    intros x Hx. pose proof (li_op _ _ HI x Hx) as Ho. destruct x; cbn in *; [|done]. by destruct Ho as (? & ? & ? & ? & ?); split_and!.
  - eapply land_with; [eapply land_same; [exact HI'|done|done|done|by left|by left]|].
    intros x Hx. pose proof (li_op _ _ HI x Hx) as Ho. by destruct x.
  - destruct o as [o|]; [exact HI|]. destruct (finish_latest_running_stage_run st None None (db w)) as [[d' x]|] eqn:Hf; [|exact HI].
    apply finish_latest_Some in Hf as [-> |(i & ->)]; (eapply land_same; [exact HI|done|done|done|by left|by left]).
  - done.
Qed.

(** ** What was declared submitted was written *)

(** A run declared submitted has been written to the daemon, in part at least, or is
    about to be, or is one of the lapses. *)
Definition about_to_cross (s : System) (r : Z) : Prop :=
  ∃ p, process s = Some (StageOp p r (SSend false)) ∧ headless p = true ∧ declared r (db (world s)) = true.

Definition CrossInv (s : System) : Prop :=
  ∀ r, r ∈ submitted (world s) → r ∈ crossed (world s) ∨ SubmittedUnsent ∈ lapses (world s) ∨ about_to_cross s r.

Lemma cross_frame w o k w' o' k' :
  CrossInv (mkSystem w o k) → submitted w' = submitted w → (∀ r, r ∈ crossed w → r ∈ crossed w') → (∀ l, l ∈ lapses w → l ∈ lapses w') →
  (∀ p r, o = Some (StageOp p r (SSend false)) → headless p = true → declared r (db w) = true →
     r ∈ crossed w' ∨ SubmittedUnsent ∈ lapses w' ∨ o' = o ∧ declared r (db w') = true) →
  CrossInv (mkSystem w' o' k').
Proof.
  intros HI Hs Hc Hl Ho r Hr. cbn in *. rewrite Hs in Hr. destruct (HI r Hr) as [?|[?|(p & Hp & Hh & Hd)]]; [left; by apply Hc|right; left; by apply Hl|].
  destruct (Ho p r Hp Hh Hd) as [?|[?|[-> ?]]]; [by left|by right; left|right; right]. by exists p.
Qed.

(** The calls but for the two about the spawn. *)
Lemma stage_step_crossed c p r pc w :
  pc ∉ [SDeclare; SSend true; SSend false] →
  let x := stage_step c p r pc w in
  submitted x.1 = submitted w ∧ crossed x.1 = crossed w ∧ ∀ l, l ∈ lapses w → l ∈ lapses x.1.
Proof.
  intros Hpc. assert (∀ w, submitted (rollback_prepared_stage_fork p w) = submitted w ∧ crossed (rollback_prepared_stage_fork p w) = crossed w
                      ∧ lapses (rollback_prepared_stage_fork p w) = lapses w) as Hrb by (intros v; unfold rollback_prepared_stage_fork; by destruct (workspace p)).
  assert (∀ v l, l ∈ lapses v → ∀ l', l ∈ lapses (note_lapse l' v)) as Hl by (intros v l ? l'; by right).
  destruct pc as [| | | | | | | | | | |[]|o|o| | | | | | | |]; try (exfalso; apply Hpc; clear; set_solver); cbn [stage_step].
  - destruct (release_frame (answered c) (database c) (ok c) (removes c) w) as (_ & _ & _ & _ & H1 & H2 & _ & H3 & _).
    destruct (release_lifecycle_operation_for_task _ _ _ _ w) as [w' []]; cbn [fst snd] in *; [by rewrite H1, H2, H3|].
    destruct (Hrb w') as (-> & -> & ->). by rewrite H1, H2, H3.
  - by destruct (ok c).
  - destruct (Hrb w) as (H1 & H2 & H3). cbn. by rewrite H1, H2, H3.
  - by destruct (ok c).
  - destruct (ok c); [|done]. by destruct (persist_stage_operation_intent p r Prepared (db w)).
  - destruct (finish_running_frame w) as (_ & _ & _ & _ & H1 & H2 & H3 & _). destruct (ok c); [|done]. cbn. by rewrite H1, H2, H3.
  - by destruct (ok c).
  - destruct (workspace p); [done|by destruct (ok c)..].
  - destruct (ok c); [|done]. by destruct (update_lifecycle_operation_phase r SpawnReady (db w)) as [d []].
  - by destruct (ok c && _).
  - destruct (ok c); [done|]. destruct (bool_decide (o = Created)); [|done]. split_and!; [done|done|intros; by apply Hl].
  - destruct (negb (answered c)); [done|]. by destruct o.
  - destruct (headless p); [done|]. by destruct (ok c).
  - destruct (negb (ok c)); [done|]. by destruct (reconcile_stage_operation_db p r (db w)).
  - destruct (ok c); [done|]. split_and!; [done|done|intros; by apply Hl].
  - by destruct (ok c).
  - destruct (Hrb w) as (H1 & H2 & H3). destruct (removes c); [|done]. cbn. by rewrite H1, H2, H3.
  - by destruct (ok c).
  - destruct (ok c); [done|]. split_and!; [done|done|intros; by apply Hl].
  - destruct (Hrb w) as (H1 & H2 & H3). destruct (removes c); [|done]. cbn. rewrite H1, H2, H3. split_and!; [done|done|]. by right.
Qed.

Lemma post_step_crossed c d p r inh pc w :
  let x := post_step c d p r inh pc w in
  submitted x.1 = submitted w ∧ crossed x.1 = crossed w ∧ ∀ l, l ∈ lapses w → l ∈ lapses x.1.
Proof.
  destruct pc as [| | | |fb| |]; cbn [post_step].
  - destruct (release_frame (answered c) (database c) (ok c) (removes c) w) as (_ & _ & _ & _ & H1 & H2 & _ & H3 & _).
    destruct (release_lifecycle_operation_for_task _ _ _ _ w) as [w' b]. cbn [fst snd] in *. by rewrite H1, H2, H3.
  - destruct (negb (ok c)); [done|]. destruct (latest_stage_run (db w)); [|done]. by case_bool_decide.
  - destruct (ok c); [|done]. by destruct (persist_post_operation_intent p r inh (db w)).
  - destruct d; try done. destruct (crosses c); [done|]. split_and!; [done|done|]. by right.
  - destruct (ok c); [done|]. split_and!; [done|done|]. by right.
  - destruct (ok c); [|done]. by destruct (commit_post r _ (db w)).
  - by destruct (ok c).
Qed.

Lemma spawn_crosses c p r pc w k :
  pc ∈ [SDeclare; SSend true; SSend false] → op_holds w (StageOp p r pc) → CrossInv (mkSystem w (Some (StageOp p r pc)) k) →
  CrossInv (mkSystem (stage_step c p r pc w).1 ((λ pc, StageOp p r pc) <$> (stage_step c p r pc w).2) k).
Proof.
  intros Hpc Hh HI.
  assert (∀ o l w' next, crossed w' = crossed w → submitted w' = submitted w → lapses w' = lapses w ∨ lapses w' = l :: lapses w →
            CrossInv (mkSystem (daemon_reads p o (note_crossed r (note_submitted r w'))) next k)) as Hgo.
  { intros o l w' next Hc Hs Hl. set (w2 := daemon_reads _ _ _).
    assert (crossed w2 = r :: crossed w ∧ submitted w2 = r :: submitted w ∧ lapses w2 = lapses w') as (G1 & G2 & G3)
      by (subst w2; destruct o; cbn; by rewrite ?Hc, ?Hs).
    intros x Hx. cbn [world] in *. rewrite G2 in Hx. rewrite G1, G3. apply elem_of_cons in Hx as [->|Hx]; [left; by left|].
    destruct (HI x Hx) as [?|[?|(p' & [= <- <- ?] & _)]]; [left; by right|right; left; destruct Hl as [->|Hl]; [done|rewrite Hl; by right]|left; by left]. }
  assert (pc ≠ SSend false ∨ headless p = false → ∀ next, CrossInv (mkSystem w next k)) as Hstay.
  { intros Hne next. eapply (cross_frame w _ k); [exact HI|done|done|done|]. intros p' r' [= <- <- ->] Hhd. destruct Hne; congruence. }
  repeat (apply elem_of_cons in Hpc as [-> |Hpc]); [..|by apply not_elem_of_nil in Hpc]; cbn [stage_step].
  - destruct Hh as (Hi & _ & Hhead). destruct (ok c); cbn [fst snd fmap option_fmap option_map]; [|apply Hstay; by left].
    intros x Hx. cbn in Hx. apply elem_of_cons in Hx as [->|Hx].
    + assert (intent (db (mark_phase r Submitted (note_submitted r w))) = Some (own_intent p r Submitted)) as H by by eapply (mark_own p r SpawnReady).
      right; right. exists p. split_and!; [done|done|]. cbn [world]. by rewrite (own_declared p r Submitted _ H).
    + destruct (HI x Hx) as [?|[?|(p' & [= _ _ ?] & _)]]; [by left|by right; left].
  - set (o := if true && _ then Refused else outcome c). destruct (headless p) eqn:Hhead.
    + destruct (negb (crosses c)); [apply Hstay; by left|]. cbn [fst snd].
      destruct (bool_decide (o = Created) && _); apply (Hgo o SpawnUnmarked); auto.
    + destruct (negb (ok c)); [apply Hstay; by left|]. destruct (negb (crosses c)); [apply Hstay; by left|].
      destruct (written c); [apply (Hgo o SpawnUnmarked); auto|]. cbn [fst snd].
      destruct (bool_decide (o = Created)); [|apply (Hgo o SpawnUnmarked); auto].
      eapply (cross_frame _ None k); [apply (Hgo o SpawnUnmarked w None); auto|done|done|by right|done].
  - set (o := if false && _ then Refused else outcome c). destruct (headless p) eqn:Hhead.
    + destruct (negb (crosses c)); cbn [negb andb].
      * eapply (cross_frame w _ k); [exact HI|by destruct (declared r (db w))|by destruct (declared r (db w))|..].
        -- intros l Hl. destruct (declared r (db w)); [by right|done].
        -- intros p' r' [= <- <-] _ Hd. rewrite Hd. right; left. by left.
      * cbn [fst snd]. destruct (bool_decide (o = Created) && _); apply (Hgo o SpawnUnmarked); auto.
    + destruct (negb (ok c)); [apply Hstay; by right|]. destruct (negb (crosses c)); [apply Hstay; by right|].
      destruct (written c); [apply (Hgo o SpawnUnmarked); auto|]. cbn [fst snd].
      destruct (bool_decide (o = Created)); [|apply (Hgo o SpawnUnmarked); auto].
      eapply (cross_frame _ None k); [apply (Hgo o SpawnUnmarked w None); auto|done|done|by right|done].
Qed.

Lemma step_crosses s e : guarded e → WorkInv s → CrossInv s → CrossInv (step s e).
Proof.
  intros Hg HW HI. destruct s as [w o k]. pose proof HW as [Ha _ _]. cbn in Ha.
  destruct e as [p|p|c d| |da q rm| | |st|rm]; cbn [step world process clock].
  - destruct o as [o|]; [exact HI|]. destruct (fork_is_fresh p w); [|exact HI].
    eapply (cross_frame w None k); [exact HI|..]; unfold prepare_fork; by destruct (workspace p).
  - destruct o as [o|]; [exact HI|]. destruct (workspace (fallback p)); [|exact HI..]. by eapply (cross_frame w None k).
  - destruct o as [[p r pc|p r i pc]|]; [..|exact HI].
    + specialize (Ha _ eq_refl). destruct (decide (pc ∈ [SDeclare; SSend true; SSend false])) as [He|He].
      * pose proof (spawn_crosses c p r pc w k He Ha HI) as H. by destruct (stage_step c p r pc w).
      * destruct (stage_step_crossed c p r pc w He) as (H1 & H2 & H3). destruct (stage_step c p r pc w) as [w' next]. cbn [fst] in *.
        eapply (cross_frame w _ k); [exact HI|done|by rewrite H2|done|]. intros p' r' [= <- <- ->]. destruct He. clear. set_solver.
    + destruct (post_step_crossed c d p r i pc w) as (H1 & H2 & H3).
      destruct (post_step c d p r i pc w) as [w' [|i' pc'|]]; cbn [fst] in *; (eapply (cross_frame w _ k); [exact HI|done|by rewrite H2|done|done]).
  - destruct o as [o|]; [|exact HI]. destruct (abandon_frame o w) as [Hw|(l & Hw & _)]; rewrite Hw.
    + eapply (cross_frame w _ k); [exact HI|done..|]. intros p r [= ->] _ Hd. cbn in Hw. rewrite Hd in Hw. apply (f_equal (length ∘ lapses)) in Hw. cbn in Hw. lia.
    + eapply (cross_frame w _ k); [exact HI|done|done|by right|]. intros p r [= ->] _ Hd. cbn in Hw. rewrite Hd in Hw.
      right; left. rewrite <- Hw. by left.
  - destruct o as [o|]; [exact HI|]. unfold reconcile_lifecycle_operations. destruct (intent (db w)) as [i|] eqn:Hi; [|exact HI].
    assert (∀ q, CrossInv (mkSystem (reconcile_lifecycle_operation (Some (live w)) q rm i w) None k)) as Hrec.
    { intros q'. destruct (reconcile_frame q' rm w i Hi) as (_ & _ & _ & H1 & H2 & _ & H3 & _).
      eapply (cross_frame w None k); [exact HI|done|by rewrite H2|by rewrite H3|done]. }
    destruct da; [apply Hrec|]. destruct (reconcile_silent q rm w i) as [q' ->]. apply Hrec.
  - eapply (cross_frame w o k); [exact HI|done..|]. intros p r Ho Hh Hd. auto.
  - eapply (cross_frame w o k); [exact HI|done..|]. intros p r Ho Hh Hd. auto.
  - destruct o as [o|]; [exact HI|]. destruct (finish_latest_running_stage_run st None None (db w)) as [[d' x]|]; [|exact HI]. by eapply (cross_frame w None k).
  - done.
Qed.

End Server.
