(* ===== verification/StageOpsProofs.v ===== *)
(** * Stage operations: the runs, and the theorems

    By induction on the history: a run the rows show running was started; the four
    theorems on any history of a task, and the histories that show their bounds. *)

From S2P Require Import Prelude RustStd StageRuns StageOps StageOpsSpec StageWork StageMoves.
Local Open Scope Z_scope.

Section Server.
Context {T : Task}.

(** ** The runs the rows show running *)

Definition run_ids (w : World) : list Z := map id (runs (db w)).

Definition stage_open (w : World) (r : Z) : Prop :=
  ∃ i p, intent (db w) = Some i ∧ payload i = PStage p ∧ p_run_id p = r.

(** What a running row stands for: an agent whose spawn began to cross, a post that
    was given, an operation still open, or one of two lapses. *)
Definition accounted (w : World) (r : Z) : Prop :=
  r ∈ submitted w ∨ r ∈ delivered w ∨ RunUnrecorded ∈ lapses w ∨ PostUnsent ∈ lapses w ∨ stage_open w r.

Record RunCore (w : World) (k : Z) : Prop := mkRunCore {
  rc_once : NoDup (run_ids w);
  rc_old r : r ∈ run_ids w → r < k;
  rc_running x : x ∈ runs (db w) → status x = Running → accounted w (id x)
}.

Definition posts_sent (w : World) (o : option Process) : Prop :=
  ∀ i q, intent (db w) = Some i → payload i = PPost q →
    intent_id i ∈ delivered w ∨ PostUnsent ∈ lapses w
    ∨ ∃ p inh pc, o = Some (PostOp p (intent_id i) inh pc) ∧ (pc = PSend ∨ ∃ fb, pc = PAbort fb).

Definition before_record (pc : StagePc) : bool :=
  match pc with SRelease | SSetup | SRollbackSetup | SRecordSetupFailure | SPersist | SOutgoing | SKill | SShell | SReady | SRecord => true | _ => false end.

Definition closed_out (w : World) (r : Z) : Prop :=
  RunUnrecorded ∈ lapses w ∨ ∀ x, x ∈ runs (db w) → id x = r → status x ≠ Running.

Definition op_runs (w : World) (o : Process) : Prop :=
  match o with
  | StageOp p r pc => (before_record pc = true → r ∉ run_ids w) ∧ (pc = SAbort → closed_out w r)
  | PostOp p r _ pc => pc = PBind → r ∈ delivered w
  end.

Record RunInv (s : System) : Prop := mkRunInv {
  ri_core : RunCore (world s) (clock s);
  ri_posts : posts_sent (world s) (process s);
  ri_op o : process s = Some o → op_runs (world s) o
}.

(** Rows are finished, never started again. *)
Definition only_finished (l l' : list StageRun) : Prop :=
  map id l' = map id l ∧ ∀ x, x ∈ l' → status x = Running → ∃ y, y ∈ l ∧ id y = id x ∧ status y = Running.

Lemma only_finished_refl l : only_finished l l.
Proof. split; [done|]. intros x ? ?. by exists x. Qed.

Lemma only_finished_update i s res fb l : s ≠ Running → only_finished l (update_run i (with_outcome s res fb) l).
Proof.
  intros Hs. unfold only_finished, update_run. split.
  - rewrite map_map. apply map_ext. intros x. by destruct (id x =? i).
  - intros x (y & -> & Hy)%list_elem_of_fmap. destruct (id y =? i); [done|]. intros ?. by exists y.
Qed.

Lemma core_frame w w' k :
  RunCore w k → only_finished (runs (db w)) (runs (db w')) →
  (∀ r, r ∈ submitted w → r ∈ submitted w') → (∀ r, r ∈ delivered w → r ∈ delivered w') → (∀ l, l ∈ lapses w → l ∈ lapses w') →
  (∀ x, x ∈ runs (db w') → status x = Running → stage_open w (id x) → accounted w' (id x)) → RunCore w' k.
Proof.
  intros [H1 H2 H3] [Hids Hrun] Hs Hd Hl Ho. assert (run_ids w' = run_ids w) as He by exact Hids. split; rewrite ?He; [done..|].
  intros x Hx Hr. destruct (Hrun x Hx Hr) as (y & Hy & Hid & Hyr). specialize (H3 y Hy Hyr). rewrite Hid in H3. destruct H3 as [H|[H|[H|[H|H]]]].
  - left. by apply Hs.
  - right; left. by apply Hd.
  - do 2 right; left. by apply Hl.
  - do 3 right; left. by apply Hl.
  - by apply Ho.
Qed.

Lemma core_add w w' k x :
  RunCore w k → runs (db w') = runs (db w) ++ [x] → submitted w' = submitted w → delivered w' = delivered w → lapses w' = lapses w →
  intent (db w') = intent (db w) → id x ∉ run_ids w → id x < k → (status x = Running → accounted w' (id x)) → RunCore w' k.
Proof.
  intros [H1 H2 H3] Hr Hs Hd Hl Hi Hn Hk Hx. assert (run_ids w' = run_ids w ++ [id x]) as He by (unfold run_ids; by rewrite Hr, map_app).
  split; rewrite ?He.
  - apply NoDup_app. split_and!; [done| |by apply NoDup_singleton]. by intros y Hy ->%list_elem_of_singleton.
  - intros y [Hy| ->%list_elem_of_singleton]%elem_of_app; [by apply H2|done].
  - intros y. rewrite Hr. intros [Hy| ->%list_elem_of_singleton]%elem_of_app Hyr; [|by apply Hx].
    specialize (H3 y Hy Hyr). unfold accounted, stage_open in *. by rewrite Hs, Hd, Hl, Hi.
Qed.

Lemma finish_running_only w : only_finished (runs (db w)) (runs (db (finish_running w))).
Proof.
  unfold finish_running. destruct (finish_latest_running_stage_run Succeeded None None (db w)) as [[d o]|] eqn:Hf; [|apply only_finished_refl].
  apply finish_latest_Some in Hf as [-> |(i & ->)]; [apply only_finished_refl|]. by apply only_finished_update.
Qed.

Lemma fail_bound_only r (d : Db) : only_finished (runs d) (runs (fail_bound_stage_run r d)).
Proof.
  unfold fail_bound_stage_run. destruct (finish_stage_run r Failed _ spawn_failed d) as [d'|] eqn:Hf; [|apply only_finished_refl].
  autorewrite with stage_db. apply finish_stage_run_Some in Hf as ->. by apply only_finished_update.
Qed.

Lemma fail_bound_closes r (d : Db) x : x ∈ runs (fail_bound_stage_run r d) → id x = r → status x ≠ Running.
Proof.
  unfold fail_bound_stage_run. destruct (finish_stage_run r Failed _ spawn_failed d) as [d'|] eqn:Hf.
  - autorewrite with stage_db. apply finish_stage_run_Some in Hf as ->. cbn. intros Hx Hid. by rewrite (update_run_failed _ _ _ _ _ Hx Hid).
  - intros Hx Hid. unfold finish_stage_run in Hf. destruct (stage_run d r) eqn:Hs; [done|]. apply list_elem_of_In in Hx.
    pose proof (find_none _ _ Hs _ Hx) as Hn. cbn in Hn. lia.
Qed.

Lemma fail_db_only i p (d : Db) : only_finished (runs d) (runs (fail_lifecycle_operation_db i p d)).
Proof. destruct (fail_db_runs i p d) as [-> | ->]; [apply only_finished_refl|by apply only_finished_update]. Qed.

(** A post is bound by one run, made once. *)
Lemma bind_post_runs q (d : Db) :
  (stage_run d (q_run_id q) ≠ None ∧ bind_post q d = d)
  ∨ ∃ l x, only_finished (runs d) l ∧ runs (bind_post q d) = l ++ [x] ∧ id x = q_run_id q ∧ q_run_id q ∉ map id l.
Proof.
  unfold bind_post. destruct (stage_run d (q_run_id q)) as [y|] eqn:Hs; [by left|right].
  set (d1 := match q_inherited_run_id q with Some _ => _ | None => d end).
  assert (only_finished (runs d) (runs d1)) as H1.
  { subst d1. destruct (q_inherited_run_id q) as [j|]; [|apply only_finished_refl]. destruct (stage_run d j) as [z|] eqn:Hz; [|apply only_finished_refl].
    case_bool_decide; [|apply only_finished_refl]. unfold finish_stage_run. rewrite Hz. by apply only_finished_update. }
  exists (runs d1). eexists. split_and!; [done|by rewrite runs_insert_stage_run|done|].
  destruct H1 as [-> _]. intros (z & Hz & Hin)%list_elem_of_fmap. apply list_elem_of_In in Hin. pose proof (find_none _ _ Hs _ Hin) as Hn. cbn in Hn. lia.
Qed.

Lemma bind_post_core w w' k q :
  RunCore w k → runs (db w') = runs (bind_post q (db w)) → submitted w' = submitted w → delivered w' = delivered w → lapses w' = lapses w →
  (∀ x, ¬ stage_open w x) → q_run_id q < k → q_run_id q ∈ delivered w ∨ PostUnsent ∈ lapses w → RunCore w' k.
Proof.
  intros HC Hr Hs Hd Hl Ho Hk Hq. destruct (bind_post_runs q (db w)) as [[_ He]|(l & x & Hf & He & Hid & Hn)]; rewrite He in Hr.
  - eapply core_frame; [exact HC|rewrite Hr; apply only_finished_refl|by rewrite Hs|by rewrite Hd|by rewrite Hl|]. intros y _ _ Hy. by destruct (Ho (id y)).
  - set (w1 := set_db (set_intent (intent (db w')) (set_runs l (db w))) w).
    assert (RunCore w1 k) as HC1 by (eapply core_frame; [exact HC|exact Hf|done..|]; intros y _ _ Hy; by destruct (Ho (id y))).
    eapply (core_add w1 w' k x); try done; [by rewrite Hid|by rewrite Hid|].
    intros _. unfold accounted. rewrite Hid, Hd, Hl. destruct Hq; tauto.
Qed.

Definition run_added (w w' : World) (i : Z) : Prop := ∀ r, r ∈ run_ids w' → r ∈ run_ids w ∨ r = i.

Lemma only_finished_added w w' i : only_finished (runs (db w)) (runs (db w')) → run_added w w' i.
Proof. intros [He _] r. unfold run_ids. rewrite He. by left. Qed.

Lemma posts_any w o : posts_sent w None → posts_sent w o.
Proof. intros H i q Hi Hq. destruct (H i q Hi Hq) as [?|[?|(? & ? & ? & ? & _)]]; [by left|by right; left|done]. Qed.

Lemma posts_still w w' i i' :
  posts_sent w None → intent (db w) = Some i → intent (db w') = Some i' → still_open i i' → delivered w' = delivered w → lapses w' = lapses w →
  posts_sent w' None.
Proof.
  intros Hps Hi Hi' (H1 & _ & H3 & _) Hd Hl j p Hj Hp. rewrite Hi' in Hj. injection Hj as <-. rewrite H1, Hd, Hl. rewrite H3 in Hp.
  destruct (Hps i p Hi Hp) as [?|[?|(? & ? & ? & ? & _)]]; [by left|by right; left|done].
Qed.

Lemma reconcile_runs q removes w k i :
  RunCore w k → IntentInv w k i → posts_sent w None → intent (db w) = Some i →
  let w' := reconcile_lifecycle_operation (Some (live w)) q removes i w in
  RunCore w' k ∧ posts_sent w' None ∧ run_added w w' (intent_id i).
Proof.
  intros HC [F1 F2 F3 F4 F5 F6 F7] Hps Hi w'.
  assert (RunCore w' k ∧ run_added w w' (intent_id i)) as [H1 H2].
  2: { subst w'. split_and!; [exact H1| |exact H2]. destruct (reconcile_frame q removes w i Hi) as (Ho & _ & _ & _ & _ & Hd & Hl & _).
       destruct Ho as [Ho|(_ & i' & Ho & Hs)]; [intros j p Hj; congruence|by eapply (posts_still w _ i i')]. }
  assert (∀ w' p, payload i = PStage p → only_finished (runs (db w)) (runs (db w')) → submitted w' = submitted w → delivered w' = delivered w →
            lapses w' = lapses w → (intent_id i ∈ submitted w ∨ ∀ x, x ∈ runs (db w') → id x = p_run_id p → status x ≠ Running) →
            RunCore w' k ∧ run_added w w' (intent_id i)) as Hstage.
  { intros v p Hp Ho Hs Hd Hl Hr. split; [|by apply only_finished_added]. eapply core_frame; [exact HC|done|by rewrite Hs|by rewrite Hd|by rewrite Hl|].
    intros x Hx Hxr (j & p' & Hj & Hp' & Hid). rewrite Hi in Hj. injection Hj as <-. rewrite Hp in Hp'. injection Hp' as <-.
    destruct Hr as [Hr|Hr]; [left; rewrite Hs, <- Hid; by rewrite F2|by destruct (Hr x Hx)]. }
  subst w'. destruct (reconcile_spec q removes w i) as [Hq|p Hp|Hno|p ws d Hp Hws Hc Hts Hd|p Hp Hc Hs|p Hp Hs Hn].
  - split; [done|by left].
  - destruct (finalize_post_spec q i p (db w) Hi) as (_ & Hr & _).
    set (w' := set_db _ w). assert (runs (db w') = runs (bind_post p (db w))) as Hr' by exact Hr.
    assert (q_run_id p = intent_id i) as Hid by by apply F3. split.
    + eapply (bind_post_core w w' k p); try done.
      * intros x (j & p' & Hj & Hjq & _). congruence.
      * lia.
      * rewrite Hid. destruct (Hps i p Hi Hp) as [?|[?|(? & ? & ? & ? & _)]]; [by left|by right|done].
    + intros r. unfold run_ids. rewrite Hr'. destruct (bind_post_runs p (db w)) as [[_ ->]|(l & x & [Hf _] & -> & Hx & _)]; [by left|].
      rewrite map_app, Hf. cbn [map]. rewrite Hx. intros [?|Hin%list_elem_of_singleton]%elem_of_app; [by left|right; congruence].
  - done.
  - destruct (reconcile_stage_payload_Some i p ws (db w) Hc Hws) as (d' & Hd' & _ & _ & Hr & _). rewrite Hd in Hd'. injection Hd' as <-.
    eapply Hstage; try done; cbn; [rewrite Hr; apply only_finished_refl|]. left.
    destruct Hts as [Hph|(Hph & _ & Hl)]; [by eapply F6|]. eapply F7; [done|done|by eexists].
  - eapply Hstage; try done; cbn; [rewrite (afterwards_keeps runs) by done; apply fail_db_only|]. left. by eapply F6.
  - destruct (fail_operation_frame i p RollBackFreshFork removes w) as (Hdb & _ & _ & H1 & _ & H2 & _ & H3 & _).
    eapply Hstage; try done; rewrite Hdb; [apply fail_db_only|]. right. intros x Hx Hid. eapply fail_db_run_closed; [done|done|by destruct HC].
Qed.

Lemma release_runs answers q last removes w k o s0 :
  RunCore w k → LandInv s0 (mkSystem w o k) → posts_sent w None →
  let x := release_lifecycle_operation_for_task answers q last removes w in
  RunCore x.1 k ∧ posts_sent x.1 None ∧ (run_ids x.1 = run_ids w ∨ ∃ i, intent (db w) = Some i ∧ run_added w x.1 (intent_id i)).
Proof.
  intros HC HL Hp. unfold release_lifecycle_operation_for_task, has_lifecycle_operation_for_task.
  case_bool_decide; [split_and!; [done..|by left]|]. destruct (intent (db w)) as [i|] eqn:Hi.
  - rewrite bool_decide_true by by eexists. cbn [negb]. destruct answers; cbn [negb fst]; [|split_and!; [done|done|by left]].
    unfold reconcile_lifecycle_operations. rewrite Hi. pose proof (li_intent _ _ HL i Hi) as HI. cbn in HI.
    destruct (reconcile_runs q removes w k i HC HI Hp Hi) as (H1 & H2 & H3). split_and!; [done|done|right; by exists i].
  - rewrite bool_decide_false by by intros []. cbn. split_and!; [done|done|by left].
Qed.

(** What a call of a stage move leaves. *)
Definition runs_ok (k : Z) (p : PreparedStageRunSpawn) (r : Z) (x : World * option StagePc) : Prop :=
  RunCore x.1 k ∧ posts_sent x.1 None ∧ ∀ pc, x.2 = Some pc → op_runs x.1 (StageOp p r pc).

Lemma posts_own w p r ph o : intent (db w) = Some (own_intent p r ph) → posts_sent w o.
Proof. intros Hi i q Hi' Hq. rewrite Hi in Hi'. by injection Hi' as <-. Qed.

Lemma posts_none w o : intent (db w) = None → posts_sent w o.
Proof. intros Hi i q Hi'. congruence. Qed.

Lemma own_open w p r ph x : intent (db w) = Some (own_intent p r ph) → stage_open w x ↔ x = r.
Proof.
  intros Hi. unfold stage_open. rewrite Hi. unfold own_intent, stage_operation_payload. split.
  - intros (i & q & Heq & Hq & <-). injection Heq as <-. cbn in Hq. injection Hq as <-. by destruct (workspace p).
  - intros ->. eexists _, _. split_and!; [done|cbn; done|]. by destruct (workspace p).
Qed.

(** A call that leaves the operation's intent open, or none. *)
Lemma runs_step k p r w w' next :
  RunCore w k → only_finished (runs (db w)) (runs (db w')) →
  (∀ x, x ∈ submitted w → x ∈ submitted w') → delivered w' = delivered w → (∀ l, l ∈ lapses w → l ∈ lapses w') →
  ((∃ ph ph', intent (db w) = Some (own_intent p r ph) ∧ intent (db w') = Some (own_intent p r ph')) ∨ intent (db w) = None ∧ intent (db w') = None) →
  (∀ pc, next = Some pc → op_runs w' (StageOp p r pc)) → runs_ok k p r (w', next).
Proof.
  intros HC Ho Hs Hd Hl Hi Hn. split; [|split; [|done]]; cbn.
  - eapply core_frame; [exact HC|done|done|by rewrite Hd|done|]. intros x _ _ Hx. do 4 right.
    destruct Hi as [(ph & ph' & H1 & H2)|[H1 _]]; [|by destruct Hx as (? & ? & ? & _); congruence].
    rewrite (own_open w' p r ph') by done. by rewrite (own_open w p r ph) in Hx.
  - destruct Hi as [(ph & ph' & _ & H2)|[_ H2]]; [by eapply posts_own|by apply posts_none].
Qed.

(** The operation's intent is dropped. *)
Lemma runs_close k p r w w' next ph :
  RunCore w k → runs (db w') = runs (db w) → submitted w' = submitted w → delivered w' = delivered w → lapses w' = lapses w →
  intent (db w) = Some (own_intent p r ph) → intent (db w') = None → r ∈ submitted w ∨ closed_out w r →
  (∀ pc, next = Some pc → op_runs w' (StageOp p r pc)) → runs_ok k p r (w', next).
Proof.
  intros HC Hr Hs Hd Hl Hi Hi' Hc Hn. split; [|split; [by apply posts_none|done]]; cbn.
  eapply core_frame; [exact HC|rewrite Hr; apply only_finished_refl|by rewrite Hs|by rewrite Hd|by rewrite Hl|].
  intros x Hx Hxr Hopen. rewrite (own_open w p r ph) in Hopen by done. rewrite Hr in Hx. unfold accounted. rewrite Hs, Hl, Hopen.
  destruct Hc as [?|[?|Hc]]; [tauto|tauto|by destruct (Hc x Hx Hopen)].
Qed.

Lemma fresh_closed w r : r ∉ run_ids w → closed_out w r.
Proof. intros Hn. right. intros x Hx Hid _. apply Hn. unfold run_ids. rewrite <- Hid. apply list_elem_of_fmap. by exists x. Qed.

Lemma op_runs_quiet w p r pc : before_record pc = false → pc ≠ SAbort → op_runs w (StageOp p r pc).
Proof. intros Hb Hn. split; congruence. Qed.

Lemma op_runs_fresh w p r pc : r ∉ run_ids w → op_runs w (StageOp p r pc).
Proof. intros Hn. split; [done|]. intros _. by apply fresh_closed. Qed.

Lemma early_runs c p r pc w k :
  pc ∈ [SSetup; SRollbackSetup; SRecordSetupFailure; SPersist; SOutgoing; SKill; SShell; SReady; SRecord] →
  op_holds w (StageOp p r pc) → RunCore w k → r < k → r ∉ run_ids w →
  runs_ok k p r (stage_step c p r pc w).
Proof.
  intros Hpc Hh HC Hrk Hn.
  assert (∀ w', run_ids w' = run_ids w → ∀ pc', op_runs w' (StageOp p r pc')) as Hop by (intros w' He pc'; apply op_runs_fresh; by rewrite He).
  repeat (apply elem_of_cons in Hpc as [-> |Hpc]; cbn [op_holds] in Hh); [..|by apply not_elem_of_nil in Hpc]; cbn [stage_step].
  - destruct Hh as [Hi _]. destruct (ok c); (eapply runs_step; [exact HC|apply only_finished_refl|done|done|done|by right|]); intros ? _; by apply Hop.
  - destruct Hh as [Hi _]. destruct (rollback_frame p w) as (H1 & _ & _ & H4 & H5 & H6).
    eapply runs_step; [exact HC|rewrite H1; apply only_finished_refl|by rewrite H4|done|by rewrite H6|right; by rewrite H1|].
    intros ? _. apply Hop. unfold run_ids. by rewrite H1.
  - destruct (ok c); [|split_and!; [done|by apply posts_none|done]]. split_and!; cbn [fst snd]; [|apply posts_none|done].
    + eapply (core_add w); [exact HC|cbn [db set_db]; rewrite runs_insert_stage_run; by autorewrite with stage_db|done|done|done| |done|done|done].
      cbn [db set_db]. by autorewrite with stage_db.
    + cbn [db set_db]. by autorewrite with stage_db.
  - destruct Hh as [Hi _]. destruct (ok c); [|by split_and!; [|apply posts_none|]].
    unfold persist_stage_operation_intent, insert_lifecycle_operation_intent. rewrite Hi. split_and!; cbn [fst snd].
    + eapply core_frame; [exact HC|apply only_finished_refl|done|done|done|]. intros x _ _ (j & ? & Hj & _). congruence.
    + by eapply (posts_own _ p r Prepared).
    + intros ? _. by apply Hop.
  - destruct Hh as [Hi _]. destruct (finish_running_frame w) as (H1 & _ & _ & _ & H5 & H6 & _ & H7 & _).
    destruct (ok c); (eapply runs_step; [exact HC| |..]).
    + apply finish_running_only.
    + by rewrite H6.
    + done.
    + by rewrite H5.
    + left. exists Prepared, Prepared. by rewrite H1.
    + intros ? _. apply Hop. apply (finish_running_only w).
    + apply only_finished_refl.
    + done.
    + done.
    + done.
    + left. by exists Prepared, Prepared.
    + done.
  - destruct Hh as [Hi _]. destruct (ok c); (eapply runs_step; [exact HC|apply only_finished_refl|done|done|done|left; by exists Prepared, Prepared|]); intros ? _; by apply Hop.
  - destruct Hh as [Hi _]. destruct (workspace p); [|destruct (ok c)..];
      (eapply runs_step; [exact HC|apply only_finished_refl|done|done|done|left; by exists Prepared, Prepared|]); intros ? _; by apply Hop.
  - destruct Hh as [Hi _]. destruct (ok c).
    + rewrite (update_phase_own r SpawnReady (db w) _ Hi) by done.
      eapply runs_step; [exact HC|apply only_finished_refl|done|done|done|left; by exists Prepared, SpawnReady|]. intros ? _. by apply Hop.
    + eapply runs_step; [exact HC|apply only_finished_refl|done|done|done|left; by exists Prepared, Prepared|done].
  - destruct Hh as [Hi _]. destruct (ok c && _).
    + split_and!; cbn [fst snd].
      * eapply (core_add w); [exact HC|cbn [db set_db]; by rewrite runs_insert_stage_run|done|done|done|cbn [db set_db]; by autorewrite with stage_db|done|done|].
        intros _. do 4 right. apply (own_open _ p r SpawnReady); [|done]. cbn [db set_db]. by autorewrite with stage_db.
      * apply (posts_own _ p r SpawnReady). cbn [db set_db]. by autorewrite with stage_db.
      * intros ? [= <-]. destruct (headless p); by apply op_runs_quiet.
    + eapply runs_step; [exact HC|apply only_finished_refl|done|done|done|left; by exists SpawnReady, SpawnReady|done].
Qed.

(** A headless spawn is declared submitted. *)
Lemma declare_runs c p r w k :
  op_holds w (StageOp p r SDeclare) → RunCore w k → runs_ok k p r (stage_step c p r SDeclare w).
Proof.
  intros (Hi & _) HC. cbn [stage_step]. destruct (ok c).
  - eapply runs_step; [exact HC| |by right|done|done|left; exists SpawnReady, Submitted; split; [exact Hi|by eapply (mark_own p r SpawnReady)]|].
    + unfold mark_phase. cbn [db set_db note_submitted]. rewrite (update_phase_own r Submitted (db w) _ Hi) by done. apply only_finished_refl.
    + intros ? [= <-]. by apply op_runs_quiet.
  - eapply runs_step; [exact HC|apply only_finished_refl|done|done|done|left; by exists SpawnReady, SpawnReady|].
    intros ? [= <-]. by apply op_runs_quiet.
Qed.

(** The world after a call of [SSend]. *)
Lemma send_runs c p r again w k :
  op_holds w (StageOp p r (SSend again)) → RunCore w k → runs_ok k p r (stage_step c p r (SSend again) w).
Proof.
  intros [(ph & Hi) _] HC.
  assert (∀ w' next, runs (db w') = runs (db w) → (∀ x, x ∈ submitted w → x ∈ submitted w') → delivered w' = delivered w → (∀ l, l ∈ lapses w → l ∈ lapses w') →
            intent (db w') = intent (db w) → (∀ pc, next = Some pc → before_record pc = false ∧ pc ≠ SAbort) → runs_ok k p r (w', next)) as Hgo.
  { intros w' next Hr Hs Hd Hl Hi' Hn. eapply runs_step; [exact HC|rewrite Hr; apply only_finished_refl|done|done|done|left; exists ph, ph; by rewrite Hi'|].
    intros pc Hpc. by apply op_runs_quiet; apply Hn. }
  cbn [stage_step]. set (o := if again && _ then Refused else outcome c).
  assert (∀ v, let w2 := daemon_reads p o (note_crossed r (note_submitted r v)) in
            db w2 = db v ∧ submitted w2 = r :: submitted v ∧ delivered w2 = delivered v ∧ lapses w2 = lapses v) as Hd by (intros v; by destruct o).
  destruct (headless p).
  - destruct (negb (crosses c)); [destruct (negb again && _); apply Hgo; try done; intros ? ?; by right|].
    set (v := if bool_decide (o = Created) && _ then _ else w).
    assert (db v = db w ∧ submitted v = submitted w ∧ delivered v = delivered w ∧ ∀ l, l ∈ lapses w → l ∈ lapses v) as (G1 & G2 & G3 & G4)
      by (subst v; destruct (bool_decide (o = Created) && _); split_and!; try done; intros ? ?; by right).
    destruct (Hd v) as (H1 & H2 & H3 & H4).
    apply Hgo; rewrite ?H1, ?H2, ?H3, ?H4, ?G1, ?G2, ?G3; try done; [intros ? ?; by right|]. destruct (written c); [by intros ? [= <-]|done].
  - destruct (negb (ok c)); [apply Hgo; try done; by intros ? [= <-]|]. destruct (negb (crosses c)); [by apply Hgo|].
    destruct (Hd w) as (H1 & H2 & H3 & H4).
    destruct (written c); [apply Hgo; rewrite ?H1, ?H2, ?H3, ?H4; try done; [intros ? ?; by right|by intros ? [= <-]]|].
    destruct (bool_decide (o = Created)); apply Hgo; cbn [db note_lapse submitted delivered lapses]; rewrite ?H1, ?H2, ?H3, ?H4; try done; intros ? ?; by right.
Qed.

Lemma late_runs c p r pc w k s0 :
  pc ∉ [SRelease; SSetup; SRollbackSetup; SRecordSetupFailure; SPersist; SOutgoing; SKill; SShell; SReady; SRecord; SDeclare; SSend true; SSend false] →
  op_holds w (StageOp p r pc) → RunCore w k → op_runs w (StageOp p r pc) → LandInv s0 (mkSystem w (Some (StageOp p r pc)) k) →
  runs_ok k p r (stage_step c p r pc w).
Proof.
  intros Hpc Hh HC [_ Hab] HL. pose proof (li_op _ _ HL _ eq_refl) as (_ & _ & _ & _ & Hsub). cbn [world] in Hsub.
  assert (∀ w' next, only_finished (runs (db w)) (runs (db w')) → submitted w' = submitted w → delivered w' = delivered w → (∀ l, l ∈ lapses w → l ∈ lapses w') →
            (intent (db w') = intent (db w) ∨ ∃ ph', intent (db w') = Some (own_intent p r ph')) → ((∃ ph, intent (db w) = Some (own_intent p r ph)) ∨ intent (db w) = None ∧ intent (db w') = None) →
            (∀ pc, next = Some pc → op_runs w' (StageOp p r pc)) → runs_ok k p r (w', next)) as Hgo.
  { intros w' next Hr Hs Hd Hl Hi' Hi Hn. eapply runs_step; [exact HC|done|by rewrite Hs|done|done| |done].
    destruct Hi as [(ph & Hi)|[Hi Hno]]; [left|by right]. destruct Hi' as [He|(ph' & He)]; [exists ph, ph; by rewrite He|by exists ph, ph']. }
  assert (∀ w' pc', before_record pc' = false → pc' ≠ SAbort → ∀ pc, Some pc' = Some pc → op_runs w' (StageOp p r pc)) as Hq
    by (intros w' pc' Hb Hne ? [= <-]; by apply op_runs_quiet).
  assert (∀ ph w', (∃ ph, intent (db w) = Some (own_intent p r ph)) → db w' = db w → runs (db (mark_phase r ph w')) = runs (db w) ∧ ∃ ph', intent (db (mark_phase r ph w')) = Some (own_intent p r ph')) as Hmark.
  { intros ph w' (ph0 & Hi) Hdb. unfold mark_phase. cbn [db set_db]. rewrite Hdb, (update_phase_own r ph (db w) _ Hi) by done. split; [done|by exists ph]. }
  destruct pc as [| | | | | | | | | | |[]|o|o| | | | | | | |]; try (exfalso; apply Hpc; clear; set_solver); cbn [stage_step].
  - assert (∃ ph, intent (db w) = Some (own_intent p r ph)) as Hi.
    { destruct o; cbn [op_holds] in Hh; [exact Hh|destruct Hh as [(ph & ?) _]; by exists ph..]. }
    destruct (Hmark Submitted w Hi eq_refl) as [Hm1 Hm2].
    destruct (ok c); [|destruct (bool_decide (o = Created))]; (apply Hgo; [..|by apply Hq]); cbn [db set_db note_lapse lapses submitted delivered];
      rewrite ?Hm1; try apply only_finished_refl; try done; try (by left); try (by right); intros ? ?; by right.
  - assert (∃ ph, intent (db w) = Some (own_intent p r ph)) as Hi.
    { destruct o; cbn [op_holds] in Hh; [destruct Hh as (ph & ? & _); by exists ph|destruct Hh as [(ph & ?) _]; by exists ph..]. }
    destruct (answered c); cbn [negb]; [destruct o|]; (apply Hgo; [apply only_finished_refl|done|done|done|by left|by left|]); (by apply Hq) || done.
  - cbn [op_holds] in Hh. assert (∃ ph, intent (db w) = Some (own_intent p r ph)) as Hi by (destruct Hh as [(ph & ?) _]; by exists ph).
    destruct (Hmark SpawnReady w Hi eq_refl) as [Hm1 Hm2].
    destruct (headless p); [|destruct (ok c)]; (apply Hgo; [..|by apply Hq]); rewrite ?Hm1; try apply only_finished_refl; try done; try (by left); by right.
  - cbn [op_holds] in Hh. destruct Hh as (ph & Hi & _). specialize (Hsub eq_refl). destruct (ok c); cbn [negb].
    2: { apply Hgo; [apply only_finished_refl|done|done|done|by left|left; by exists ph|done]. }
    destruct (reconcile_stage_operation_db p r (db w)) as [d|] eqn:Hd.
    2: { apply Hgo; [apply only_finished_refl|done|done|done|by left|left; by exists ph|by apply Hq]. }
    unfold reconcile_stage_operation_db in Hd. destruct (closed (db w)) eqn:Hc; [done|].
    destruct (project_stage_Some (next_stage p) (prepared_workspace p) (sp_trigger p) (sp_provider_session_id p) (db w) Hc) as (d' & Hd' & H1 & H2 & _).
    rewrite Hd' in Hd. cbn [mbind option_bind] in Hd. injection Hd as <-.
    eapply (runs_close k p r w _ None ph); try done; cbn [db set_db note_landed].
    + by rewrite runs_delete_intent.
    + eapply intent_delete_own; [by rewrite H1|done].
    + by left.
  - cbn [op_holds] in Hh. destruct Hh as [(ph & Hi) _]. destruct (ok c).
    + apply Hgo; [apply fail_bound_only|done|done|done|left; cbn [db set_db]; apply fail_bound_intent|left; by exists ph|].
      intros ? [= <-]. split; [done|]. intros _. right. intros x Hx Hid. exact (fail_bound_closes r (db w) x Hx Hid).
    + apply Hgo; [apply only_finished_refl|done|done|by right|by left|left; by exists ph|]. intros ? [= <-]. split; [done|]. intros _. left. by left.
  - cbn [op_holds] in Hh. destruct Hh as [(ph & Hi) _]. destruct (ok c).
    + eapply (runs_close k p r w _ _ ph); try done; cbn [db set_db]; [by rewrite runs_delete_intent|by eapply intent_delete_own|right; by apply Hab|by apply Hq].
    + apply Hgo; [apply only_finished_refl|done|done|done|by left|left; by exists ph|by apply Hq].
  - cbn [op_holds] in Hh. destruct Hh as [Hi _]. destruct (rollback_frame p w) as (H1 & _ & _ & H4 & H5 & H6).
    destruct (removes c); (apply Hgo; [..|done]); rewrite ?H1, ?H4, ?H5, ?H6; try apply only_finished_refl; try done; try (by left);
      (destruct Hi as [Hi|Hi]; [by right|by left]).
  - cbn [op_holds] in Hh. destruct Hh as (ph & Hi & _). destruct (ok c); (apply Hgo; [apply only_finished_refl|done|done|done|by left|left; by exists ph|by apply Hq]).
  - cbn [op_holds] in Hh. destruct Hh as (ph & Hi & _). destruct (ok c).
    + apply Hgo; [apply fail_bound_only|done|done|done|left; cbn [db set_db]; apply fail_bound_intent|left; by exists ph|by apply Hq].
    + apply Hgo; [apply only_finished_refl|done|done|by right|by left|left; by exists ph|by apply Hq].
  - cbn [op_holds] in Hh. destruct Hh as (ph & Hi & _). destruct (rollback_frame p w) as (H1 & _ & _ & H4 & H5 & H6).
    destruct (removes c); (apply Hgo; [..|done]); cbn [db note_lapse lapses submitted delivered]; rewrite ?H1, ?H4, ?H5, ?H6;
      try apply only_finished_refl; try done; try (by left); try (by right); left; by exists ph.
Qed.

Lemma stage_step_runs c p r pc w k s0 :
  op_holds w (StageOp p r pc) → RunInv (mkSystem w (Some (StageOp p r pc)) k) → LandInv s0 (mkSystem w (Some (StageOp p r pc)) k) →
  runs_ok k p r (stage_step c p r pc w).
Proof.
  intros Hh [HC Hp Hop] HL. cbn [world clock process] in *. specialize (Hop _ eq_refl). pose proof (li_op _ _ HL _ eq_refl) as (Hr & _ & Hne & _). cbn [world clock] in *.
  destruct (decide (pc = SRelease)) as [-> |Hn1].
  - assert (posts_sent w None) as Hp' by (intros i q Hi Hq; destruct (Hp i q Hi Hq) as [?|[?|(? & ? & ? & ? & _)]]; [by left|by right; left|done]).
    destruct Hop as [Hfresh _]. specialize (Hfresh eq_refl). cbn [stage_step].
    destruct (release_runs (answered c) (database c) (ok c) (removes c) w k _ s0 HC HL Hp') as (H1 & H2 & H3).
    destruct (release_lifecycle_operation_for_task (answered c) (database c) (ok c) (removes c) w) as [w' b]. cbn [fst] in *. destruct b.
    + split_and!; cbn [fst snd]; [done..|]. intros ? [= <-]. apply op_runs_fresh. destruct H3 as [-> |(i & Hi & Ha)]; [done|].
      intros [?| ->]%Ha; [done|]. by eapply Hne.
    + destruct (rollback_frame p w') as (G1 & _ & _ & G4 & G5 & G6). split_and!; cbn [fst snd]; [| |done].
      * eapply core_frame; [exact H1|rewrite G1; apply only_finished_refl|by rewrite G4|by rewrite G5|by rewrite G6|].
        intros x _ _ Hx. do 4 right. unfold stage_open. by rewrite G1.
      * intros i q. rewrite G1, G5, G6. apply H2.
  - destruct (decide (pc = SSend true ∨ pc = SSend false)) as [[-> | ->]|Hn2]; [by apply send_runs..|].
    destruct (decide (pc = SDeclare)) as [-> |Hn3]; [by apply declare_runs|].
    destruct (decide (pc ∈ [SSetup; SRollbackSetup; SRecordSetupFailure; SPersist; SOutgoing; SKill; SShell; SReady; SRecord])) as [He|He].
    + apply early_runs; try done. apply Hop. clear -He. repeat (apply elem_of_cons in He as [-> |He]; [done|]). by apply not_elem_of_nil in He.
    + eapply late_runs; [|done..]. clear -Hn1 Hn2 Hn3 He. set_solver.
Qed.

(** What a call of a post leaves. *)
Definition post_runs (k : Z) (p : PreparedPostDispatch) (r : Z) (x : World * PostNext) : Prop :=
  RunCore x.1 k
  ∧ match x.2 with
    | Goes i pc => posts_sent x.1 (Some (PostOp p r i pc)) ∧ (pc = PBind → r ∈ delivered x.1)
    | Returns | FallsBack => posts_sent x.1 None
    end.

Lemma post_step_runs c d p r inh pc w k s0 :
  op_holds w (PostOp p r inh pc) → RunInv (mkSystem w (Some (PostOp p r inh pc)) k) → LandInv s0 (mkSystem w (Some (PostOp p r inh pc)) k) →
  post_runs k p r (post_step c d p r inh pc w).
Proof.
  intros [_ Hh] [HC Hp Hop] HL. cbn [world clock process] in *. specialize (Hop _ eq_refl). pose proof (li_op _ _ HL _ eq_refl) as (Hr & _ & _). cbn [world clock op_runs] in *.
  assert (pc ≠ PSend → (∀ fb, pc ≠ PAbort fb) → posts_sent w None) as Hp'.
  { intros Hn1 Hn2 i q Hi Hq. destruct (Hp i q Hi Hq) as [?|[?|(p' & inh' & pc' & Heq & Hpc)]]; [by left|by right; left|]. exfalso.
    assert (pc' = pc) as -> by congruence. destruct Hpc as [?|[fb ?]]; [by destruct Hn1|by destruct (Hn2 fb)]. }
  assert (∀ w', runs (db w') = runs (db w) → submitted w' = submitted w → (∀ x, x ∈ delivered w → x ∈ delivered w') → (∀ l, l ∈ lapses w → l ∈ lapses w') →
            (intent (db w) = None ∨ ∃ ph q, intent (db w) = Some (mkIntent r OpPost ph (PPost q))) → RunCore w' k) as Hcore.
  { intros w' H1 H2 H3 H4 Hi. eapply core_frame; [exact HC|rewrite H1; apply only_finished_refl|by rewrite H2|done|done|].
    intros x _ _ (i & q & Hi' & Hq & _). destruct Hi as [?|(ph & q' & Hi)]; [congruence|]. rewrite Hi in Hi'. by injection Hi' as <-. }
  assert (∀ w' o ph q, intent (db w') = Some (mkIntent r OpPost ph (PPost q)) → (r ∈ delivered w' ∨ PostUnsent ∈ lapses w' ∨ ∃ i pc, o = Some (PostOp p r i pc) ∧ (pc = PSend ∨ ∃ fb, pc = PAbort fb)) → posts_sent w' o) as Hsent.
  { intros w' o ph q Hi Hd i q' Hi' _. rewrite Hi in Hi'. injection Hi' as <-. cbn. destruct Hd as [?|[?|(i' & pc' & -> & ?)]]; [by left|by right; left|do 2 right]. by eexists _, _, _. }
  destruct pc as [| | | |fb| |]; cbn [post_step].
  - destruct (release_runs (answered c) (database c) (ok c) (removes c) w k _ s0 HC HL (Hp' ltac:(done) ltac:(done))) as (H1 & H2 & _).
    destruct (release_lifecycle_operation_for_task (answered c) (database c) (ok c) (removes c) w) as [w' []]; cbn [fst] in *; (split; [done|]); [|done].
    split; [by apply posts_any|done].
  - destruct (negb (ok c)); [by split; [|apply posts_none]|]. destruct (latest_stage_run (db w)) as [x|]; [|by split; [|split; [apply posts_none|]]].
    case_bool_decide; [by split; [|apply posts_none]|by split; [|split; [apply posts_none|]]].
  - destruct (ok c); [|by split; [|apply posts_none]]. unfold persist_post_operation_intent, insert_lifecycle_operation_intent. rewrite Hh.
    split; cbn [fst snd]; [apply Hcore; try done; by left|]. split; [|done]. eapply Hsent; [done|]. do 2 right. eexists _, _. split; [done|by left].
  - assert (RunCore (note_delivered r w) k) as Hd by (apply Hcore; try done; [intros ? ?; by right|by right]).
    assert (RunCore (note_lapse PostUnsent w) k) as Hl by (apply Hcore; try done; [intros ? ?; by right|by right]).
    destruct Hh as (ph & q & Hi). destruct d; [..|destruct (crosses c)]; (split; cbn [fst snd]; [done|]).
    + split; [|intros _; by left]. eapply Hsent; [exact Hi|]. left. by left.
    + split; [|done]. eapply Hsent; [exact Hi|]. do 2 right. eexists _, _. split; [done|right; by eexists].
    + split; [|done]. eapply Hsent; [exact Hi|]. do 2 right. eexists _, _. split; [done|right; by eexists].
    + eapply Hsent; [exact Hi|]. left. by left.
    + eapply Hsent; [exact Hi|]. right; left. by left.
  - assert (RunCore (set_db (delete_lifecycle_operation_intent r (db w)) w) k) as H1
      by (apply Hcore; try done; [cbn [db set_db]; by rewrite runs_delete_intent|by right]).
    assert (RunCore (note_lapse PostUnsent w) k) as H2 by (apply Hcore; try done; [intros ? ?; by right|by right]).
    destruct Hh as (ph & q & Hi). destruct (ok c); (split; cbn [fst snd]; [done|]).
    + destruct fb; apply posts_none; cbn [db set_db]; by eapply intent_delete_own.
    + eapply Hsent; [exact Hi|]. right; left. by left.
  - specialize (Hop eq_refl). destruct (ok c); [|by split; [|apply Hp']]. destruct Hh as (ph & q & Hi).
    set (q' := post_operation_payload p r inh). assert (q_run_id q' = r) as Hq' by (subst q'; unfold post_operation_payload; by destruct inh).
    destruct (commit_post_spec r q' (db w) _ Hi eq_refl) as (d' & -> & Hd & Hrun & _). split; cbn [fst snd].
    + eapply (bind_post_core w _ k q'); try done; rewrite ?Hq'; [|done|by left]. intros x (i & z & Hi' & Hz & _). rewrite Hi in Hi'. by injection Hi' as <-.
    + split; [|done]. eapply Hsent; [exact Hd|]. by left.
  - assert (RunCore (set_db (delete_lifecycle_operation_intent r (db w)) w) k) as H1
      by (apply Hcore; try done; [cbn [db set_db]; by rewrite runs_delete_intent|by right]).
    destruct Hh as (ph & q & Hi). destruct (ok c); (split; cbn [fst snd]; [done|]); [|by apply Hp'].
    apply posts_none. cbn [db set_db]. by eapply intent_delete_own.
Qed.

Lemma core_clock w k k' : k ≤ k' → RunCore w k → RunCore w k'.
Proof. intros Hk [H1 H2 H3]. split; [done| |done]. intros r Hr. specialize (H2 r Hr). lia. Qed.

Lemma core_same w w' k :
  RunCore w k → only_finished (runs (db w)) (runs (db w')) → submitted w' = submitted w → delivered w' = delivered w → (∀ l, l ∈ lapses w → l ∈ lapses w') →
  intent (db w') = intent (db w) → RunCore w' k.
Proof.
  intros HC Hr Hs Hd Hl Hi. eapply core_frame; [exact HC|done|by rewrite Hs|by rewrite Hd|done|].
  intros x _ _ Hx. do 4 right. unfold stage_open in *. by rewrite Hi.
Qed.

Lemma finish_latest_only s res fb (d d' : Db) o : finish_latest_running_stage_run s res fb d = Some (d', o) → only_finished (runs d) (runs d') ∧ intent d' = intent d.
Proof.
  unfold finish_latest_running_stage_run. destruct (last (running_stage_runs d)) as [r|] eqn:Hl; [|intros [= <- _]; by split; [apply only_finished_refl|]].
  destruct (finish_stage_run (id r) s res fb d) as [d1|] eqn:Hf; [|done]. intros [= <- _]. apply finish_stage_run_Some in Hf as ->. split; [|done]. cbn. split.
  - unfold update_run. rewrite map_map. apply map_ext. intros x. by destruct (id x =? id r).
  - apply last_Some_elem_of in Hl. unfold running_stage_runs in Hl. apply list_elem_of_filter in Hl as [Hr Hin].
    intros x (y & -> & Hy)%list_elem_of_fmap. destruct (Z.eqb_spec (id y) (id r)) as [He|]; intros Hx; [exists r|exists y]; by split_and!.
Qed.

Lemma abandon_core o w k : RunCore w k → RunCore (abandon o w) k.
Proof.
  intros HC. assert (∀ l, RunCore (note_lapse l w) k) as Hl
    by (intros l; eapply core_same; [exact HC|apply only_finished_refl|done|done|intros ? ?; by right|done]).
  destruct (abandon_frame o w) as [-> |(l & -> & _)]; [exact HC|apply Hl].
Qed.

Lemma abandon_posts o w : posts_sent w (Some o) → posts_sent (abandon o w) None.
Proof.
  intros Hp i q Hi Hq. assert (∀ w', (db w' = db w ∧ delivered w' = delivered w ∧ (∀ l, l ∈ lapses w → l ∈ lapses w')) → w' = abandon o w →
    intent_id i ∈ delivered w' ∨ PostUnsent ∈ lapses w' ∨ ∃ p inh pc, o = PostOp p (intent_id i) inh pc ∧ (pc = PSend ∨ ∃ fb, pc = PAbort fb)) as H.
  { intros w' (H1 & H2 & H3) Hw. rewrite <- Hw, H1 in Hi. rewrite H2. destruct (Hp i q Hi Hq) as [?|[?|(p & inh & pc & [= ->] & ?)]]; [by left|right; left; by apply H3|do 2 right].
    by exists p, inh, pc. }
  destruct (H (abandon o w)) as [?|[?|(p & inh & pc & -> & [-> |[fb ->]])]]; [|done|by left|by right; left|right; left; by left..].
  destruct (abandon_frame o w) as [-> |(l & -> & _)]; cbn; split_and!; try done; intros ? ?; by right.
Qed.

Lemma begin_runs w k o :
  RunCore w k → posts_sent w None → (∃ p, o = StageOp p k SRelease) ∨ (∃ p i, o = PostOp p k i PRelease) → RunInv (mkSystem w (Some o) (k + 1)).
Proof.
  intros HC Hp Ho. split; cbn; [by apply (core_clock w k); [lia|]|by apply posts_any|]. intros ? [= <-].
  assert (k ∉ run_ids w) as Hn by (intros Hin; pose proof (rc_old _ _ HC k Hin); lia).
  destruct Ho as [(p & ->)|(p & i & ->)]; [by apply op_runs_fresh|done].
Qed.

Lemma step_runs s0 s e : guarded e → WorkInv s → LandInv s0 s → RunInv s → RunInv (step s e).
Proof.
  intros Hg HW HL HI. destruct s as [w o k]. pose proof HW as [Ha _ _]. pose proof HI as [HC Hp Ho]. cbn [world process clock] in *.
  destruct e as [p|p|c d| |da q rm| | |st|rm]; cbn [step world process clock].
  - destruct o as [o|]; [exact HI|]. destruct (fork_is_fresh p w); [|exact HI]. apply begin_runs; [..|left; by eexists].
    + unfold prepare_fork. destruct (workspace p); [exact HC| |exact HC]. by eapply core_same; [exact HC|apply only_finished_refl|..].
    + unfold prepare_fork. by destruct (workspace p).
  - destruct o as [o|]; [exact HI|]. destruct (workspace (fallback p)); [|exact HI..]. apply begin_runs; [done|done|right; by eexists _, _].
  - destruct o as [[p r pc|p r i pc]|]; [..|exact HI].
    + specialize (Ha _ eq_refl). destruct (stage_step_runs c p r pc w k s0 Ha HI HL) as (H1 & H2 & H3).
      destruct (stage_step c p r pc w) as [w' next]. cbn [fst snd] in *. split; cbn [world process clock]; [done|by apply posts_any|].
      destruct next as [pc'|]; cbn; [|done]. intros ? [= <-]. by apply H3.
    + specialize (Ha _ eq_refl). destruct (post_step_runs c d p r i pc w k s0 Ha HI HL) as [H1 H2].
      destruct (post_step c d p r i pc w) as [w' [|i' pc'|]]; cbn [fst snd] in *.
      * by split.
      * destruct H2 as [H2 H3]. split; cbn; [done|done|]. by intros ? [= <-].
      * apply begin_runs; [done|done|left; by eexists].
  - destruct o as [o|]; [|exact HI]. split; cbn; [by apply abandon_core|by apply abandon_posts|done].
  - destruct o as [o|]; [exact HI|]. unfold reconcile_lifecycle_operations. destruct (intent (db w)) as [i|] eqn:Hi; [|exact HI].
    pose proof (li_intent _ _ HL i Hi) as HII. cbn [world clock] in HII.
    assert (∀ q, RunInv (mkSystem (reconcile_lifecycle_operation (Some (live w)) q rm i w) None k)) as Hrec
      by (intros q'; destruct (reconcile_runs q' rm w k i HC HII Hp Hi) as (H1 & H2 & _); by split).
    destruct da; [apply Hrec|]. destruct (reconcile_silent q rm w i) as [q' ->]. apply Hrec.
  - split; cbn; [by eapply core_same; [exact HC|apply only_finished_refl|..]|done|]. intros x Hx. specialize (Ho x Hx). by destruct x.
  - split; cbn; [by eapply core_same; [exact HC|apply only_finished_refl|..]|done|]. intros x Hx. specialize (Ho x Hx). by destruct x.
  - destruct o as [o|]; [exact HI|]. destruct (finish_latest_running_stage_run st None None (db w)) as [[d' x]|] eqn:Hf; [|exact HI].
    destruct (finish_latest_only _ _ _ _ _ _ Hf) as [H1 H2]. split; cbn; [by eapply core_same; [exact HC|exact H1|..]| |done].
    intros i q. cbn. rewrite H2. apply Hp.
  - done.
Qed.

(** ** What a task reaches *)

Record SysInv (s0 : str) (s : System) : Prop := mkSysInv {
  sys_work : WorkInv s; sys_land : LandInv s0 s; sys_run : RunInv s; sys_cross : CrossInv s
}.

Lemma initial_inv s b l : SysInv s (initial s b l).
Proof.
  split.
  - split; cbn; [done|by apply safe_none|by left].
  - split; cbn; try done; [by intros ? ? ?%elem_of_nil|by apply NoDup_nil|by intros ? ?%elem_of_nil].
  - split; cbn; [split; cbn; [by apply NoDup_nil|by intros ? ?%elem_of_nil|by intros ? ?%elem_of_nil]|by apply posts_none|done].
  - by intros r ?%elem_of_nil.
Qed.

Lemma run_inv s0 s es : SysInv s0 s → Forall guarded es → SysInv s0 (run_from s es).
Proof.
  intros HI HF. revert s HI. induction HF as [|e es He _ IH]; intros s HI; [done|]. cbn. apply IH. destruct HI as [H1 H2 H3 H4].
  split; [by apply step_work|by apply step_lands|by eapply step_runs|by apply step_crosses].
Qed.

Lemma reached s b l es : Forall guarded es → SysInv s (run_from (initial s b l) es).
Proof. intros. apply run_inv; [apply initial_inv|done]. Qed.

(** A run declared submitted whose operation is over has been written. *)
Lemma submitted_crossed s b l es r :
  Forall guarded es →
  let w := world (run_from (initial s b l) es) in
  r ∈ submitted w → SubmittedUnsent ∉ lapses w → intent (db w) = None ∨ r ∈ landed_ids w → r ∈ crossed w.
Proof.
  intros HF w Hr Hl Hover. destruct (reached s b l es HF) as [_ HL _ HX]. fold w in HL, HX.
  destruct (HX r Hr) as [?|[?|(p & Hp & _ & Hd)]]; [done|done|]. destruct (li_op _ _ HL _ Hp) as (_ & Hno & _). fold w in Hno, Hd.
  destruct Hover as [Hi|?]; [|done]. unfold declared in Hd. by rewrite Hi in Hd.
Qed.

(** C9: over any history of a task in which its operations hold the task's guard -
    stage moves and posts at any of their calls, every failure a call may meet, the
    server ending, the session exiting, the task closing, reconciliations - no fork
    an agent was started in is ever removed, but where the intent could not be told
    that the agent had been started, or the task was closed under a move that was
    about to land. *)
Theorem committed_work_is_kept s b l es :
  Forall guarded es →
  let w := world (run_from (initial s b l) es) in
  SpawnUnmarked ∉ lapses w → StaleRollback ∉ lapses w → lost w = [].
Proof. intros HF w H1 H2. by destruct (wi_kept _ (sys_work _ _ (reached s b l es HF))) as [?|[?|?]]. Qed.

(** C10: over any such history, failures of the database and of the daemon included,
    the task is in the stage of the last move that landed, or in its first one; a move
    lands at most once, and only after the spawn of its run was declared submitted or
    began to cross to the daemon - after it began to cross, but where a spawn declared
    submitted was never written. *)
Theorem stage_is_of_the_last_landed_move s b l es :
  Forall guarded es →
  let w := world (run_from (initial s b l) es) in
  task_stage (db w) = default s (snd <$> head (landed w))
  ∧ NoDup (map fst (landed w))
  ∧ ∀ r x, (r, x) ∈ landed w → r ∈ submitted w ∧ (SubmittedUnsent ∉ lapses w → r ∈ crossed w).
Proof.
  intros HF w. destruct (sys_land _ _ (reached s b l es HF)) as [H1 H2 H3 _ _ _]. fold w in H1, H2, H3. split_and!; [|done|].
  - rewrite H2. by destruct (landed w) as [|[? ?] ?].
  - intros r x Hr. split; [by eapply H1|]. intros Hl. apply (submitted_crossed s b l es r HF); [by eapply H1|done|right].
    apply list_elem_of_fmap. by exists (r, x).
Qed.


Lemma bind_post_binds q (d : Db) : ∃ x, x ∈ runs (bind_post q d) ∧ id x = q_run_id q.
Proof.
  destruct (bind_post_runs q d) as [[Hs ->]|(l & x & _ & -> & Hx & _)].
  - destruct (stage_run d (q_run_id q)) as [x|] eqn:Hf; [|done]. apply find_some in Hf as [Hin Hid].
    exists x. split; [by apply list_elem_of_In|lia].
  - exists x. split; [|done]. apply elem_of_app. right. by apply list_elem_of_singleton.
Qed.

(** C11: whatever a server left open, the reconciliation of the next one, where the
    daemon answers and the database does what it is asked, leaves nothing open.  Where
    the database cannot be read, or fails the transaction that settles the operation,
    nothing changes, and the operation stays open for the next reconciliation; and in
    any other case, what is recorded after that transaction done or not, a move is
    either made as its intent says, which happens where its spawn had been declared
    submitted or its session is live in the move's directory and the task is open, or
    the task is where it was, with the move's run no longer running, and a fork is
    removed in that case alone, never after the intent says that the spawn was
    submitted; and a post has its run. *)
Theorem unfinished_operation_is_settled s b l es q removes :
  Forall guarded es →
  let w := world (run_from (initial s b l) es) in
  let w' := reconcile_lifecycle_operations (Some (live w)) q removes w in
  (q = DbAnswers → intent (db w') = None)
  ∧ (q = DbFails → w' = w)
  ∧ (q ≠ DbFails →
     (∀ i p, intent (db w) = Some i → payload i = PStage p →
        (closed (db w) = false ∧ taken_for_submitted w i p ∧ task_stage (db w') = p_next_stage p
         ∧ agent_session_id (db w') = p_provider_session_id p ∧ (p_branch p ≠ None → task_branch (db w') = p_branch p) ∧ forks w' = forks w)
        ∨ (task_stage (db w') = task_stage (db w) ∧ (∀ x, x ∈ runs (db w') → id x = p_run_id p → status x ≠ Running)
           ∧ (phase i = Submitted → closed (db w) = true ∧ forks w' = forks w)))
     ∧ ∀ i p, intent (db w) = Some i → payload i = PPost p → ∃ x, x ∈ runs (db w') ∧ id x = q_run_id p).
Proof.
  intros HF w w'. destruct (reached s b l es HF) as [_ HL HR _]. fold w in HL, HR. pose proof (rc_once _ _ (ri_core _ HR)) as Hn. fold w in Hn. fold w in w'.
  subst w'. unfold reconcile_lifecycle_operations. destruct (intent (db w)) as [i|] eqn:Hi; [|done].
  pose proof (ii_formed _ _ _ (li_intent _ _ HL i Hi)) as Hf. split_and!.
  - intros ->. by destruct (reconcile_frame DbAnswers removes w i Hi) as ([?|[? _]] & _).
  - by intros ->.
  - intros Hq. split; intros ? p [= <-] Hp.
    + destruct (reconcile_spec q removes w i) as [?|p' Hp'|Hno|p' ws d Hp' Hws Hc Hts Hd|p' Hp' Hc Hs|p' Hp' Hs Hnt]; [done|congruence|done|..];
        (assert (p' = p) as -> by congruence).
      * left. destruct (reconcile_stage_payload_Some i p ws (db w) Hc Hws) as (d' & Hd' & _ & _ & _ & _ & H1 & H2 & _ & H4). rewrite Hd in Hd'. injection Hd' as <-.
        split_and!; try done. cbn. intros Hb. rewrite H2. unfold payload_workspace in Hws.
        destruct (p_branch p), (p_worktree_path p); try done. by injection Hws as <-.
      * right. destruct (fail_db_frame i p (db w) Hi) as (_ & H1 & _). cbn [db set_db]. rewrite (afterwards_keeps task_stage), (afterwards_keeps runs) by done.
        split_and!; [exact H1| |done]. intros x Hx Hid. by eapply (fail_db_run_closed i p (db w)).
      * right. destruct (fail_operation_frame i p RollBackFreshFork removes w) as (Hdb & _). destruct (fail_db_frame i p (db w) Hi) as (_ & H1 & _).
        rewrite Hdb. split_and!; [exact H1| |done]. intros x Hx Hid. by eapply (fail_db_run_closed i p (db w)).
    + destruct (reconcile_spec q removes w i) as [?|p' Hp'|Hno|p' ? ? Hp'|p' Hp'|p' Hp']; [done| |done|congruence..].
      assert (p' = p) as -> by congruence. destruct (finalize_post_spec q i p (db w) Hi) as (_ & Hr & _). cbn [db set_db]. rewrite Hr. apply bind_post_binds.
Qed.

End Server.

(** ** Histories *)

Definition a_fork : ForkedWorkspace := mkWorkspace (lit "task-review") (lit "/w/task-review").

(** A move to the review stage, in a fork of its own. *)
Definition a_move : PreparedStageRunSpawn :=
  mkSpawn (lit "review") (lit "review") Main (Forked a_fork) None (lit "claude") None None (lit "manual") Operator None (Some (lit "native")) (lit "/w/task-review") false.

Definition a_post : PreparedPostDispatch :=
  mkPostDispatch (lit "go on") (lit "review")
    (mkSpawn (lit "review") (lit "review") Post Current None (lit "claude") None None (lit "manual") Operator None None (lit "/w/task-review") false).

Definition fine : Choice := mkChoice true Created true true true true DbAnswers.
Definition dark : Choice := mkChoice false Created true true true true DbAnswers.
Definition cut : Choice := mkChoice true Created true true true false DbAnswers.

(** The calls of a move up to the spawn, and up to the projection. *)
Definition up_to_spawn : list Event := BeginStage a_move :: replicate 8 (Call fine Delivered).
Definition up_to_landing : list Event := up_to_spawn ++ replicate 3 (Call fine Delivered).

#[local] Instance a_task : Task := mkTask (lit "t") (lit "s").

Definition history (es : list Event) : System := run_from (initial (lit "build") None None) es.

Lemma committed_work_is_kept_witness :
  Forall guarded (up_to_landing ++ [Call fine Delivered; TaskCloses; Startup true DbAnswers true]) ∧ lost (world (history (up_to_landing ++ [Call fine Delivered; TaskCloses; Startup true DbAnswers true]))) = [].
Proof.
  split; [by repeat constructor|].
  apply (committed_work_is_kept (lit "build") None None (up_to_landing ++ [Call fine Delivered; TaskCloses; Startup true DbAnswers true]));
    [by repeat constructor|apply (bool_decide_unpack _); by vm_compute..].
Defined.

Lemma stage_is_of_the_last_landed_move_witness :
  Forall guarded (up_to_landing ++ [Call fine Delivered])
  ∧ task_stage (db (world (history (up_to_landing ++ [Call fine Delivered])))) = default (lit "build") (snd <$> head (landed (world (history (up_to_landing ++ [Call fine Delivered]))))).
Proof.
  split; [by repeat constructor|].
  apply (stage_is_of_the_last_landed_move (lit "build") None None (up_to_landing ++ [Call fine Delivered])). by repeat constructor.
Defined.


(** The server ends when the spawn has been written, and the session lives on. *)
Lemma unfinished_operation_is_settled_witness :
  Forall guarded (up_to_landing ++ [ServerEnds])
  ∧ intent (db (reconcile_lifecycle_operations (Some (live (world (history (up_to_landing ++ [ServerEnds]))))) DbAnswers true
                  (world (history (up_to_landing ++ [ServerEnds]))))) = None.
Proof.
  split; [by repeat constructor|].
  apply (unfinished_operation_is_settled (lit "build") None None (up_to_landing ++ [ServerEnds]) DbAnswers true); [by repeat constructor|done].
Defined.

(** The move lands, in the stage and the branch it was prepared for. *)
Example a_move_lands :
  let w := world (history (up_to_landing ++ [Call fine Delivered])) in
  (task_stage (db w), task_branch (db w), landed w, lapses w) = (lit "review", Some (lit "task-review"), [(1, lit "review")], []).
Proof. by vm_compute. Qed.

(** The server ends with the spawn submitted: the next one makes the move. *)
Example a_submitted_move_is_made :
  let w := world (history (up_to_landing ++ [ServerEnds; SessionExits; Startup true DbAnswers true])) in
  (task_stage (db w), intent (db w), lost w) = (lit "review", None, []).
Proof. by vm_compute. Qed.

(** The task is closed under a move whose agent has been started: the fork goes with
    what the agent did in it, and the intent that stays reports, at the next start,
    that the work is kept on the branch. *)
Lemma closed_under_a_move_loses_the_fork :
  let w := world (history (up_to_landing ++ [TaskCloses] ++ replicate 4 (Call fine Delivered) ++ [Startup true DbAnswers true])) in
  lost w = [lit "task-review"] ∧ last (events (db w)) = Some (LifecycleOperationRetired 1 (Some (lit "task-review"))) ∧ lapses w = [StaleRollback].
Proof. by vm_compute. Qed.

(** The server ends between the write of the spawn and the phase that says so, and
    the session exits before the next server looks: the fork is removed. *)
Lemma unmarked_spawn_loses_the_fork :
  let w := world (history (up_to_spawn ++ [Call fine Delivered; ServerEnds; SessionExits; Startup true DbAnswers true])) in
  lost w = [lit "task-review"] ∧ lapses w = [SpawnUnmarked].
Proof. by vm_compute. Qed.

(** A second operation that does not wait for the first reconciles its intent away
    while its spawn is on the way, and removes the fork its agent starts in. *)
Lemma overlapping_release_removes_the_fork :
  let w := world (history (up_to_spawn ++ [Overlaps true; Call fine Delivered])) in
  live w = Some (lit "/w/task-review") ∧ forks w = ∅ ∧ intent (db w) = None.
Proof. by vm_compute. Qed.

(** A move whose intent cannot be stored leaves its fork. *)
Lemma unstored_intent_leaves_the_fork :
  let s := history [BeginStage a_move; Call fine Delivered; Call fine Delivered; Call dark Delivered] in
  process s = None ∧ intent (db (world s)) = None ∧ bool_decide (lit "task-review" ∈ forks (world s)) = true.
Proof. by vm_compute. Qed.

(** A post the session was not there to be given stays open where its intent cannot
    be dropped, and the next server binds it as given. *)
Lemma unsent_post_is_bound :
  let w := world (history [BeginPost a_post; Call fine Delivered; Call fine Delivered; Call fine Delivered; Call fine SessionNotFound; Call dark SessionNotFound; Startup true DbAnswers true]) in
  delivered w = [] ∧ map (λ r, (stage r, kind r, status r)) (runs (db w)) = [(lit "review", Post, Running)].
Proof. by vm_compute. Qed.

(** The same move, of an agent without a terminal. *)
Definition a_headless_move : PreparedStageRunSpawn :=
  mkSpawn (lit "review") (lit "review") Main (Forked a_fork) None (lit "claude") None None (lit "manual") Operator None (Some (lit "native")) (lit "/w/task-review") true.

Definition up_to_declared : list Event := BeginStage a_headless_move :: replicate 9 (Call fine Delivered).

(** A headless spawn is declared submitted before it is written: a server that ends in
    between leaves an intent the next one lands, with the task in the new stage, its
    run running, and no agent that was ever asked for; and so does a write that fails. *)
Lemma unwritten_headless_spawn_lands :
  let landed_unasked es :=
    let w := world (history (up_to_declared ++ es ++ [Startup true DbAnswers true])) in
    (task_stage (db w), map status (runs (db w)), crossed w, live w, lapses w) = (lit "review", [Running], [], None, [SubmittedUnsent]) in
  landed_unasked [ServerEnds] ∧ landed_unasked [Call cut Delivered].
Proof. by vm_compute. Qed.

(** A post whose round trip was lost before it was written is bound as given. *)
Lemma unwritten_post_is_bound :
  let w := world (history [BeginPost a_post; Call fine Delivered; Call fine Delivered; Call fine Delivered; Call cut Uncertain; Startup true DbAnswers true]) in
  (delivered w, map (λ r, (stage r, kind r, status r)) (runs (db w)), lapses w) = ([], [(lit "review", Post, Running)], [PostUnsent]).
Proof. by vm_compute. Qed.

(** A database that cannot be read leaves the operation open, and the next
    reconciliation settles it. *)
Example failed_reconciliation_is_made_up :
  let w n := world (history (up_to_landing ++ [ServerEnds; Startup true DbFails true] ++ replicate n (Startup true DbAnswers true))) in
  (bool_decide (intent (db (w 0%nat)) = None), task_stage (db (w 0%nat))) = (false, lit "build")
  ∧ (bool_decide (intent (db (w 1%nat)) = None), task_stage (db (w 1%nat))) = (true, lit "review").
Proof. by vm_compute. Qed.
