(* ===== verification/Workflow.v ===== *)
(** * Workflows ([crates/kanna-server/src/task_creator/definitions.rs])

    A workflow as it is written and as it is normalized, with the older forms folded
    into posts; where a stage name sits in it; and which provider a repository prefers
    for an agent, by exact name or by the most specific glob. *)

From S2P Require Import Prelude RustStd.
Local Open Scope kanna_scope.
Local Open Scope Z_scope.

(** ** Definitions as they are used *)

Inductive WorkflowStageTransition := TManual | TAuto.

#[export] Instance WorkflowStageTransition_eq_dec : EqDecision WorkflowStageTransition.
Proof. solve_decision. Defined.

Inductive DefinitionVisibility := Public | Internal.

Record WorkflowEnvironment := mkEnvironment { setup : option (list str); teardown : option (list str) }.

Record WorkflowPost := mkPost {
  po_name : str;
  po_description : option str;
  po_agent : option str;
  po_prompt : option str;
  po_agent_provider : option (list str)
}.

Record WorkflowStagePolicy := mkPolicy {
  transition : WorkflowStageTransition;
  revision_transition : option WorkflowStageTransition
}.

Record WorkflowStage := mkStage {
  ws_name : str;
  ws_description : option str;
  ws_agent : option str;
  ws_prompt : option str;
  ws_agent_provider : option (list str);
  environment : option str;
  policy : WorkflowStagePolicy;
  post : option WorkflowPost
}.

Record WorkflowDefinition := mkWorkflow {
  wf_name : option str;
  wf_description : option str;
  stages : list WorkflowStage;
  environments : option (list (str * WorkflowEnvironment));
  revision_limit : option Z;
  visibility : DefinitionVisibility
}.

(** ** Definitions as they are written *)

Inductive RawWorkflowStageExecution := NewTask | Continue.

Record RawWorkflowStagePolicy := mkRawPolicy {
  rp_transition : WorkflowStageTransition;
  rp_revision_transition : option WorkflowStageTransition;
  rp_execution : option RawWorkflowStageExecution
}.

(** A [post_action] has the fields of a post, and a transition nobody reads. *)
Record RawWorkflowStage := mkRawStage {
  rs_name : str;
  rs_description : option str;
  rs_agent : option str;
  rs_prompt : option str;
  rs_agent_provider : option (list str);
  rs_environment : option str;
  rs_policy : option RawWorkflowStagePolicy;
  rs_transition : option WorkflowStageTransition;
  rs_mode : option RawWorkflowStageExecution;
  rs_post : option WorkflowPost;
  rs_post_action : option WorkflowPost
}.

Record RawWorkflowDefinition := mkRawWorkflow {
  rw_name : option str;
  rw_description : option str;
  rw_stages : list RawWorkflowStage;
  rw_environments : option (list (str * WorkflowEnvironment));
  rw_revision_limit : option Z;
  rw_visibility : DefinitionVisibility
}.

(** ** Normalizing *)

Inductive WorkflowError := MissingTransition (stage : str) | NegativeRevisionLimit (limit : Z).

(** The transition, the transition of revisions, and whether the stage continues the
    one before. *)
Definition stage_policy (s : RawWorkflowStage) : result (WorkflowStageTransition * option WorkflowStageTransition * bool)%type WorkflowError :=
  match rs_policy s with
  | Some p => Ok (rp_transition p, rp_revision_transition p, match rp_execution p with Some Continue => true | _ => false end)
  | None =>
      match rs_transition s with
      | Some t => Ok (t, None, match rs_mode s with Some Continue => true | _ => false end)
      | None => Err (MissingTransition (rs_name s))
      end
  end.

Definition set_post (p : WorkflowPost) (s : WorkflowStage) : WorkflowStage :=
  mkStage (ws_name s) (ws_description s) (ws_agent s) (ws_prompt s) (ws_agent_provider s) (environment s) (policy s) (Some p).

(** A continuing stage becomes the post of the stage before, if that has none. *)
Definition fold_into_previous (s : RawWorkflowStage) (done : list WorkflowStage) : option (list WorkflowStage) :=
  match last done with
  | Some previous =>
      match post previous with
      | None =>
          Some (take (length done - 1) done
                  ++ [set_post (mkPost (rs_name s) (rs_description s) (rs_agent s) (rs_prompt s) (rs_agent_provider s)) previous])
      | Some _ => None
      end
  | None => None
  end.

Definition own_post (s : RawWorkflowStage) : option WorkflowPost :=
  match rs_post s with Some p => Some p | None => rs_post_action s end.

Definition plain_stage (s : RawWorkflowStage) (t : WorkflowStageTransition) (rt : option WorkflowStageTransition) : WorkflowStage :=
  mkStage (rs_name s) (rs_description s) (rs_agent s) (rs_prompt s) (rs_agent_provider s) (rs_environment s) (mkPolicy t rt) (own_post s).

Definition normalize_stage (done : list WorkflowStage) (s : RawWorkflowStage) : result (list WorkflowStage) WorkflowError :=
  let? parsed := stage_policy s in
  let '(t, rt, continues) := parsed in
  match if continues then fold_into_previous s done else None with
  | Some folded => Ok folded
  | None => Ok (done ++ [plain_stage s t rt])
  end.

Fixpoint normalize_stages (done : list WorkflowStage) (l : list RawWorkflowStage) : result (list WorkflowStage) WorkflowError :=
  match l with
  | [] => Ok done
  | s :: l => let? done := normalize_stage done s in normalize_stages done l
  end.

Definition normalize_workflow_definition (raw : RawWorkflowDefinition) : result WorkflowDefinition WorkflowError :=
  let? l := normalize_stages [] (rw_stages raw) in
  match rw_revision_limit raw with
  | Some limit =>
      if limit <? 0 then Err (NegativeRevisionLimit limit)
      else Ok (mkWorkflow (rw_name raw) (rw_description raw) l (rw_environments raw) (rw_revision_limit raw) (rw_visibility raw))
  | None => Ok (mkWorkflow (rw_name raw) (rw_description raw) l (rw_environments raw) (rw_revision_limit raw) (rw_visibility raw))
  end.

(** What a workflow serializes to, as it is read back: the snapshot pinned to a task. *)
Definition raw_stage (s : WorkflowStage) : RawWorkflowStage :=
  mkRawStage (ws_name s) (ws_description s) (ws_agent s) (ws_prompt s) (ws_agent_provider s) (environment s)
    (Some (mkRawPolicy (transition (policy s)) (revision_transition (policy s)) None)) None None (post s) None.

Definition snapshot (w : WorkflowDefinition) : RawWorkflowDefinition :=
  mkRawWorkflow (wf_name w) (wf_description w) (map raw_stage (stages w)) (environments w) (revision_limit w) (visibility w).

(** ** Reading a workflow *)

Definition DEFAULT_REVISION_LIMIT : Z := 5.

Definition effective_revision_limit (w : WorkflowDefinition) : Z := default DEFAULT_REVISION_LIMIT (revision_limit w).

Definition effective_revision_transition (p : WorkflowStagePolicy) : WorkflowStageTransition := default (transition p) (revision_transition p).

Inductive StagePosition := AtStage (index : nat) | AtPost (owner : nat).

Definition resolve_stage_position (w : WorkflowDefinition) (name : str) : option StagePosition :=
  match position (λ s, bool_decide (ws_name s = name)) (stages w) with
  | Some index => Some (AtStage index)
  | None => AtPost <$> position (λ s, bool_decide (po_name <$> post s = Some name)) (stages w)
  end.

(** A post is run as a stage whose success always advances. *)
Definition post_as_stage (owner : WorkflowStage) : option WorkflowStage :=
  p ← post owner;
  Some (mkStage (po_name p) (po_description p) (po_agent p) (po_prompt p) (po_agent_provider p) (environment owner) (mkPolicy TAuto None) None).

(** ** Provider preferences *)

Definition STAR : byte := 42.

(** The cursor in the pattern and in the value, the last star met, and where in the
    value it stops matching for now. *)
Record Cursor := mkCursor { pattern_index : nat; value_index : nat; wildcard_index : option nat; wildcard_value_index : nat }.

Definition wildcard_step (pattern value : list byte) (c : Cursor) : option Cursor :=
  if bool_decide (is_Some (pattern !! pattern_index c)) && bool_decide (pattern !! pattern_index c = value !! value_index c)
  then Some (mkCursor (S (pattern_index c)) (S (value_index c)) (wildcard_index c) (wildcard_value_index c))
  else if bool_decide (pattern !! pattern_index c = Some STAR)
  then Some (mkCursor (S (pattern_index c)) (value_index c) (Some (pattern_index c)) (value_index c))
  else
    match wildcard_index c with
    | Some wildcard => Some (mkCursor (S wildcard) (S (wildcard_value_index c)) (Some wildcard) (S (wildcard_value_index c)))
    | None => None
    end.

(** [None] where the fuel runs out. *)
Fixpoint wildcard_loop (fuel : nat) (pattern value : list byte) (c : Cursor) : option bool :=
  if bool_decide (length value ≤ value_index c)%nat then
    Some (bool_decide (drop_while (Z.eqb STAR) (drop (pattern_index c) pattern) = []))
  else
    match fuel with
    | O => None
    | S fuel =>
        match wildcard_step pattern value c with
        | Some c => wildcard_loop fuel pattern value c
        | None => Some false
        end
    end.

Definition wildcard_fuel (pattern value : list byte) : nat := S (length value) * S (length pattern).

Definition wildcard_matches (pattern value : str) : bool :=
  default false (wildcard_loop (wildcard_fuel (utf8 pattern) (utf8 value)) (utf8 pattern) (utf8 value) (mkCursor 0 0 None 0)).

Definition specificity (pattern : str) : nat := length (filter (λ b, b ≠ STAR) (utf8 pattern)).

Definition compare_agent_provider_globs (left right : str) : comparison :=
  then_with (Nat.compare (specificity right) (specificity left)) (str_cmp left right).

Record AgentProviderPreference := mkPreference { providers : list str; pref_model : option str; pref_effort : option str }.

(** The first of the least entries. *)
Fixpoint min_by {A} (cmp : A → A → comparison) (l : list A) : option A :=
  match l with
  | [] => None
  | x :: l => match min_by cmp l with
              | Some y => Some (match cmp x y with Gt => y | _ => x end)
              | None => Some x
              end
  end.

(** The preferences are in the order of their keys. *)
Definition agent_provider_preference (preferences : option (list (str * AgentProviderPreference))) (agent_selector : option str)
    : option AgentProviderPreference :=
  agent_selector ← agent_selector;
  let selector := trim agent_selector in
  if bool_decide (selector = []) then None
  else
    preferences ← preferences;
    match find_first (λ e, bool_decide (e.1 = selector)) preferences with
    | Some e => Some e.2
    | None =>
        snd <$> min_by (λ a b, compare_agent_provider_globs a.1 b.1)
                  (filter (λ e, str_contains e.1 [STAR] && wildcard_matches e.1 selector = true) preferences)
    end.
