(* ===== verification/WorkflowProofs.v ===== *)
(** * Workflows: proofs

    The glob matcher decides the glob relation, the preferred provider is the most
    specific one, and a pinned snapshot reads back as the workflow it was taken of. *)

From S2P Require Import Prelude RustStd Utf8 Workflow.
Local Open Scope Z_scope.

(** ** Globs *)

(** A star stands for any bytes, another byte for itself. *)
Inductive Glob : list byte → list byte → Prop :=
  | GNil : Glob [] []
  | GByte b p v : b ≠ STAR → Glob p v → Glob (b :: p) (b :: v)
  | GStar p u v : Glob p v → Glob (STAR :: p) (u ++ v).

Lemma glob_star_inv p v : Glob (STAR :: p) v → ∃ u w, v = u ++ w ∧ Glob p w.
Proof. inversion 1; [done|]. by eexists _, _. Qed.

Lemma glob_literal l q v : STAR ∉ l → Glob (l ++ q) v → ∃ w, v = l ++ w ∧ Glob q w.
Proof.
  revert v. induction l as [|b l IH]; intros v Hl Hg; [by exists v|]. apply not_elem_of_cons in Hl as [Hb Hl].
  inversion Hg; subst; [|done]. match goal with H : Glob (l ++ q) _ |- _ => destruct (IH _ Hl H) as (w & -> & Hw) end. by exists w.
Qed.

Lemma glob_nil p : Glob p [] ↔ drop_while (Z.eqb STAR) p = [].
Proof.
  split.
  - remember ([] : list byte) as v eqn:Hv. intros Hg. induction Hg as [|b p v _ _ _|p u v _ IH]; [done|done|].
    apply app_eq_nil in Hv as [-> ->]. exact (IH eq_refl).
  - induction p as [|b p IH]; [intros _; constructor|]. cbn [drop_while]. destruct (Z.eqb_spec STAR b) as [<-|]; [|done].
    intros Hp. exact (GStar p [] [] (IH Hp)).
Qed.

(** Two suffixes of a list, the shorter of which is a suffix of the longer. *)
Lemma suffix_of_drop {A} (l : list A) i j v w : drop i l = v ++ w → (i ≤ j)%nat → (length w ≤ length (drop j l))%nat → ∃ u, drop j l = u ++ w.
Proof.
  intros Hd Hij Hw. assert (drop j l = drop (j - i) (v ++ w)) as He by (rewrite <- Hd, drop_drop; f_equal; lia).
  destruct (decide (j - i ≤ length v)%nat) as [Hle|Hgt].
  - exists (drop (j - i) v). by rewrite He, drop_app_le.
  - rewrite He, length_drop, length_app in Hw. destruct w as [|x w]; [exists (drop j l); by rewrite app_nil_r|]. cbn in Hw. lia.
Qed.

Section Matcher.
Context (P V : list byte) (star_free : STAR ∉ V).

(** What is still to be decided: a match from the cursor, or from a later stop of the
    last star. *)
Definition to_match (c : Cursor) : Prop :=
  Glob (drop (pattern_index c) P) (drop (value_index c) V)
  ∨ ∃ w k, wildcard_index c = Some w ∧ (wildcard_value_index c < k ≤ length V)%nat ∧ Glob (drop (S w) P) (drop k V).

(** Since the last star the pattern has been matched literally. *)
Definition literal_since (c : Cursor) : Prop :=
  (value_index c ≤ length V)%nat
  ∧ match wildcard_index c with
    | Some w => ∃ l, drop (S w) P = l ++ drop (pattern_index c) P ∧ drop (wildcard_value_index c) V = l ++ drop (value_index c) V
                     ∧ (wildcard_value_index c ≤ value_index c)%nat ∧ (S w ≤ length P)%nat
    | None => wildcard_value_index c = 0%nat
    end.

Definition work_left (c : Cursor) : nat := (length V - wildcard_value_index c) * S (length P) + (length P - pattern_index c).

Lemma literal_length c w l :
  drop (S w) P = l ++ drop (pattern_index c) P → drop (wildcard_value_index c) V = l ++ drop (value_index c) V →
  (value_index c ≤ length V)%nat → (wildcard_value_index c ≤ value_index c)%nat → length l = (value_index c - wildcard_value_index c)%nat ∧ STAR ∉ l.
Proof.
  intros _ Hv H1 H2. split.
  - apply (f_equal length) in Hv. rewrite length_app, !length_drop in Hv. lia.
  - intros Hin. apply star_free. rewrite <- (take_drop (wildcard_value_index c) V), Hv. set_solver.
Qed.

(** A star met makes the stops of the one before needless. *)
Lemma earlier_star_needless c w l k r :
  drop (S w) P = l ++ drop (pattern_index c) P → drop (wildcard_value_index c) V = l ++ drop (value_index c) V →
  (value_index c ≤ length V)%nat → (wildcard_value_index c ≤ value_index c)%nat → drop (pattern_index c) P = STAR :: r →
  (wildcard_value_index c < k ≤ length V)%nat → Glob (drop (S w) P) (drop k V) → Glob (STAR :: r) (drop (value_index c) V).
Proof.
  intros Hp Hv H1 H2 Hr Hk Hg. destruct (literal_length c w l Hp Hv H1 H2) as [Hlen Hl]. rewrite Hp, Hr in Hg.
  destruct (glob_literal l _ _ Hl Hg) as (v & Hdv & Hgv). apply glob_star_inv in Hgv as (u & x & -> & Hx).
  assert (length (l ++ u ++ x) = length V - k)%nat as Hlx by by rewrite <- Hdv, length_drop. rewrite !length_app in Hlx.
  destruct (suffix_of_drop V 0 (value_index c) (take k V ++ l ++ u) x) as (y & ->).
  - by rewrite drop_0, <- !app_assoc, <- Hdv, take_drop.
  - lia.
  - rewrite length_drop. lia.
  - by constructor.
Qed.

Lemma wildcard_step_spec c :
  literal_since c → (value_index c < length V)%nat →
  match wildcard_step P V c with
  | Some c' => literal_since c' ∧ (to_match c ↔ to_match c') ∧ (work_left c' < work_left c)%nat
  | None => ¬ to_match c
  end.
Proof.
  intros [Hvi Hlit] Hlt. destruct (lookup_lt_is_Some_2 V (value_index c) Hlt) as [b Hb].
  assert (b ≠ STAR) as Hbs by (intros ->; by apply star_free; eapply list_elem_of_lookup_2).
  pose proof (drop_S V b (value_index c) Hb) as HV. unfold wildcard_step. rewrite Hb.
  destruct (P !! pattern_index c) as [a|] eqn:Ha.
  - pose proof (drop_S P a (pattern_index c) Ha) as HP. pose proof (lookup_lt_Some P _ _ Ha) as HpL. rewrite (bool_decide_true (is_Some _)) by by eexists. cbn [andb].
    destruct (decide (a = b)) as [->|Hab].
    + rewrite bool_decide_true by done. split_and!; cbn [pattern_index value_index wildcard_index wildcard_value_index].
      * split; cbn; [lia|]. destruct (wildcard_index c) as [w|]; [|done]. destruct Hlit as (l & H1 & H2 & H3 & H4).
        exists (l ++ [b]). rewrite <- !app_assoc, H1, H2, HP, HV. split_and!; [done|done|lia|lia].
      * unfold to_match. cbn. rewrite HP, HV. split; (intros [Hg|?]; [left|by right]); [|by constructor]. by inversion Hg.
      * unfold work_left. cbn. lia.
    + rewrite bool_decide_false by (intros [= ?]; done). destruct (decide (a = STAR)) as [->|Has].
      * rewrite bool_decide_true by done. split_and!.
        -- split; cbn; [lia|]. exists []. split_and!; [done|done|lia|lia].
        -- unfold to_match. cbn. rewrite HP. split.
           ++ intros Hg. assert (Glob (STAR :: drop (S (pattern_index c)) P) (drop (value_index c) V)) as Hs.
              { destruct Hg as [Hg|(w & k & Hw & Hk & Hg)]; [done|]. rewrite Hw in Hlit. destruct Hlit as (l & H1 & H2 & H3 & H4).
                by eapply (earlier_star_needless c w l k). }
              apply glob_star_inv in Hs as (u & x & Hx & Hg'). destruct u as [|y u]; [left; by rewrite Hx|right].
              exists (pattern_index c), (value_index c + length (y :: u))%nat. split; [done|].
              pose proof (f_equal length Hx) as Hlx. rewrite length_drop, length_app in Hlx. split; [cbn in *; lia|].
              rewrite <- drop_drop, Hx, drop_app_length. done.
           ++ intros [Hg|(w & k & [= <-] & Hk & Hg)]; left; [by apply (GStar _ [])|].
              replace (drop (value_index c) V) with (take (k - value_index c) (drop (value_index c) V) ++ drop k V); [by constructor|].
              replace (drop k V) with (drop (k - value_index c) (drop (value_index c) V)); [apply take_drop|]. rewrite drop_drop. f_equal. lia.
        -- unfold work_left. cbn [pattern_index wildcard_value_index]. destruct (wildcard_index c); [destruct Hlit as (_ & _ & _ & ? & _)|]; nia.
      * rewrite bool_decide_false by (intros [= ?]; done).
        assert (¬ Glob (drop (pattern_index c) P) (drop (value_index c) V)) as Hno by (rewrite HP, HV; inversion 1; congruence).
        destruct (wildcard_index c) as [w|] eqn:Hw; [|intros [?|(? & ? & ? & _)]; congruence].
        destruct Hlit as (l & H1 & H2 & H3 & H4). split_and!.
        -- split; cbn; [lia|]. exists []. split_and!; [done|done|lia|lia].
        -- unfold to_match. cbn. rewrite Hw. split.
           ++ intros [?|(w' & k & [= <-] & Hk & Hg)]; [done|]. destruct (decide (k = S (wildcard_value_index c))) as [->|]; [by left|right].
              exists w, k. split_and!; [done|lia|lia|done].
           ++ intros [Hg|(w' & k & [= <-] & Hk & Hg)]; right; [exists w, (S (wildcard_value_index c))|exists w, k]; split_and!; (done || lia).
        -- unfold work_left. cbn [pattern_index wildcard_value_index]. nia.
  - rewrite (bool_decide_false (is_Some _)) by by intros []. cbn [andb]. rewrite bool_decide_false by done.
    pose proof (lookup_ge_None_1 _ _ Ha) as HpL.
    assert (¬ Glob (drop (pattern_index c) P) (drop (value_index c) V)) as Hno by (rewrite (drop_ge P) by done; rewrite HV; inversion 1).
    destruct (wildcard_index c) as [w|] eqn:Hw; [|intros [?|(? & ? & ? & _)]; congruence].
    destruct Hlit as (l & H1 & H2 & H3 & H4). split_and!.
    + split; cbn; [lia|]. exists []. split_and!; [done|done|lia|lia].
    + unfold to_match. cbn. rewrite Hw. split.
      * intros [?|(w' & k & [= <-] & Hk & Hg)]; [done|]. destruct (decide (k = S (wildcard_value_index c))) as [->|]; [by left|right].
        exists w, k. split_and!; [done|lia|lia|done].
      * intros [Hg|(w' & k & [= <-] & Hk & Hg)]; right; [exists w, (S (wildcard_value_index c))|exists w, k]; split_and!; (done || lia).
    + unfold work_left. cbn [pattern_index wildcard_value_index]. nia.
Qed.

Lemma wildcard_loop_spec fuel c :
  literal_since c → (work_left c < fuel)%nat → ∃ b, wildcard_loop fuel P V c = Some b ∧ (b = true ↔ to_match c).
Proof.
  revert c. induction fuel as [|fuel IH]; intros c Hl Hf; [lia|]. cbn [wildcard_loop]. pose proof Hl as [Hvi Hlit].
  case_bool_decide as Hend.
  - eexists. split; [done|]. rewrite bool_decide_eq_true, <- glob_nil. unfold to_match. rewrite (drop_ge V) by done. split; [by left|].
    intros [?|(w & k & Hw & Hk & Hg)]; [done|exfalso]. rewrite Hw in Hlit. destruct Hlit as (l & H1 & H2 & H3 & _).
    destruct (literal_length c w l H1 H2 Hvi H3) as [Hlen Hs]. rewrite H1 in Hg. apply glob_literal in Hg as (x & Hx & _); [|done].
    apply (f_equal length) in Hx. rewrite length_drop, length_app in Hx. lia.
  - pose proof (wildcard_step_spec c Hl ltac:(lia)) as Hs. destruct (wildcard_step P V c) as [c'|].
    + destruct Hs as (Hl' & He & Hw). destruct (IH c' Hl' ltac:(lia)) as (b & Hb & Hm). exists b. by rewrite He.
    + exists false. split; [done|]. by split.
Qed.

End Matcher.

(** C17: the two-cursor loop, which goes back to the last star alone, is within its
    fuel and decides the glob relation, for every pattern and every value without a
    star. *)
Theorem wildcard_matches_glob pattern value :
  STAR ∉ utf8 value → wildcard_matches pattern value = true ↔ Glob (utf8 pattern) (utf8 value).
Proof.
  intros Hs. destruct (wildcard_loop_spec (utf8 pattern) (utf8 value) Hs (wildcard_fuel (utf8 pattern) (utf8 value)) (mkCursor 0 0 None 0)) as (b & Hb & Hm).
  - split; cbn; [lia|done].
  - unfold work_left, wildcard_fuel. cbn. nia.
  - unfold wildcard_matches. rewrite Hb. cbn [default from_option]. rewrite Hm. unfold to_match. rewrite !drop_0. split; [|by left].
    by intros [?|(? & ? & ? & _)].
Qed.

Lemma wildcard_matches_glob_witness :
  STAR ∉ utf8 (lit "review-security") ∧ Glob (utf8 (lit "review-*")) (utf8 (lit "review-security")).
Proof.
  split; [apply (bool_decide_unpack _); by vm_compute|].
  apply (wildcard_matches_glob (lit "review-*") (lit "review-security")); [apply (bool_decide_unpack _); by vm_compute|by vm_compute].
Defined.

(** A star of the value is taken for the star of the pattern. *)
Lemma star_in_the_value : wildcard_matches (lit "*") (lit "*ab") = false.
Proof. by vm_compute. Qed.

(** ** The preferred provider *)

Lemma min_by_le {A} (cmp : A → A → comparison) `{!OrdLaws cmp} (l : list A) x :
  min_by cmp l = Some x → x ∈ l ∧ ∀ y, y ∈ l → cmp_le cmp x y = true.
Proof.
  revert x. induction l as [|a l IH]; intros x Hx; [done|]. cbn in Hx. destruct (min_by cmp l) as [y|] eqn:Hy.
  - destruct (IH y eq_refl) as [Hin Hle]. assert (cmp_le cmp y a = true ∧ cmp a y = Gt ∨ cmp_le cmp a y = true ∧ cmp a y ≠ Gt) as Ha.
    { unfold cmp_le. rewrite (ord_antisym (cmp := cmp) a y). destruct (cmp a y); cbn; auto. }
    destruct Ha as [[Ha He]|[Ha He]].
    + rewrite He in Hx. injection Hx as <-. split; [by right|]. intros z [->|Hz]%elem_of_cons; [done|by apply Hle].
    + assert (x = a) as -> by (destruct (cmp a y); congruence). split; [by left|]. intros z [->|Hz]%elem_of_cons.
      * by destruct (cmp_le_total cmp a a).
      * eapply cmp_le_trans; [done|exact Ha|by apply Hle].
  - injection Hx as <-. assert (l = []) as -> by (destruct l as [|b l]; [done|cbn in Hy; by destruct (min_by cmp l)]).
    split; [by left|]. intros z ->%list_elem_of_singleton. by destruct (cmp_le_total cmp a a).
Qed.

#[local] Instance flip_ord_laws {A} (cmp : A → A → comparison) `{!OrdLaws cmp} : OrdLaws (flip cmp).
Proof.
  split; unfold flip.
  - intros x y. apply (ord_antisym (cmp := cmp)).
  - intros x y z Hxy. assert (cmp x y = Eq) as He by (by rewrite (ord_antisym (cmp := cmp) y x), Hxy).
    by rewrite (ord_antisym (cmp := cmp) x z), (ord_antisym (cmp := cmp) y z), (ord_eq (cmp := cmp) x y z).
  - intros x y z H1 H2. by rewrite (ord_lt_trans (cmp := cmp) z y x).
Qed.

#[export] Instance glob_ord_laws {B} : OrdLaws (λ a b : str * B, compare_agent_provider_globs a.1 b.1).
Proof. exact (then_with_laws (λ a : str * B, specificity a.1) (λ a, a.1) (flip Nat.compare) str_cmp). Qed.

Definition glob_entry (selector : str) (e : str * AgentProviderPreference) : Prop :=
  str_contains e.1 [STAR] && wildcard_matches e.1 selector = true.

(** An exact name wins; else, of the globs that match, the one with the most bytes
    that are no star, and of those the first in order. *)
Lemma preferred_provider_spec l sel p :
  agent_provider_preference (Some l) (Some sel) = Some p →
  (∃ e, e ∈ l ∧ e.1 = trim sel ∧ e.2 = p)
  ∨ (∀ e, e ∈ l → e.1 ≠ trim sel)
    ∧ ∃ e, e ∈ l ∧ e.2 = p ∧ glob_entry (trim sel) e
           ∧ ∀ e', e' ∈ l → glob_entry (trim sel) e' → (specificity e'.1 ≤ specificity e.1)%nat ∧ (specificity e'.1 = specificity e.1 → str_cmp e.1 e'.1 ≠ Gt).
Proof.
  unfold agent_provider_preference. cbn [mbind option_bind]. case_bool_decide; [done|].
  destruct (find_first _ l) as [e|] eqn:He.
  - intros [= <-]. apply find_first_Some in He as [Hin He]. left. exists e. split_and!; [done| |done]. by case_bool_decide.
  - destruct (min_by _ _) as [e|] eqn:Hm; [|done]. intros [= <-]. right. split.
    + intros e' He' Hk. pose proof (proj1 (find_first_None _ l) He e' He') as Hf. cbn in Hf. by rewrite bool_decide_true in Hf.
    + destruct (min_by_le _ _ _ Hm) as [Hin Hle]. apply list_elem_of_filter in Hin as [Hg Hin]. exists e. split_and!; try done.
      intros e' He' Hg'. specialize (Hle e' ltac:(apply list_elem_of_filter; by split)). unfold cmp_le, compare_agent_provider_globs, then_with in Hle.
      destruct (Nat.compare_spec (specificity e'.1) (specificity e.1)) as [Hs|Hs|Hs]; [|split; [lia|intros; lia]|done]. split; [lia|].
      intros _. by destruct (str_cmp e.1 e'.1).
Qed.

(** ** Snapshots *)

Lemma normalize_raw_stages done l : normalize_stages done (map raw_stage l) = Ok (done ++ l).
Proof.
  revert done. induction l as [|s l IH]; intros done; cbn; [by rewrite app_nil_r|].
  assert (plain_stage (raw_stage s) (transition (policy s)) (revision_transition (policy s)) = s) as ->
    by (destruct s as [n d a p ap e [t rt] po]; unfold plain_stage, own_post; cbn; by destruct po).
  rewrite IH, <- app_assoc. done.
Qed.

Definition limit_allowed (w : WorkflowDefinition) : Prop := match revision_limit w with Some n => 0 ≤ n | None => True end.

Lemma normalized_limit raw w : normalize_workflow_definition raw = Ok w → limit_allowed w.
Proof.
  unfold normalize_workflow_definition, limit_allowed. destruct (normalize_stages [] (rw_stages raw)) as [l|]; [|done]. cbn.
  destruct (rw_revision_limit raw) as [n|]; [|by intros [= <-]]. destruct (Z.ltb_spec n 0); [done|]. by intros [= <-].
Qed.

(** A workflow read from any of the forms it may be written in, pinned to a task
    as its snapshot and read again, is the same workflow: no stage is folded, split
    or reordered by the second reading. *)
Theorem snapshot_reads_back raw w :
  normalize_workflow_definition raw = Ok w → normalize_workflow_definition (snapshot w) = Ok w.
Proof.
  intros Hw. pose proof (normalized_limit raw w Hw) as Hl. unfold normalize_workflow_definition, snapshot, limit_allowed in *. cbn.
  rewrite normalize_raw_stages. cbn. destruct w as [n d st env lim vis]. cbn in *. destruct lim as [k|]; [|done]. by destruct (Z.ltb_spec k 0); [lia|].
Qed.

(** A stage, and a commit stage of the old kind that continues it. *)
Definition old_workflow : RawWorkflowDefinition :=
  mkRawWorkflow (Some (lit "old")) None
    [mkRawStage (lit "build") None None None None None None (Some TManual) None None None;
     mkRawStage (lit "commit") None (Some (lit "commit")) None None None None (Some TAuto) (Some Continue) None None;
     mkRawStage (lit "review") None (Some (lit "review")) None None None (Some (mkRawPolicy TAuto (Some TManual) None)) None None None None]
    None None Public.

Definition folded_workflow : WorkflowDefinition :=
  mkWorkflow (Some (lit "old")) None
    [mkStage (lit "build") None None None None None (mkPolicy TManual None) (Some (mkPost (lit "commit") None (Some (lit "commit")) None None));
     mkStage (lit "review") None (Some (lit "review")) None None None (mkPolicy TAuto (Some TManual)) None]
    None None Public.

Lemma snapshot_reads_back_witness :
  normalize_workflow_definition old_workflow = Ok folded_workflow ∧ normalize_workflow_definition (snapshot folded_workflow) = Ok folded_workflow.
Proof. split; [by vm_compute|]. apply (snapshot_reads_back old_workflow folded_workflow). by vm_compute. Defined.

(** ** Names *)

(** A name is looked for among the stages, and the first that has it is taken. *)
Lemma resolve_stage_spec w n i :
  resolve_stage_position w n = Some (AtStage i) ↔
  (∃ s, stages w !! i = Some s ∧ ws_name s = n) ∧ ∀ j s, (j < i)%nat → stages w !! j = Some s → ws_name s ≠ n.
Proof.
  unfold resolve_stage_position. transitivity (position (λ s, bool_decide (ws_name s = n)) (stages w) = Some i).
  - destruct (position _ (stages w)) as [k|]; [split; congruence|]. split; [|done]. by destruct (position _ (stages w)).
  - rewrite position_Some. setoid_rewrite bool_decide_eq_true. setoid_rewrite bool_decide_eq_false. done.
Qed.

(** With names of their own the stages are found where they are. *)
Lemma resolve_named w i s : NoDup (map ws_name (stages w)) → stages w !! i = Some s → resolve_stage_position w (ws_name s) = Some (AtStage i).
Proof.
  intros Hn Hs. apply resolve_stage_spec. split; [by exists s|]. intros j s' Hj Hs' He.
  assert (j = i); [|lia]. eapply (NoDup_lookup _ j i (ws_name s) Hn); rewrite list_lookup_fmap; [by rewrite Hs', <- He|by rewrite Hs].
Qed.
