(* ===== verification/StageRefine.v ===== *)
(** * Stage operations as moves

    What the operations of a task promise to whoever asks for them: the task has a
    stage and at most one move on its way, which has the name of its request and lands
    or is dropped.  What is seen of the calls, intents, failures and reconciliations of
    [StageOps] - the requests taken up, a post that goes on as a move, the moves made -
    is a trace of that machine as long as nothing is open when an operation is asked
    for. *)

From S2P Require Import Prelude RustStd StageRuns StageOps StageOpsSpec StageWork StageMoves StageOpsProofs.
Local Open Scope Z_scope.

(** ** The machine of moves *)

Record Moves := mkMoves { at_stage : str; pending : option str; made : list str }.

(** What may happen to a move on its way. *)
Inductive settle : Moves → Moves → Prop :=
  | MStay m : settle m m
  | MDrop s t l : settle (mkMoves s (Some t) l) (mkMoves s None l)
  | MLand s t l : settle (mkMoves s (Some t) l) (mkMoves t None (t :: l)).

Inductive move : Moves → Moves → Prop :=
  | MBegin s t l : move (mkMoves s None l) (mkMoves s (Some t) l)
  | MSettle m m' : settle m m' → move m m'.

(** The same machine with the names of the requests, and what is seen of it: a request
    is taken up under a name of its own, a post that cannot be given goes on under
    another, and a move lands.  A move is dropped unseen. *)
Inductive Label := Asked (r : Z) (t : str) | Again (r r' : Z) | Landed (r : Z) (t : str).

#[export] Instance Label_eq_dec : EqDecision Label.
Proof. solve_decision. Defined.

Record Slot := mkSlot { slot_stage : str; on_its_way : option (Z * str); next_name : Z }.

Inductive slot_settle : Slot → list Label → Slot → Prop :=
  | SlStay m : slot_settle m [] m
  | SlDrop s x k : slot_settle (mkSlot s (Some x) k) [] (mkSlot s None k)
  | SlAgain s r r' t k : k ≤ r' → slot_settle (mkSlot s (Some (r, t)) k) [Again r r'] (mkSlot s (Some (r', t)) (r' + 1))
  | SlLand s r t k : slot_settle (mkSlot s (Some (r, t)) k) [Landed r t] (mkSlot t None k).

Inductive slot_step : Slot → list Label → Slot → Prop :=
  | SlAsk s r t k : k ≤ r → slot_step (mkSlot s None k) [Asked r t] (mkSlot s (Some (r, t)) (r + 1))
  | SlSettle m ls m' : slot_settle m ls m' → slot_step m ls m'.

Inductive trace : Slot → list Label → Slot → Prop :=
  | TNil m : trace m [] m
  | TCons m ls m1 ls' m' : slot_step m ls m1 → trace m1 ls' m' → trace m (ls ++ ls') m'.

(** A trace, read label by label: what is on its way is dropped where the next request
    is taken up. *)
Definition accept (m : Slot) (l : Label) : option Slot :=
  match l, on_its_way m with
  | Asked r t, _ => if bool_decide (next_name m ≤ r) then Some (mkSlot (slot_stage m) (Some (r, t)) (r + 1)) else None
  | Again r r', Some (r1, t) =>
      if bool_decide (r1 = r ∧ next_name m ≤ r') then Some (mkSlot (slot_stage m) (Some (r', t)) (r' + 1)) else None
  | Landed r t, Some x => if bool_decide (x = (r, t)) then Some (mkSlot t None (next_name m)) else None
  | _, None => None
  end.

Fixpoint accepts (m : Slot) (ls : list Label) : option Slot :=
  match ls with [] => Some m | l :: ls => m ← accept m l; accepts m ls end.

(** The two differ in what was dropped. *)
Definition not_behind (m m' : Slot) : Prop :=
  slot_stage m = slot_stage m' ∧ next_name m = next_name m' ∧ (on_its_way m' = None ∨ on_its_way m' = on_its_way m).

Lemma trace_accepted_from m m1 ls m' : trace m ls m' → not_behind m1 m → ∃ m2, accepts m1 ls = Some m2 ∧ not_behind m2 m'.
Proof.
  intros Ht. revert m1. induction Ht as [m|m ls m0 ls' m' Hs _ IH]; intros [s1 o1 k1] (H1 & H2 & H3); cbn in H1, H2, H3.
  { exists (mkSlot s1 o1 k1). by split. }
  destruct Hs as [s r t k Hk|m0 ls0 m3 [m2|s x k|s r r' t k Hk|s r t k]]; cbn in *; subst; cbn [accept on_its_way next_name slot_stage].
  - rewrite bool_decide_true by done. apply IH. split_and!; [done..|by right].
  - by apply IH.
  - apply IH. split_and!; [done..|by left].
  - destruct H3 as [?|<-]; [done|]. rewrite bool_decide_true by done. apply IH. split_and!; [done..|by right].
  - destruct H3 as [?|<-]; [done|]. rewrite bool_decide_true by done. apply IH. split_and!; [done..|by right].
Qed.

Lemma trace_accepted m ls m' : trace m ls m' → is_Some (accepts m ls).
Proof.
  intros Ht. destruct (trace_accepted_from m m ls m' Ht) as (m2 & -> & _); [|by eexists]. split_and!; [done..|by right].
Qed.

Section Server.
Context {T : Task}.

Definition open_target (d : Db) : option str :=
  match intent d with
  | Some i => match payload i with PStage q => Some (p_next_stage q) | _ => None end
  | None => None
  end.

Definition target (o : Process) : str :=
  match o with StageOp p _ _ => next_stage p | PostOp p _ _ _ => next_stage (fallback p) end.

Definition moves_of (s : System) : Moves :=
  mkMoves (task_stage (db (world s)))
    (match process s with Some o => Some (target o) | None => open_target (db (world s)) end)
    (map snd (landed (world s))).

Definition op_name (o : Process) : Z := match o with StageOp _ r _ | PostOp _ r _ _ => r end.

Definition open_move (d : Db) : option (Z * str) :=
  match intent d with
  | Some i => match payload i with PStage q => Some (p_run_id q, p_next_stage q) | _ => None end
  | None => None
  end.

Definition slot_of (s : System) : Slot :=
  mkSlot (task_stage (db (world s)))
    (match process s with Some o => Some (op_name o, target o) | None => open_move (db (world s)) end)
    (clock s).

(** What is seen of an event: the moves recorded by it, a request that became an
    operation, an operation that goes on under another name. *)
Definition landings (w w' : World) : list Label :=
  reverse ((λ x, Landed x.1 x.2) <$> take (length (landed w') - length (landed w)) (landed w')).

Definition labels_of (s : System) (e : Event) : list Label :=
  let s' := step s e in
  match process s, process s' with
  | None, Some o => [Asked (op_name o) (target o)]
  | Some o, Some o' => if bool_decide (op_name o = op_name o') then [] else [Again (op_name o) (op_name o')]
  | _, _ => []
  end ++ landings (world s) (world s').

Fixpoint labels (s : System) (es : list Event) : list Label :=
  match es with [] => [] | e :: es => labels_of s e ++ labels (step s e) es end.

Lemma landings_none w w' : landed w' = landed w → landings w w' = [].
Proof. intros He. unfold landings. by rewrite He, Nat.sub_diag. Qed.

Lemma landings_one w w' x : landed w' = x :: landed w → landings w w' = [Landed x.1 x.2].
Proof. intros He. unfold landings. rewrite He. cbn [length]. by replace (S (length (landed w)) - length (landed w))%nat with 1%nat by lia. Qed.

Lemma open_target_move (d : Db) : open_target d = snd <$> open_move d.
Proof. unfold open_target, open_move. destruct (intent d) as [i|]; [|done]. by destruct (payload i). Qed.

(** A step that takes up no request, with its names and without. *)
Definition moves_seen (ls : list Label) : list (Z * str) := omap (λ l, match l with Landed r t => Some (r, t) | _ => None end) ls.

Definition settles (s s' : System) (ls : list Label) : Prop :=
  slot_settle (slot_of s) ls (slot_of s') ∧ landed (world s') = moves_seen ls ++ landed (world s).

Lemma moves_of_slot s : moves_of s = mkMoves (slot_stage (slot_of s)) (snd <$> on_its_way (slot_of s)) (map snd (landed (world s))).
Proof. destruct s as [w [o|] k]; unfold moves_of; cbn; [done|]. by rewrite open_target_move. Qed.

Lemma settles_settle s s' ls : settles s s' ls → settle (moves_of s) (moves_of s').
Proof.
  rewrite !moves_of_slot. destruct (slot_of s) as [st o k] eqn:H1, (slot_of s') as [st' o' k'] eqn:H2.
  unfold settles. rewrite H1, H2. intros [Hs ->]. inversion Hs; subst; cbn; constructor.
Qed.

(** An operation that is about to look at what is open finds nothing. *)
Definition nothing_before (s : System) : Prop :=
  match process s with
  | Some (StageOp _ _ SRelease) | Some (PostOp _ _ _ PRelease) => intent (db (world s)) = None
  | _ => True
  end.

(** The requests that begin an operation are made with nothing open. *)
Definition asked_when_settled (s : System) (e : Event) : Prop :=
  match e with BeginStage _ | BeginPost _ => process s = None → intent (db (world s)) = None | _ => True end.

Lemma release_nothing answers q last removes w :
  intent (db w) = None → release_lifecycle_operation_for_task answers q last removes w = (w, negb (bool_decide (q = DbFails))).
Proof.
  intros Hi. unfold release_lifecycle_operation_for_task, has_lifecycle_operation_for_task. rewrite Hi. case_bool_decide; [done|].
  by rewrite bool_decide_false by by intros [].
Qed.

(** A call that makes no move. *)
Definition quiet (p : PreparedStageRunSpawn) (r : Z) (w : World) (x : World * option StagePc) : Prop :=
  landed x.1 = landed w ∧ task_stage (db x.1) = task_stage (db w) ∧ x.2 ≠ Some SRelease
  ∧ (intent (db x.1) = None ∨ ∃ ph, intent (db x.1) = Some (own_intent p r ph)).

Definition makes_the_move (p : PreparedStageRunSpawn) (r : Z) (w : World) (x : World * option StagePc) : Prop :=
  landed x.1 = (r, next_stage p) :: landed w ∧ task_stage (db x.1) = next_stage p ∧ intent (db x.1) = None ∧ x.2 = None.

Lemma quiet_same p r w w' next :
  landed w' = landed w → db w' = db w → next ≠ Some SRelease → (intent (db w) = None ∨ ∃ ph, intent (db w) = Some (own_intent p r ph)) → quiet p r w (w', next).
Proof. intros H1 H2 H3 H4. unfold quiet. cbn [fst snd]. by rewrite H2. Qed.

Lemma holds_own p r pc w :
  pc ≠ SRelease → op_holds w (StageOp p r pc) → intent (db w) = None ∨ ∃ ph, intent (db w) = Some (own_intent p r ph).
Proof.
  intros Hn Hh. destruct pc as [| | | | | | | | | | |[]|[]|[]| | | | | | | |]; cbn [op_holds] in Hh; naive_solver.
Qed.

(** What is left of the operation's intent once it is dropped, or failed. *)
Lemma own_deleted r (d : Db) p : (intent d = None ∨ ∃ ph, intent d = Some (own_intent p r ph)) → intent (delete_lifecycle_operation_intent r d) = None.
Proof.
  intros [H|(ph & H)]; [|by eapply intent_delete_own]. destruct (intent_delete_intent r d) as [?|?]; congruence.
Qed.

Lemma own_marked p r ph w :
  (intent (db w) = None ∨ ∃ ph, intent (db w) = Some (own_intent p r ph)) →
  task_stage (db (mark_phase r ph w)) = task_stage (db w) ∧ (intent (db (mark_phase r ph w)) = None ∨ ∃ ph1, intent (db (mark_phase r ph w)) = Some (own_intent p r ph1)).
Proof.
  intros [H|(ph' & H)]; unfold mark_phase; cbn [db set_db].
  - unfold update_lifecycle_operation_phase. rewrite H. cbn. split; [done|by left].
  - split; [by rewrite (update_phase_own r ph (db w) _ H)|right; exists ph; exact (mark_own p r ph' ph w H)].
Qed.

Lemma early_moves c p r pc w :
  pc ∈ [SSetup; SRollbackSetup; SRecordSetupFailure; SPersist; SOutgoing; SKill; SShell; SReady; SRecord; SDeclare] →
  op_holds w (StageOp p r pc) → quiet p r w (stage_step c p r pc w).
Proof.
  intros Hpc Hh. assert (pc ≠ SRelease) as Hne by (intros ->; clear -Hpc; set_solver). pose proof (holds_own p r pc w Hne Hh) as Hi.
  destruct (rollback_frame p w) as (R1 & _ & R3 & _). destruct (finish_running_frame w) as (F1 & _ & _ & _ & _ & _ & _ & _ & F8 & F9).
  clear Hne. repeat (apply elem_of_cons in Hpc as [-> |Hpc]; cbn [op_holds] in Hh); [..|by apply not_elem_of_nil in Hpc]; cbn [stage_step].
  - destruct (ok c); by apply quiet_same.
  - by apply quiet_same.
  - destruct (ok c); [|by apply quiet_same]. unfold quiet. cbn [fst snd landed db set_db]. autorewrite with stage_db. by split_and!.
  - destruct (ok c); [|by apply quiet_same]. unfold persist_stage_operation_intent, insert_lifecycle_operation_intent. destruct Hh as [-> _].
    split_and!; cbn; try done. right. by exists Prepared.
  - destruct (ok c); [|by apply quiet_same]. unfold quiet. cbn [fst snd]. by rewrite F1, F8, F9.
  - destruct (ok c); by apply quiet_same.
  - destruct (workspace p); [|destruct (ok c)..]; by apply quiet_same.
  - destruct Hh as [Hi' _]. destruct (ok c); [|by apply quiet_same]. rewrite (update_phase_own r SpawnReady (db w) _ Hi') by done.
    split_and!; cbn; try done. right. by exists SpawnReady.
  - destruct (ok c && _); [|by apply quiet_same]. unfold quiet. cbn [fst snd landed db set_db]. autorewrite with stage_db. split_and!; [done|done| |done]. by destruct (headless p).
  - destruct (own_marked p r Submitted (note_submitted r w) Hi) as [M1 M2]. destruct (ok c); [by split_and!|by apply quiet_same].
Qed.

Lemma send_moves c p r again w : op_holds w (StageOp p r (SSend again)) → quiet p r w (stage_step c p r (SSend again) w).
Proof.
  intros Hh. pose proof (holds_own p r (SSend again) w ltac:(done) Hh) as Hi. cbn [stage_step]. set (o := if again && _ then Refused else outcome c).
  assert (∀ v l, landed v = landed w → db v = db w → let w2 := daemon_reads p o (note_crossed r (note_submitted r v)) in
            landed w2 = landed w ∧ db w2 = db w ∧ landed (note_lapse l w2) = landed w ∧ db (note_lapse l w2) = db w) as Hd by (intros v l H1 H2; by destruct o).
  destruct (headless p).
  - destruct (negb (crosses c)); [destruct (negb again && _); by apply quiet_same|].
    set (v := if bool_decide (o = Created) && _ then _ else w).
    destruct (Hd v SpawnUnmarked) as (H1 & H2 & _); [subst v; by destruct (bool_decide (o = Created) && _)..|].
    apply quiet_same; [exact H1|exact H2|by destruct (written c)|exact Hi].
  - destruct (negb (ok c)); [by apply quiet_same|]. destruct (negb (crosses c)); [by apply quiet_same|].
    destruct (Hd w SpawnUnmarked eq_refl eq_refl) as (H1 & H2 & H3 & H4).
    destruct (written c); [|destruct (bool_decide (o = Created))]; by apply quiet_same.
Qed.

Lemma commit_moves c p r w : op_holds w (StageOp p r SCommit) → quiet p r w (stage_step c p r SCommit w) ∨ makes_the_move p r w (stage_step c p r SCommit w).
Proof.
  intros Hh. pose proof (holds_own p r SCommit w ltac:(done) Hh) as Hi. cbn [stage_step]. destruct (ok c); cbn [negb]; [|left; by apply quiet_same].
  unfold reconcile_stage_operation_db. destruct (closed (db w)) eqn:Hc; [left; by apply quiet_same|].
  destruct (project_stage_Some (next_stage p) (prepared_workspace p) (sp_trigger p) (sp_provider_session_id p) (db w) Hc) as (d' & -> & H1 & _ & _ & H4 & _).
  cbn [mbind option_bind]. right. split_and!; cbn; [done|by autorewrite with stage_db| |done]. apply (own_deleted r d' p). by rewrite H1.
Qed.

Lemma late_moves c p r pc w :
  pc ∈ [SMark Created; SMark Refused; SMark Redirected; SReply Created; SReply Refused; SReply Redirected; SWithdraw; SFailRun; SAbort; SRollback; SKillStale; SFailStale; SRollbackStale] →
  op_holds w (StageOp p r pc) → quiet p r w (stage_step c p r pc w).
Proof.
  intros Hpc Hh. assert (pc ≠ SRelease) as Hne by (intros ->; clear -Hpc; set_solver). pose proof (holds_own p r pc w Hne Hh) as Hi.
  destruct (rollback_frame p w) as (R1 & _ & R3 & _). destruct (own_marked p r Submitted w Hi) as [M1 M2]. destruct (own_marked p r SpawnReady w Hi) as [N1 N2].
  assert (∀ l next, next ≠ Some SRelease → quiet p r w (note_lapse l w, next)) as Hlapse by (intros; by apply quiet_same).
  assert (∀ next, next ≠ Some SRelease → quiet p r w (set_db (fail_bound_stage_run r (db w)) w, next)) as Hfail.
  { intros next Hn. unfold quiet. cbn [fst snd landed db set_db]. by rewrite fail_bound_frame, fail_bound_intent. }
  assert (∀ ph next, next ≠ Some SRelease → task_stage (db (mark_phase r ph w)) = task_stage (db w) →
            (intent (db (mark_phase r ph w)) = None ∨ ∃ ph1, intent (db (mark_phase r ph w)) = Some (own_intent p r ph1)) → quiet p r w (mark_phase r ph w, next)) as Hmark
    by (intros; by split_and!).
  clear Hne. repeat (apply elem_of_cons in Hpc as [-> |Hpc]); [..|by apply not_elem_of_nil in Hpc]; clear Hh; cbn [stage_step].
  1-3: destruct (ok c); [by apply Hmark|by (apply Hlapse || apply quiet_same)].
  1-3: destruct (answered c); by apply quiet_same.
  - destruct (headless p); [by apply quiet_same|]. destruct (ok c); [by apply Hmark|by apply quiet_same].
  - destruct (ok c); [by apply Hfail|by apply Hlapse].
  - destruct (ok c); [|by apply quiet_same]. split_and!; cbn [fst snd landed db set_db]; [done|by autorewrite with stage_db|done|left; by apply (own_deleted r (db w) p)].
  - destruct (removes c); by apply quiet_same.
  - destruct (ok c); by apply quiet_same.
  - destruct (ok c); [by apply Hfail|by apply Hlapse].
  - destruct (removes c); by apply quiet_same.
Qed.

Lemma stage_step_moves c p r pc w :
  op_holds w (StageOp p r pc) → (pc = SRelease → intent (db w) = None) →
  quiet p r w (stage_step c p r pc w) ∨ makes_the_move p r w (stage_step c p r pc w).
Proof.
  intros Hh Hr. destruct (decide (pc = SRelease)) as [->|Hn].
  { left. cbn [stage_step]. rewrite release_nothing by by apply Hr. destruct (rollback_frame p w) as (R1 & _ & R3 & _).
    destruct (negb _); apply quiet_same; try done; left; by apply Hr. }
  destruct (decide (pc = SCommit)) as [->|Hn2]; [by apply commit_moves|left].
  destruct pc as [| | | | | | | | | | |again|[]|[]| | | | | | | |]; try done;
    first [by apply send_moves|by apply early_moves; [clear; set_solver|]|by apply late_moves; [clear; set_solver|]].
Qed.

Lemma post_step_moves c d p r inh pc w :
  op_holds w (PostOp p r inh pc) → (pc = PRelease → intent (db w) = None) →
  let x := post_step c d p r inh pc w in
  landed x.1 = landed w ∧ task_stage (db x.1) = task_stage (db w)
  ∧ match x.2 with Returns => open_target (db x.1) = None | FallsBack => intent (db x.1) = None | Goes _ pc => pc ≠ PRelease end.
Proof.
  intros [_ Hh] Hr. assert (open_target (db w) = None) as Ho.
  { unfold open_target. destruct pc; [by rewrite Hr|by rewrite Hh|by rewrite Hh|destruct Hh as (ph & q & Hi); by rewrite Hi..]. }
  assert ((∃ ph q, intent (db w) = Some (mkIntent r OpPost ph (PPost q))) → intent (delete_lifecycle_operation_intent r (db w)) = None) as Hdel
    by (intros (ph & q & Hi); by eapply intent_delete_own).
  destruct pc as [| | | |fb| |]; cbn [post_step].
  - rewrite release_nothing by by apply Hr. cbn [fst snd]. split_and!; [done..|]. by destruct (negb _).
  - destruct (negb (ok c)); [by split_and!|]. destruct (latest_stage_run (db w)) as [x|]; [|by split_and!]. case_bool_decide; by split_and!.
  - destruct (ok c); [|by split_and!]. unfold persist_post_operation_intent, insert_lifecycle_operation_intent. rewrite Hh. by split_and!.
  - destruct d; [..|destruct (crosses c)]; by split_and!.
  - specialize (Hdel Hh). destruct (ok c); [|by split_and!]. cbn [fst snd landed db set_db]. autorewrite with stage_db. split_and!; [done|done|].
    destruct fb; [done|]. unfold open_target. by rewrite Hdel.
  - destruct (ok c); [|by split_and!]. destruct Hh as (ph & q & Hi).
    destruct (commit_post_spec r (post_operation_payload p r inh) (db w) _ Hi eq_refl) as (d' & -> & Hd & _ & Hst & _). by split_and!.
  - specialize (Hdel Hh). destruct (ok c); [|by split_and!]. cbn [fst snd landed db set_db]. autorewrite with stage_db. split_and!; [done|done|].
    unfold open_target. by rewrite Hdel.
Qed.

(** Dropping or keeping what is on its way. *)
Lemma slot_to s x k u : u = None ∨ u = Some x → slot_settle (mkSlot s (Some x) k) [] (mkSlot s u k).
Proof. intros [->| ->]; constructor. Qed.

Lemma own_move p r ph (d : Db) : intent d = Some (own_intent p r ph) → open_move d = Some (r, next_stage p).
Proof. intros Hi. unfold open_move. rewrite Hi. cbn. unfold stage_operation_payload. by destruct (workspace p). Qed.

Lemma own_or_none p r (d : Db) : (intent d = None ∨ ∃ ph, intent d = Some (own_intent p r ph)) → open_move d = None ∨ open_move d = Some (r, next_stage p).
Proof. intros [H|(ph & H)]; [left; unfold open_move; by rewrite H|right; by eapply own_move]. Qed.

Lemma reconcile_moves q removes w k i :
  intent (db w) = Some i → well_formed i →
  let w' := reconcile_lifecycle_operation (Some (live w)) q removes i w in
  settles (mkSystem w None k) (mkSystem w' None k) (landings w w').
Proof.
  intros Hi Hf w'. destruct (reconcile_frame q removes w i Hi) as (Hint & _). fold w' in Hint.
  assert (open_move (db w) = match payload i with PStage p => Some (p_run_id p, p_next_stage p) | _ => None end) as Ho by (unfold open_move; by rewrite Hi).
  assert (task_stage (db w') = task_stage (db w) → landed w' = landed w → open_move (db w') = None ∨ open_move (db w') = open_move (db w) →
            settles (mkSystem w None k) (mkSystem w' None k) (landings w w')) as Hquiet.
  { intros H1 H2 H3. rewrite (landings_none _ _ H2). split; [|exact H2]. unfold slot_of. cbn [world process clock]. rewrite H1.
    destruct H3 as [->| ->]; [|constructor]. destruct (open_move (db w)); constructor. }
  assert (open_move (db w') = None ∨ open_move (db w') = open_move (db w)) as Hopen.
  { destruct Hint as [Hno|(_ & i' & Hi' & (_ & _ & Hp & _))]; [left; unfold open_move; by rewrite Hno|right].
    rewrite Ho. unfold open_move. by rewrite Hi', Hp. }
  subst w'. destruct (reconcile_spec q removes w i) as [?|p Hp|?|p ws d Hp Hws Hc Hts Hd|p Hp Hc Hs|p Hp Hs Hnt].
  - by apply Hquiet.
  - apply Hquiet; [|done|done]. by destruct (finalize_post_spec q i p (db w) Hi) as (_ & _ & Hst & _).
  - done.
  - destruct (reconcile_stage_payload_Some i p ws (db w) Hc Hws) as (d' & Hd' & Hno & _ & _ & _ & Hst & _). rewrite Hd in Hd'. injection Hd' as <-.
    rewrite (landings_one _ _ (p_run_id p, p_next_stage p)) by done. split; [|done]. unfold slot_of. cbn [world process clock db note_landed set_db fst snd].
    rewrite Ho, Hp, Hst. replace (open_move d) with (@None (Z * str)) by (unfold open_move; by rewrite Hno). constructor.
  - apply Hquiet; [|done|done]. destruct (fail_db_frame i p (db w) Hi) as (_ & Hst & _). cbn [db set_db]. by rewrite (afterwards_keeps task_stage).
  - destruct (fail_operation_frame i p RollBackFreshFork removes w) as (Hdb & _ & _ & _ & _ & _ & Hla & _).
    destruct (fail_db_frame i p (db w) Hi) as (_ & Hst & _). apply Hquiet; [by rewrite Hdb|exact Hla|done].
Qed.

Definition asks (e : Event) : bool := match e with BeginStage _ | BeginPost _ => true | _ => false end.

(** What is seen of a step by which no request is taken up. *)
Lemma seen_none w o k e w' o' k' :
  step (mkSystem w (Some o) k) e = mkSystem w' o' k' → (∀ x, o' = Some x → op_name x = op_name o) → landed w' = landed w → labels_of (mkSystem w (Some o) k) e = [].
Proof.
  intros He Hn Hl. unfold labels_of. rewrite He. cbn [process world]. rewrite (landings_none _ _ Hl).
  destruct o' as [x|]; [|done]. by rewrite bool_decide_true by by rewrite (Hn x).
Qed.

Lemma call_moves s c d :
  WorkInv s → nothing_before s → (∀ o, process s = Some o → op_name o < clock s) →
  settles s (step s (Call c d)) (labels_of s (Call c d)) ∧ nothing_before (step s (Call c d)).
Proof.
  destruct s as [w o k]. intros HW Hn Hk. pose proof HW as [Ha _ _]. cbn [world process clock] in Ha, Hk. unfold nothing_before in Hn. cbn [process world] in Hn.
  destruct o as [[p r pc|p r i pc]|]; [..|split; [unfold labels_of; cbn; rewrite landings_none by done; by split; [constructor|]|done]].
  - specialize (Ha _ eq_refl). assert (pc = SRelease → intent (db w) = None) as Hn' by (by intros ->).
    pose proof (stage_step_moves c p r pc w Ha Hn') as Hm. destruct (stage_step c p r pc w) as [w' next] eqn:Hst.
    assert (step (mkSystem w (Some (StageOp p r pc)) k) (Call c d) = mkSystem w' ((λ pc, StageOp p r pc) <$> next) k) as He by (cbn; by rewrite Hst).
    destruct Hm as [(H1 & H2 & H3 & H4)|(H1 & H2 & H3 & H4)]; cbn [fst snd] in *.
    + rewrite (seen_none _ _ _ _ _ _ _ He); [|by destruct next as [pc'|]; [intros ? [= <-]|]|done]. rewrite He. split; [split; [|exact H1]|by destruct next as [[]|]].
      unfold slot_of. cbn [process world clock]. rewrite H2. apply slot_to. destruct next as [pc'|]; cbn; [by right|by eapply own_or_none].
    + subst next. unfold labels_of. rewrite He. cbn [fmap option_fmap option_map process world]. rewrite (landings_one _ _ _ H1). cbn [app fst snd].
      split; [split; [|exact H1]|done]. unfold slot_of. cbn [process world clock op_name target]. rewrite H2.
      replace (open_move (db w')) with (@None (Z * str)) by (unfold open_move; by rewrite H3). constructor.
  - specialize (Ha _ eq_refl). assert (pc = PRelease → intent (db w) = None) as Hn' by (by intros ->). specialize (Hk _ eq_refl). cbn in Hk.
    pose proof (post_step_moves c d p r i pc w Ha Hn') as (H1 & H2 & H3). destruct (post_step c d p r i pc w) as [w' nx] eqn:Hst.
    assert (step (mkSystem w (Some (PostOp p r i pc)) k) (Call c d)
            = match nx with Returns => mkSystem w' None k | Goes i' pc' => mkSystem w' (Some (PostOp p r i' pc')) k
              | FallsBack => mkSystem w' (Some (StageOp (fallback p) k SRelease)) (k + 1) end) as He by (cbn; rewrite Hst; by destruct nx).
    destruct nx as [|i' pc'|]; cbn [fst snd] in *.
    + rewrite (seen_none _ _ _ _ _ _ _ He) by done. rewrite He. split; [split; [|exact H1]|done]. unfold slot_of. cbn [process world clock]. rewrite H2. apply slot_to. left.
      rewrite open_target_move in H3. by destruct (open_move (db w')).
    + rewrite (seen_none _ _ _ _ _ _ _ He); [|by intros ? [= <-]|done]. rewrite He. split; [split; [|exact H1]|by destruct pc']. unfold slot_of. cbn [process world clock]. rewrite H2. by apply slot_to; right.
    + unfold labels_of. rewrite He. cbn [process world op_name]. rewrite (landings_none _ _ H1), bool_decide_false by lia. split; [split; [|exact H1]|done].
      unfold slot_of. cbn [process world clock op_name target app]. rewrite H2. by apply SlAgain.
Qed.

Lemma abandon_moves s :
  WorkInv s → nothing_before s → settles s (step s ServerEnds) (labels_of s ServerEnds) ∧ nothing_before (step s ServerEnds).
Proof.
  destruct s as [w o k]. intros HW Hn. pose proof HW as [Ha _ _]. cbn [world process clock] in Ha.
  destruct o as [o|]; [|split; [unfold labels_of; cbn; rewrite landings_none by done; by split; [constructor|]|done]].
  specialize (Ha _ eq_refl). assert (db (abandon o w) = db w ∧ landed (abandon o w) = landed w) as [H1 H2] by (destruct (abandon_frame o w) as [->|(l & -> & _)]; done).
  rewrite (seen_none w o k ServerEnds (abandon o w) None k) by done. split; [split; [|exact H2]|done]. unfold slot_of. cbn [step process world clock]. rewrite H1.
  apply slot_to. destruct o as [p r pc|p r i pc]; cbn [target op_name].
  - destruct (decide (pc = SRelease)) as [->|Hne]; [left; unfold nothing_before in Hn; cbn in Hn; unfold open_move; by rewrite Hn|].
    eapply own_or_none, holds_own; [exact Hne|exact Ha].
  - left. unfold open_move. destruct Ha as [_ Ha]. unfold nothing_before in Hn. cbn in Hn.
    destruct pc; [by rewrite Hn|by rewrite Ha|by rewrite Ha|destruct Ha as (ph & q & Ha); by rewrite Ha..].
Qed.

(** An event that moves nothing and leaves what is under way. *)
Lemma seen_same w o k e w' :
  step (mkSystem w o k) e = mkSystem w' o k → landed w' = landed w → intent (db w') = intent (db w) → task_stage (db w') = task_stage (db w) →
  settles (mkSystem w o k) (step (mkSystem w o k) e) (labels_of (mkSystem w o k) e).
Proof.
  intros He H1 H2 H3. assert (labels_of (mkSystem w o k) e = []) as ->.
  { destruct o as [x|]; [eapply seen_none; [exact He|by intros ? [= <-]|done]|]. unfold labels_of. rewrite He. cbn. by rewrite landings_none. }
  rewrite He. split; [|exact H1]. unfold slot_of. cbn [world process clock]. rewrite H3. unfold open_move. rewrite H2. constructor.
Qed.

(** An event by which no request is taken up is a settled step of the machine. *)
Lemma settles_step s0 s e :
  guarded e → asks e = false → WorkInv s → LandInv s0 s → nothing_before s →
  settles s (step s e) (labels_of s e) ∧ nothing_before (step s e).
Proof.
  intros Hg He HW HL Hn. destruct e as [p|p|c d| |da q rm| | |st|rm]; try done; [apply call_moves; [done..|]|by apply abandon_moves|..].
  { intros o Ho. pose proof (li_op _ _ HL o Ho) as H. destruct o; by destruct H. }
  all: destruct s as [w o k].
  - destruct o as [o|]; [split; [by eapply seen_same|done]|]. split; [|done]. cbn [world] in *.
    assert (∀ l, step (mkSystem w None k) (Startup da q rm) = mkSystem (reconcile_lifecycle_operations l q rm w) None k → settles (mkSystem w None k) (mkSystem (reconcile_lifecycle_operations l q rm w) None k) (landings w (reconcile_lifecycle_operations l q rm w)) →
      settles (mkSystem w None k) (step (mkSystem w None k) (Startup da q rm)) (labels_of (mkSystem w None k) (Startup da q rm))) as Hgo.
    { intros l Hs H. unfold labels_of. rewrite Hs. exact H. }
    eapply Hgo; [reflexivity|]. unfold reconcile_lifecycle_operations. destruct (intent (db w)) as [i|] eqn:Hi; [|rewrite landings_none by done; split; [constructor|done]].
    pose proof (ii_formed _ _ _ (li_intent _ _ HL i Hi)) as Hf. cbn [world]. destruct da; [by apply reconcile_moves|].
    destruct (reconcile_silent q rm w i) as [q' ->]. by apply reconcile_moves.
  - split; [by eapply seen_same|exact Hn].
  - split; [by eapply seen_same|exact Hn].
  - destruct o as [o|]; [split; [by eapply seen_same|exact Hn]|].
    destruct (finish_latest_running_stage_run st None None (db w)) as [[d' x]|] eqn:Hf.
    + split; [|cbn; by rewrite Hf]. apply (seen_same w None k (Verdict st) (set_db d' w)); [cbn; by rewrite Hf|done|..];
        by apply finish_latest_Some in Hf as [->|(i & ->)].
    + split; [|cbn; by rewrite Hf]. apply (seen_same w None k (Verdict st) w); [cbn; by rewrite Hf|done..].
Qed.

Lemma settle_step s0 s e :
  guarded e → asks e = false → WorkInv s → LandInv s0 s → nothing_before s →
  settle (moves_of s) (moves_of (step s e)) ∧ nothing_before (step s e).
Proof. intros Hg He HW HL Hn. destruct (settles_step s0 s e Hg He HW HL Hn) as [H1 H2]. split; [by eapply settles_settle|done]. Qed.

Lemma ask_step s e :
  asks e = true → asked_when_settled s e → nothing_before s →
  (step s e = s ∨ ∃ t, moves_of s = mkMoves (task_stage (db (world s))) None (map snd (landed (world s)))
                       ∧ moves_of (step s e) = mkMoves (task_stage (db (world s))) (Some t) (map snd (landed (world s)))
                       ∧ match e with BeginStage p => t = next_stage p | BeginPost p => t = next_stage (fallback p) | _ => True end)
  ∧ nothing_before (step s e).
Proof.
  destruct s as [w o k]. intros He Ha Hn. destruct e as [p|p|c d| |da q rm| | |st|rm]; try done; cbn [step process world clock] in *; cbn in Hn, Ha.
  - destruct o as [o|]; [split; [by left|exact Hn]|]. specialize (Ha eq_refl). destruct (fork_is_fresh p w); [|split; [by left|exact Hn]].
    assert (db (prepare_fork p w) = db w ∧ landed (prepare_fork p w) = landed w) as [H1 H2] by (unfold prepare_fork; by destruct (workspace p)).
    split; [right; exists (next_stage p)|by unfold nothing_before; cbn; rewrite H1]. unfold moves_of. cbn [process world target]. rewrite H1, H2. split_and!; try done.
    unfold open_target. by rewrite Ha.
  - destruct o as [o|]; [split; [by left|exact Hn]|]. specialize (Ha eq_refl). destruct (workspace (fallback p)); [|split; [by left|exact Hn]..].
    split; [right; exists (next_stage (fallback p))|exact Ha]. unfold moves_of. cbn [process world target]. split_and!; try done. unfold open_target. by rewrite Ha.
Qed.

(** Every request of a history is made with nothing open. *)
Fixpoint asked_in_turn (s : System) (es : list Event) : Prop :=
  match es with [] => True | e :: es => asked_when_settled s e ∧ asked_in_turn (step s e) es end.

Lemma step_inv s0 s e : guarded e → SysInv s0 s → SysInv s0 (step s e).
Proof. intros Hg [H1 H2 H3 H4]. split; [by apply step_work|by apply step_lands|by eapply step_runs|by apply step_crosses]. Qed.

(** A request that is taken up, under the name its operation keeps. *)
Lemma ask_seen s e :
  asks e = true → asked_when_settled s e → slot_step (slot_of s) (labels_of s e) (slot_of (step s e)).
Proof.
  destruct s as [w o k]. intros He Ha.
  assert (step (mkSystem w o k) e = mkSystem w o k → slot_step (slot_of (mkSystem w o k)) (labels_of (mkSystem w o k) e) (slot_of (step (mkSystem w o k) e))) as Hstay.
  { intros Hs. unfold labels_of. rewrite Hs. cbn [process world]. rewrite landings_none by done. rewrite app_nil_r.
    destruct o as [o|]; [rewrite bool_decide_true by done|]; apply SlSettle, SlStay. }
  assert (∀ w' o', intent (db w) = None → step (mkSystem w None k) e = mkSystem w' (Some o') (k + 1) → op_name o' = k → db w' = db w → landed w' = landed w →
            slot_step (slot_of (mkSystem w None k)) (labels_of (mkSystem w None k) e) (slot_of (step (mkSystem w None k) e))) as Hgo.
  { intros w' o' Hi Hs Hk Hd Hl. unfold labels_of. rewrite Hs. cbn [process world]. rewrite (landings_none _ _ Hl), app_nil_r.
    unfold slot_of. cbn [process world clock]. rewrite Hd. unfold open_move. rewrite Hi, Hk. by apply SlAsk. }
  destruct e as [p|p|c d| |da q rm| | |st|rm]; try done; (destruct o as [o|]; [by apply Hstay|]; cbn in Ha; specialize (Ha eq_refl)).
  - destruct (fork_is_fresh p w) eqn:Hf; [|apply Hstay; cbn; by rewrite Hf].
    eapply Hgo; [exact Ha|cbn; by rewrite Hf|done|unfold prepare_fork; by destruct (workspace p)..].
  - destruct (workspace (fallback p)) eqn:Hw; [|apply Hstay; cbn; by rewrite Hw..]. eapply Hgo; [exact Ha|cbn; by rewrite Hw|done..].
Qed.

Lemma step_seen s0 s e :
  guarded e → asked_when_settled s e → SysInv s0 s → nothing_before s →
  slot_step (slot_of s) (labels_of s e) (slot_of (step s e)) ∧ nothing_before (step s e).
Proof.
  intros Hg Ha HI Hn. destruct (asks e) eqn:He.
  - split; [by apply ask_seen|]. by destruct (ask_step s e He Ha Hn).
  - destruct (settles_step s0 s e Hg He (sys_work _ _ HI) (sys_land _ _ HI) Hn) as [[H1 _] H2]. split; [by apply SlSettle|done].
Qed.

Lemma run_seen s0 s es :
  Forall guarded es → asked_in_turn s es → SysInv s0 s → nothing_before s → trace (slot_of s) (labels s es) (slot_of (run_from s es)).
Proof.
  intros HF. revert s. induction HF as [|e es He _ IH]; intros s Ha HI Hn; [constructor|]. destruct Ha as [Ha Hes].
  destruct (step_seen s0 s e He Ha HI Hn) as [H1 H2]. cbn [labels run_from foldl]. econstructor; [exact H1|]. apply IH; [done|by apply step_inv|done].
Qed.

(** C13: what is seen of the operations of a task - the requests taken up, each under
    a name of its own and with its target, a post that goes on as a move, the moves
    made - over any history of calls, failures, ends of the server and
    reconciliations, is a trace of the machine in which the task has a stage and at
    most one request on its way, which lands, in the stage it asked for, or is dropped;
    and the task is in the machine's stage.  An operation is asked for when nothing is
    open: then a move that lands is the one asked for last, and lands once. *)
Theorem operations_refine_moves s b l es :
  Forall guarded es → asked_in_turn (initial s b l) es →
  trace (mkSlot s None 1) (labels (initial s b l) es) (slot_of (run_from (initial s b l) es)).
Proof. intros HF Ha. apply (run_seen s (initial s b l) es HF Ha); [apply initial_inv|done]. Qed.

End Server.

Lemma operations_refine_moves_witness :
  trace (mkSlot (lit "build") None 1) [Asked 1 (lit "review"); Landed 1 (lit "review"); Asked 2 (lit "review")]
    (slot_of (history (up_to_landing ++ [Call fine Delivered; BeginPost a_post]))).
Proof.
  assert (labels (T := a_task) (initial (lit "build") None None) (up_to_landing ++ [Call fine Delivered; BeginPost a_post])
          = [Asked 1 (lit "review"); Landed 1 (lit "review"); Asked 2 (lit "review")]) as <- by by vm_compute.
  apply (operations_refine_moves (lit "build") None None (up_to_landing ++ [Call fine Delivered; BeginPost a_post])); [by repeat constructor|].
  repeat (split; [by vm_compute|]). done.
Defined.

(** A second move asked for while the first is open, its answer lost: the guard makes
    the first, whose agent is at work in its fork, and the second then kills that
    agent and makes the same move again in a fork of its own. *)
Definition another_move : PreparedStageRunSpawn :=
  mkSpawn (lit "review") (lit "review") Main (Forked (mkWorkspace (lit "task-review-2") (lit "/w/task-review-2"))) None (lit "claude") None None (lit "manual") Operator
    None (Some (lit "native")) (lit "/w/task-review-2") false.

Definition overtaken : list Event :=
  up_to_spawn ++ [Call fine Delivered; Call fine Delivered; Call (mkChoice true Created true false true true DbAnswers) Delivered; BeginStage another_move] ++ replicate 12 (Call fine Delivered).

Lemma old_move_lands_under_a_new_one :
  let s := history overtaken in
  landed (world s) = [(2, lit "review"); (1, lit "review")] ∧ live (world s) = Some (lit "/w/task-review-2") ∧ task_branch (db (world s)) = Some (lit "task-review-2").
Proof. by vm_compute. Qed.

(** Asked for out of turn, what is seen is no trace of the machine. *)
Lemma overtaken_move_is_no_trace m : ¬ trace (mkSlot (lit "build") None 1) (labels (T := a_task) (initial (lit "build") None None) overtaken) m.
Proof. intros Ht%trace_accepted. revert Ht. apply (bool_decide_unpack _). by vm_compute. Qed.
