(* ===== verification/Routing.v ===== *)
(** * Routing a task through its workflow
      ([crates/kanna-server/src/task_creator/stages.rs],
       [crates/kanna-server/src/http_api/task_actions.rs])

    What an advance, the verdict of a run and a request for a revision decide: the next
    stage, the post of this one, the end of the task, or nothing; and the system in
    which those decisions start the operations of [StageOps].  What preparing a run
    takes from git, the agents' definitions and the providers is given with the
    request. *)

From S2P Require Import Prelude RustStd StageRuns StageOps Workflow.
Local Open Scope kanna_scope.
Local Open Scope Z_scope.

(** ** Decisions *)

Inductive RouteError :=
  | TaskClosed | TaskBlocked | StageNotFound (name : str) | PostStillRunning (name : str) | NoPost (name : str)
  | OverrideAtPost (name : str) | OverrideAtClose | InvalidTransition (value : str) | StaleAdvance
  | NoRun | NotWritten | OtherVerdict (run : Z) | Ambiguous (runs : list Z) | StaleRun (current : Z) | CannotComplete (status : RunStatus)
  | NoFeedback | CannotRevise (run : option Z).

Inductive PreparedTransition :=
  | ToStage (stage : WorkflowStage) (item_stage : str) (kind : RunKind) (t : WorkflowStageTransition) (trigger : StageTrigger)
  | ToPost (owner post_stage : WorkflowStage) (trigger : StageTrigger)
  | ToClose.

(** The workflow pinned to the task; the JSON of a revision's verdict; and the
    [summary] of a result's JSON. *)
Section Routing.
Context {T : Task} (w : WorkflowDefinition) (revision_stage_result : str → str) (json_summary : str → option str).

(** Past the last stage the task is closed. *)
Definition prepare_swap_to_index (next_index : nat) (trigger : StageTrigger) (override : bool) : Prelude.result PreparedTransition RouteError :=
  match stages w !! next_index with
  | None => if override then Err OverrideAtClose else Ok ToClose
  | Some next => Ok (ToStage next (ws_name next) Main (transition (policy next)) trigger)
  end.

Definition prepare_post_dispatch (owner : WorkflowStage) (trigger : StageTrigger) : Prelude.result PreparedTransition RouteError :=
  match post_as_stage owner with
  | None => Err (NoPost (ws_name owner))
  | Some post_stage => Ok (ToPost owner post_stage trigger)
  end.

(** Whether the stage's post is still to run: [None] while it is running. *)
Definition post_pending (p : WorkflowPost) (d : Db) : option bool :=
  match latest_stage_run d with
  | Some run =>
      if bool_decide (kind run = Post ∧ stage run = po_name p)
      then if bool_decide (status run = Running) then None else Some (bool_decide (status run = Failed ∨ status run = Cancelled))
      else Some true
  | None => Some true
  end.

Definition prepare_advance_stage (d : Db) (blocked override : bool) (trigger : StageTrigger) : Prelude.result PreparedTransition RouteError :=
  if closed d then Err TaskClosed
  else if blocked then Err TaskBlocked
  else
    match resolve_stage_position w (task_stage d) with
    | None => Err (StageNotFound (task_stage d))
    | Some (AtPost owner) => prepare_swap_to_index (S owner) trigger override
    | Some (AtStage index) =>
        match stages w !! index with
        | None => Err (StageNotFound (task_stage d))
        | Some here =>
            match post here with
            | None => prepare_swap_to_index (S index) trigger override
            | Some p =>
                match post_pending p d with
                | None => Err (PostStillRunning (po_name p))
                | Some true => if override then Err (OverrideAtPost (po_name p)) else prepare_post_dispatch here trigger
                | Some false => prepare_swap_to_index (S index) trigger override
                end
            end
        end
    end.

(** The handler: an advance of a stage whose post is running is taken for the one under
    way, and one that names the run it follows is refused when that is not the
    latest. *)
Definition advance_stage (d : Db) (expected : option Z) (blocked override : bool) (trigger : StageTrigger)
    : Prelude.result (option PreparedTransition) RouteError :=
  if bool_decide (is_Some expected ∧ id <$> latest_stage_run d ≠ expected) then Err StaleAdvance
  else
    match latest_stage_run d with
    | Some run =>
        if bool_decide (kind run = Post ∧ status run = Running) then Ok None
        else let? t := prepare_advance_stage d blocked override trigger in Ok (Some t)
    | None => let? t := prepare_advance_stage d blocked override trigger in Ok (Some t)
    end.

Definition completion_transition_of (value : option str) (default_transition : WorkflowStageTransition)
    : Prelude.result WorkflowStageTransition RouteError :=
  match value with
  | None => Ok default_transition
  | Some v =>
      if bool_decide (v = lit "manual") then Ok TManual
      else if bool_decide (v = lit "auto") then Ok TAuto
      else Err (InvalidTransition v)
  end.

(** What the success of a run leads to; [None] parks the task. *)
Definition prepare_stage_completion (d : Db) (finished : StageRun) : Prelude.result (option PreparedTransition) RouteError :=
  let stored := default Unspecified (trigger finished) in
  if closed d then Ok None
  else
    match resolve_stage_position w (task_stage d) with
    | None => Err (StageNotFound (task_stage d))
    | Some (AtPost owner) => let? t := prepare_swap_to_index (S owner) stored false in Ok (Some t)
    | Some (AtStage index) =>
        match stages w !! index with
        | None => Err (StageNotFound (task_stage d))
        | Some here =>
            if bool_decide (kind finished = Post) then let? t := prepare_swap_to_index (S index) stored false in Ok (Some t)
            else
              let? ct := completion_transition_of (completion_transition finished) (transition (policy here)) in
              match ct with
              | TManual => Ok None
              | TAuto =>
                  match post here with
                  | Some _ => let? t := prepare_post_dispatch here Auto in Ok (Some t)
                  | None =>
                      match stages w !! (S index) with
                      | None => Ok None
                      | Some _ => let? t := prepare_swap_to_index (S index) Auto false in Ok (Some t)
                      end
                  end
              end
        end
    end.

(** ** Verdicts *)

(** The run an action is about: the running one, the one named where several run, or
    the latest. *)
Definition resolve_action_run (d : Db) (requested : option Z) : Prelude.result (option StageRun) RouteError :=
  match running_stage_runs d with
  | [] => Ok (latest_stage_run d)
  | [run] => Ok (Some run)
  | running =>
      match find_first (λ r, bool_decide (Some (id r) = requested)) running with
      | Some run => Ok (Some run)
      | None => Err (Ambiguous (map id running))
      end
  end.

(** The verdicts recorded for attempts that named no run, by the attempt's key. *)
Abbreviation Attempts := (gmap str (Z * str)).

Definition record_contextless_completion_attempt (attempt_key : str) (run : Z) (res : str) (d : Db) (a : Attempts) : option Attempts :=
  match stage_run d run, a !! attempt_key with
  | Some _, Some _ => None
  | Some _, None => Some (<[attempt_key := (run, res)]> a)
  | None, _ => Some a
  end.

Definition note_attempt (contextless_key : option str) (run : Z) (res : str) (d : Db) (a : Attempts) : option Attempts :=
  match contextless_key with Some k => record_contextless_completion_attempt k run res d a | None => Some a end.

(** The retry's identity and the verdict are committed together. *)
Definition finish_completed (contextless_key : option str) (run : Z) (s : RunStatus) (res summary : str) (d : Db) (a : Attempts) : option (Db * Attempts) :=
  d ← finish_stage_run run s (Some res) (Some summary) d;
  a ← note_attempt contextless_key run res d a;
  Some (d, a).

Inductive Completion := AlreadyClosed | Replayed (a : Attempts) | Recorded (d : Db) (a : Attempts) (finished : StageRun).

(** A verdict as it is sent: the run it names, the key of the attempt, and the run that
    an older adapter's completion contexts say the attempt was for. *)
Record CompleteStageRequest := mkComplete {
  run_id : option Z;
  completion_attempt_key : option str;
  legacy_run : option Z;
  success : bool;
  stage_result : str;
  cr_summary : str
}.

Definition contextless_key (q : CompleteStageRequest) : option str :=
  match run_id q with Some _ => None | None => completion_attempt_key q end.

Definition verdict (q : CompleteStageRequest) : RunStatus := if success q then Succeeded else Failed.

Definition replayed (q : CompleteStageRequest) (run : Z) (d : Db) (a : Attempts) : Prelude.result Completion RouteError :=
  match note_attempt (contextless_key q) run (stage_result q) d a with Some a => Ok (Replayed a) | None => Err NotWritten end.

(** The verdict of a run is recorded once; the same verdict again is a replay. *)
Definition record_completion (d : Db) (a : Attempts) (q : CompleteStageRequest) : Prelude.result Completion RouteError :=
  match (k ← contextless_key q; a !! k) with
  | Some (original_run, original_result) => if bool_decide (original_result = stage_result q) then Ok (Replayed a) else Err (OtherVerdict original_run)
  | None =>
      if closed d then Ok AlreadyClosed
      else
        let? current := resolve_action_run d (run_id q) in
        match current with
        | None => Err NoRun
        | Some current =>
            let presented := default (id current) (run_id q) in
            let run := match completion_attempt_key q with Some _ => default presented (legacy_run q) | None => presented end in
            if negb (id current =? run) then
              match stage_run d run with
              | Some prior =>
                  if bool_decide (status prior = verdict q ∧ StageRuns.result prior = Some (stage_result q)) then replayed q run d a
                  else Err (StaleRun (id current))
              | None => Err (StaleRun (id current))
              end
            else if bool_decide (status current = verdict q ∧ StageRuns.result current = Some (stage_result q)) then replayed q run d a
            else if bool_decide (status current ∈ [Running; Succeeded; Failed]) then
              match finish_completed (contextless_key q) run (verdict q) (stage_result q) (cr_summary q) d a with
              | Some (d, a) => Ok (Recorded d a current)
              | None => Err NotWritten
              end
            else Err (CannotComplete (status current))
        end
  end.

Definition complete_stage (d : Db) (a : Attempts) (q : CompleteStageRequest) : Db * Attempts * Prelude.result (option PreparedTransition) RouteError :=
  match record_completion d a q with
  | Err e => (d, a, Err e)
  | Ok AlreadyClosed => (d, a, Ok None)
  | Ok (Replayed a) => (d, a, Ok None)
  | Ok (Recorded d a finished) => (d, a, if success q then prepare_stage_completion d finished else Ok None)
  end.

(** ** Revisions *)

Definition blank (s : str) : bool := bool_decide (trim s = []).

Definition resolve_revision_feedback (d : Db) (requested : str) : Prelude.result str RouteError :=
  if negb (blank requested) then Ok requested
  else
    let recorded :=
      run ← latest_stage_run d;
      match feedback run with
      | Some f => if blank f then s ← StageRuns.result run; s ← json_summary s; if blank s then None else Some s else Some f
      | None => s ← StageRuns.result run; s ← json_summary s; if blank s then None else Some s
      end in
    match recorded with Some f => Ok f | None => Err NoFeedback end.

(** A revision of a post runs it as a stage of its own, the task staying with its
    owner. *)
Definition prepare_revision_task (d : Db) (target_stage revision_prompt : str) (trigger : StageTrigger) : Prelude.result (PreparedTransition * str) RouteError :=
  if closed d then Err TaskClosed
  else
    let? f := resolve_revision_feedback d revision_prompt in
    match resolve_stage_position w target_stage with
    | None => Err (StageNotFound target_stage)
    | Some (AtStage index) =>
        match stages w !! index with
        | None => Err (StageNotFound target_stage)
        | Some st => Ok (ToStage st (ws_name st) Main (effective_revision_transition (policy st)) trigger, f)
        end
    | Some (AtPost owner) =>
        match stages w !! owner with
        | None => Err (StageNotFound target_stage)
        | Some here =>
            match post_as_stage here with
            | None => Err (NoPost (ws_name here))
            | Some st => Ok (ToStage st (ws_name here) Post (effective_revision_transition (policy st)) trigger, f)
            end
        end
    end.

(** The run a revision's verdict closes, if any. *)
Definition validate_revision_run_binding (d : Db) (requested : option Z) (agent : bool) : Prelude.result (option Z) RouteError :=
  let? current := resolve_action_run d requested in
  if agent && bool_decide (requested = None)
     && match current with Some run => negb (bool_decide (status run = Running)) && completion_bound run | None => false end
  then Err (CannotRevise (id <$> current))
  else
    let inferred := current ← current; if bool_decide (status current = Running) then Some (id current) else None in
    match (match requested with Some r => Some r | None => inferred end) with
    | None => Ok None
    | Some r =>
        match current with
        | None => Err (CannotRevise (Some r))
        | Some run =>
            if negb (id run =? r) then Err (CannotRevise (Some r))
            else if agent && (negb (bool_decide (kind run = Main)) || negb (bool_decide (status run = Running))) then Err (CannotRevise (Some r))
            else Ok inferred
        end
    end.

Definition claim_agent_revision_round (rounds limit : Z) : option Z :=
  if (0 <? limit) && (limit <=? rounds) then None else Some (rounds + 1).

Definition finish_verdict (run : option Z) (res fb : str) (d : Db) : option Db :=
  match run with Some r => finish_stage_run r Failed (Some res) (Some fb) d | None => Some d end.

Definition parked_summary (limit : Z) (summary : str) : str :=
  lit "Parked for human review: this task's automatic revision budget (" ++ decimal limit
    ++ lit " round(s)) is spent, so Kanna did not start another revision. Review verdict: " ++ summary.

(** The limit is read from the pinned workflow; the last field says that the budget is
    spent. *)
Definition append_revision_requested_event (target_stage summary : str) (agent : bool) (rounds : Z) (exhausted : bool) (d : Db) : Db :=
  append_task_event (RevisionRequested target_stage summary agent rounds (effective_revision_limit w) exhausted) d.

(** The rows, the rounds spent, and the revision to start, if one is. *)
Definition request_revision (d : Db) (rounds : Z) (agent : bool) (target_stage prompt summary : str) (requested : option Z) (trigger : StageTrigger)
    : Db * Z * Prelude.result (option (PreparedTransition * str)) RouteError :=
  let limit := effective_revision_limit w in
  if agent && blank prompt then (d, rounds, Err NoFeedback)
  else
    match validate_revision_run_binding d requested agent with
    | Err e => (d, rounds, Err e)
    | Ok run =>
        if agent && (0 <? limit) && (limit <=? rounds) then
          match finish_verdict run (revision_stage_result (parked_summary limit summary)) prompt d with
          | Some d => (append_revision_requested_event target_stage summary agent rounds true (update_pipeline_item_activity (lit "unread") d), rounds, Ok None)
          | None => (d, rounds, Err NotWritten)
          end
        else
          match prepare_revision_task d target_stage (if blank prompt then summary else prompt) trigger with
          | Err e => (d, rounds, Err e)
          | Ok prepared =>
              match (if agent then claim_agent_revision_round rounds limit else Some 0),
                    finish_verdict run (revision_stage_result summary) summary d with
              | Some rounds', Some d' =>
                  (append_revision_requested_event target_stage summary agent (if agent then rounds + 1 else 0) false d', rounds', Ok (Some prepared))
              | _, _ => (d, rounds, Err NotWritten)
              end
          end
    end.

(** ** The task under its workflow *)

(** What preparing a run found: the workspace, the agent and the provider; the message
    of a post. *)
Record Preparation := mkPreparation { env : PreparedStageRunSpawn; live_message : str }.

Definition transition_str (t : WorkflowStageTransition) : str := match t with TManual => lit "manual" | TAuto => lit "auto" end.

Definition spawn_for (e : PreparedStageRunSpawn) (st : WorkflowStage) (item_stage : str) (k : RunKind) (t : WorkflowStageTransition) (tr : StageTrigger) (fb : option str)
    : PreparedStageRunSpawn :=
  mkSpawn item_stage (ws_name st) k (match k with Main => workspace e | Post => Current end) (stage_agent e) (sp_agent_provider e) (sp_model e) (sp_effort e)
    (transition_str t) tr fb (sp_provider_session_id e) (sp_cwd e) (headless e).

(** Carrying a decision out. *)
Definition execute_stage_transition (t : PreparedTransition) (fb : option str) (e : Preparation) : Event :=
  match t with
  | ToStage st item_stage k ct tr => BeginStage (spawn_for (env e) st item_stage k ct tr fb)
  | ToPost owner post_stage tr =>
      BeginPost (mkPostDispatch (live_message e) (ws_name post_stage) (spawn_for (env e) post_stage (ws_name owner) Post (transition (policy post_stage)) tr fb))
  | ToClose => TaskCloses
  end.

Record Routed := mkRouted { engine : System; revision_rounds : Z; attempts : Attempts }.

(** A request finds what it needs to prepare a run, or not. *)
Inductive RoutedEvent :=
  | Advance (expected : option Z) (blocked override : bool) (trigger : StageTrigger) (e : option Preparation)
  | Complete (q : CompleteStageRequest) (e : option Preparation)
  | Revise (agent : bool) (target_stage prompt summary : str) (run : option Z) (trigger : StageTrigger) (e : option Preparation)
  | Engine (e : Event).

Definition with_db (d : Db) (s : System) : System := mkSystem (set_db d (world s)) (process s) (clock s).

Definition start (t : option (PreparedTransition * option str)) (e : option Preparation) (s : System) : System :=
  match t, e with
  | Some (ToClose, _), _ => step s TaskCloses
  | Some (t, fb), Some e => step s (execute_stage_transition t fb e)
  | _, _ => s
  end.

Definition decided (r : Prelude.result (option PreparedTransition) RouteError) : option (PreparedTransition * option str) :=
  match r with Ok (Some t) => Some (t, None) | _ => None end.

(** A request waits for the operation under way; a revision that cannot be prepared
    spends no round. *)
Definition routed_step (s : Routed) (e : RoutedEvent) : Routed :=
  let d := db (world (engine s)) in
  match e with
  | Engine e => mkRouted (step (engine s) e) (revision_rounds s) (attempts s)
  | _ =>
      match process (engine s) with
      | Some _ => s
      | None =>
          match e with
          | Advance expected blocked override tr e => mkRouted (start (decided (advance_stage d expected blocked override tr)) e (engine s)) (revision_rounds s) (attempts s)
          | Complete q e =>
              let '(d, a, r) := complete_stage d (attempts s) q in
              mkRouted (start (decided r) e (with_db d (engine s))) (revision_rounds s) a
          | Revise agent target prompt summary run tr e =>
              let '(d', rounds, r) := request_revision d (revision_rounds s) agent target prompt summary run tr in
              match r, e with
              | Ok (Some (t, f)), Some _ => mkRouted (start (Some (t, Some f)) e (with_db d' (engine s))) rounds (attempts s)
              | Ok (Some _), None => s
              | _, _ => mkRouted (with_db d' (engine s)) rounds (attempts s)
              end
          | Engine _ => s
          end
      end
  end.

Definition routed_run (s : Routed) (es : list RoutedEvent) : Routed := foldl routed_step s es.

End Routing.
