(* ===== verification/RoutingProofs.v ===== *)
(** * Routing: proofs

    The decisions of the handlers, carried out by operations that refine the machine of
    moves, take a task through the stages of its workflow in order, and only so many
    times before a person is asked. *)

From S2P Require Import Prelude RustStd Workflow WorkflowProofs StageRuns StageOps StageOpsSpec StageWork StageMoves StageOpsProofs StageRefine Routing.
Local Open Scope kanna_scope.
Local Open Scope Z_scope.

Section Routing.
Context {T : Task} (w : WorkflowDefinition) (revision_stage_result : str → str) (json_summary : str → option str).

Abbreviation advance_stage := (advance_stage w).
Abbreviation complete_stage := (complete_stage w).
Abbreviation request_revision := (request_revision w revision_stage_result json_summary).
Abbreviation routed_step := (routed_step w revision_stage_result json_summary).
Abbreviation routed_run := (routed_run w revision_stage_result json_summary).

(** ** Where decisions lead *)

Definition index_of (n : str) : option nat := match resolve_stage_position w n with Some (AtStage i) => Some i | _ => None end.

Definition target_of (t : PreparedTransition) : option str :=
  match t with ToStage _ item _ _ _ => Some item | ToPost owner _ _ => Some (ws_name owner) | ToClose => None end.

Definition forward (i : nat) (t : PreparedTransition) : Prop :=
  match target_of t with
  | Some x => ∃ j st, stages w !! j = Some st ∧ ws_name st = x ∧ (j = i ∨ j = S i)
  | None => True
  end.

Lemma swap_forward i tr ov t : prepare_swap_to_index w (S i) tr ov = Ok t → forward i t.
Proof.
  unfold prepare_swap_to_index. destruct (stages w !! S i) as [st|] eqn:Hs.
  - intros [= <-]. exists (S i), st. split_and!; [done|done|by right].
  - destruct ov; [done|]. by intros [= <-].
Qed.

Lemma post_forward i here tr t : stages w !! i = Some here → prepare_post_dispatch here tr = Ok t → forward i t.
Proof.
  intros Hh. unfold prepare_post_dispatch. destruct (post_as_stage here) as [st|]; [|done]. intros [= <-]. exists i, here. split_and!; [done|done|by left].
Qed.

Lemma index_of_position n i : index_of n = Some i → resolve_stage_position w n = Some (AtStage i).
Proof. unfold index_of. destruct (resolve_stage_position w n) as [[]|]; congruence. Qed.

Lemma advance_forward d expected blocked ov tr t i :
  index_of (task_stage d) = Some i → advance_stage d expected blocked ov tr = Ok (Some t) → forward i t.
Proof.
  intros Hi%index_of_position. unfold Routing.advance_stage.
  assert (∀ x, prepare_advance_stage w d blocked ov tr = Ok x → forward i x) as Hp.
  { intros x. unfold prepare_advance_stage. destruct (closed d); [done|]. destruct blocked; [done|]. rewrite Hi.
    destruct (stages w !! i) as [here|] eqn:Hh; [|done]. destruct (post here) as [p|]; [|apply swap_forward].
    destruct (post_pending p d) as [[]|]; [|apply swap_forward|done]. destruct ov; [done|]. by apply post_forward. }
  case_bool_decide; [done|].
  assert (∀ x, (let? t := prepare_advance_stage w d blocked ov tr in Ok (Some t)) = Ok (Some x) → forward i x) as Hq.
  { intros x. destruct (prepare_advance_stage w d blocked ov tr) as [y|]; [|done]. cbn. intros [= <-]. by apply Hp. }
  destruct (latest_stage_run d) as [run|]; [|apply Hq]. case_bool_decide; [done|apply Hq].
Qed.

Lemma completion_forward d finished t i :
  index_of (task_stage d) = Some i → prepare_stage_completion w d finished = Ok (Some t) → forward i t.
Proof.
  intros Hi%index_of_position. unfold prepare_stage_completion. destruct (closed d); [done|]. rewrite Hi.
  destruct (stages w !! i) as [here|] eqn:Hh; [|done].
  assert (∀ tr x, (let? t := prepare_swap_to_index w (S i) tr false in Ok (Some t)) = Ok (Some x) → forward i x) as Hs.
  { intros tr x. destruct (prepare_swap_to_index w (S i) tr false) as [y|] eqn:Hy; [|done]. cbn. intros [= <-]. by eapply swap_forward. }
  case_bool_decide; [apply Hs|]. destruct (completion_transition_of _ _) as [[]|]; cbn; [done| |done].
  destruct (post here); [|destruct (stages w !! S i); [apply Hs|done]].
  destruct (prepare_post_dispatch here Auto) as [y|] eqn:Hy; [|done]. cbn. intros [= <-]. by eapply post_forward.
Qed.

(** A revision leads to the stage it names, or to the owner of the post it names. *)
Definition revision_index (target : str) : option nat :=
  match resolve_stage_position w target with Some (AtStage i) | Some (AtPost i) => Some i | None => None end.

Lemma revision_target d target prompt tr t f :
  prepare_revision_task w json_summary d target prompt tr = Ok (t, f) →
  ∃ j st, revision_index target = Some j ∧ stages w !! j = Some st ∧ target_of t = Some (ws_name st).
Proof.
  unfold prepare_revision_task, revision_index. destruct (closed d); [done|]. destruct (resolve_revision_feedback json_summary d prompt) as [g|]; [|done]. cbn.
  destruct (resolve_stage_position w target) as [[i|i]|]; [..|done]; destruct (stages w !! i) as [st|] eqn:Hs; try done.
  - intros [= <- <-]. by exists i, st.
  - destruct (post_as_stage st); [|done]. intros [= <- <-]. by exists i, st.
Qed.

(** ** Runs *)

Lemma stage_run_Some (d : Db) run r : stage_run d run = Some r → r ∈ runs d ∧ id r = run.
Proof. intros [Hr He]%find_some. split; [by apply list_elem_of_In|lia]. Qed.

Lemma action_run_in (d : Db) requested r : resolve_action_run d requested = Ok (Some r) → r ∈ runs d.
Proof.
  assert (∀ x, x ∈ running_stage_runs d → x ∈ runs d) as Hin by (intros x [_ Hx]%list_elem_of_filter; exact Hx).
  unfold resolve_action_run. destruct (running_stage_runs d) as [|x [|y l]] eqn:Hl.
  - intros [= Hr]. by apply last_Some_elem_of.
  - intros [= <-]. apply Hin. by left.
  - destruct (find_first _ (x :: y :: l)) as [z|] eqn:Hf; [|done]. intros [= <-]. apply Hin. by apply find_first_Some in Hf as [Hf _].
Qed.

Lemma run_is_found (d : Db) r : r ∈ runs d → is_Some (stage_run d (id r)).
Proof.
  intros Hr. destruct (stage_run d (id r)) eqn:Hf; [done|]. pose proof (find_none _ _ Hf r (proj1 (list_elem_of_In _ _) Hr)) as Hno. cbn in Hno. by rewrite Z.eqb_refl in Hno.
Qed.

(** ** What the handlers write *)

(** The rows change in runs that finish and in the activity alone. *)
Definition verdicts_only (d d' : Db) : Prop := task_stage d' = task_stage d ∧ intent d' = intent d ∧ only_finished (runs d) (runs d').

Lemma verdicts_refl d : verdicts_only d d.
Proof. split_and!; [done|done|apply only_finished_refl]. Qed.

Lemma finish_verdicts r s res fb d d' : s ≠ Running → finish_stage_run r s res fb d = Some d' → verdicts_only d d'.
Proof. intros Hs ->%finish_stage_run_Some. split_and!; [done|done|by apply only_finished_update]. Qed.

Lemma finish_completed_Some k run s res summary d a d' a' :
  finish_completed k run s res summary d a = Some (d', a') → finish_stage_run run s (Some res) (Some summary) d = Some d' ∧ note_attempt k run res d' a = Some a'.
Proof.
  unfold finish_completed. destruct (finish_stage_run run s (Some res) (Some summary) d) as [d1|]; [|done]. cbn.
  destruct (note_attempt k run res d1 a) as [a1|] eqn:Hn; [|done]. cbn. by intros [= <- <-].
Qed.

(** What recording a verdict comes to. *)
Lemma record_completion_cases d a q c :
  record_completion d a q = Ok c →
  match c with
  | AlreadyClosed => True
  | Replayed a' => a' = a ∨ ∃ run, note_attempt (contextless_key q) run (stage_result q) d a = Some a' ∧ is_Some (stage_run d run)
  | Recorded d' a' f => finish_completed (contextless_key q) (id f) (verdict q) (stage_result q) (cr_summary q) d a = Some (d', a')
  end.
Proof.
  unfold record_completion. destruct (_ ≫= _) as [[r0 res0]|]; [case_bool_decide; [|done]; intros [= <-]; by left|].
  destruct (closed d); [by intros [= <-]|]. destruct (resolve_action_run d (run_id q)) as [[cur|]|] eqn:Hr; cbn; [|done..]. set (run := match completion_attempt_key q with Some _ => _ | None => _ end).
  assert (∀ x, is_Some (stage_run d run) → replayed q run d a = Ok x → match x with AlreadyClosed => True | Replayed a' => a' = a ∨ ∃ run, note_attempt (contextless_key q) run (stage_result q) d a = Some a' ∧ is_Some (stage_run d run) | Recorded d' a' f => finish_completed (contextless_key q) (id f) (verdict q) (stage_result q) (cr_summary q) d a = Some (d', a') end) as Hrep.
  { intros x Hi. unfold replayed. destruct (note_attempt _ run _ d a) as [a'|] eqn:Hn; [|done]. intros [= <-]. right. by exists run. }
  destruct (Z.eqb_spec (id cur) run) as [He|He]; cbn [negb].
  - case_bool_decide.
    + apply Hrep. apply action_run_in in Hr. rewrite <- He. apply run_is_found. exact Hr.
    + case_bool_decide; [|done]. destruct (finish_completed _ run _ _ _ d a) as [[d' a']|] eqn:Hf; [|done]. intros [= <-]. by rewrite He.
  - destruct (stage_run d run) as [prior|] eqn:Hp; [|done]. case_bool_decide; [|done]. by apply Hrep.
Qed.

Lemma complete_verdicts d a q : verdicts_only d (complete_stage d a q).1.1.
Proof.
  unfold Routing.complete_stage. destruct (record_completion d a q) as [c|] eqn:Hc; [|apply verdicts_refl]. apply record_completion_cases in Hc.
  destruct c as [|a'|d' a' f]; [apply verdicts_refl..|]. apply finish_completed_Some in Hc as [Hc _]. eapply finish_verdicts; [|exact Hc]. unfold verdict. by destruct (success q).
Qed.

Lemma verdict_verdicts run res fb d d' : finish_verdict run res fb d = Some d' → verdicts_only d d'.
Proof. unfold finish_verdict. destruct run; [by apply finish_verdicts|]. intros [= <-]. apply verdicts_refl. Qed.

Lemma verdicts_event d d' e : verdicts_only d d' → verdicts_only d (append_task_event e d').
Proof. done. Qed.

Lemma revision_verdicts d rounds agent target prompt summary run tr : verdicts_only d (request_revision d rounds agent target prompt summary run tr).1.1.
Proof.
  unfold Routing.request_revision. destruct (agent && blank prompt); [apply verdicts_refl|]. destruct (validate_revision_run_binding d run agent) as [r|]; [|apply verdicts_refl].
  destruct (agent && _ && _).
  - destruct (finish_verdict r _ prompt d) as [d'|] eqn:Hf; [|apply verdicts_refl]. destruct (verdict_verdicts _ _ _ _ _ Hf) as (H1 & H2 & H3).
    cbn [fst]. apply verdicts_event. unfold verdicts_only. by autorewrite with stage_db.
  - destruct (prepare_revision_task _ _ d _ _ tr) as [x|]; [|apply verdicts_refl]. destruct (if agent then _ else _); [|apply verdicts_refl].
    destruct (finish_verdict r _ summary d) as [d'|] eqn:Hf; [|apply verdicts_refl]. apply verdicts_event. by eapply verdict_verdicts.
Qed.

(** What a revision that starts has spent, and where it leads. *)
Lemma revision_started d rounds agent target prompt summary run tr d' rounds' t f :
  request_revision d rounds agent target prompt summary run tr = (d', rounds', Ok (Some (t, f))) →
  (if agent then rounds' = rounds + 1 ∧ (0 < effective_revision_limit w → rounds < effective_revision_limit w) else rounds' = 0)
  ∧ ∃ j st, revision_index target = Some j ∧ stages w !! j = Some st ∧ target_of t = Some (ws_name st).
Proof.
  unfold Routing.request_revision. destruct (agent && blank prompt); [done|]. destruct (validate_revision_run_binding d run agent) as [r|]; [|done].
  destruct (agent && _ && _) eqn:Hb; [by destruct (finish_verdict r _ prompt d)|].
  destruct (prepare_revision_task _ _ d _ _ tr) as [[t' f']|] eqn:Hp; [|done].
  destruct (if agent then _ else _) as [n|] eqn:Hn; [|done]. destruct (finish_verdict r _ summary d); [|done]. intros [= <- <- <- <-]. split; [|by eapply revision_target].
  destruct agent; [|congruence]. unfold claim_agent_revision_round in Hn. destruct (Z.ltb_spec 0 (effective_revision_limit w)), (Z.leb_spec (effective_revision_limit w) rounds); cbn in *; try done;
    injection Hn as <-; split; (done || lia).
Qed.

Lemma revision_not_started d rounds agent target prompt summary run tr d' rounds' r :
  request_revision d rounds agent target prompt summary run tr = (d', rounds', r) → (∀ x, r ≠ Ok (Some x)) → rounds' = rounds.
Proof.
  unfold Routing.request_revision. destruct (agent && blank prompt); [by intros [= _ <- _]|]. destruct (validate_revision_run_binding d run agent); [|by intros [= _ <- _]].
  destruct (agent && _ && _); [destruct (finish_verdict _ _ prompt d); by intros [= _ <- _]|].
  destruct (prepare_revision_task _ _ d _ _ tr) as [x|]; [|by intros [= _ <- _]].
  destruct (if agent then _ else _); [destruct (finish_verdict _ _ summary d)|]; intros [= _ <- <-] Hr; [by destruct (Hr x)|done|done].
Qed.

(** ** A request is a step of the machine of moves *)

Lemma with_db_inv s0 s d : process s = None → verdicts_only (db (world s)) d → SysInv s0 s → SysInv s0 (with_db d s).
Proof.
  destruct s as [v o k]. cbn [process world]. intros -> (H1 & H2 & H3) [HW HL HR HX]. unfold with_db. cbn [process world clock]. split.
  - by eapply (work_frame v).
  - eapply land_same; [exact HL|done|exact H1|done|by left|by left].
  - destruct HR as [HC HP _]. cbn [world process clock] in *. split; cbn; [|intros i q; cbn; rewrite H2; apply HP|done].
    eapply core_same; [exact HC|exact H3|done|done|done|exact H2].
  - by eapply (cross_frame v None k).
Qed.

Lemma with_db_moves s d : process s = None → verdicts_only (db (world s)) d → moves_of (with_db d s) = moves_of s.
Proof. destruct s as [v o k]. cbn. intros -> (H1 & H2 & _). unfold moves_of, open_target. cbn. by rewrite H1, H2. Qed.

Lemma start_moves s0 s t e :
  SysInv s0 s → process s = None → intent (db (world s)) = None →
  let s' := start t e s in
  SysInv s0 s' ∧ nothing_before s'
  ∧ (moves_of s' = moves_of s
     ∨ ∃ tt fb x, t = Some (tt, fb) ∧ target_of tt = Some x ∧ pending (moves_of s) = None ∧ moves_of s' = mkMoves (at_stage (moves_of s)) (Some x) (made (moves_of s))).
Proof.
  intros HI Hp Hi s'. assert (nothing_before s) as Hn by (unfold nothing_before; by rewrite Hp).
  assert (SysInv s0 (step s TaskCloses) ∧ nothing_before (step s TaskCloses) ∧ moves_of (step s TaskCloses) = moves_of s) as (C1 & C2 & C3).
  { split_and!; [by apply step_inv|unfold nothing_before; cbn; by rewrite Hp|unfold moves_of; cbn; by rewrite Hp]. }
  assert (∀ ev x, asks ev = true → (match ev with BeginStage p => next_stage p = x | BeginPost p => next_stage (fallback p) = x | _ => True end) →
            SysInv s0 (step s ev) ∧ nothing_before (step s ev)
            ∧ (moves_of (step s ev) = moves_of s ∨ pending (moves_of s) = None ∧ moves_of (step s ev) = mkMoves (at_stage (moves_of s)) (Some x) (made (moves_of s)))) as Hask.
  { intros ev x Ha Hx. assert (guarded ev) as Hg by by destruct ev. split; [by apply step_inv|].
    destruct (ask_step s ev Ha ltac:(unfold asked_when_settled; by destruct ev) Hn) as [[->|(y & H1 & H2 & H3)] H4]; [by split; [|left]|]. split; [done|right].
    rewrite H1, H2. cbn. split; [done|]. destruct ev; try done; congruence. }
  subst s'. unfold start. destruct t as [[t fb]|]; [|by split_and!; try left].
  destruct t as [st item k ct tr|owner ps tr|]; [destruct e as [e|]; [|by split_and!; try left]..|split_and!; [done|done|by left]];
    [destruct (Hask (execute_stage_transition (ToStage st item k ct tr) fb e) item eq_refl eq_refl) as (H1 & H2 & [H3|[H3 H4]])
    |destruct (Hask (execute_stage_transition (ToPost owner ps tr) fb e) (ws_name owner) eq_refl eq_refl) as (H1 & H2 & [H3|[H3 H4]])];
    (split; [exact H1|split; [exact H2|]]); [by left|right|by left|right]; by eexists _, _, _.
Qed.

Definition moves (s : Routed) : Moves := moves_of (engine s).

(** A request is made with nothing open; what the engine does by itself asks for
    nothing. *)
Definition in_turn (s : Routed) (e : RoutedEvent) : Prop :=
  match e with
  | Engine e => guarded e ∧ asks e = false
  | _ => process (engine s) = None → intent (db (world (engine s))) = None
  end.

Definition spends (agent : bool) (rounds rounds' : Z) : Prop :=
  if agent then rounds' = rounds + 1 ∧ (0 < effective_revision_limit w → rounds < effective_revision_limit w) else rounds' = 0.

Definition heads_for (m m' : Moves) (x : str) : Prop := pending m = None ∧ m' = mkMoves (at_stage m) (Some x) (made m).

Inductive routed_outcome (s s' : Routed) (i : nat) (e : RoutedEvent) : Prop :=
  | OSettled : settle (moves s) (moves s') → revision_rounds s' = revision_rounds s → routed_outcome s s' i e
  | OForward j st : stages w !! j = Some st → j = i ∨ j = S i → heads_for (moves s) (moves s') (ws_name st) →
      revision_rounds s' = revision_rounds s → routed_outcome s s' i e
  | ORevised agent target prompt summary run tr pe : e = Revise agent target prompt summary run tr pe →
      spends agent (revision_rounds s) (revision_rounds s') →
      (moves s' = moves s ∨ ∃ j st, revision_index target = Some j ∧ stages w !! j = Some st ∧ heads_for (moves s) (moves s') (ws_name st)) →
      routed_outcome s s' i e.

Lemma settle_eq m m' : m' = m → settle m m'.
Proof. intros ->. constructor. Qed.

(** Of the decisions to move, those of an advance or a completion go forward. *)
Lemma decided_outcome s0 s s1 r e i (rounds : Z) a ev :
  SysInv s0 s1 → process s1 = None → intent (db (world s1)) = None → moves_of s1 = moves s → revision_rounds s = rounds →
  (∀ t, r = Ok (Some t) → forward i t) →
  let s' := mkRouted (start (decided r) e s1) rounds a in
  SysInv s0 (engine s') ∧ nothing_before (engine s') ∧ routed_outcome s s' i ev.
Proof.
  intros HI Hp Hi Hm Hr Hf s'. destruct (start_moves s0 s1 (decided r) e HI Hp Hi) as (H1 & H2 & H3). split_and!; [done|done|].
  destruct H3 as [H3|(t & fb & x & Ht & Hx & Hpe & H3)].
  - apply OSettled; [apply settle_eq; unfold moves, s'; cbn; by rewrite H3|by cbn].
  - assert (r = Ok (Some t)) as Hrt by (destruct r as [[y|]|]; try done; cbn in Ht; congruence).
    specialize (Hf t Hrt). unfold forward in Hf. rewrite Hx in Hf. destruct Hf as (j & st & Hj & <- & Hji).
    eapply OForward; [exact Hj|exact Hji| |by cbn]. rewrite Hm in Hpe, H3. by split.
Qed.

Lemma engine_outcome s0 s e i :
  SysInv s0 (engine s) → nothing_before (engine s) → in_turn s (Engine e) →
  let s' := routed_step s (Engine e) in SysInv s0 (engine s') ∧ nothing_before (engine s') ∧ routed_outcome s s' i (Engine e).
Proof.
  intros HI Hn [Hg Ha] s'. destruct (settle_step s0 (engine s) e Hg Ha (sys_work _ _ HI) (sys_land _ _ HI) Hn) as [H1 H2].
  split_and!; [by apply step_inv|exact H2|exact (OSettled s s' i (Engine e) H1 eq_refl)].
Qed.

Lemma routed_step_outcome s0 s e i :
  SysInv s0 (engine s) → nothing_before (engine s) → in_turn s e → index_of (at_stage (moves s)) = Some i →
  let s' := routed_step s e in SysInv s0 (engine s') ∧ nothing_before (engine s') ∧ routed_outcome s s' i e.
Proof.
  intros HI Hn Ht Hi s'. destruct e as [ex bl ov tr e|q e|agent target prompt summary run tr e|e]; [..|by apply engine_outcome];
    subst s'; cbn [Routing.routed_step]; cbn in Ht;
    (destruct (process (engine s)) as [o|] eqn:Hp; [split_and!; [done|done|apply OSettled; [constructor|done]]|]); specialize (Ht eq_refl).
  - eapply decided_outcome; try done. intros t Hd. eapply advance_forward; [exact Hi|exact Hd].
  - pose proof (complete_verdicts (db (world (engine s))) (attempts s) q) as Hv.
    destruct (complete_stage (db (world (engine s))) (attempts s) q) as [[d a] r] eqn:Hc. cbn [fst] in Hv.
    eapply (decided_outcome s0 s (with_db d (engine s)) r e i _ a); [by apply with_db_inv|exact Hp|exact (eq_trans (proj1 (proj2 Hv)) Ht)|by apply with_db_moves|done|].
    intros t ->. unfold Routing.complete_stage in Hc. destruct (record_completion _ (attempts s) q) as [[| |d1 a1 f]|]; try done.
    injection Hc as <- <- Hf. destruct (success q); [|done]. eapply completion_forward; [|exact Hf]. destruct Hv as (-> & _). exact Hi.
  - pose proof (revision_verdicts (db (world (engine s))) (revision_rounds s) agent target prompt summary run tr) as Hv.
    destruct (request_revision (db (world (engine s))) (revision_rounds s) agent target prompt summary run tr) as [[d rounds] r] eqn:Hr. cbn [fst] in Hv.
    assert ((∀ x, r ≠ Ok (Some x)) → SysInv s0 (with_db d (engine s)) ∧ nothing_before (with_db d (engine s))
              ∧ routed_outcome s (mkRouted (with_db d (engine s)) rounds (attempts s)) i (Revise agent target prompt summary run tr e)) as Hno.
    { intros Hx. split_and!; [by apply with_db_inv|unfold nothing_before; cbn; by rewrite Hp|]. apply OSettled; [apply settle_eq; by apply with_db_moves|].
      cbn. by eapply revision_not_started. }
    destruct r as [[[t f]|]|]; [|by apply Hno..]. destruct e as [e|]; [|split_and!; [done|done|apply OSettled; [constructor|done]]].
    destruct (revision_started _ _ _ _ _ _ _ _ _ _ _ _ Hr) as (Hsp & j & st & Hj & Hst & Hx).
    destruct (start_moves s0 (with_db d (engine s)) (Some (t, Some f)) (Some e)) as (H1 & H2 & H3);
      [by apply with_db_inv|exact Hp|exact (eq_trans (proj1 (proj2 Hv)) Ht)|]. split_and!; [done|done|].
    eapply ORevised; [done|exact Hsp|]. unfold moves. rewrite <- (with_db_moves (engine s) d Hp Hv). cbn [engine].
    destruct H3 as [H3|(t' & fb & x & [= <- <-] & Hx' & Hpe & H3)]; [by left|right]. exists j, st. split_and!; [done|done|]. assert (x = ws_name st) as -> by congruence. by split.
Qed.

(** ** Histories *)

Fixpoint along (P : Routed → RoutedEvent → Prop) (s : Routed) (es : list RoutedEvent) : Prop :=
  match es with [] => True | e :: es => P s e ∧ along P (routed_step s e) es end.

(** A revision goes back, or stays. *)
Definition looks_back (s : Routed) (e : RoutedEvent) : Prop :=
  match e with
  | Revise _ target _ _ _ _ _ => ∀ j, revision_index target = Some j → ∃ i, index_of (at_stage (moves s)) = Some i ∧ (j ≤ i)%nat
  | _ => True
  end.

Definition by_an_agent (e : RoutedEvent) : Prop := match e with Revise agent _ _ _ _ _ _ => agent = true | _ => True end.

(** How often the stage changed, the last move first. *)
Fixpoint changes (s0 : str) (l : list str) : nat :=
  match l with [] => 0 | t :: l => changes s0 l + (if bool_decide (t = default s0 (head l)) then 0 else 1) end.

Section Named.
Context (own_names : NoDup (map ws_name (stages w))) (i0 : nat) (st0 : WorkflowStage) (starts : stages w !! i0 = Some st0).
Let s0 : str := ws_name st0.

Lemma index_named j st : stages w !! j = Some st → index_of (ws_name st) = Some j.
Proof. intros Hj. unfold index_of. by rewrite (resolve_named w j st own_names Hj). Qed.

Lemma index_name x i : index_of x = Some i → ∃ st, stages w !! i = Some st ∧ ws_name st = x.
Proof. intros Hx%index_of_position. by apply resolve_stage_spec in Hx as [? _]. Qed.

Lemma index_inj x y i : index_of x = Some i → index_of y = Some i → x = y.
Proof. intros (s & Hs & <-)%index_name (t & Ht & <-)%index_name. congruence. Qed.

Lemma index_lt x i : index_of x = Some i → (i < length (stages w))%nat.
Proof. intros (s & Hs & _)%index_name. by eapply lookup_lt_Some. Qed.

(** ** In order *)

Definition visited (m : Moves) (x : str) : Prop := x ∈ s0 :: made m.

Definition behind_visited (m : Moves) (x : str) : Prop :=
  ∃ j, index_of x = Some j ∧ ∀ k st, (i0 ≤ k < j)%nat → stages w !! k = Some st → visited m (ws_name st).

Record InOrder (m : Moves) : Prop := mkInOrder {
  io_here : visited m (at_stage m);
  io_behind x : visited m x ∨ pending m = Some x → behind_visited m x
}.

Lemma behind_more m m' x : (∀ y, visited m y → visited m' y) → behind_visited m x → behind_visited m' x.
Proof. intros Hv (j & Hj & Hb). exists j. split; [done|]. intros k st Hk Hs. by eapply Hv, Hb. Qed.

Lemma settle_in_order m m' : settle m m' → InOrder m → InOrder m'.
Proof.
  intros Hs [H1 H2]. destruct Hs as [m|s t l|s t l]; [done|split; [done|]; intros x [Hx|Hx]; [by apply H2; left|done]|].
  assert (∀ y, visited (mkMoves s (Some t) l) y → visited (mkMoves t None (t :: l)) y) as Hv by (unfold visited; cbn; set_solver).
  split; [unfold visited; cbn; set_solver|]. intros x [Hx|Hx]; [|done]. eapply behind_more; [exact Hv|].
  unfold visited in Hx. cbn in Hx. apply H2. unfold visited. cbn. set_solver.
Qed.

Lemma heads_in_order m m' i j st :
  InOrder m → heads_for m m' (ws_name st) → index_of (at_stage m) = Some i → stages w !! j = Some st → (j ≤ S i)%nat → InOrder m'.
Proof.
  intros [H1 H2] [Hp ->] Hi Hj Hle. split; [done|]. intros x [Hx|[= <-]].
  - destruct (H2 x (or_introl Hx)) as (k & Hk & Hb). by exists k.
  - exists j. split; [by apply index_named|]. intros k s Hk Hs. change (visited m (ws_name s)). destruct (H2 (at_stage m) (or_introl H1)) as (i' & Hi' & Hb).
    assert (i' = i) as -> by congruence. destruct (decide (k = i)) as [->|]; [|apply (Hb k); [lia|done]].
    destruct (index_name _ _ Hi) as (s' & Hs' & He). assert (s' = s) as <- by congruence. by rewrite He.
Qed.

Record OrderInv (s : Routed) : Prop := mkOrderInv { ov_sys : SysInv s0 (engine s); ov_none : nothing_before (engine s); ov_order : InOrder (moves s) }.

Lemma step_order s e : in_turn s e → looks_back s e → OrderInv s → OrderInv (routed_step s e).
Proof.
  intros Ht Hl [HI Hn HO]. destruct (io_behind _ HO (at_stage (moves s)) (or_introl (io_here _ HO))) as (i & Hi & _).
  destruct (routed_step_outcome s0 s e i HI Hn Ht Hi) as (H1 & H2 & H3). split; [done|done|]. destruct H3 as [Hs _|j st Hj Hji Hh _|agent target prompt summary run tr pe -> _ Hm].
  - by eapply settle_in_order.
  - eapply heads_in_order; [exact HO|exact Hh|exact Hi|exact Hj|lia].
  - destruct Hm as [Hm|(j & st & Hr & Hj & Hh)]; [by rewrite Hm|]. destruct (Hl j Hr) as (i' & Hi' & Hle). assert (i' = i) as -> by congruence.
    eapply heads_in_order; [exact HO|exact Hh|exact Hi|exact Hj|lia].
Qed.

Lemma initial_in_order b l : OrderInv (mkRouted (initial s0 b l) 0 ∅).
Proof.
  split; [apply initial_inv|done|]. split; [by left|]. intros x [Hx|Hx]; [|done]. unfold visited in Hx. cbn in Hx. apply list_elem_of_singleton in Hx as ->.
  exists i0. split; [by apply index_named|lia].
Qed.

Lemma run_order s es : along in_turn s es → along looks_back s es → OrderInv s → OrderInv (routed_run s es).
Proof.
  revert s. induction es as [|e es IH]; intros s Ht Hl HO; [done|]. destruct Ht as [Ht Hts], Hl as [Hl Hls].
  cbn [Routing.routed_run foldl]. apply IH; [done|done|by apply step_order].
Qed.

(** ** To an end *)

Definition needs (i : nat) (p : option str) : nat :=
  match p with Some t => match index_of t with Some j => if decide (j = i) then 0 else S i - j | None => 0 end | None => 0 end.

Record WithinBudget (rounds : nat) (m : Moves) : Prop := mkWithin {
  wb_here : at_stage m = default s0 (head (made m));
  wb_spent : ∃ i, index_of (at_stage m) = Some i ∧ (changes s0 (made m) + needs i (pending m) ≤ length (stages w) * rounds + i)%nat;
  wb_pending t : pending m = Some t → is_Some (index_of t)
}.

Lemma settle_budget r m m' : settle m m' → WithinBudget r m → WithinBudget r m'.
Proof.
  intros Hs [H1 (i & Hi & Hc) H3]. destruct Hs as [m|s t l|s t l]; [split; [done|by exists i|done]|split; [done|exists i; cbn in *; split; [done|lia]|done]|].
  cbn in *. destruct (H3 t eq_refl) as [j Hj]. rewrite Hj in Hc. split; cbn; [done| |done]. exists j. split; [done|].
  destruct (decide (j = i)) as [->|Hne].
  - rewrite bool_decide_true by (rewrite <- H1; by eapply index_inj). lia.
  - case_bool_decide; lia.
Qed.

Lemma heads_budget r r' m m' i j st :
  WithinBudget r m → heads_for m m' (ws_name st) → index_of (at_stage m) = Some i → stages w !! j = Some st →
  (r' = r ∧ (j = i ∨ j = S i) ∨ r' = S r) → WithinBudget r' m'.
Proof.
  intros [H1 (i' & Hi' & Hc) H3] [Hp ->] Hi Hj Hr. assert (i' = i) as -> by congruence. pose proof (index_lt _ _ Hi) as Hlt. rewrite Hp in Hc.
  split; cbn [at_stage made pending]; [done| |intros t [= <-]; by exists j; apply index_named]. exists i. split; [done|]. unfold needs. rewrite (index_named j st Hj). cbn in Hc.
  destruct (decide (j = i)); destruct Hr as [[-> Hr]| ->]; nia.
Qed.

Lemma more_budget r m : WithinBudget r m → WithinBudget (S r) m.
Proof. intros [H1 (i & Hi & Hc) H3]. split; [done| |done]. exists i. split; [done|nia]. Qed.

Record BudgetInv (s : Routed) : Prop := mkBudgetInv {
  bv_sys : SysInv s0 (engine s);
  bv_none : nothing_before (engine s);
  bv_rounds : 0 ≤ revision_rounds s ≤ effective_revision_limit w;
  bv_budget : WithinBudget (Z.to_nat (revision_rounds s)) (moves s)
}.

Lemma step_budget s e : 0 < effective_revision_limit w → in_turn s e → by_an_agent e → BudgetInv s → BudgetInv (routed_step s e).
Proof.
  intros Hlim Ht Ha [HI Hn Hr HB]. destruct (wb_spent _ _ HB) as (i & Hi & _).
  destruct (routed_step_outcome s0 s e i HI Hn Ht Hi) as (H1 & H2 & H3). destruct H3 as [Hs He|j st Hj Hji Hh He|agent target prompt summary run tr pe -> Hsp Hm].
  - split; [done|done|by rewrite He|rewrite He; by eapply settle_budget].
  - split; [done|done|by rewrite He|rewrite He]. eapply heads_budget; [exact HB|exact Hh|exact Hi|exact Hj|by left].
  - cbn in Ha. subst agent. destruct Hsp as [He Hlt]. specialize (Hlt Hlim). split; [done|done|lia|].
    assert (Z.to_nat (revision_rounds (routed_step s (Revise true target prompt summary run tr pe))) = S (Z.to_nat (revision_rounds s))) as -> by (rewrite He; lia).
    destruct Hm as [Hm|(j & st & _ & Hj & Hh)]; [rewrite Hm; by apply more_budget|]. eapply heads_budget; [exact HB|exact Hh|exact Hi|exact Hj|by right].
Qed.

Lemma initial_budget b l : 0 < effective_revision_limit w → BudgetInv (mkRouted (initial s0 b l) 0 ∅).
Proof.
  intros Hlim. split; [apply initial_inv|done|cbn; lia|]. split; [done| |done]. exists i0. split; [by apply index_named|cbn; lia].
Qed.

Lemma run_budget s es : 0 < effective_revision_limit w → along in_turn s es → Forall by_an_agent es → BudgetInv s → BudgetInv (routed_run s es).
Proof.
  intros Hlim Ht HF. revert s Ht. induction HF as [|e es Ha _ IH]; intros s Ht HB; [done|]. destruct Ht as [Ht Hts].
  cbn [Routing.routed_run foldl]. apply IH; [done|by apply step_budget].
Qed.

End Named.

(** C14: in a workflow whose stages have distinct names, over any history of advances,
    verdicts, revisions, failures, ends of the server and reconciliations in which
    every request is made with no operation open and every revision names a stage the
    task is in or has behind it, a task reaches a stage of its workflow only after
    every stage between it and the one the task began in. *)
Theorem stages_are_taken_in_order i0 st0 b l es :
  NoDup (map ws_name (stages w)) → stages w !! i0 = Some st0 →
  let s := mkRouted (initial (ws_name st0) b l) 0 ∅ in
  along in_turn s es → along looks_back s es →
  let reached := ws_name st0 :: map snd (landed (world (engine (routed_run s es)))) in
  ∀ x, x ∈ reached → ∃ j, index_of x = Some j ∧ ∀ k st, (i0 ≤ k < j)%nat → stages w !! k = Some st → ws_name st ∈ reached.
Proof.
  intros Hnd Hst s Ht Hl reached x Hx. assert (OrderInv i0 st0 (routed_run s es)) as HO by (eapply run_order; try done; by apply initial_in_order).
  exact (io_behind _ _ _ (ov_order _ _ _ HO) x (or_introl Hx)).
Qed.

(** C15: in a workflow whose stages have distinct names and whose revision limit is a
    cap - a limit of 0 is none - over any history of advances, verdicts, revisions,
    failures, ends of the server and reconciliations in which every request is made
    with no operation open and no person asks for a revision, the stage of the task
    changes fewer times than the workflow has stages, times one more than its revision
    limit: agents that keep sending work back come to rest. *)
Theorem agents_come_to_rest i0 st0 b l es :
  NoDup (map ws_name (stages w)) → stages w !! i0 = Some st0 → 0 < effective_revision_limit w →
  let s := mkRouted (initial (ws_name st0) b l) 0 ∅ in
  along in_turn s es → Forall by_an_agent es →
  Z.of_nat (changes (ws_name st0) (map snd (landed (world (engine (routed_run s es)))))) < Z.of_nat (length (stages w)) * (effective_revision_limit w + 1).
Proof.
  intros Hnd Hst Hlim s Ht HF. assert (BudgetInv st0 (routed_run s es)) as [_ _ Hr HB] by (eapply run_budget; try done; by eapply initial_budget).
  destruct (wb_spent _ _ _ HB) as (i & Hi & Hc). apply index_lt in Hi. unfold moves, moves_of in Hc. cbn [made] in Hc.
  assert (changes (ws_name st0) (map snd (landed (world (engine (routed_run s es))))) ≤ length (stages w) * Z.to_nat (revision_rounds (routed_run s es)) + i)%nat as Hc' by lia.
  apply Nat2Z.inj_le in Hc'. nia.
Qed.

(** ** Verdicts *)

(** The run's row holds this verdict. *)
Definition holds_verdict (d : Db) (run : Z) (s : RunStatus) (res : str) : Prop :=
  is_Some (stage_run d run) ∧ ∀ r, r ∈ runs d → id r = run → status r = s ∧ StageRuns.result r = Some res.

Lemma finish_holds run s res fb (d d' : Db) : finish_stage_run run s (Some res) fb d = Some d' → holds_verdict d' run s res.
Proof.
  intros Hf. assert (is_Some (stage_run d run)) as [r Hr] by (unfold finish_stage_run in Hf; destruct (stage_run d run); done).
  apply finish_stage_run_Some in Hf as ->. split.
  - apply stage_run_Some in Hr as [Hr He]. unfold stage_run. cbn. destruct (find _ (update_run _ _ _)) eqn:Hfi; [done|exfalso].
    pose proof (find_none _ _ Hfi (with_outcome s (Some res) fb r)) as Hno. cbn in Hno. rewrite He, Z.eqb_refl in Hno. discriminate Hno.
    apply list_elem_of_In, list_elem_of_fmap. exists r. split; [|done]. by rewrite He, Z.eqb_refl.
  - intros r' (x & -> & Hx)%list_elem_of_fmap. cbn. destruct (Z.eqb_spec (id x) run); [done|by intros].
Qed.

(** A verdict on a run, once recorded, is in the run's row, and while it is there
    the same verdict on that run writes nothing and moves the task nowhere, whichever
    runs have started since. *)
Theorem verdict_is_recorded_once d a q d' a' f :
  record_completion d a q = Ok (Recorded d' a' f) →
  holds_verdict d' (id f) (verdict q) (stage_result q)
  ∧ ∀ d1 a1 key summary, holds_verdict d1 (id f) (verdict q) (stage_result q) →
      let again := complete_stage d1 a1 (mkComplete (Some (id f)) key None (success q) (stage_result q) summary) in
      again.1 = (d1, a1) ∧ ∀ t, again.2 ≠ Ok (Some t).
Proof.
  intros [Hf _]%record_completion_cases%finish_completed_Some. split; [by eapply finish_holds|].
  intros d1 a1 key summary [[r Hr] Hv]. unfold Routing.complete_stage, record_completion. cbn. destruct (closed d1); [done|].
  destruct (resolve_action_run d1 (Some (id f))) as [[c|]|] eqn:Ha; cbn; [|done..].
  replace (match key with Some _ => id f | None => id f end) with (id f) by by destruct key.
  destruct (Z.eqb_spec (id c) (id f)) as [He|He]; cbn [negb].
  - rewrite bool_decide_true; [done|]. apply Hv; [|done]. by eapply action_run_in.
  - rewrite Hr, bool_decide_true; [done|]. apply stage_run_Some in Hr as [Hin Hid]. by apply Hv.
Qed.

(** ** Attempts *)

Lemma note_attempt_key k run res d a a' :
  note_attempt (Some k) run res d a = Some a' → is_Some (stage_run d run) → a !! k = None ∧ a' = <[k := (run, res)]> a.
Proof. cbn. unfold record_contextless_completion_attempt. intros Hn [r Hr]. rewrite Hr in Hn. destruct (a !! k); [done|]. by injection Hn as <-. Qed.

Lemma note_attempt_keeps k run res d a a' key x : note_attempt k run res d a = Some a' → a !! key = Some x → a' !! key = Some x.
Proof.
  destruct k as [k|]; [|by intros [= <-]]. destruct (stage_run d run) as [r|] eqn:Hr; [|cbn; unfold record_contextless_completion_attempt; rewrite Hr; by intros [= <-]].
  intros [Hk ->]%note_attempt_key ?; [|done]. rewrite lookup_insert_ne; [done|]. by intros ->; congruence.
Qed.

Lemma with_same_db s : with_db (db (world s)) s = s.
Proof. by destruct s as [[]]. Qed.

Lemma step_idle s q e d a r :
  process (engine s) = None → complete_stage (db (world (engine s))) (attempts s) q = (d, a, r) →
  routed_step s (Complete q e) = mkRouted (start (decided r) e (with_db d (engine s))) (revision_rounds s) a.
Proof. intros Hp Hc. cbn. rewrite Hp. by rewrite Hc. Qed.

Lemma attempt_changes q e key s :
  contextless_key q = Some key → routed_step s (Complete q e) = s ∨ attempts s !! key = None ∧ is_Some (attempts (routed_step s (Complete q e)) !! key).
Proof.
  intros Hk. destruct (process (engine s)) as [o|] eqn:Hp; [left; cbn; by rewrite Hp|].
  assert (∀ r, decided r = None → mkRouted (start (decided r) e (with_db (db (world (engine s))) (engine s))) (revision_rounds s) (attempts s) = s) as Hs.
  { intros r ->. cbn. rewrite with_same_db. by destruct s. }
  destruct (complete_stage (db (world (engine s))) (attempts s) q) as [[d a] r] eqn:Hc. rewrite (step_idle s q e _ _ _ Hp Hc).
  unfold Routing.complete_stage in Hc. destruct (record_completion _ (attempts s) q) as [c|] eqn:Hr; [|injection Hc as <- <- <-; left; by apply Hs].
  apply record_completion_cases in Hr. rewrite Hk in Hr. destruct c as [|a'|d' a' f].
  - injection Hc as <- <- <-. left. by apply Hs.
  - injection Hc as <- <- <-. destruct Hr as [->|(run & Hn & Hi)]; [left; by apply Hs|right].
    apply note_attempt_key in Hn as [Hno ->]; [|done]. split; [done|]. cbn. by rewrite lookup_insert_eq.
  - injection Hc as <- <- _. right. apply finish_completed_Some in Hr as [Hf Hn]. apply finish_holds in Hf as [Hi _].
    apply note_attempt_key in Hn as [Hno ->]; [|done]. split; [done|]. cbn. by rewrite lookup_insert_eq.
Qed.

Lemma attempts_kept s e key x : attempts s !! key = Some x → attempts (routed_step s e) !! key = Some x.
Proof.
  intros Hx. destruct e as [ex bl ov tr e|q e|agent target prompt summary run tr e|e]; cbn [Routing.routed_step]; try (destruct (process (engine s)); [done|]); try done.
  - destruct (complete_stage _ (attempts s) q) as [[d a] r] eqn:Hc. cbn. unfold Routing.complete_stage in Hc.
    destruct (record_completion _ (attempts s) q) as [c|] eqn:Hr; [|by injection Hc as _ <- _]. apply record_completion_cases in Hr. destruct c as [|a'|d' a' f].
    + by injection Hc as _ <- _.
    + injection Hc as _ <- _. destruct Hr as [->|(run & Hn & _)]; [done|]. by eapply note_attempt_keeps.
    + injection Hc as _ <- _. apply finish_completed_Some in Hr as [_ Hn]. by eapply note_attempt_keeps.
  - destruct (request_revision _ _ _ _ _ _ _ _) as [[d rounds] [[[t f]|]|]]; [|done..]. by destruct e.
Qed.

Lemma attempts_kept_along s es key x : attempts s !! key = Some x → attempts (routed_run s es) !! key = Some x.
Proof. revert s. induction es as [|e es IH]; intros s Hx; [done|]. apply IH. by apply attempts_kept. Qed.

(** C16: of the requests that carry one attempt's key and name no run, one at most
    changes anything: once one has, another finds its key, whatever has happened to the
    task in between and whatever verdict it carries. *)
Theorem attempt_takes_effect_once key q1 e1 q2 e2 s es :
  contextless_key q1 = Some key → contextless_key q2 = Some key →
  let s1 := routed_step s (Complete q1 e1) in
  s1 = s ∨ routed_step (routed_run s1 es) (Complete q2 e2) = routed_run s1 es.
Proof.
  intros H1 H2 s1. destruct (attempt_changes q1 e1 key s H1) as [Hs|[_ [x Hx]]]; [by left|right].
  destruct (attempt_changes q2 e2 key (routed_run s1 es) H2) as [Hs|[Hno _]]; [exact Hs|].
  fold s1 in Hx. by rewrite (attempts_kept_along s1 es key x Hx) in Hno.
Qed.

End Routing.

(** ** Histories *)

Definition a_stage (n : str) : WorkflowStage := mkStage n None None None None None (mkPolicy TManual None) None.

Definition three_stages : WorkflowDefinition :=
  mkWorkflow None None [a_stage (lit "plan"); a_stage (lit "build"); a_stage (lit "review")] None (Some 1) Public.

(** What preparing a run finds, in a fork of its own. *)
Definition prepared (branch : str) : Preparation :=
  mkPreparation
    (mkSpawn [] [] Main (Forked (mkWorkspace branch (lit "/w/" ++ branch))) None (lit "claude") None None [] Operator None (Some (lit "native")) (lit "/w/" ++ branch) false) [].

Definition calls : list RoutedEvent := replicate 12 (Engine (Call fine Delivered)).

Definition advance_to (branch : str) : list RoutedEvent := Advance None false false Operator (Some (prepared branch)) :: calls.
Definition revise (target branch : str) : list RoutedEvent := Revise true target (lit "again") (lit "no") None Unspecified (Some (prepared branch)) :: calls.

#[local] Existing Instance StageOpsProofs.a_task.

Definition routed_history (w : WorkflowDefinition) (es : list RoutedEvent) : Routed :=
  routed_run w (λ s, s) (λ _, None) (mkRouted (initial (lit "plan") None None) 0 ∅) es.

Definition reached (w : WorkflowDefinition) (es : list RoutedEvent) : list str := map snd (landed (world (engine (routed_history w es)))).

(** Through the stages, back once, and on; the agents may not go back again. *)
Definition there_and_back : list RoutedEvent :=
  advance_to (lit "a") ++ advance_to (lit "b") ++ revise (lit "build") (lit "c") ++ advance_to (lit "d") ++ revise (lit "plan") (lit "e").

Lemma stages_are_taken_in_order_witness :
  ∃ j, index_of three_stages (lit "review") = Some j
    ∧ ∀ k st, (0 ≤ k < j)%nat → stages three_stages !! k = Some st → ws_name st ∈ lit "plan" :: reached three_stages there_and_back.
Proof.
  apply (stages_are_taken_in_order three_stages (λ s, s) (λ _, None) 0 (a_stage (lit "plan")) None None there_and_back);
    [apply (bool_decide_unpack _); by vm_compute|done|repeat (split; [by vm_compute|]); exact I| |apply (bool_decide_unpack _); by vm_compute].
  repeat split. all: intros j Hj; vm_compute in Hj; injection Hj as <-; eexists; split; [by vm_compute|lia].
Defined.

Lemma agents_come_to_rest_witness :
  Forall by_an_agent there_and_back ∧ Z.of_nat (changes (lit "plan") (reached three_stages there_and_back)) < 6.
Proof.
  split; [by repeat constructor|].
  apply (agents_come_to_rest three_stages (λ s, s) (λ _, None) 0 (a_stage (lit "plan")) None None there_and_back);
    [apply (bool_decide_unpack _); by vm_compute|done|done|repeat (split; [by vm_compute|]); exact I|by repeat constructor].
Defined.

(** Forward, back once, forward again; the second revision of an agent parks. *)
Example revisions_run_out :
  reached three_stages there_and_back = [lit "review"; lit "build"; lit "review"; lit "build"]
  ∧ revision_rounds (routed_history three_stages there_and_back) = 1
  ∧ activity (db (world (engine (routed_history three_stages there_and_back)))) = lit "unread".
Proof. by vm_compute. Qed.

(** Two stages of one name are accepted, and the task that reaches the second is taken
    to be in the first: it goes round and never reaches what follows. *)
Definition same_names : WorkflowDefinition :=
  mkWorkflow None None (map a_stage [lit "plan"; lit "build"; lit "plan"; lit "review"]) None None Public.

Lemma second_of_a_name_is_never_passed :
  reached same_names (advance_to (lit "a") ++ advance_to (lit "b") ++ advance_to (lit "c") ++ advance_to (lit "d"))
  = [lit "plan"; lit "build"; lit "plan"; lit "build"].
Proof. by vm_compute. Qed.

(** A run recorded as a success, twice. *)
Definition done_with (run : option Z) (key : option str) : CompleteStageRequest := mkComplete run key None true (lit "{}") (lit "done").

Lemma verdict_is_recorded_once_witness :
  ∃ d' a' f, record_completion (db (world (history (up_to_landing ++ [Call fine Delivered])))) ∅ (done_with None None) = Ok (Recorded d' a' f)
    ∧ (Routing.complete_stage three_stages d' ∅ (done_with (Some (id f)) None)).1 = (d', ∅).
Proof.
  assert (∃ d' a' f, record_completion (db (world (history (up_to_landing ++ [Call fine Delivered])))) ∅ (done_with None None) = Ok (Recorded d' a' f))
    as (d' & a' & f & Hf) by (eexists _, _, _; vm_compute; reflexivity).
  exists d', a', f. split; [exact Hf|].
  destruct (verdict_is_recorded_once three_stages (db (world (history (up_to_landing ++ [Call fine Delivered])))) ∅ (done_with None None) d' a' f Hf) as [Hv Ha].
  exact (proj1 (Ha d' ∅ None (lit "done") Hv)).
Defined.

(** The review's verdict is sent twice, the task having gone on in between. *)
Definition in_review : Routed := routed_history three_stages (advance_to (lit "a") ++ advance_to (lit "b")).

Lemma attempt_takes_effect_once_witness :
  let q := done_with None (Some (lit "k")) in
  let step := Routing.routed_step three_stages (λ s, s) (λ _, None) in
  let s1 := step in_review (Complete q None) in
  s1 = in_review ∨ step (routed_run three_stages (λ s, s) (λ _, None) s1 (revise (lit "build") (lit "c"))) (Complete q None) = routed_run three_stages (λ s, s) (λ _, None) s1 (revise (lit "build") (lit "c")).
Proof. exact (attempt_takes_effect_once three_stages (λ s, s) (λ _, None) (lit "k") (done_with None (Some (lit "k"))) None (done_with None (Some (lit "k"))) None in_review (revise (lit "build") (lit "c")) eq_refl eq_refl). Defined.

Example the_first_attempt_counts :
  attempts (Routing.routed_step three_stages (λ s, s) (λ _, None) in_review (Complete (done_with None (Some (lit "k"))) None)) !! lit "k" = Some (2, lit "{}").
Proof. by vm_compute. Qed.
